(* ===== verification/_CoqProject ===== *)
-Q . S2P
Prelude.v
Crypto.v
Types.v
Text.v
Format.v
Storage.v
Config.v
GenConfig.v
Batch.v
Wire.v
Legacy.v
TxPool.v
PoolSpec.v
PoolTests.v
Keyed.v
NodeIO.v
Apollo.v
ApolloProofs.v
Artemis.v
ArtemisProofs.v
SyncHS.v
OptSync.v
SyncHSProofs.v
OptSyncProofs.v
Stats.v
KeyedClient.v
WindowClient.v
System.v
Network.v
ApolloNet.v
ArtemisNet.v
HSNet.v
SyncHSNet.v
OptSyncNet.v
WireMsgs.v
Meter.v
Launch.v
Widths.v
Disk.v
Cluster.v
StressTest.v
Report.v
Process.v
