(* ===== verification/Prelude.v ===== *)
(** * libapollo-rs, verified

    libapollo-rs is a Rust workspace with four replicated-log protocols
    (Apollo, Artemis, Sync HotStuff, Opt Sync) over a shared mempool.  A node
    is one process: a reactor task that owns the consensus state and reacts to
    messages, sealed batches and timers; mempool tasks that collect client
    transactions into batches; reliable senders to the other nodes and to the
    clients; a rocksdb store for batches behind an in-memory cache.  Around
    the nodes are the benchmark clients, the tool that writes a cluster's
    configuration, the binaries that start on it, and a harness that runs
    whole clusters.  This library models all of them as functions on explicit
    state and proves what they guarantee, and where they do not.

    ** Layout

    - Prelude.v (this file): unsigned arithmetic with wrap-around, record
      update [r <| f := v |>], the outcome monad [M S A] (a value and a state,
      a panic, or exhausted fuel) with loops and with what the proofs about
      handlers use: [wpp] (a predicate transformer that rules out exhausted
      fuel), [wpf] (one that does not, for invariants of a network), [keeps];
      and shared lemmas.
    - Crypto.v: the libraries outside the repository as classes: [Crypto]
      (libcrypto), [Store] (libstorage), [NetOracle] (the TLS senders); module
      [Toy] has concrete instances for the examples.
    - Types.v: types/src (blocks, votes, certificates, transactions, payloads,
      `Storage`); bincode as class [Bincode] with its laws [BincodeLaws], and
      [CollisionFree] for SHA-256; module [ToyFormat] satisfies the laws.
    - Storage.v: well-formed block stores and the loop that walks from a block
      to its first committed ancestor ([commit_walk], the `while` of both
      commit.rs files).
    - Text.v: what the binaries use of Rust's strings: numbers, trimming,
      splitting, lines, and the parser of `SocketAddr`; Format.v: padding,
      markers in a line, and `f64` as the class [F64].
    - Config.v: config/src (`Node`, `Client`, `validate`, `update_config`).
    - GenConfig.v: tools/genconfig/src/main.rs; keys and certificates are the
      class [KeyTools].
    - Batch.v: mempool/src/{tx,batch,cache,messages,sealer,receiver,batcher,
      processor}.rs; Legacy.v: their composition, `Mempool::spawn`.
    - Wire.v: what `#[derive(Serialize, Deserialize)]` and bincode make of the
      types, field by field and variant by variant, over the class [Wire] of
      integers, digests and addresses; it gives the operations of [Bincode]
      and their laws.
    - TxPool.v: mempool/src/tx_pool.rs, the keyed transaction pool;
      PoolSpec.v: its specification, one state machine per transaction key,
      and the refinement; PoolTests.v: the unit tests of tx_pool.rs, batch.rs
      and cache.rs, run on the model.
    - Keyed.v: mempool/src/{rr_batcher,client_listener,confirmation_router,
      lib}.rs: the tasks of `KeyedMempool` and their interleavings.
    - NodeIO.v: what the four `Context` structs share: senders with their
      cancel handlers, the batch store, the keys.
    - Apollo.v, ApolloProofs.v: consensus/apollo/src/node and
      types/src/msg/apollo.
    - Artemis.v, ArtemisProofs.v: consensus/artemis/src/node and
      types/src/msg/artemis.
    - SyncHS.v, SyncHSProofs.v: consensus/synchs/src/node and
      types/src/msg/synchs; class [DelayQueue] is tokio_util's.
    - OptSync.v, OptSyncProofs.v: consensus/optsync/src/node; the functions
      that are textually those of Sync HotStuff are shared ([zoom]).
    - Stats.v: consensus/src/lib.rs, the statistics of the clients.
    - KeyedClient.v: the client of Apollo and Artemis (consensus/*/src/client,
      normal_client); WindowClient.v: that of Sync HotStuff and Opt Sync.
    - System.v: the Apollo reactor together with the batcher of its mempool.
    - Network.v: worlds of nodes and messages in flight, for any protocol;
      ApolloNet.v, ArtemisNet.v: a network of Apollo, of Artemis nodes;
      HSNet.v, SyncHSNet.v, OptSyncNet.v: of Sync HotStuff and of Opt Sync
      nodes.
    - WireMsgs.v: the `Message` implementations of the protocols (proto.rs,
      messages.rs) and the receive loop of a reactor: nodes fed with bytes.
    - Meter.v: the throughput that Apollo and Artemis nodes report.
    - Launch.v: the mains of examples/*/{node,client}, from the command line
      to the reactor; the host's files are the class [Host].
    - Widths.v: the machine widths of the configurations.
    - Disk.v: files as bytes: the writers of util/src/io.rs, the readers of
      config/src, the certificates and `main` of genconfig; serde's formats,
      openssl and the disk are the classes [Serde], [OpenSSL], [HostDisk].
    - Cluster.v: the nodes that start on one set of generated files.
    - StressTest.v: stress-test/src/main.rs; the child processes are the class
      [Children].
    - Report.v: the lines that clients and nodes print and the harness reads,
      and the metrics of artemis/src/node/metrics.rs as they are printed.
    - Process.v: what the mains do besides: descriptor limit, log level, TLS
      identity.

    ** How code is modelled

    A struct is a record with the source's field names, an enum an inductive
    type, a handler a definition of the same name in the monad [M Context].
    `unwrap`, `expect`, `panic!`, `unreachable!` and a missing map key give
    [Panicked].  HashMaps are [gmap]s, BTreeMap order is written out
    ([TxPool.btree_first], [TxPool.btree_range]), VecDeques and channels are
    lists, oldest first.  `Arc` and logging leave no trace; what is printed for
    benchmarks is a list of lines.  `usize` and `u64` are numbers below 2^64
    and wrap where the code adds or subtracts (a release build);
    `debug_assert!` is absent from it.  One counter is the exception: the round
    of an Apollo and of an Artemis node ([Apollo.update_round],
    [Artemis.update_round]), which the code increments by one from 1 on, is
    kept unbounded; the model is that of the code for the first 2^64 rounds.

    A reactor is a function of a list of inputs ([run]): each is one turn of
    the `select!` loop with the event that fired, or a batch that the mempool
    tasks put into the shared cache between two turns.  Everything an
    adversary controls (messages, their order, which sends succeed, what the
    store returns, the clock) is an input or a class parameter, so a theorem
    about [run] is about every schedule.  A network ([Network.step]) runs such
    nodes together: a step gives one node one turn, on messages that were sent
    or that an adversary may forge under the stated limits.  In Keyed.v the channels between the
    tasks are part of the state and a schedule says which task runs next.

    Loops take fuel.  `process_message` and the leader loops get the length of
    the queue they drain plus one; the commit walk the number of delivered
    blocks plus one, because each round commits a block that was not committed
    ([Storage.uncommitted_lt]); the loop over future messages of Apollo twice
    the number of messages that wait plus two ([Apollo.future_fuel]).  [wpp]
    is false of exhausted fuel, so every theorem stated with it, or that gives
    a [Done], also says that the loops end.

    ** What is proved

    - The transaction pool: its invariant over any history (byte counter,
      disjoint Mineable and InFlight, index by round), no transaction is
      handed out again after it was committed, nor twice without a rollback,
      and the effect of `make_batch`, `commit` and `rollback`; the pool
      refines a state machine per transaction key, whose states are those of
      the header of tx_pool.rs.
    - The keyed mempool: at most one batch a round, every batch that reaches
      consensus is cached under its hash, one confirmation a registration;
      invariants of every interleaving.  The legacy mempool: whatever the
      interleaving, consensus gets the received stream in consecutive slices.
    - Agreement: in a network of Apollo nodes, and in one of Artemis nodes,
      that loses, duplicates, delays and redirects messages, no two nodes
      commit different blocks at a height, however many of them stop; and in
      the Apollo network no message makes a node panic but a blame, which
      always does.  What the adversary
      may inject is limited to proposals, blocks and votes that some node
      made: two examples show what goes wrong beyond that.  In a network of
      Opt Sync nodes with an honest leader what the nodes commit is one chain,
      even if votes are forged; in one of Sync HotStuff nodes it is blocks of
      height 1 that the leader proposed, and nothing else.
    - Bytes: every message arrives as it was sent, caches refilled, and what
      was decoded can be sent on; whatever frames reach a node, those that
      decode are handed to its handlers in order of arrival until a channel
      closes, each burst sorted by kind, and an Apollo node keeps its
      invariant, an Artemis node does not stop but for a blame.  The mempool crate's unit
      tests pass on the model, for every codec.
    - Apollo: the invariant of any run with any messages; runs in which
      parents come first never panic; what a proposal commits and announces;
      a run of valid proposals is accepted and commits all but the last f; the
      batcher of the mempool follows the reactor's round and leader and seals
      nothing that the reactor had committed before.
    - Artemis: no run panics but for a blame message; the leader schedule
      never repeats one of the last f leaders; what a vote commits, and that
      only a vote of the round leader does; a run of awaited votes is accepted
      and commits all but the last f.
    - Sync HotStuff and Opt Sync: [check_proposal] decides its specification;
      certificates carry enough genuine votes; nothing is committed before 2Δ
      or, in Opt Sync, without a responsive certificate; runs with well-formed
      votes and proposals of view 0 never panic.
    - Clients: the keyed client's confirmations never exceed what it sent and
      every burst that is committed comes back through router and network; the
      window client never has more than its window outstanding beyond what
      announced blocks returned to it.  Latencies are true medians.
    - Set-up: the files genconfig writes are valid and agree with each other;
      every binary boots on its file and an `ip` file, with peers and intakes
      at matching addresses and a TLS identity the cluster's root signed, and
      verifies what the others sign; from the bytes on the disk on, a
      configuration in json, bincode or yaml reads back as it was written and
      names a certificate chain that the root's key signed, while toml never
      works; its integers fit their types.  The same cluster for the arguments and ip files of the
      harness, whose ports neither wrap nor collide for 148 runs.
    - Numbers: the throughput the harness reports is the median over windows
      whose transactions are exactly the committed ones; the latencies it
      reports are those the clients measured.
    - Defects, as theorems or evaluated examples: a faulty Apollo leader can
      crash the others and equivocate unnoticed; proposals and votes in one's
      own name are not checked; Artemis asks for the wrong block; a Sync
      HotStuff cluster never leaves height 1; f signers make a certificate; a
      malformed vote stops a Sync HotStuff or Opt Sync node; an old Apollo
      proposal can be replayed under a later round; a Response carries blocks
      into an Artemis node that nobody signed.

    ** What is not modelled

    The cryptography, the transport (TLS, TCP, reconnection), the database,
    serde's formats, openssl, floating point and the command line parser: code
    outside the repository, parameters where the code relies on it (of clap,
    that the arguments cli.yml requires are there).  The text of log lines, and
    `Debug` texts.  What the harness' child processes do between their start
    and what they print, and how they are killed.
    `examples/apollo/node/src/colton.rs`, a chat demo, and
    types/src/msg/optsync/{proto,propose}.rs, which no target compiles;
    genconfig's test of rustls; and the Python scripts under scripts/. *)

From stdpp Require Export prelude gmap strings list fin_maps sorting relations ssreflect.

(** ** Machine integers

    The workspace is built with `cargo build --release` and no
    `overflow-checks`, so unsigned arithmetic wraps.  A w-bit integer is an
    [N]; the wrap is written out (but for the rounds of Apollo and Artemis, see
    above). *)

Definition u64_size : N := 18446744073709551616.
Definition u16_size : N := 65536.

Definition wrap64 (x : N) : N := (x mod u64_size)%N.
Definition add64 (a b : N) : N := wrap64 (a + b)%N.
Definition sub64 (a b : N) : N := wrap64 (a + (u64_size - wrap64 b))%N.
Definition sat_add64 (a b : N) : N := N.min (a + b)%N (u64_size - 1)%N.
Definition as_u16 (x : N) : N := (x mod u16_size)%N.
Definition add16 (a b : N) : N := as_u16 (a + b)%N.

Definition u128_size : N := u64_size * u64_size.
Definition wrap128 (x : N) : N := (x mod u128_size)%N.
Definition add128 (a b : N) : N := wrap128 (a + b)%N.
Definition sub128 (a b : N) : N := wrap128 (a + (u128_size - wrap128 b))%N.

Declare Scope u64_scope.
Delimit Scope u64_scope with u64.
Notation "a + b" := (add64 a b) : u64_scope.
Notation "a - b" := (sub64 a b) : u64_scope.

(** ** Record update

    [r <| f := v |>] replaces the field [f] of [r].  A record type opts in
    with an [Eta] instance that rebuilds a value from its own projections. *)

Class Eta (R : Type) := eta : R → R.
Class Setter {R E : Type} (proj : R → E) := set : (E → E) → R → R.
Arguments set {R E} proj {_} _ _.
#[global] Typeclasses Opaque Eta Setter.

Ltac build_setter :=
  match goal with
  | |- @Setter ?R ?E ?proj =>
      let i := constr:(_ : Eta R) in
      let e := eval red in i in
      exact (λ (f : E → E) (x : R),
        ltac:(let t := eval cbv beta in (e x) in
              match eval pattern (proj x) in t with
              | ?g _ => let r := eval cbv beta in (g (f (proj x))) in exact r
              end))
  end.
#[export] Hint Extern 1 (Setter _) => build_setter : typeclass_instances.

Declare Scope record_scope.
Delimit Scope record_scope with rec.
Notation "r <| f := v |>" := (set f (λ _, v) r)
  (at level 12, left associativity, f at next level, v at level 200,
   format "r  <| f  :=  v |>") : record_scope.
Notation "r <| f ::= g |>" := (set f g r)
  (at level 12, left associativity, f at next level, g at level 200,
   format "r  <| f  ::=  g |>") : record_scope.
Open Scope record_scope.

(** ** Outcomes of handlers

    A handler of the reactor is a function on the node's state that returns a
    value, panics (`unwrap`, `expect`, `panic!`, an index out of range: the
    process dies), or exhausts the fuel a loop was given. *)

Inductive outcome (S A : Type) :=
  | Done (a : A) (s : S)
  | Panicked (why : string)
  | OutOfFuel.
Arguments Done {S A} a s.
Arguments Panicked {S A} why.
Arguments OutOfFuel {S A}.

Definition M (S A : Type) : Type := S → outcome S A.

Definition ret {S A} (a : A) : M S A := λ s, Done a s.
Definition bind {S A B} (m : M S A) (f : A → M S B) : M S B := λ s,
  match m s with
  | Done a s' => f a s'
  | Panicked why => Panicked why
  | OutOfFuel => OutOfFuel
  end.

Declare Scope rs_scope.
Delimit Scope rs_scope with rs.
Notation "'let!' x := m 'in' k" := (bind m (λ x, k))
  (at level 10, x name, m at level 200, k at level 200,
   format "'[v' 'let!'  x  :=  m  'in' '/' k ']'") : rs_scope.
Notation "'let!' ' p := m 'in' k" := (bind m (λ x, match x with p => k end))
  (at level 10, p strict pattern, m at level 200, k at level 200) : rs_scope.
Notation "m ';;;' k" := (bind m (λ _, k))
  (at level 199, right associativity, format "'[v' m  ';;;' '/' k ']'") : rs_scope.
Open Scope rs_scope.

Definition get {S} : M S S := λ s, Done s s.
Definition gets {S A} (f : S → A) : M S A := λ s, Done (f s) s.
Definition modify {S} (f : S → S) : M S unit := λ s, Done tt (f s).
Definition panic {S A} (why : string) : M S A := λ _, Panicked why.
(** `Option::unwrap` / `Option::expect`. *)
Definition unwrap {S A} (why : string) (o : option A) : M S A :=
  match o with Some a => ret a | None => panic why end.

(** `while body() {}`: [body] says whether to go on. *)
Fixpoint loop {S} (fuel : nat) (body : M S bool) : M S unit :=
  match fuel with
  | O => λ _, OutOfFuel
  | Datatypes.S fuel' => let! b := body in if b then loop fuel' body else ret tt
  end.

(** `for x in xs`. *)
Fixpoint for_each {S A} (xs : list A) (body : A → M S unit) : M S unit :=
  match xs with
  | [] => ret tt
  | x :: xs' => body x;;; for_each xs' body
  end.

(** *** What a handler guarantees

    [wpp pn m Φ s]: run from [s], [m] does not exhaust its fuel, if it
    returns then [Φ] holds of the value and the final state, and it panics
    only if [pn].  [wp] forbids panics, [wlp] allows them. *)

Definition wpp {S A} (pn : Prop) (m : M S A) (Φ : A → S → Prop) (s : S) : Prop :=
  match m s with
  | Done a s' => Φ a s'
  | Panicked _ => pn
  | OutOfFuel => False
  end.
Abbreviation wp := (wpp False).
Abbreviation wlp := (wpp True).

Section wpp.
Context {S : Type} {pn : Prop}.
Implicit Types s : S.

Lemma wpp_ret {A} (a : A) (Φ : A → S → Prop) s :
  Φ a s → wpp pn (ret a) Φ s.
Proof. done. Qed.

Lemma wpp_bind {A B} (m : M S A) (f : A → M S B) Φ s :
  wpp pn m (λ a s', wpp pn (f a) Φ s') s → wpp pn (bind m f) Φ s.
Proof. rw /wpp /bind. by destruct (m s). Qed.

Lemma wpp_bind_inv {A B} (m : M S A) (f : A → M S B) Φ s :
  wpp pn (bind m f) Φ s → wpp pn m (λ a s', wpp pn (f a) Φ s') s.
Proof. rw /wpp /bind. by destruct (m s). Qed.

Lemma wpp_get (Φ : S → S → Prop) s : Φ s s → wpp pn get Φ s.
Proof. done. Qed.

Lemma wpp_gets {A} (f : S → A) (Φ : A → S → Prop) s :
  Φ (f s) s → wpp pn (gets f) Φ s.
Proof. done. Qed.

Lemma wpp_modify (f : S → S) (Φ : unit → S → Prop) s :
  Φ tt (f s) → wpp pn (modify f) Φ s.
Proof. done. Qed.

Lemma wpp_panic {A} why (Φ : A → S → Prop) s : pn → wpp pn (panic why) Φ s.
Proof. done. Qed.

Lemma wpp_unwrap {A} why (o : option A) (Φ : A → S → Prop) s :
  (∀ a, o = Some a → Φ a s) → (o = None → pn) →
  wpp pn (unwrap why o) Φ s.
Proof. destruct o; rw /wpp /=; eauto. Qed.

Lemma wpp_mono {A} (m : M S A) (Φ Ψ : A → S → Prop) s :
  wpp pn m Φ s → (∀ a s', Φ a s' → Ψ a s') → wpp pn m Ψ s.
Proof. rw /wpp. destruct (m s); eauto. Qed.

Lemma wpp_and {A} (m : M S A) (Φ Ψ : A → S → Prop) s :
  wpp pn m Φ s → wpp pn m Ψ s → wpp pn m (λ a s', Φ a s' ∧ Ψ a s') s.
Proof. rw /wpp. destruct (m s); eauto. Qed.

Lemma wpp_if {A} (b : bool) (m1 m2 : M S A) Φ s :
  (b = true → wpp pn m1 Φ s) → (b = false → wpp pn m2 Φ s) →
  wpp pn (if b then m1 else m2) Φ s.
Proof. destruct b; auto. Qed.

(** A loop whose body keeps [I] and lowers [μ] at every round ends within
    [fuel] rounds as soon as [fuel] exceeds [μ]. *)
Lemma wpp_loop (I : S → Prop) (μ : S → nat) (Φ : S → Prop) body fuel s :
  (∀ s, I s →
    wpp pn body (λ (b : bool) s', if b then I s' ∧ μ s' < μ s else Φ s') s) →
  I s → μ s < fuel → wpp pn (loop fuel body) (λ _, Φ) s.
Proof.
  intros Hbody. revert s. induction fuel as [|fuel IH]; [lia|].
  intros s HI Hμ. simpl. apply wpp_bind. eapply wpp_mono; [by apply Hbody|].
  intros [] s'; simpl; [|done]. intros [??]. apply IH; [done|lia].
Qed.

Lemma wpp_for_each {A} (I : list A → S → Prop) (xs : list A) body s :
  (∀ x done rest s, xs = done ++ x :: rest → I done s →
    wpp pn (body x) (λ _ s', I (done ++ [x]) s') s) →
  I [] s → wpp pn (for_each xs body) (λ _ s', I xs s') s.
Proof.
  intros Hbody. enough (∀ done rest s, xs = done ++ rest → I done s →
    wpp pn (for_each rest body) (λ _ s', I xs s') s) as H by (intros; by eapply (H [])).
  clear s. intros done rest. revert done.
  induction rest as [|x rest IH]; intros done s Hxs HI; simpl.
  - apply wpp_ret. by rw Hxs app_nil_r.
  - apply wpp_bind. eapply wpp_mono; [by eapply Hbody|].
    intros [] s'. apply IH. by rw -app_assoc.
Qed.
End wpp.

Lemma wpp_weaken {S A} (pn pn' : Prop) (m : M S A) Φ (s : S) :
  wpp pn m Φ s → (pn → pn') → wpp pn' m Φ s.
Proof. rw /wpp. destruct (m s); eauto. Qed.

Lemma wpp_done {S A} (m : M S A) Φ (s : S) :
  wp m Φ s → ∃ a s', m s = Done a s' ∧ Φ a s'.
Proof. rw /wpp. destruct (m s); naive_solver. Qed.

Lemma wlp_done {S A} (m : M S A) (Φ : A → S → Prop) (s : S) a s' :
  wlp m Φ s → m s = Done a s' → Φ a s'.
Proof. rw /wpp. intros H E. by rw E in H. Qed.

(** To run a handler on a concrete state: check that it returns, then take
    its final state. *)
Definition is_done {S A} (o : outcome S A) : bool :=
  match o with Done _ _ => true | _ => false end.
Definition final {S A} (s : S) (o : outcome S A) : S :=
  match o with Done _ s' => s' | _ => s end.
Lemma is_done_final {S} (o : outcome S unit) s : is_done o = true → o = Done tt (final s o).
Proof. by destruct o as [[]| |]. Qed.

(** A loop whose body is a total function of the state. *)
Lemma for_each_run {S A} (xs : list A) (body : A → M S unit) (f : A → S → S) (s : S) :
  (∀ x s, x ∈ xs → body x s = Done tt (f x s)) →
  for_each xs body s = Done tt (foldl (λ s x, f x s) s xs).
Proof.
  revert s. induction xs as [|x xs IH]; intros s Hb; [done|]. simpl. unfold bind.
  rw Hb; [|constructor]. apply IH. intros y s' Hy. apply Hb. by constructor.
Qed.

(** One step of symbolic execution of a handler. *)
Ltac wpp_step :=
  lazymatch goal with
  | |- wpp _ (bind _ _) _ _ => apply wpp_bind
  | |- wpp _ (ret _) _ _ => apply wpp_ret
  | |- wpp _ get _ _ => apply wpp_get
  | |- wpp _ (gets _) _ _ => apply wpp_gets
  | |- wpp _ (modify _) _ _ => apply wpp_modify
  | |- wpp _ (unwrap _ (Some _)) _ _ => apply wpp_ret
  | |- wpp _ (if _ then _ else _) _ _ => apply wpp_if; intros ?
  end.
Ltac wpp_go := repeat (wpp_step; cbv beta).

(** *** Properties that a handler keeps

    [keeps I m]: if [m] returns, it leaves [I] as it found it.  For invariants
    that no panic and no exhausted loop can endanger. *)
Definition keeps {S A} (I : S → Prop) (m : M S A) : Prop :=
  ∀ s a s', I s → m s = Done a s' → I s'.

Section keeps.
Context {S : Type} (I : S → Prop).

Lemma keeps_ret {A} (a : A) : keeps I (ret a).
Proof. by intros s a' s' Hs [= <- <-]. Qed.
Lemma keeps_get : keeps I get.
Proof. by intros s a' s' Hs [= <- <-]. Qed.
Lemma keeps_panic {A} why : keeps I (panic (A:=A) why).
Proof. by intros s a s' Hs. Qed.
Lemma keeps_out_of_fuel {A} : keeps I (λ _, OutOfFuel : outcome S A).
Proof. by intros s a s' Hs. Qed.
Lemma keeps_unwrap {A} why (o : option A) : keeps I (unwrap why o).
Proof. destruct o; [apply keeps_ret|apply keeps_panic]. Qed.
Lemma keeps_modify f : (∀ s, I s → I (f s)) → keeps I (modify f).
Proof. intros Hf s a s' Hs [= <- <-]. by apply Hf. Qed.
Lemma keeps_bind {A B} (m : M S A) (f : A → M S B) :
  keeps I m → (∀ a, keeps I (f a)) → keeps I (bind m f).
Proof.
  intros Hm Hf s b s' Hs. unfold bind. destruct (m s) as [a s1| |] eqn:E; [|done..].
  apply (Hf a). by eapply Hm.
Qed.
Lemma keeps_if {A} (b : bool) (m1 m2 : M S A) :
  keeps I m1 → keeps I m2 → keeps I (if b then m1 else m2).
Proof. by destruct b. Qed.
Lemma keeps_loop fuel body : keeps I body → keeps I (loop fuel body).
Proof.
  intros Hb. induction fuel as [|fuel IH]; simpl; [apply keeps_out_of_fuel|].
  apply keeps_bind; [done|]. intros []; [done|apply keeps_ret].
Qed.
Lemma keeps_for_each {A} (xs : list A) body :
  (∀ x, keeps I (body x)) → keeps I (for_each xs body).
Proof.
  intros Hb. induction xs as [|x xs IH]; simpl; [apply keeps_ret|by apply keeps_bind].
Qed.
End keeps.

Create HintDb keeps.
#[export] Hint Resolve keeps_ret keeps_get keeps_panic keeps_out_of_fuel keeps_unwrap keeps_bind
  keeps_if keeps_loop keeps_for_each : keeps.

(** Walk through a handler; [leaf] deals with the changes of the state. *)
Ltac keeps_go leaf :=
  repeat first
    [ progress intros | solve [trivial with keeps] | apply keeps_bind | apply keeps_if | apply keeps_loop
    | apply keeps_for_each | leaf | solve [eauto with keeps]
    | match goal with |- keeps _ (match ?x with _ => _ end) => destruct x end ].

(** *** Guarantees up to fuel

    [wpf pn m Φ s]: like [wpp], but [m] may exhaust its fuel.  [safely] forbids
    panics, [after] allows them; with [wlp], which rules out an exhausted
    loop, [safely] gives [wp]. *)
Definition wpf {S A} (pn : Prop) (m : M S A) (Φ : A → S → Prop) (s : S) : Prop :=
  match m s with Done a s' => Φ a s' | Panicked _ => pn | OutOfFuel => True end.
Abbreviation safely := (wpf False).
Abbreviation after := (wpf True).
(** A handler that keeps [I], and panics only if [pn] where it holds. *)
Definition guards_pn {S A} (pn : Prop) (I : S → Prop) (m : M S A) : Prop :=
  ∀ s, I s → wpf pn m (λ _, I) s.
Abbreviation guards := (guards_pn False).

Lemma safely_and_wlp {S A} (m : M S A) (Φ Ψ : A → S → Prop) (s : S) :
  safely m Φ s → wlp m Ψ s → wp m (λ a s', Φ a s' ∧ Ψ a s') s.
Proof. rw /wpp /wpf. by destruct (m s). Qed.
Lemma after_and_wp {S A} (m : M S A) (Φ Ψ : A → S → Prop) (s : S) :
  after m Φ s → wp m Ψ s → wp m (λ a s', Φ a s' ∧ Ψ a s') s.
Proof. rw /wpp /wpf. by destruct (m s). Qed.

Section safely.
Context {S : Type} {pn : Prop}.
Implicit Types (s : S) (I : S → Prop).

Lemma safely_wp {A} (m : M S A) Φ s : wpp pn m Φ s → wpf pn m Φ s.
Proof. rw /wpp /wpf. by destruct (m s). Qed.
Lemma safely_keeps {A} I (m : M S A) Φ s :
  keeps I m → I s → wpf pn m Φ s → wpf pn m (λ a s', Φ a s' ∧ I s') s.
Proof.
  intros Hk Hs. rw /wpf. specialize (Hk s). destruct (m s); [|done..]. eauto.
Qed.
Lemma safely_mono {A} (m : M S A) (Φ Ψ : A → S → Prop) s :
  wpf pn m Φ s → (∀ a s', Φ a s' → Ψ a s') → wpf pn m Ψ s.
Proof. rw /wpf. destruct (m s); eauto. Qed.
Lemma safely_bind {A B} (m : M S A) (f : A → M S B) Φ s :
  wpf pn m (λ a s', wpf pn (f a) Φ s') s → wpf pn (bind m f) Φ s.
Proof. rw /wpf /bind. by destruct (m s). Qed.
Lemma safely_get (Φ : S → S → Prop) s : Φ s s → wpf pn get Φ s.
Proof. done. Qed.
Lemma safely_ret {A} (a : A) (Φ : A → S → Prop) s : Φ a s → wpf pn (ret a) Φ s.
Proof. done. Qed.
Lemma safely_modify (f : S → S) (Φ : unit → S → Prop) s : Φ tt (f s) → wpf pn (modify f) Φ s.
Proof. done. Qed.
Lemma safely_unwrap {A} why (o : option A) (Φ : A → S → Prop) s :
  (∀ a, o = Some a → Φ a s) → (o = None → pn) → wpf pn (unwrap why o) Φ s.
Proof. destruct o; rw /wpf /=; eauto. Qed.
Lemma safely_if {A} (b : bool) (m1 m2 : M S A) Φ s :
  (b = true → wpf pn m1 Φ s) → (b = false → wpf pn m2 Φ s) →
  wpf pn (if b then m1 else m2) Φ s.
Proof. destruct b; auto. Qed.

Lemma guards_ret {A} I (a : A) : guards_pn pn I (ret a).
Proof. by intros s Hs. Qed.
Lemma guards_modify I f : (∀ s, I s → I (f s)) → guards_pn pn I (modify f).
Proof. intros Hf s Hs. by apply safely_modify, Hf. Qed.
Lemma guards_bind {A B} I (m : M S A) (f : A → M S B) :
  guards_pn pn I m → (∀ a, guards_pn pn I (f a)) → guards_pn pn I (bind m f).
Proof.
  intros Hm Hf s Hs. apply safely_bind. eapply safely_mono; [by apply Hm|].
  intros a s' Hs'. by apply Hf.
Qed.
(** What is read satisfies the invariant. *)
Lemma guards_get {A} I (f : S → M S A) :
  (∀ s, I s → guards_pn pn I (f s)) → guards_pn pn I (bind get f).
Proof. intros Hf s Hs. by apply safely_bind, safely_get, Hf. Qed.
Lemma guards_loop I fuel body : guards_pn pn I body → guards_pn pn I (loop fuel body).
Proof.
  intros Hb. induction fuel as [|fuel IH]; intros s Hs; [done|]. simpl.
  apply safely_bind. eapply safely_mono; [by apply Hb|]. intros [] s' Hs'; [by apply IH|done].
Qed.
Lemma guards_for_each {A} I (xs : list A) body :
  (∀ x, x ∈ xs → guards_pn pn I (body x)) → guards_pn pn I (for_each xs body).
Proof.
  induction xs as [|x xs IH]; intros Hb; [by intros s Hs|]. simpl. apply guards_bind.
  - apply Hb. constructor.
  - intros _. apply IH. intros y Hy. apply Hb. by constructor.
Qed.
End safely.

(** ** Wrap-around arithmetic *)
Ltac solve_wrap :=
  unfold add64, sub64, sat_add64, wrap64, u64_size in *;
  zify; Z.to_euclidean_division_equations; lia.

Lemma wrap64_small x : (x < u64_size)%N → wrap64 x = x.
Proof. apply N.mod_small. Qed.

Lemma add64_small a b : (a + b < u64_size)%N → add64 a b = (a + b)%N.
Proof. apply N.mod_small. Qed.

Lemma sub64_small a b : (b ≤ a)%N → (a < u64_size)%N → sub64 a b = (a - b)%N.
Proof. intros. solve_wrap. Qed.

Lemma add64_wrap a b : add64 (wrap64 a) b = wrap64 (b + a).
Proof. unfold add64, wrap64. rw N.Div0.add_mod_idemp_l N.add_comm //. Qed.

Lemma sub64_wrap a b : sub64 (wrap64 (b + a)) b = wrap64 a.
Proof. solve_wrap. Qed.

(** ** Folds that keep a property *)
Lemma foldl_inv {A B} (P : A → Prop) (f : A → B → A) (l : list B) (a : A) :
  (∀ a b, b ∈ l → P a → P (f a b)) → P a → P (foldl f a l).
Proof.
  revert a. induction l as [|b l IH]; intros a Hf Ha; [done|]. simpl.
  apply IH; [|apply Hf; [constructor|done]].
  intros a' b' Hin. apply Hf. by constructor.
Qed.

(** ** Counting *)
Definition countb {A} (p : A → bool) (l : list A) : nat :=
  foldr (λ a n, (if p a then 1 else 0) + n) 0 l.

Lemma countb_app {A} (p : A → bool) (l l' : list A) :
  countb p (l ++ l') = countb p l + countb p l'.
Proof. induction l as [|a l IH]; simpl; [done|]. rw IH. lia. Qed.

(** A boolean check of every entry of a finite map. *)
Lemma forallb_map {K V} `{Countable K} (m : gmap K V) (f : V → bool) :
  forallb (λ kv, f kv.2) (map_to_list m) = true → ∀ k v, m !! k = Some v → f v = true.
Proof.
  intros Hf k v Hk. rw forallb_forall in Hf. apply (Hf (k, v)).
  by apply list_elem_of_In, elem_of_map_to_list.
Qed.

(** ** Outgoing messages: those addressed to [s], in order *)
Definition sent_to {A} (s : N) (out : list (N * A)) : list A := (filter (λ m, m.1 = s) out).*2.

Lemma sent_to_app {A} s (out1 out2 : list (N * A)) :
  sent_to s (out1 ++ out2) = sent_to s out1 ++ sent_to s out2.
Proof. unfold sent_to. by rw filter_app fmap_app. Qed.

(** A broadcast reaches every addressee once. *)
Lemma sent_to_broadcast {A} s (servers : list N) (x : A) :
  NoDup servers → s ∈ servers → sent_to s ((λ s, (s, x)) <$> servers) = [x].
Proof.
  intros Hnd Hin. unfold sent_to. induction Hnd as [|y l Hy Hnd IH];
    [by apply not_elem_of_nil in Hin|]. simpl. rw filter_cons.
  destruct (decide (y = s)) as [->|Hne]; simpl.
  - rw decide_True //. simpl. f_equal. clear IH Hin Hnd. induction l as [|z l IH]; [done|].
    apply not_elem_of_cons in Hy as [? ?]. simpl. rw filter_cons decide_False //. by apply IH.
  - rw decide_False //. apply IH. apply elem_of_cons in Hin as [->|]; done.
Qed.
