(* ===== verification/Crypto.v ===== *)
(** * The libraries a node is linked with

    libcrypto (hashes, signatures), libstorage (the rocksdb batch store),
    libnet (the reliable senders) and bincode are crates outside the
    repository.  They are class parameters of the model; what a theorem needs
    of them is a named law. *)

From S2P Require Import Prelude.

(** A byte string, `Vec<u8>`. *)
Abbreviation bytes := (list N).

(** ** libcrypto

    `Hash<T>` is a 32-byte digest with a phantom type; [Hash] forgets the
    phantom, so the `Hash::<T>::try_from(h.as_ref())` retagging of the source
    is the identity here. *)
Class Crypto := {
  Hash : Type;
  Hash_eq_dec :: EqDecision Hash;
  Hash_countable :: Countable Hash;
  EMPTY_HASH : Hash;
  do_hash : bytes → Hash;
  hash_as_ref : Hash → bytes;
  Keypair : Type;
  PublicKey : Type;
  sk_sign : Keypair → bytes → option bytes;
  pk_verify : PublicKey → bytes → bytes → bool;
  (** `bincode::deserialize` of a key found in a config file. *)
  de_keypair : bytes → option Keypair;
  de_public_key : bytes → option PublicKey;
}.

(** ** libstorage: `batch_store.write(key, value)`, `batch_store.read(key)`.
    A read that fails and a read that finds nothing are the same to the code. *)
Class Store := {
  store : Type;
  store_write : bytes → bytes → store → store;
  store_read : bytes → store → option bytes;
}.

(** ** libnet: `TlsReliableSender`

    Every send is given a number.  [send_ok k r] says whether send number [k]
    to peer [r] is accepted (`Ok(CancelHandler)`), [send_pending t k] whether
    handler [k] is still unresolved when it is polled after [t] sends
    (`try_recv()` is `Err(TryRecvError::Empty)`). *)
Class NetOracle := {
  send_ok : N → N → bool;
  send_pending : N → N → bool;
}.

(** ** Concrete libraries, for the examples

    A hash that prepends a tag (so it is injective and never [EMPTY_HASH]),
    a signature that is the key followed by the message, a finite-map store
    and a network that accepts everything. *)
Module Toy.
#[export] Instance crypto : Crypto := {|
  Hash := list N;
  EMPTY_HASH := [];
  do_hash bs := 1%N :: bs;
  hash_as_ref h := h;
  Keypair := N;
  PublicKey := N;
  sk_sign k m := Some (k :: m);
  pk_verify k m s := bool_decide (s = k :: m);
  de_keypair bs := head bs;
  de_public_key bs := head bs;
|}.

#[export] Instance kv_store : Store := {|
  store := gmap bytes bytes;
  store_write k v s := <[k := v]> s;
  store_read k s := s !! k;
|}.

#[export] Instance net : NetOracle := {|
  send_ok _ _ := true;
  send_pending _ _ := true;
|}.
End Toy.
