(* ===== verification/Types.v ===== *)
(** * The `types` crate

    Blocks, votes, certificates, transactions and the per-node block index
    (`types/src`), with the caching and hashing the source does. *)

From S2P Require Import Prelude Crypto.

Abbreviation Replica := N (only parsing).
Abbreviation Height := N (only parsing).
Abbreviation View := N (only parsing).
Abbreviation Round := N (only parsing).
Abbreviation ClientId := N (only parsing).

Section types.
Context `{Crypto}.

(** ** types/src/msg/vote.rs, cert.rs *)
Record Vote := mkVote { origin : Replica; auth : bytes }.

Inductive CertType :=
  | CTBlame (r : Replica) (v : View)
  | CTVote (v : View) (h : Hash)
  | CTQuitView (v : View) (h : Hash)
  | CTDEFAULT.

Record Certificate := mkCertificate { cert_msg : CertType; votes : list Vote }.

Definition empty_cert : Certificate :=
  {| votes := []; cert_msg := CTDEFAULT |}.

#[export] Instance Vote_eq_dec : EqDecision Vote.
Proof. solve_decision. Defined.
#[export] Instance CertType_eq_dec : EqDecision CertType.
Proof. solve_decision. Defined.
#[export] Instance Certificate_eq_dec : EqDecision Certificate.
Proof. solve_decision. Defined.

(** ** types/src/msg/tx.rs *)
Record Transaction := mkTransaction {
  client_id : ClientId;
  nonce : N;
  data : bytes;
  request : bytes;
}.
#[export] Instance Transaction_eq_dec : EqDecision Transaction.
Proof. solve_decision. Defined.

(** `u64::to_be_bytes`: eight bytes, most significant first. *)
Definition to_be_bytes (x : N) : bytes :=
  (λ i, (x / 2 ^ (8 * i)) mod 256)%N <$> [7; 6; 5; 4; 3; 2; 1; 0]%N.

Definition new_dummy_tx_keyed (c n : N) (payload : nat) : Transaction :=
  {| client_id := c; nonce := n; data := to_be_bytes n;
     request := replicate payload 1%N |}.

Definition new_dummy_tx (i : N) (payload : nat) : Transaction :=
  new_dummy_tx_keyed 0 i payload.

Lemma to_be_bytes_inj x y :
  (x < u64_size)%N → (y < u64_size)%N → to_be_bytes x = to_be_bytes y → x = y.
Proof.
  intros Hx Hy E. set (from_be := foldl (λ acc b, acc * 256 + b)%N 0%N).
  assert (∀ z, (z < u64_size)%N → from_be (to_be_bytes z) = z) as Hf;
    [|by rw -(Hf x) // -(Hf y) // E].
  clear. intros z Hz. set (d := λ i : N, (z / 2 ^ (8 * i))%N).
  assert (∀ i, d i = (256 * d (i + 1) + d i mod 256)%N) as Hd.
  { intros i. unfold d. rw N.mul_add_distr_l N.pow_add_r -N.Div0.div_div.
    apply N.Div0.div_mod. }
  assert (d 0 = z)%N as Hz0 by apply N.div_1_r.
  assert (d 8 = 0)%N as H8 by (apply N.div_small; exact Hz).
  change (foldl (λ acc b, acc * 256 + b)%N 0%N ((λ i, d i mod 256)%N <$> [7; 6; 5; 4; 3; 2; 1; 0]%N) = z).
  clearbody d. simpl fmap. simpl foldl.
  pose proof (Hd 0%N : d 0%N = 256 * d 1 + d 0 mod 256)%N as H0.
  pose proof (Hd 1%N : d 1%N = 256 * d 2 + d 1 mod 256)%N as H1.
  pose proof (Hd 2%N : d 2%N = 256 * d 3 + d 2 mod 256)%N as H2.
  pose proof (Hd 3%N : d 3%N = 256 * d 4 + d 3 mod 256)%N as H3.
  pose proof (Hd 4%N : d 4%N = 256 * d 5 + d 4 mod 256)%N as H4.
  pose proof (Hd 5%N : d 5%N = 256 * d 6 + d 5 mod 256)%N as H5.
  pose proof (Hd 6%N : d 6%N = 256 * d 7 + d 6 mod 256)%N as H6.
  pose proof (Hd 7%N : d 7%N = 256 * d 8 + d 7 mod 256)%N as H7.
  lia.
Qed.

(** ** types/src/msg/payload.rs *)
Record Payload := mkPayload { response : bytes }.
Definition payload_empty : Payload := {| response := [] |}.
Definition with_payload (size : nat) : Payload :=
  {| response := (λ i, N.of_nat i mod 256)%N <$> seq 0 size |}.

(** ** types/src/msg/block.rs *)
Record Body := mkBody { batch_hash : Hash }.
Record Header := mkHeader {
  prev : Hash;
  extra : bytes;
  author : Replica;
  height : Height;
  blame_certificates : list Certificate;
}.
Record Block := mkBlock { header : Header; body : Body; block_hash : Hash }.

#[export] Instance eta_Header : Eta Header := λ x,
  mkHeader (prev x) (extra x) (author x) (height x) (blame_certificates x).
#[export] Instance eta_Block : Eta Block := λ x,
  mkBlock (header x) (body x) (block_hash x).
#[export] Instance Body_eq_dec : EqDecision Body.
Proof. solve_decision. Defined.
#[export] Instance Header_eq_dec : EqDecision Header.
Proof. solve_decision. Defined.
#[export] Instance Block_eq_dec : EqDecision Block.
Proof. solve_decision. Defined.

Definition header_new : Header :=
  {| prev := EMPTY_HASH; extra := []; author := 0; height := 0;
     blame_certificates := [] |}.

Definition with_batch (h : Hash) : Block :=
  {| header := header_new; body := {| batch_hash := h |};
     block_hash := EMPTY_HASH |}.

Definition GENESIS_BLOCK : Block :=
  {| header := {| prev := EMPTY_HASH; extra := []; author := 0; height := 0;
                  blame_certificates := [] |};
     body := {| batch_hash := EMPTY_HASH |};
     block_hash := EMPTY_HASH |}.
End types.

(** ** bincode

    Serialization of the types whose bytes the program hashes, signs or
    stores.  [ser_block] covers the header and the body: the cached `hash` is
    `#[serde(skip)]`, and the `Wire` struct of block.rs has the same layout. *)
Class Bincode `{Crypto} := {
  ser_block : Header → Body → bytes;
  de_block : bytes → option (Header * Body);
  ser_tx : Transaction → bytes;
  ser_txs : list Transaction → bytes;
  de_txs : bytes → option (list Transaction);
  ser_cert_type : CertType → bytes;
  ser_ucr : Hash → Round → View → bytes;
}.

(** bincode decodes what it encoded. *)
Class BincodeLaws `{Bincode} := {
  de_ser_block h b : de_block (ser_block h b) = Some (h, b);
  de_ser_txs l : de_txs (ser_txs l) = Some l;
}.

(** A transaction's fields within their types. *)
Definition tx_fits (t : Transaction) : Prop := (client_id t < u16_size ∧ nonce t < u64_size)%N.

(** Different transactions have different encodings. *)
Class BincodeTxLaws `{Bincode} :=
  ser_tx_inj t1 t2 : tx_fits t1 → tx_fits t2 → ser_tx t1 = ser_tx t2 → t1 = t2.

(** SHA-256 as the protocols use it: no collision, and the all-zero digest is
    nobody's. *)
Class CollisionFree `{Crypto} := {
  do_hash_inj :: Inj (=) (=) do_hash;
  do_hash_not_empty bs : do_hash bs ≠ EMPTY_HASH;
}.

Section block.
Context `{Bincode}.

(** `Hash::<Block>::ser_and_hash`. *)
Definition compute_hash (b : Block) : Hash := do_hash (ser_block (header b) (body b)).

Definition init (b : Block) : Block := b <| block_hash := compute_hash b |>.

(** `<Block as Deserialize>::deserialize`. *)
Definition block_deserialize (bs : bytes) : option Block :=
  match de_block bs with
  | None => None
  | Some (h, b) =>
      let blk := {| header := h; body := b; block_hash := EMPTY_HASH |} in
      Some (blk <| block_hash := compute_hash blk |>)
  end.

Definition block_serialize (b : Block) : bytes := ser_block (header b) (body b).

Definition tx_compute_hash (t : Transaction) : Hash := do_hash (ser_tx t).

(** A block that came off the wire or out of [init] caches its own hash;
    the genesis block caches [EMPTY_HASH]. *)
Definition well_hashed (b : Block) : Prop :=
  b = GENESIS_BLOCK ∨ block_hash b = compute_hash b.

#[export] Instance well_hashed_dec b : Decision (well_hashed b).
Proof. apply or_dec; apply _. Defined.

Lemma init_well_hashed b : well_hashed (init b).
Proof. by right. Qed.

Lemma block_deserialize_hashed bs b : block_deserialize bs = Some b → well_hashed b.
Proof.
  unfold block_deserialize. destruct (de_block bs) as [[h bd]|]; [|done].
  intros [= <-]. by right.
Qed.

(** A well-hashed block is determined by its hash. *)
Lemma well_hashed_inj `{!BincodeLaws} `{!CollisionFree} b1 b2 :
  well_hashed b1 → well_hashed b2 → block_hash b1 = block_hash b2 → b1 = b2.
Proof.
  intros [->|E1] [->|E2] E; [done| | |].
  - rw E2 in E. symmetry in E. by apply do_hash_not_empty in E.
  - rw E1 in E. by apply do_hash_not_empty in E.
  - pose proof E as E'. rw E1 E2 in E'. apply (inj do_hash) in E'.
    pose proof (de_ser_block (header b1) (body b1)) as D. rw E' de_ser_block in D.
    destruct b1, b2; simpl in *. naive_solver.
Qed.

Lemma block_roundtrip `{!BincodeLaws} b :
  block_hash b = compute_hash b → block_deserialize (block_serialize b) = Some b.
Proof.
  intros Hb. unfold block_deserialize, block_serialize. rw de_ser_block.
  destruct b as [h bd bh]. simpl in *. by rw Hb.
Qed.
End block.

(** ** types/src/traits.rs: `BlockTrait` *)
Class BlockTrait `{Crypto} (B : Type) := {
  get_hash : B → Hash;
  get_height : B → Height;
  get_author : B → Replica;
}.

#[export] Instance Block_BlockTrait `{Crypto} : BlockTrait Block := {|
  get_hash b := block_hash b;
  get_height b := height (header b);
  get_author b := author (header b);
|}.

(** ** types/src/msg/storage.rs: `Storage<B, T>` *)
Record Storage `{Crypto} {B : Type} := mkStorage {
  all_delivered_blocks_by_hash : gmap Hash B;
  all_delivered_blocks_by_ht : gmap Height B;
  committed_blocks_by_hash : gset Hash;
  committed_blocks_by_ht : gset Height;
}.
Arguments Storage {_} B.
Arguments mkStorage {_ B}.

#[export] Instance eta_Storage `{Crypto} B : Eta (Storage B) := λ x,
  mkStorage (all_delivered_blocks_by_hash x) (all_delivered_blocks_by_ht x)
    (committed_blocks_by_hash x) (committed_blocks_by_ht x).

Section storage.
Context `{BlockTrait B}.
Implicit Types (s : Storage B) (b : B) (h : Hash) (ht : Height).

Definition storage_new : Storage B := mkStorage ∅ ∅ ∅ ∅.

Definition delivered_block_from_ht s ht : option B :=
  all_delivered_blocks_by_ht s !! ht.
Definition delivered_block_from_hash s h : option B :=
  all_delivered_blocks_by_hash s !! h.

Definition committed_block_from_ht s ht : option B :=
  if bool_decide (ht ∈ committed_blocks_by_ht s)
  then delivered_block_from_ht s ht else None.
Definition committed_block_by_hash s h : option B :=
  if bool_decide (h ∈ committed_blocks_by_hash s)
  then delivered_block_from_hash s h else None.

Definition add_delivered_block b s : Storage B :=
  s <| all_delivered_blocks_by_hash ::= insert (get_hash b) b |>
    <| all_delivered_blocks_by_ht ::= insert (get_height b) b |>.

Definition add_committed_block b s : Storage B :=
  s <| committed_blocks_by_hash ::= union {[ get_hash b ]} |>
    <| committed_blocks_by_ht ::= union {[ get_height b ]} |>.

Definition is_committed_by_ht s ht : bool :=
  bool_decide (ht ∈ committed_blocks_by_ht s).
Definition is_delivered_by_ht s ht : bool :=
  bool_decide (is_Some (all_delivered_blocks_by_ht s !! ht)).
Definition is_delivered_by_hash s h : bool :=
  bool_decide (is_Some (all_delivered_blocks_by_hash s !! h)).
Definition is_committed_by_hash s h : bool :=
  bool_decide (h ∈ committed_blocks_by_hash s).
End storage.

(** ** A concrete wire format, for the examples

    Hashes are spelled out with their length, everything else is one number;
    the laws hold, so the laws are satisfiable. *)
Module ToyFormat.
Import Toy.

Definition vote_enc (v : Vote) : N * bytes := (origin v, auth v).
Definition vote_dec (p : N * bytes) : Vote := mkVote p.1 p.2.
#[local] Instance vote_countable : Countable Vote.
Proof. apply (inj_countable' vote_enc vote_dec). by intros []. Defined.

Definition ct_enc (c : CertType) : (N * N) + ((N * bytes) + ((N * bytes) + unit)) :=
  match c with
  | CTBlame r v => inl (r, v)
  | CTVote v h => inr (inl (v, h))
  | CTQuitView v h => inr (inr (inl (v, h)))
  | CTDEFAULT => inr (inr (inr ()))
  end.
Definition ct_dec (x : (N * N) + ((N * bytes) + ((N * bytes) + unit))) : CertType :=
  match x with
  | inl (r, v) => CTBlame r v
  | inr (inl (v, h)) => CTVote v h
  | inr (inr (inl (v, h))) => CTQuitView v h
  | inr (inr (inr _)) => CTDEFAULT
  end.
#[local] Instance ct_countable : Countable CertType.
Proof. apply (inj_countable' ct_enc ct_dec). by intros []. Defined.
#[local] Instance cert_countable : Countable Certificate.
Proof.
  apply (inj_countable' (λ c, (cert_msg c, votes c)) (λ p, mkCertificate p.1 p.2)). by intros [].
Defined.
#[local] Instance tx_countable : Countable Transaction.
Proof.
  apply (inj_countable' (λ t, (client_id t, nonce t, data t, request t))
    (λ p, mkTransaction p.1.1.1 p.1.1.2 p.1.2 p.2)). by intros [].
Defined.

Definition enc {A} `{Countable A} (a : A) : N := Npos (encode a).
Definition dec {A} `{Countable A} (n : N) : option A :=
  match n with N0 => None | Npos p => decode p end.
#[local] Arguments dec : simpl never.
#[local] Arguments enc : simpl never.
Lemma dec_enc `{Countable A} (a : A) : dec (enc a) = Some a.
Proof. apply decode_encode. Qed.

Definition put_block (h : Header) (b : Body) : bytes :=
  N.of_nat (length (prev h)) ::
    prev h ++ [enc (extra h); author h; height h; enc (blame_certificates h)] ++ batch_hash b.

Definition get_block (bs : bytes) : option (Header * Body) :=
  match bs with
  | [] => None
  | n :: rest =>
      match drop (N.to_nat n) rest with
      | e :: a :: ht :: cs :: bh =>
          match dec e, dec cs with
          | Some e, Some cs =>
              Some ({| prev := take (N.to_nat n) rest; extra := e; author := a;
                       height := ht; blame_certificates := cs |},
                    {| batch_hash := bh |})
          | _, _ => None
          end
      | _ => None
      end
  end.

#[export] Instance bincode : Bincode := {|
  ser_block := put_block;
  de_block := get_block;
  ser_tx t := to_be_bytes (client_id t) ++ to_be_bytes (nonce t) ++
                N.of_nat (length (data t)) :: data t ++ request t;
  ser_txs l := [enc l];
  de_txs bs := match bs with [n] => dec n | _ => None end;
  ser_cert_type c := [enc c];
  ser_ucr h r v := r :: v :: h;
|}.

#[export] Instance bincode_laws : BincodeLaws.
Proof.
  split.
  - intros [p e a ht cs] [bh]. unfold de_block, ser_block. simpl.
    rw Nat2N.id drop_app_length take_app_length /= !dec_enc //.
  - intros l. apply dec_enc.
Qed.

#[export] Instance bincode_tx_laws : BincodeTxLaws.
Proof.
  intros [c1 n1 d1 r1] [c2 n2 d2 r2] [Hc1 Hn1] [Hc2 Hn2].
  cbn [ser_tx bincode client_id nonce data request] in *. intros E.
  apply app_inj_1 in E as [Ec E]; [|done]. apply app_inj_1 in E as [En E]; [|done].
  injection E as El E. apply app_inj_1 in E as [-> ->]; [|lia].
  apply to_be_bytes_inj in Ec as ->; [|unfold u16_size, u64_size in *; lia..].
  by apply to_be_bytes_inj in En as ->.
Qed.

#[export] Instance collision_free : CollisionFree.
Proof. split; [|done]. by intros ?? [= ->]. Qed.
End ToyFormat.
