(* ===== verification/Text.v ===== *)
(** * The text the programs read and print

    What the binaries use of Rust's standard library on strings: `str::trim`,
    `split`, `find`, `lines`, `parse` for unsigned integers and for
    `SocketAddr`, and `format!` of a number ([pretty]).  Text is a string of
    bytes; white space is ASCII white space. *)

From stdpp Require Import pretty.
From S2P Require Import Prelude.
From Stdlib Require Import Ascii.

Definition ascii_code (a : ascii) : N := N_of_ascii a.
Definition is_char (code : N) (a : ascii) : bool := (ascii_code a =? code)%N.

(** ** `char::to_digit` *)
Definition to_digit (radix : N) (a : ascii) : option N :=
  let n := ascii_code a in
  let d := if ((48 <=? n) && (n <=? 57))%N then Some (n - 48)%N
           else if ((97 <=? n) && (n <=? 122))%N then Some (n - 87)%N
           else if ((65 <=? n) && (n <=? 90))%N then Some (n - 55)%N
           else None in
  match d with
  | Some d => if (d <? radix)%N then Some d else None
  | None => None
  end.

(** ** `str::parse` for an unsigned integer below [size]: decimal digits, a
    leading `+` is accepted, overflow is an error. *)
Fixpoint parse_digits (size : N) (s : string) (acc : N) : option N :=
  match s with
  | EmptyString => Some acc
  | String a s' =>
      match to_digit 10 a with
      | None => None
      | Some d => let acc := (acc * 10 + d)%N in
                  if (acc <? size)%N then parse_digits size s' acc else None
      end
  end.
Definition parse_uint (size : N) (s : string) : option N :=
  match s with
  | EmptyString => None
  | String a s' =>
      if is_char 43 a
      then match s' with EmptyString => None | _ => parse_digits size s' 0 end
      else parse_digits size s 0
  end.
Definition parse_u16 : string → option N := parse_uint u16_size.
Definition parse_u64 : string → option N := parse_uint u64_size.

(** ** `trim`, `split`, `lines`, `find` *)
Definition is_space (a : ascii) : bool :=
  let n := ascii_code a in ((n =? 32) || ((9 <=? n) && (n <=? 13)))%N.

Fixpoint trim_start (s : string) : string :=
  match s with
  | String a s' => if is_space a then trim_start s' else s
  | EmptyString => EmptyString
  end.
(** The text up to the last character that is not white space. *)
Fixpoint trim_end (s : string) : string :=
  match s with
  | EmptyString => EmptyString
  | String a s' =>
      match trim_end s' with
      | EmptyString => if is_space a then EmptyString else String a EmptyString
      | t => String a t
      end
  end.
Definition trim (s : string) : string := trim_end (trim_start s).

Fixpoint split (sep : N) (s : string) : list string :=
  match s with
  | EmptyString => [EmptyString]
  | String a s' =>
      if is_char sep a then EmptyString :: split sep s'
      else match split sep s' with
           | x :: xs => String a x :: xs
           | [] => [String a EmptyString]
           end
  end.

(** Drops one trailing carriage return. *)
Fixpoint strip_cr (s : string) : string :=
  match s with
  | EmptyString => EmptyString
  | String a EmptyString => if is_char 13 a then EmptyString else s
  | String a s' => String a (strip_cr s')
  end.

(** Lines end at a line feed; a final line feed starts no further line. *)
Fixpoint drop_last_empty (l : list string) : list string :=
  match l with
  | [] => []
  | [x] => if bool_decide (x = EmptyString) then [] else [x]
  | x :: xs => x :: drop_last_empty xs
  end.
Definition lines (s : string) : list string :=
  strip_cr <$> drop_last_empty (split 10 s).

Fixpoint strip_prefix (p s : string) : option string :=
  match p, s with
  | EmptyString, _ => Some s
  | String a p', String b s' => if Ascii.eqb a b then strip_prefix p' s' else None
  | String _ _, EmptyString => None
  end.
(** `line.find(prefix)` followed by the slice after the occurrence. *)
Fixpoint find_after (p s : string) : option string :=
  match strip_prefix p s with
  | Some rest => Some rest
  | None => match s with
            | EmptyString => None
            | String _ s' => find_after p s'
            end
  end.

(** The text before and after the last [c]. *)
Fixpoint rsplit_once (c : N) (s : string) : option (string * string) :=
  match s with
  | EmptyString => None
  | String a s' =>
      match rsplit_once c s' with
      | Some (l, r) => Some (String a l, r)
      | None => if is_char c a then Some (EmptyString, s') else None
      end
  end.

(** ** `SocketAddr::from_str` *)
Inductive SocketAddr :=
  | V4 (a b c d : N) (port : N)
  | V6 (groups : list N) (scope : N) (port : N).
#[export] Instance SocketAddr_eq_dec : EqDecision SocketAddr.
Proof. solve_decision. Defined.
#[export] Instance SocketAddr_countable : Countable SocketAddr.
Proof.
  apply (inj_countable'
    (λ x, match x with
          | V4 a b c d p => inl (a, b, c, d, p)
          | V6 g sc p => inr (g, sc, p)
          end)
    (λ y, match y with
          | inl (a, b, c, d, p) => V4 a b c d p
          | inr (g, sc, p) => V6 g sc p
          end)).
  by intros [].
Defined.

Definition parser (A : Type) : Type := string → option (A * string).

Definition read_given_char (code : N) : parser unit := λ s,
  match s with
  | String a s' => if is_char code a then Some (tt, s') else None
  | EmptyString => None
  end.

(** The digits at the front: their value, how many, and what is left. *)
Fixpoint read_digits (radix acc : N) (count : nat) (s : string) : N * nat * string :=
  match s with
  | String a s' =>
      match to_digit radix a with
      | Some d => read_digits radix (acc * radix + d) (S count) s'
      | None => (acc, count, s)
      end
  | EmptyString => (acc, count, s)
  end.

Definition leading_zero (s : string) : bool :=
  match s with String a _ => is_char 48 a | EmptyString => false end.

Definition read_number (radix size : N) (max_digits : option nat) (allow_zero_prefix : bool)
    : parser N := λ s,
  let '(v, count, rest) := read_digits radix 0 0 s in
  let too_long := match max_digits with Some m => (m <? count)%nat | None => false end in
  if (count =? 0)%nat || too_long || negb (v <? size)%N then None
  else if negb allow_zero_prefix && leading_zero s && (1 <? count)%nat then None
  else Some (v, rest).

Definition read_octet : parser N := read_number 10 256 (Some 3) false.
Definition read_port : parser N := read_number 10 u16_size None true.

Definition read_ipv4 : parser (N * N * N * N) := λ s,
  p ← read_octet s; let '(a, s) := p in
  p ← read_given_char 46 s; let '(_, s) := p in
  p ← read_octet s; let '(b, s) := p in
  p ← read_given_char 46 s; let '(_, s) := p in
  p ← read_octet s; let '(c, s) := p in
  p ← read_given_char 46 s; let '(_, s) := p in
  p ← read_octet s; let '(d, s) := p in
  Some ((a, b, c, d), s).

(** `read_separator(':', i, inner)`: the separator comes before every group
    but the first. *)
Definition read_separated {A} (i : nat) (inner : parser A) : parser A := λ s,
  match i with
  | O => inner s
  | S _ => p ← read_given_char 58 s; inner p.2
  end.

(** `read_groups` for [limit] groups, from group [i]: the groups, and whether
    they ended with an embedded IPv4 address. *)
Fixpoint read_groups (todo i : nat) (s : string) : list N * bool * string :=
  match todo with
  | O => ([], false, s)
  | S todo' =>
      let group := λ _ : unit,
        match read_separated i (read_number 16 u16_size (Some 4) true) s with
        | Some (g, s') => let '(gs, v4, s'') := read_groups todo' (S i) s' in (g :: gs, v4, s'')
        | None => ([], false, s)
        end in
      match todo' with
      | O => group tt
      | S _ =>
          match read_separated i read_ipv4 s with
          | Some ((a, b, c, d), s') => ([a * 256 + b; c * 256 + d]%N, true, s')
          | None => group tt
          end
      end
  end.

Definition read_ipv6 : parser (list N) := λ s,
  let '(head, head_ipv4, s) := read_groups 8 0 s in
  if (length head =? 8)%nat then Some (head, s)
  else if head_ipv4 : bool then None
  else
    p ← read_given_char 58 s; p ← read_given_char 58 p.2;
    let '(tail, _, s) := read_groups (7 - length head) 0 p.2 in
    Some (head ++ replicate (8 - length head - length tail) 0%N ++ tail, s).

Definition read_scope_id : parser N := λ s,
  match read_given_char 37 s with
  | Some (_, s') => match read_number 10 (2 ^ 32) None true s' with
                    | Some r => Some r
                    | None => Some (0%N, s)
                    end
  | None => Some (0%N, s)
  end.

Definition read_v4 : parser SocketAddr := λ s,
  p ← read_ipv4 s; let '((a, b, c, d), s) := p in
  p ← read_given_char 58 s; p ← read_port p.2;
  Some (V4 a b c d p.1, p.2).

Definition read_v6 : parser SocketAddr := λ s,
  p ← read_given_char 91 s; p ← read_ipv6 p.2; let '(groups, s) := p in
  p ← read_scope_id s; let '(scope, s) := p in
  p ← read_given_char 93 s; p ← read_given_char 58 p.2; p ← read_port p.2;
  Some (V6 groups scope p.1, p.2).

Definition parse_addr (s : string) : option SocketAddr :=
  match match read_v4 s with Some r => Some r | None => read_v6 s end with
  | Some (addr, EmptyString) => Some addr
  | _ => None
  end.

Definition loopback (port : N) : SocketAddr := V4 127 0 0 1 port.
Definition any_addr (port : N) : SocketAddr := V4 0 0 0 0 port.

(** ** Texts without a character *)
Fixpoint all_chars (p : ascii → bool) (s : string) : bool :=
  match s with
  | EmptyString => true
  | String a s' => p a && all_chars p s'
  end.
(** No character of [s] has the code [c]. *)
Abbreviation free c := (all_chars (λ a, negb (is_char c a))).

Lemma all_chars_app p s t : all_chars p (s +:+ t) = all_chars p s && all_chars p t.
Proof. induction s as [|a s IH]; simpl; [done|]. by rw IH andb_assoc. Qed.

Lemma split_free c s : free c s = true → split c s = [s].
Proof.
  induction s as [|a s IH]; simpl; [done|]. intros [Ha%negb_true_iff Hs]%andb_true_iff.
  by rw Ha (IH Hs).
Qed.

Lemma split_nonempty c s : split c s ≠ [].
Proof.
  induction s as [|a s IH]; simpl; [done|]. destruct (is_char c a); [done|].
  by destruct (split c s).
Qed.

Lemma split_app c sep s t :
  is_char c sep = true → split c (s +:+ String sep "" +:+ t) = split c s ++ split c t.
Proof.
  intros Hc. induction s as [|a s IH]; simpl; [by rw Hc|]. rw IH.
  destruct (is_char c a); [done|]. pose proof (split_nonempty c s). by destruct (split c s).
Qed.

Lemma rsplit_free c s : free c s = true → rsplit_once c s = None.
Proof.
  induction s as [|a s IH]; simpl; [done|]. intros [Ha%negb_true_iff Hs]%andb_true_iff.
  by rw (IH Hs) Ha.
Qed.

Lemma rsplit_app c sep s t :
  is_char c sep = true → free c t = true → rsplit_once c (s +:+ String sep "" +:+ t) = Some (s, t).
Proof.
  intros Hc Ht. induction s as [|a s IH]; simpl; [by rw rsplit_free // Hc|]. by rw IH.
Qed.

#[export] Instance string_app_assoc : Assoc (=) String.append.
Proof. intros s t u. induction s as [|a s IH]; [done|]. exact (f_equal (String a) IH). Qed.
Lemma string_app_nil s : s +:+ "" = s.
Proof. induction s as [|a s IH]; [done|]. exact (f_equal (String a) IH). Qed.

#[export] Instance string_app_inj s : Inj (=) (=) (String.append s).
Proof. intros t u. induction s as [|a s IH]; [done|]. intros E. apply IH. by injection E. Qed.

(** What stands before the first separator is determined. *)
Lemma free_sep_inj c sep (s t u v : string) :
  is_char c sep = true → free c s = true → free c t = true →
  s +:+ String sep u = t +:+ String sep v → s = t ∧ u = v.
Proof.
  intros Hc. revert t. induction s as [|a s IH]; intros [|b t]; cbn [String.append all_chars]; intros Hs Ht E.
  - by injection E.
  - injection E as <- E. by rw Hc in Ht.
  - injection E as -> E. by rw Hc in Hs.
  - injection E as -> E. apply andb_true_iff in Hs as [_ Hs], Ht as [_ Ht].
    by destruct (IH t Hs Ht E) as [-> ->].
Qed.

(** The last character of a text. *)
Fixpoint last_char (s : string) : option ascii :=
  match s with
  | EmptyString => None
  | String a s' => match last_char s' with Some b => Some b | None => Some a end
  end.
Lemma last_char_app s t b : last_char t = Some b → last_char (s +:+ t) = Some b.
Proof.
  intros Ht. induction s as [|a s IH]; [done|].
  change (last_char (String a s +:+ t)) with
    (match last_char (s +:+ t) with Some x => Some x | None => Some a end). by rw IH.
Qed.

(** Text after the last separator joins the last part. *)
Lemma split_snoc c t x pre y :
  split c t = pre ++ [y] → free c x = true → split c (t +:+ x) = pre ++ [y +:+ x].
Proof.
  intros Et Hx. revert pre y Et. induction t as [|a t IH]; intros pre y.
  { change ("" +:+ x) with x. rw (split_free c x) //. destruct pre as [|z pre];
      [intros [= <-]; reflexivity|intros [= _ E]; by destruct pre]. }
  change (String a t +:+ x) with (String a (t +:+ x)). cbn [split]. destruct (is_char c a).
  - destruct pre as [|z pre]; [intros [= _ E]; by apply split_nonempty in E|].
    intros [= <- E]. by rw (IH _ _ E).
  - pose proof (split_nonempty c t) as Hne. destruct (split c t) as [|z zs]; [done|].
    destruct pre as [|z' pre]; intros [= <- E].
    + subst zs. by rw (IH [] z eq_refl).
    + by rw (IH (z :: pre) y); [|by rw E].
Qed.

(** *** Lines written one by one read back *)
Definition unlines (xs : list string) : string := foldl (λ t x, t +:+ x +:+ "
") "" xs.

Lemma split_unlines xs t pre :
  split 10 t = pre ++ [""] → Forall (λ x, free 10 x = true) xs →
  split 10 (foldl (λ t x, t +:+ x +:+ "
") t xs) = pre ++ xs ++ [""].
Proof.
  intros Et Hx. revert t pre Et. induction Hx as [|x xs Hx _ IH]; intros t pre Et; simpl; [done|].
  rw (IH _ (pre ++ [x])); [by rw -app_assoc|].
  rw (assoc_L String.append). rw -(string_app_nil (_ +:+ "
")) -(assoc_L String.append) (split_app 10) //.
  by rw (split_snoc 10 t x pre "").
Qed.

Lemma drop_last_snoc xs : drop_last_empty (xs ++ [""]) = xs.
Proof.
  induction xs as [|x xs IH]; simpl; [done|]. rw IH. by destruct xs.
Qed.

Lemma strip_cr_free s : free 13 s = true → strip_cr s = s.
Proof.
  induction s as [|a s IH]; simpl; [done|]. intros [Ha%negb_true_iff Hs]%andb_true_iff.
  rw (IH Hs) Ha. by destruct s.
Qed.

Lemma lines_unlines xs :
  Forall (λ x, free 10 x = true ∧ free 13 x = true) xs → lines (unlines xs) = xs.
Proof.
  intros Hx. unfold lines, unlines.
  rw (split_unlines xs "" []) //; [|eapply Forall_impl; [exact Hx|by intros ? []]].
  rw drop_last_snoc. induction Hx as [|x xs [_ Hx] _ IH]; [done|].
  cbn [fmap list_fmap]. f_equal; [by apply strip_cr_free|exact IH].
Qed.

Abbreviation no_space := (all_chars (λ a, negb (is_space a))).

Lemma trim_id s : no_space s = true → trim s = s.
Proof.
  intros Hs. unfold trim. assert (trim_start s = s) as ->.
  { destruct s as [|a s]; [done|]. simpl in *. by apply andb_true_iff in Hs as [->%negb_true_iff _]. }
  induction s as [|a s IH]; simpl in *; [done|].
  apply andb_true_iff in Hs as [Ha%negb_true_iff Hs]. rw (IH Hs) Ha. by destruct s.
Qed.

(** Numbers are printed in digits. *)
Lemma all_chars_pretty_go p x s :
  (∀ d, (d < 10)%N → p (pretty_N_char d) = true) →
  all_chars p (pretty_N_go x s) = all_chars p s.
Proof.
  intros Hp. revert s. induction (N.lt_wf_0 x) as [x _ IH]. intros s.
  destruct (decide (x = 0%N)) as [->|Hx]; [by rw pretty_N_go_0|].
  rw pretty_N_go_step; [|lia]. rw IH; [|apply N.div_lt; lia]. simpl. rw Hp; [|by apply N.mod_lt]. done.
Qed.

Lemma all_chars_pretty p (n : N) :
  (∀ d, (d < 10)%N → p (pretty_N_char d) = true) → all_chars p (pretty n) = true.
Proof.
  intros Hp. unfold pretty, pretty_N. case_decide; [|by rw all_chars_pretty_go].
  simpl. by rw (Hp 0%N).
Qed.

(** A fact about the ten digits. *)
Lemma digit_cases (Q : N → Prop) :
  Forall Q [0;1;2;3;4;5;6;7;8;9]%N → ∀ d, (d < 10)%N → Q d.
Proof. intros HQ d Hd. rw Forall_forall in HQ. apply HQ. rw !elem_of_cons. lia. Qed.

Lemma free_pretty c (n : N) : (c < 48 ∨ 57 < c)%N → free c (pretty n) = true.
Proof.
  intros Hc. apply all_chars_pretty. apply digit_cases.
  repeat (constructor; [apply negb_true_iff, N.eqb_neq; vm_compute ascii_code; lia|]). constructor.
Qed.

(** ** Printing a number and reading it back *)
Lemma to_digit_pretty d : (d < 10)%N → to_digit 10 (pretty_N_char d) = Some d.
Proof.
  intros Hd. assert (d ∈ [0;1;2;3;4;5;6;7;8;9]%N) as Hin by (rw !elem_of_cons; lia).
  rw !elem_of_cons in Hin. by destruct_or! Hin; subst; try inversion Hin.
Qed.

Lemma read_digits_pretty_go (x acc : N) (count : nat) (s : string) :
  ∃ k : nat, ((0 < x)%N → 0 < k) ∧
    read_digits 10 acc count (pretty_N_go x s) =
    read_digits 10 (acc * 10 ^ N.of_nat k + x) (count + k) s.
Proof.
  revert s. induction (N.lt_wf_0 x) as [x _ IH]. intros s.
  destruct (decide (x = 0%N)) as [->|Hx].
  { exists 0%nat. split; [lia|]. rw pretty_N_go_0. f_equal; [lia|lia]. }
  rw pretty_N_go_step; [|lia]. destruct (IH (x / 10)%N) with
    (s := String (pretty_N_char (x `mod` 10)) s) as (k & _ & ->); [apply N.div_lt; lia|].
  exists (S k). split; [lia|]. cbn [read_digits].
  rw to_digit_pretty; [|apply N.mod_lt; lia]. f_equal; [|lia].
  rw Nat2N.inj_succ N.pow_succ_r'. pose proof (N.div_mod x 10). lia.
Qed.

(** The leading digit of a positive number is not zero. *)
Lemma pretty_go_head (x : N) (s : string) : (0 < x)%N → leading_zero (pretty_N_go x s) = false.
Proof.
  revert s. induction (N.lt_wf_0 x) as [x _ IH]. intros s Hx.
  rw pretty_N_go_step; [|lia]. destruct (decide (x < 10)%N) as [Hs|Hs].
  - rw N.div_small // pretty_N_go_0 N.mod_small //. simpl.
    assert (x ∈ [1;2;3;4;5;6;7;8;9]%N) as Hin by (rw !elem_of_cons; lia).
    rw !elem_of_cons in Hin. by destruct_or! Hin; subst; try inversion Hin.
  - apply IH; [apply N.div_lt; lia|]. apply N.div_str_pos. lia.
Qed.

Lemma read_number_pretty size m z (n : N) :
  (n < size)%N → m = None → z = true ∨ (0 < n)%N →
  read_number 10 size m z (pretty n) = Some (n, EmptyString).
Proof.
  intros Hn -> Hz. unfold read_number, pretty, pretty_N. case_decide as H0.
  - subst n. destruct Hz as [->|]; [|lia]. cbn.
    destruct size; [lia|done].
  - destruct (read_digits_pretty_go n 0 0 "") as (k & Hk & E). rw E. cbn [read_digits].
    rw N.mul_0_l N.add_0_l Nat.add_0_l pretty_go_head; [|lia]. rw andb_false_r /=.
    assert ((k =? 0)%nat = false) as -> by (apply Nat.eqb_neq; lia).
    by assert ((n <? size)%N = true) as -> by by apply N.ltb_lt.
Qed.

Lemma read_port_pretty (n : N) :
  (n < u16_size)%N → read_port (pretty n) = Some (n, EmptyString).
Proof. intros. apply read_number_pretty; auto. Qed.

Lemma parse_digits_pretty_go size (x acc : N) (s : string) :
  ∃ k : nat, (acc * 10 ^ N.of_nat k + x < size)%N →
    parse_digits size (pretty_N_go x s) acc = parse_digits size s (acc * 10 ^ N.of_nat k + x).
Proof.
  revert s. induction (N.lt_wf_0 x) as [x _ IH]. intros s.
  destruct (decide (x = 0%N)) as [->|Hx].
  { exists 0%nat. intros _. rw pretty_N_go_0. f_equal. lia. }
  rw pretty_N_go_step; [|lia]. destruct (IH (x / 10)%N) with
    (s := String (pretty_N_char (x `mod` 10)) s) as (k & Hk); [apply N.div_lt; lia|].
  exists (S k). rw Nat2N.inj_succ N.pow_succ_r'. pose proof (N.div_mod x 10 ltac:(lia)) as Hdm.
  assert (acc * (10 * 10 ^ N.of_nat k) = 10 * (acc * 10 ^ N.of_nat k))%N as -> by ring.
  generalize dependent (acc * 10 ^ N.of_nat k)%N. intros t Hk Hlt.
  assert (t + x / 10 < size)%N as Hq 
    by (clear -Hdm Hlt; revert Hdm; generalize (x / 10)%N (x `mod` 10)%N; lia).
  rw (Hk Hq). cbn [parse_digits]. rw to_digit_pretty; [|by apply N.mod_lt].
  assert ((t + x / 10) * 10 + x `mod` 10 = 10 * t + x)%N as ->
    by (clear -Hdm; revert Hdm; generalize (x / 10)%N (x `mod` 10)%N; lia).
  by apply N.ltb_lt in Hlt as ->.
Qed.

(** `n.to_string().parse()`. *)
Lemma parse_uint_pretty size (n : N) : (n < size)%N → parse_uint size (pretty n) = Some n.
Proof.
  intros Hn. assert (parse_digits size (pretty n) 0 = Some n) as E.
  { unfold pretty, pretty_N. case_decide as H0.
    - subst n. cbn. destruct size; [lia|done].
    - destruct (parse_digits_pretty_go size n 0 "") as [k Hk]. rw Hk; [|lia]. done. }
  pose proof (free_pretty 43 n ltac:(lia)) as Hf. pose proof (read_number_pretty (n + 1) None true n) as Hr.
  unfold parse_uint. destruct (pretty n) as [|a s]; [by specialize (Hr ltac:(lia) eq_refl ltac:(by left))|].
  simpl in Hf. apply andb_true_iff in Hf as [Ha%negb_true_iff _]. by rw Ha.
Qed.

Lemma parse_v4 (a b c d port : N) (s rest : string) :
  read_ipv4 s = Some ((a, b, c, d), String ":" rest) →
  read_port rest = Some (port, EmptyString) → parse_addr s = Some (V4 a b c d port).
Proof. intros E1 E2. unfold parse_addr, read_v4. rw E1. simpl. by rw E2. Qed.

(** `format!("127.0.0.1:{}", port)` and `format!("0.0.0.0:{}", port)` parse. *)
Lemma parse_loopback (port : N) :
  (port < u16_size)%N → parse_addr ("127.0.0.1:" +:+ pretty port) = Some (loopback port).
Proof.
  intros Hp. apply (parse_v4 _ _ _ _ _ _ (pretty port)); [|by apply read_port_pretty].
  generalize (pretty port). intros s. vm_compute. reflexivity.
Qed.
Lemma parse_any_addr (port : N) :
  (port < u16_size)%N → parse_addr ("0.0.0.0:" +:+ pretty port) = Some (any_addr port).
Proof.
  intros Hp. apply (parse_v4 _ _ _ _ _ _ (pretty port)); [|by apply read_port_pretty].
  generalize (pretty port). intros s. vm_compute. reflexivity.
Qed.

(** The loop over a `net_map` that every binary starts with: an address that
    does not parse is a panic. *)
Fixpoint parse_entries (l : list (N * string)) (acc : gmap N SocketAddr)
    : option (gmap N SocketAddr) :=
  match l with
  | [] => Some acc
  | (id, addr) :: l' =>
      match parse_addr addr with
      | Some a => parse_entries l' (<[id := a]> acc)
      | None => None
      end
  end.

Lemma parse_entries_spec l acc :
  NoDup l.*1 → Forall (λ kv, is_Some (parse_addr kv.2)) l →
  ∃ m, parse_entries l acc = Some m ∧
    (∀ k a s, (k, s) ∈ l → parse_addr s = Some a → m !! k = Some a) ∧
    (∀ k, k ∉ l.*1 → m !! k = acc !! k).
Proof.
  revert acc. induction l as [|[id addr] l IH]; intros acc Hnd Hp; simpl.
  { exists acc. split; [done|]. split; [|done]. intros ???. by intros ?%not_elem_of_nil. }
  apply NoDup_cons in Hnd as [Hni Hnd]. apply Forall_cons in Hp as [[a Ha] Hp]. simpl in *.
  rw Ha. destruct (IH (<[id := a]> acc) Hnd Hp) as (m & E & Hin & Hout).
  exists m. split; [done|]. split.
  - intros k a' s [[= -> ->]|Hk]%elem_of_cons Hs; [|by eapply Hin].
    rw Hout // lookup_insert_eq. congruence.
  - intros k [Hk1 Hk2]%not_elem_of_cons. rw Hout // lookup_insert_ne //.
Qed.

Lemma parse_entries_map (m : gmap N string) :
  map_Forall (λ _ s, is_Some (parse_addr s)) m →
  ∃ m', parse_entries (map_to_list m) ∅ = Some m' ∧ ∀ k, m' !! k = m !! k ≫= parse_addr.
Proof.
  intros Hm. destruct (parse_entries_spec (map_to_list m) ∅) as (m' & E & Hin & Hout).
  { apply NoDup_fst_map_to_list. }
  { apply Forall_forall. intros [k s] Hk%elem_of_map_to_list. by apply (Hm k s). }
  exists m'. split; [done|]. intros k. destruct (m !! k) as [s|] eqn:Ek; simpl.
  - destruct (Hm _ _ Ek) as [a Ha]. rw Ha. apply (Hin k a s); [|done].
    by apply elem_of_map_to_list.
  - rw Hout ?lookup_empty //. intros ([k' s] & -> & Hk%elem_of_map_to_list)%list_elem_of_fmap.
    simpl in Ek. congruence.
Qed.
