(* ===== verification/Format.v ===== *)
(** * Formatting

    `f64` as a parameter and what the programs use of `format!`: padding is by
    characters, and a string is its UTF-8 bytes. *)

From Stdlib Require Import Ascii.
From stdpp Require Import pretty.
From S2P Require Import Prelude Text.

(** ** `f64` *)
Class F64 := {
  f64 : Type;
  f64_zero : f64;
  f64_of : N → f64;
  f64_add : f64 → f64 → f64;
  f64_mul : f64 → f64 → f64;
  f64_div : f64 → f64 → f64;
  f64_parse : string → option f64;
  f64_le : relation f64;
  f64_le_dec :: RelDecision f64_le;
  (** `{}`, `{:.k}` and `as usize`. *)
  f64_show : f64 → string;
  f64_fixed : nat → f64 → string;
  f64_as_usize : f64 → N;
}.

(** A printed number parses as the same number (all NaNs are one), a decimal
    integer as the nearest number, and a printed number is digits, signs and
    the words `NaN` and `inf`. *)
Class F64Laws `{F64} := {
  f64_show_back x : f64_parse (f64_show x) = Some x;
  f64_int_back n : f64_parse (pretty n) = Some (f64_of n);
  f64_show_no_space x : no_space (f64_show x) = true;
  f64_show_free_D x : free 68 (f64_show x) = true;
}.

(** `Duration::as_secs_f64` of a number of nanoseconds. *)
Definition as_secs_f64 `{F64} (ns : N) : f64 := f64_div (f64_of ns) (f64_of 1000000000).

(** ** Padding *)
(** Continuation bytes start no character. *)
Definition starts_char (a : ascii) : bool := negb ((128 <=? ascii_code a) && (ascii_code a <? 192))%N.
Fixpoint char_count (s : string) : nat :=
  match s with
  | EmptyString => 0
  | String a s' => (if starts_char a then 1 else 0) + char_count s'
  end.

Fixpoint repeat_str (s : string) (n : nat) : string :=
  match n with O => "" | S n' => s +:+ repeat_str s n' end.

(** `{:<w}`, `{:>w}`, and `{:c^w}` with the fill [c]. *)
Definition left_in (w : nat) (s : string) : string := s +:+ repeat_str " " (w - char_count s).
Definition right_in (w : nat) (s : string) : string := repeat_str " " (w - char_count s) +:+ s.
Definition centre_in (c : string) (w : nat) (s : string) : string :=
  let pad := w - char_count s in
  repeat_str c (pad / 2) +:+ s +:+ repeat_str c (pad - pad / 2).

Lemma char_count_app s t : char_count (s +:+ t) = char_count s + char_count t.
Proof. induction s as [|a s IH]; simpl; [done|]. rw IH. lia. Qed.
Lemma char_count_repeat s n : char_count (repeat_str s n) = n * char_count s.
Proof. induction n as [|n IH]; simpl; [done|]. by rw char_count_app IH. Qed.
Lemma left_in_width w s : char_count (left_in w s) = w `max` char_count s.
Proof. unfold left_in. rw char_count_app char_count_repeat /=. lia. Qed.
Lemma right_in_width w s : char_count (right_in w s) = w `max` char_count s.
Proof. unfold right_in. rw char_count_app char_count_repeat /=. lia. Qed.

(** ** Looking for a marker *)
(** A text without the marker's first letter does not contain it. *)
Lemma find_after_free c a p s :
  is_char c a = true → free c s = true → find_after (String a p) s = None.
Proof.
  intros Ha. induction s as [|b s IH]; [done|]. intros [Hb%negb_true_iff Hs]%andb_true_iff.
  cbn [find_after strip_prefix]. destruct (Ascii.eqb_spec a b) as [<-|_]; [congruence|]. by apply IH.
Qed.
Lemma strip_prefix_app p s : strip_prefix p (p +:+ s) = Some s.
Proof. induction p as [|a p IH]; [done|]. simpl. by rw Ascii.eqb_refl. Qed.
(** Nor does it hide one. *)
Lemma find_after_app c a p pre rest :
  is_char c a = true → free c pre = true →
  find_after (String a p) (pre +:+ String a p +:+ rest) = Some rest.
Proof.
  intros Ha. induction pre as [|b pre IH]; intros Hpre.
  - change ("" +:+ String a p +:+ rest) with (String a p +:+ rest).
    pose proof (strip_prefix_app (String a p) rest) as E. revert E. change (String a p +:+ rest) with (String a (p +:+ rest)).
    intros E. cbn [find_after]. by rw E.
  - apply andb_true_iff in Hpre as [Hb%negb_true_iff Hpre].
    change (String b pre +:+ String a p +:+ rest) with (String b (pre +:+ String a p +:+ rest)).
    cbn [find_after strip_prefix]. destruct (Ascii.eqb_spec a b) as [<-|_]; [congruence|]. by apply IH.
Qed.
