(* ===== verification/Storage.v ===== *)
(** * The block index and the commit walk

    Facts about [Storage] (types/src/msg/storage.rs) and about the loop that
    Apollo and Artemis run over it at commit time: from a block, mark it and
    its ancestors committed until an already committed one is met. *)

From S2P Require Import Prelude Crypto Types.

(** The parent pointer of a block, `header.prev`. *)
Class HasParent `{Crypto} (B : Type) := parent_hash : B → Hash.
#[export] Instance Block_HasParent `{Crypto} : HasParent Block := λ b, prev (header b).

Section walk.
Context `{BlockTrait B} `{!HasParent B}.

(** The `while !cx.storage.is_committed_by_hash(&hash)` loop of `do_commit`;
    the blocks are collected in the order they are met, newest first. *)
Fixpoint commit_walk (fuel : nat) (s : Storage B) (h : Hash) (newly : list B)
    : outcome (Storage B) (list B) :=
  match fuel with
  | O => OutOfFuel
  | S fuel' =>
      if is_committed_by_hash s h then Done newly s
      else match delivered_block_from_hash s h with
           | None => Panicked "called `Option::unwrap()` on a `None` value"
           | Some b =>
               commit_walk fuel' (add_committed_block b s) (parent_hash b) (newly ++ [b])
           end
  end.

(** A walk commits a delivered block per round, so this many rounds do. *)
Definition commit_fuel (s : Storage B) : nat :=
  S (size (all_delivered_blocks_by_hash s)).
End walk.

(** ** Well-formed stores *)
Section storage_facts.
Context `{BlockTrait B} `{!HasParent B}.
Implicit Types (s : Storage B) (b : B) (h : Hash) (ht : Height).

Record storage_wf s : Prop := {
  wf_hash h b : all_delivered_blocks_by_hash s !! h = Some b → get_hash b = h;
  wf_ht ht b : all_delivered_blocks_by_ht s !! ht = Some b →
    get_height b = ht ∧ is_Some (all_delivered_blocks_by_hash s !! get_hash b);
  wf_committed h : h ∈ committed_blocks_by_hash s →
    is_Some (all_delivered_blocks_by_hash s !! h);
}.

(** One step up the chain, among delivered blocks. *)
Definition parent_step s h h' : Prop :=
  ∃ b, all_delivered_blocks_by_hash s !! h = Some b ∧ h' = parent_hash b.
Definition ancestor s h h' : Prop := rtc (parent_step s) h h'.

(** Every ancestor of [h], and [h], has been delivered. *)
Definition complete s h : Prop :=
  ∀ h', ancestor s h h' → is_Some (all_delivered_blocks_by_hash s !! h').

(** With every committed block its parent is committed. *)
Definition committed_closed s : Prop :=
  ∀ h b, h ∈ committed_blocks_by_hash s →
    all_delivered_blocks_by_hash s !! h = Some b →
    parent_hash b ∈ committed_blocks_by_hash s.

Lemma storage_new_wf : storage_wf (storage_new (B:=B)).
Proof. split; set_solver. Qed.

Lemma add_delivered_block_wf b s : storage_wf s → storage_wf (add_delivered_block b s).
Proof.
  intros [Hh Ht Hc]. split; simpl.
  - intros h b'. rw lookup_insert. case_decide; naive_solver.
  - intros ht b'. rw !lookup_insert. case_decide.
    + intros [= <-]. split; [done|]. rw decide_True //.
    + intros [??]%Ht. split; [done|]. case_decide; eauto.
  - intros h [b' Hb']%Hc. rw lookup_insert. case_decide; eauto.
Qed.

Lemma add_committed_block_wf b s :
  storage_wf s → is_Some (all_delivered_blocks_by_hash s !! get_hash b) →
  storage_wf (add_committed_block b s).
Proof. intros [Hh Ht Hc] ?. split; simpl; [done..|]. set_solver. Qed.

Lemma is_delivered_spec s h :
  is_delivered_by_hash s h = true ↔ is_Some (delivered_block_from_hash s h).
Proof. apply bool_decide_eq_true. Qed.

Lemma is_committed_spec s h :
  is_committed_by_hash s h = true ↔ h ∈ committed_blocks_by_hash s.
Proof. apply bool_decide_eq_true. Qed.

Lemma complete_parent s h b :
  complete s h → all_delivered_blocks_by_hash s !! h = Some b →
  complete s (parent_hash b).
Proof. intros Hc Hb h' Hanc. apply Hc. eapply rtc_l; [|done]. by exists b. Qed.

Lemma complete_of_parent s h b :
  all_delivered_blocks_by_hash s !! h = Some b →
  complete s (parent_hash b) → complete s h.
Proof.
  intros Hb Hp h' Hanc. inversion Hanc as [|? ? ? (b' & Hb' & ->)]; subst; [eauto|].
  simplify_eq. by apply Hp.
Qed.

(** Every delivered block's parent has been delivered. *)
Definition parents_delivered s : Prop :=
  ∀ h b, all_delivered_blocks_by_hash s !! h = Some b →
    is_Some (all_delivered_blocks_by_hash s !! parent_hash b).

Lemma parents_complete s h :
  parents_delivered s → is_Some (all_delivered_blocks_by_hash s !! h) → complete s h.
Proof.
  intros Hp Hh h' Hanc. induction Hanc as [|h h1 h2 (b & Hb & ->) _ IH]; [done|].
  apply IH. by eapply Hp.
Qed.

Lemma add_delivered_mono b s h :
  is_Some (all_delivered_blocks_by_hash s !! h) →
  is_Some (all_delivered_blocks_by_hash (add_delivered_block b s) !! h).
Proof. intros [b' Hb']. simpl. rw lookup_insert. case_decide; eauto. Qed.

Lemma add_delivered_self b s :
  is_Some (all_delivered_blocks_by_hash (add_delivered_block b s) !! get_hash b).
Proof. simpl. rw lookup_insert_eq. eauto. Qed.

Lemma add_delivered_parents b s :
  parents_delivered s → is_Some (all_delivered_blocks_by_hash s !! parent_hash b) →
  parents_delivered (add_delivered_block b s).
Proof.
  intros Hp Hb h b'. simpl. rw lookup_insert. case_decide.
  - intros [= <-]. by apply add_delivered_mono.
  - intros Hb'. by eapply add_delivered_mono, Hp.
Qed.

(** Delivering again what is indexed already, or something new and not
    committed, does not disturb the committed chain. *)
Lemma add_delivered_closed b s :
  storage_wf s →
  (∀ b', all_delivered_blocks_by_hash s !! get_hash b = Some b' → parent_hash b' = parent_hash b) →
  committed_closed s → committed_closed (add_delivered_block b s).
Proof.
  intros Hwf Hsame Hcl h b' Hh. simpl in *. rw lookup_insert. case_decide as Hd; [|by apply Hcl].
  intros [= <-]. destruct (wf_committed _ Hwf _ Hh) as [b0 Hb0]. rw -Hd in Hb0.
  rw -(Hsame _ Hb0). eapply Hcl; [exact Hh|by rw -Hd].
Qed.
End storage_facts.
Create HintDb storage.
#[export] Hint Resolve storage_new_wf add_delivered_block_wf : storage.

(** ** What the commit walk does *)
Section walk_facts.
Context `{BlockTrait B} `{!HasParent B}.
Implicit Types (s : Storage B) (b : B) (h : Hash) (path : list B).

(** [path] lists delivered blocks, each the parent of the one before it,
    the first one having hash [h]. *)
Inductive path_from s : Hash → list B → Prop :=
  | path_nil h : path_from s h []
  | path_cons h b path :
      all_delivered_blocks_by_hash s !! h = Some b →
      path_from s (parent_hash b) path → path_from s h (b :: path).

(** The effect of a finished walk from [h] over [path]. *)
Record walked s h path s' : Prop := {
  walked_by_hash : all_delivered_blocks_by_hash s' = all_delivered_blocks_by_hash s;
  walked_by_ht : all_delivered_blocks_by_ht s' = all_delivered_blocks_by_ht s;
  walked_committed : committed_blocks_by_hash s' =
    committed_blocks_by_hash s ∪ list_to_set (get_hash <$> path);
  walked_path : path_from s h path;
  walked_fresh : Forall (λ b, get_hash b ∉ committed_blocks_by_hash s) path;
  walked_nodup : NoDup (get_hash <$> path);
  walked_start : h ∈ committed_blocks_by_hash s';
  walked_parents : Forall (λ b, parent_hash b ∈ committed_blocks_by_hash s') path;
}.

Definition uncommitted s : gset Hash :=
  dom (all_delivered_blocks_by_hash s) ∖ committed_blocks_by_hash s.

Lemma path_from_ext s s' h path :
  all_delivered_blocks_by_hash s' = all_delivered_blocks_by_hash s →
  path_from s' h path → path_from s h path.
Proof.
  intros E. induction 1 as [|h b path Hb ? IH]; constructor; [|done].
  by rw -E.
Qed.

Lemma uncommitted_lt s b h :
  all_delivered_blocks_by_hash s !! h = Some b → get_hash b = h →
  h ∉ committed_blocks_by_hash s →
  size (uncommitted (add_committed_block b s)) < size (uncommitted s).
Proof.
  intros Hb Hh Hn. apply subset_size. unfold uncommitted; simpl.
  apply strict_spec_alt; split; [set_solver|].
  intros E. assert (h ∈ dom (all_delivered_blocks_by_hash s)) by by apply elem_of_dom_2 in Hb.
  set_solver.
Qed.

Lemma uncommitted_fuel s : size (uncommitted s) < commit_fuel s.
Proof.
  unfold commit_fuel, uncommitted. rw -size_dom.
  assert (size (dom (all_delivered_blocks_by_hash s) ∖ committed_blocks_by_hash s)
    ≤ size (dom (all_delivered_blocks_by_hash s))); [|lia].
  apply subseteq_size. set_solver.
Qed.

Lemma walked_stop s h : h ∈ committed_blocks_by_hash s → walked s h [] s.
Proof. intros ?. split; try done; [set_solver|constructor..]. Qed.

Lemma walked_cons s h b path s' :
  all_delivered_blocks_by_hash s !! h = Some b → get_hash b = h →
  h ∉ committed_blocks_by_hash s →
  walked (add_committed_block b s) (parent_hash b) path s' →
  walked s h (b :: path) s'.
Proof.
  intros Hb Hh Hn [W1 W2 W3 W4 W5 W6 W7 W8]; simpl in *. subst h. split; try done.
  - rw W3. set_solver.
  - constructor; [done|]. eapply path_from_ext; [|exact W4]; done.
  - constructor; [done|]. eapply Forall_impl; [exact W5|]. intros b' Hb' ?; apply Hb'. by apply elem_of_union_r.
  - rw fmap_cons. constructor; [|done].
    rw Forall_forall in W5. intros (b' & Hb' & Hin)%list_elem_of_fmap.
    apply (W5 b'); [done|]. apply elem_of_union_l. by rw -Hb' elem_of_singleton.
  - rw W3. set_solver.
  - by constructor.
Qed.

Lemma complete_add_committed s b h :
  complete (add_committed_block b s) h ↔ complete s h.
Proof. done. Qed.

(** The walk always ends; it panics only when an ancestor is missing. *)
Lemma commit_walk_run fuel s h newly :
  storage_wf s → size (uncommitted s) < fuel →
  match commit_walk fuel s h newly with
  | Done newly' s' => ∃ path, newly' = newly ++ path ∧ walked s h path s' ∧ storage_wf s'
  | Panicked _ => ¬ complete s h
  | OutOfFuel => False
  end.
Proof.
  revert s h newly. induction fuel as [|fuel IH]; intros s h newly Hwf Hlt; [lia|].
  simpl. case_eq (is_committed_by_hash s h).
  { intros ?%is_committed_spec. exists []. rw app_nil_r. auto using walked_stop. }
  intros Hn. assert (h ∉ committed_blocks_by_hash s) by by rw -is_committed_spec Hn.
  case_eq (delivered_block_from_hash s h); unfold delivered_block_from_hash.
  2:{ intros Hd Hc. destruct (Hc h) as [? ?]; [constructor|congruence]. }
  intros b Hb. pose proof (wf_hash _ Hwf _ _ Hb) as Hh.
  specialize (IH (add_committed_block b s) (parent_hash b) (newly ++ [b])).
  destruct (commit_walk _ _ _ _) as [newly' s'|why|].
  - destruct IH as (path & -> & Hw & Hwf').
    { apply add_committed_block_wf; [done|]. rw Hh. eauto. }
    { eapply Nat.lt_le_trans; [by eapply uncommitted_lt|lia]. }
    exists (b :: path). rw -app_assoc. eauto using walked_cons.
  - intros Hc. eapply IH.
    { apply add_committed_block_wf; [done|]. rw Hh. eauto. }
    { eapply Nat.lt_le_trans; [by eapply uncommitted_lt|lia]. }
    apply complete_add_committed. by eapply complete_parent.
  - apply IH.
    { apply add_committed_block_wf; [done|]. rw Hh. eauto. }
    { eapply Nat.lt_le_trans; [by eapply uncommitted_lt|lia]. }
Qed.

Lemma walked_closed s h path s' :
  storage_wf s → walked s h path s' → committed_closed s → committed_closed s'.
Proof.
  intros Hwf [W1 _ W3 W4 _ _ _ W8] Hcl x b Hx Hb. rw W1 in Hb.
  rw W3 in Hx. apply elem_of_union in Hx as [Hx|Hx].
  { rw W3. apply elem_of_union_l. eauto. }
  apply elem_of_list_to_set, list_elem_of_fmap in Hx as (b' & -> & Hin).
  rw Forall_forall in W8. enough (b = b') as -> by eauto.
  enough (all_delivered_blocks_by_hash s !! get_hash b' = Some b') by congruence.
  clear -Hwf W4 Hin. induction W4 as [|h b path Hb ? IH]; [by apply not_elem_of_nil in Hin|].
  apply elem_of_cons in Hin as [->|?]; [|auto]. by rw (wf_hash _ Hwf _ _ Hb).
Qed.

Lemma path_from_ancestor s h path :
  storage_wf s → path_from s h path → ∀ b, b ∈ path → ancestor s h (get_hash b).
Proof.
  intros Hwf. induction 1 as [|h b path Hb ? IH]; intros b' Hin;
    [by apply not_elem_of_nil in Hin|].
  apply elem_of_cons in Hin as [->|?].
  - rw (wf_hash _ Hwf _ _ Hb). apply rtc_refl.
  - eapply rtc_l; [by exists b|]. by apply IH.
Qed.

Lemma closed_ancestor s h x :
  committed_closed s → h ∈ committed_blocks_by_hash s → ancestor s h x →
  x ∈ committed_blocks_by_hash s.
Proof. intros Hcl Hh. induction 1 as [|h y z (b & Hb & ->)]; eauto. Qed.

Lemma walked_exact s h path s' :
  storage_wf s → committed_closed s → walked s h path s' →
  ∀ x, x ∈ committed_blocks_by_hash s' ↔
       x ∈ committed_blocks_by_hash s ∨ ancestor s h x.
Proof.
  intros Hwf Hcl Hw x. split.
  - rw (walked_committed _ _ _ _ Hw) elem_of_union elem_of_list_to_set list_elem_of_fmap.
    intros [?|(b & -> & ?)]; [by left|right].
    eapply path_from_ancestor; eauto using walked_path.
  - intros [Hx|Hx].
    + rw (walked_committed _ _ _ _ Hw). by apply elem_of_union_l.
    + eapply closed_ancestor; [by eapply walked_closed|by eapply walked_start|].
      eapply rtc_subrel; [|done]. intros y z (b & Hb & ->).
      exists b. by rw (walked_by_hash _ _ _ _ Hw).
Qed.

(** With every ancestor delivered the walk returns. *)
Lemma commit_walk_total s h :
  storage_wf s → complete s h →
  ∃ path s', commit_walk (commit_fuel s) s h [] = Done path s' ∧
    walked s h path s' ∧ storage_wf s'.
Proof.
  intros Hwf Hc. pose proof (commit_walk_run _ s h [] Hwf (uncommitted_fuel s)) as Hrun.
  destruct (commit_walk _ _ _ _) as [path s'|why|]; [|done..].
  destruct Hrun as (path' & -> & ? & ?). eauto.
Qed.

(** The index after a commit: the same blocks, maybe more of them committed. *)
Definition committed_more s s' : Prop :=
  all_delivered_blocks_by_hash s' = all_delivered_blocks_by_hash s ∧
  committed_blocks_by_hash s ⊆ committed_blocks_by_hash s' ∧
  storage_wf s' ∧ (committed_closed s → committed_closed s').

Lemma walked_more s h path s' :
  storage_wf s → storage_wf s' → walked s h path s' → committed_more s s'.
Proof.
  intros Hwf Hwf' Hw. split; [by eapply walked_by_hash|]. split; [|split; [done|]].
  - rw (walked_committed _ _ _ _ Hw). set_solver.
  - by eapply walked_closed.
Qed.
End walk_facts.
