(* ===== verification/Config.v ===== *)
(** * Node and client configuration (config/src)

    The configuration records, their validation and the address rewriting
    done by the node binaries.  File formats (JSON, TOML, YAML, bincode) are
    read by third-party crates and are not modelled. *)

From stdpp Require Import pretty.
From S2P Require Import Prelude Crypto Types Text.

(** libcrypto's `Algorithm`. *)
Inductive Algorithm := ED25519 | SECP256K1 | RSA.
#[export] Instance Algorithm_eq_dec : EqDecision Algorithm.
Proof. solve_decision. Defined.

(** ** config/src/error.rs *)
Inductive ParseError :=
  | InvalidMapLen (exp actual : N)
  | IncorrectFaults (f n : N)
  | InvalidMapEntry (r : Replica)
  | InvalidPkSize (s : nat)
  | InvalidSkSize (s : nat)
  | Unimplemented (feature : string).

(** `Display` and `Error::description`. *)
Definition ParseError_fmt (e : ParseError) : string :=
  match e with
  | InvalidMapLen exp actual => "invalid map length: expected " +:+ pretty exp +:+ ", got " +:+ pretty actual
  | IncorrectFaults fault n => "n > 2f not satisfied since " +:+ pretty n +:+ " !> 2x" +:+ pretty fault
  | InvalidMapEntry r => "invalid map entry for " +:+ pretty r +:+ " replica"
  | InvalidPkSize s => "invalid public key size (" +:+ pretty (N.of_nat s) +:+ ")"
  | Unimplemented feature => feature +:+ " feature is not yet implemented"
  | InvalidSkSize s => "invalid secret key size (" +:+ pretty (N.of_nat s) +:+ ")"
  end.
Definition ParseError_description (e : ParseError) : string :=
  match e with
  | InvalidMapLen _ _ => "invalid map length"
  | IncorrectFaults _ _ => "incorrect f and n values"
  | InvalidMapEntry _ => "incorrect map entry"
  | InvalidPkSize _ => "invalid public key size"
  | InvalidSkSize _ => "invalid secret key size"
  | Unimplemented _ => "feature unimplemented"
  end.

Inductive result (E A : Type) := Ok (a : A) | Err (e : E).
Arguments Ok {E A} a.
Arguments Err {E A} e.

(** ** config/src/lib.rs *)
Definition is_valid_replica (r n : N) : bool := (r <? n)%N.

(** `for x in xs { if let Err(e) = check(x) { return Err(e) } }`. *)
Fixpoint check_all {E A} (check : A → option E) (xs : list A) : option E :=
  match xs with
  | [] => None
  | x :: xs' => match check x with Some e => Some e | None => check_all check xs' end
  end.

(** The two map checks that `Node::validate` and `Client::validate` share. *)
Definition check_entry (n : N) (kv : N * string) : option ParseError :=
  if is_valid_replica kv.1 n then None else Some (InvalidMapEntry kv.1).
Definition check_pk (n : N) (kv : N * bytes) : option ParseError :=
  if is_valid_replica kv.1 n
  then if bool_decide (kv.2 = []) then Some (InvalidPkSize (length kv.2)) else None
  else Some (InvalidMapEntry kv.1).

(** ** config/src/node.rs *)
Definition default_bench_emit_window_secs : N := 1.

Record Node := mkNode {
  net_map : gmap N string;
  mempool_net_map : gmap N string;
  client_net_map : gmap N string;
  delta : N;
  id : Replica;
  num_nodes : N;
  num_faults : N;
  block_size : N;
  client_port : N;
  mempool_port : N;
  payload_size : N;
  bench_emit_window_secs : N;
  bench_metrics_node : Replica;
  crypto_alg : Algorithm;
  pk_map : gmap N bytes;
  secret_key_bytes : bytes;
  my_cert_path : string;
  my_cert_key_path : string;
  root_cert_path : string;
}.
#[export] Instance eta_Node : Eta Node := λ x,
  mkNode (net_map x) (mempool_net_map x) (client_net_map x) (delta x) (id x) (num_nodes x)
    (num_faults x) (block_size x) (client_port x) (mempool_port x) (payload_size x)
    (bench_emit_window_secs x) (bench_metrics_node x) (crypto_alg x) (pk_map x)
    (secret_key_bytes x) (my_cert_path x) (my_cert_key_path x) (root_cert_path x).

Definition node_new : Node := {|
  net_map := ∅; mempool_net_map := ∅; client_net_map := ∅; delta := 50; id := 0;
  num_nodes := 0; num_faults := 0; block_size := 0; client_port := 0; mempool_port := 0;
  payload_size := 0; bench_emit_window_secs := default_bench_emit_window_secs;
  bench_metrics_node := 0; crypto_alg := ED25519; pk_map := ∅; secret_key_bytes := [];
  my_cert_path := ""; my_cert_key_path := ""; root_cert_path := "" |}.

Definition node_validate (c : Node) : result ParseError unit :=
  if negb (N.of_nat (size (net_map c)) =? num_nodes c)%N
  then Err (InvalidMapLen (num_nodes c) (N.of_nat (size (net_map c))))
  else if (num_nodes c <=? wrap64 (2 * num_faults c))%N
  then Err (IncorrectFaults (num_faults c) (num_nodes c))
  else match check_all (check_entry (num_nodes c)) (map_to_list (net_map c)) with
  | Some e => Err e
  | None =>
      match crypto_alg c with
      | ED25519 | SECP256K1 =>
          match check_all (check_pk (num_nodes c)) (map_to_list (pk_map c)) with
          | Some e => Err e
          | None => if bool_decide (secret_key_bytes c = [])
                    then Err (InvalidSkSize (length (secret_key_bytes c))) else Ok tt
          end
      | RSA => Err (Unimplemented "RSA")
      end
  end.

(** `ip.split(":").last()`. *)
Fixpoint after_last_colon (s cur : string) : string :=
  match s with
  | EmptyString => cur
  | String.String a s' =>
      if (Ascii.N_of_ascii a =? 58)%N then after_last_colon s' s' else after_last_colon s' cur
  end.
Definition split_last (s : string) : string := after_last_colon s s.

Definition node_update_one (c : Node) (idx : N) (ip : string) : outcome Node unit :=
  if (idx =? id c)%N then
    match parse_u16 (split_last ip) with
    | None => Panicked "failed to parse the port after :"
    | Some port =>
        Done tt (c <| net_map ::= insert idx (String.append "0.0.0.0:" (pretty port)) |>)
    end
  else Done tt (c <| net_map ::= insert idx ip |>).

Fixpoint node_update_config (idx : N) (ips : list string) (c : Node) : outcome Node unit :=
  match ips with
  | [] => Done tt c
  | ip :: ips' =>
      match node_update_one c idx ip with
      | Done _ c' => node_update_config (as_u16 (idx + 1)) ips' c'
      | Panicked w => Panicked w
      | OutOfFuel => OutOfFuel
      end
  end.

Definition my_ip (c : Node) : option string := net_map c !! id c.
Definition client_ip (c : Node) : string := String.append "0.0.0.0:" (pretty (client_port c)).
Definition mempool_ip (c : Node) : string := String.append "0.0.0.0:" (pretty (mempool_port c)).

(** ** config/src/client.rs *)
Record Client := mkClient {
  c_net_map : gmap N string;
  c_crypto_alg : Algorithm;
  c_server_pk : gmap N bytes;
  c_num_nodes : N;
  c_num_faults : N;
  c_block_size : N;
  c_payload : N;
  c_my_id : ClientId;
  c_my_listen_addr : string;
  c_my_cert_path : string;
  c_my_cert_key_path : string;
  c_root_cert_path : string;
}.
#[export] Instance eta_Client : Eta Client := λ x,
  mkClient (c_net_map x) (c_crypto_alg x) (c_server_pk x) (c_num_nodes x) (c_num_faults x)
    (c_block_size x) (c_payload x) (c_my_id x) (c_my_listen_addr x) (c_my_cert_path x)
    (c_my_cert_key_path x) (c_root_cert_path x).

Definition client_new : Client := mkClient ∅ ED25519 ∅ 0 0 0 0 0 "" "" "" "".

Definition client_validate (c : Client) : result ParseError unit :=
  if negb (N.of_nat (size (c_net_map c)) =? c_num_nodes c)%N
  then Err (InvalidMapLen (c_num_nodes c) (N.of_nat (size (c_net_map c))))
  else if (c_num_nodes c <=? wrap64 (2 * c_num_faults c))%N
  then Err (IncorrectFaults (c_num_faults c) (c_num_nodes c))
  else match check_all (check_entry (c_num_nodes c)) (map_to_list (c_net_map c)) with
  | Some e => Err e
  | None =>
      match c_crypto_alg c with
      | ED25519 | SECP256K1 =>
          match check_all (check_pk (c_num_nodes c)) (map_to_list (c_server_pk c)) with
          | Some e => Err e
          | None => Ok tt
          end
      | RSA => Err (Unimplemented "RSA")
      end
  end.

Fixpoint client_update_config (idx : N) (ips : list string) (c : Client) : Client :=
  match ips with
  | [] => c
  | ip :: ips' => client_update_config (as_u16 (idx + 1)) ips' (c <| c_net_map ::= insert idx ip |>)
  end.

(** ** What validation establishes *)
Lemma check_all_None {E A} (check : A → option E) xs :
  check_all check xs = None ↔ Forall (λ x, check x = None) xs.
Proof.
  induction xs as [|x xs IH]; simpl; [by split; [constructor|]|].
  rw Forall_cons -IH. destruct (check x); naive_solver.
Qed.

Lemma check_map_None {E V} (check : N * V → option E) (m : gmap N V) :
  check_all check (map_to_list m) = None ↔ map_Forall (λ k v, check (k, v) = None) m.
Proof. rw check_all_None map_Forall_to_list. apply Forall_proper; [|done]. by intros []. Qed.

Lemma check_entry_None n k v : check_entry n (k, v) = None ↔ (k < n)%N.
Proof.
  unfold check_entry, is_valid_replica; simpl. rw -N.ltb_lt. by destruct (k <? n)%N.
Qed.

Lemma check_pk_None n k v : check_pk n (k, v) = None ↔ (k < n)%N ∧ v ≠ [].
Proof.
  unfold check_pk, is_valid_replica; simpl. rw -N.ltb_lt.
  destruct (k <? n)%N; [|naive_solver]. case_bool_decide; naive_solver.
Qed.

(** The keys of a full map below [n] are all the replicas. *)
Lemma full_map {V} (m : gmap N V) (n : N) :
  N.of_nat (size m) = n ∧ map_Forall (λ k _, (k < n)%N) m ↔ ∀ r, is_Some (m !! r) ↔ (r < n)%N.
Proof.
  set (all := list_to_set (N.of_nat <$> seq 0 (N.to_nat n)) : gset N).
  assert (∀ r, r ∈ all ↔ (r < n)%N) as Hall.
  { intros r. unfold all. rw elem_of_list_to_set list_elem_of_fmap. split.
    - intros (i & -> & Hi%elem_of_seq). lia.
    - intros Hr. exists (N.to_nat r). rw elem_of_seq. lia. }
  assert (size all = N.to_nat n) as Hsz.
  { unfold all. rw size_list_to_set; [by rw length_fmap length_seq|].
    apply NoDup_fmap; [apply _|apply NoDup_seq]. }
  trans (dom m = all).
  - split.
    + intros [Hn Hlt]. apply set_subseteq_size_eq; [|rw Hsz size_dom; lia].
      intros r [v Hv]%elem_of_dom. apply Hall. by apply (Hlt _ v).
    + intros E. rw -size_dom E Hsz. split; [lia|]. intros k v Hv.
      apply Hall. rw -E. by apply elem_of_dom_2 in Hv.
  - split.
    + intros E r. by rw -Hall -E elem_of_dom.
    + intros Hr. apply set_eq. intros r. by rw Hall -Hr elem_of_dom.
Qed.

(** The checks common to both configurations. *)
Lemma validate_net {V} (m : gmap N string) (pks : gmap N V) (n f : N) :
  (2 * f < u64_size)%N →
  (N.of_nat (size m) =? n)%N = true ∧ (n <=? wrap64 (2 * f))%N = false ∧
  check_all (check_entry n) (map_to_list m) = None ↔
  (∀ r, is_Some (m !! r) ↔ (r < n)%N) ∧ (2 * f < n)%N.
Proof.
  intros Hf. rw check_map_None N.eqb_eq N.leb_gt wrap64_small // -full_map.
  assert (map_Forall (λ k v, check_entry n (k, v) = None) m ↔ map_Forall (λ k _, (k < n)%N) m) as ->;
    [|naive_solver].
  split; intros Hm k v Hv; by apply (check_entry_None n k v), (Hm k v).
Qed.

Lemma validate_pks (pks : gmap N bytes) (n : N) :
  check_all (check_pk n) (map_to_list pks) = None ↔
  map_Forall (λ r pk, (r < n)%N ∧ pk ≠ []) pks.
Proof. rw check_map_None. split; intros Hm k v Hv; by apply (check_pk_None n k v), (Hm k v). Qed.

Lemma node_validate_iff (c : Node) :
  (2 * num_faults c < u64_size)%N →
  node_validate c = Ok tt ↔
    ((∀ r, is_Some (net_map c !! r) ↔ (r < num_nodes c)%N) ∧ (2 * num_faults c < num_nodes c)%N) ∧
    crypto_alg c ≠ RSA ∧
    map_Forall (λ r pk, (r < num_nodes c)%N ∧ pk ≠ []) (pk_map c) ∧ secret_key_bytes c ≠ [].
Proof.
  intros Hf. rw -(validate_net (net_map c) (pk_map c)) // -validate_pks. unfold node_validate.
  destruct (_ =? _)%N; simpl; [|naive_solver]. destruct (_ <=? _)%N; [naive_solver|].
  destruct (check_all (check_entry _) _); [naive_solver|].
  destruct (crypto_alg c); try naive_solver;
    (destruct (check_all (check_pk _) _); [naive_solver|case_bool_decide; naive_solver]).
Qed.

(** A node configuration passes `validate` exactly when the address map
    has one entry for every replica `0..n`, fewer than half of the replicas
    are faulty, the algorithm is implemented, every listed public key belongs
    to a replica and is non-empty, and the secret key is non-empty (given that
    `2 * f` does not overflow).  Validation says nothing about which replicas
    have a public key. *)
Theorem node_validate_ok (c : Node) :
  (2 * num_faults c < u64_size)%N →
  node_validate c = Ok tt ↔
    ((∀ r, is_Some (net_map c !! r) ↔ (r < num_nodes c)%N) ∧ (2 * num_faults c < num_nodes c)%N) ∧
    crypto_alg c ≠ RSA ∧
    map_Forall (λ r pk, (r < num_nodes c)%N ∧ pk ≠ []) (pk_map c) ∧ secret_key_bytes c ≠ [].
Proof. apply node_validate_iff. Qed.

(** Three nodes, one of them faulty. *)
Module ConfigExamples.
Definition cfg3 : Node :=
  node_new <| num_nodes := 3%N |> <| num_faults := 1%N |>
    <| net_map := {[ 0%N := "127.0.0.1:4000"; 1%N := "127.0.0.1:4001";
                     2%N := "127.0.0.1:4002" ]} |>
    <| pk_map := {[ 0%N := [10%N]; 1%N := [11%N]; 2%N := [12%N] ]} |>
    <| secret_key_bytes := [10%N] |>.

Lemma node_validate_ok_witness :
  node_validate cfg3 = Ok tt ∧ (∀ r, is_Some (net_map cfg3 !! r) ↔ (r < 3)%N).
Proof.
  assert (node_validate cfg3 = Ok tt) as E by (vm_compute; reflexivity).
  split; [exact E|]. apply node_validate_ok in E; [|vm_compute; reflexivity].
  destruct E as [[E _] _]. exact E.
Defined.

(** The node's own address is rewritten to listen on every interface. *)
Example update_config_own_port :
  ∃ c, node_update_config 0 ["10.0.0.1:7000"; "10.0.0.2:7001"] cfg3 = Done tt c ∧
    my_ip c = Some "0.0.0.0:7000" ∧ net_map c !! 1%N = Some "10.0.0.2:7001".
Proof. eexists. split; [vm_compute; reflexivity|]. split; vm_compute; reflexivity. Qed.

(** The message names the expected length first, as `validate` passes it. *)
Example wrong_length_message :
  match node_validate (cfg3 <| num_nodes := 4%N |>) with Err e => ParseError_fmt e | Ok _ => "" end =
    "invalid map length: expected 4, got 3".
Proof. vm_compute. reflexivity. Qed.
End ConfigExamples.
