(* ===== verification/GenConfig.v ===== *)
(** * genconfig (tools/genconfig/src/main.rs)

    The tool that writes the configuration files of a cluster.  The command
    line is the map from argument names (cli.yml) to the texts given, as clap
    hands it to the program.  Key generation (libcrypto) is a parameter,
    and so are, here, the paths of the certificates, which the tool copies into
    the configurations; Disk.v makes them. *)

From stdpp Require Import pretty.
From S2P Require Import Prelude Crypto Types Text Config.

Abbreviation Args := (gmap string string).

(** ** Panics and errors as values *)
#[export] Instance result_ret E : MRet (result E) := λ A, Ok.
#[export] Instance result_bind E : MBind (result E) := λ A B f m,
  match m with Ok a => f a | Err e => Err e end.

(** `Option::expect`, `Result::expect`. *)
Definition expect {A} (why : string) (o : option A) : result string A :=
  match o with Some a => Ok a | None => Err why end.

(** ** util/src/io.rs: the formats *)
Inductive FileType := JSON | BIN | TOML | YAML.
#[export] Instance FileType_eq_dec : EqDecision FileType.
Proof. solve_decision. Defined.

(** ** Keys and certificates *)
Class KeyTools := {
  (** `str::parse::<Algorithm>`. *)
  parse_algorithm : string → option Algorithm;
  (** Node [i]'s public key and key pair, serialized. *)
  ed25519_keys : N → bytes * bytes;
  secp256k1_keys : N → bytes * bytes;
  (** The path of the root certificate, and of the chain and the key of the
      certificate called [name] with the extra addresses [sans]. *)
  root_cert : option string;
  signed_cert : string → list string → option (string * string);
}.

(** `nodes-0.json` and its kin: what is in a file. *)
Inductive ConfFile := NodeFile (c : Node) | ClientFile (c : Client).
Record File := mkFile { file_path : string; file_type : FileType; file_conf : ConfFile }.

Section genconfig.
Context `{KeyTools}.

(** ** The command line *)
Record GenArgs := mkGenArgs {
  g_num_nodes : N;
  g_num_faults : N;
  g_delay : N;
  g_base_port : N;
  g_blocksize : N;
  g_client_base_port : N;
  g_algorithm : Algorithm;
  g_out : string;
  g_target : string;
  g_payload : N;
  g_client_listen_port : N;
  g_mempool_base_port : N;
  g_num_clients : N;
  g_node_sans : list string;
  g_client_sans : list string;
}.

(** `m.value_of(name).expect(..).parse().expect(..)`. *)
Definition required (parse : string → option N) (m : Args) (name : string) : result string N :=
  v ← expect name (m !! name); expect name (parse v).

Definition parse_ip_list (spec : option string) : list string :=
  match spec with
  | Some s => filter (λ x, x ≠ EmptyString) (trim <$> split 44 s)
  | None => []
  end.

Definition parse_args (m : Args) : result string GenArgs :=
  num_nodes ← required parse_u64 m "num_nodes";
  num_faults ← match m !! "num_faults" with
               | Some x => expect "num_faults" (parse_u64 x)
               | None => Ok (sub64 num_nodes 1 / 2)%N
               end;
  delay ← required parse_u64 m "delay";
  base_port ← required parse_u16 m "base_port";
  blocksize ← required parse_u64 m "block_size";
  client_base_port ← required parse_u16 m "client_base_port";
  let t := default ED25519 (parse_algorithm (default "ED25519" (m !! "algorithm"))) in
  let out := default "json" (m !! "out_type") in
  target ← expect "target" (m !! "target");
  payload ← expect "payload" (parse_u64 (default "0" (m !! "payload")));
  client_listen_port ← required parse_u16 m "client_listen_port";
  mempool_base_port ← required parse_u16 m "mempool_base_port";
  num_clients ← expect "num_clients" (parse_u16 (default "1" (m !! "num_clients")));
  if (num_clients =? 0)%N then Err "num_clients must be >= 1"
  else Ok {|
    g_num_nodes := num_nodes; g_num_faults := num_faults; g_delay := delay;
    g_base_port := base_port; g_blocksize := blocksize; g_client_base_port := client_base_port;
    g_algorithm := t; g_out := out; g_target := target; g_payload := payload;
    g_client_listen_port := client_listen_port; g_mempool_base_port := mempool_base_port;
    g_num_clients := num_clients; g_node_sans := parse_ip_list (m !! "node_ips");
    g_client_sans := parse_ip_list (m !! "client_ips") |}.

(** ** The configurations *)
Definition local_addr (port : N) : string := "127.0.0.1:" +:+ pretty port.
Definition indices (n : N) : list N := N.of_nat <$> seq 0 (N.to_nat n).
(** A map filled by `for i in 0..n { map.insert(i as Replica, f(i)) }`. *)
Definition index_map {A} (n : N) (f : N → A) : gmap N A :=
  foldl (λ m i, <[as_u16 i := f i]> m) ∅ (indices n).

Definition keys_of (t : Algorithm) (i : N) : option (bytes * bytes) :=
  match t with
  | ED25519 => Some (ed25519_keys i)
  | SECP256K1 => Some (secp256k1_keys i)
  | RSA => None
  end.

Definition pk_map_of (g : GenArgs) : gmap N bytes :=
  foldl (λ m i, match keys_of (g_algorithm g) i with
                | Some (pk, _) => <[as_u16 i := pk]> m
                | None => m
                end) ∅ (indices (g_num_nodes g)).

Definition ip_map (g : GenArgs) : gmap N string :=
  index_map (g_num_nodes g) (λ i, local_addr (add16 (g_base_port g) (as_u16 i))).
Definition mempool_ip_map (g : GenArgs) : gmap N string :=
  index_map (g_num_nodes g) (λ i, local_addr (add16 (g_mempool_base_port g) (as_u16 i))).
Definition client_target_map (g : GenArgs) : gmap N string :=
  index_map (g_num_nodes g) (λ i, local_addr (add16 (g_client_base_port g) (as_u16 i))).
Definition client_net (g : GenArgs) : gmap N string :=
  index_map (g_num_clients g) (λ j, local_addr (add16 (g_client_listen_port g) j)).

(** Node [i], given the paths of its certificate. *)
Definition gen_node (g : GenArgs) (root : string) (i : N) (cert : string * string) : Node :=
  let n := node_new <| delta := g_delay g |> <| id := as_u16 i |>
    <| num_nodes := g_num_nodes g |> <| num_faults := g_num_faults g |>
    <| block_size := g_blocksize g |> <| payload_size := g_payload g |>
    <| client_port := add16 (g_client_base_port g) (as_u16 i) |>
    <| mempool_port := add16 (g_mempool_base_port g) (as_u16 i) |>
    <| crypto_alg := g_algorithm g |> in
  let n := match keys_of (g_algorithm g) i with
           | Some (_, kp) => n <| secret_key_bytes := kp |>
           | None => n
           end in
  n <| root_cert_path := root |> <| my_cert_path := cert.1 |> <| my_cert_key_path := cert.2 |>
    <| pk_map := pk_map_of g |> <| net_map := ip_map g |>
    <| mempool_net_map := mempool_ip_map g |> <| client_net_map := client_net g |>.

(** Client [j]. *)
Definition gen_client (g : GenArgs) (root : string) (j : N) (cert : string * string) : Client :=
  client_new <| c_block_size := g_blocksize g |> <| c_crypto_alg := g_algorithm g |>
    <| c_num_nodes := g_num_nodes g |> <| c_num_faults := g_num_faults g |>
    <| c_net_map := client_target_map g |> <| c_my_id := j |>
    <| c_my_listen_addr := local_addr (add16 (g_client_listen_port g) j) |>
    <| c_my_cert_path := cert.1 |> <| c_my_cert_key_path := cert.2 |>
    <| c_root_cert_path := root |> <| c_server_pk := pk_map_of g |>.

(** ** Writing the files: the format and the extension of `--out_type`. *)
Definition out_format (out : string) : option (FileType * string) :=
  if bool_decide (out = "json") then Some (JSON, "json")
  else if bool_decide (out = "binary") then Some (BIN, "dat")
  else if bool_decide (out = "toml") then Some (TOML, "toml")
  else if bool_decide (out = "yaml") then Some (YAML, "yml")
  else None.

Definition write_conf (g : GenArgs) (stem : string) (c : ConfFile) : M (list File) unit :=
  modify (λ files, match out_format (g_out g) with
    | Some (ft, ext) =>
        files ++ [mkFile (g_target g +:+ "/" +:+ stem +:+ "." +:+ ext) ft c]
    | None => files
    end).

Definition check_conf {E} (why : string) (r : result E unit) : M (list File) unit :=
  match r with Ok _ => ret tt | Err _ => panic why end.

Definition write_node (g : GenArgs) (ic : N * Node) : M (list File) unit :=
  write_conf g ("nodes-" +:+ pretty ic.1) (NodeFile ic.2);;;
  check_conf "failed to validate node config" (node_validate ic.2).
Definition write_client (g : GenArgs) (jc : N * Client) : M (list File) unit :=
  write_conf g ("client-" +:+ pretty jc.1) (ClientFile jc.2);;;
  check_conf "failed to validate the client config" (client_validate jc.2).

(** The certificates of [0..n], in order. *)
Definition certs_for (kind : string) (sans : list string) (idxs : list N)
    : option (list (N * (string * string))) :=
  mapM (λ i, c ← signed_cert (kind +:+ "-" +:+ pretty i) sans; Some (i, c)) idxs.

(** "Write all the files". *)
Definition write_files (g : GenArgs) (nodes : list (N * Node)) (clients : list (N * Client))
    : M (list File) unit :=
  for_each nodes (write_node g);;;
  for_each clients (write_client g);;;
  let! client0 := unwrap "index out of bounds" (head clients) in
  write_conf g "client" (ClientFile client0.2).

(** `main`: [None] is an error of openssl or the file system. *)
Definition genconfig (m : Args) : M (list File) (option unit) := λ files,
  match parse_args m with
  | Err why => Panicked why
  | Ok g =>
      match root_cert ≫= (λ root, ns ← certs_for "node" (g_node_sans g) (indices (g_num_nodes g));
              cs ← certs_for "client" (g_client_sans g) (indices (g_num_clients g));
              Some (root, ns, cs)) with
      | None => Done None files
      | Some (root, ns, cs) =>
          let nodes := (λ ic, (ic.1, gen_node g root ic.1 ic.2)) <$> ns in
          let clients := (λ jc, (jc.1, gen_client g root jc.1 jc.2)) <$> cs in
          (write_files g nodes clients;;; ret (Some tt)) files
      end
  end.

(** ** Filled maps *)
Lemma fill_lookup {A} (f : N → option A) (n : nat) (r : N) :
  (N.of_nat n ≤ u16_size)%N →
  foldl (λ m i, match f i with Some a => <[as_u16 i := a]> m | None => m end) (∅ : gmap N A)
    (N.of_nat <$> seq 0 n) !! r = if (r <? N.of_nat n)%N then f r else None.
Proof.
  induction n as [|n IH]; intros Hn.
  { assert ((r <? N.of_nat 0)%N = false) as -> by (apply N.ltb_ge; lia). done. }
  rw seq_S fmap_app foldl_app. cbn [fmap list_fmap foldl Nat.add]. set (m := foldl _ _ _) in *.
  assert (as_u16 (N.of_nat n) = N.of_nat n) as Hi by (apply N.mod_small; lia).
  destruct (decide (r = N.of_nat n)) as [->|Hr].
  - assert ((N.of_nat n <? N.of_nat (S n))%N = true) as -> by (apply N.ltb_lt; lia).
    destruct (f (N.of_nat n)) as [a|]; [by rw Hi lookup_insert_eq|].
    rw IH; [|lia]. by rw N.ltb_irrefl.
  - assert ((r <? N.of_nat (S n))%N = (r <? N.of_nat n)%N) as ->.
    { destruct (r <? N.of_nat n)%N eqn:E; [apply N.ltb_lt in E; apply N.ltb_lt; lia|].
      apply N.ltb_ge in E. apply N.ltb_ge. lia. }
    rw -IH; [|lia]. destruct (f (N.of_nat n)); [|done]. by rw Hi lookup_insert_ne.
Qed.

Lemma index_map_lookup {A} (n : N) (f : N → A) (r : N) :
  (n ≤ u16_size)%N → index_map n f !! r = if (r <? n)%N then Some (f r) else None.
Proof.
  intros Hn. pose proof (fill_lookup (λ i, Some (f i)) (N.to_nat n) r) as E.
  rw N2Nat.id in E. by apply E.
Qed.

Lemma pk_map_lookup g r :
  (g_num_nodes g ≤ u16_size)%N → pk_map_of g !! r =
    if (r <? g_num_nodes g)%N then fst <$> keys_of (g_algorithm g) r else None.
Proof.
  intros Hn.
  pose proof (fill_lookup (λ i, fst <$> keys_of (g_algorithm g) i) (N.to_nat (g_num_nodes g)) r) as E.
  rw N2Nat.id in E. etrans; [|exact (E Hn)]. clear E Hn. unfold pk_map_of, indices. f_equal.
  generalize (∅ : gmap N bytes). induction (N.of_nat <$> seq 0 (N.to_nat (g_num_nodes g))) as [|i l IH];
    intros m0; [done|].
  simpl. rw IH. by destruct (keys_of _ i) as [[]|].
Qed.

Lemma elem_of_indices n i : i ∈ indices n ↔ (i < n)%N.
Proof.
  unfold indices. rw list_elem_of_fmap. split.
  - intros (k & -> & Hk%elem_of_seq). lia.
  - intros Hi. exists (N.to_nat i). rw elem_of_seq. lia.
Qed.

(** ** A sound cluster: enough nodes, keys that are not empty *)
Record sound (g : GenArgs) : Prop := {
  so_nodes : (g_num_nodes g ≤ u16_size)%N;
  so_faults : (2 * g_num_faults g < g_num_nodes g)%N;
  so_clients : (0 < g_num_clients g < u16_size)%N;
  so_keys i : (i < g_num_nodes g)%N →
    ∃ pk kp, keys_of (g_algorithm g) i = Some (pk, kp) ∧ pk ≠ [] ∧ kp ≠ [];
}.

(** What the files promise each other: a map that names exactly [0..n], the
    [r]-th at port `base+r`. *)
Definition addresses (base n : N) (m : gmap N string) : Prop :=
  ∀ r, m !! r = if (r <? n)%N then Some (local_addr (add16 base r)) else None.
Definition cluster_node (g : GenArgs) (i : N) (c : Node) : Prop :=
  id c = i ∧ node_validate c = Ok tt ∧ num_nodes c = g_num_nodes g ∧
  client_port c = add16 (g_client_base_port g) i ∧
  addresses (g_base_port g) (g_num_nodes g) (net_map c) ∧
  addresses (g_client_listen_port g) (g_num_clients g) (client_net_map c) ∧
  block_size c = g_blocksize g ∧ pk_map c = pk_map_of g ∧ crypto_alg c = g_algorithm g ∧
  ∀ pk kp, keys_of (g_algorithm g) i = Some (pk, kp) → secret_key_bytes c = kp.
Definition cluster_client (g : GenArgs) (j : N) (c : Client) : Prop :=
  c_my_id c = j ∧ client_validate c = Ok tt ∧
  addresses (g_client_base_port g) (g_num_nodes g) (c_net_map c) ∧
  c_my_listen_addr c = local_addr (add16 (g_client_listen_port g) j).

Lemma small_u16 r n : (r < n)%N → (n ≤ u16_size)%N → as_u16 r = r.
Proof. intros. apply N.mod_small. lia. Qed.

Lemma index_map_addresses base n :
  (n ≤ u16_size)%N → addresses base n (index_map n (λ i, local_addr (add16 base (as_u16 i)))).
Proof.
  intros Hn r. rw index_map_lookup //. destruct (r <? n)%N eqn:E; [|done].
  apply N.ltb_lt in E. by rw (small_u16 r n).
Qed.

Lemma sound_maps g :
  sound g → (∀ (f : N → string) r, is_Some (index_map (g_num_nodes g) f !! r) ↔
    (r < g_num_nodes g)%N) ∧ g_algorithm g ≠ RSA ∧
  map_Forall (λ r pk, (r < g_num_nodes g)%N ∧ pk ≠ []) (pk_map_of g).
Proof.
  intros [Hn Hf Hc Hk]. split; [|split].
  - intros f r. rw index_map_lookup //. rw -N.ltb_lt. destruct (r <? _)%N; split; try done; eauto.
  - destruct (Hk 0%N) as (pk & kp & E & _); [lia|]. by intros Ha; rw Ha in E.
  - intros r pk. rw pk_map_lookup //. destruct (r <? _)%N eqn:E; [|done]. apply N.ltb_lt in E.
    destruct (Hk r E) as (pk' & kp & -> & Hpk & _). intros [= <-]. done.
Qed.

Lemma gen_node_cluster g root i cert :
  sound g → (i < g_num_nodes g)%N → cluster_node g i (gen_node g root i cert).
Proof.
  intros Hs Hi. pose proof Hs as [Hn Hf Hc Hk]. destruct (sound_maps g Hs) as (M1 & M2 & M3).
  destruct (Hk i Hi) as (pk & kp & Ek & _ & Hkp). unfold cluster_node, gen_node. rw Ek. simpl.
  rw (small_u16 i _ Hi Hn). split; [done|].
  split; [|split; [done|split; [done|split; [|split; [|do 3 (split; [done|]); congruence]]]]].
  - apply node_validate_iff; simpl; [unfold u16_size, u64_size in *; lia|].
    split; [split; [apply M1|done]|done].
  - by apply index_map_addresses.
  - intros j. unfold client_net. by rw index_map_lookup; [|lia].
Qed.

Lemma gen_client_cluster g root j cert :
  sound g → (j < g_num_clients g)%N → cluster_client g j (gen_client g root j cert).
Proof.
  intros Hs Hj. pose proof Hs as [Hn Hf Hc Hk]. destruct (sound_maps g Hs) as (M1 & M2 & M3).
  unfold cluster_client, gen_client. simpl. split; [done|]. split; [|split; [|done]].
  - unfold client_validate. simpl.
    destruct (validate_net (client_target_map g) (pk_map_of g) (g_num_nodes g) (g_num_faults g))
      as [_ V]; [unfold u16_size, u64_size in *; lia|].
    destruct V as (V1 & V2 & V3); [split; [apply M1|done]|]. rw V1 V2 V3 /=.
    rw (proj2 (validate_pks (pk_map_of g) (g_num_nodes g)) M3). by destruct (g_algorithm g).
  - by apply index_map_addresses.
Qed.

(** ** The whole run *)
Lemma mapM_certs (f : N → option (N * (string * string))) (l : list N) :
  (∀ i, i ∈ l → ∃ c, f i = Some (i, c)) → ∃ k, mapM f l = Some k ∧ k.*1 = l.
Proof.
  induction l as [|i l IH]; intros Hf; [by exists []|].
  destruct (Hf i) as [c Hc]; [by constructor|].
  destruct IH as (k & E & Ek); [intros j Hj; apply Hf; by constructor|].
  exists ((i, c) :: k). simpl. rw Hc /= E /=. split; [done|]. by f_equal.
Qed.

Lemma certs_for_total kind sans idxs :
  (∀ name sans, is_Some (signed_cert name sans)) →
  ∃ k, certs_for kind sans idxs = Some k ∧ k.*1 = idxs.
Proof.
  intros Hc. apply mapM_certs. intros i _.
  destruct (Hc (kind +:+ "-" +:+ pretty i) sans) as [c ->]. by exists c.
Qed.

Definition conf_path (g : GenArgs) (stem ext : string) : string :=
  g_target g +:+ "/" +:+ stem +:+ "." +:+ ext.

(** Files are only ever added. *)
Lemma write_conf_adds g stem c files :
  wp (write_conf g stem c) (λ _ files', files ⊆ files' ∧
    (∀ ft ext, out_format (g_out g) = Some (ft, ext) →
       mkFile (conf_path g stem ext) ft c ∈ files')) files.
Proof.
  unfold write_conf. wpp_go. destruct (out_format (g_out g)) as [[ft ext]|]; [|set_solver].
  split; [set_solver|]. intros ft' ext' [= <- <-]. set_solver.
Qed.

Lemma write_all {A} g (check : A → result ParseError unit) (stem : A → string) (conf : A → ConfFile)
    why (l : list A) files :
  (∀ x, x ∈ l → check x = Ok tt) →
  wp (for_each l (λ x, write_conf g (stem x) (conf x);;; check_conf why (check x)))
    (λ _ files', files ⊆ files' ∧ ∀ x ft ext, x ∈ l → out_format (g_out g) = Some (ft, ext) →
      mkFile (conf_path g (stem x) ext) ft (conf x) ∈ files') files.
Proof.
  intros Hc. eapply wpp_mono; [apply (wpp_for_each (λ pre files', files ⊆ files' ∧
    ∀ x ft ext, x ∈ pre → out_format (g_out g) = Some (ft, ext) →
      mkFile (conf_path g (stem x) ext) ft (conf x) ∈ files'))|done].
  - intros x pre rest fs E [Hs Hin]. wpp_go.
    eapply wpp_mono; [apply write_conf_adds|]. intros [] fs' [Hs' Hx].
    rw Hc; [|rw E; set_solver]. simpl. wpp_go. split; [set_solver|].
    intros y ft ext [Hy| ->%list_elem_of_singleton]%elem_of_app Ho; [|by apply Hx].
    apply Hs'. by apply Hin.
  - split; [done|]. intros ??? []%not_elem_of_nil.
Qed.

(** The identities of the certificates are the indices asked for. *)
Lemma certs_index (k : list (N * (string * string))) n i :
  k.*1 = indices n → (i < n)%N ↔ ∃ c, (i, c) ∈ k.
Proof.
  intros Ek. rw -elem_of_indices -Ek list_elem_of_fmap. split.
  - intros ([i' c] & -> & Hin). eauto.
  - intros [c Hin]. by exists (i, c).
Qed.

Lemma write_files_spec g nodes clients files :
  (∀ ic, ic ∈ nodes → node_validate ic.2 = Ok tt) →
  (∀ jc, jc ∈ clients → client_validate jc.2 = Ok tt) → clients ≠ [] →
  wp (write_files g nodes clients) (λ _ files', ∀ ft ext, out_format (g_out g) = Some (ft, ext) →
    (∀ ic, ic ∈ nodes →
       mkFile (conf_path g ("nodes-" +:+ pretty ic.1) ext) ft (NodeFile ic.2) ∈ files') ∧
    (∀ jc, jc ∈ clients →
       mkFile (conf_path g ("client-" +:+ pretty jc.1) ext) ft (ClientFile jc.2) ∈ files')) files.
Proof.
  intros Hns Hcs Hne. unfold write_files. wpp_go.
  eapply wpp_mono; [apply (write_all g (λ ic, node_validate ic.2) (λ ic, "nodes-" +:+ pretty ic.1)
    (λ ic, NodeFile ic.2) _ _ _ Hns)|].
  intros [] fs1 [_ H1]. wpp_go.
  eapply wpp_mono; [apply (write_all g (λ jc, client_validate jc.2) (λ jc, "client-" +:+ pretty jc.1)
    (λ jc, ClientFile jc.2) _ _ _ Hcs)|].
  intros [] fs2 [Hs12 H2]. wpp_go. destruct clients as [|c0 clients]; [done|].
  apply wpp_unwrap; [|done]. intros ? [= <-].
  eapply wpp_mono; [apply write_conf_adds|]. intros [] fs3 [Hs23 _] ft ext E.
  split; intros x Hx; apply Hs23; [apply Hs12; by apply H1|by apply H2].
Qed.

(** A sound command line ends with one valid file per node and per client. *)
Lemma genconfig_cluster (m : Args) g root files :
  parse_args m = Ok g → sound g → root_cert = Some root →
  (∀ name sans, is_Some (signed_cert name sans)) →
  ∃ files', genconfig m files = Done (Some tt) files' ∧
    ∀ ft ext, out_format (g_out g) = Some (ft, ext) →
      (∀ i, (i < g_num_nodes g)%N → ∃ c, cluster_node g i c ∧
         mkFile (conf_path g ("nodes-" +:+ pretty i) ext) ft (NodeFile c) ∈ files') ∧
      (∀ j, (j < g_num_clients g)%N → ∃ c, cluster_client g j c ∧
         mkFile (conf_path g ("client-" +:+ pretty j) ext) ft (ClientFile c) ∈ files').
Proof.
  intros Ha Hs Hr Hc. unfold genconfig. rw Ha Hr. simpl.
  destruct (certs_for_total "node" (g_node_sans g) (indices (g_num_nodes g)) Hc) as (ns & -> & En).
  destruct (certs_for_total "client" (g_client_sans g) (indices (g_num_clients g)) Hc)
    as (cs & -> & Ec). simpl.
  set (nodes := (λ ic, (ic.1, gen_node g root ic.1 ic.2)) <$> ns).
  set (clients := (λ jc, (jc.1, gen_client g root jc.1 jc.2)) <$> cs).
  assert (∀ ic, ic ∈ nodes → cluster_node g ic.1 ic.2) as Hns.
  { intros ? ([i c] & -> & Hin)%list_elem_of_fmap. apply gen_node_cluster; [done|].
    apply (certs_index _ _ _ En). eauto. }
  assert (∀ jc, jc ∈ clients → cluster_client g jc.1 jc.2) as Hcs.
  { intros ? ([j c] & -> & Hin)%list_elem_of_fmap. apply gen_client_cluster; [done|].
    apply (certs_index _ _ _ Ec). eauto. }
  assert (clients ≠ []) as Hne.
  { subst clients. intros E%fmap_nil_inv. subst cs.
    pose proof (so_clients g Hs) as [Hpos _]. apply elem_of_indices in Hpos. rw -Ec in Hpos. set_solver. }
  destruct (wpp_done _ _ _ (write_files_spec g nodes clients files
    (λ ic Hic, proj1 (proj2 (Hns ic Hic))) (λ jc Hjc, proj1 (proj2 (Hcs jc Hjc))) Hne))
    as ([] & files' & E & Hw).
  exists files'. unfold bind. rw E. split; [done|]. intros ft ext Ho. destruct (Hw ft ext Ho) as [W1 W2].
  split; intros i Hi.
  - destruct (proj1 (certs_index _ _ i En) Hi) as [c Hin].
    apply (list_elem_of_fmap_2 (λ ic, (ic.1, gen_node g root ic.1 ic.2))) in Hin.
    eexists. split; [exact (Hns _ Hin)|exact (W1 _ Hin)].
  - destruct (proj1 (certs_index _ _ i Ec) Hi) as [c Hin].
    apply (list_elem_of_fmap_2 (λ jc, (jc.1, gen_client g root jc.1 jc.2))) in Hin.
    eexists. split; [exact (Hcs _ Hin)|exact (W2 _ Hin)].
Qed.
End genconfig.

(** ** A run *)
Module GenExamples.
#[export] Instance toy_tools : KeyTools := {
  parse_algorithm s :=
    if bool_decide (s = "SECP256K1") then Some SECP256K1
    else if bool_decide (s = "RSA") then Some RSA
    else if bool_decide (s = "ED25519") then Some ED25519 else None;
  ed25519_keys i := ([i; 1%N], [i; 2%N]);
  secp256k1_keys i := ([i; 3%N], [i; 4%N]);
  root_cert := Some "/tc/root-cert.pem";
  signed_cert name sans := Some ("/tc/" +:+ name +:+ ".chain.pem", "/tc/" +:+ name +:+ ".key.pem");
}.

Definition cmd : Args := list_to_map [("num_nodes", "3"); ("delay", "50"); ("base_port", "4000");
  ("block_size", "400"); ("client_base_port", "10000"); ("target", "tc"); ("payload", "16");
  ("client_listen_port", "20000"); ("mempool_base_port", "30000"); ("num_clients", "2")].
Definition cmd_args : GenArgs :=
  match parse_args cmd with Ok g => g | Err _ => mkGenArgs 0 0 0 0 0 0 RSA "" "" 0 0 0 0 [] [] end.

Lemma cmd_parses : parse_args cmd = Ok cmd_args.
Proof. vm_compute. reflexivity. Qed.
Lemma cmd_sound : sound cmd_args.
Proof.
  split; [by vm_compute|by vm_compute|by vm_compute|].
  intros i _. exists [i; 1%N], [i; 2%N]. done.
Qed.

(** `--payload` reaches the nodes' files and not the clients', which keep the
    payload of `Client::new`; the yaml files end in `.yml`. *)
Example payload_stops_at_the_nodes :
  match genconfig (<["out_type" := "yaml"]> cmd) [] with
  | Done _ files => (λ f, (file_path f, match file_conf f with
      | NodeFile c => payload_size c | ClientFile c => c_payload c end)) <$> files
  | _ => []
  end = [("tc/nodes-0.yml", 16%N); ("tc/nodes-1.yml", 16%N); ("tc/nodes-2.yml", 16%N);
         ("tc/client-0.yml", 0%N); ("tc/client-1.yml", 0%N); ("tc/client.yml", 0%N)].
Proof. vm_compute. reflexivity. Qed.

(** cli.yml calls the argument behind `--algorithm` `crypto`; the tool looks
    up `algorithm` and always settles on ED25519. *)
Example algorithm_is_ignored :
  parse_args (<["crypto" := "SECP256K1"]> cmd) = Ok cmd_args ∧ g_algorithm cmd_args = ED25519.
Proof. vm_compute. split; reflexivity. Qed.

(** An unknown format writes nothing and is no error. *)
Example unknown_format_writes_nothing :
  genconfig (<["out_type" := "xml"]> cmd) [] = Done (Some tt) [].
Proof. vm_compute. reflexivity. Qed.
End GenExamples.
