(* ===== verification/Batch.v ===== *)
(** * Batches, the batch cache and the legacy mempool pipeline

    mempool/src/batch.rs, cache.rs, messages.rs, tx.rs, and the
    `Receiver -> Batcher -> Processor` pipeline of Sync HotStuff and Opt Sync
    (receiver.rs, batcher.rs, sealer.rs, processor.rs). *)

From S2P Require Import Prelude Crypto Types Text.

(** ** mempool/src/tx.rs: `MempoolTx`, with the serializations the crate asks
    of a transaction type. *)
Class MempoolTx `{Crypto} (Tx : Type) := {
  tx_client : Tx → ClientId;
  tx_nonce : Tx → N;
  tx_bytes : Tx → bytes;
  vec_bytes : list Tx → bytes;
  vec_of_bytes : bytes → option (list Tx);
}.

#[export] Instance Transaction_MempoolTx `{Bincode} : MempoolTx Transaction := {|
  tx_client := client_id;
  tx_nonce := nonce;
  tx_bytes := ser_tx;
  vec_bytes := ser_txs;
  vec_of_bytes := de_txs;
|}.

(** What the cache of a batch relies on: a vector decodes to itself. *)
Class MempoolTxLaws `{MempoolTx Tx} :=
  vec_roundtrip (l : list Tx) : vec_of_bytes (vec_bytes l) = Some l.
#[export] Instance Transaction_laws `{BincodeLaws} : MempoolTxLaws (Tx:=Transaction) :=
  de_ser_txs.

Section tx.
Context `{MempoolTx Tx}.
(** `Hash::<Tx>::ser_and_hash`. *)
Definition tx_hash (t : Tx) : Hash := do_hash (tx_bytes t).
(** `bincode::serialized_size(tx)`. *)
Definition serialized_size (t : Tx) : N := N.of_nat (length (tx_bytes t)).
Definition tx_key (t : Tx) : ClientId * N := (tx_client t, tx_nonce t).
End tx.

(** ** mempool/src/batch.rs: `CachedBatch<Tx>`; a `OnceLock` is an option
    that is only ever filled. *)
Record CachedBatch `{Crypto} {Tx : Type} := mkCachedBatch {
  payload : list Tx;
  hash_cell : option Hash;
  tx_hashes_cell : option (list Hash);
}.
Arguments CachedBatch {_} Tx.
Arguments mkCachedBatch {_ Tx}.
#[export] Instance eta_CachedBatch `{Crypto} Tx : Eta (CachedBatch Tx) := λ x,
  mkCachedBatch (payload x) (hash_cell x) (tx_hashes_cell x).

Section batch.
Context `{MempoolTx Tx}.
Implicit Types b : CachedBatch Tx.

Definition batch_new (p : list Tx) : CachedBatch Tx :=
  {| payload := p; hash_cell := None; tx_hashes_cell := None |}.

Definition new_with_tx_hashes (p : list Tx) (hs : list Hash) : CachedBatch Tx :=
  batch_new p <| tx_hashes_cell := Some hs |>.

(** `OnceLock::get_or_init`: the value, and the cell afterwards. *)
Definition hash_get_or_init b : Hash * CachedBatch Tx :=
  let h := match hash_cell b with
           | Some h => h
           | None => do_hash (vec_bytes (payload b))
           end in
  (h, b <| hash_cell := Some h |>).
Definition hash b : Hash := (hash_get_or_init b).1.

Definition tx_hashes_get_or_init b : list Hash * CachedBatch Tx :=
  let hs := match tx_hashes_cell b with
            | Some hs => hs
            | None => tx_hash <$> payload b
            end in
  (hs, b <| tx_hashes_cell := Some hs |>).
Definition tx_hashes b : list Hash := (tx_hashes_get_or_init b).1.

Definition batch_clone b : CachedBatch Tx :=
  let out := batch_new (payload b) in
  let out := match hash_cell b with
             | Some h => out <| hash_cell := Some h |> | None => out end in
  match tx_hashes_cell b with
  | Some th => out <| tx_hashes_cell := Some th |> | None => out
  end.

Definition batch_serialize b : bytes := vec_bytes (payload b).

Definition batch_deserialize (bs : bytes) : option (CachedBatch Tx) :=
  match vec_of_bytes bs with
  | None => None
  | Some p => Some (hash_get_or_init (batch_new p)).2
  end.

(** The caches hold what they cache. *)
Definition batch_ok b : Prop :=
  (∀ h, hash_cell b = Some h → h = do_hash (vec_bytes (payload b))) ∧
  (∀ hs, tx_hashes_cell b = Some hs → hs = tx_hash <$> payload b).

Lemma batch_new_ok p : batch_ok (batch_new p).
Proof. by split. Qed.

Lemma batch_ok_hash b : batch_ok b → hash b = do_hash (vec_bytes (payload b)).
Proof. intros [Hh _]. unfold hash; simpl. destruct (hash_cell b); naive_solver. Qed.

Lemma batch_ok_tx_hashes b : batch_ok b → tx_hashes b = tx_hash <$> payload b.
Proof. intros [_ Hh]. unfold tx_hashes; simpl. destruct (tx_hashes_cell b); naive_solver. Qed.

Lemma hash_init_ok b : batch_ok b → batch_ok (hash_get_or_init b).2.
Proof.
  intros Hok. pose proof (batch_ok_hash _ Hok) as E. destruct Hok as [_ ?].
  split; simpl; [|done]. by intros h [= <-].
Qed.

Lemma tx_hashes_init_ok b : batch_ok b → batch_ok (tx_hashes_get_or_init b).2.
Proof.
  intros Hok. pose proof (batch_ok_tx_hashes _ Hok) as E. destruct Hok as [? _].
  split; simpl; [done|]. by intros h [= <-].
Qed.

Lemma batch_clone_id b : batch_clone b = b.
Proof. by destruct b as [p [h|] [t|]]. Qed.

Lemma batch_deserialize_ok bs b : batch_deserialize bs = Some b → batch_ok b.
Proof.
  unfold batch_deserialize. destruct (vec_of_bytes bs); [|done].
  intros [= <-]. apply hash_init_ok, batch_new_ok.
Qed.

(** A batch survives the wire: what is decoded has the same transactions
    and transaction hashes, and arrives with its hash filled in, the one its
    sender computed. *)
Theorem batch_roundtrip `{!MempoolTxLaws} b : batch_ok b →
  ∃ b', batch_deserialize (batch_serialize b) = Some b' ∧
    payload b' = payload b ∧ hash_cell b' = Some (hash b) ∧
    tx_hashes b' = tx_hashes b ∧ batch_ok b'.
Proof.
  intros Hok. unfold batch_deserialize, batch_serialize. rw vec_roundtrip.
  eexists; split; [done|]. split; [done|].
  pose proof (hash_init_ok _ (batch_new_ok (payload b))) as Hok'.
  split; [|split; [|done]].
  - by rw (batch_ok_hash _ Hok).
  - by rw !batch_ok_tx_hashes.
Qed.
End batch.

(** ** mempool/src/cache.rs: `BatchCache<Tx>` *)
Section cache.
Context `{MempoolTx Tx}.
Implicit Types (c : gmap Hash (CachedBatch Tx)) (b : CachedBatch Tx) (h : Hash).

(** First writer wins. *)
Definition cache_insert h b c : gmap Hash (CachedBatch Tx) :=
  if bool_decide (is_Some (c !! h)) then c else <[h := b]> c.
Definition cache_get c h : option (CachedBatch Tx) := c !! h.
Definition cache_len c : nat := size c.

Lemma cache_get_insert h b c :
  cache_get (cache_insert h b c) h = Some (default b (cache_get c h)).
Proof.
  unfold cache_insert, cache_get. case_bool_decide as Hc.
  - by destruct Hc as [? ->].
  - rw lookup_insert_eq. apply eq_None_not_Some in Hc. by rw Hc.
Qed.

(** An entry, once there, never changes. *)
Lemma cache_insert_mono h b c h' b' :
  cache_get c h' = Some b' → cache_get (cache_insert h b c) h' = Some b'.
Proof.
  unfold cache_insert, cache_get. intros ?. case_bool_decide as Hc; [done|].
  rw lookup_insert_ne //. intros ->. eauto.
Qed.

(** Every entry is filed under the hash of its payload. *)
Definition cache_ok c : Prop :=
  ∀ h b, c !! h = Some b → batch_ok b ∧ hash b = h.

Lemma cache_insert_ok h b c :
  cache_ok c → batch_ok b → hash b = h → cache_ok (cache_insert h b c).
Proof.
  intros Hc ?? h' b'. unfold cache_insert. case_bool_decide; [apply Hc|].
  rw lookup_insert. case_decide; [naive_solver|apply Hc].
Qed.
End cache.

(** ** mempool/src/messages.rs *)
Inductive ConsensusMempoolMsg `{Crypto} {Id Round_ Tx : Type} :=
  | End (r : Round_)
  | UnknownBatch (id : Id) (hs : list Hash).

Inductive BatcherConsensusMsg `{Crypto} {Tx : Type} :=
  | NewRound (leader : Replica) (round : N)
  | Proposed (batch : CachedBatch Tx) (round : N)
  | Committed (batch : CachedBatch Tx) (round : N)
  | Rollback (rounds : list N).
Arguments BatcherConsensusMsg {_} Tx.

Inductive ClientMsg `{Crypto} {Tx : Type} :=
  | NewTx (tx : Tx) (reply_to : SocketAddr)
  | NewBatch (batch : list Tx) (reply_to : SocketAddr)
  | Confirmation (h : Hash).
Arguments ClientMsg {_} Tx.

(** ** mempool/src/sealer.rs: `Sealer`, `CountSealer` *)
Class Sealer (S : Type) := should_seal : S → nat → bool.
Record CountSealer := mkCountSealer { threshold : nat }.
#[export] Instance CountSealer_Sealer : Sealer CountSealer :=
  λ s queue_len, threshold s <=? queue_len.

(** `assert!(threshold > 0)`. *)
Definition CountSealer_new (t : nat) : option CountSealer :=
  if 0 <? t then Some {| threshold := t |} else None.

(** ** mempool/src/receiver.rs: one message of the intake stream; [open] says
    whether the batcher channel still has a receiver.  The result is what was
    forwarded and whether the task goes on. *)
Inductive stream_item (A : Type) :=
  | Closed
  | DecodeError
  | Item (a : A).
Arguments Closed {A}.
Arguments DecodeError {A}.
Arguments Item {A} a.

Definition receiver_step {Tx} (open : bool) (item : stream_item Tx) : list Tx * bool :=
  match item with
  | Closed => ([], false)
  | DecodeError => ([], true)
  | Item t => if open then ([t], true) else ([], false)
  end.

Section pipeline.
Context `{MempoolTx Tx} `{Sealer Sl} `{Store}.

(** ** mempool/src/batcher.rs: the queue, after one transaction, the batch
    that was sealed, if one was, and whether the task goes on. *)
Definition batcher_step (sealer : Sl) (open : bool) (queue_txs : list Tx) (t : Tx)
    : list Tx * option (CachedBatch Tx) * bool :=
  let queue_txs := queue_txs ++ [t] in
  if should_seal sealer (length queue_txs)
  then let batch := batch_new queue_txs in
       if open then ([], Some batch, true) else ([], None, false)
  else (queue_txs, None, true).

(** The task over a run of transactions, the processor being there. *)
Fixpoint batcher_run (sealer : Sl) (queue : list Tx) (txs : list Tx)
    : list (CachedBatch Tx) * list Tx :=
  match txs with
  | [] => ([], queue)
  | t :: txs' =>
      let '(queue', sealed, _) := batcher_step sealer true queue t in
      let '(out, rest) := batcher_run sealer queue' txs' in
      (match sealed with Some b => b :: out | None => out end, rest)
  end.

(** ** mempool/src/processor.rs: the cache, the announcement to consensus and
    the durable write of one sealed batch, in this order. *)
Definition processor_step (open : bool) (batch : CachedBatch Tx)
    (cache : gmap Hash (CachedBatch Tx)) (st : store)
    : gmap Hash (CachedBatch Tx) * option (Hash * CachedBatch Tx) * store * bool :=
  let '(h, batch) := hash_get_or_init batch in
  let cache := cache_insert h batch cache in
  if open
  then (cache, Some (h, batch), store_write (hash_as_ref h) (batch_serialize batch) st, true)
  else (cache, None, st, false).

(** What consensus is told is already in the cache, under its own hash. *)
Lemma processor_step_cached open batch cache st cache' h b st' :
  batch_ok batch → cache_ok cache →
  processor_step open batch cache st = (cache', Some (h, b), st', true) →
  hash b = h ∧ payload b = payload batch ∧ is_Some (cache_get cache' h) ∧ cache_ok cache'.
Proof.
  intros Hb Hc E. unfold processor_step, hash_get_or_init in E.
  destruct open; [|done]. injection E as <- <- <- <-.
  fold (hash batch). split; [done|]. split; [done|].
  split; [by rw cache_get_insert|].
  apply cache_insert_ok; [done|by apply hash_init_ok|done].
Qed.
End pipeline.

Section count_sealer.
Context `{MempoolTx Tx}.
Implicit Types (queue txs : list Tx).

(** The count sealer cuts the stream into consecutive batches of exactly
    [threshold] transactions, in order and without loss; fewer than that
    stay queued. *)
Theorem batcher_run_spec (t : nat) queue txs out rest :
  length queue < t →
  batcher_run (mkCountSealer t) queue txs = (out, rest) →
  mjoin (payload <$> out) ++ rest = queue ++ txs ∧
  Forall (λ b, length (payload b) = t) out ∧ length rest < t.
Proof.
  revert queue out rest. induction txs as [|x txs IH]; intros queue out rest Hq; simpl.
  { intros [= <- <-]. by rw app_nil_r. }
  unfold batcher_step, should_seal, CountSealer_Sealer. simpl.
  rw length_app /=. case_eq (t <=? length queue + 1);
    [intros Hle%Nat.leb_le|intros Hgt%Nat.leb_gt]; simpl.
  - destruct (batcher_run _ _ txs) as [out' rest'] eqn:E. intros [= <- <-].
    apply IH in E as (E1 & E2 & E3); simpl; [|lia]. split; [|split; [|done]].
    + by rw /= -!app_assoc E1.
    + constructor; [|done]. simpl. rw length_app /=. lia.
  - destruct (batcher_run _ _ txs) as [out' rest'] eqn:E. intros [= <- <-].
    apply IH in E as (E1 & E2 & E3); [|rw length_app /=; lia].
    by rw E1 -app_assoc.
Qed.
End count_sealer.

Module BatchExamples.
Import Toy ToyFormat.
Definition txs (ns : list N) : list Transaction :=
  (λ n, new_dummy_tx_keyed 1 n 2) <$> ns.

Lemma batch_roundtrip_witness :
  ∃ b', batch_deserialize (batch_serialize (batch_new (txs [1; 2]%N))) = Some b' ∧
    payload b' = txs [1; 2]%N ∧ hash_cell b' = Some (hash (batch_new (txs [1; 2]%N))).
Proof.
  destruct (batch_roundtrip (batch_new (txs [1; 2]%N)) (batch_new_ok _)) as (b' & E & Hp & Hh & _).
  exists b'. split; [exact E|]. split; [exact Hp|exact Hh].
Defined.

Lemma batcher_run_witness :
  let '(out, rest) := batcher_run (mkCountSealer 2) [] (txs [1; 2; 3]%N) in
  Forall (λ b, length (payload b) = 2) out ∧ length rest < 2.
Proof.
  apply (batcher_run_spec 2 [] (txs [1; 2; 3]%N)); [repeat constructor|reflexivity].
Defined.
End BatchExamples.
