(* ===== verification/Wire.v ===== *)
(** * Bytes on the wire

    What `#[derive(Serialize, Deserialize)]` and bincode make of the types of
    the `types` and `mempool` crates.  How bincode writes a fixed-width
    integer and how libcrypto and serde write a digest and a socket address
    is outside the repository: class [Wire].  The rest is derived here, type
    by type, in the order the fields and the variants are declared; the two
    hand-written `Deserialize` implementations (block.rs, batch.rs) refill
    the caches they skip.  From [Wire] come the [Bincode] operations the
    nodes hash, sign and store with, and their laws. *)

From S2P Require Import Prelude Crypto Types Text Batch.

(** ** Codecs

    [put] writes, [get] reads a prefix and returns the rest.  [fit] are the
    values bincode is able to write, [norm] is what comes out when one is
    read back. *)
Record Codec {A : Type} := mkCodec {
  put : A → bytes;
  get : bytes → option (A * bytes);
  fit : A → Prop;
  norm : A → A;
}.
Arguments Codec A : clear implicits.
Arguments mkCodec {A}.

Definition lawful {A} (s : Codec A) : Prop :=
  ∀ x rest, fit s x → get s (put s x ++ rest) = Some (norm s x, rest).
(** What decoding promises of a value, whoever sent the bytes. *)
Definition ensures {A} (s : Codec A) (P : A → Prop) : Prop :=
  ∀ bs x rest, get s bs = Some (x, rest) → P x.

(** A value that was read can be written, and reads back as it is. *)
Definition stable {A} (s : Codec A) : Prop := ensures s (λ x, fit s x ∧ norm s x = x).

(** `bincode::serialize`, and `bincode::deserialize`, which ignores trailing
    bytes. *)
Definition bin_serialize {A} (s : Codec A) (x : A) : bytes := put s x.
Definition bin_deserialize {A} (s : Codec A) (bs : bytes) : option A := fst <$> get s bs.

Lemma from_to_bytes {A} (s : Codec A) x :
  lawful s → fit s x → bin_deserialize s (bin_serialize s x) = Some (norm s x).
Proof.
  intros Hs Hx. unfold bin_deserialize, bin_serialize. by rw -(app_nil_r (put s x)) (Hs x []).
Qed.
Lemma from_bytes_ensures {A} (s : Codec A) P bs x :
  ensures s P → bin_deserialize s bs = Some x → P x.
Proof.
  intros Hs. unfold bin_deserialize. destruct (get s bs) as [[y rest]|] eqn:E; [|done].
  intros [= <-]. by eapply Hs.
Qed.

(** Two values with the same bytes read back the same. *)
Lemma lawful_inj {A} (s : Codec A) x y :
  lawful s → fit s x → fit s y → put s x = put s y → norm s x = norm s y.
Proof.
  intros Hs Hx Hy E. pose proof (Hs x [] Hx) as Ex. rw E (Hs y [] Hy) in Ex. by injection Ex.
Qed.

(** Fields of a struct one after the other, without names or length markers. *)
Definition two {A B} (sa : Codec A) (sb : Codec B) : Codec (A * B) := {|
  put p := put sa p.1 ++ put sb p.2;
  get bs := match get sa bs with
            | Some (a, bs) =>
                match get sb bs with Some (b, bs) => Some ((a, b), bs) | None => None end
            | None => None
            end;
  fit p := fit sa p.1 ∧ fit sb p.2;
  norm p := (norm sa p.1, norm sb p.2);
|}.
Infix "⋅⋅" := two (at level 50, left associativity).

(** A struct [A] with the fields [B]. *)
Definition struct {A B} (fields : A → B) (build : B → A) (s : Codec B) : Codec A := {|
  put a := put s (fields a);
  get bs := match get s bs with Some (b, bs) => Some (build b, bs) | None => None end;
  fit a := fit s (fields a);
  norm a := build (norm s (fields a));
|}.

(** [n] elements, one after the other. *)
Fixpoint get_n {A} (s : Codec A) (n : nat) (bs : bytes) : option (list A * bytes) :=
  match n with
  | O => Some ([], bs)
  | S n' =>
      match get s bs with
      | Some (x, bs) =>
          match get_n s n' bs with Some (l, bs) => Some (x :: l, bs) | None => None end
      | None => None
      end
  end.

Lemma two_lawful {A B} (sa : Codec A) (sb : Codec B) :
  lawful sa → lawful sb → lawful (sa ⋅⋅ sb).
Proof. intros Ha Hb [a b] rest [??]. simpl in *. by rw -app_assoc Ha // Hb. Qed.
Lemma struct_lawful {A B} (f : A → B) (g : B → A) s : lawful s → lawful (struct f g s).
Proof. intros Hs a rest Ha. simpl in *. by rw Hs. Qed.
Lemma get_n_lawful {A} (s : Codec A) l rest :
  lawful s → Forall (fit s) l →
  get_n s (length l) (mjoin (put s <$> l) ++ rest) = Some (norm s <$> l, rest).
Proof.
  intros Hs Hl. induction Hl as [|x l Hx _ IH]; [done|]. simpl. by rw -app_assoc Hs //= IH.
Qed.

Lemma two_ensures {A B} (sa : Codec A) (sb : Codec B) P Q :
  ensures sa P → ensures sb Q → ensures (sa ⋅⋅ sb) (λ p, P p.1 ∧ Q p.2).
Proof.
  intros Ha Hb bs [a b] rest. simpl. destruct (get sa bs) as [[a' bs']|] eqn:Ea; [|done].
  destruct (get sb bs') as [[b' bs'']|] eqn:Eb; [|done]. intros [= <- <- <-]. eauto.
Qed.
Lemma any_ensures {A} (s : Codec A) : ensures s (λ _, True).
Proof. done. Qed.
Lemma struct_ensures {A B} (f : A → B) (g : B → A) s P :
  (∀ b, P (g b)) → ensures (struct f g s) P.
Proof.
  intros HP bs x rest. simpl. destruct (get s bs) as [[b bs']|]; [|done]. by intros [= <- _].
Qed.
Lemma struct_ensures_of {A B} (f : A → B) (g : B → A) s P Q :
  ensures s Q → (∀ b, Q b → P (g b)) → ensures (struct f g s) P.
Proof.
  intros Hs HP bs x rest. simpl. destruct (get s bs) as [[b bs']|] eqn:E; [|done].
  intros [= <- _]. by eapply HP, Hs.
Qed.

Lemma ensures_mono {A} (s : Codec A) (P Q : A → Prop) :
  ensures s P → (∀ x, P x → Q x) → ensures s Q.
Proof. intros Hs HPQ bs x rest E. by eapply HPQ, Hs. Qed.
Lemma two_stable {A B} (sa : Codec A) (sb : Codec B) : stable sa → stable sb → stable (sa ⋅⋅ sb).
Proof.
  intros Ha Hb. eapply ensures_mono; [apply (two_ensures _ _ _ _ Ha Hb)|].
  intros [a b] [[? E1] [? E2]]. simpl in *. by rw E1 E2.
Qed.
Lemma struct_stable {A B} (f : A → B) (g : B → A) s :
  (∀ b, f (g b) = b) → stable s → stable (struct f g s).
Proof.
  intros Hfg Hs. eapply struct_ensures_of; [exact Hs|]. intros b [??]. simpl. rw Hfg. by split; [|f_equal].
Qed.
Lemma get_n_stable {A} (s : Codec A) n bs l rest :
  stable s → get_n s n bs = Some (l, rest) →
  length l = n ∧ Forall (fit s) l ∧ norm s <$> l = l.
Proof.
  intros Hs. revert bs l. induction n as [|n IH]; intros bs l; simpl; [by intros [= <- _]|].
  destruct (get s bs) as [[x bs']|] eqn:Ex; [|done].
  destruct (get_n s n bs') as [[l' bs'']|] eqn:El; [|done]. intros [= <- <-].
  destruct (IH _ _ El) as (<- & ? & E). destruct (Hs _ _ _ Ex) as [? Hx].
  split; [done|]. split; [by constructor|]. by rw fmap_cons Hx E.
Qed.

(** A variant of an enum [A]: its fields, if the value is of this variant. *)
Record Variant {A : Type} := mkVariant {
  v_type : Type;
  v_fields : A → option v_type;
  v_build : v_type → A;
  v_serde : Codec v_type;
}.
Arguments Variant A : clear implicits.
Arguments mkVariant {A v_type}.

(** A variant without fields. *)
Definition unit_serde : Codec unit :=
  mkCodec (λ _, []) (λ bs, Some (tt, bs)) (λ _, True) id.
Lemma unit_lawful : lawful unit_serde.
Proof. by intros [] rest. Qed.
Lemma unit_stable : stable unit_serde.
Proof. by intros bs []. Qed.

Create HintDb wire.
#[export] Hint Resolve unit_lawful two_lawful struct_lawful two_ensures any_ensures unit_stable two_stable struct_stable : wire.

(** ** The primitives *)
Inductive width := W8 | W16 | W32 | W64.
Definition width_bytes (w : width) : nat :=
  match w with W8 => 1 | W16 => 2 | W32 => 4 | W64 => 8 end.

Class Wire `{Crypto} := {
  put_int : width → N → bytes;
  get_int : width → bytes → option (N * bytes);
  (** the numbers that are values of the integer type *)
  int_ok : width → N → Prop;
  put_digest : Hash → bytes;
  get_digest : bytes → option (Hash * bytes);
  put_addr : SocketAddr → bytes;
  get_addr : bytes → option (SocketAddr * bytes);
  addr_ok : SocketAddr → Prop;
}.

Class WireLaws `{Wire} := {
  get_put_int w x rest : int_ok w x → get_int w (put_int w x ++ rest) = Some (x, rest);
  int_ok_range w x : (x < 256 ^ N.of_nat (width_bytes w))%N → int_ok w x;
  get_put_digest h rest : get_digest (put_digest h ++ rest) = Some (h, rest);
  get_put_addr a rest : addr_ok a → get_addr (put_addr a ++ rest) = Some (a, rest);
  get_int_ok w bs x rest : get_int w bs = Some (x, rest) → int_ok w x;
  get_addr_ok bs a rest : get_addr bs = Some (a, rest) → addr_ok a;
}.

Section types.
Context `{Wire}.

Definition int (w : width) : Codec N := mkCodec (put_int w) (get_int w) (int_ok w) id.
Definition digest : Codec Hash := mkCodec put_digest get_digest (λ _, True) id.
Definition addr : Codec SocketAddr := mkCodec put_addr get_addr addr_ok id.
Abbreviation u8 := (int W8).
Abbreviation u16 := (int W16).
Abbreviation u32 := (int W32).
Abbreviation u64 := (int W64).

(** A `Vec`: its length as a `u64`, then its elements. *)
Definition vec {A} (s : Codec A) : Codec (list A) := {|
  put l := put u64 (N.of_nat (length l)) ++ mjoin (put s <$> l);
  get bs := match get u64 bs with
            | Some (n, bs) => get_n s (N.to_nat n) bs
            | None => None
            end;
  fit l := fit u64 (N.of_nat (length l)) ∧ Forall (fit s) l;
  norm l := norm s <$> l;
|}.

(** An enum is its variant's number as a `u32` and then the variant's fields. *)
Fixpoint put_variant {A} (i : N) (vs : list (Variant A)) (a : A) : bytes :=
  match vs with
  | [] => []
  | v :: vs =>
      match v_fields v a with
      | Some x => put u32 i ++ put (v_serde v) x
      | None => put_variant (i + 1) vs a
      end
  end.
Definition get_variant {A} (vs : list (Variant A)) (bs : bytes) : option (A * bytes) :=
  match get u32 bs with
  | Some (i, bs) =>
      match vs !! N.to_nat i with
      | Some v =>
          match get (v_serde v) bs with
          | Some (x, bs) => Some (v_build v x, bs)
          | None => None
          end
      | None => None
      end
  | None => None
  end.
Fixpoint fit_variant {A} (vs : list (Variant A)) (a : A) : Prop :=
  match vs with
  | [] => False
  | v :: vs =>
      match v_fields v a with Some x => fit (v_serde v) x | None => fit_variant vs a end
  end.
Fixpoint norm_variant {A} (vs : list (Variant A)) (a : A) : A :=
  match vs with
  | [] => a
  | v :: vs =>
      match v_fields v a with
      | Some x => v_build v (norm (v_serde v) x)
      | None => norm_variant vs a
      end
  end.
Definition enum {A} (vs : list (Variant A)) : Codec A :=
  mkCodec (put_variant 0 vs) (get_variant vs) (fit_variant vs) (norm_variant vs).

(** ** vote.rs, payload.rs, tx.rs *)
Definition vote_serde : Codec Vote :=
  struct (λ v, (origin v, auth v)) (λ p, mkVote p.1 p.2) (u16 ⋅⋅ vec u8).

(** ** cert.rs *)
Definition cert_type_serde : Codec CertType := enum [
  mkVariant (λ c, match c with CTBlame r v => Some (r, v) | _ => None end)
    (λ p, CTBlame p.1 p.2) (u16 ⋅⋅ u64);
  mkVariant (λ c, match c with CTVote v h => Some (v, h) | _ => None end)
    (λ p, CTVote p.1 p.2) (u64 ⋅⋅ digest);
  mkVariant (λ c, match c with CTQuitView v h => Some (v, h) | _ => None end)
    (λ p, CTQuitView p.1 p.2) (u64 ⋅⋅ digest);
  mkVariant (λ c, match c with CTDEFAULT => Some tt | _ => None end)
    (λ _, CTDEFAULT) unit_serde].

Definition certificate_serde : Codec Certificate :=
  struct (λ c, (cert_msg c, votes c)) (λ p, mkCertificate p.1 p.2)
    (cert_type_serde ⋅⋅ vec vote_serde).

Definition payload_serde : Codec Payload :=
  struct (λ p, response p) (λ r, mkPayload r) (vec u8).

Definition transaction_serde : Codec Transaction :=
  struct (λ t, (client_id t, nonce t, data t, request t))
    (λ p, mkTransaction p.1.1.1 p.1.1.2 p.1.2 p.2) (u16 ⋅⋅ u64 ⋅⋅ vec u8 ⋅⋅ vec u8).

(** ** block.rs: the `Wire` struct of `Block::deserialize` *)
Definition header_serde : Codec Header :=
  struct (λ h, (prev h, extra h, author h, height h, blame_certificates h))
    (λ p, mkHeader p.1.1.1.1 p.1.1.1.2 p.1.1.2 p.1.2 p.2)
    (digest ⋅⋅ vec u8 ⋅⋅ u16 ⋅⋅ u64 ⋅⋅ vec certificate_serde).
Definition body_serde : Codec Body := struct (λ b, batch_hash b) (λ h, mkBody h) digest.

(** `InternalUCRVote` of ucr.rs. *)
Definition internal_ucr_serde : Codec (Hash * Round * View) := digest ⋅⋅ u64 ⋅⋅ u64.

(** ** The bytes that are hashed, signed and stored *)
#[export] Instance Wire_Bincode : Bincode := {|
  ser_block h b := bin_serialize (header_serde ⋅⋅ body_serde) (h, b);
  de_block bs := bin_deserialize (header_serde ⋅⋅ body_serde) bs;
  ser_tx t := bin_serialize transaction_serde t;
  ser_txs l := bin_serialize (vec transaction_serde) l;
  de_txs bs := bin_deserialize (vec transaction_serde) bs;
  ser_cert_type c := bin_serialize cert_type_serde c;
  ser_ucr h r v := bin_serialize internal_ucr_serde (h, r, v);
|}.

(** `Block::deserialize`: the hash is not sent, it is recomputed. *)
Definition block_serde : Codec Block :=
  struct (λ b, (header b, body b)) (λ w, init (mkBlock w.1 w.2 EMPTY_HASH))
    (header_serde ⋅⋅ body_serde).

(** `CachedBatch`: the payload is sent, and its hash is recomputed. *)
Definition batch_serde : Codec (CachedBatch Transaction) :=
  struct (λ b, payload b) (λ p, (hash_get_or_init (batch_new p)).2) (vec transaction_serde).

(** ** `Message::from_bytes` *)
Definition block_from_bytes (bs : bytes) : option Block := bin_deserialize block_serde bs.
Definition tx_from_bytes (bs : bytes) : option Transaction := bin_deserialize transaction_serde bs.
Definition batch_from_bytes (bs : bytes) : option (CachedBatch Transaction) :=
  bin_deserialize batch_serde bs.
End types.

(** ** Laws *)
Section laws.
Context `{Wire} `{!WireLaws}.

Lemma int_lawful w : lawful (int w).
Proof. intros x rest Hx. by apply get_put_int. Qed.
Lemma digest_lawful : lawful digest.
Proof. intros x rest _. by apply get_put_digest. Qed.
Lemma addr_lawful : lawful addr.
Proof. intros x rest Hx. by apply get_put_addr. Qed.
Lemma vec_lawful {A} (s : Codec A) : lawful s → lawful (vec s).
Proof.
  intros Hs l rest [Hn Hl]. simpl. rw -app_assoc get_put_int // Nat2N.id. by apply get_n_lawful.
Qed.


Lemma int_stable w : stable (int w).
Proof. intros bs x rest E. split; [|done]. by eapply get_int_ok. Qed.
Lemma digest_stable : stable digest.
Proof. by intros bs x rest _. Qed.
Lemma addr_stable : stable addr.
Proof. intros bs x rest E. split; [|done]. by eapply get_addr_ok. Qed.
Lemma vec_stable {A} (s : Codec A) : stable s → stable (vec s).
Proof.
  intros Hs bs l rest. simpl. destruct (get_int W64 bs) as [[n bs']|] eqn:En; [|done].
  intros (Hl & ? & ?)%get_n_stable; [|done]. split; [|done]. split; [|done].
  rw Hl N2Nat.id. by eapply get_int_ok.
Qed.

Lemma put_variant_get {A} (vs0 vs : list (Variant A)) x rest :
  Forall (λ v, lawful (v_serde v)) vs → length (vs0 ++ vs) ≤ 256 → fit_variant vs x →
  get_variant (vs0 ++ vs) (put_variant (N.of_nat (length vs0)) vs x ++ rest) =
    Some (norm_variant vs x, rest).
Proof.
  revert vs0. induction vs as [|v vs IH]; intros vs0 Hvs Hlen Hfit; [done|].
  apply Forall_cons in Hvs as [Hv Hvs]. simpl in Hfit |- *.
  destruct (v_fields v x) as [y|].
  - unfold get_variant. rw length_app /= in Hlen. rw -app_assoc /= get_put_int;
      [|apply int_ok_range; simpl; lia].
    by rw Nat2N.id list_lookup_middle // Hv.
  - specialize (IH (vs0 ++ [v]) Hvs). rw -app_assoc in IH.
    specialize (IH Hlen Hfit). rw -IH length_app /=. do 3 f_equal. lia.
Qed.

Lemma enum_lawful {A} (vs : list (Variant A)) :
  Forall (λ v, lawful (v_serde v)) vs → length vs ≤ 256 → lawful (enum vs).
Proof. intros Hvs Hlen x rest Hx. by apply (put_variant_get [] vs). Qed.
End laws.
#[export] Hint Resolve int_lawful digest_lawful addr_lawful vec_lawful
  int_stable digest_stable addr_stable vec_stable : wire.

Lemma enum_ensures `{Wire} {A} (vs : list (Variant A)) (P : A → Prop) :
  Forall (λ v, ensures (v_serde v) (λ x, P (v_build v x))) vs → ensures (enum vs) P.
Proof.
  intros Hvs bs x rest. simpl. unfold get_variant.
  destruct (get _ bs) as [[i bs']|]; [|done]. destruct (vs !! _) as [v|] eqn:Ev; [|done].
  destruct (get (v_serde v) bs') as [[y bs'']|] eqn:E; [|done]. intros [= <- _].
  eapply (Forall_lookup_1 _ _ _ _ Hvs) in Ev. by eapply Ev.
Qed.

Lemma enum_stable `{Wire} {A} (vs : list (Variant A)) :
  Forall (λ v, stable (v_serde v) ∧
    ∀ x, fit (v_serde v) x → norm (v_serde v) x = x →
      fit_variant vs (v_build v x) ∧ norm_variant vs (v_build v x) = v_build v x) vs →
  stable (enum vs).
Proof.
  intros Hvs. apply enum_ensures. eapply Forall_impl; [exact Hvs|].
  intros v [Hs Hx]. eapply ensures_mono; [exact Hs|]. intros x [??]. by apply Hx.
Qed.

(** The laws of a type are those of its fields. *)
Ltac solve_lawful :=
  match goal with
  | |- lawful (enum _) => apply enum_lawful; [repeat constructor; simpl; eauto 20 with wire|simpl; lia]
  | |- _ => eauto 20 with wire
  end.

Ltac solve_stable :=
  match goal with
  | |- stable (enum _) =>
      apply enum_stable; repeat (apply Forall_cons; split); [..|by apply Forall_nil];
      (split; [simpl; solve [eauto 20 with wire]|]);
      let x := fresh "x" in let E := fresh "E" in
      intros x ? E; cbn [v_type v_fields v_build v_serde fit_variant norm_variant] in *;
      repeat match goal with y : prod _ _ |- _ => destruct y end;
      split; [done|by rw ?E]
  | |- _ => eauto 20 with wire
  end.

Section types_laws.
Context `{Wire} `{!WireLaws}.

Lemma vote_lawful : lawful vote_serde.
Proof. unfold vote_serde. solve_lawful. Qed.
Lemma vote_stable : stable vote_serde.
Proof. unfold vote_serde. apply struct_stable; [by intros []|]. solve_stable. Qed.
Lemma cert_type_lawful : lawful cert_type_serde.
Proof. unfold cert_type_serde. solve_lawful. Qed.
Lemma cert_type_stable : stable cert_type_serde.
Proof. unfold cert_type_serde. solve_stable. Qed.
#[local] Hint Resolve vote_lawful vote_stable cert_type_lawful cert_type_stable : wire.
Lemma certificate_lawful : lawful certificate_serde.
Proof. unfold certificate_serde. solve_lawful. Qed.
Lemma certificate_stable : stable certificate_serde.
Proof. unfold certificate_serde. apply struct_stable; [by intros []|]. solve_stable. Qed.
Lemma payload_lawful : lawful payload_serde.
Proof. unfold payload_serde. solve_lawful. Qed.
Lemma payload_stable : stable payload_serde.
Proof. unfold payload_serde. apply struct_stable; [done|]. solve_stable. Qed.
Lemma transaction_lawful : lawful transaction_serde.
Proof. unfold transaction_serde. solve_lawful. Qed.
Lemma transaction_stable : stable transaction_serde.
Proof. unfold transaction_serde. apply struct_stable; [by intros [[[]]]|]. solve_stable. Qed.
#[local] Hint Resolve certificate_lawful certificate_stable transaction_lawful transaction_stable : wire.
Lemma header_lawful : lawful header_serde.
Proof. unfold header_serde. solve_lawful. Qed.
Lemma header_stable : stable header_serde.
Proof. unfold header_serde. apply struct_stable; [by intros [[[[]]]]|]. solve_stable. Qed.
Lemma body_lawful : lawful body_serde.
Proof. unfold body_serde. solve_lawful. Qed.
Lemma body_stable : stable body_serde.
Proof. unfold body_serde. apply struct_stable; [done|]. solve_stable. Qed.
#[local] Hint Resolve header_lawful header_stable body_lawful body_stable : wire.
Lemma block_lawful : lawful block_serde.
Proof. unfold block_serde. solve_lawful. Qed.
Lemma block_stable : stable block_serde.
Proof. unfold block_serde. apply struct_stable; [by intros []|]. solve_stable. Qed.
Lemma batch_lawful : lawful batch_serde.
Proof. unfold batch_serde. solve_lawful. Qed.
Lemma batch_stable : stable batch_serde.
Proof. unfold batch_serde. apply struct_stable; [done|]. solve_stable. Qed.
Lemma internal_ucr_lawful : lawful internal_ucr_serde.
Proof. unfold internal_ucr_serde. solve_lawful. Qed.
Lemma internal_ucr_stable : stable internal_ucr_serde.
Proof. unfold internal_ucr_serde. solve_stable. Qed.
End types_laws.
#[export] Hint Resolve vote_lawful cert_type_lawful certificate_lawful payload_lawful transaction_lawful
  header_lawful body_lawful block_lawful batch_lawful
  vote_stable cert_type_stable certificate_stable payload_stable transaction_stable
  header_stable body_stable block_stable batch_stable : wire.

(** ** What survives *)
Section survives.
Context `{Wire} `{!WireLaws}.

(** Nothing but the caches changes on the way. *)
Definition exact {A} (s : Codec A) : Prop := ∀ x, norm s x = x.
Lemma two_exact {A B} (sa : Codec A) (sb : Codec B) : exact sa → exact sb → exact (sa ⋅⋅ sb).
Proof. intros Ha Hb [a b]. simpl. by rw Ha Hb. Qed.
Lemma struct_exact {A B} (f : A → B) (g : B → A) s :
  (∀ a, g (f a) = a) → exact s → exact (struct f g s).
Proof. intros Hgf Hs a. simpl. by rw Hs Hgf. Qed.
Lemma vec_exact {A} (s : Codec A) : exact s → exact (vec s).
Proof.
  intros Hs l. simpl. induction l as [|x l IH]; [done|]. by rw fmap_cons Hs IH.
Qed.
Lemma int_exact w : exact (int w). Proof. done. Qed.
Lemma digest_exact : exact digest. Proof. done. Qed.
Lemma addr_exact : exact addr. Proof. done. Qed.
#[local] Hint Resolve two_exact vec_exact int_exact digest_exact addr_exact : wire.

Lemma vote_exact : exact vote_serde.
Proof. apply struct_exact; [by intros []|]. eauto 10 with wire. Qed.
Lemma cert_type_exact : exact cert_type_serde.
Proof. by intros []. Qed.
#[local] Hint Resolve vote_exact cert_type_exact : wire.
Lemma certificate_exact : exact certificate_serde.
Proof. apply struct_exact; [by intros []|]. eauto 10 with wire. Qed.
Lemma payload_exact : exact payload_serde.
Proof. apply struct_exact; [by intros []|]. eauto 10 with wire. Qed.
Lemma transaction_exact : exact transaction_serde.
Proof. apply struct_exact; [by intros []|]. eauto 10 with wire. Qed.
#[local] Hint Resolve certificate_exact transaction_exact : wire.
Lemma header_exact : exact header_serde.
Proof. apply struct_exact; [by intros []|]. eauto 10 with wire. Qed.
Lemma body_exact : exact body_serde.
Proof. apply struct_exact; [by intros []|]. eauto 10 with wire. Qed.

(** A block arrives with its hash recomputed, a batch with its hash filled in
    and its transaction hashes not yet computed. *)
Lemma block_norm b : norm block_serde b = init b.
Proof.
  change (norm block_serde b) with
    (init (mkBlock (norm header_serde (header b)) (norm body_serde (body b)) EMPTY_HASH)).
  rw header_exact body_exact. by destruct b.
Qed.
Definition rehash (b : CachedBatch Transaction) : CachedBatch Transaction :=
  (hash_get_or_init (batch_new (payload b))).2.
Lemma batch_norm b : norm batch_serde b = rehash b.
Proof.
  change (norm batch_serde b) with
    (hash_get_or_init (batch_new (norm (vec transaction_serde) (payload b)))).2.
  by rw (vec_exact _ transaction_exact).
Qed.
Lemma block_norm_hashed b : block_hash b = compute_hash b → norm block_serde b = b.
Proof. intros Hb. rw block_norm. unfold init. rw -Hb. by destruct b. Qed.
Lemma rehash_same b : batch_ok b →
  payload (rehash b) = payload b ∧ hash (rehash b) = hash b ∧ tx_hashes (rehash b) = tx_hashes b ∧
  batch_ok (rehash b).
Proof.
  intros Hb. assert (batch_ok (rehash b)) as Hr by (apply hash_init_ok, batch_new_ok).
  split; [done|]. rw !batch_ok_hash // !batch_ok_tx_hashes //.
Qed.

Lemma block_ensures : ensures block_serde (λ b, block_hash b = compute_hash b).
Proof. apply struct_ensures. by intros []. Qed.
Lemma batch_ensures : ensures batch_serde (λ b, batch_ok b ∧ hash_cell b = Some (hash b)).
Proof. apply struct_ensures. intros p. split; [apply hash_init_ok, batch_new_ok|done]. Qed.

(** The codecs are the serializations the nodes already use. *)
Lemma block_from_bytes_spec bs : block_from_bytes bs = block_deserialize bs.
Proof.
  unfold block_from_bytes, bin_deserialize, block_deserialize. cbn [de_block Wire_Bincode]. unfold bin_deserialize.
  change (get block_serde bs) with (match get (header_serde ⋅⋅ body_serde) bs with
    | Some (w, bs) => Some (init (mkBlock w.1 w.2 EMPTY_HASH), bs) | None => None end).
  by destruct (get (header_serde ⋅⋅ body_serde) bs) as [[[h b] rest]|].
Qed.
(** The genesis block caches the empty hash and is never finished with
    `init`, so no bytes decode to it: sent over the wire it would arrive as
    another block. *)
Lemma genesis_not_on_the_wire `{!CollisionFree} bs : block_from_bytes bs ≠ Some GENESIS_BLOCK.
Proof.
  intros E. apply (from_bytes_ensures _ _ _ _ block_ensures) in E. simpl in E.
  symmetry in E. by apply do_hash_not_empty in E.
Qed.
(** A client's transaction arrives as it was sent. *)
Lemma tx_from_bytes_back t : fit transaction_serde t → tx_from_bytes (bin_serialize transaction_serde t) = Some t.
Proof.
  intros Ht. unfold tx_from_bytes. by rw from_to_bytes ?transaction_exact; [|apply transaction_lawful|].
Qed.
Lemma batch_from_bytes_spec bs : batch_from_bytes bs = batch_deserialize bs.
Proof.
  unfold batch_from_bytes, bin_deserialize, batch_deserialize. cbn [vec_of_bytes Transaction_MempoolTx de_txs Wire_Bincode].
  unfold bin_deserialize. change (get batch_serde bs) with (match get (vec transaction_serde) bs with
    | Some (p, bs) => Some ((hash_get_or_init (batch_new p)).2, bs) | None => None end).
  by destruct (get (vec transaction_serde) bs) as [[p rest]|].
Qed.
End survives.

(** ** The laws of [Bincode], from those of its primitives

    A number of the model stands for a value of the integer type; where every
    number is one, the laws the protocols rely on follow. *)
Class WireTotal `{Wire} := int_ok_all w x : int_ok w x.

Section bincode_laws.
Context `{Wire} `{!WireLaws} `{!WireTotal}.

Lemma vec_fit {A} (s : Codec A) l : (∀ x, fit s x) → fit (vec s) l.
Proof. intros Hs. split; [apply int_ok_all|]. by apply Forall_true. Qed.
Lemma bytes_fit l : fit (vec (int W8)) l.
Proof. apply vec_fit. apply int_ok_all. Qed.
Lemma transaction_fit t : fit transaction_serde t.
Proof. repeat split; try apply int_ok_all; apply bytes_fit. Qed.
Lemma vote_fit v : fit vote_serde v.
Proof. split; [apply int_ok_all|apply bytes_fit]. Qed.
Lemma certificate_fit c : fit certificate_serde c.
Proof.
  split; [|apply vec_fit, vote_fit]. destruct (cert_msg c); repeat split; apply int_ok_all.
Qed.
Lemma header_fit h : fit header_serde h.
Proof.
  repeat split; try apply int_ok_all; try apply bytes_fit. apply vec_fit, certificate_fit.
Qed.

#[export] Instance Wire_BincodeLaws : BincodeLaws.
Proof.
  split.
  - intros h b. cbn [de_block ser_block Wire_Bincode]. rw from_to_bytes; eauto with wire.
    + by rw (two_exact _ _ header_exact body_exact).
    + split; [apply header_fit|done].
  - intros l. cbn [de_txs ser_txs Wire_Bincode]. rw from_to_bytes; eauto with wire.
    + by rw (vec_exact _ transaction_exact).
    + apply vec_fit, transaction_fit.
Qed.

#[export] Instance Wire_BincodeTxLaws : BincodeTxLaws.
Proof.
  intros t1 t2 _ _ E. apply (lawful_inj transaction_serde) in E;
    [|apply transaction_lawful|apply transaction_fit..]. by rw !transaction_exact in E.
Qed.
End bincode_laws.

(** ** Concrete formats, for the examples

    Integers as bincode's default options write them, little endian at their
    full width; and one number each, where every number is a value. *)
Module BincodeLE.
Import Toy.

Fixpoint le_bytes (k : nat) (x : N) : bytes :=
  match k with O => [] | S k => (x mod 256)%N :: le_bytes k (x / 256) end.
Fixpoint of_le (k : nat) (bs : bytes) : option (N * bytes) :=
  match k, bs with
  | O, _ => Some (0%N, bs)
  | S k, b :: bs =>
      if (b <? 256)%N then prod_map (λ x, b + 256 * x)%N id <$> of_le k bs else None
  | _, [] => None
  end.

Lemma of_le_bytes k x rest :
  (x < 256 ^ N.of_nat k)%N → of_le k (le_bytes k x ++ rest) = Some (x, rest).
Proof.
  revert x. induction k as [|k IH]; intros x Hx; [simpl in Hx; by replace x with 0%N by lia|].
  cbn [le_bytes of_le app]. rw Nat2N.inj_succ N.pow_succ_r' in Hx.
  assert (x mod 256 < 256)%N as Hm by by apply N.mod_lt.
  apply N.ltb_lt in Hm as ->. rw IH; [|by apply N.Div0.div_lt_upper_bound].
  cbn. do 2 f_equal. rw N.add_comm. symmetry. apply N.Div0.div_mod.
Qed.
Lemma of_le_range k bs x rest : of_le k bs = Some (x, rest) → (x < 256 ^ N.of_nat k)%N.
Proof.
  revert bs x rest. induction k as [|k IH]; intros bs x rest; simpl; [intros [= <- _]; lia|].
  destruct bs as [|b bs]; [done|]. case_eq (b <? 256)%N; [intros Hb%N.ltb_lt|done].
  destruct (of_le k bs) as [[y r]|] eqn:E; [|done]. intros [= <- _]. apply IH in E.
  rw -/(N.of_nat (S k)) Nat2N.inj_succ N.pow_succ_r'. simpl. lia.
Qed.

Definition put_list (h : list N) : bytes := N.of_nat (length h) :: h.
Definition get_list (bs : bytes) : option (list N * bytes) :=
  match bs with
  | [] => None
  | n :: bs => if bool_decide (N.to_nat n ≤ length bs)
               then Some (take (N.to_nat n) bs, drop (N.to_nat n) bs) else None
  end.
Lemma get_put_list h rest : get_list (put_list h ++ rest) = Some (h, rest).
Proof.
  simpl. rw Nat2N.id bool_decide_true ?length_app; [|lia]. by rw take_app_length drop_app_length.
Qed.

(** An IPv4 address and its port. *)
Definition put_v4 (a : SocketAddr) : bytes :=
  match a with V4 a b c d p => [a; b; c; d; p] | V6 _ _ _ => [] end.
Definition get_v4 (bs : bytes) : option (SocketAddr * bytes) :=
  match bs with a :: b :: c :: d :: p :: bs => Some (V4 a b c d p, bs) | _ => None end.
Definition is_v4 (a : SocketAddr) : Prop := match a with V4 _ _ _ _ _ => True | _ => False end.
Lemma get_put_v4 a rest : is_v4 a → get_v4 (put_v4 a ++ rest) = Some (a, rest).
Proof. by destruct a. Qed.
Lemma get_v4_ok bs a rest : get_v4 bs = Some (a, rest) → is_v4 a.
Proof. do 5 (destruct bs as [|? bs]; [done|]). by intros [= <- _]. Qed.

Definition wire : Wire := {|
  put_int w x := le_bytes (width_bytes w) x;
  get_int w bs := of_le (width_bytes w) bs;
  int_ok w x := (x < 256 ^ N.of_nat (width_bytes w))%N;
  put_digest := put_list; get_digest := get_list;
  put_addr := put_v4; get_addr := get_v4; addr_ok := is_v4 |}.
Lemma wire_laws : WireLaws (H0:=wire).
Proof.
  split; simpl; intros.
  - by apply of_le_bytes.
  - done.
  - apply get_put_list.
  - by apply get_put_v4.
  - by eapply of_le_range.
  - by eapply get_v4_ok.
Qed.

Definition numbers : Wire := {|
  put_int _ x := [x];
  get_int _ bs := match bs with x :: bs => Some (x, bs) | [] => None end;
  int_ok _ _ := True;
  put_digest := put_list; get_digest := get_list;
  put_addr := put_v4; get_addr := get_v4; addr_ok := is_v4 |}.
Lemma numbers_laws : WireLaws (H0:=numbers) ∧ WireTotal (H0:=numbers).
Proof.
  split; [|done]. split; simpl; try done.
  - apply get_put_list.
  - apply get_put_v4.
  - apply get_v4_ok.
Qed.

(** `(client_id: 1, nonce: 258, data: [7], request: [])`, as bincode writes it. *)
Lemma transaction_bytes :
  bin_serialize (transaction_serde (H0:=wire)) (mkTransaction 1 258 [7%N] []) =
  [1;0; 2;1;0;0;0;0;0;0; 1;0;0;0;0;0;0;0; 7; 0;0;0;0;0;0;0;0]%N.
Proof. reflexivity. Qed.
End BincodeLE.
