(* ===== verification/Legacy.v ===== *)
(** * The legacy mempool (mempool/src/lib.rs, `Mempool::spawn`)

    Receiver, batcher and processor as tasks over unbounded channels, for Sync
    HotStuff and Opt Sync.  The tasks' own steps are in Batch.v; here they are
    put together: any interleaving of their turns, each task ending when the
    channel it reads is closed or nobody reads the one it writes. *)

From S2P Require Import Prelude Crypto Types Batch.

(** [ch_txs] and [ch_proc] hold what was sent and not yet received, oldest
    first; [received] and [announced] hold everything the receiver forwarded
    and everything consensus was told.  A task that ended is off. *)
Record Mempool `{Crypto} `{Store} {Tx : Type} := mkMempool {
  m_cache : gmap Hash (CachedBatch Tx);
  m_store : store;
  ch_txs : list Tx;
  queue_txs : list Tx;
  ch_proc : list (CachedBatch Tx);
  received : list Tx;
  announced : list (Hash * CachedBatch Tx);
  receiver_on : bool;
  batcher_on : bool;
  processor_on : bool;
}.
Arguments Mempool {_ _} Tx.
Arguments mkMempool {_ _ Tx}.
#[export] Instance eta_Mempool `{Crypto} `{Store} Tx : Eta (Mempool Tx) := λ x,
  mkMempool (m_cache x) (m_store x) (ch_txs x) (queue_txs x) (ch_proc x) (received x)
    (announced x) (receiver_on x) (batcher_on x) (processor_on x).

Section legacy.
Context `{MempoolTx Tx} `{Store}.
Implicit Types (m : Mempool Tx) (sealer : CountSealer).

Definition mempool_spawn (st : store) : Mempool Tx :=
  {| m_cache := ∅; m_store := st; ch_txs := []; queue_txs := []; ch_proc := []; received := [];
     announced := []; receiver_on := true; batcher_on := true; processor_on := true |}.

(** Whose turn it is; [open] says whether consensus still listens.  The task
    that throws away consensus' own messages changes nothing. *)
Inductive legacy_turn :=
  | LReceive (item : stream_item Tx)
  | LBatch
  | LProcess (open : bool).

Definition receive_turn (item : stream_item Tx) m : option (Mempool Tx) :=
  if receiver_on m then
    let '(txs, go) := receiver_step (batcher_on m) item in
    Some (m <| ch_txs ::= λ l, l ++ txs |> <| received ::= λ l, l ++ txs |> <| receiver_on := go |>)
  else None.

Definition batch_turn sealer m : option (Mempool Tx) :=
  if batcher_on m then
    match ch_txs m with
    | t :: rest =>
        let '(queue, sealed, go) := batcher_step sealer (processor_on m) (queue_txs m) t in
        Some (m <| ch_txs := rest |> <| queue_txs := queue |> <| batcher_on := go |>
                <| ch_proc ::= λ l, l ++ match sealed with Some b => [b] | None => [] end |>)
    | [] => if receiver_on m then None else Some (m <| batcher_on := false |>)
    end
  else None.

Definition process_turn (open : bool) m : option (Mempool Tx) :=
  if processor_on m then
    match ch_proc m with
    | b :: rest =>
        let '(cache, told, st, go) := processor_step open b (m_cache m) (m_store m) in
        Some (m <| ch_proc := rest |> <| m_cache := cache |> <| m_store := st |>
                <| processor_on := go |>
                <| announced ::= λ l, l ++ match told with Some hb => [hb] | None => [] end |>)
    | [] => if batcher_on m then None else Some (m <| processor_on := false |>)
    end
  else None.

(** [None]: the task is waiting or has ended. *)
Definition take_legacy sealer (t : legacy_turn) m : option (Mempool Tx) :=
  match t with
  | LReceive item => receive_turn item m
  | LBatch => batch_turn sealer m
  | LProcess open => process_turn open m
  end.
Definition legacy_step sealer m m' : Prop := ∃ t, take_legacy sealer t m = Some m'.

(** ** What every interleaving keeps *)
Definition txs_of (l : list (CachedBatch Tx)) : list Tx := mjoin (payload <$> l).

Lemma txs_of_app l1 l2 : txs_of (l1 ++ l2) = txs_of l1 ++ txs_of l2.
Proof. unfold txs_of. by rw fmap_app join_app. Qed.

Lemma txs_of_cons b l : txs_of (b :: l) = payload b ++ txs_of l.
Proof. done. Qed.
Lemma txs_of_one b : txs_of [b] = payload b.
Proof. by rw txs_of_cons app_nil_r. Qed.

Definition sized (k : nat) (b : CachedBatch Tx) : Prop := length (payload b) = k ∧ batch_ok b.

Record legacy_inv (k : nat) m : Prop := {
  li_prefix : txs_of (snd <$> announced m) `prefix_of` received m;
  li_flow : processor_on m = true →
    received m = txs_of (snd <$> announced m) ++ txs_of (ch_proc m) ++ queue_txs m ++ ch_txs m ∧
    length (queue_txs m) < k;
  li_cache : cache_ok (m_cache m);
  li_proc : Forall (sized k) (ch_proc m);
  li_told : Forall (λ hb, hb.1 = hash hb.2 ∧ sized k hb.2 ∧ is_Some (cache_get (m_cache m) hb.1))
              (announced m);
}.

Lemma spawn_inv k st : 0 < k → legacy_inv k (mempool_spawn st).
Proof. intros Hk. split; simpl; done. Qed.

Lemma receive_inv k item m m' : receive_turn item m = Some m' → legacy_inv k m → legacy_inv k m'.
Proof.
  unfold receive_turn. destruct (receiver_on m); [|done].
  destruct (receiver_step (batcher_on m) item) as [txs go]. intros [= <-] [I1 I2 I3 I4 I5].
  split; simpl; try done.
  - by apply prefix_app_r.
  - intros Hon. destruct (I2 Hon) as [-> Hq]. split; [by rw -!app_assoc|done].
Qed.

Lemma batch_inv k m m' :
  batch_turn (mkCountSealer k) m = Some m' → legacy_inv k m → legacy_inv k m'.
Proof.
  unfold batch_turn. destruct (batcher_on m); [|done]. destruct (ch_txs m) as [|t rest] eqn:Et.
  { destruct (receiver_on m); [done|]. intros [= <-] []. by split. }
  unfold batcher_step, should_seal, CountSealer_Sealer. simpl. rw length_app /=.
  intros E [I1 I2 I3 I4 I5]. rw Et in I2. revert E.
  destruct (k <=? length (queue_txs m) + 1) eqn:Ek;
    [apply Nat.leb_le in Ek|apply Nat.leb_gt in Ek].
  - destruct (processor_on m) eqn:Ep; intros [= <-]; [destruct (I2 eq_refl) as [Hr Hq]|].
    + split; simpl; try done.
      * intros _. rw Hr txs_of_app txs_of_one. split; [|lia]. simpl. by rw -!app_assoc.
      * apply Forall_app. split; [done|]. constructor; [|constructor].
        split; [simpl; rw length_app /=; lia|apply batch_new_ok].
    + split; simpl; try done; [by rw Ep|by rw app_nil_r].
  - intros [= <-]. split; simpl; try done; [|by rw app_nil_r].
    intros Hp. destruct (I2 Hp) as [-> Hq]. rw app_nil_r length_app /=. split; [by rw -!app_assoc|lia].
Qed.

Lemma process_inv k open m m' : process_turn open m = Some m' → legacy_inv k m → legacy_inv k m'.
Proof.
  unfold process_turn. destruct (processor_on m) eqn:Ep; [|done].
  destruct (ch_proc m) as [|b rest] eqn:Ec.
  { destruct (batcher_on m); [done|]. intros [= <-] []. by split. }
  destruct (processor_step open b (m_cache m) (m_store m)) as [[[cache told] st] go] eqn:Es.
  intros [= <-] [I1 I2 I3 I4 I5]. rw Ec in I2 I4. apply Forall_cons in I4 as [[Hlen Hb] I4].
  assert (cache_ok cache ∧ ∀ h, is_Some (cache_get (m_cache m) h) → is_Some (cache_get cache h))
    as [Hok Hmono].
  { unfold processor_step in Es. destruct open; injection Es as <- _ _ _;
      (split; [apply cache_insert_ok; [done|by apply hash_init_ok|done]|
               intros h [b1 ?]; eexists; by apply cache_insert_mono]). }
  assert (Forall (λ hb, hb.1 = hash hb.2 ∧ sized k hb.2 ∧ is_Some (cache_get cache hb.1)) (announced m))
    as I5'.
  { eapply Forall_impl; [exact I5|]. intros hb (? & ? & ?). auto. }
  destruct open.
  - assert (told = Some (hash_get_or_init b) ∧ go = true) as [-> ->].
    { unfold processor_step in Es. by injection Es as _ <- _ <-. }
    destruct (processor_step_cached _ _ _ _ _ (hash_get_or_init b).1 (hash_get_or_init b).2 _ Hb I3 Es)
      as (Hh & Hpay & Hin & _).
    destruct (I2 Ep) as [Hr Hq].
    assert (received m = txs_of (snd <$> (announced m ++ [hash_get_or_init b])) ++ txs_of rest ++
      queue_txs m ++ ch_txs m) as Hr'.
    { rw Hr fmap_app txs_of_app txs_of_cons. cbn [fmap list_fmap]. by rw txs_of_one Hpay -!app_assoc. }
    split; simpl; try done.
    + rw Hr'. by eexists.
    + apply Forall_app. split; [done|]. constructor; [|constructor]. split; [done|].
      split; [|done]. split; [by rw Hpay|by apply hash_init_ok].
  - assert (told = None ∧ go = false) as [-> ->].
    { unfold processor_step in Es. by injection Es as _ <- _ <-. }
    split; simpl; rw ?app_nil_r; done.
Qed.

Lemma legacy_step_inv k m m' :
  legacy_step (mkCountSealer k) m m' → legacy_inv k m → legacy_inv k m'.
Proof.
  intros [[item| |open] E]; simpl in E;
    [by eapply receive_inv|by eapply batch_inv|by eapply process_inv].
Qed.

(** C22.  The legacy pipeline, under every interleaving of its tasks.  What
    consensus is told are consecutive slices of exactly [k] transactions of
    the stream the receiver forwarded, in its order and from its start, each
    under its own hash and already in the cache; and while the processor runs
    nothing is lost: whatever was received and not announced waits in a
    channel or in the batcher's queue, which stays below [k]. *)
Theorem legacy_flow k st m :
  0 < k → rtc (legacy_step (mkCountSealer k)) (mempool_spawn st) m →
  txs_of (snd <$> announced m) `prefix_of` received m ∧
  (processor_on m = true →
    received m = txs_of (snd <$> announced m) ++ txs_of (ch_proc m) ++ queue_txs m ++ ch_txs m ∧
    length (queue_txs m) < k) ∧
  Forall (λ hb, hb.1 = hash hb.2 ∧ length (payload hb.2) = k ∧
                is_Some (cache_get (m_cache m) hb.1)) (announced m).
Proof.
  intros Hk Hr. assert (legacy_inv k m) as [I1 I2 _ _ I5].
  { eapply (rtc_ind_r (legacy_inv k)); [by apply spawn_inv| |exact Hr].
    intros m1 m2 _ Hs. by apply legacy_step_inv. }
  split; [done|]. split; [done|]. eapply Forall_impl; [exact I5|]. by intros hb (? & [] & ?).
Qed.
End legacy.

(** ** Runs *)
Module LegacyExamples.
Import Toy ToyFormat BatchExamples.

Definition run_turns (k : nat) (ts : list legacy_turn) (m : Mempool Transaction)
    : option (Mempool Transaction) :=
  foldl (λ o t, o ≫= take_legacy (mkCountSealer k) t) (Some m) ts.

Lemma run_turns_steps k ts m m' :
  run_turns k ts m = Some m' → rtc (legacy_step (mkCountSealer k)) m m'.
Proof.
  unfold run_turns. revert m. induction ts as [|t ts IH]; intros m; simpl.
  { intros [= ->]. apply rtc_refl. }
  destruct (take_legacy (mkCountSealer k) t m) as [m1|] eqn:E;
    [|intros Hr; exfalso; clear -Hr; by induction ts].
  intros Hr. eapply rtc_l; [by exists t|by apply IH].
Qed.

(** Three transactions, a batch of two announced, one left in the queue. *)
Definition turns : list legacy_turn :=
  (LReceive ∘ Item <$> txs [1; 2; 3]%N) ++ [LBatch; LBatch; LReceive DecodeError; LProcess true; LBatch].
Definition after : Mempool Transaction := default (mempool_spawn ∅) (run_turns 2 turns (mempool_spawn ∅)).

Lemma after_reached : rtc (legacy_step (mkCountSealer 2)) (mempool_spawn ∅) after.
Proof.
  assert (match run_turns 2 turns (mempool_spawn ∅) with Some _ => true | None => false end = true) as E
    by (vm_compute; reflexivity).
  apply (run_turns_steps 2 turns). unfold after. by destruct (run_turns 2 turns (mempool_spawn ∅)).
Qed.

Lemma legacy_flow_witness :
  txs_of (snd <$> announced after) = txs [1; 2]%N ∧ queue_txs after = txs [3]%N ∧
  (processor_on after = true → length (queue_txs after) < 2).
Proof.
  split; [vm_compute; reflexivity|]. split; [vm_compute; reflexivity|]. intros Hp.
  apply (legacy_flow 2 ∅ after); [repeat constructor|exact after_reached|exact Hp].
Defined.

(** When consensus is gone the processor ends and the batch it held is lost;
    so is the next one, on which the batcher ends. *)
Example consensus_gone :
  match run_turns 1 ((LReceive ∘ Item <$> txs [1; 2]%N) ++ [LBatch; LProcess false; LBatch])
          (mempool_spawn ∅) with
  | Some m => (announced m, ch_proc m, queue_txs m, processor_on m, batcher_on m) =
              ([], [], [], false, false)
  | None => False
  end.
Proof. vm_compute. reflexivity. Qed.
End LegacyExamples.
