(* ===== verification/TxPool.v ===== *)
(** * The nonce-keyed transaction pool (mempool/src/tx_pool.rs)

    [Txpool] with its five mutators and its invariant: the per-transaction
    state machine Unknown / Mineable / InFlight / Replayed, the byte counter,
    the per-round index and the replay watermark. *)

From S2P Require Import Prelude Crypto Types Batch.

Abbreviation TxKey := (N * N)%type.

(** ** The order of a `BTreeMap<(ClientId, Nonce), _>` *)
Definition key_le (a b : TxKey) : Prop :=
  (a.1 < b.1 ∨ (a.1 = b.1 ∧ a.2 ≤ b.2))%N.
#[export] Instance key_le_dec : RelDecision key_le.
Proof. intros a b. unfold key_le. apply _. Defined.

(** `map.keys().next()`: the least key. *)
Definition btree_first {V} (m : gmap TxKey V) : option TxKey :=
  foldr (λ k acc, match acc with
                  | None => Some k
                  | Some k' => Some (if bool_decide (key_le k k') then k else k')
                  end) None (map_to_list m).*1.

(** `map.range((c, 0)..=(c, hi))`, as the keys in it. *)
Definition btree_range {V} (m : gmap TxKey V) (c hi : N) : list TxKey :=
  filter (λ k, k.1 = c ∧ (k.2 ≤ hi)%N) (map_to_list m).*1.

Record InflightEntry {Tx : Type} := mkInflight {
  if_tx : Tx;
  if_size : N;
  if_round : N;
}.
Arguments InflightEntry Tx : clear implicits.
Arguments mkInflight {Tx}.

(** [timer] counts the resets of the tokio interval. *)
Record Txpool {Tx : Type} := mkTxpool {
  mineable : gmap TxKey (Tx * N);
  mineable_bytes : N;
  inflight : gmap TxKey (InflightEntry Tx);
  inflight_by_round : gmap N (gset TxKey);
  high_committed_nonce : gmap N N;
  batch_size : N;
  timer : N;
}.
Arguments Txpool Tx : clear implicits.
Arguments mkTxpool {Tx}.
#[export] Instance eta_Txpool Tx : Eta (Txpool Tx) := λ x,
  mkTxpool (mineable x) (mineable_bytes x) (inflight x) (inflight_by_round x)
    (high_committed_nonce x) (batch_size x) (timer x).

Section pool.
Context `{MempoolTx Tx}.
Implicit Types p : Txpool Tx.

Definition pool_new (size : N) : Txpool Tx := mkTxpool ∅ 0 ∅ ∅ ∅ size 0.

(** `*self.high_committed_nonce.get(&c).unwrap_or(&0)`. *)
Definition hi p (c : N) : N := default 0%N (high_committed_nonce p !! c).
(** `inflight_by_round`, an absent round reading as the empty set. *)
Definition round_keys p (r : N) : gset TxKey := default ∅ (inflight_by_round p !! r).

Definition reset_timer p : Txpool Tx := p <| timer ::= N.succ |>.

Definition ready p : bool := (batch_size p <? mineable_bytes p)%N.

Definition key_sets_disjoint p : bool :=
  bool_decide (map_Forall (λ k _, inflight p !! k = None) (mineable p)).

(** `mineable.remove(&k)` with the byte counter kept, as every caller does. *)
Definition mineable_remove (k : TxKey) p : Txpool Tx :=
  match mineable p !! k with
  | Some (_, sz) => p <| mineable ::= delete k |> <| mineable_bytes ::= λ b, sub64 b sz |>
  | None => p
  end.

Definition add_tx (tx : Tx) (size : N) p : Txpool Tx :=
  let '(c, n) := tx_key tx in
  if (n <=? hi p c)%N then p
  else if bool_decide (is_Some (inflight p !! (c, n))) then p
  else
    let p' := match mineable p !! (c, n) with
              | Some (_, old_sz) => p <| mineable_bytes ::= λ b, sub64 b old_sz |>
              | None => p
              end in
    p' <| mineable ::= insert (c, n) (tx, size) |>
       <| mineable_bytes ::= λ b, add64 b size |>.

(** `self.inflight_by_round.entry(round).or_default()`. *)
Definition touch_round (round : N) p : Txpool Tx :=
  p <| inflight_by_round ::= partial_alter (λ o, Some (default ∅ o)) round |>.

(** `self.inflight.insert(k, entry); by_round.insert(k)`. *)
Definition mark_inflight (k : TxKey) (tx : Tx) (size round : N) p : Txpool Tx :=
  p <| inflight ::= insert k (mkInflight tx size round) |>
    <| inflight_by_round ::=
         partial_alter (λ o, Some ({[k]} ∪ default ∅ o)) round |>.

Definition admit_one (round : N) p (tx : Tx) : Txpool Tx :=
  let '(c, n) := tx_key tx in
  if (n <=? hi p c)%N then p
  else if bool_decide (is_Some (inflight p !! (c, n))) then p
  else
    let size := match mineable p !! (c, n) with
                | Some (_, sz) => sz
                | None => serialized_size tx
                end in
    mark_inflight (c, n) tx size round (mineable_remove (c, n) p).

Definition admit_proposal (batch : CachedBatch Tx) (round : N) p : Txpool Tx :=
  foldl (admit_one round) (touch_round round p) (payload batch).

(** The `while batch_bytes < self.batch_size` loop. *)
Fixpoint make_batch_loop (fuel : nat) (round batch_bytes : N) (out : list Tx) p
    : outcome (Txpool Tx) (list Tx) :=
  match fuel with
  | O => OutOfFuel
  | S fuel' =>
      if (batch_bytes <? batch_size p)%N then
        match btree_first (mineable p) with
        | None => Done out p
        | Some key =>
            match mineable p !! key with
            | None => Panicked "called `Option::unwrap()` on a `None` value"
            | Some (tx, size) =>
                make_batch_loop fuel' round (add64 batch_bytes size) (out ++ [tx])
                  (mark_inflight key tx size round (mineable_remove key p))
            end
        end
      else Done out p
  end.

(** A round of the loop removes a mineable entry, so this many do. *)
Definition make_batch (round : N) p : outcome (Txpool Tx) (list Tx) :=
  match make_batch_loop (S (size (mineable p))) round 0 [] (touch_round round p) with
  | Done out p' => Done out (reset_timer p')
  | o => o
  end.

Definition commit_one p (tx : Tx) : Txpool Tx :=
  let '(c, n) := tx_key tx in
  let p := match inflight p !! (c, n) with
           | Some e =>
               let p := p <| inflight ::= delete (c, n) |> in
               match inflight_by_round p !! if_round e with
               | Some ks => p <| inflight_by_round ::= insert (if_round e) (ks ∖ {[ (c, n) ]}) |>
               | None => p
               end
           | None => p
           end in
  let p := mineable_remove (c, n) p in
  let cur := hi p c in
  p <| high_committed_nonce ::= insert c (if (cur <? n)%N then n else cur) |>.

Definition sweep_client p (c : N) : Txpool Tx :=
  foldl (λ p k, mineable_remove k p) p (btree_range (mineable p) c (hi p c)).

Definition commit (batch : CachedBatch Tx) (round : N) p : Txpool Tx :=
  let touched : gset N := list_to_set (tx_client <$> payload batch) in
  let p := foldl commit_one p (payload batch) in
  let p := foldl sweep_client p (elements touched) in
  match inflight_by_round p !! round with
  | Some ks => if bool_decide (ks = ∅) then p <| inflight_by_round ::= delete round |> else p
  | None => p
  end.

Definition rollback_key p (k : TxKey) : Txpool Tx :=
  let '(c, n) := k in
  if (n <=? hi p c)%N then p <| inflight ::= delete k |>
  else match inflight p !! k with
       | Some e =>
           p <| inflight ::= delete k |>
             <| mineable ::= insert k (if_tx e, if_size e) |>
             <| mineable_bytes ::= λ b, add64 b (if_size e) |>
       | None => p
       end.

Definition rollback_round p (r : N) : Txpool Tx :=
  match inflight_by_round p !! r with
  | Some ks => foldl rollback_key (p <| inflight_by_round ::= delete r |>) (elements ks)
  | None => p
  end.

Definition rollback (rounds : list N) p : Txpool Tx := foldl rollback_round p rounds.
End pool.

(** ** The ordered map *)
Section btree.
Context {V : Type}.
Implicit Types m : gmap TxKey V.

#[export] Instance key_le_trans : Transitive key_le.
Proof. intros [] [] []. unfold key_le; simpl. lia. Qed.
Lemma key_le_total a b : key_le a b ∨ key_le b a.
Proof. destruct a, b. unfold key_le; simpl. lia. Qed.
#[export] Instance key_le_refl : Reflexive key_le.
Proof. intros []. unfold key_le; simpl. lia. Qed.
Lemma key_le_antisym a b : key_le a b → key_le b a → a = b.
Proof. destruct a, b. unfold key_le; simpl. intros. f_equal; lia. Qed.

Lemma fold_first_spec (l : list TxKey) :
  match foldr (λ k acc, match acc with
                | None => Some k
                | Some k' => Some (if bool_decide (key_le k k') then k else k')
                end) None l with
  | None => l = []
  | Some k => k ∈ l ∧ ∀ k', k' ∈ l → key_le k k'
  end.
Proof.
  induction l as [|k l IH]; [done|]. simpl.
  destruct (foldr _ _ l) as [k1|].
  - destruct IH as [Hin Hmin]. case_bool_decide as Hle.
    + split; [by constructor|]. intros k' [->|?]%elem_of_cons; [done|].
      etrans; [done|auto].
    + split; [by constructor|]. intros k' [->|?]%elem_of_cons; [|auto].
      by destruct (key_le_total k k1).
  - subst l. split; [by constructor|]. intros k' ->%list_elem_of_singleton. done.
Qed.

Lemma btree_first_Some m k :
  btree_first m = Some k → is_Some (m !! k) ∧ ∀ k' v, m !! k' = Some v → key_le k k'.
Proof.
  intros E. pose proof (fold_first_spec (map_to_list m).*1) as Hs.
  unfold btree_first in E. rw E in Hs. destruct Hs as [Hin Hmin]. split.
  - apply list_elem_of_fmap in Hin as ([k1 v] & -> & Hin).
    apply elem_of_map_to_list in Hin. eauto.
  - intros k' v Hk'. apply Hmin, list_elem_of_fmap. exists (k', v).
    by rw elem_of_map_to_list.
Qed.

Lemma btree_first_None m : btree_first m = None → m = ∅.
Proof.
  intros E. pose proof (fold_first_spec (map_to_list m).*1) as Hs.
  unfold btree_first in E. rw E in Hs.
  apply map_to_list_empty_iff. by apply fmap_nil_inv in Hs.
Qed.

Lemma btree_range_spec m c h k :
  k ∈ btree_range m c h ↔ is_Some (m !! k) ∧ k.1 = c ∧ (k.2 ≤ h)%N.
Proof.
  unfold btree_range. rw list_elem_of_filter list_elem_of_fmap. split.
  - intros [[??] ([k1 v] & -> & Hin)]. apply elem_of_map_to_list in Hin. eauto.
  - intros [[v Hv] ?]. split; [done|]. exists (k, v). by rw elem_of_map_to_list.
Qed.
End btree.

(** ** The byte total *)
Section total.
Context {Tx : Type}.
Implicit Types m : gmap TxKey (Tx * N).

Definition total_size m : N := map_fold (λ _ v acc, v.2 + acc)%N 0%N m.

Lemma total_size_insert m k v :
  m !! k = None → total_size (<[k := v]> m) = (v.2 + total_size m)%N.
Proof.
  intros ?. unfold total_size. rw map_fold_insert_L //. intros; lia.
Qed.

Lemma total_size_delete m k v :
  m !! k = Some v → total_size m = (v.2 + total_size (delete k m))%N.
Proof.
  intros Hk. rw -(insert_id m k v) // -insert_delete_eq total_size_insert
    ?lookup_delete_eq // delete_insert_eq. by rw delete_delete_eq.
Qed.
End total.

(** ** The pool invariant *)
Section pool_facts.
Context `{MempoolTx Tx}.
Implicit Types (p : Txpool Tx) (k : TxKey) (tx : Tx).

(** Everything but the watermark. *)
Record pool_core p : Prop := {
  pc_disjoint k v : mineable p !! k = Some v → inflight p !! k = None;
  pc_bytes : mineable_bytes p = wrap64 (total_size (mineable p));
  pc_index r k : k ∈ round_keys p r ↔
    ∃ e, inflight p !! k = Some e ∧ if_round e = r;
  pc_keys k v : mineable p !! k = Some v → tx_key v.1 = k;
  pc_ikeys k e : inflight p !! k = Some e → tx_key (if_tx e) = k;
}.

(** No mineable transaction of client [c] is at or below its watermark. *)
Definition fresh_for p (c : N) : Prop :=
  ∀ n v, mineable p !! (c, n) = Some v → (hi p c < n)%N.

Record pool_wf p : Prop := {
  pw_core : pool_core p;
  pw_fresh c : fresh_for p c;
}.

Lemma pool_new_wf size : pool_wf (pool_new size).
Proof.
  split; [split|]; simpl; try done; try by (intros; simplify_map_eq).
  intros r k. unfold round_keys; simpl. rw lookup_empty /=. set_solver.
Qed.

Lemma round_keys_alter p f r r' :
  round_keys (p <| inflight_by_round ::= partial_alter (λ o, Some (f (default ∅ o))) r |>) r' =
  if decide (r = r') then f (round_keys p r') else round_keys p r'.
Proof.
  unfold round_keys; simpl. rw lookup_partial_alter. by case_decide; subst.
Qed.

Lemma touch_round_core r p : pool_core p → pool_core (touch_round r p).
Proof.
  intros [C1 C2 C3 C4 C5]. split; try done. intros r' k.
  unfold touch_round. rw (round_keys_alter p id).
  by case_decide; rw C3.
Qed.

Lemma mineable_remove_lookup k p k' :
  mineable (mineable_remove k p) !! k' = if decide (k = k') then None else mineable p !! k'.
Proof.
  unfold mineable_remove. destruct (mineable p !! k) as [[tx sz]|] eqn:E; simpl.
  - by rw lookup_delete.
  - by case_decide; subst.
Qed.

Lemma mineable_remove_frame k p :
  inflight (mineable_remove k p) = inflight p ∧
  inflight_by_round (mineable_remove k p) = inflight_by_round p ∧
  high_committed_nonce (mineable_remove k p) = high_committed_nonce p ∧
  batch_size (mineable_remove k p) = batch_size p.
Proof. unfold mineable_remove. by destruct (mineable p !! k) as [[]|]. Qed.

Lemma mineable_remove_hi k p c : hi (mineable_remove k p) c = hi p c.
Proof. unfold hi. by destruct (mineable_remove_frame k p) as (_ & _ & -> & _). Qed.

Lemma mineable_remove_bytes k p :
  mineable_bytes p = wrap64 (total_size (mineable p)) →
  mineable_bytes (mineable_remove k p) = wrap64 (total_size (mineable (mineable_remove k p))).
Proof.
  intros Hb. unfold mineable_remove. destruct (mineable p !! k) as [[tx sz]|] eqn:E; [|done].
  simpl. rw Hb (total_size_delete _ _ _ E) /=. apply sub64_wrap.
Qed.

Lemma mineable_remove_core k p : pool_core p → pool_core (mineable_remove k p).
Proof.
  intros [C1 C2 C3 C4 C5]. destruct (mineable_remove_frame k p) as (E1 & E2 & E3 & _).
  split.
  - intros k' v. rw mineable_remove_lookup E1. case_decide; [done|]. apply C1.
  - by apply mineable_remove_bytes.
  - intros r k'. unfold round_keys. rw E1 E2. apply C3.
  - intros k' v. rw mineable_remove_lookup. case_decide; [done|]. apply C4.
  - rw E1. apply C5.
Qed.

Lemma mineable_remove_fresh k p c : fresh_for p c → fresh_for (mineable_remove k p) c.
Proof.
  intros Hf n v. rw mineable_remove_lookup mineable_remove_hi. case_decide; [done|]. apply Hf.
Qed.

Lemma mark_inflight_core k tx sz r p :
  pool_core p → mineable p !! k = None → inflight p !! k = None → tx_key tx = k →
  pool_core (mark_inflight k tx sz r p).
Proof.
  intros [C1 C2 C3 C4 C5] Hm Hi Hk. split; simpl; try done.
  - intros k' v Hv. rw lookup_insert_ne; [by eapply C1|]. intros ->. congruence.
  - intros r' k'. unfold mark_inflight.
    rw (round_keys_alter (p <| inflight ::= _ |>) (union {[k]}) r r') /=.
    rw lookup_insert. unfold round_keys; simpl. fold (round_keys p r').
    destruct (decide (k = k')) as [<-|Hne].
    + case_decide as Hr.
      * split; [eauto|]. intros _. set_solver.
      * rw C3 Hi. naive_solver.
    + case_decide; [|apply C3]. rw elem_of_union elem_of_singleton C3. naive_solver.
  - intros k' e. rw lookup_insert. case_decide; [naive_solver|apply C5].
Qed.

Lemma mark_inflight_fresh k tx sz r p c :
  fresh_for p c → fresh_for (mark_inflight k tx sz r p) c.
Proof. done. Qed.

Lemma not_inflight p k :
  bool_decide (is_Some (inflight p !! k)) = false → inflight p !! k = None.
Proof. intros ?%bool_decide_eq_false. by apply eq_None_not_Some. Qed.

Lemma add_tx_wf tx sz p : pool_wf p → pool_wf (add_tx tx sz p).
Proof.
  intros [[C1 C2 C3 C4 C5] Hf]. unfold add_tx. destruct (tx_key tx) as [c n] eqn:Hk.
  case_eq (n <=? hi p c)%N; [done|intros Hn%N.leb_gt].
  case_eq (bool_decide (is_Some (inflight p !! (c, n)))); [done|intros Hi%not_inflight].
  split; [split|].
  - intros k v. destruct (mineable p !! (c, n)) as [[t0 z]|]; simpl;
      rw lookup_insert; case_decide; naive_solver.
  - destruct (mineable p !! (c, n)) as [[t0 z]|] eqn:E; simpl; rw C2.
    + rw (total_size_delete _ _ _ E) sub64_wrap add64_wrap -insert_delete_eq.
      by rw total_size_insert ?lookup_delete_eq.
    + by rw add64_wrap total_size_insert.
  - intros r k. destruct (mineable p !! (c, n)) as [[]|]; apply C3.
  - intros k v. destruct (mineable p !! (c, n)) as [[t0 z]|]; simpl;
      rw lookup_insert; case_decide; naive_solver.
  - intros k e. destruct (mineable p !! (c, n)) as [[]|]; apply C5.
  - intros c' n' v. destruct (mineable p !! (c, n)) as [[t0 z]|]; simpl;
      rw lookup_insert; (case_decide as Hd; [injection Hd as -> ->; done|apply Hf]).
Qed.

Lemma admit_one_wf r tx p : pool_wf p → pool_wf (admit_one r p tx).
Proof.
  intros [Hc Hf]. unfold admit_one. destruct (tx_key tx) as [c n] eqn:Hk.
  case_eq (n <=? hi p c)%N; [done|intros _].
  case_eq (bool_decide (is_Some (inflight p !! (c, n)))); [done|intros Hi%not_inflight].
  split.
  - apply mark_inflight_core; [by apply mineable_remove_core| | |done].
    + by rw mineable_remove_lookup decide_True.
    + by destruct (mineable_remove_frame (c, n) p) as [-> _].
  - intros c'. apply mark_inflight_fresh, mineable_remove_fresh, Hf.
Qed.

Lemma touch_round_wf r p : pool_wf p → pool_wf (touch_round r p).
Proof. intros [Hc Hf]. split; [by apply touch_round_core|done]. Qed.

Lemma admit_proposal_wf b r p : pool_wf p → pool_wf (admit_proposal b r p).
Proof.
  intros. unfold admit_proposal. apply foldl_inv; [|by apply touch_round_wf].
  intros; by apply admit_one_wf.
Qed.

Lemma mineable_take_wf k tx sz r p :
  pool_wf p → mineable p !! k = Some (tx, sz) →
  pool_wf (mark_inflight k tx sz r (mineable_remove k p)).
Proof.
  intros [Hc Hf] Hk. split.
  - apply mark_inflight_core; [by apply mineable_remove_core| | |].
    + by rw mineable_remove_lookup decide_True.
    + destruct (mineable_remove_frame k p) as [-> _]. by eapply pc_disjoint.
    + by apply (pc_keys _ Hc _ _ Hk).
  - intros c. apply mark_inflight_fresh, mineable_remove_fresh, Hf.
Qed.

Lemma mineable_remove_size k p v :
  mineable p !! k = Some v → size (mineable p) = S (size (mineable (mineable_remove k p))).
Proof.
  intros E. unfold mineable_remove. rw E. destruct v; simpl.
  rw -{1}(insert_id _ _ _ E) -insert_delete_eq map_size_insert_None //.
  apply lookup_delete_eq.
Qed.

Lemma commit_one_core tx p : pool_core p → pool_core (commit_one p tx).
Proof.
  intros Hc. unfold commit_one. destruct (tx_key tx) as [c n] eqn:Hk.
  match goal with |- pool_core ((mineable_remove _ ?q) <| _ ::= _ |>) =>
    enough (pool_core q) as Hq by
      (apply (mineable_remove_core (c, n)) in Hq; destruct Hq; by split) end.
  destruct (inflight p !! (c, n)) as [e|] eqn:E; [|done]. simpl.
  destruct Hc as [C1 C2 C3 C4 C5].
  assert ((c, n) ∈ round_keys p (if_round e)) as Hin by (apply C3; eauto).
  unfold round_keys in Hin.
  destruct (inflight_by_round p !! if_round e) as [ks|] eqn:Er; [|set_solver]. simpl in Hin.
  split; simpl; try done.
  - intros k v Hv. rw lookup_delete. case_decide; [done|]. by eapply C1.
  - intros r k. unfold round_keys; simpl. rw lookup_delete lookup_insert.
    specialize (C3 r k). unfold round_keys in C3.
    destruct (decide (if_round e = r)) as [<-|Hr]; simpl.
    + rw Er /= in C3. rw elem_of_difference not_elem_of_singleton C3.
      case_decide; naive_solver.
    + rw C3. case_decide; [|done]. naive_solver.
  - intros k e'. rw lookup_delete. case_decide; [done|]. apply C5.
Qed.

Lemma commit_one_hi tx p c :
  hi (commit_one p tx) c =
    if decide (tx_client tx = c) then N.max (hi p c) (tx_nonce tx) else hi p c.
Proof.
  unfold commit_one, tx_key. set (c0 := tx_client tx). set (n := tx_nonce tx).
  match goal with |- hi ((mineable_remove _ ?q) <| _ ::= _ |>) _ = _ =>
    assert (∀ c, hi q c = hi p c) as Hq end.
  { intros c'. destruct (inflight p !! (c0, n)) as [e|]; [|done]. simpl.
    by destruct (inflight_by_round p !! if_round e). }
  unfold hi at 1; simpl. rw lookup_insert. case_decide as Hd; simpl.
  - subst c. rw mineable_remove_hi Hq. case_eq (hi p c0 <? n)%N;
      [intros ?%N.ltb_lt|intros ?%N.ltb_ge]; lia.
  - rw -Hq -(mineable_remove_hi (c0, n)) //.
Qed.

Lemma commit_one_mineable tx p k v :
  mineable (commit_one p tx) !! k = Some v → mineable p !! k = Some v.
Proof.
  unfold commit_one, tx_key. simpl. rw mineable_remove_lookup. case_decide; [done|].
  destruct (inflight p !! _) as [e|]; [|done]. simpl.
  by destruct (inflight_by_round p !! if_round e).
Qed.

Lemma commit_one_fresh tx p c :
  tx_client tx ≠ c → fresh_for p c → fresh_for (commit_one p tx) c.
Proof.
  intros Hne Hf n v Hv%commit_one_mineable. rw commit_one_hi decide_False //. by eapply Hf.
Qed.

Lemma sweep_spec p (ks : list TxKey) :
  let p' := foldl (λ p k, mineable_remove k p) p ks in
  (pool_core p → pool_core p') ∧
  (∀ c', hi p' c' = hi p c') ∧
  (∀ k v, mineable p' !! k = Some v ↔ mineable p !! k = Some v ∧ k ∉ ks).
Proof.
  revert p. induction ks as [|k ks IH]; intros p; simpl.
  { split; [done|]. split; [done|]. intros. split; [|naive_solver].
    intros; split; [done|apply not_elem_of_nil]. }
  destruct (IH (mineable_remove k p)) as (I1 & I2 & I3). split; [|split].
  - intros. by apply I1, mineable_remove_core.
  - intros c'. by rw I2 mineable_remove_hi.
  - intros k' v. rw I3 mineable_remove_lookup not_elem_of_cons. case_decide; naive_solver.
Qed.

Lemma sweep_client_core p c : pool_core p → pool_core (sweep_client p c).
Proof. apply sweep_spec. Qed.
Lemma sweep_client_hi p c c' : hi (sweep_client p c) c' = hi p c'.
Proof. apply sweep_spec. Qed.
Lemma sweep_client_mineable p c k v :
  mineable (sweep_client p c) !! k = Some v ↔
  mineable p !! k = Some v ∧ ¬ (k.1 = c ∧ (k.2 ≤ hi p c)%N).
Proof.
  unfold sweep_client. destruct (sweep_spec p (btree_range (mineable p) c (hi p c)))
    as (_ & _ & ->). rw btree_range_spec. naive_solver.
Qed.

Lemma sweep_clients_wf p cs :
  pool_core p → (∀ c, c ∉ cs → fresh_for p c) → pool_wf (foldl sweep_client p cs).
Proof.
  revert p. induction cs as [|c cs IH]; intros p Hc Hf; simpl.
  { split; [done|]. intros. apply Hf, not_elem_of_nil. }
  apply IH; [by apply sweep_client_core|]. intros c' Hc' n v.
  rw sweep_client_mineable sweep_client_hi /=. intros [Hv Hn].
  destruct (decide (c' = c)) as [->|]; [lia|].
  eapply (Hf c'); [|done]. by apply not_elem_of_cons.
Qed.

Lemma commit_marks_spec p txs :
  (pool_core p → pool_core (foldl commit_one p txs)) ∧
  (∀ c, c ∉ tx_client <$> txs → fresh_for p c → fresh_for (foldl commit_one p txs) c).
Proof.
  revert p. induction txs as [|tx txs IH]; intros p; simpl; [done|].
  destruct (IH (commit_one p tx)) as [I1 I2]. split.
  - intros. by apply I1, commit_one_core.
  - intros c [Hne Hn]%not_elem_of_cons Hf. apply I2; [done|]. by apply commit_one_fresh.
Qed.

Lemma drop_empty_round_wf r p :
  inflight_by_round p !! r = Some ∅ → pool_wf p →
  pool_wf (p <| inflight_by_round ::= delete r |>).
Proof.
  intros Hr [[C1 C2 C3 C4 C5] Hf]. split; [|done]. split; try done.
  intros r' k. specialize (C3 r' k). unfold round_keys in *; simpl.
  rw lookup_delete. case_decide; [|done]. subst. by rw Hr in C3.
Qed.

Lemma commit_wf b r p : pool_wf p → pool_wf (commit b r p).
Proof.
  intros [Hc Hf]. unfold commit.
  destruct (commit_marks_spec p (payload b)) as [I1 I2].
  set (q := foldl commit_one p (payload b)) in *.
  set (cs := elements _).
  assert (pool_wf (foldl sweep_client q cs)) as Hq.
  { apply sweep_clients_wf; [auto|]. intros c Hcs. apply I2; [|done].
    intros Hin. apply Hcs. unfold cs. by apply elem_of_elements, elem_of_list_to_set. }
  destruct (inflight_by_round _ !! r) as [ks|] eqn:E; [|done].
  case_bool_decide; [|done]. subst ks. by apply drop_empty_round_wf.
Qed.
End pool_facts.

(** ** Mining a batch *)
Section make_batch_facts.
Context `{MempoolTx Tx}.
Implicit Types (p : Txpool Tx) (k : TxKey) (v : Tx * N) (l : list (Tx * N)).

(** The successive rounds of the mining loop: [l] lists what was popped. *)
Inductive takes (r : N) : N → Txpool Tx → list (Tx * N) → Txpool Tx → Prop :=
  | takes_stop bytes p :
      (batch_size p ≤ bytes)%N ∨ mineable p = ∅ → takes r bytes p [] p
  | takes_step bytes p k v l p' :
      (bytes < batch_size p)%N → btree_first (mineable p) = Some k →
      mineable p !! k = Some v →
      takes r (add64 bytes v.2) (mark_inflight k v.1 v.2 r (mineable_remove k p)) l p' →
      takes r bytes p (v :: l) p'.

Lemma make_batch_loop_takes fuel r bytes out p :
  size (mineable p) < fuel →
  ∃ l p', make_batch_loop fuel r bytes out p = Done (out ++ l.*1) p' ∧ takes r bytes p l p'.
Proof.
  revert bytes out p. induction fuel as [|fuel IH]; intros bytes out p Hlt; [lia|]. simpl.
  case_eq (bytes <? batch_size p)%N; [intros Hb%N.ltb_lt|intros Hb%N.ltb_ge].
  2:{ exists [], p. rw app_nil_r. eauto using takes. }
  destruct (btree_first (mineable p)) as [k|] eqn:Ek.
  2:{ exists [], p. rw app_nil_r. eauto using takes, btree_first_None. }
  destruct (btree_first_Some _ _ Ek) as [[[tx sz] Hv] _]. rw Hv.
  edestruct (IH (add64 bytes sz) (out ++ [tx])
    (mark_inflight k tx sz r (mineable_remove k p))) as (l & p' & E & Ht).
  { simpl. pose proof (mineable_remove_size k p _ Hv). lia. }
  exists ((tx, sz) :: l), p'. split; [|by eapply takes_step].
  rw E fmap_cons -app_assoc //.
Qed.

Lemma make_batch_takes r p :
  ∃ l p', make_batch r p = Done l.*1 (reset_timer p') ∧ takes r 0 (touch_round r p) l p'.
Proof.
  unfold make_batch.
  destruct (make_batch_loop_takes (S (size (mineable p))) r 0 [] (touch_round r p))
    as (l & p' & -> & Ht); [simpl; lia|]. eauto.
Qed.

Lemma reset_timer_wf p : pool_wf p → pool_wf (reset_timer p).
Proof. intros [[] ?]. by split; [split|]. Qed.

Lemma takes_wf r bytes p l p' : takes r bytes p l p' → pool_wf p → pool_wf p'.
Proof. induction 1 as [|???[tx sz]]; eauto using mineable_take_wf. Qed.

(** Watermarks and the budget are untouched. *)
Lemma takes_frame r bytes p l p' :
  takes r bytes p l p' →
  high_committed_nonce p' = high_committed_nonce p ∧ batch_size p' = batch_size p.
Proof.
  induction 1 as [|bytes p k v l p' ??? ? IH]; [done|]. simpl in IH.
  destruct (mineable_remove_frame k p) as (_ & _ & E1 & E2). by rw -E1 -E2.
Qed.

(** What is popped was mineable, in key order, below whatever is left. *)
Lemma takes_mineable r bytes p l p' :
  takes r bytes p l p' → pool_wf p →
  Forall (λ v, mineable p !! tx_key v.1 = Some v) l ∧
  StronglySorted key_le (tx_key <$> l.*1) ∧ NoDup (tx_key <$> l.*1) ∧
  (∀ k v, mineable p' !! k = Some v ↔ mineable p !! k = Some v ∧ k ∉ tx_key <$> l.*1) ∧
  (∀ k k' v, k ∈ tx_key <$> l.*1 → mineable p' !! k' = Some v → key_le k k').
Proof.
  induction 1 as [bytes p|bytes p k v l p' Hb Hk Hv Ht IH]; intros Hwf; simpl.
  { split; [constructor|]. split; [constructor|]. split; [constructor|]. split.
    - intros; split; [|naive_solver]. intros; split; [done|apply not_elem_of_nil].
    - by intros ??? ?%not_elem_of_nil. }
  destruct IH as (I1 & I2 & I3 & I4 & I5); [destruct v; by apply mineable_take_wf|].
  assert (tx_key v.1 = k) as Hkey by (by apply (pc_keys _ (pw_core _ Hwf))).
  destruct (btree_first_Some _ _ Hk) as [_ Hmin].
  assert (Forall (λ v', mineable p !! tx_key v'.1 = Some v' ∧ tx_key v'.1 ≠ k) l) as I1'.
  { eapply Forall_impl; [exact I1|]. intros v'. simpl.
    rw mineable_remove_lookup. case_decide; naive_solver. }
  assert (∀ k', k' ∈ tx_key <$> l.*1 → k' ≠ k ∧ ∃ v', mineable p !! k' = Some v') as Hl.
  { intros k' (? & -> & (v' & -> & Hin)%list_elem_of_fmap)%list_elem_of_fmap.
    rw Forall_forall in I1'. destruct (I1' v' Hin). eauto. }
  split; [|split; [|split; [|split]]].
  - constructor; [by rw Hkey|]. eapply Forall_impl; [exact I1'|]. naive_solver.
  - rw Hkey. constructor; [done|]. apply Forall_forall.
    intros k' [_ [??]]%Hl. by eapply Hmin.
  - rw Hkey. constructor; [|done]. intros [? _]%Hl. done.
  - intros k' v'. simpl in I4. rw I4 mineable_remove_lookup not_elem_of_cons Hkey.
    case_decide; naive_solver.
  - intros k1 k' v' Hk1 Hv'. rw Hkey in Hk1. apply elem_of_cons in Hk1 as [->|?]; [|eauto].
    apply I4 in Hv' as [Hv' _]. simpl in Hv'. rw mineable_remove_lookup in Hv'.
    case_decide; [done|]. by eapply Hmin.
Qed.

(** What is popped is in flight at round [r]; nothing else moves. *)
Lemma takes_inflight r bytes p l p' :
  takes r bytes p l p' → pool_wf p →
  Forall (λ v, inflight p' !! tx_key v.1 = Some (mkInflight v.1 v.2 r)) l ∧
  (∀ k, k ∉ tx_key <$> l.*1 → inflight p' !! k = inflight p !! k).
Proof.
  induction 1 as [bytes p|bytes p k v l p' Hb Hk Hv Ht IH]; intros Hwf; simpl.
  { split; [constructor|done]. }
  assert (pool_wf (mark_inflight k v.1 v.2 r (mineable_remove k p))) as Hwf'
    by (destruct v; by apply mineable_take_wf).
  destruct (IH Hwf') as [I1 I2]. simpl in I2.
  assert (tx_key v.1 = k) as Hkey by (by apply (pc_keys _ (pw_core _ Hwf))).
  destruct (mineable_remove_frame k p) as (E1 & _).
  split.
  - constructor; [|done]. rw Hkey I2; [by rw lookup_insert_eq|].
    destruct (takes_mineable _ _ _ _ _ Ht Hwf') as (J1 & _).
    intros (? & -> & (v' & -> & Hin)%list_elem_of_fmap)%list_elem_of_fmap.
    rw Forall_forall in J1. specialize (J1 v' Hin). simpl in J1.
    by rw mineable_remove_lookup decide_True in J1.
  - intros k' [Hne Hn]%not_elem_of_cons. rw I2 // lookup_insert_ne ?E1 //. congruence.
Qed.

Definition sizes l : N := foldr (λ v acc, v.2 + acc)%N 0%N l.

(** The budget: everything but the last transaction fits in [batch_size],
    and mining stops only when the budget is reached or nothing is left. *)
Lemma takes_budget r bytes p l p' :
  takes r bytes p l p' → (bytes + total_size (mineable p) < u64_size)%N →
  (∀ l' v, l = l' ++ [v] → bytes + sizes l' < batch_size p)%N ∧
  (mineable p' = ∅ ∨ batch_size p ≤ bytes + sizes l)%N.
Proof.
  induction 1 as [bytes p Hs|bytes p k v l p' Hb Hk Hv Ht IH]; intros Hlt; simpl.
  { split; [by intros [] ?|]. destruct Hs; [right; lia|by left]. }
  assert (total_size (mineable p) = v.2 + total_size (mineable (mineable_remove k p)))%N as Etot.
  { unfold mineable_remove. rw Hv. destruct v. by apply total_size_delete. }
  destruct (mineable_remove_frame k p) as (_ & _ & _ & Ebs).
  assert (add64 bytes v.2 = bytes + v.2)%N as Eadd by (apply add64_small; lia).
  rw Eadd /= Ebs in IH. destruct IH as [I1 I2]; [lia|]. split.
  - intros [|v' l'] v1 E; simpl in *; injection E as <- E; [lia|].
    specialize (I1 l' v1 E). lia.
  - destruct I2; [by left|right; lia].
Qed.
End make_batch_facts.

(** ** Rolling back *)
Section rollback_facts.
Context `{MempoolTx Tx}.
Implicit Types (p q : Txpool Tx) (k : TxKey).

(** [q] is a pool in the middle of rolling back round [r]: its index has
    lost [r], and [rest] is what is still to be moved. *)
Definition rolling (r : N) (rest : list TxKey) q : Prop :=
  pool_wf (q <| inflight_by_round ::= insert r (list_to_set rest) |>).

Lemma rolling_index r rest q :
  rolling r rest q → ∀ k, k ∈ rest ↔ ∃ e, inflight q !! k = Some e ∧ if_round e = r.
Proof.
  intros [[_ _ C3 _ _] _] k. specialize (C3 r k). unfold round_keys in C3; simpl in C3.
  by rw lookup_insert_eq /= elem_of_list_to_set in C3.
Qed.

Lemma rolling_drop r k rest q e q' :
  rolling r (k :: rest) q → k ∉ rest → inflight q !! k = Some e →
  inflight q' = delete k (inflight q) → inflight_by_round q' = inflight_by_round q →
  high_committed_nonce q' = high_committed_nonce q →
  mineable_bytes q' = wrap64 (total_size (mineable q')) →
  (∀ k' v, mineable q' !! k' = Some v →
     mineable q !! k' = Some v ∨ (k' = k ∧ tx_key v.1 = k ∧ (hi q k.1 < k.2)%N)) →
  rolling r rest q'.
Proof.
  intros Hr Hk He E1 E2 E3 Hb Hm. pose proof (rolling_index _ _ _ Hr) as Hix.
  destruct Hr as [[C1 C2 C3 C4 C5] Hf]; simpl in *. split; [split|]; simpl.
  - intros k' v Hv. rw E1 lookup_delete. case_decide; [done|].
    destruct (Hm _ _ Hv) as [?|[-> _]]; [by eapply C1|done].
  - done.
  - intros r' k'. unfold round_keys; simpl. rw E1 E2 lookup_insert lookup_delete.
    specialize (C3 r' k'). unfold round_keys in C3; simpl in C3. rw lookup_insert in C3.
    case_decide; simpl in *.
    + rw elem_of_list_to_set. rw elem_of_union elem_of_singleton
        elem_of_list_to_set in C3. case_decide; naive_solver.
    + rw C3. case_decide; [|done]. split; [|naive_solver]. intros (e' & ? & ?).
      exfalso. destruct (proj1 (Hix k)) as (e'' & ? & ?); [constructor|]. naive_solver.
  - intros k' v Hv. destruct (Hm _ _ Hv) as [?|(-> & ? & _)]; eauto.
  - intros k' e'. rw E1 lookup_delete. case_decide; [done|]. apply C5.
  - intros c n v Hv. simpl in Hv. specialize (Hf c). unfold fresh_for, hi in *; simpl in *.
    rw E3. destruct (Hm _ _ Hv) as [?|(<- & _ & ?)]; eauto.
Qed.

Lemma rollback_key_rolling r k rest q :
  rolling r (k :: rest) q → k ∉ rest → rolling r rest (rollback_key q k).
Proof.
  intros Hr Hk. destruct (proj1 (rolling_index _ _ _ Hr k)) as (e & He & _); [constructor|].
  pose proof Hr as [[C1 C2 C3 C4 C5] Hf]; simpl in *.
  unfold rollback_key. destruct k as [c n].
  case_eq (n <=? hi q c)%N; [intros Hn|intros Hn%N.leb_gt; rw He].
  - eapply rolling_drop; try done; naive_solver.
  - assert (mineable q !! (c, n) = None) as Hm.
    { apply eq_None_not_Some. intros [v Hv]. apply C1 in Hv. congruence. }
    eapply rolling_drop; try done; simpl.
    + rw C2 add64_wrap total_size_insert //.
    + intros k' v. rw lookup_insert. case_decide; [|by left]. intros [= <-]. right.
      split; [done|]. split; [by apply C5|done].
Qed.

Lemma rollback_round_wf r p : pool_wf p → pool_wf (rollback_round p r).
Proof.
  intros Hwf. unfold rollback_round.
  destruct (inflight_by_round p !! r) as [ks|] eqn:Er; [|done].
  assert (∀ l q, NoDup l → rolling r l q → rolling r [] (foldl rollback_key q l)) as Hfold.
  { induction l as [|k l IH]; intros q Hnd Hq; [done|]. apply NoDup_cons in Hnd as [??].
    simpl. apply IH; [done|]. by apply rollback_key_rolling. }
  assert (∀ q, inflight_by_round q !! r = None → rolling r [] q → pool_wf q) as Hend.
  { intros q Hq [[C1 C2 C3 C4 C5] Hf]. split; [|done]. split; try done.
    intros r' k. specialize (C3 r' k). unfold round_keys in *; simpl in C3.
    rw lookup_insert in C3. case_decide; [|done]. subst. by rw Hq. }
  apply Hend.
  - enough (∀ l q, inflight_by_round (foldl rollback_key q l) = inflight_by_round q) as ->
      by apply lookup_delete_eq.
    clear. induction l as [|[c n] l IH]; intros q; [done|]. simpl. rw IH.
    unfold rollback_key. destruct (n <=? hi q c)%N; [done|]. by destruct (inflight q !! _).
  - apply Hfold; [apply NoDup_elements|]. unfold rolling; simpl.
    destruct Hwf as [[C1 C2 C3 C4 C5] Hf]. split; [|done]. split; try done.
    intros r' k. specialize (C3 r' k). unfold round_keys in *; simpl.
    rw lookup_insert lookup_delete. case_decide; [subst|done].
    rw Er in C3. simpl in *. by rw elem_of_list_to_set elem_of_elements C3.
Qed.

Lemma rollback_wf rs p : pool_wf p → pool_wf (rollback rs p).
Proof. intros. unfold rollback. apply foldl_inv; [|done]. intros; by apply rollback_round_wf. Qed.

(** The effect of moving a list of in-flight keys back. *)
Lemma rollback_keys_spec l q :
  NoDup l → (∀ k, k ∈ l → is_Some (inflight q !! k)) →
  let q' := foldl rollback_key q l in
  (∀ c, hi q' c = hi q c) ∧
  (∀ k, inflight q' !! k = if decide (k ∈ l) then None else inflight q !! k) ∧
  (∀ k, mineable q' !! k =
    match inflight q !! k with
    | Some e => if decide (k ∈ l ∧ (hi q k.1 < k.2)%N)
                then Some (if_tx e, if_size e) else mineable q !! k
    | None => mineable q !! k
    end).
Proof.
  revert q. induction l as [|k l IH]; intros q Hnd Hl; cbv zeta; cbn [foldl].
  { split; [done|]. split; intros k; [by destruct (decide (k ∈ [])) as [?%not_elem_of_nil|]|].
    destruct (inflight q !! k); [|done].
    by destruct (decide _) as [[?%not_elem_of_nil _]|]. }
  apply NoDup_cons in Hnd as [Hk Hnd]. destruct (Hl k) as [e He]; [constructor|].
  assert (∀ c, hi (rollback_key q k) c = hi q c) as Hhi.
  { intros c'. unfold rollback_key. destruct k as [c n].
    destruct (n <=? hi q c)%N; [done|]. by rw He. }
  assert (inflight (rollback_key q k) = delete k (inflight q)) as Hin.
  { unfold rollback_key. destruct k as [c n]. destruct (n <=? hi q c)%N; [done|]. by rw He. }
  assert (mineable (rollback_key q k) = if decide (hi q k.1 < k.2)%N
    then <[k := (if_tx e, if_size e)]> (mineable q) else mineable q) as Hmi.
  { unfold rollback_key. destruct k as [c n]; simpl. case_eq (n <=? hi q c)%N.
    - intros ?%N.leb_le. rw decide_False //. lia.
    - intros ?%N.leb_gt. rw decide_True // He //. }
  destruct (IH (rollback_key q k) Hnd) as (I1 & I2 & I3).
  { intros k' Hk'. rw Hin lookup_delete_ne; [apply Hl; by constructor|]. by intros ->. }
  split; [|split].
  - intros c. by rw I1 Hhi.
  - intros k'. rw I2 Hin lookup_delete. repeat case_decide; set_solver.
  - intros k'. rw I3 Hin lookup_delete Hhi Hmi. destruct (decide (k = k')) as [<-|Hne].
    + rw He. destruct (decide (hi q k.1 < k.2)%N) as [Hlt|Hlt];
        destruct (decide (k ∈ k :: l ∧ _)) as [Hd|Hd]; rw ?lookup_insert_eq //.
      * exfalso. apply Hd. split; [constructor|done].
      * by destruct Hd.
    + assert ((if decide (hi q k.1 < k.2)%N
               then <[k := (if_tx e, if_size e)]> (mineable q) else mineable q) !! k' =
              mineable q !! k') as -> by (destruct (decide _); rw ?lookup_insert_ne //).
      destruct (inflight q !! k') as [e'|]; [|done]. pose proof (elem_of_cons l k' k).
      clear -Hne H1. destruct (decide (k' ∈ l ∧ _)), (decide (k' ∈ k :: l ∧ _)); naive_solver.
Qed.
(** A whole round moved back. *)
Lemma rollback_round_spec r p :
  pool_wf p →
  (∀ k, inflight (rollback_round p r) !! k =
     if decide (k ∈ round_keys p r) then None else inflight p !! k) ∧
  (∀ k, mineable (rollback_round p r) !! k =
     match inflight p !! k with
     | Some e => if decide (k ∈ round_keys p r ∧ (hi p k.1 < k.2)%N)
                 then Some (if_tx e, if_size e) else mineable p !! k
     | None => mineable p !! k
     end).
Proof.
  intros Hwf. unfold rollback_round, round_keys.
  destruct (inflight_by_round p !! r) as [ks|] eqn:Er; cbn [default].
  2:{ split; intros k; [by destruct (decide (k ∈ ∅)) as [?%not_elem_of_empty|]|].
      destruct (inflight p !! k); [|done].
      by destruct (decide _) as [[?%not_elem_of_empty _]|]. }
  assert (∀ k, k ∈ elements ks → is_Some (inflight p !! k)) as Hks.
  { intros k Hk%elem_of_elements. pose proof (pc_index _ (pw_core _ Hwf) r k) as Hix.
    unfold round_keys in Hix. rw Er in Hix. apply Hix in Hk as (e & -> & _). eauto. }
  destruct (rollback_keys_spec (elements ks) (p <| inflight_by_round ::= delete r |>))
    as (_ & J2 & J3); [apply NoDup_elements|done|].
  split; intros k; [rw J2|rw J3]; simpl; pose proof (elem_of_elements ks k) as He; clear -He.
  - repeat case_decide; naive_solver.
  - destruct (inflight p !! k); [|done].
    destruct (decide (k ∈ elements ks ∧ _)), (decide (k ∈ ks ∧ _)); naive_solver.
Qed.
End rollback_facts.

(** ** Histories of the pool

    The batcher drives the pool through these calls only, one at a time. *)
Inductive pool_op `{Crypto} {Tx : Type} :=
  | OpAdd (tx : Tx) (size : N)
  | OpMake (round : N)
  | OpAdmit (batch : CachedBatch Tx) (round : N)
  | OpCommit (batch : CachedBatch Tx) (round : N)
  | OpRollback (rounds : list N).
Arguments pool_op {_} Tx.

Section history.
Context `{MempoolTx Tx}.
Implicit Types (p q : Txpool Tx) (o : pool_op Tx).

(** The value is the batch that was mined, if the call mines. *)
Definition pool_step o p : outcome (Txpool Tx) (list Tx) :=
  match o with
  | OpAdd tx size => Done [] (add_tx tx size p)
  | OpMake r => make_batch r p
  | OpAdmit b r => Done [] (admit_proposal b r p)
  | OpCommit b r => Done [] (commit b r p)
  | OpRollback rs => Done [] (rollback rs p)
  end.

(** The batches mined along a history, in order. *)
Fixpoint pool_run (ops : list (pool_op Tx)) p : outcome (Txpool Tx) (list (list Tx)) :=
  match ops with
  | [] => Done [] p
  | o :: ops' =>
      match pool_step o p with
      | Done out p' =>
          match pool_run ops' p' with
          | Done outs p'' => Done (out :: outs) p''
          | Panicked w => Panicked w
          | OutOfFuel => OutOfFuel
          end
      | Panicked w => Panicked w
      | OutOfFuel => OutOfFuel
      end
  end.

Lemma pool_step_wf o p :
  pool_wf p → ∃ out p', pool_step o p = Done out p' ∧ pool_wf p'.
Proof.
  intros Hwf. destruct o as [tx sz|r|b r|b r|rs]; simpl.
  - eauto using add_tx_wf.
  - destruct (make_batch_takes r p) as (l & p' & -> & Ht). do 2 eexists; split; [done|].
    apply reset_timer_wf. eapply takes_wf; [done|]. by apply touch_round_wf.
  - eauto using admit_proposal_wf.
  - eauto using commit_wf.
  - eauto using rollback_wf.
Qed.

Lemma pool_run_wf ops p :
  pool_wf p → ∃ outs p', pool_run ops p = Done outs p' ∧ pool_wf p'.
Proof.
  revert p. induction ops as [|o ops IH]; intros p Hwf; simpl; [eauto|].
  destruct (pool_step_wf o p Hwf) as (out & p1 & -> & Hwf1).
  destruct (IH p1 Hwf1) as (outs & p2 & -> & ?). eauto.
Qed.

(** *** The watermark only rises *)
Lemma foldl_hi {A} (f : Txpool Tx → A → Txpool Tx) l p c :
  (∀ p a, hi (f p a) c = hi p c) → hi (foldl f p l) c = hi p c.
Proof. intros Hf. revert p. induction l as [|a l IH]; intros p; simpl; [done|]. by rw IH Hf. Qed.

Lemma add_tx_hi tx sz p c : hi (add_tx tx sz p) c = hi p c.
Proof.
  unfold add_tx. destruct (tx_key tx) as [c' n]. destruct (n <=? hi p c')%N; [done|].
  destruct (bool_decide _); [done|]. by destruct (mineable p !! _) as [[]|].
Qed.

Lemma admit_proposal_hi b r p c : hi (admit_proposal b r p) c = hi p c.
Proof.
  unfold admit_proposal. rw foldl_hi; [done|]. intros q tx. unfold admit_one.
  destruct (tx_key tx) as [c' n]. destruct (n <=? hi q c')%N; [done|].
  destruct (bool_decide _); [done|]. apply mineable_remove_hi.
Qed.

Lemma rollback_hi rs p c : hi (rollback rs p) c = hi p c.
Proof.
  unfold rollback. apply foldl_hi. intros q r. unfold rollback_round.
  destruct (inflight_by_round q !! r) as [ks|]; [|done].
  rw foldl_hi; [done|]. clear. intros q [c' n]. unfold rollback_key.
  destruct (n <=? hi q c')%N; [done|]. by destruct (inflight q !! _).
Qed.

Lemma make_batch_hi r p out p' c : make_batch r p = Done out p' → hi p' c = hi p c.
Proof.
  destruct (make_batch_takes r p) as (l & q & -> & Ht). intros [= <- <-].
  unfold hi; simpl. by destruct (takes_frame _ _ _ _ _ Ht) as [-> _].
Qed.

Lemma commit_marks_hi txs p c :
  (hi p c ≤ hi (foldl commit_one p txs) c)%N ∧
  ∀ tx, tx ∈ txs → tx_client tx = c → (tx_nonce tx ≤ hi (foldl commit_one p txs) c)%N.
Proof.
  revert p. induction txs as [|t txs IH]; intros p; simpl.
  { split; [done|]. by intros ? ?%not_elem_of_nil. }
  destruct (IH (commit_one p t)) as [I1 I2]. pose proof (commit_one_hi t p c) as E.
  split; [case_decide; lia|]. intros tx [->|?]%elem_of_cons Hc; [|by apply I2].
  rw decide_True // in E. lia.
Qed.

Lemma commit_marks_hi_exact txs p c :
  hi (foldl commit_one p txs) c = hi p c ∨
  ∃ tx, tx ∈ txs ∧ tx_client tx = c ∧ hi (foldl commit_one p txs) c = tx_nonce tx.
Proof.
  revert p. induction txs as [|t txs IH]; intros p; simpl; [by left|].
  destruct (IH (commit_one p t)) as [E|(tx & ? & ? & E)].
  - rw commit_one_hi in E. case_decide; [|by left].
    destruct (N.max_spec (hi p c) (tx_nonce t)) as [[_ Em]|[_ Em]]; rw Em in E; [right|by left].
    exists t. split; [constructor|done].
  - right. exists tx. split; [by constructor|done].
Qed.

Lemma commit_hi b r p c : hi (commit b r p) c = hi (foldl commit_one p (payload b)) c.
Proof.
  unfold commit. set (q := foldl commit_one p (payload b)). set (q' := foldl sweep_client q _).
  assert (hi q' c = hi q c) as <- by (apply foldl_hi; intros; apply sweep_client_hi).
  destruct (inflight_by_round q' !! r) as [ks|]; [|done]. by destruct (bool_decide _).
Qed.

Lemma pool_step_hi o p out p' c : pool_step o p = Done out p' → (hi p c ≤ hi p' c)%N.
Proof.
  destruct o as [tx sz|r|b r|b r|rs]; simpl.
  - intros [= _ <-]. by rw add_tx_hi.
  - intros E. by rw (make_batch_hi _ _ _ _ _ E).
  - intros [= _ <-]. by rw admit_proposal_hi.
  - intros [= _ <-]. rw commit_hi. apply commit_marks_hi.
  - intros [= _ <-]. by rw rollback_hi.
Qed.

(** Only [OpMake] yields transactions, and only mineable ones. *)
Lemma pool_step_out o p out p' :
  pool_wf p → pool_step o p = Done out p' →
  ∀ tx, tx ∈ out → ∃ v, mineable p !! tx_key tx = Some v.
Proof.
  intros Hwf E tx Hin. destruct o as [tx' sz|r|b r|b r|rs]; simpl in E;
    try (injection E as <- <-; by apply not_elem_of_nil in Hin).
  destruct (make_batch_takes r p) as (l & q & E' & Ht). rw E' in E. injection E as <- <-.
  destruct (takes_mineable _ _ _ _ _ Ht) as (J1 & _); [by apply touch_round_wf|].
  apply list_elem_of_fmap in Hin as (v & -> & Hin).
  rw Forall_forall in J1. exists v. apply (J1 v Hin).
Qed.

Lemma pool_run_out ops p outs p' :
  pool_wf p → pool_run ops p = Done outs p' →
  ∀ out tx, out ∈ outs → tx ∈ out → (hi p (tx_client tx) < tx_nonce tx)%N.
Proof.
  revert p outs. induction ops as [|o ops IH]; intros p outs Hwf; simpl.
  { intros [= <- <-] ?? ?%not_elem_of_nil. done. }
  destruct (pool_step_wf o p Hwf) as (out1 & p1 & E1 & Hwf1). rw E1.
  destruct (pool_run ops p1) as [outs' p2| |] eqn:E; [|done..]. intros [= <- ->].
  intros out tx [->|Hout]%elem_of_cons Hin.
  - destruct (pool_step_out _ _ _ _ Hwf E1 tx Hin) as [v Hv].
    by apply (pw_fresh _ Hwf _ _ v).
  - pose proof (IH _ _ Hwf1 E _ _ Hout Hin). pose proof (pool_step_hi _ _ _ _ (tx_client tx) E1).
    lia.
Qed.
End history.

(** ** What each call moves *)
Section movement.
Context `{MempoolTx Tx}.
Implicit Types (p q : Txpool Tx) (k : TxKey).

Lemma commit_one_inflight tx p k :
  inflight (commit_one p tx) !! k = if decide (tx_key tx = k) then None else inflight p !! k.
Proof.
  unfold commit_one. destruct (tx_key tx) as [c n]. simpl.
  match goal with |- inflight (mineable_remove ?k ?q) !! _ = _ =>
    destruct (mineable_remove_frame k q) as (-> & _) end.
  destruct (inflight p !! (c, n)) as [e|] eqn:E; simpl.
  - destruct (inflight_by_round p !! if_round e); simpl; rw lookup_delete //.
  - case_decide; [by subst|done].
Qed.

Lemma commit_marks_inflight txs p k :
  inflight (foldl commit_one p txs) !! k =
    if decide (k ∈ tx_key <$> txs) then None else inflight p !! k.
Proof.
  revert p. induction txs as [|tx txs IH]; intros p; cbn [foldl fmap list_fmap].
  { destruct (decide (k ∈ [])) as [?%not_elem_of_nil|]; done. }
  rw IH commit_one_inflight. pose proof (elem_of_cons (tx_key <$> txs) k (tx_key tx)) as Hc.
  clear IH. repeat case_decide; naive_solver.
Qed.

Lemma sweep_inflight cs p : inflight (foldl sweep_client p cs) = inflight p.
Proof.
  revert p. induction cs as [|c cs IH]; intros p; [done|]. simpl. rw IH. unfold sweep_client.
  generalize (btree_range (mineable p) c (hi p c)). intros ks. revert p.
  induction ks as [|k ks IHk]; intros p; [done|]. simpl. rw IHk.
  apply (mineable_remove_frame k p).
Qed.

Lemma commit_inflight b r p k :
  inflight (commit b r p) !! k =
    if decide (k ∈ tx_key <$> payload b) then None else inflight p !! k.
Proof.
  rw -commit_marks_inflight. unfold commit. set (q := foldl commit_one p (payload b)).
  set (q' := foldl sweep_client q _). assert (inflight q = inflight q') as ->
    by (symmetry; apply sweep_inflight).
  destruct (inflight_by_round q' !! r); [|done]. by destruct (bool_decide _).
Qed.

Lemma sweep_mineable cs p k v :
  mineable (foldl sweep_client p cs) !! k = Some v ↔
  mineable p !! k = Some v ∧ ¬ (k.1 ∈ cs ∧ (k.2 ≤ hi p k.1)%N).
Proof.
  revert p. induction cs as [|c cs IH]; intros p; cbn [foldl].
  { split; [|naive_solver]. intros; split; [done|]. by intros [?%not_elem_of_nil _]. }
  rw IH sweep_client_mineable sweep_client_hi elem_of_cons.
  destruct (decide (k.1 = c)) as [<-|]; naive_solver.
Qed.

Lemma commit_marks_mineable txs p k v :
  mineable (foldl commit_one p txs) !! k = Some v ↔
  mineable p !! k = Some v ∧ k ∉ tx_key <$> txs.
Proof.
  revert p. induction txs as [|tx txs IH]; intros p; cbn [foldl fmap list_fmap].
  { split; [|naive_solver]. intros; split; [done|apply not_elem_of_nil]. }
  rw IH not_elem_of_cons. unfold commit_one at 1. destruct (tx_key tx) as [c n]. simpl.
  rw mineable_remove_lookup.
  assert (mineable match inflight p !! (c, n) with
    | Some e => match inflight_by_round p !! if_round e with
      | Some ks => p <| inflight ::= delete (c, n) |>
          <| inflight_by_round ::= insert (if_round e) (ks ∖ {[(c, n)]}) |>
      | None => p <| inflight ::= delete (c, n) |> end
    | None => p end = mineable p) as Ep.
  { destruct (inflight p !! (c, n)) as [e|]; [|done].
    by destruct (inflight_by_round p !! if_round e). }
  simpl in Ep. rw Ep. case_decide; naive_solver.
Qed.

Lemma commit_mineable b r p k v :
  pool_wf p →
  mineable (commit b r p) !! k = Some v ↔
  mineable p !! k = Some v ∧ (hi (commit b r p) k.1 < k.2)%N.
Proof.
  intros Hwf. split.
  - intros Hv. split; [|destruct k; by apply (pw_fresh _ (commit_wf b r p Hwf) _ _ v)].
    revert Hv. unfold commit. set (q' := foldl sweep_client _ _).
    intros Hv. assert (mineable q' !! k = Some v) as Hq.
    { destruct (inflight_by_round q' !! r); [|done]. by destruct (bool_decide _). }
    by apply sweep_mineable in Hq as [[? _]%commit_marks_mineable _].
  - intros [Hv Hlt]. rw commit_hi in Hlt.
    enough (mineable (foldl sweep_client (foldl commit_one p (payload b))
      (elements (list_to_set (tx_client <$> payload b) : gset N))) !! k = Some v) as Hq.
    { unfold commit. destruct (inflight_by_round _ !! r); [|done]. by destruct (bool_decide _). }
    apply sweep_mineable. split; [|lia]. apply commit_marks_mineable. split; [done|].
    intros (tx & -> & Hin)%list_elem_of_fmap.
    pose proof (proj2 (commit_marks_hi (payload b) p (tx_client tx)) tx Hin eq_refl).
    simpl in *. lia.
Qed.

(** A key is spent when it is in flight or at or below the watermark. *)
Definition spent p k : Prop := is_Some (inflight p !! k) ∨ (k.2 ≤ hi p k.1)%N.

Lemma spent_not_mineable p k : pool_wf p → spent p k → mineable p !! k = None.
Proof.
  intros Hwf Hs. destruct (mineable p !! k) as [v|] eqn:Hv; [|done]. exfalso.
  destruct Hs as [[e He]|Hle].
  - pose proof (pc_disjoint _ (pw_core _ Hwf) _ _ Hv). congruence.
  - destruct k as [c n]. pose proof (pw_fresh _ Hwf _ _ _ Hv). simpl in *. lia.
Qed.

Lemma spent_mono p q k :
  (hi p k.1 ≤ hi q k.1)%N → (is_Some (inflight p !! k) → spent q k) → spent p k → spent q k.
Proof. intros ? Hi [Hs|?]; [auto|right; lia]. Qed.

Lemma admit_inflight b r p k :
  is_Some (inflight p !! k) → is_Some (inflight (admit_proposal b r p) !! k).
Proof.
  intros Hk. unfold admit_proposal. apply foldl_inv; [|done]. clear Hk.
  intros q tx _ Hk. unfold admit_one. destruct (tx_key tx) as [c n].
  destruct (n <=? hi q c)%N; [done|]. destruct (bool_decide _); [done|]. simpl.
  destruct (mineable_remove_frame (c, n) q) as (-> & _). rw lookup_insert. case_decide; eauto.
Qed.

Lemma add_tx_inflight tx sz p : inflight (add_tx tx sz p) = inflight p.
Proof.
  unfold add_tx. destruct (tx_key tx) as [c n]. destruct (n <=? hi p c)%N; [done|].
  destruct (bool_decide _); [done|]. by destruct (mineable p !! _) as [[]|].
Qed.

(** Transactions above the watermark and not in flight become Mineable. *)
Definition acceptable p (v : Tx * N) : Prop :=
  (hi p (tx_client v.1) < tx_nonce v.1)%N ∧ inflight p !! tx_key v.1 = None.

Lemma add_tx_mineable tx sz p :
  acceptable p (tx, sz) → mineable (add_tx tx sz p) = <[tx_key tx := (tx, sz)]> (mineable p).
Proof.
  intros [Hn Hi]. unfold add_tx, tx_key in *. simpl in *.
  apply N.leb_gt in Hn. rw Hn Hi bool_decide_eq_false_2; [|by intros [??]].
  by destruct (mineable p !! _) as [[]|].
Qed.

Lemma add_txs_mineable (l : list (Tx * N)) p :
  NoDup ((λ v, tx_key v.1) <$> l) → Forall (acceptable p) l →
  let p' := foldl (λ p v, add_tx v.1 v.2 p) p l in
  (∀ v, v ∈ l → mineable p' !! tx_key v.1 = Some v) ∧
  (∀ k, k ∉ (λ v, tx_key v.1) <$> l → mineable p' !! k = mineable p !! k).
Proof.
  revert p. induction l as [|[tx sz] l IH]; intros p Hnd Ha; simpl.
  { split; [by intros ? ?%not_elem_of_nil|done]. }
  apply NoDup_cons in Hnd as [Hk Hnd]. apply Forall_cons in Ha as [Hv Ha].
  destruct (IH (add_tx tx sz p) Hnd) as [I1 I2].
  { eapply Forall_impl; [exact Ha|]. intros v [??]. split; [by rw add_tx_hi|].
    by rw add_tx_inflight. }
  split.
  - intros v [->|Hin]%elem_of_cons; [|by apply I1].
    rw I2 // add_tx_mineable // lookup_insert_eq //.
  - intros k [Hk1 Hk2]%not_elem_of_cons. rw I2 // add_tx_mineable // lookup_insert_ne //.
Qed.

Definition no_rollback (o : pool_op Tx) : bool :=
  match o with OpRollback _ => false | _ => true end.

Lemma pool_step_spent o p out p' k :
  pool_wf p → no_rollback o → pool_step o p = Done out p' →
  spent p k ∨ k ∈ tx_key <$> out → spent p' k.
Proof.
  intros Hwf Hno E Hk. pose proof (pool_step_hi _ _ _ _ k.1 E) as Hhi.
  destruct o as [tx sz|r|b r|b r|rs]; simpl in E; [| | | |done];
    try (injection E as <- <-;
         destruct Hk as [Hk|?%not_elem_of_nil]; [|done];
         apply (spent_mono p); [done| |done]; intros Hi).
  - left. by rw add_tx_inflight.
  - destruct (make_batch_takes r p) as (l & q & E' & Ht). rw E' in E. injection E as <- <-.
    destruct (takes_inflight _ _ _ _ _ Ht) as [I1 I2]; [by apply touch_round_wf|].
    destruct (decide (k ∈ tx_key <$> l.*1)) as [Hin|Hn].
    + left. apply list_elem_of_fmap in Hin as (? & -> & (v & -> & Hv)%list_elem_of_fmap).
      rw Forall_forall in I1. simpl. rw (I1 v Hv). eauto.
    + destruct Hk as [Hk|]; [|done]. apply (spent_mono p); [done| |done]. intros Hi.
      left. simpl. rw I2 //.
  - left. by apply admit_inflight.
  - rw /spent commit_inflight. case_decide as Hd; [|by left]. right.
    apply list_elem_of_fmap in Hd as (tx & -> & Hin). rw commit_hi.
    by apply (commit_marks_hi (payload b) p).
Qed.

Lemma pool_run_spent ops p outs p' :
  pool_wf p → Forall no_rollback ops → pool_run ops p = Done outs p' →
  NoDup (tx_key <$> mjoin outs) ∧ ∀ tx, tx ∈ mjoin outs → ¬ spent p (tx_key tx).
Proof.
  revert p outs. induction ops as [|o ops IH]; intros p outs Hwf Hno; simpl.
  { intros [= <- <-]. split; [constructor|]. by intros ? ?%not_elem_of_nil. }
  apply Forall_cons in Hno as [Ho Hno].
  destruct (pool_step_wf o p Hwf) as (out & p1 & E1 & Hwf1). rw E1.
  destruct (pool_run ops p1) as [outs' p2| |] eqn:E; [|done..]. intros [= <- ->]. simpl.
  destruct (IH _ _ Hwf1 Hno E) as [I1 I2]. split.
  - rw fmap_app. apply NoDup_app. split; [|split; [|done]].
    + destruct o; simpl in E1; try (injection E1 as <- <-; constructor).
      destruct (make_batch_takes round p) as (l & q & E' & Ht). rw E' in E1.
      injection E1 as <- <-. eapply takes_mineable; [done|]. by apply touch_round_wf.
    + intros k Hk (tx & -> & Hin)%list_elem_of_fmap. apply (I2 tx Hin).
      eapply pool_step_spent; [exact Hwf|exact Ho|exact E1|by right].
  - intros tx Hin Hsp. apply elem_of_app in Hin as [Hin|Hin].
    + destruct (pool_step_out _ _ _ _ Hwf E1 tx Hin) as [v Hv].
      by rw (spent_not_mineable _ _ Hwf Hsp) in Hv.
    + apply (I2 tx Hin). eapply pool_step_spent; [exact Hwf|exact Ho|exact E1|by left].
Qed.
Lemma takes_undone r p l p1 :
  pool_wf p → round_keys p r = ∅ → takes r 0 (touch_round r p) l p1 →
  mineable (rollback [r] (reset_timer p1)) = mineable p ∧
  inflight (rollback [r] (reset_timer p1)) = inflight p.
Proof.
  intros Hwf Hr Ht. assert (pool_wf (touch_round r p)) as Hwf' by (by apply touch_round_wf).
  assert (pool_wf (reset_timer p1)) as Hwf1 by eauto using reset_timer_wf, takes_wf.
  assert (∀ c, hi (reset_timer p1) c = hi p c) as Hhi.
  { intros c. unfold hi; simpl. by destruct (takes_frame _ _ _ _ _ Ht) as [-> _]. }
  destruct (takes_mineable _ _ _ _ _ Ht Hwf') as (J1 & _ & _ & J4 & _).
  destruct (takes_inflight _ _ _ _ _ Ht Hwf') as [I1 I2]. simpl in *.
  assert (∀ k, k ∈ round_keys (reset_timer p1) r ↔ k ∈ tx_key <$> l.*1) as Hks.
  { intros k. rw (pc_index _ (pw_core _ Hwf1)) /=. split.
    - intros (e & He & Hre). destruct (decide (k ∈ tx_key <$> l.*1)) as [|Hn]; [done|].
      rw I2 // in He. exfalso. assert (k ∈ round_keys p r) as Hin
        by (apply (pc_index _ (pw_core _ Hwf)); eauto). rw Hr in Hin. set_solver.
    - intros (? & -> & (v & -> & Hv)%list_elem_of_fmap)%list_elem_of_fmap.
      rw Forall_forall in I1. rw (I1 v Hv). eauto. }
  destruct (rollback_round_spec r _ Hwf1) as [Ri Rm]. simpl in Ri, Rm.
  split; apply map_eq; intros k; simpl; [rw Rm|rw Ri]; specialize (Hks k);
    destruct (decide (k ∈ tx_key <$> l.*1)) as [Hin|Hn].
  - pose proof Hin as (? & Ek & (v & -> & Hv)%list_elem_of_fmap)%list_elem_of_fmap. subst k.
    rw Forall_forall in I1. rw (I1 v Hv). rw Forall_forall in J1.
    pose proof (J1 v Hv) as Hm. rw Hhi decide_True; [by destruct v|].
    split; [by apply Hks|]. by apply (pw_fresh _ Hwf _ _ v).
  - assert (mineable p1 !! k = mineable p !! k) as Em.
    { apply option_eq. intros v. rw J4. naive_solver. }
    rw Em. destruct (inflight p1 !! k); [|done]. rw decide_False; [done|naive_solver].
  - rw decide_True; [|by apply Hks].
    pose proof Hin as (? & Ek & (v & -> & Hv)%list_elem_of_fmap)%list_elem_of_fmap. subst k.
    rw Forall_forall in J1. symmetry. by apply (pc_disjoint _ (pw_core _ Hwf) _ v), J1.
  - rw decide_False; [by apply I2|naive_solver].
Qed.
End movement.

(** ** The pool's guarantees *)
Section guarantees.
Context `{MempoolTx Tx}.
Implicit Types (p q : Txpool Tx) (b : CachedBatch Tx).

(** C4.  From an empty pool every history of calls runs to its end (no
    panic, no unbounded loop) and keeps the pool's invariant: Mineable and
    InFlight are disjoint, the byte counter is the total size of the
    mineable transactions modulo 2^64, the per-round index lists exactly
    the in-flight keys of each round, and nothing mineable is at or below
    its client's committed watermark. *)
Theorem pool_history_wf (size : N) (ops : list (pool_op Tx)) :
  ∃ outs p', pool_run ops (pool_new size) = Done outs p' ∧ pool_wf p'.
Proof. apply pool_run_wf, pool_new_wf. Qed.

(** C5.  Replay protection: once a transaction has been committed, no later
    batch of the history contains a transaction of the same client with a
    nonce at or below it, whatever is added, admitted or rolled back in
    between. *)
Theorem pool_no_replay (size r : N) ops1 b ops2 outs p' :
  pool_run (ops1 ++ OpCommit b r :: ops2) (pool_new size) = Done outs p' →
  ∀ tx out t, tx ∈ payload b → out ∈ drop (length ops1) outs → t ∈ out →
    tx_client t = tx_client tx → (tx_nonce tx < tx_nonce t)%N.
Proof.
  generalize (pool_new_wf (Tx:=Tx) size). generalize (pool_new (Tx:=Tx) size).
  intros p0 Hwf0. revert outs p0 Hwf0. induction ops1 as [|o ops1 IH]; intros outs p Hwf; simpl.
  - destruct (pool_run ops2 (commit b r p)) as [outs' p2| |] eqn:E; [|done..].
    intros [= <- <-] tx out t Htx [->|Hout]%elem_of_cons Ht Hc;
      [by apply not_elem_of_nil in Ht|].
    pose proof (pool_run_out _ _ _ _ (commit_wf b r p Hwf) E _ _ Hout Ht) as Hlt.
    rw commit_hi Hc in Hlt.
    pose proof (proj2 (commit_marks_hi (payload b) p _) tx Htx eq_refl). lia.
  - destruct (pool_step_wf o p Hwf) as (out1 & p1 & -> & Hwf1).
    destruct (pool_run _ p1) as [outs' p2| |] eqn:E; [|done..].
    intros [= <- <-]. simpl. by eapply IH.
Qed.

(** C15.  Without a rollback no transaction key is ever mined twice: over a
    whole history the keys of all mined batches are pairwise distinct. *)
Theorem pool_mines_once (size : N) ops outs p' :
  Forall no_rollback ops → pool_run ops (pool_new size) = Done outs p' →
  NoDup (tx_key <$> mjoin outs).
Proof. intros. eapply pool_run_spent; eauto using pool_new_wf. Qed.

(** C27.  `make_batch` always returns.  The batch lists distinct mineable
    transactions in (client, nonce) order, all at or before whatever stays
    mineable; they are now in flight at this round and no longer mineable,
    and nothing else moved.  All but the last fit in `batch_size`, and the
    loop stopped because the pool was empty or the budget was reached. *)
Theorem make_batch_spec (r : N) p :
  pool_wf p → (total_size (mineable p) < u64_size)%N →
  ∃ l p', make_batch r p = Done l.*1 p' ∧ pool_wf p' ∧
    NoDup (tx_key <$> l.*1) ∧ StronglySorted key_le (tx_key <$> l.*1) ∧
    Forall (λ v, mineable p !! tx_key v.1 = Some v ∧
                 inflight p' !! tx_key v.1 = Some (mkInflight v.1 v.2 r)) l ∧
    (∀ k v, mineable p' !! k = Some v ↔
            mineable p !! k = Some v ∧ k ∉ tx_key <$> l.*1) ∧
    (∀ k, k ∉ tx_key <$> l.*1 → inflight p' !! k = inflight p !! k) ∧
    (∀ k k' v, k ∈ tx_key <$> l.*1 → mineable p' !! k' = Some v → key_le k k') ∧
    (∀ l' v, l = l' ++ [v] → sizes l' < batch_size p)%N ∧
    (mineable p' = ∅ ∨ batch_size p ≤ sizes l)%N.
Proof.
  intros Hwf Hsz. destruct (make_batch_takes r p) as (l & p' & E & Ht).
  assert (pool_wf (touch_round r p)) as Hwf' by (by apply touch_round_wf).
  destruct (takes_mineable _ _ _ _ _ Ht Hwf') as (J1 & J2 & J3 & J4 & J5).
  destruct (takes_inflight _ _ _ _ _ Ht Hwf') as [I1 I2].
  destruct (takes_budget _ _ _ _ _ Ht) as [B1 B2]; [simpl; lia|]. simpl in *.
  exists l, (reset_timer p'). split; [done|]. split; [eauto using reset_timer_wf, takes_wf|].
  do 2 (split; [done|]). split; [|exact (conj J4 (conj I2 (conj J5 (conj B1 B2))))].
  rw Forall_forall in J1. rw Forall_forall in I1. apply Forall_forall.
  intros v Hv. split; [by apply J1|by apply I1].
Qed.

(** Rolling a mined round back undoes it: if the round had nothing in
    flight, `make_batch` followed by `rollback` of that round restores the
    mineable set, the byte counter, the in-flight set and the watermarks. *)
Theorem make_batch_rollback (r : N) p :
  pool_wf p → round_keys p r = ∅ →
  ∃ out p', make_batch r p = Done out p' ∧
    mineable (rollback [r] p') = mineable p ∧
    mineable_bytes (rollback [r] p') = mineable_bytes p ∧
    inflight (rollback [r] p') = inflight p ∧
    ∀ c, hi (rollback [r] p') c = hi p c.
Proof.
  intros Hwf Hr. destruct (make_batch_takes r p) as (l & p1 & E & Ht).
  assert (pool_wf (touch_round r p)) as Hwf' by (by apply touch_round_wf).
  assert (pool_wf (reset_timer p1)) as Hwf1 by eauto using reset_timer_wf, takes_wf.
  exists l.*1, (reset_timer p1). split; [done|].
  assert (∀ c, hi (reset_timer p1) c = hi p c) as Hhi by (intros c; by eapply make_batch_hi).
  destruct (takes_undone r p l p1 Hwf Hr Ht) as [Em Ei].
  assert (pool_wf (rollback [r] (reset_timer p1))) as Hwf2 by by apply rollback_wf.
  split; [done|]. split; [|split; [done|]].
  - by rw (pc_bytes _ (pw_core _ Hwf2)) Em (pc_bytes _ (pw_core _ Hwf)).
  - intros c. by rw rollback_hi.
Qed.
(** C28.  `commit`: each client's watermark becomes the greatest of its old
    value and its committed nonces; exactly the batch's own keys leave
    InFlight, so an in-flight transaction whose nonce has become stale
    stays there; a transaction stays mineable if and only if it is above
    its client's new watermark. *)
Theorem commit_spec b (r : N) p :
  pool_wf p →
  pool_wf (commit b r p) ∧
  (∀ c, hi p c ≤ hi (commit b r p) c)%N ∧
  (∀ tx, tx ∈ payload b → (tx_nonce tx ≤ hi (commit b r p) (tx_client tx))%N) ∧
  (∀ c, hi (commit b r p) c = hi p c ∨
     ∃ tx, tx ∈ payload b ∧ tx_client tx = c ∧ hi (commit b r p) c = tx_nonce tx) ∧
  (∀ k, inflight (commit b r p) !! k =
     if decide (k ∈ tx_key <$> payload b) then None else inflight p !! k) ∧
  (∀ k v, mineable (commit b r p) !! k = Some v ↔
     mineable p !! k = Some v ∧ (hi (commit b r p) k.1 < k.2)%N).
Proof.
  intros Hwf. split; [by apply commit_wf|]. split; [|split; [|split; [|split]]].
  - intros c. rw commit_hi. apply commit_marks_hi.
  - intros tx Hin. rw commit_hi. by apply commit_marks_hi.
  - intros c. rw commit_hi. apply commit_marks_hi_exact.
  - apply commit_inflight.
  - intros k v. by apply commit_mineable.
Qed.
End guarantees.

(** ** Examples *)
Module PoolExamples.
Import Toy ToyFormat.

Definition tx (c n : N) : Transaction := new_dummy_tx_keyed c n 4.
Definition pool3 : Txpool Transaction :=
  add_tx (tx 1 1) 30 (add_tx (tx 1 2) 30 (add_tx (tx 2 1) 30 (pool_new 50))).

Lemma pool3_wf : pool_wf pool3.
Proof. unfold pool3. auto using add_tx_wf, pool_new_wf. Qed.

Definition history1 : list (pool_op Transaction) :=
  [OpAdd (tx 1 1) 30; OpAdd (tx 1 2) 30; OpMake 1].
Definition history2 : list (pool_op Transaction) :=
  [OpAdd (tx 1 2) 30; OpAdd (tx 1 3) 30; OpMake 2].

Lemma pool_no_replay_witness :
  ∃ outs p', pool_run (history1 ++ OpCommit (batch_new [tx 1 2]) 1 :: history2) (pool_new 50)
    = Done outs p' ∧ outs = [[]; []; [tx 1 1; tx 1 2]; []; []; []; [tx 1 3]] ∧
    (tx_nonce (tx 1 2) < tx_nonce (tx 1 3))%N.
Proof.
  eexists _, _. split; [vm_compute; reflexivity|]. split; [vm_compute; reflexivity|].
  eapply (pool_no_replay 50 1 history1 (batch_new [tx 1 2]) history2 _ _) with (out := [tx 1 3]);
    [vm_compute; reflexivity|apply list_elem_of_singleton; reflexivity| | |reflexivity].
  - apply list_elem_of_In. vm_compute. do 3 right. left. reflexivity.
  - apply list_elem_of_In. left. reflexivity.
Defined.

Lemma pool_mines_once_witness :
  ∃ outs p', pool_run (history1 ++ history2) (pool_new 50) = Done outs p' ∧
    NoDup (tx_key <$> mjoin outs) ∧ mjoin outs = [tx 1 1; tx 1 2; tx 1 3].
Proof.
  eexists _, _. split; [vm_compute; reflexivity|]. split; [|reflexivity].
  eapply (pool_mines_once 50 (history1 ++ history2)); [|vm_compute; reflexivity].
  repeat constructor.
Defined.

Lemma make_batch_spec_witness :
  ∃ (l : list (Transaction * N)) p', make_batch 7 pool3 = Done l.*1 p' ∧ l.*1 = [tx 1 1; tx 1 2] ∧ pool_wf p'.
Proof.
  destruct (make_batch_spec 7 pool3) as (l & p' & E & Hwf & _).
  - apply pool3_wf.
  - vm_compute. reflexivity.
  - exists l, p'. split; [exact E|]. split; [|exact Hwf].
    vm_compute in E. injection E as E _. symmetry. exact E.
Defined.

Lemma make_batch_rollback_witness :
  ∃ out p', make_batch 7 pool3 = Done out p' ∧ mineable (rollback [7%N] p') = mineable pool3.
Proof.
  destruct (make_batch_rollback 7 pool3) as (out & p' & E & Em & _).
  - apply pool3_wf.
  - vm_compute. reflexivity.
  - exists out, p'. split; [exact E|exact Em].
Defined.

(** Nonce 1 is in flight when nonce 2 is committed: it stays in flight. *)
Definition pool_stale : Txpool Transaction :=
  admit_proposal (batch_new [tx 1 1]) 3 pool3.

Lemma commit_spec_witness :
  pool_wf pool_stale ∧
  inflight (commit (batch_new [tx 1 2]) 4 pool_stale) !! (1, 1)%N = inflight pool_stale !! (1, 1)%N ∧
  is_Some (inflight pool_stale !! (1, 1)%N).
Proof.
  assert (pool_wf pool_stale) as Hwf by apply admit_proposal_wf, pool3_wf.
  split; [exact Hwf|]. split; [|vm_compute; eexists; reflexivity].
  destruct (commit_spec (batch_new [tx 1 2]) 4 pool_stale Hwf) as (_ & _ & _ & _ & Hi & _).
  rw Hi. reflexivity.
Defined.

(** A batch may exceed `batch_size` by its last transaction. *)
Example make_batch_overshoots :
  ∃ p', make_batch 1 pool3 = Done [tx 1 1; tx 1 2] p' ∧ batch_size pool3 = 50%N ∧
    (50 < 30 + 30)%N.
Proof. eexists. split; [vm_compute; reflexivity|]. split; reflexivity. Qed.
End PoolExamples.
