(* ===== verification/PoolSpec.v ===== *)
(** * The transaction pool refines its state machine

    The header of mempool/src/tx_pool.rs gives every transaction a state, and
    says by what storage: Unknown (none), Mineable (in `mineable`), InFlight
    (in `inflight`, tagged with a round), Replayed (dropped at `add_tx`).
    [state_of] reads a state off the pool in just this way.  [tx_next] says
    what each call does to one transaction, from the doc comments of the calls;
    the pool, with its ordered map, byte counter, per-round index and
    watermarks, implements it for all transactions at once.

    The calls need one bit that the header does not mention.  A commit covers
    the nonces of a client up to the largest one committed; the transactions
    of the batch leave InFlight, but a covered one that is in flight in another
    batch stays there.  It is still InFlight, and it is [stale]: when it is
    rolled back it is dropped and not made Mineable. *)

From S2P Require Import Prelude Crypto Types Batch TxPool.

Inductive tx_state := Unknown | Mineable | InFlight (round : N) (stale : bool) | Replayed.
#[export] Instance tx_state_eq_dec : EqDecision tx_state.
Proof. solve_decision. Defined.

Section spec.
Context `{MempoolTx Tx}.
Implicit Types (p : Txpool Tx) (o : pool_op Tx) (k : TxKey) (s : tx_state).

(** The commit of a batch covers every nonce of a client up to the largest
    one of his in the batch. *)
Definition covers (txs : list Tx) k : Prop :=
  ∃ tx, tx ∈ txs ∧ tx_client tx = k.1 ∧ (k.2 ≤ tx_nonce tx)%N.
#[export] Instance covers_dec txs k : Decision (covers txs k).
Proof.
  refine (cast_if (decide (Exists (λ tx, tx_client tx = k.1 ∧ (k.2 ≤ tx_nonce tx)%N) txs)));
    unfold covers; by rw -Exists_exists.
Defined.

(** What a call does to transaction [k]; [mined] is the batch it returned. *)
Definition tx_next o (mined : list Tx) k s : tx_state :=
  match o, s with
  | _, Replayed => Replayed
  | OpAdd tx _, Unknown => if decide (k = tx_key tx) then Mineable else Unknown
  | OpMake r, Mineable => if decide (k ∈ tx_key <$> mined) then InFlight r false else Mineable
  | OpAdmit b r, (Unknown | Mineable) =>
      if decide (k ∈ tx_key <$> payload b) then InFlight r false else s
  | OpCommit b _, (Unknown | Mineable) => if decide (covers (payload b) k) then Replayed else s
  | OpCommit b _, InFlight r stale =>
      if decide (k ∈ tx_key <$> payload b) then Replayed
      else InFlight r (stale || bool_decide (covers (payload b) k))
  | OpRollback rs, InFlight r stale =>
      if decide (r ∈ rs) then (if stale then Replayed else Mineable) else s
  | _, _ => s
  end.

(** A pool starts with nothing, and nonce 0 is spent from the beginning. *)
Definition tx_init k : tx_state := if decide (k.2 = 0)%N then Replayed else Unknown.

(** What the pool stores about [k]. *)
Definition state_of p k : tx_state :=
  match inflight p !! k with
  | Some e => InFlight (if_round e) (k.2 <=? hi p k.1)%N
  | None =>
      match mineable p !! k with
      | Some _ => Mineable
      | None => if (k.2 <=? hi p k.1)%N then Replayed else Unknown
      end
  end.

Lemma state_of_eq p q k :
  hi q k.1 = hi p k.1 → inflight q !! k = inflight p !! k → mineable q !! k = mineable p !! k →
  state_of q k = state_of p k.
Proof. unfold state_of. by intros -> -> ->. Qed.

Lemma state_replayed p k :
  state_of p k = Replayed ↔
  inflight p !! k = None ∧ mineable p !! k = None ∧ (k.2 ≤ hi p k.1)%N.
Proof.
  unfold state_of. destruct (inflight p !! k); [by split; [|intros [? _]]|].
  destruct (mineable p !! k); [by split; [|intros (_ & ? & _)]|].
  rw -N.leb_le. destruct (_ <=? _)%N; split; try done. by intros (_ & _ & ?).
Qed.

(** A covered transaction that is not in flight is stored nowhere. *)
Lemma state_covered p k :
  pool_wf p → (k.2 ≤ hi p k.1)%N → inflight p !! k = None → state_of p k = Replayed.
Proof.
  intros Hwf Hh Hi. apply state_replayed. split; [done|]. split; [|done].
  apply eq_None_not_Some. intros [v Hv]. destruct k as [c n].
  pose proof (pw_fresh _ Hwf c n v Hv). simpl in *. lia.
Qed.

(** *** add_tx *)
Lemma add_tx_rejected tx sz p : ¬ acceptable p (tx, sz) → add_tx tx sz p = p.
Proof.
  assert (tx_key tx = (tx_client tx, tx_nonce tx)) as Hk by done.
  intros Ha. unfold add_tx. rw Hk. case_eq (tx_nonce tx <=? hi p (tx_client tx))%N; [done|].
  intros Hn%N.leb_gt. case_bool_decide as Hi; [done|]. destruct Ha. split; [done|].
  by apply eq_None_not_Some.
Qed.

Lemma add_tx_state tx sz p k :
  pool_wf p → state_of (add_tx tx sz p) k = tx_next (OpAdd tx sz) [] k (state_of p k).
Proof.
  intros Hwf. destruct (decide (acceptable p (tx, sz))) as [Ha|Ha].
  - unfold state_of. rw add_tx_hi add_tx_inflight add_tx_mineable // lookup_insert.
    destruct (inflight p !! k) as [e|] eqn:Ei; [done|]. destruct Ha as [Hn _]. simpl in Hn.
    case_decide as Hd; [subst k|].
    + destruct (mineable p !! _); [done|]. simpl. apply N.leb_gt in Hn. rw Hn. simpl. by rw decide_True.
    + destruct (mineable p !! k); [done|]. destruct (_ <=? _)%N; simpl; [done|]. by rw decide_False.
  - rw add_tx_rejected //. destruct (state_of p k) eqn:E; simpl; try done. case_decide as Hd; [|done].
    subst k. destruct Ha. unfold state_of in E. destruct (inflight p !! tx_key tx) eqn:Ei; [done|].
    split; [|done]. destruct (mineable p !! _); [done|]. simpl in *.
    destruct (N.leb_spec (tx_nonce tx) (hi p (tx_client tx))); [done|lia].
Qed.

(** *** admit_proposal *)
Lemma admit_one_state r tx p k :
  pool_wf p → state_of (admit_one r p tx) k =
  match state_of p k with
  | (Unknown | Mineable) as s => if decide (k = tx_key tx) then InFlight r false else s
  | s => s
  end.
Proof.
  intros Hwf. unfold admit_one. assert (tx_key tx = (tx_client tx, tx_nonce tx)) as Hk by done. rw Hk.
  case_eq (tx_nonce tx <=? hi p (tx_client tx))%N; [intros Hn|intros Hn%N.leb_gt].
  { destruct (decide (k = (tx_client tx, tx_nonce tx))) as [->|]; [|by destruct (state_of p k)].
    unfold state_of. destruct (inflight p !! _); [done|]. simpl. rw Hn.
    destruct (mineable p !! _) as [v|] eqn:Em; [|done]. apply N.leb_le in Hn.
    pose proof (pw_fresh _ Hwf _ _ v Em). lia. }
  case_eq (bool_decide (is_Some (inflight p !! (tx_client tx, tx_nonce tx)))).
  { intros [e Hi]%bool_decide_eq_true. destruct (state_of p k) eqn:E; try done;
      case_decide as Hd; try done; subst k; unfold state_of in E; by rw Hi in E. }
  intros Hi%not_inflight. set (p1 := mineable_remove _ p).
  destruct (mineable_remove_frame (tx_client tx, tx_nonce tx) p) as (F1 & _ & F3 & _).
  assert (∀ c, hi p1 c = hi p c) as Hh by (intros c; apply mineable_remove_hi).
  unfold state_of at 1. simpl. change (hi (mark_inflight _ _ _ _ p1)) with (hi p1).
  rw Hh lookup_insert. unfold state_of. case_decide as Hd; [subst k; simpl|].
  - rw Hi. apply N.leb_gt in Hn. rw Hn. destruct (mineable p !! _); by rw decide_True.
  - unfold p1. rw F1 mineable_remove_lookup decide_False //.
    destruct (inflight p !! k); [done|]. destruct (mineable p !! k); [by rw decide_False|].
    destruct (_ <=? _)%N; [done|]. by rw decide_False.
Qed.

Lemma admit_state b r p k :
  pool_wf p → state_of (admit_proposal b r p) k = tx_next (OpAdmit b r) [] k (state_of p k).
Proof.
  intros Hwf. unfold admit_proposal. apply (touch_round_wf r) in Hwf.
  assert (state_of (touch_round r p) k = state_of p k) as E by done.
  rw -E. revert Hwf. generalize (touch_round r p) as q. clear E. simpl.
  induction (payload b) as [|tx l IH]; intros q Hwf; simpl; [by destruct (state_of q k)|].
  rw IH; [|by apply admit_one_wf]. rw admit_one_state //. destruct (state_of q k); try done.
  all: destruct (decide (k = tx_key tx)) as [->|Hne];
    [by rw decide_True; [|constructor]|].
  all: destruct (decide (k ∈ tx_key <$> l)); [rw decide_True //; by constructor|].
  all: rw decide_False //; rw not_elem_of_cons; done.
Qed.

(** *** make_batch *)
Lemma make_batch_state r p out p' k :
  pool_wf p → make_batch r p = Done out p' →
  state_of p' k = tx_next (OpMake r) out k (state_of p k) ∧
  (k ∈ tx_key <$> out → state_of p k = Mineable).
Proof.
  intros Hwf E. destruct (make_batch_takes r p) as (l & p1 & E1 & Ht).
  rw E1 in E. injection E as <- <-. pose proof (touch_round_wf r p Hwf) as Hwf1.
  destruct (takes_mineable _ _ _ _ _ Ht Hwf1) as (M1 & _ & _ & M4 & _).
  destruct (takes_inflight _ _ _ _ _ Ht Hwf1) as [I1 I2].
  assert (∀ c, hi (reset_timer p1) c = hi p c) as Hh.
  { intros c. unfold hi. by destruct (takes_frame _ _ _ _ _ Ht) as [E _]; rw /= E. }
  destruct (decide (k ∈ tx_key <$> l.*1)) as [Hin|Hin].
  - apply list_elem_of_fmap in Hin as (tx & -> & Hin).
    apply list_elem_of_fmap in Hin as (v & -> & Hv). rw !Forall_forall in M1, I1.
    pose proof (M1 v Hv : mineable p !! tx_key v.1 = Some v) as Hm.
    assert (state_of p (tx_key v.1) = Mineable) as ->.
    { unfold state_of. rw Hm. by rw (pc_disjoint _ (pw_core _ Hwf) _ v Hm). }
    split; [|done]. simpl. rw decide_True; [|by do 2 apply list_elem_of_fmap_2].
    unfold state_of. rw (I1 v Hv : inflight (reset_timer p1) !! _ = _) Hh. simpl.
    pose proof (pw_fresh _ Hwf _ _ v Hm) as Hlt. by apply N.leb_gt in Hlt as ->.
  - split; [|done]. assert (state_of (reset_timer p1) k = state_of p k) as ->.
    { apply state_of_eq; [done|exact (I2 k Hin)|]. simpl.
      change (mineable (touch_round r p)) with (mineable p) in M4.
      destruct (mineable p !! k) as [v|] eqn:Ek; [by apply M4|].
      apply eq_None_not_Some. intros [v [Hv _]%M4]. congruence. }
    simpl. destruct (state_of p k); try done. by rw decide_False.
Qed.

(** *** commit *)
Lemma commit_hi_covers b r p k :
  (k.2 ≤ hi (commit b r p) k.1)%N ↔ (k.2 ≤ hi p k.1)%N ∨ covers (payload b) k.
Proof.
  rw commit_hi. destruct (commit_marks_hi (payload b) p k.1) as [H1 H2]. split.
  - intros Hk. destruct (commit_marks_hi_exact (payload b) p k.1) as [E|(tx & ? & ? & E)];
      [left; by rw -E|right; exists tx; by rw -E].
  - intros [Hk|(tx & Hin & Hc & Hk)]; [lia|]. etrans; [done|]. by apply H2.
Qed.

Lemma key_covered txs k : k ∈ tx_key <$> txs → covers txs k.
Proof. intros (tx & -> & Hin)%list_elem_of_fmap. exists tx. by split_and!. Qed.
Lemma commit_leb b r p k :
  (k.2 <=? hi (commit b r p) k.1)%N =
  ((k.2 <=? hi p k.1)%N || bool_decide (covers (payload b) k)).
Proof.
  pose proof (commit_hi_covers b r p k) as Hc. apply eq_true_iff_eq.
  by rw orb_true_iff !N.leb_le bool_decide_eq_true.
Qed.

Lemma commit_state b r p k :
  pool_wf p → state_of (commit b r p) k = tx_next (OpCommit b r) [] k (state_of p k).
Proof.
  intros Hwf. assert (mineable (commit b r p) !! k =
    if (k.2 <=? hi (commit b r p) k.1)%N then None else mineable p !! k) as Hm.
  { apply option_eq. intros v. rw commit_mineable //.
    destruct (N.leb_spec k.2 (hi (commit b r p) k.1)); split; intuition (done || lia). }
  unfold state_of. rw commit_inflight Hm commit_leb.
  destruct (inflight p !! k) as [e|] eqn:Ei; simpl.
  - case_decide as Hin; [|done]. rw (bool_decide_eq_true_2 _ (key_covered _ _ Hin)) orb_true_r //.
  - assert ((if decide (k ∈ tx_key <$> payload b) then (None : option (InflightEntry Tx)) else None)
      = None) as -> by by destruct (decide _).
    destruct (mineable p !! k) as [v|] eqn:Em.
    + assert ((k.2 <=? hi p k.1)%N = false) as ->.
      { destruct k. apply N.leb_gt. by apply (pw_fresh _ Hwf _ _ v). }
      simpl. case_bool_decide; [by rw decide_True|by rw decide_False].
    + destruct (k.2 <=? hi p k.1)%N; simpl; [done|].
      case_bool_decide; [by rw decide_True|by rw decide_False].
Qed.

(** *** rollback *)
Lemma rollback_round_state r p k :
  pool_wf p → state_of (rollback_round p r) k =
    match state_of p k with
    | InFlight r' stale =>
        if decide (r' = r) then (if stale then Replayed else Mineable) else InFlight r' stale
    | s => s
    end.
Proof.
  intros Hwf. destruct (rollback_round_spec r p Hwf) as [S1 S2].
  assert (hi (rollback_round p r) k.1 = hi p k.1) as Hh by apply (rollback_hi [r]).
  unfold state_of. rw Hh S1 S2. pose proof (pc_index _ (pw_core _ Hwf) r k) as Hix.
  pose proof (pc_disjoint _ (pw_core _ Hwf) k) as Hdis.
  destruct (inflight p !! k) as [e|] eqn:Ei.
  - assert (mineable p !! k = None) as Hm.
    { apply eq_None_not_Some. intros [v Hv]. by specialize (Hdis v Hv). }
    destruct (decide (if_round e = r)) as [Er|Er].
    + assert (k ∈ round_keys p r) as Hin by (apply Hix; eauto). rw decide_True //.
      destruct (N.leb_spec k.2 (hi p k.1)).
      * rw decide_False; [by rw Hm|]. intros [_ ?]. lia.
      * by rw decide_True.
    + rw decide_False //. intros (e' & [= <-] & ?)%Hix. done.
  - rw decide_False; [by destruct (mineable p !! k), (k.2 <=? hi p k.1)%N|].
    by intros (e & ? & _)%Hix.
Qed.

Lemma rollback_state rs p k :
  pool_wf p → state_of (rollback rs p) k = tx_next (OpRollback rs) [] k (state_of p k).
Proof.
  unfold rollback. revert p. induction rs as [|r rs IH]; intros p Hwf; simpl.
  { by destruct (state_of p k). }
  rw IH; [|by apply rollback_round_wf]. rw rollback_round_state //.
  destruct (state_of p k) as [| |r' stale|]; simpl; try done.
  destruct (decide (r' = r)) as [->|Hr]; simpl.
  - rw (decide_True (P := r ∈ r :: rs)); [|constructor]. by destruct stale.
  - destruct (decide (r' ∈ rs)); [rw decide_True //; by constructor|].
    rw decide_False //. by rw not_elem_of_cons.
Qed.

Lemma pool_step_refines o p out p' k :
  pool_wf p → pool_step o p = Done out p' →
  state_of p' k = tx_next o out k (state_of p k) ∧
  (k ∈ tx_key <$> out → state_of p k = Mineable).
Proof.
  intros Hwf E. destruct o as [tx sz|r|b r|b r|rs]; simpl in E;
    [|by apply make_batch_state|..]; injection E as <- <-;
    (split; [|by intros ?%not_elem_of_nil]);
    auto using add_tx_state, admit_state, commit_state, rollback_state.
Qed.

(** The machine along a history, for one transaction. *)
Fixpoint tx_run (ops : list (pool_op Tx)) (outs : list (list Tx)) k s : tx_state :=
  match ops, outs with
  | o :: ops', out :: outs' => tx_run ops' outs' k (tx_next o out k s)
  | _, _ => s
  end.
(** A batch is only ever made of transactions that are Mineable. *)
Fixpoint mined_ok (ops : list (pool_op Tx)) (outs : list (list Tx)) k s : Prop :=
  match ops, outs with
  | o :: ops', out :: outs' =>
      (k ∈ tx_key <$> out → s = Mineable) ∧ mined_ok ops' outs' k (tx_next o out k s)
  | _, _ => True
  end.

Lemma pool_run_refines ops p outs p' k :
  pool_wf p → pool_run ops p = Done outs p' →
  state_of p' k = tx_run ops outs k (state_of p k) ∧ mined_ok ops outs k (state_of p k).
Proof.
  revert p outs. induction ops as [|o ops IH]; intros p outs Hwf E; simpl in E.
  { by injection E as <- <-. }
  destruct (pool_step_wf o p Hwf) as (out & p1 & E1 & Hwf1). rw E1 in E.
  destruct (pool_run ops p1) as [outs1 p2| |] eqn:E2; try done. injection E as <- <-.
  destruct (pool_step_refines o p out p1 k Hwf E1) as [R1 R2].
  destruct (IH p1 outs1 Hwf1 E2) as [I1 I2]. simpl. rw -R1. done.
Qed.

Lemma state_of_new size k : state_of (pool_new size) k = tx_init k.
Proof.
  unfold state_of, tx_init, hi. simpl. rw !lookup_empty /=.
  destruct (N.leb_spec k.2 0), (decide (k.2 = 0)%N); try done; lia.
Qed.

(** C19.  The pool implements its state machine.  Read the state of a
    transaction off the pool's storage as the header of tx_pool.rs defines it
    (InFlight: in `inflight`; Mineable: in `mineable`; otherwise Replayed or
    Unknown, by the watermark).  Along any history of calls on a new pool,
    which always returns, this is the state computed from the calls and the
    batches returned, one transaction at a time, by the machine that the doc
    comments give: `add_tx` makes an unknown transaction Mineable; `make_batch`
    and `admit_proposal` put it in flight at their round; `commit` ends the
    transactions of its batch and all that are covered by it and not in
    flight, while a covered one that is in flight elsewhere stays InFlight, now
    stale; `rollback` makes the live in-flight ones of its
    rounds Mineable again and drops the stale ones; and nothing leads out of
    Replayed.  Every transaction of a batch that is made was Mineable when it
    was taken.  A nonce of 0 counts as replayed from the start. *)
Theorem pool_refines_machine (size : N) (ops : list (pool_op Tx)) :
  ∃ outs p, pool_run ops (pool_new size) = Done outs p ∧
    ∀ k, state_of p k = tx_run ops outs k (tx_init k) ∧ mined_ok ops outs k (tx_init k).
Proof.
  destruct (pool_run_wf ops (pool_new size) (pool_new_wf size)) as (outs & p & E & _).
  exists outs, p. split; [done|]. intros k. rw -(state_of_new size k).
  apply pool_run_refines; [apply pool_new_wf|done].
Qed.
End spec.

(** A transaction's life: submitted, mined in round 3, rolled back, mined
    again in round 4, committed; its nonce-1 sibling is covered by the commit
    and the nonce-0 one never had a chance. *)
Module PoolSpecExamples.
Import Toy ToyFormat PoolExamples.
Definition life : list (pool_op Transaction) :=
  [OpAdd (tx 1 2) 30; OpAdd (tx 1 0) 30; OpMake 3; OpRollback [3%N]; OpMake 4;
   OpCommit (batch_new [tx 1 2]) 4].
Example machine_runs :
  ∃ outs p, pool_run life (pool_new 20) = Done outs p ∧
    outs = [[]; []; [tx 1 2]; []; [tx 1 2]; []] ∧
    state_of p (1, 2)%N = Replayed ∧ state_of p (1, 1)%N = Replayed ∧
    state_of p (1, 0)%N = Replayed ∧ state_of p (1, 3)%N = Unknown ∧
    tx_run (take 3 life) outs (1, 2)%N Unknown = InFlight 3 false ∧
    tx_run (take 4 life) outs (1, 2)%N Unknown = Mineable.
Proof. do 2 eexists. split; [vm_compute; reflexivity|]. repeat split; vm_compute; reflexivity. Qed.

(** Nonce 1 is in flight at round 3 when the commit of nonce 2 covers it: it
    stays in flight, and its rollback drops it. *)
Definition stale_life : list (pool_op Transaction) :=
  [OpAdd (tx 1 1) 30; OpMake 3; OpCommit (batch_new [tx 1 2]) 4; OpAdd (tx 1 1) 30;
   OpRollback [3%N]].
Example stale_stays :
  (∃ outs p, pool_run (take 4 stale_life) (pool_new 20) = Done outs p ∧
     state_of p (1, 1)%N = InFlight 3 true) ∧
  (∃ outs p, pool_run stale_life (pool_new 20) = Done outs p ∧ state_of p (1, 1)%N = Replayed).
Proof. split; do 2 eexists; (split; [vm_compute; reflexivity|vm_compute; reflexivity]). Qed.
End PoolSpecExamples.
