(* ===== verification/PoolTests.v ===== *)
(** * The mempool crate's own unit tests, run on the model

    The `#[cfg(test)]` modules of mempool/src/tx_pool.rs, batch.rs and
    cache.rs, transcribed call by call: a test is the conjunction of its
    assertions along its run, a failed `unwrap` being a failed assertion.
    The serializer of the test transactions stays a parameter, so that each
    test is passed whatever bytes bincode gives them. *)

From S2P Require Import Prelude Crypto Types Batch TxPool.

(** `assert!(b); k`, and `let x = o.unwrap(); k`. *)
Notation "'assert!' b ; k" := (b && k) (at level 10, b at level 100, k at level 200).
Notation "'unwrap!' x := o ; k" := (match o with Some x => k | None => false end)
  (at level 10, x pattern, o at level 100, k at level 200).

(** `map.contains_key(&k)`. *)
Definition contains_key `{Countable K} {V} (k : K) (m : gmap K V) : bool :=
  bool_decide (is_Some (m !! k)).

(** ** tx_pool.rs *)
Record TestTx := mkTestTx { t_client : N; t_nonce : N; t_payload : N }.

Section tx_pool_tests.
Context `{Crypto} (ser : TestTx → bytes) (ser_vec : list TestTx → bytes)
  (de_vec : bytes → option (list TestTx)).

#[local] Instance TestTx_MempoolTx : MempoolTx TestTx := {|
  tx_client := t_client; tx_nonce := t_nonce;
  tx_bytes := ser; vec_bytes := ser_vec; vec_of_bytes := de_vec |}.

Definition TestTx_new (client nonce : N) : TestTx := mkTestTx client nonce 0.
Definition test_pool : Txpool TestTx := pool_new (1024 * 1024).
Definition test_batch (txs : list TestTx) : CachedBatch TestTx := batch_new txs.

Definition trace1_common_case : bool :=
  let p := test_pool in
  let tx := TestTx_new 1 5 in
  let p := add_tx tx 10 p in
  assert! contains_key (1, 5)%N (mineable p);
  assert! (mineable_bytes p =? 10)%N;
  let p := admit_proposal (test_batch [tx]) 1 p in
  assert! negb (contains_key (1, 5)%N (mineable p));
  assert! contains_key (1, 5)%N (inflight p);
  unwrap! ks := inflight_by_round p !! 1%N;
  assert! (size ks =? 1)%nat;
  let p := commit (test_batch [tx]) 1 p in
  assert! negb (contains_key (1, 5)%N (inflight p));
  unwrap! h := high_committed_nonce p !! 1%N;
  (h =? 5)%N.

Definition trace2_proposal_before_client : bool :=
  let p := test_pool in
  let tx := TestTx_new 1 5 in
  let p := admit_proposal (test_batch [tx]) 1 p in
  assert! negb (contains_key (1, 5)%N (mineable p));
  assert! contains_key (1, 5)%N (inflight p);
  let p := add_tx tx 10 p in
  assert! negb (contains_key (1, 5)%N (mineable p));
  assert! contains_key (1, 5)%N (inflight p);
  (mineable_bytes p =? 0)%N.

Definition trace3_late_client_after_commit : bool :=
  let p := test_pool in
  let tx := TestTx_new 1 5 in
  let p := admit_proposal (test_batch [tx]) 1 p in
  let p := commit (test_batch [tx]) 1 p in
  unwrap! h := high_committed_nonce p !! 1%N;
  assert! (h =? 5)%N;
  let p := add_tx tx 10 p in
  assert! negb (contains_key (1, 5)%N (mineable p));
  (mineable_bytes p =? 0)%N.

Definition trace4_chain_switch_rollback : bool :=
  let p := test_pool in
  let tx := TestTx_new 1 5 in
  let p := add_tx tx 10 p in
  match make_batch 1 p with
  | Done _payload p =>
      assert! contains_key (1, 5)%N (inflight p);
      assert! negb (contains_key (1, 5)%N (mineable p));
      let p := rollback [1%N] p in
      assert! contains_key (1, 5)%N (mineable p);
      assert! negb (contains_key (1, 5)%N (inflight p));
      (mineable_bytes p =? 10)%N
  | _ => false
  end.

Definition trace5_different_proposal_at_same_round : bool :=
  let p := test_pool in
  let tx5 := TestTx_new 1 5 in
  let tx7 := TestTx_new 1 7 in
  let p := add_tx tx5 10 p in
  let p := admit_proposal (test_batch [tx5]) 2 p in
  assert! contains_key (1, 5)%N (inflight p);
  let p := commit (test_batch [tx7]) 2 p in
  unwrap! h := high_committed_nonce p !! 1%N;
  assert! (h =? 7)%N;
  assert! negb (contains_key (1, 5)%N (mineable p));
  let p := rollback [2%N] p in
  assert! negb (contains_key (1, 5)%N (inflight p));
  negb (contains_key (1, 5)%N (mineable p)).

Definition trace6_byzantine_replay : bool :=
  let p := test_pool in
  let tx10 := TestTx_new 1 10 in
  let p := add_tx tx10 10 p in
  let p := admit_proposal (test_batch [tx10]) 1 p in
  let p := commit (test_batch [tx10]) 1 p in
  unwrap! h := high_committed_nonce p !! 1%N;
  assert! (h =? 10)%N;
  let tx3 := TestTx_new 1 3 in
  let p := add_tx tx3 10 p in
  assert! negb (contains_key (1, 3)%N (mineable p));
  (mineable_bytes p =? 0)%N.

Definition trace8_proposer_loopback : bool :=
  let p := test_pool in
  let tx := TestTx_new 1 5 in
  let p := add_tx tx 10 p in
  match make_batch 1 p with
  | Done payload p =>
      assert! (length payload =? 1)%nat;
      assert! contains_key (1, 5)%N (inflight p);
      let p := admit_proposal (test_batch payload) 1 p in
      assert! contains_key (1, 5)%N (inflight p);
      assert! negb (contains_key (1, 5)%N (mineable p));
      unwrap! ks := inflight_by_round p !! 1%N;
      (size ks =? 1)%nat
  | _ => false
  end.

Definition trace9_equivocation_last_write_wins : bool :=
  let p := test_pool in
  let tx_a := mkTestTx 1 5 170 in
  let tx_b := mkTestTx 1 5 187 in
  let p := add_tx tx_a 10 p in
  assert! (mineable_bytes p =? 10)%N;
  let p := add_tx tx_b 10 p in
  assert! (size (mineable p) =? 1)%nat;
  assert! (mineable_bytes p =? 10)%N;
  unwrap! stored := mineable p !! (1, 5)%N;
  (t_payload stored.1 =? 187)%N.

Definition gc_sweeps_stale_mineable : bool :=
  let p := test_pool in
  let p := foldl (λ p n, add_tx (TestTx_new 1 n) 10 p) p [1; 2; 3]%N in
  assert! (size (mineable p) =? 3)%nat;
  assert! (mineable_bytes p =? 30)%N;
  let p := commit (test_batch [TestTx_new 1 3]) 1 p in
  assert! negb (contains_key (1, 1)%N (mineable p));
  assert! negb (contains_key (1, 2)%N (mineable p));
  assert! negb (contains_key (1, 3)%N (mineable p));
  assert! (mineable_bytes p =? 0)%N;
  unwrap! h := high_committed_nonce p !! 1%N;
  (h =? 3)%N.

Definition rollback_subsumed_orphan_dropped : bool :=
  let tx5 := TestTx_new 1 5 in
  let tx7 := TestTx_new 1 7 in
  let p2 := test_pool in
  let p2 := add_tx tx5 10 p2 in
  let p2 := admit_proposal (test_batch [tx5]) 2 p2 in
  let p2 := commit (test_batch [tx7]) 3 p2 in
  let p2 := rollback [2%N] p2 in
  assert! negb (contains_key (1, 5)%N (mineable p2));
  negb (contains_key (1, 5)%N (inflight p2)).

(** The pool passes its ten race traces, whatever the serializer. *)
Theorem txpool_tests_pass :
  forallb id [trace1_common_case; trace2_proposal_before_client;
    trace3_late_client_after_commit; trace4_chain_switch_rollback;
    trace5_different_proposal_at_same_round; trace6_byzantine_replay;
    trace8_proposer_loopback; trace9_equivocation_last_write_wins;
    gc_sweeps_stale_mineable; rollback_subsumed_orphan_dropped] = true.
Proof. vm_compute. reflexivity. Qed.
End tx_pool_tests.

(** ** batch.rs and cache.rs; `Dummy(u64)` and `u32` are numbers.  Two `Arc`s
    are the same pointer when both are clones of the one in the cell, which
    is then left alone by the later call. *)
Section batch_tests.
Context `{Crypto} `{!MempoolTx N, !MempoolTxLaws (Tx:=N)}.

Definition wire_format_matches_bare_vec : bool :=
  let v := [1; 2; 3]%N in
  let batch := batch_new v in
  let batch_bytes := batch_serialize batch in
  let vec_bytes := vec_bytes v in
  bool_decide (batch_bytes = vec_bytes).

Definition roundtrip_preserves_payload_and_populates_hash : bool :=
  let v := [1; 2; 3]%N in
  let batch := batch_new v in
  let bs := batch_serialize batch in
  unwrap! got := batch_deserialize bs;
  assert! bool_decide (payload got = v);
  assert! bool_decide (is_Some (hash_cell got));
  bool_decide (hash got = hash batch).

Definition tx_hashes_cached : bool :=
  let v := [1; 2]%N in
  let batch := batch_new v in
  let '(a, batch) := tx_hashes_get_or_init batch in
  let '(b, batch) := tx_hashes_get_or_init batch in
  bool_decide (Some a = tx_hashes_cell batch ∧ Some b = tx_hashes_cell batch).

Definition new_with_tx_hashes_skips_recompute : bool :=
  let v := [1; 2]%N in
  let precomputed := tx_hash <$> v in
  let batch := new_with_tx_hashes v precomputed in
  bool_decide (tx_hashes batch = precomputed ∧ tx_hashes_cell batch = Some precomputed).

(** `BatchCache::new`: the capacity is not used. *)
Definition cache_new (_cap : nat) : gmap Hash (CachedBatch N) := ∅.

(** [x] and [y] are the bytes the two tests hash. *)
Definition duplicate_insert_is_noop (x : bytes) : bool :=
  let c := cache_new 4 in
  let h := do_hash x in
  let c := cache_insert h (batch_new [1]%N) c in
  let c := cache_insert h (batch_new [2]%N) c in
  (cache_len c =? 1)%nat.

Definition get_roundtrip (y : bytes) : bool :=
  let c := cache_new 4 in
  let h := do_hash y in
  let c := cache_insert h (batch_new [7; 8; 9]%N) c in
  unwrap! g := cache_get c h;
  bool_decide (payload g = [7; 8; 9]%N).

(** A batch and the cache pass theirs, for every codec that is one. *)
Theorem batch_tests_pass x y :
  forallb id [wire_format_matches_bare_vec; roundtrip_preserves_payload_and_populates_hash;
    tx_hashes_cached; new_with_tx_hashes_skips_recompute;
    duplicate_insert_is_noop x; get_roundtrip y] = true.
Proof.
  unfold forallb, id. rw !andb_true_iff. split_and!; try done.
  - by apply bool_decide_eq_true.
  - unfold roundtrip_preserves_payload_and_populates_hash, batch_deserialize, batch_serialize.
    rw vec_roundtrip. simpl. rw !bool_decide_true //.
  - by apply bool_decide_eq_true.
  - by apply bool_decide_eq_true.
  - unfold duplicate_insert_is_noop, cache_len, cache_new, cache_insert.
    rw (bool_decide_false (is_Some (∅ !! _))); [|rw lookup_empty; by intros []].
    rw bool_decide_true; [|rw lookup_insert_eq; eauto]. by rw insert_empty map_size_singleton.
  - unfold get_roundtrip. by rw cache_get_insert.
Qed.
End batch_tests.
