(* ===== verification/Keyed.v ===== *)
(** * The keyed mempool of Apollo and Artemis

    mempool/src/rr_batcher.rs, client_listener.rs, confirmation_router.rs and
    the wiring of `KeyedMempool::spawn` (lib.rs).  The tasks share nothing but
    unbounded channels, so a task is a function on its own state that consumes
    one message, and the pipeline is a step relation on the tasks' states and
    the contents of the channels. *)

From S2P Require Import Prelude Crypto Types Text Batch TxPool.

(** ** mempool/src/rr_batcher.rs *)
Record Parameters := mkParameters {
  par_my_id : Replica;
  par_initial_leader : Replica;
  par_batch_size : N;
}.

Record RRBatcher {Tx : Type} := mkRRBatcher {
  my_id : Replica;
  current_leader : Replica;
  current_round : N;
  proposed : bool;
  pool : Txpool Tx;
}.
Arguments RRBatcher Tx : clear implicits.
Arguments mkRRBatcher {Tx}.
#[export] Instance eta_RRBatcher Tx : Eta (RRBatcher Tx) := λ x,
  mkRRBatcher (my_id x) (current_leader x) (current_round x) (proposed x) (pool x).

(** What wakes the task's `select!`; [None] is a closed channel. *)
Inductive rr_event `{Crypto} {Tx : Type} :=
  | EvTimer
  | EvTx (m : option (Tx * N))
  | EvConsensus (m : option (BatcherConsensusMsg Tx)).
Arguments rr_event {_} Tx.

Section rr_batcher.
Context `{MempoolTx Tx}.
Implicit Types (st : RRBatcher Tx).

Definition rr_new (params : Parameters) : RRBatcher Tx :=
  {| my_id := par_my_id params; current_leader := par_initial_leader params;
     current_round := 0; proposed := false; pool := pool_new (par_batch_size params) |}.

(** A call's batches go to the seal task while [open]; the value is what was
    sent and whether the task goes on (`Ok`) or ends (`Err`). *)
Definition rr_result : Type := list (CachedBatch Tx) * bool.

Definition propose (open : bool) (batch : CachedBatch Tx) : M (RRBatcher Tx) rr_result :=
  modify (λ st, st <| proposed := true |>);;;
  if open then ret ([batch], true) else ret ([], false).

(** `self.pool.make_batch(self.current_round)`, then propose if not empty. *)
Definition seal_and_propose (open : bool) : M (RRBatcher Tx) rr_result := λ st,
  match make_batch (current_round st) (pool st) with
  | Done payload p =>
      let st := st <| pool := p |> in
      match payload with
      | [] => Done ([], true) st
      | _ => propose open (batch_new payload) st
      end
  | Panicked w => Panicked w
  | OutOfFuel => OutOfFuel
  end.

Definition can_propose st : bool :=
  (my_id st =? current_leader st)%N && negb (proposed st).

Definition try_propose (open : bool) : M (RRBatcher Tx) rr_result :=
  let! st := get in
  if can_propose st && ready (pool st) then seal_and_propose open else ret ([], true).

(** One turn of the `run` loop; the timer branch is disabled, and nothing
    happens, unless the batcher may propose. *)
Definition rr_step (open : bool) (ev : rr_event Tx) : M (RRBatcher Tx) rr_result :=
  let! st := get in
  let can := can_propose st in
  match ev with
  | EvTimer => if can then seal_and_propose open else ret ([], true)
  | EvTx None => ret ([], false)
  | EvTx (Some (tx, tx_size)) =>
      modify (λ st, st <| pool ::= add_tx tx tx_size |>);;;
      let! st := get in
      if can && ready (pool st) then seal_and_propose open else ret ([], true)
  | EvConsensus None => ret ([], false)
  | EvConsensus (Some (NewRound leader round)) =>
      modify (λ st, st <| current_leader := leader |> <| current_round := round |>
                       <| proposed := false |> <| pool ::= reset_timer |>);;;
      try_propose open
  | EvConsensus (Some (Proposed batch round)) =>
      modify (λ st, st <| pool ::= admit_proposal batch round |>);;; ret ([], true)
  | EvConsensus (Some (Committed batch round)) =>
      modify (λ st, st <| pool ::= commit batch round |>);;; ret ([], true)
  | EvConsensus (Some (Rollback rounds)) =>
      modify (λ st, st <| pool ::= rollback rounds |>);;; ret ([], true)
  end.

(** The task over a run of events; it stops at the first `Err`. *)
Fixpoint rr_run (evs : list (rr_event Tx)) : M (RRBatcher Tx) (list (CachedBatch Tx)) :=
  match evs with
  | [] => ret []
  | ev :: evs' =>
      let! r := rr_step true ev in
      if r.2 then let! out := rr_run evs' in ret (r.1 ++ out) else ret r.1
  end.

(** *** What one turn does *)

Definition is_new_round (ev : rr_event Tx) : bool :=
  match ev with EvConsensus (Some (NewRound _ _)) => true | _ => false end.

(** A batch that went out: the state allowed it, and it is non-empty and in
    flight at the current round. *)
Definition sealed_ok st' (out : list (CachedBatch Tx)) : Prop :=
  out = [] ∨
  (current_leader st' = my_id st' ∧ proposed st' = true ∧
   ∃ l, out = [batch_new l.*1] ∧ l ≠ [] ∧
     Forall (λ v, inflight (pool st') !! tx_key v.1 =
                    Some (mkInflight v.1 v.2 (current_round st'))) l).

(** Within a round the leader and the round stand still, `proposed` is only
    ever set, and it is set when a batch goes out. *)
Definition same_round st (out : list (CachedBatch Tx)) st' : Prop :=
  current_leader st' = current_leader st ∧ current_round st' = current_round st ∧
  (proposed st = true → proposed st' = true) ∧
  (out = [] ∨ (proposed st = false ∧ proposed st' = true)).

Record turn_ok (new : bool) st (r : rr_result) st' : Prop := {
  turn_wf : pool_wf (pool st');
  turn_id : my_id st' = my_id st;
  turn_sealed : sealed_ok st' r.1;
  turn_round : new = false → same_round st r.1 st';
}.

Lemma quiet_turn new st st' b :
  pool_wf (pool st') → my_id st' = my_id st →
  (new = false → current_leader st' = current_leader st ∧
     current_round st' = current_round st ∧ proposed st' = proposed st) →
  turn_ok new st ([], b) st'.
Proof.
  intros ?? Hn. split; [done..|by left|]. unfold same_round. intros (-> & -> & ->)%Hn.
  split; [done|]. split; [done|]. split; [done|by left].
Qed.

Lemma make_batch_out r (p : Txpool Tx) :
  pool_wf p → ∃ l p', make_batch r p = Done l.*1 p' ∧ pool_wf p' ∧
    Forall (λ v, inflight p' !! tx_key v.1 = Some (mkInflight v.1 v.2 r)) l.
Proof.
  intros Hwf. destruct (make_batch_takes r p) as (l & p' & E & Ht).
  assert (pool_wf (touch_round r p)) as Hwf' by (by apply touch_round_wf).
  exists l, (reset_timer p'). split; [done|]. split; [eauto using reset_timer_wf, takes_wf|].
  by apply (takes_inflight _ _ _ _ _ Ht Hwf').
Qed.

Lemma sealing_turn new st st1 :
  pool_wf (pool st1) → my_id st1 = my_id st → can_propose st1 = true →
  (new = false → current_leader st1 = current_leader st ∧
     current_round st1 = current_round st ∧ proposed st1 = proposed st) →
  wp (seal_and_propose true) (turn_ok new st) st1.
Proof.
  intros Hwf Hid [Hme%N.eqb_eq Hnp%negb_true_iff]%andb_true_iff Hn.
  destruct (make_batch_out (current_round st1) _ Hwf) as (l & p' & E & Hp & Hl).
  unfold seal_and_propose, wpp. rw E. destruct l as [|v l]; simpl.
  - by apply quiet_turn.
  - split; simpl; [done..| |].
    + right. split; [done|]. split; [done|]. by exists (v :: l).
    + intros (? & ? & Hpr)%Hn. split; [done|]. split; [done|]. split; [done|].
      right. by rw -Hpr.
Qed.

Lemma rr_step_turn ev st :
  pool_wf (pool st) → wp (rr_step true ev) (turn_ok (is_new_round ev) st) st.
Proof.
  intros Hwf. unfold rr_step. wpp_go.
  destruct ev as [|[[tx sz]|]|[[ld r|b r|b r|rs]|]]; unfold try_propose; wpp_go; simpl.
  all: try (apply quiet_turn; simpl; by eauto using add_tx_wf, commit_wf, admit_proposal_wf,
    rollback_wf, reset_timer_wf).
  - by apply sealing_turn.
  - match goal with H : _ && _ = true |- _ => apply andb_true_iff in H as [? _] end.
    apply sealing_turn; simpl; by eauto using add_tx_wf.
  - match goal with H : _ && _ = true |- _ => apply andb_true_iff in H as [? _] end.
    apply sealing_turn; simpl; by eauto using reset_timer_wf.
Qed.

(** *** Runs *)
Lemma rr_run_wf evs st :
  pool_wf (pool st) →
  wp (rr_run evs) (λ out st', pool_wf (pool st') ∧ my_id st' = my_id st ∧
    Forall (λ b, payload b ≠ []) out) st.
Proof.
  revert st. induction evs as [|ev evs IH]; intros st Hwf; simpl; wpp_go; [done|].
  eapply wpp_mono; [by apply rr_step_turn|]. intros [out go] st1 [T1 T2 T3 _]; simpl in *.
  assert (Forall (λ b, payload b ≠ []) out) as Hne.
  { destruct T3 as [->|(_ & _ & l & -> & Hl & _)]; [constructor|].
    constructor; [|constructor]. by destruct l. }
  destruct go; wpp_go; [|done].
  eapply wpp_mono; [by apply IH|]. intros out' st' (? & ? & ?). wpp_go.
  split; [done|]. split; [congruence|]. by apply Forall_app.
Qed.

Lemma rr_run_quiet evs st :
  pool_wf (pool st) → Forall (λ ev, is_new_round ev = false) evs →
  wp (rr_run evs) (λ out st', (proposed st = true → out = []) ∧
    (current_leader st ≠ my_id st → out = []) ∧ length out ≤ 1) st.
Proof.
  revert st. induction evs as [|ev evs IH]; intros st Hwf Hq; simpl; wpp_go.
  { split; [done|]. split; [done|]. simpl; lia. }
  apply Forall_cons in Hq as [Hev Hq].
  eapply wpp_mono; [by apply rr_step_turn|]. intros [out go] st1 [T1 T2 T3 T4]; simpl in *.
  destruct (T4 Hev) as (E1 & E2 & E3 & E4).
  assert (length out ≤ 1 ∧ (current_leader st ≠ my_id st → out = [])) as [Hl Hnl].
  { destruct T3 as [->|(? & _ & l & -> & _)]; simpl; [split; [lia|done]|].
    split; [lia|]. intros []. congruence. }
  assert (proposed st = true → out = []) as Hp.
  { intros Hp. destruct E4 as [->|[Hf _]]; [done|congruence]. }
  destruct go; wpp_go; [|done].
  eapply wpp_mono; [by apply IH|]. intros out' st' (I1 & I2 & I3). wpp_go.
  rw E1 T2 in I2. split; [|split].
  - intros Hp'. by rw (Hp Hp') (I1 (E3 Hp')).
  - intros Hnl'. by rw (Hnl Hnl') I2.
  - rw length_app. destruct E4 as [->|[_ Hp']]; [done|]. rw (I1 Hp') /=. lia.
Qed.
End rr_batcher.

(** ** mempool/src/client_listener.rs

    One item of the ingress stream.  [open] says whether the batcher still
    listens; the value is what is registered with the router, what is handed
    to the batcher, and whether the task goes on. *)
Section client_listener.
Context `{MempoolTx Tx}.

Fixpoint forward_batch (open : bool) (batch : list Tx) (reply_to : SocketAddr)
    : list (Hash * SocketAddr) * list (Tx * N) * bool :=
  match batch with
  | [] => ([], [], true)
  | tx :: batch' =>
      if open then
        let '(regs, txs, go) := forward_batch open batch' reply_to in
        ((tx_hash tx, reply_to) :: regs, (tx, serialized_size tx) :: txs, go)
      else ([(tx_hash tx, reply_to)], [], false)
  end.

Definition listener_step (open : bool) (item : stream_item (ClientMsg Tx))
    : list (Hash * SocketAddr) * list (Tx * N) * bool :=
  match item with
  | Closed => ([], [], false)
  | DecodeError => ([], [], true)
  | Item (NewBatch batch reply_to) => forward_batch open batch reply_to
  | Item (NewTx tx reply_to) => forward_batch open [tx] reply_to
  | Item (Confirmation _) => ([], [], true)
  end.

Lemma forward_batch_open (batch : list Tx) (reply_to : SocketAddr) :
  forward_batch true batch reply_to =
  ((λ tx, (tx_hash tx, reply_to)) <$> batch, (λ tx, (tx, serialized_size tx)) <$> batch, true).
Proof. induction batch as [|tx batch IH]; simpl; [done|]. by rw IH. Qed.
End client_listener.

(** ** mempool/src/confirmation_router.rs *)
Record Router `{Crypto} := mkRouter {
  pending : gmap Hash SocketAddr;
  reply_peers : gset SocketAddr;
}.
Arguments mkRouter {_}.
#[export] Instance eta_Router `{Crypto} : Eta Router := λ x, mkRouter (pending x) (reply_peers x).

Section router.
Context `{MempoolTx Tx}.
Implicit Types rt : Router.

Definition router_new : Router := mkRouter ∅ ∅.

Definition router_register (tx_hash : Hash) (addr : SocketAddr) rt : Router :=
  rt <| pending ::= insert tx_hash addr |>.

(** One transaction of a committed batch: the confirmation that is sent, if
    somebody waits for it. *)
Definition router_confirm rt (tx : Tx) : Router * list (SocketAddr * ClientMsg Tx) :=
  let h := tx_hash tx in
  match pending rt !! h with
  | Some addr =>
      (rt <| pending ::= delete h |> <| reply_peers ::= union {[ addr ]} |>,
       [(addr, Confirmation h)])
  | None => (rt, [])
  end.

Fixpoint router_commit (payload : list Tx) rt : Router * list (SocketAddr * ClientMsg Tx) :=
  match payload with
  | [] => (rt, [])
  | tx :: payload' =>
      let '(rt, out) := router_confirm rt tx in
      let '(rt, out') := router_commit payload' rt in
      (rt, out ++ out')
  end.

Inductive router_event :=
  | RvRegister (h : Hash) (addr : SocketAddr)
  | RvCommitted (batch : CachedBatch Tx).

Definition router_step (ev : router_event) rt : Router * list (SocketAddr * ClientMsg Tx) :=
  match ev with
  | RvRegister h addr => (router_register h addr rt, [])
  | RvCommitted b => router_commit (payload b) rt
  end.

Fixpoint router_run (evs : list router_event) rt : Router * list (SocketAddr * ClientMsg Tx) :=
  match evs with
  | [] => (rt, [])
  | ev :: evs' =>
      let '(rt, out) := router_step ev rt in
      let '(rt, out') := router_run evs' rt in
      (rt, out ++ out')
  end.

(** How often [h] was registered, is still pending, and was confirmed. *)
Definition registers (h : Hash) (ev : router_event) : bool :=
  match ev with RvRegister h' _ => bool_decide (h' = h) | _ => false end.
Definition waiting (h : Hash) rt : nat := match pending rt !! h with Some _ => 1 | None => 0 end.
Definition confirms (h : Hash) (m : SocketAddr * ClientMsg Tx) : bool :=
  match m.2 with Confirmation h' => bool_decide (h' = h) | _ => false end.

(** A confirmation uses up what was waiting. *)
Lemma router_confirm_count h rt tx :
  waiting h (router_confirm rt tx).1 + countb (confirms h) (router_confirm rt tx).2
    = waiting h rt.
Proof.
  unfold router_confirm. destruct (pending rt !! tx_hash tx) as [addr|] eqn:E; simpl; [|lia].
  unfold waiting, confirms; simpl. rw lookup_delete.
  case_bool_decide as Hh; case_decide; try congruence; [subst h; by rw E|lia].
Qed.

Lemma router_commit_count h l rt :
  waiting h (router_commit l rt).1 + countb (confirms h) (router_commit l rt).2 = waiting h rt.
Proof.
  revert rt. induction l as [|tx l IH]; intros rt; simpl; [lia|].
  pose proof (router_confirm_count h rt tx) as Hc. destruct (router_confirm rt tx) as [rt1 out].
  specialize (IH rt1). destruct (router_commit l rt1) as [rt2 out']. simpl in *.
  rw countb_app. lia.
Qed.

Lemma router_run_count h evs rt :
  countb (confirms h) (router_run evs rt).2 + waiting h (router_run evs rt).1
    ≤ waiting h rt + countb (registers h) evs.
Proof.
  revert rt. induction evs as [|ev evs IH]; intros rt; simpl; [lia|].
  destruct (router_step ev rt) as [rt1 out] eqn:E.
  specialize (IH rt1). destruct (router_run evs rt1) as [rt2 out']. simpl in *.
  rw countb_app. destruct ev as [h' addr|b]; simpl in *.
  - injection E as <- <-. simpl.
    enough (waiting h (router_register h' addr rt)
      ≤ waiting h rt + if bool_decide (h' = h) then 1 else 0) by lia.
    unfold waiting; simpl. rw lookup_insert.
    case_decide; case_bool_decide; try congruence; [|lia]. destruct (pending rt !! h); lia.
  - pose proof (router_commit_count h (payload b) rt) as Hc. rw E in Hc. simpl in Hc. lia.
Qed.

(** What a commit confirms is exactly what was pending among its
    transactions, each to the address that registered it last. *)
Lemma router_commit_pending l rt h :
  pending (router_commit l rt).1 !! h =
    if decide (h ∈ tx_hash <$> l) then None else pending rt !! h.
Proof.
  revert rt. induction l as [|tx l IH]; intros rt; cbn [router_commit fmap list_fmap].
  { by destruct (decide (h ∈ [])) as [?%not_elem_of_nil|]. }
  destruct (router_confirm rt tx) as [rt1 out] eqn:E.
  specialize (IH rt1). destruct (router_commit l rt1) as [rt2 out']. simpl in IH |- *. rw IH. clear IH.
  assert (pending rt1 !! h = if decide (tx_hash tx = h) then None else pending rt !! h) as ->.
  { unfold router_confirm in E. destruct (pending rt !! tx_hash tx) eqn:Ep.
    - injection E as <- <-. simpl. by rw lookup_delete.
    - injection E as <- <-. case_decide as Hd; [by rw -Hd|done]. }
  pose proof (elem_of_cons (tx_hash <$> l) h (tx_hash tx)) as Hc.
  repeat case_decide; naive_solver.
Qed.

Lemma router_commit_all (l : list Tx) a rt :
  NoDup (tx_hash <$> l) → (∀ tx, tx ∈ l → pending rt !! tx_hash tx = Some a) →
  (router_commit l rt).2 = (λ tx, (a, Confirmation (tx_hash tx))) <$> l.
Proof.
  revert rt. induction l as [|tx l IH]; intros rt Hnd Hp; simpl; [done|].
  apply NoDup_cons in Hnd as [Hh Hnd]. unfold router_confirm. rw Hp; [|constructor].
  match goal with |- context [router_commit l ?rt1] => pose proof (IH rt1 Hnd) as E end.
  destruct (router_commit l _) as [rt2 out]. simpl in *. rw E //. intros tx' Hin.
  rw lookup_delete_ne; [apply Hp; by constructor|]. intros Eh. apply Hh. rw Eh.
  by apply list_elem_of_fmap_2.
Qed.

(** Registering a whole batch. *)
Lemma register_all (l : list Tx) a rt tx :
  tx ∈ l → pending (foldl (λ rt r, router_register r.1 r.2 rt) rt
    ((λ tx, (tx_hash tx, a)) <$> l)) !! tx_hash tx = Some a.
Proof.
  assert (∀ l rt, tx ∈ l ∨ pending rt !! tx_hash tx = Some a →
    pending (foldl (λ rt r, router_register r.1 r.2 rt) rt
      ((λ tx, (tx_hash tx, a)) <$> l)) !! tx_hash tx = Some a) as Hgen; [|by intros; apply Hgen; left].
  clear. intros l. induction l as [|tx' l IH]; intros rt Hin; simpl.
  { destruct Hin as [?%not_elem_of_nil|]; done. }
  apply IH. rw lookup_insert. case_decide; [by right|].
  destruct Hin as [[->|]%elem_of_cons|]; [done|by left|by right].
Qed.

Lemma router_commit_out l rt a m :
  (a, m) ∈ (router_commit l rt).2 →
  ∃ tx, tx ∈ l ∧ m = Confirmation (tx_hash tx) ∧ pending rt !! tx_hash tx = Some a.
Proof.
  revert rt. induction l as [|tx l IH]; intros rt; simpl; [by intros ?%not_elem_of_nil|].
  destruct (router_confirm rt tx) as [rt1 out] eqn:E.
  specialize (IH rt1). destruct (router_commit l rt1) as [rt2 out']. simpl in *.
  unfold router_confirm in E. intros [Hin|Hin]%elem_of_app.
  - destruct (pending rt !! tx_hash tx) as [a'|] eqn:Ep; injection E as <- <-;
      [|by apply not_elem_of_nil in Hin].
    apply list_elem_of_singleton in Hin as [= -> ->]. exists tx. split; [constructor|done].
  - destruct (IH Hin) as (tx' & ? & -> & Hp). exists tx'. split; [by constructor|].
    split; [done|]. destruct (pending rt !! tx_hash tx) as [a'|] eqn:Ep; injection E as <- <-;
      [|done]. simpl in Hp. rw lookup_delete in Hp. by case_decide.
Qed.
End router.

(** ** mempool/src/lib.rs: `KeyedMempool::spawn`

    The tasks and the channels between them.  [ch_*] hold what was sent and
    not yet received, oldest first; [to_consensus] and [replies] hold
    everything that ever left the pipeline. *)
Record KeyedMempool `{Crypto} `{Store} {Tx : Type} := mkKeyed {
  k_batcher : RRBatcher Tx;
  k_router : Router;
  k_cache : gmap Hash (CachedBatch Tx);
  k_store : store;
  ch_tx : list (Tx * N);
  ch_reg : list (Hash * SocketAddr);
  ch_bcm : list (BatcherConsensusMsg Tx);
  ch_sealed : list (CachedBatch Tx);
  ch_committed : list (CachedBatch Tx);
  to_consensus : list (Hash * CachedBatch Tx);
  replies : list (SocketAddr * ClientMsg Tx);
}.
Arguments KeyedMempool {_ _} Tx.
Arguments mkKeyed {_ _ Tx}.
#[export] Instance eta_Keyed `{Crypto} `{Store} Tx : Eta (KeyedMempool Tx) := λ x,
  mkKeyed (k_batcher x) (k_router x) (k_cache x) (k_store x) (ch_tx x) (ch_reg x)
    (ch_bcm x) (ch_sealed x) (ch_committed x) (to_consensus x) (replies x).

Section keyed.
Context `{MempoolTx Tx} `{Store}.
Implicit Types k : KeyedMempool Tx.

Definition keyed_spawn (my_id initial_leader : Replica) (batch_size : N) (st : store)
    : KeyedMempool Tx :=
  {| k_batcher := rr_new (mkParameters my_id initial_leader batch_size);
     k_router := router_new; k_cache := ∅; k_store := st;
     ch_tx := []; ch_reg := []; ch_bcm := []; ch_sealed := []; ch_committed := [];
     to_consensus := []; replies := [] |}.

(** A turn of the seal-and-persist task: hash, cache, notify, write.  [open]:
    the channel to consensus has a receiver; without one the batch stays in the
    cache only and the task ends.  The value says whether it goes on. *)
Definition seal_task (open : bool) (batch : CachedBatch Tx) k : KeyedMempool Tx * bool :=
  let '(h, batch) := hash_get_or_init batch in
  let k := k <| k_cache ::= cache_insert h batch |> in
  if open then
    (k <| to_consensus ::= λ l, l ++ [(h, batch)] |>
       <| k_store ::= store_write (hash_as_ref h) (batch_serialize batch) |>, true)
  else (k, false).

(** A turn of the batcher that consumed its event. *)
Definition batcher_turn (ev : rr_event Tx) k : outcome (KeyedMempool Tx) unit :=
  match rr_step true ev (k_batcher k) with
  | Done (out, _) st => Done tt (k <| k_batcher := st |> <| ch_sealed ::= λ l, l ++ out |>)
  | Panicked w => Panicked w
  | OutOfFuel => OutOfFuel
  end.

(** One turn of one task, or one message from outside: a client's, or a
    signal or a committed batch of the consensus reactor.  The reactor and
    the other tasks are alive: a task finds its channels open. *)
Inductive keyed_step : KeyedMempool Tx → KeyedMempool Tx → Prop :=
  | step_client k item regs txs go :
      listener_step true item = (regs, txs, go) →
      keyed_step k (k <| ch_reg ::= λ l, l ++ regs |> <| ch_tx ::= λ l, l ++ txs |>)
  | step_timer k k' :
      batcher_turn EvTimer k = Done tt k' → keyed_step k k'
  | step_tx k m rest k' :
      ch_tx k = m :: rest →
      batcher_turn (EvTx (Some m)) (k <| ch_tx := rest |>) = Done tt k' → keyed_step k k'
  | step_msg k m rest k' :
      ch_bcm k = m :: rest →
      batcher_turn (EvConsensus (Some m)) (k <| ch_bcm := rest |>) = Done tt k' →
      keyed_step k k'
  | step_seal k b rest :
      ch_sealed k = b :: rest →
      keyed_step k (seal_task true b (k <| ch_sealed := rest |>)).1
  | step_register k h addr rest :
      ch_reg k = (h, addr) :: rest →
      keyed_step k (k <| ch_reg := rest |> <| k_router ::= router_register h addr |>)
  | step_committed k b rest rt out :
      ch_committed k = b :: rest →
      router_commit (payload b) (k_router k) = (rt, out) →
      keyed_step k (k <| ch_committed := rest |> <| k_router := rt |>
                      <| replies ::= λ l, l ++ out |>)
  | step_signal k m :
      keyed_step k (k <| ch_bcm ::= λ l, l ++ [m] |>)
  | step_ack k b :
      keyed_step k (k <| ch_committed ::= λ l, l ++ [b] |>).

(** A schedule says who takes the next turn; running one is a path of the
    step relation. *)
Inductive turn :=
  | TClient (item : stream_item (ClientMsg Tx))
  | TTimer | TTx | TMsg | TSeal | TRegister | TCommitted
  | TSignal (m : BatcherConsensusMsg Tx)
  | TAck (b : CachedBatch Tx).

Definition run_batcher (ev : rr_event Tx) k : option (KeyedMempool Tx) :=
  match batcher_turn ev k with Done _ k' => Some k' | _ => None end.

Definition take_turn (t : turn) k : option (KeyedMempool Tx) :=
  match t with
  | TClient item =>
      let '(regs, txs, _) := listener_step true item in
      Some (k <| ch_reg ::= λ l, l ++ regs |> <| ch_tx ::= λ l, l ++ txs |>)
  | TTimer => run_batcher EvTimer k
  | TTx => match ch_tx k with
           | m :: rest => run_batcher (EvTx (Some m)) (k <| ch_tx := rest |>)
           | [] => None end
  | TMsg => match ch_bcm k with
            | m :: rest => run_batcher (EvConsensus (Some m)) (k <| ch_bcm := rest |>)
            | [] => None end
  | TSeal => match ch_sealed k with
             | b :: rest => Some (seal_task true b (k <| ch_sealed := rest |>)).1
             | [] => None end
  | TRegister => match ch_reg k with
                 | (h, a) :: rest =>
                     Some (k <| ch_reg := rest |> <| k_router ::= router_register h a |>)
                 | [] => None end
  | TCommitted => match ch_committed k with
                  | b :: rest =>
                      let '(rt, out) := router_commit (payload b) (k_router k) in
                      Some (k <| ch_committed := rest |> <| k_router := rt |>
                              <| replies ::= λ l, l ++ out |>)
                  | [] => None end
  | TSignal m => Some (k <| ch_bcm ::= λ l, l ++ [m] |>)
  | TAck b => Some (k <| ch_committed ::= λ l, l ++ [b] |>)
  end.

Definition run_schedule (ts : list turn) k : option (KeyedMempool Tx) :=
  foldl (λ o t, o ≫= take_turn t) (Some k) ts.

Lemma run_batcher_Some ev k k' : run_batcher ev k = Some k' → batcher_turn ev k = Done tt k'.
Proof. unfold run_batcher. destruct (batcher_turn ev k) as [[] ?| |]; naive_solver. Qed.

Lemma take_turn_step t k k' : take_turn t k = Some k' → keyed_step k k'.
Proof.
  destruct t as [item| | | | | | | |]; simpl.
  - destruct (listener_step true item) as [[regs txs] go] eqn:E. intros [= <-].
    by eapply step_client.
  - intros ?%run_batcher_Some. by apply step_timer.
  - destruct (ch_tx k) eqn:E; [done|]. intros ?%run_batcher_Some. by eapply step_tx.
  - destruct (ch_bcm k) eqn:E; [done|]. intros ?%run_batcher_Some. by eapply step_msg.
  - destruct (ch_sealed k) eqn:E; [done|]. intros [= <-]. by apply step_seal.
  - destruct (ch_reg k) as [|[]] eqn:E; [done|]. intros [= <-]. by apply step_register.
  - destruct (ch_committed k) eqn:E; [done|]. destruct (router_commit _ _) eqn:Er.
    intros [= <-]. by eapply step_committed.
  - intros [= <-]. apply step_signal.
  - intros [= <-]. apply step_ack.
Qed.

Lemma run_schedule_steps ts k k' : run_schedule ts k = Some k' → rtc keyed_step k k'.
Proof.
  unfold run_schedule. revert k. induction ts as [|t ts IH]; intros k; simpl.
  { intros [= ->]. apply rtc_refl. }
  destruct (take_turn t k) as [k1|] eqn:E; [|intros Hr; exfalso; clear -Hr; by induction ts].
  intros Hr. eapply rtc_l; [by eapply take_turn_step|by apply IH].
Qed.

Record keyed_inv k : Prop := {
  ki_pool : pool_wf (pool (k_batcher k));
  ki_cache : cache_ok (k_cache k);
  ki_sealed : Forall (λ b, batch_ok b ∧ payload b ≠ []) (ch_sealed k);
  ki_out : Forall (λ hb, hb.1 = hash hb.2 ∧ batch_ok hb.2 ∧ payload hb.2 ≠ [] ∧
                         is_Some (cache_get (k_cache k) hb.1)) (to_consensus k);
}.

Lemma keyed_spawn_inv me ld size st : keyed_inv (keyed_spawn me ld size st).
Proof. split; simpl; [apply pool_new_wf|done|constructor..]. Qed.

Lemma batcher_turn_inv ev k k' :
  keyed_inv k → batcher_turn ev k = Done tt k' → keyed_inv k'.
Proof.
  intros [I1 I2 I3 I4]. unfold batcher_turn. pose proof (rr_step_turn ev _ I1) as Ht.
  unfold wpp in Ht. destruct (rr_step true ev (k_batcher k)) as [[out go] st| |]; [|done..].
  intros [= <-]. destruct Ht as [T1 _ T3 _]. simpl in T3. split; simpl; try done.
  apply Forall_app. split; [done|]. destruct T3 as [->|(_ & _ & l & -> & Hl & _)]; [constructor|].
  constructor; [|constructor]. split; [apply batch_new_ok|]. by destruct l.
Qed.

Lemma seal_task_inv open b rest k :
  keyed_inv k → ch_sealed k = b :: rest →
  keyed_inv (seal_task open b (k <| ch_sealed := rest |>)).1.
Proof.
  intros [I1 I2 I3 I4] E. rw E in I3. apply Forall_cons in I3 as [[Hb Hne] I3].
  assert (Forall (λ hb, hb.1 = hash hb.2 ∧ batch_ok hb.2 ∧ payload hb.2 ≠ [] ∧
    is_Some (cache_get (cache_insert (hash b) (hash_get_or_init b).2 (k_cache k)) hb.1))
    (to_consensus k)) as I4'.
  { eapply Forall_impl; [exact I4|]. intros [h b'] (? & ? & ? & [b1 Hb1]). simpl in *.
    do 3 (split; [done|]). eexists. by apply cache_insert_mono. }
  assert (cache_ok (cache_insert (hash b) (hash_get_or_init b).2 (k_cache k))) as I2'
    by (apply cache_insert_ok; [done|by apply hash_init_ok|done]).
  destruct open; split; simpl; try done.
  apply Forall_app. split; [done|]. constructor; [|constructor]. simpl. split; [done|]. split; [by apply (hash_init_ok b)|].
  split; [done|]. rw cache_get_insert. eauto.
Qed.

Lemma keyed_step_inv k k' : keyed_step k k' → keyed_inv k → keyed_inv k'.
Proof.
  destruct 1; intros Hk; try (destruct Hk; by split);
    try (eapply batcher_turn_inv; [|eassumption]; destruct Hk; by split).
  by apply seal_task_inv.
Qed.

(** The batcher never gets stuck: a turn that can be taken returns. *)
Lemma batcher_turn_total ev k : keyed_inv k → ∃ k', batcher_turn ev k = Done tt k'.
Proof.
  intros [I1 _ _ _]. unfold batcher_turn. pose proof (rr_step_turn ev _ I1) as Ht.
  unfold wpp in Ht. destruct (rr_step true ev (k_batcher k)) as [[out go] st| |]; [eauto|done..].
Qed.
End keyed.

(** ** The keyed pipeline's guarantees *)
Section guarantees.
Context `{MempoolTx Tx} `{Store}.
Implicit Types (k : KeyedMempool Tx).

(** C24.  Within a round (between two `NewRound` signals) the batcher ships
    at most one batch, none if this node is not the leader, and none if it
    has already proposed; whatever it ships is non-empty; and it never
    panics or hangs. *)
Theorem rr_one_batch_per_round (params : Parameters) before during :
  Forall (λ ev : rr_event Tx, is_new_round ev = false) during →
  ∃ out1 st1 out2 st2,
    rr_run before (rr_new params) = Done out1 st1 ∧
    rr_run during st1 = Done out2 st2 ∧
    length out2 ≤ 1 ∧ Forall (λ b, payload b ≠ []) out2 ∧
    (proposed st1 = true → out2 = []) ∧
    (current_leader st1 ≠ par_my_id params → out2 = []).
Proof.
  intros Hq. destruct (wpp_done _ _ _ (rr_run_wf before (rr_new params) (pool_new_wf _)))
    as (out1 & st1 & E1 & Hwf & Hid & _). simpl in Hid.
  destruct (wpp_done _ _ _ (rr_run_quiet during st1 Hwf Hq)) as (out2 & st2 & E2 & H1' & H2' & H3').
  pose proof (rr_run_wf during st1 Hwf) as Hw. unfold wpp in Hw. rw E2 in Hw.
  exists out1, st1, out2, st2. rw -Hid. naive_solver.
Qed.

(** C23.  The pipeline's invariant holds in every state it can reach: the
    pool is well formed, every cache entry is filed under the hash of its
    payload, and every batch announced to consensus is non-empty, carries
    its own hash, and can be read back from the cache under it. *)
Theorem keyed_reachable me ld size st k :
  rtc keyed_step (keyed_spawn me ld size st) k → keyed_inv k.
Proof.
  intros Hr. eapply (rtc_ind_r keyed_inv); [apply keyed_spawn_inv| |exact Hr].
  intros k1 k2 _ Hs Hk. by eapply keyed_step_inv.
Qed.

(** C29.  A client gets at most one confirmation per registration of a
    transaction.  A committed batch confirms only its own transactions, each
    to the address pending for it, and leaves none of them pending. *)
Theorem router_confirms_once (h : Hash) (evs : list (router_event (Tx:=Tx))) :
  let rt := (router_run evs router_new).1 in
  countb (confirms h) (router_run evs router_new).2 + waiting h rt ≤ countb (registers h) evs ∧
  ∀ b, (∀ a m, (a, m) ∈ (router_step (RvCommitted b) rt).2 →
          ∃ tx : Tx, tx ∈ payload b ∧ m = Confirmation (tx_hash tx) ∧
            pending rt !! tx_hash tx = Some a) ∧
       (∀ h', pending (router_step (RvCommitted b) rt).1 !! h' =
          if decide (h' ∈ tx_hash <$> payload b) then None else pending rt !! h').
Proof.
  intros rt. split.
  - pose proof (router_run_count h evs router_new) as Hc.
    assert (waiting h router_new = 0) as E by (unfold waiting; by rw /= lookup_empty).
    unfold rt. lia.
  - intros b. split; [apply router_commit_out|apply router_commit_pending].
Qed.
End guarantees.

(** ** Examples *)
Module KeyedExamples.
Import Toy ToyFormat PoolExamples.

Definition boot : Parameters := mkParameters 1 1 20.
Definition before : list (rr_event Transaction) :=
  [EvTx (Some (tx 1 1, 30%N)); EvConsensus (Some (NewRound 1 4))].
Definition during : list (rr_event Transaction) :=
  [EvTx (Some (tx 1 2, 30%N)); EvTimer; EvTx (Some (tx 1 3, 30%N)); EvTimer].

Lemma rr_one_batch_witness :
  ∃ out1 st1 out2 st2, rr_run before (rr_new boot) = Done out1 st1 ∧
    rr_run during st1 = Done out2 st2 ∧ length out2 ≤ 1 ∧
    rr_run before (rr_new boot) =
      Done [batch_new [tx 1 1]] (mkRRBatcher 1 1 4 false (pool st1)) ∧
    out2 = [batch_new [tx 1 2]].
Proof.
  destruct (rr_one_batch_per_round boot before during)
    as (out1 & st1 & out2 & st2 & E1 & E2 & E3 & _); [repeat constructor|].
  exists out1, st1, out2, st2. split; [exact E1|]. split; [exact E2|]. split; [exact E3|].
  vm_compute in E1. injection E1 as <- <-. vm_compute in E2. injection E2 as <- <-.
  split; vm_compute; reflexivity.
Defined.

(** A client's transaction, a timer tick and the seal task. *)
Definition store0 : store := (∅ : gmap bytes bytes).
Definition k0 : KeyedMempool Transaction := keyed_spawn 1 1 20 store0.
Definition sched1 : list turn := [TClient (Item (NewTx (tx 1 1) (loopback 9))); TTx; TSeal].
Definition k1 : KeyedMempool Transaction := default k0 (run_schedule sched1 k0).

Lemma keyed_reachable_witness :
  rtc keyed_step k0 k1 ∧ keyed_inv k1 ∧ length (to_consensus k1) = 1.
Proof.
  assert (rtc keyed_step k0 k1) as Hr.
  { apply (run_schedule_steps sched1). unfold k1.
    assert (bool_decide (is_Some (run_schedule sched1 k0)) = true) as Hs
      by (vm_compute; reflexivity).
    apply bool_decide_eq_true in Hs as [k Hk]. rw Hk. reflexivity. }
  split; [exact Hr|]. split; [|vm_compute; reflexivity].
  apply (keyed_reachable 1 1 20 store0 k1 Hr).
Defined.
End KeyedExamples.
