(* ===== verification/NodeIO.v ===== *)
(** * What every node does besides consensus

    The parts of the four `Context` structs that the protocols share: the
    reliable sender with its retained cancel handlers, and the batch store
    behind the in-memory cache.  Each protocol wraps these in methods of its
    own `Context`. *)

From S2P Require Import Prelude Crypto Types Config Batch.

(** ** A `TlsReliableSender` and the handlers kept for it

    [sent] lists every message that was put on the wire, oldest first;
    [clock] numbers the sends; a handler is the number of its send and is
    filed under the round or height current when it was made. *)
Record Net {Msg : Type} := mkNet {
  handlers : gmap N (list N);
  clock : N;
  sent : list (N * Msg);
}.
Arguments Net Msg : clear implicits.
Arguments mkNet {Msg}.
#[export] Instance eta_Net Msg : Eta (Net Msg) := λ x, mkNet (handlers x) (clock x) (sent x).

Section net.
Context `{NetOracle} {Msg : Type}.
Implicit Types n : Net Msg.

Definition net_new : Net Msg := mkNet ∅ 0 [].

(** `remember(h)`: `handlers.entry(stamp).or_default().push(h)`. *)
Definition remember (stamp h : N) n : Net Msg :=
  n <| handlers ::= partial_alter (λ o, Some (default [] o ++ [h])) stamp |>.

(** One leg: the message goes out, and its handler is kept if it was
    accepted. *)
Definition net_send (stamp to : N) (msg : Msg) n : Net Msg :=
  let k := clock n in
  let n := n <| clock ::= N.succ |> <| sent ::= λ l, l ++ [(to, msg)] |> in
  if send_ok k to then remember stamp k n else n.

Definition net_broadcast (stamp : N) (peers : list N) (msg : Msg) n : Net Msg :=
  foldl (λ n to, net_send stamp to msg n) n peers.

(** `gc_handlers`: keep the unresolved ones, drop the empty entries. *)
Definition net_gc n : Net Msg :=
  n <| handlers ::= λ m, omap (λ hs,
    match filter (λ h, send_pending (clock n) h = true) hs with
    | [] => None
    | hs' => Some hs'
    end) m |>.

Lemma net_send_sent stamp to msg n : sent (net_send stamp to msg n) = sent n ++ [(to, msg)].
Proof. unfold net_send. by destruct (send_ok _ _). Qed.

Lemma net_broadcast_sent stamp peers msg n :
  sent (net_broadcast stamp peers msg n) = sent n ++ ((λ to, (to, msg)) <$> peers).
Proof.
  unfold net_broadcast. revert n. induction peers as [|to peers IH]; intros n; simpl.
  { by rw app_nil_r. }
  by rw IH net_send_sent -app_assoc.
Qed.

(** After a collection exactly the unresolved handlers are left. *)
Lemma net_gc_handlers n stamp h :
  h ∈ default [] (handlers (net_gc n) !! stamp) ↔
  h ∈ default [] (handlers n !! stamp) ∧ send_pending (clock n) h = true.
Proof.
  simpl. rw lookup_omap. destruct (handlers n !! stamp) as [hs|]; simpl.
  - destruct (filter _ hs) as [|h' hs'] eqn:E; simpl.
    + split; [by intros ?%not_elem_of_nil|]. intros [Hin Hp].
      assert (h ∈ filter (λ h, send_pending (clock n) h = true) hs) as Hf
        by by apply list_elem_of_filter. rw E in Hf. by apply not_elem_of_nil in Hf.
    + rw -E list_elem_of_filter. naive_solver.
  - split; [by intros ?%not_elem_of_nil|]. by intros [?%not_elem_of_nil _].
Qed.
End net.

(** ** The batch store and its cache *)
Record Batches `{Crypto} `{Store} := mkBatches {
  batch_store : store;
  batch_cache : gmap Hash (CachedBatch Transaction);
}.
Arguments Batches {_ _}.
Arguments mkBatches {_ _}.
#[export] Instance eta_Batches `{Crypto} `{Store} : Eta Batches := λ x,
  mkBatches (batch_store x) (batch_cache x).

Section batches.
Context `{Bincode} `{Store}.
Implicit Types bs : Batches.

Definition batches_persist (h : Hash) (b : CachedBatch Transaction) bs : Batches :=
  bs <| batch_cache ::= cache_insert h b |>
     <| batch_store ::= store_write (hash_as_ref h) (batch_serialize b) |>.

Definition batches_read (h : Hash) bs : option (CachedBatch Transaction) * Batches :=
  match cache_get (batch_cache bs) h with
  | Some cached => (Some cached, bs)
  | None =>
      match store_read (hash_as_ref h) (batch_store bs) with
      | Some bytes =>
          match batch_deserialize bytes with
          | Some b => (Some b, bs <| batch_cache ::= cache_insert h b |>)
          | None => (None, bs)
          end
      | None => (None, bs)
      end
  end.

(** A read only ever adds an entry for the hash it was asked for. *)
Lemma batches_read_mono h bs h' b :
  cache_get (batch_cache bs) h' = Some b →
  cache_get (batch_cache (batches_read h bs).2) h' = Some b.
Proof.
  intros Hb. unfold batches_read. destruct (cache_get (batch_cache bs) h); [done|].
  destruct (store_read _ _) as [bytes|]; [|done].
  destruct (batch_deserialize bytes); [|done]. simpl. by apply cache_insert_mono.
Qed.

Lemma batches_read_hit h bs b :
  cache_get (batch_cache bs) h = Some b → batches_read h bs = (Some b, bs).
Proof. unfold batches_read. by intros ->. Qed.

Lemma batches_persist_read h b bs :
  is_Some (batches_read h (batches_persist h b bs)).1.
Proof.
  erewrite batches_read_hit; [|apply cache_get_insert]. eauto.
Qed.
End batches.

(** ** Keys

    `Context::new` decodes the node's secret key and everybody's public key. *)
Section keys.
Context `{Crypto}.

Definition decode_secret (c : Node) : option Keypair :=
  match crypto_alg c with
  | ED25519 | SECP256K1 => de_keypair (secret_key_bytes c)
  | RSA => None
  end.

Definition decode_public (c : Node) (pk_data : bytes) : option PublicKey :=
  match crypto_alg c with
  | ED25519 | SECP256K1 => de_public_key pk_data
  | RSA => None
  end.

(** The loop over `config.pk_map`; [keep] drops the node's own entry where
    the source does.  [None] is the panic of `expect` or `panic!`. *)
Definition decode_public_keys (c : Node) (keep : N → bool) : option (gmap N PublicKey) :=
  foldr (λ kv acc, match acc with
                   | None => None
                   | Some m => if keep kv.1 then
                                 match decode_public c kv.2 with
                                 | Some pk => Some (<[kv.1 := pk]> m)
                                 | None => None
                                 end
                               else Some m
                   end) (Some ∅) (map_to_list (pk_map c)).

(** `(0..config.num_nodes as Replica).filter(|r| *r != config.id)`. *)
Definition broadcast_list (c : Node) : list Replica :=
  filter (λ r, r ≠ id c) (N.of_nat <$> seq 0 (N.to_nat (as_u16 (num_nodes c)))).

Lemma broadcast_list_spec c r :
  (num_nodes c < u16_size)%N → r ∈ broadcast_list c ↔ (r < num_nodes c)%N ∧ r ≠ id c.
Proof.
  intros Hn. unfold broadcast_list, as_u16. rw N.mod_small // list_elem_of_filter.
  rw list_elem_of_fmap. split.
  - intros [? (i & -> & Hi%elem_of_seq)]. split; [lia|done].
  - intros [Hr ?]. split; [done|]. exists (N.to_nat r). rw elem_of_seq. lia.
Qed.

Lemma decode_public_keys_spec c keep m r :
  decode_public_keys c keep = Some m →
  is_Some (m !! r) ↔ is_Some (pk_map c !! r) ∧ keep r = true.
Proof.
  unfold decode_public_keys. intros E.
  assert (is_Some (pk_map c !! r) ↔ ∃ v, (r, v) ∈ map_to_list (pk_map c)) as ->.
  { unfold is_Some. by setoid_rewrite elem_of_map_to_list. }
  revert m E. induction (map_to_list (pk_map c)) as [|[k v] l IH]; intros m; simpl.
  { intros [= <-]. rw lookup_empty. split; [by intros []|].
    by intros [[v ?%not_elem_of_nil] _]. }
  destruct (foldr _ _ l) as [m'|]; [|done]. specialize (IH m' eq_refl).
  setoid_rewrite elem_of_cons. destruct (keep k) eqn:Ek.
  - destruct (decode_public c v) as [pk|]; [|done]. intros [= <-].
    rw lookup_insert. case_decide as Hd; [subst k|]; [naive_solver|].
    rw IH. split; [naive_solver|]. intros [[v' [[= ->]|?]] ?]; naive_solver.
  - intros [= <-]. rw IH. split; [naive_solver|].
    intros [[v' [[= -> ->]|?]] ?]; [congruence|naive_solver].
Qed.

(** When every key decodes, so does the map. *)
Lemma decode_public_keys_total c keep :
  map_Forall (λ _ pk, is_Some (decode_public c pk)) (pk_map c) →
  ∃ m, decode_public_keys c keep = Some m ∧
    ∀ r, m !! r = if keep r then pk_map c !! r ≫= decode_public c else None.
Proof.
  intros Hf. rw map_Forall_to_list in Hf. unfold decode_public_keys.
  assert (∀ r, pk_map c !! r = (list_to_map (map_to_list (pk_map c)) : gmap N bytes) !! r) as Hl
    by (intros r; by rw list_to_map_to_list).
  setoid_rewrite Hl. clear Hl. induction (map_to_list (pk_map c)) as [|[k v] l IH]; simpl.
  { exists ∅. split; [done|]. intros r. rw !lookup_empty. by destruct (keep r). }
  apply Forall_cons in Hf as [[pk Hpk] Hf]. simpl in Hpk. destruct (IH Hf) as (m & -> & Hm). rw Hpk.
  destruct (keep k) eqn:Ek; eexists; (split; [done|]); intros r;
    rw ?lookup_insert; destruct (decide (k = r)) as [<-|Hr]; rw ?lookup_insert_ne // ?Hm ?Ek //.
Qed.
End keys.
