(* ===== verification/Apollo.v ===== *)
(** * The Apollo node (consensus/apollo/src/node)

    [Context] and every handler of the reactor, as functions of the state that
    return, panic or (never, see ApolloProofs.v) run out of fuel.

    The round counter starts at 1 and only ever grows by one, so it does not
    wrap in any run of less than 2^64 rounds and is kept unbounded; heights
    and rounds that arrive in messages are arbitrary, and the height of a new
    block is computed with wrap-around. *)

From S2P Require Import Prelude Crypto Types Config Storage Batch NodeIO.

Module Apollo.
Section apollo.
Context `{Bincode} `{Store} `{NetOracle}.

Abbreviation Batch := (CachedBatch Transaction).

(** ** types/src/msg/apollo/propose.rs *)
Record Propose := mkPropose {
  sig : Vote;
  prop_round : Round;
  prop_hash : Hash;
}.

Definition propose_new (h : Hash) : Propose :=
  {| prop_round := 0; sig := {| auth := []; origin := 0 |}; prop_hash := h |}.
Definition check_sig (p : Propose) (pk : PublicKey) : bool :=
  pk_verify pk (hash_as_ref (prop_hash p)) (auth (sig p)).

(** ** types/src/msg/apollo/proto.rs *)
Inductive ProtocolMsg :=
  | NewProposal (p : Propose) (b : Block) (batch : Batch)
  | Relay (from : Replica) (p : Propose)
  | Request (from : Replica) (rid : N) (h : Hash)
  | Response (from : Replica) (rid : N) (p : Propose) (b : Block) (batch : Batch)
  | Blame (v : Vote).

(** ** node/context.rs

    The channels to the batcher and to the confirmation router hold what was
    sent so far, oldest first. *)
Record Context := mkContext {
  num_nodes : N;
  num_faults : N;
  myid : Replica;
  pub_key_map : gmap Replica PublicKey;
  my_secret_key : Keypair;
  consensus_net : Net ProtocolMsg;
  broadcast_peers : list Replica;
  batches : Batches;
  pending_batches : list (Hash * Batch);
  to_batcher : list (BatcherConsensusMsg Transaction);
  to_router : list Batch;
  prop_buf : list (Replica * Propose * Block * Batch);
  relay_buf : list (Replica * Propose);
  other_buf : list ProtocolMsg;
  future_msgs : gmap Round (Replica * Propose);
  storage : Storage Block;
  prop_chain_by_round : gmap Round Propose;
  prop_chain_by_hash : gmap Hash Propose;
  round : Round;
  round_leader : Replica;
  block_size : N;
  bench_committed_tx_count : N;
  bench_emit_window_secs : N;
  bench_metrics_node : Replica;
  last_seen_block : Block;
  prop_waiting : gmap Hash Propose;
  prop_waiting_parent : gmap Hash Propose;
  req_ctr : N;
}.

#[export] Instance eta_Context : Eta Context := λ x,
  mkContext (num_nodes x) (num_faults x) (myid x) (pub_key_map x) (my_secret_key x)
    (consensus_net x) (broadcast_peers x) (batches x) (pending_batches x) (to_batcher x)
    (to_router x) (prop_buf x) (relay_buf x) (other_buf x) (future_msgs x) (storage x)
    (prop_chain_by_round x) (prop_chain_by_hash x) (round x) (round_leader x) (block_size x)
    (bench_committed_tx_count x) (bench_emit_window_secs x) (bench_metrics_node x)
    (last_seen_block x) (prop_waiting x) (prop_waiting_parent x) (req_ctr x).

(** [None] is a panic while decoding the keys. *)
Definition context_new (config : Node) (bs : Batches) : option Context :=
  match decode_secret config, decode_public_keys config (λ r, negb (r =? Config.id config)%N) with
  | Some sk, Some pks => Some {|
      num_nodes := Config.num_nodes config;
      num_faults := Config.num_faults config;
      myid := Config.id config;
      pub_key_map := pks;
      my_secret_key := sk;
      consensus_net := net_new;
      broadcast_peers := broadcast_list config;
      batches := bs;
      pending_batches := [];
      to_batcher := [];
      to_router := [];
      prop_buf := [];
      relay_buf := [];
      other_buf := [];
      future_msgs := ∅;
      storage := add_delivered_block GENESIS_BLOCK storage_new;
      prop_chain_by_round := ∅;
      prop_chain_by_hash := ∅;
      round := 1;
      round_leader := 0;
      block_size := Config.block_size config;
      bench_committed_tx_count := 0;
      bench_emit_window_secs := N.max (Config.bench_emit_window_secs config) 1;
      bench_metrics_node := Config.bench_metrics_node config;
      last_seen_block := GENESIS_BLOCK;
      prop_waiting := ∅;
      prop_waiting_parent := ∅;
      req_ctr := 0 |}
  | _, _ => None
  end.

Definition next_of (cx : Context) (prev : Replica) : Replica :=
  if (prev + 1 =? num_nodes cx)%N then 0%N else as_u16 (prev + 1).
Definition next_leader (cx : Context) : Replica := next_of cx (round_leader cx).

Definition gc_handlers (cx : Context) : Context := cx <| consensus_net ::= net_gc |>.

Definition signal (m : BatcherConsensusMsg Transaction) (cx : Context) : Context :=
  cx <| to_batcher ::= λ l, l ++ [m] |>.

Definition update_round : M Context unit := modify (λ cx,
  let cx := cx <| round_leader := next_leader cx |> in
  let cx := cx <| round ::= N.succ |> in
  let cx := signal (NewRound (round_leader cx) (round cx)) cx in
  gc_handlers cx).

Definition persist_batch (h : Hash) (batch : Batch) : M Context unit :=
  modify (λ cx, cx <| batches ::= batches_persist h batch |>).

Definition read_batch (h : Hash) : M Context (option Batch) := λ cx,
  let '(r, bs) := batches_read h (batches cx) in Done r (cx <| batches := bs |>).

(** ** node/comms.rs *)
Definition send (to : Replica) (msg : ProtocolMsg) : M Context unit := modify (λ cx,
  if (to =? myid cx)%N then cx
  else cx <| consensus_net ::= net_send (round cx) to msg |>).

Definition multicast (msg : ProtocolMsg) : M Context unit := modify (λ cx,
  cx <| consensus_net ::= net_broadcast (round cx) (broadcast_peers cx) msg |>).

(** ** node/commit.rs *)
Definition commit_blocks (h : Hash) : M Context (list Block) := λ cx,
  match commit_walk (commit_fuel (storage cx)) (storage cx) h [] with
  | Done newly s => Done newly (cx <| storage := s |>)
  | Panicked w => Panicked w
  | OutOfFuel => OutOfFuel
  end.

Definition announce_commit (block : Block) : M Context unit :=
  let! o := read_batch (batch_hash (body block)) in
  match o with
  | None => ret tt
  | Some batch =>
      modify (λ cx, cx <| bench_committed_tx_count ::=
                            λ n, sat_add64 n (N.of_nat (length (payload batch))) |>);;;
      modify (signal (Committed batch (height (header block))));;;
      modify (λ cx, cx <| to_router ::= λ l, l ++ [batch] |>)
  end.

(** Only called with `round > num_faults`. *)
Definition do_commit : M Context unit :=
  let! cx := get in
  let commit_round := (round cx - num_faults cx)%N in
  let! p := unwrap "called `Option::unwrap()` on a `None` value"
              (prop_chain_by_round cx !! commit_round) in
  let! newly_committed := commit_blocks (prop_hash p) in
  for_each (reverse newly_committed) announce_commit.

(** ** node/proposal.rs *)
Definition check_batch_hash (block : Block) (batch : Batch) : bool :=
  bool_decide (hash batch = batch_hash (body block)).

(** A different block of the same author already indexed at this height. *)
Definition equivocates (cx : Context) (block : Block) : bool :=
  match delivered_block_from_ht (storage cx) (height (header block)) with
  | Some x => bool_decide (block_hash x ≠ block_hash block) &&
              (author (header x) =? author (header block))%N
  | None => false
  end.

Definition on_receive_proposal (p : Propose) (block : Block) : M Context unit :=
  let! cx := get in
  if equivocates cx block then ret tt
  else
    send (next_leader cx) (Relay (myid cx) p);;;
    modify (λ cx, cx <| prop_chain_by_hash ::= insert (prop_hash p) p |>);;;
    modify (λ cx, cx <| prop_chain_by_round ::= insert (prop_round p) p |>);;;
    let! o := read_batch (batch_hash (body block)) in
    match o with
    | Some batch => modify (signal (Proposed batch (prop_round p)))
    | None => ret tt
    end;;;
    let! cx := get in
    (if (num_faults cx <? round cx)%N then do_commit else ret tt);;;
    modify (λ cx, cx <| last_seen_block := block |>);;;
    update_round.

Definition try_receive_proposal (p : Propose) (block : Block) (from : Replica)
    : M Context unit :=
  let! cx := get in
  if (prop_round p <? round cx)%N then ret tt
  else if (round cx <? prop_round p)%N
  then modify (λ cx, cx <| future_msgs ::= insert (prop_round p) (from, p) |>)
  else if bool_decide (block_hash block ≠ prop_hash p) then ret tt
  else if negb (round_leader cx =? origin (sig p))%N then ret tt
  else if negb (round_leader cx =? get_author block)%N then ret tt
  else
    let! bad := (if (origin (sig p) =? myid cx)%N then ret false
                 else let! pk := unwrap "no entry found for key"
                                   (pub_key_map cx !! origin (sig p)) in
                      ret (negb (check_sig p pk))) in
    if bad then ret tt else on_receive_proposal p block.

Definition do_propose (bh : Hash) (batch : Batch) : M Context unit :=
  let! cx := get in
  let parent := last_seen_block cx in
  let new_block := with_batch bh in
  let new_block := new_block <| header ::= λ h,
    h <| prev := block_hash parent |> <| author := myid cx |>
      <| height := add64 (height (header parent)) 1 |> |> in
  let new_block := init new_block in
  let p := propose_new (block_hash new_block) in
  let! a := unwrap "Failed to sign a block"
              (sk_sign (my_secret_key cx) (hash_as_ref (prop_hash p))) in
  let p := {| prop_round := round cx; sig := {| origin := myid cx; auth := a |};
              prop_hash := prop_hash p |} in
  multicast (NewProposal p new_block batch);;;
  modify (λ cx, signal (Proposed batch (round cx)) cx);;;
  modify (λ cx, cx <| storage ::= add_delivered_block new_block |>);;;
  on_receive_proposal p new_block.

(** ** node/request.rs *)
Definition on_recv_request (sender : Replica) (req_id : N) (h : Hash) : M Context unit :=
  let! cx := get in
  match prop_chain_by_hash cx !! h with
  | None => ret tt
  | Some prop =>
      match delivered_block_from_hash (storage cx) h with
      | None => ret tt
      | Some blk =>
          let! o := read_batch (batch_hash (body blk)) in
          match o with
          | None => ret tt
          | Some batch => send sender (Response (myid cx) req_id prop blk batch)
          end
      end
  end.

Definition do_request (b_hash : Hash) (to : Replica) : M Context unit :=
  let! cx := get in send to (Request (myid cx) (req_ctr cx) b_hash).

(** ** node/blame.rs *)
Definition on_receive_blame (v : Vote) : M Context unit := panic "Received a blame message".

(** ** node/message.rs *)
Definition handle_message (message : ProtocolMsg) : M Context unit := modify (λ cx,
  match message with
  | NewProposal p b batch =>
      cx <| prop_buf ::= λ l, l ++ [(origin (sig p), p, b, batch)] |>
  | Response from _ p b batch => cx <| prop_buf ::= λ l, l ++ [(from, p, b, batch)] |>
  | Relay from p => cx <| relay_buf ::= λ l, l ++ [(from, p)] |>
  | x => cx <| other_buf ::= λ l, l ++ [x] |>
  end).

(** The end of `delivery_check` for one proposal whose block is there. *)
Definition receive_or_queue (p : Propose) (block : Block) (sender : Replica)
    : M Context unit :=
  let! cx := get in
  if (round cx <? prop_round p)%N
  then modify (λ cx, cx <| future_msgs ::= insert (prop_round p) (sender, p) |>)
  else try_receive_proposal p block sender.

(** `while let Some(p_new) = cx.prop_waiting_parent.remove(..)`. *)
Fixpoint release_children (fuel : nat) (sender : Replica) (h : Hash) : M Context unit :=
  match fuel with
  | O => λ _, OutOfFuel
  | S fuel' =>
      let! cx := get in
      match prop_waiting_parent cx !! h with
      | None => ret tt
      | Some p_new =>
          modify (λ cx, cx <| prop_waiting_parent ::= delete h |>);;;
          let! child_block := unwrap "child block must be in storage"
            (delivered_block_from_hash (storage cx) (prop_hash p_new)) in
          receive_or_queue p_new child_block sender;;;
          release_children fuel' sender (prop_hash p_new)
      end
  end.

(** The block of a proposal: the one that came with it, or a stored one, or
    [None] after asking for it (or after dropping the proposal). *)
Definition resolve_block (sender : Replica) (p : Propose) (bb : option (Block * Batch))
    : M Context (option Block) :=
  let! cx := get in
  match bb with
  | Some (b, batch) =>
      if bool_decide (block_hash b ≠ prop_hash p) then ret None
      else if negb (check_batch_hash b batch) then ret None
      else persist_batch (batch_hash (body b)) batch;;; ret (Some b)
  | None =>
      match delivered_block_from_hash (storage cx) (prop_hash p) with
      | Some b => ret (Some b)
      | None =>
          modify (λ cx, cx <| prop_waiting ::= insert (prop_hash p) p |>);;;
          send sender (Request (myid cx) (req_ctr cx) (prop_hash p));;;
          ret None
      end
  end.

Definition delivery_check (sender : Replica) (p : Propose) (bb : option (Block * Batch))
    : M Context unit :=
  let! cx := get in
  if bool_decide (is_Some (prop_chain_by_round cx !! prop_round p)) then ret tt
  else
    let! o := resolve_block sender p bb in
    match o with
    | None => ret tt
    | Some block =>
        let parent_hash := prev (header block) in
        let! cx := get in
        if negb (is_delivered_by_hash (storage cx) parent_hash) then
          modify (λ cx, cx <| storage ::= add_delivered_block block |>);;;
          modify (λ cx, cx <| prop_waiting_parent ::= insert parent_hash p |>);;;
          send sender (Request (myid cx) (req_ctr cx) parent_hash)
        else
          modify (λ cx, cx <| storage ::= add_delivered_block block |>);;;
          receive_or_queue p block sender;;;
          modify (λ cx, cx <| prop_waiting ::= delete (prop_hash p) |>);;;
          let! cx := get in
          release_children (S (size (prop_waiting_parent cx))) sender (prop_hash p)
    end.

(** The four drain loops of `process_message`: [true] is "go on". *)
Definition drain_prop : M Context bool :=
  let! cx := get in
  match prop_buf cx with
  | [] => ret false
  | (sender, p, b, batch) :: rest =>
      modify (λ cx, cx <| prop_buf := rest |>);;;
      delivery_check sender p (Some (b, batch));;; ret true
  end.

Definition drain_relay : M Context bool :=
  let! cx := get in
  match relay_buf cx with
  | [] => ret false
  | (sender, p) :: rest =>
      modify (λ cx, cx <| relay_buf := rest |>);;;
      delivery_check sender p None;;; ret true
  end.

Definition drain_other : M Context bool :=
  let! cx := get in
  match other_buf cx with
  | [] => ret false
  | pmsg :: rest =>
      modify (λ cx, cx <| other_buf := rest |>);;;
      match pmsg with
      | Request from rid h => on_recv_request from rid h
      | Blame v => on_receive_blame v
      | _ => ret tt
      end;;; ret true
  end.

Definition drain_future : M Context bool :=
  let! cx := get in
  match future_msgs cx !! round cx with
  | None => ret false
  | Some (sender, p) =>
      modify (λ cx, cx <| future_msgs ::= delete (round cx) |>);;;
      delivery_check sender p None;;; ret true
  end.

(** A drained message leaves the map for good or ends up waiting for its
    parent, so this many rounds empty the current round's slot. *)
Definition future_fuel (cx : Context) : nat :=
  S (S (2 * (size (future_msgs cx) + size (prop_waiting_parent cx)))).

Definition process_message : M Context unit :=
  let! cx := get in
  loop (S (length (prop_buf cx))) drain_prop;;;
  let! cx := get in
  loop (S (length (relay_buf cx))) drain_relay;;;
  let! cx := get in
  loop (S (length (other_buf cx))) drain_other;;;
  let! cx := get in
  loop (future_fuel cx) drain_future.

(** ** node/reactor.rs

    A turn of the `select!` loop.  [EvMsgs] is a poll of the network: the
    decoded messages that were there.  The value says whether the reactor
    goes on. *)
Inductive event :=
  | EvTick
  | EvMsgs (msgs : list ProtocolMsg)
  | EvUndecodable
  | EvNetClosed
  | EvBatch (bh : Hash) (batch : Batch)
  | EvMempoolClosed.

Definition leader_step : M Context bool :=
  let! cx := get in
  match pending_batches cx with
  | (bh, batch) :: rest =>
      if (round_leader cx =? myid cx)%N then
        modify (λ cx, cx <| pending_batches := rest |>);;;
        do_propose bh batch;;; ret true
      else ret false
  | [] => ret false
  end.

Definition leader_drain : M Context unit :=
  let! cx := get in loop (S (length (pending_batches cx))) leader_step.

Definition reactor_start (config : Node) (bs : Batches) : option Context :=
  match context_new config bs with
  | Some cx => Some (signal (NewRound (round_leader cx) (round cx)) cx)
  | None => None
  end.

Definition react (ev : event) : M Context bool :=
  match ev with
  | EvTick =>
      modify (λ cx, if (myid cx =? bench_metrics_node cx)%N
                    then cx <| bench_committed_tx_count := 0%N |> else cx);;;
      leader_drain;;; ret true
  | EvMsgs msgs =>
      for_each msgs handle_message;;;
      process_message;;;
      leader_drain;;; ret true
  | EvUndecodable => ret true
  | EvNetClosed => ret false
  | EvBatch bh batch =>
      modify (λ cx, cx <| pending_batches ::= λ l, l ++ [(bh, batch)] |>);;;
      leader_drain;;; ret true
  | EvMempoolClosed => ret false
  end.

(** Between turns the mempool tasks add sealed batches to the shared cache
    and store. *)
Inductive input :=
  | Turn (ev : event)
  | Sealed (h : Hash) (batch : Batch).

Definition take_input (i : input) : M Context bool :=
  match i with
  | Turn ev => react ev
  | Sealed h batch => persist_batch h batch;;; ret true
  end.

(** A run of the node; it stops when the reactor does. *)
Fixpoint run (ins : list input) : M Context unit :=
  match ins with
  | [] => ret tt
  | i :: ins' => let! go := take_input i in if go then run ins' else ret tt
  end.
End apollo.
End Apollo.
