(* ===== verification/ApolloProofs.v ===== *)
(** * Apollo: the node's invariant

    Every turn of the reactor ends, whatever arrives from the network, and
    keeps the node's invariant; a turn can only panic if the peers misbehave
    (a block whose parent is unknown, a blame message) or the keys are
    unusable. *)

From S2P Require Import Prelude Crypto Types Config Storage Batch NodeIO Apollo.

Module ApolloProofs.
Import Apollo.

Section invariant.
Context `{Bincode} `{!BincodeLaws} `{!CollisionFree} `{Store} `{NetOracle}.
Implicit Types (cx : Context) (p : Propose) (b : Block).

Abbreviation delivered cx h := (is_Some (all_delivered_blocks_by_hash (storage cx) !! h)).

(** What keeps a turn from panicking: the index has no orphans, buffered
    blocks have a delivered parent, nobody blames, and the keys work. *)
Record calm cx : Prop := {
  calm_parents : parents_delivered (storage cx);
  calm_waiting : prop_waiting_parent cx = ∅;
  calm_buf : Forall (λ x, delivered cx (prev (header x.1.2))) (prop_buf cx);
  calm_other : Forall (λ m, match m with Blame _ => False | _ => True end) (other_buf cx);
  calm_sign : ∀ m, is_Some (sk_sign (my_secret_key cx) m);
  calm_keys : ∀ r, (r < num_nodes cx)%N → r ≠ myid cx → is_Some (pub_key_map cx !! r);
}.

(** The invariant; panics are allowed when [pn] holds. *)
Record inv (pn : Prop) cx : Prop := {
  inv_storage : storage_wf (storage cx);
  inv_closed : committed_closed (storage cx);
  inv_hashed : ∀ h b, all_delivered_blocks_by_hash (storage cx) !! h = Some b → well_hashed b;
  inv_buf : Forall (λ x, well_hashed x.1.2) (prop_buf cx);
  inv_nodes : (0 < num_nodes cx < u16_size)%N;
  inv_round : (1 ≤ round cx)%N;
  inv_leader : round_leader cx = ((round cx - 1) mod num_nodes cx)%N;
  inv_chain : ∀ r, is_Some (prop_chain_by_round cx !! r) ↔ (1 ≤ r < round cx)%N;
  inv_chain_ok : ∀ r p, prop_chain_by_round cx !! r = Some p →
    prop_round p = r ∧ delivered cx (prop_hash p);
  inv_future : ∀ r s p, future_msgs cx !! r = Some (s, p) → prop_round p = r;
  inv_waiting : ∀ h p, prop_waiting_parent cx !! h = Some p → delivered cx (prop_hash p);
  inv_last : delivered cx (block_hash (last_seen_block cx));
  inv_lag : ∀ r p, prop_chain_by_round cx !! r = Some p → (r + num_faults cx < round cx)%N →
    prop_hash p ∈ committed_blocks_by_hash (storage cx);
  inv_calm : pn ∨ calm cx;
}.

(** What no handler undoes. *)
Record ext cx cx' : Prop := {
  ext_static : num_nodes cx' = num_nodes cx ∧ num_faults cx' = num_faults cx ∧
               myid cx' = myid cx;
  ext_delivered : ∀ h, delivered cx h → delivered cx' h;
  ext_committed : committed_blocks_by_hash (storage cx) ⊆ committed_blocks_by_hash (storage cx');
  ext_round : (round cx ≤ round cx')%N;
  ext_chain : ∀ r p, prop_chain_by_round cx !! r = Some p →
                     prop_chain_by_round cx' !! r = Some p;
}.

(** The queues that handlers leave alone. *)
Definition queues cx := (prop_buf cx, relay_buf cx, other_buf cx, pending_batches cx).

#[export] Instance ext_preorder : PreOrder ext.
Proof.
  split.
  - intros cx. by split.
  - intros c1 c2 c3 [(?&?&?) ????] [(?&?&?) ????]. split; [|eauto..| |eauto].
    + split; [congruence|]. split; congruence.
    + set_solver.
    + lia.
Qed.

(** Everything the invariant talks about, so that an update of the other
    fields is invisible to it. *)
Definition core cx :=
  (num_nodes cx, num_faults cx, myid cx, pub_key_map cx, my_secret_key cx, storage cx,
   (prop_buf cx, other_buf cx, relay_buf cx, pending_batches cx),
   (round cx, round_leader cx, prop_chain_by_round cx, future_msgs cx,
    prop_waiting_parent cx, last_seen_block cx)).

Ltac by_core :=
  intros Hc; match type of Hc with core ?a = core ?b => destruct a, b end;
  unfold core in Hc; simpl in Hc; simplify_eq.

Lemma core_calm cx cx' : core cx' = core cx → calm cx → calm cx'.
Proof. by_core. intros []. by split. Qed.

Lemma core_inv pn cx cx' : core cx' = core cx → inv pn cx → inv pn cx'.
Proof.
  intros Hc Hi. pose proof (inv_calm _ _ Hi) as Hcalm.
  assert (pn ∨ calm cx') as Hcalm' by (destruct Hcalm; [by left|right; by eapply core_calm]).
  clear Hcalm. revert Hc Hi Hcalm'. by_core. intros [] ?. by split.
Qed.

Lemma core_ext cx cx' : core cx' = core cx → ext cx cx'.
Proof. by_core. by split. Qed.

Lemma core_queues cx cx' : core cx' = core cx → queues cx' = queues cx.
Proof. by_core. done. Qed.

(** ** Committing *)
Lemma read_batch_core pn cx h :
  wpp pn (read_batch h) (λ _ cx', core cx' = core cx) cx.
Proof. unfold wpp, read_batch. by destruct (batches_read h (batches cx)). Qed.

Lemma announce_core pn cx b : wpp pn (announce_commit b) (λ _ cx', core cx' = core cx) cx.
Proof.
  unfold announce_commit. wpp_go. eapply wpp_mono; [apply read_batch_core|].
  intros [batch|] cx' Hc; wpp_go; done.
Qed.

Lemma announce_all_core pn cx l :
  wpp pn (for_each l announce_commit) (λ _ cx', core cx' = core cx) cx.
Proof.
  apply (wpp_for_each (λ _ cx', core cx' = core cx)); [|done].
  intros b dn rest cx' _ Hc. eapply wpp_mono; [apply announce_core|].
  intros [] cx'' Hc'. by rw Hc'.
Qed.

Lemma do_commit_spec pn cx p :
  prop_chain_by_round cx !! (round cx - num_faults cx)%N = Some p →
  storage_wf (storage cx) → (pn ∨ complete (storage cx) (prop_hash p)) →
  wpp pn do_commit (λ _ cx', ∃ path s', core cx' = core (cx <| storage := s' |>) ∧
    walked (storage cx) (prop_hash p) path s' ∧ storage_wf s') cx.
Proof.
  intros Hp Hwf Hc. unfold do_commit. wpp_go. rw Hp. wpp_go.
  pose proof (commit_walk_run _ _ (prop_hash p) [] Hwf (uncommitted_fuel (storage cx))) as Hrun.
  unfold commit_blocks, wpp at 1. destruct (commit_walk _ _ _ _) as [newly s'|w|]; [| |done].
  - destruct Hrun as (path & -> & Hw & Hwf'). wpp_go.
    eapply wpp_mono; [apply announce_all_core|]. intros [] cx' E. eauto.
  - by destruct Hc.
Qed.

(** ** Accepting a proposal: the state after it *)
Definition advance (cx : Context) (p : Propose) (block : Block) (s' : Storage Block) : Context :=
  cx <| prop_chain_by_round ::= insert (prop_round p) p |> <| storage := s' |>
     <| last_seen_block := block |> <| round ::= N.succ |> <| round_leader := next_leader cx |>.

Lemma next_leader_mod cx :
  (0 < num_nodes cx < u16_size)%N → (1 ≤ round cx)%N →
  round_leader cx = ((round cx - 1) mod num_nodes cx)%N →
  next_leader cx = ((N.succ (round cx) - 1) mod num_nodes cx)%N.
Proof.
  intros Hn Hr Hl. unfold next_leader, next_of, as_u16. rw Hl.
  set (n := num_nodes cx) in *. assert (N.succ (round cx) - 1 = round cx - 1 + 1)%N as -> by lia.
  set (k := (round cx - 1)%N). pose proof (N.mod_lt k n ltac:(lia)) as Hlt.
  rw -(N.Div0.add_mod_idemp_l k 1 n). case_eq (k mod n + 1 =? n)%N.
  - intros ->%N.eqb_eq. by rw N.Div0.mod_same.
  - intros ?%N.eqb_neq. 
    rw (N.mod_small (k mod n + 1) n); [|lia]. apply N.mod_small. lia.
Qed.

Lemma same_index_calm cx s' :
  all_delivered_blocks_by_hash s' = all_delivered_blocks_by_hash (storage cx) →
  calm cx → calm (cx <| storage := s' |>).
Proof.
  intros E []. split; simpl; rw ?E; try done.
  - unfold parents_delivered. by rw E.
Qed.

Lemma advance_inv pn cx p block s' :
  inv pn cx → prop_round p = round cx → block_hash block = prop_hash p →
  delivered cx (prop_hash p) → committed_more (storage cx) s' →
  ((num_faults cx < round cx)%N → ∃ q path,
    <[prop_round p := p]> (prop_chain_by_round cx) !! (round cx - num_faults cx)%N = Some q ∧
    walked (storage cx) (prop_hash q) path s') →
  inv pn (advance cx p block s').
Proof.
  intros [] Hr Hb Hd (E & Hcm & Hwf & Hcl) Hlag. split; simpl; try done.
  - by apply Hcl.
  - by rw E.
  - lia.
  - by apply next_leader_mod.
  - intros r. rw lookup_insert Hr. case_decide as Hd'; [subst r|rw inv_chain0; lia].
    split; [lia|eauto].
  - intros r p'. rw lookup_insert E. case_decide as Hd'; [|apply inv_chain_ok0].
    intros [= <-]. done.
  - by rw E.
  - by rw E Hb.
  - intros r p' Hp' Hlt. rw Hr in Hp'. destruct (decide (r + num_faults cx = round cx)%N) as [Hn|Hn].
    + apply lookup_insert_Some in Hp' as Hp''. assert (1 ≤ r)%N as H1r.
      { destruct Hp'' as [[? _]|[_ Hc]]; [lia|]. assert (is_Some (prop_chain_by_round cx !! r)) as
          Hs by eauto. apply inv_chain0 in Hs. lia. }
      destruct Hlag as (q & path & Hq & Hw); [lia|]. rw Hr in Hq.
      assert (round cx - num_faults cx = r)%N as Er by lia. rw Er Hp' in Hq. injection Hq as <-.
      apply (walked_exact _ _ _ _ inv_storage0 inv_closed0 Hw). right. apply rtc_refl.
    + apply lookup_insert_Some in Hp' as [[<- _]|[_ Hp']]; [lia|].
      apply Hcm, (inv_lag0 r); [done|lia].
  - destruct inv_calm0 as [|Hcalm]; [by left|right].
    apply (same_index_calm _ s') in Hcalm; [|done]. destruct Hcalm. by split.
Qed.

Lemma advance_ext pn cx p block s' :
  inv pn cx → prop_round p = round cx → committed_more (storage cx) s' →
  ext cx (advance cx p block s').
Proof.
  intros Hi Hr (E & Hc & _). split; simpl; [done| |done|lia|].
  - by rw E.
  - intros r p' Hp'. rw lookup_insert_ne //. intros <-. rw Hr in Hp'.
    assert (is_Some (prop_chain_by_round cx !! round cx)) as Hs by eauto.
    apply (inv_chain _ _ Hi) in Hs. lia.
Qed.

(** ** Handlers that leave the queues alone *)
Record handled (pn : Prop) cx cx' : Prop := {
  hd_inv : inv pn cx';
  hd_ext : ext cx cx';
  hd_queues : queues cx' = queues cx;
  hd_waiting : prop_waiting_parent cx' = prop_waiting_parent cx;
}.

Lemma handled_refl pn cx : inv pn cx → handled pn cx cx.
Proof. by split. Qed.

Lemma handled_core pn cx cx' : inv pn cx → core cx' = core cx → handled pn cx cx'.
Proof.
  intros Hi Hc. split; [by eapply core_inv|by apply core_ext|by apply core_queues|].
  revert Hc. by_core. done.
Qed.

(** What an accepted or refused proposal may do. *)
Definition received (pn : Prop) cx cx' : Prop :=
  handled pn cx cx' ∧ future_msgs cx' = future_msgs cx.

Lemma on_receive_run pn cx p block :
  inv pn cx → prop_round p = round cx → delivered cx (prop_hash p) →
  wpp pn (on_receive_proposal p block) (λ _ cx',
    (cx' = cx ∧ equivocates cx block = true) ∨
    ∃ s', core cx' = core (advance cx p block s') ∧ committed_more (storage cx) s' ∧
      ((num_faults cx < round cx)%N → ∃ q path,
        <[prop_round p := p]> (prop_chain_by_round cx) !! (round cx - num_faults cx)%N = Some q ∧
        walked (storage cx) (prop_hash q) path s')) cx.
Proof.
  intros Hi Hr Hd. unfold on_receive_proposal, send. wpp_go; [by left|].
  eapply wpp_mono; [apply read_batch_core|]. intros o cx1 Hc1.
  set (cx0 := cx <| prop_chain_by_round ::= insert (prop_round p) p |>).
  assert (core cx1 = core cx0) as Hc0.
  { rw Hc1. unfold core; simpl. destruct (_ =? _)%N; done. }
  clear Hc1. wpp_go. apply (wpp_mono _ (λ _ cx2, core cx2 = core cx0)).
  { destruct o; wpp_go; done. }
  clear cx1 Hc0. intros [] cx2 Hc2. apply wpp_bind, wpp_get, wpp_bind.
  assert (∀ cx3 s', core cx3 = core (cx0 <| storage := s' |>) →
    core (gc_handlers (signal (NewRound (next_leader cx3) (N.succ (round cx3)))
      (cx3 <| last_seen_block := block |> <| round_leader := next_leader cx3 |>
           <| round ::= N.succ |>))) = core (advance cx p block s')) as Hend.
  { intros cx3 s'. unfold core; simpl. intros [=]. destruct cx3; simpl in *. by simplify_eq. }
  assert (storage cx2 = storage cx ∧ round cx2 = round cx ∧ num_faults cx2 = num_faults cx ∧
    prop_chain_by_round cx2 = <[prop_round p := p]> (prop_chain_by_round cx))
    as (Es & Er & Ef & Ec) by (revert Hc2; unfold core; simpl; by intros [=]).
  apply (wpp_mono _ (λ _ cx3, ∃ s', core cx3 = core (cx0 <| storage := s' |>) ∧
    committed_more (storage cx) s' ∧ ((num_faults cx < round cx)%N → ∃ q path,
      <[prop_round p := p]> (prop_chain_by_round cx) !! (round cx - num_faults cx)%N = Some q ∧
      walked (storage cx) (prop_hash q) path s'))).
  2:{ intros [] cx3 (s' & Hc3 & Hs'). unfold update_round. wpp_go. right.
      exists s'. split; [|done]. rw -(Hend cx3 s' Hc3). done. }
  wpp_go.
  2:{ exists (storage cx). split; [by rw Hc2|]. split.
      - split; [done|]. by split; [|split; [apply Hi|]].
      - match goal with H : (_ <? _)%N = false |- _ => apply N.ltb_ge in H as Hge end.
        rw Ef Er in Hge. lia. }
  match goal with H : (_ <? _)%N = true |- _ => apply N.ltb_lt in H as Hlt end. rw Ef Er in Hlt.
  assert (∃ q, prop_chain_by_round cx2 !! (round cx2 - num_faults cx2)%N = Some q ∧
    delivered cx (prop_hash q)) as (q & Hq & Hdq).
  { rw Ec Er Ef lookup_insert Hr. case_decide as Hcr; [by exists p|].
    destruct (proj2 (inv_chain _ _ Hi (round cx - num_faults cx)%N)) as [q Hq]; [lia|].
    exists q. split; [done|]. by apply (inv_chain_ok _ _ Hi _ _ Hq). }
  eapply wpp_mono; [apply (do_commit_spec pn cx2 q Hq)|].
  - rw Es. apply Hi.
  - destruct (inv_calm _ _ Hi) as [|Hcalm]; [by left|right]. rw Es.
    by apply parents_complete; [apply Hcalm|].
  - intros [] cx3 (path & s' & Hc3 & Hw & Hwf'). rw Es in Hw. exists s'. split.
    + rw Hc3. revert Hc2. unfold core; simpl. by intros [=]; simplify_eq; congruence.
    + split; [eapply walked_more; [apply Hi|done|done]|]. intros _. exists q, path.
      by rw -Ec -Er -Ef.
Qed.

Lemma on_receive_spec pn cx p block :
  inv pn cx → prop_round p = round cx → block_hash block = prop_hash p →
  delivered cx (prop_hash p) →
  wpp pn (on_receive_proposal p block) (λ _ cx', received pn cx cx') cx.
Proof.
  intros Hi Hr Hb Hd. eapply wpp_mono; [by apply on_receive_run|].
  intros [] cx' [[-> _]|(s' & Hc & Hs' & Hlag)]; [by split; [apply handled_refl|]|].
  split; [split|].
  - eapply core_inv; [exact Hc|]. by apply advance_inv.
  - trans (advance cx p block s'); [by eapply advance_ext|by apply core_ext].
  - by rw (core_queues _ _ Hc).
  - revert Hc. unfold core; simpl. by intros [=].
  - revert Hc. unfold core; simpl. by intros [=].
Qed.

(** Parking a proposal for its round. *)
Lemma park_handled pn cx p (from : Replica) :
  inv pn cx → handled pn cx (cx <| future_msgs ::= insert (prop_round p) (from, p) |>).
Proof.
  intros []. split; [|by split|done..]. split; simpl; try done.
  - intros r s' p'. rw lookup_insert. case_decide; [naive_solver|apply inv_future0].
  - destruct inv_calm0 as [|[]]; [by left|right]. by split.
Qed.

(** One proposal: at most one message is parked, and none if the proposal
    is not from the future. *)
Record settled (pn : Prop) cx p cx' : Prop := {
  st_handled : handled pn cx cx';
  st_size : size (future_msgs cx') ≤ S (size (future_msgs cx));
  st_future : (prop_round p ≤ round cx)%N → future_msgs cx' = future_msgs cx;
}.

Lemma settled_received pn cx p cx' : received pn cx cx' → settled pn cx p cx'.
Proof. intros [? E]. split; [done| |done]. rw E. lia. Qed.

Lemma settled_refl pn cx p : inv pn cx → settled pn cx p cx.
Proof. intros. by apply settled_received; split; [apply handled_refl|]. Qed.

Lemma settled_park pn cx p (from : Replica) :
  inv pn cx → (round cx < prop_round p)%N →
  settled pn cx p (cx <| future_msgs ::= insert (prop_round p) (from, p) |>).
Proof.
  intros Hi Hlt. split; [by apply park_handled| |lia]. simpl.
  rw map_size_insert. destruct (future_msgs cx !! prop_round p); simpl; lia.
Qed.

Lemma leader_lt pn cx : inv pn cx → (round_leader cx < num_nodes cx)%N.
Proof. intros Hi. rw (inv_leader _ _ Hi). apply N.mod_lt. pose proof (inv_nodes _ _ Hi). lia. Qed.

Lemma try_receive_spec pn cx p block from :
  inv pn cx → delivered cx (block_hash block) →
  wpp pn (try_receive_proposal p block from) (λ _ cx', settled pn cx p cx') cx.
Proof.
  intros Hi Hd. unfold try_receive_proposal.
  apply wpp_bind, wpp_get. apply wpp_if; [intros _; apply wpp_ret; by apply settled_refl|].
  intros Hge%N.ltb_ge. apply wpp_if; [intros Hlt%N.ltb_lt; apply wpp_modify; by apply settled_park|].
  intros Hle%N.ltb_ge. apply wpp_if; [intros _; apply wpp_ret; by apply settled_refl|].
  intros Heq%bool_decide_eq_false%dec_stable. apply wpp_if; [intros _; apply wpp_ret; by apply settled_refl|].
  intros Hl%negb_false_iff%N.eqb_eq. apply wpp_if; [intros _; apply wpp_ret; by apply settled_refl|].
  intros _. apply wpp_bind, (wpp_mono _ (λ _ cx', cx' = cx)).
  { apply wpp_if; [by intros _; apply wpp_ret|]. intros Hme%N.eqb_neq. apply wpp_bind.
    apply wpp_unwrap; [by intros; apply wpp_ret|]. intros Hk.
    destruct (inv_calm _ _ Hi) as [|Hcalm]; [done|]. exfalso.
    destruct (calm_keys _ Hcalm (origin (sig p))) as [pk Hpk]; [|done|congruence].
    rw -Hl. by eapply leader_lt. }
  intros bad cx' ->. apply wpp_if; [intros _; apply wpp_ret; by apply settled_refl|]. intros _.
  eapply wpp_mono; [apply (on_receive_spec pn cx p block Hi)|];
    [lia|done|by rw -Heq|]. intros []. apply settled_received.
Qed.

Lemma receive_or_queue_spec pn cx p block sender :
  inv pn cx → delivered cx (block_hash block) →
  wpp pn (receive_or_queue p block sender) (λ _ cx', settled pn cx p cx') cx.
Proof.
  intros Hi Hd. unfold receive_or_queue. wpp_go.
  - apply settled_park; [done|]. by apply N.ltb_lt.
  - by apply try_receive_spec.
Qed.

(** ** Delivering a block *)
Definition waiting_msgs cx : nat := size (future_msgs cx) + size (prop_waiting_parent cx).

Record progressed (pn : Prop) cx cx' : Prop := {
  pg_inv : inv pn cx';
  pg_ext : ext cx cx';
  pg_queues : queues cx' = queues cx;
}.

Lemma progressed_refl pn cx : inv pn cx → progressed pn cx cx.
Proof. by split. Qed.
Lemma progressed_trans pn cx cx1 cx' :
  progressed pn cx cx1 → progressed pn cx1 cx' → progressed pn cx cx'.
Proof. intros [] []. split; [done|by etrans|congruence]. Qed.
Lemma progressed_handled pn cx cx' : handled pn cx cx' → progressed pn cx cx'.
Proof. intros []. by split. Qed.
Lemma progressed_core pn cx cx' : inv pn cx → core cx' = core cx → progressed pn cx cx'.
Proof. intros. by apply progressed_handled, handled_core. Qed.

Lemma same_hash_same_block pn cx b b' :
  inv pn cx → well_hashed b →
  all_delivered_blocks_by_hash (storage cx) !! block_hash b = Some b' → b' = b.
Proof.
  intros Hi Hb Hb'. apply well_hashed_inj; [by eapply inv_hashed|done|].
  by apply (wf_hash _ (inv_storage _ _ Hi) _ _ Hb').
Qed.

Lemma deliver_progressed pn cx b :
  inv pn cx → well_hashed b → (pn ∨ delivered cx (prev (header b))) →
  progressed pn cx (cx <| storage ::= add_delivered_block b |>).
Proof.
  intros Hi Hb Hpar. pose proof (same_hash_same_block pn cx b) as Hsame.
  pose proof (add_delivered_mono b (storage cx)) as Hmono.
  destruct Hi. split; [|split|done]; try done. split; try done; cbn -[add_delivered_block].
  - by apply add_delivered_block_wf.
  - apply add_delivered_closed; [done| |done]. intros b' Hb'. by rw (Hsame b').
  - intros h b'. simpl. rw lookup_insert. case_decide; [naive_solver|]. apply inv_hashed0.
  - intros r p' Hp'. destruct (inv_chain_ok0 _ _ Hp'). split; [done|by apply Hmono].
  - intros h p' Hp'. eapply Hmono, inv_waiting0, Hp'.
  - by apply Hmono.
  - destruct inv_calm0 as [|Hcalm]; [by left|]. destruct Hpar as [|Hpar]; [by left|right].
    destruct Hcalm. split; try done; cbn -[add_delivered_block].
    + by apply add_delivered_parents.
    + eapply Forall_impl; [exact calm_buf0|]. intros x. apply Hmono.
Qed.

(** Taking a parked child out. *)
Lemma unpark_progressed pn cx h :
  inv pn cx → progressed pn cx (cx <| prop_waiting_parent ::= delete h |>).
Proof.
  intros []. split; [|by split|done]. split; simpl; try done.
  - intros h' p. rw lookup_delete. case_decide; [done|apply inv_waiting0].
  - destruct inv_calm0 as [|[]]; [by left|right]. split; simpl; try done.
    by rw calm_waiting0 delete_empty.
Qed.

Lemma settled_waiting pn cx p cx' :
  settled pn cx p cx' → waiting_msgs cx' ≤ S (waiting_msgs cx).
Proof. intros [[_ _ _ E] Hs _]. unfold waiting_msgs. rw E. lia. Qed.

Lemma release_spec pn fuel cx sender h :
  inv pn cx → size (prop_waiting_parent cx) < fuel →
  wpp pn (release_children fuel sender h) (λ _ cx',
    progressed pn cx cx' ∧ waiting_msgs cx' ≤ waiting_msgs cx) cx.
Proof.
  revert cx h. induction fuel as [|fuel IH]; intros cx h Hi Hlt; [lia|]. simpl.
  apply wpp_bind, wpp_get. destruct (prop_waiting_parent cx !! h) as [p|] eqn:Ep.
  2:{ apply wpp_ret. split; [by apply progressed_refl|done]. }
  apply wpp_bind, wpp_modify, wpp_bind. set (cx1 := cx <| prop_waiting_parent ::= delete h |>).
  destruct (inv_waiting _ _ Hi _ _ Ep) as [blk Hblk].
  pose proof (unpark_progressed pn cx h Hi) as Hp1. pose proof (pg_inv _ _ _ Hp1) as Hi1.
  unfold delivered_block_from_hash. rw Hblk. wpp_go.
  assert (size (prop_waiting_parent cx) = S (size (prop_waiting_parent cx1))) as Hsz.
  { simpl. rw map_size_delete Ep. assert (size (prop_waiting_parent cx) ≠ 0); [|lia].
    intros E%map_size_empty_inv. by rw E in Ep. }
  eapply wpp_mono; [apply (receive_or_queue_spec pn cx1 p blk sender Hi1)|].
  { pose proof (wf_hash _ (inv_storage _ _ Hi) _ _ Hblk) as Hh. simpl in Hh |- *. rw Hh. eauto. }
  intros [] cx2 Hset. pose proof (settled_waiting _ _ _ _ Hset) as Hw.
  pose proof (hd_waiting _ _ _ (st_handled _ _ _ _ Hset)) as Ew.
  pose proof (progressed_handled _ _ _ (st_handled _ _ _ _ Hset)) as Hp2.
  eapply wpp_mono; [apply (IH cx2)|]; [apply Hp2|rw Ew; lia|].
  intros [] cx3 [Hp3 Hw3]. split.
  - eapply progressed_trans; [exact Hp1|]. by eapply progressed_trans.
  - unfold waiting_msgs in *. rw Ew in Hw. rw Ew in Hw3. simpl in *. lia.
Qed.

(** ** Resolving a proposal *)
Lemma send_core cx to msg : core (if (to =? myid cx)%N then cx else
  cx <| consensus_net ::= net_send (round cx) to msg |>) = core cx.
Proof. by destruct (_ =? _)%N. Qed.

(** What a proposal that comes with its block must satisfy. *)
Definition block_ok (pn : Prop) cx (bb : option (Block * CachedBatch Transaction)) : Prop :=
  match bb with
  | Some (b, _) => well_hashed b ∧ (pn ∨ delivered cx (prev (header b)))
  | None => True
  end.

Lemma resolve_spec pn cx sender p bb :
  inv pn cx → block_ok pn cx bb →
  wpp pn (resolve_block sender p bb) (λ o cx', core cx' = core cx ∧
    match o with
    | Some b => well_hashed b ∧ (pn ∨ delivered cx (prev (header b))) ∧ block_hash b = prop_hash p
    | None => True
    end) cx.
Proof.
  intros Hi Hb. unfold resolve_block. apply wpp_bind, wpp_get. destruct bb as [[b batch]|].
  - apply wpp_if; [intros _; by apply wpp_ret|]. intros Hh%bool_decide_eq_false%dec_stable.
    apply wpp_if; [intros _; by apply wpp_ret|]. intros _. unfold persist_batch. wpp_go.
    simpl in Hb. naive_solver.
  - unfold delivered_block_from_hash.
    destruct (all_delivered_blocks_by_hash (storage cx) !! prop_hash p) as [b|] eqn:Eb.
    + wpp_go. split; [done|]. split; [by eapply inv_hashed|]. split.
      * destruct (inv_calm _ _ Hi) as [|Hcalm]; [by left|right]. by eapply calm_parents.
      * by apply (wf_hash _ (inv_storage _ _ Hi) _ _ Eb).
    + unfold send. wpp_go. split; [|done]. by rw send_core.
Qed.

(** The whole check.  A proposal that is not from the future either leaves
    fewer messages waiting than before, or is now the only new one, waiting
    for its parent. *)
Definition checked (pn : Prop) cx p cx' : Prop :=
  progressed pn cx cx' ∧
  ((prop_round p ≤ round cx)%N →
    waiting_msgs cx' ≤ waiting_msgs cx ∨
    (waiting_msgs cx' ≤ S (waiting_msgs cx) ∧ future_msgs cx' = future_msgs cx ∧
     round cx' = round cx)).

Lemma checked_core pn cx p cx' : inv pn cx → core cx' = core cx → checked pn cx p cx'.
Proof.
  intros Hi Hc. split; [by apply progressed_core|]. intros _. left.
  assert (waiting_msgs cx' = waiting_msgs cx) as ->; [|done].
  unfold waiting_msgs. revert Hc. unfold core. by intros [=]; congruence.
Qed.

Lemma orphan_checked pn cx b p h :
  pn → inv pn cx → well_hashed b → block_hash b = prop_hash p →
  checked pn cx p (cx <| storage ::= add_delivered_block b |>
                      <| prop_waiting_parent ::= insert h p |>).
Proof.
  intros Hpn Hi Hb Hh. destruct (deliver_progressed pn cx b Hi Hb) as [Hi' He Hq]; [by left|].
  split; [split|].
  - destruct Hi'. split; try done; simpl in *.
    + intros h' p'. rw lookup_insert. case_decide; [|apply inv_waiting0].
      intros [= <-]. rw -Hh. rw lookup_insert_eq. eauto.
    + by left.
  - destruct He. by split.
  - done.
  - intros _. right. split; [|done]. unfold waiting_msgs. simpl. rw map_size_insert.
    destruct (prop_waiting_parent cx !! h); simpl; lia.
Qed.

Lemma delivery_check_spec pn cx sender p bb :
  inv pn cx → block_ok pn cx bb →
  wpp pn (delivery_check sender p bb) (λ _ cx', checked pn cx p cx') cx.
Proof.
  intros Hi Hb. unfold delivery_check. apply wpp_bind, wpp_get. apply wpp_if; intros _.
  { apply wpp_ret. by apply checked_core. }
  apply wpp_bind. eapply wpp_mono; [by apply resolve_spec|]. intros [b|] cx1 [Hc1 Ho]; simpl.
  2:{ apply wpp_ret. by apply checked_core. }
  destruct Ho as (Hwh & Hpar & Hbh). pose proof (core_inv _ _ _ Hc1 Hi) as Hi1.
  assert (pn ∨ delivered cx1 (prev (header b))) as Hpar1.
  { destruct Hpar; [by left|right]. by apply (ext_delivered _ _ (core_ext _ _ Hc1)). }
  apply (wpp_mono _ (λ _ cx', checked pn cx1 p cx')).
  2:{ intros [] cx' [Hpg Hw]. split.
      - eapply progressed_trans; [by apply progressed_core|done].
      - assert (waiting_msgs cx1 = waiting_msgs cx ∧ future_msgs cx1 = future_msgs cx ∧
          round cx1 = round cx) as (<- & <- & <-); [|done].
        revert Hc1. clear. unfold waiting_msgs, core. intros [=].
        split; [congruence|]. split; congruence. }
  clear Hc1 Hpar Hi Hb cx. rename cx1 into cx, Hi1 into Hi, Hpar1 into Hpar.
  apply wpp_bind, wpp_get. apply wpp_if.
  - intros Hnd%negb_true_iff. unfold send. wpp_go.
    assert (¬ delivered cx (prev (header b))) as Hnd' by (rw -is_delivered_spec Hnd; done).
    destruct Hpar as [Hpn|]; [|done].
    destruct (orphan_checked pn cx b p (prev (header b))) as [Hpg Hw]; [done..|].
    rw /checked. match goal with |- progressed _ _ ?c ∧ _ =>
      assert (core c = core (cx <| storage ::= add_delivered_block b |>
        <| prop_waiting_parent ::= insert (prev (header b)) p |>)) as Hc by (apply send_core) end.
    split; [eapply progressed_trans; [exact Hpg|by apply progressed_core; [apply Hpg|]]|].
    destruct (_ =? _)%N; done.
  - intros _. apply wpp_bind, wpp_modify, wpp_bind.
    destruct (deliver_progressed pn cx b Hi Hwh Hpar) as [Hi1 He1 Hq1].
    eapply wpp_mono; [apply (receive_or_queue_spec pn _ p b sender Hi1)|].
    { exact (add_delivered_self b (storage cx)). }
    intros [] cx2 Hset. apply wpp_bind, wpp_modify, wpp_bind, wpp_get.
    pose proof (progressed_handled _ _ _ (st_handled _ _ _ _ Hset)) as Hp2.
    set (cx3 := cx2 <| prop_waiting ::= delete (prop_hash p) |>).
    assert (progressed pn cx2 cx3) as Hp3 by (apply progressed_core; [apply Hp2|done]).
    eapply wpp_mono; [apply (release_spec pn (S (size (prop_waiting_parent cx3))) cx3)|]; [apply Hp3|lia|].
    intros [] cx4 [Hp4 Hw4]. split.
    + eapply progressed_trans; [split; [exact Hi1|exact He1|exact Hq1]|].
      eapply progressed_trans; [exact Hp2|]. by eapply progressed_trans.
    + intros Hle. left. etrans; [exact Hw4|]. unfold waiting_msgs. simpl.
      rw (st_future _ _ _ _ Hset) // (hd_waiting _ _ _ (st_handled _ _ _ _ Hset)) //.
Qed.

(** ** The drain loops *)
Lemma set_prop_buf_inv pn cx x rest :
  prop_buf cx = x :: rest → inv pn cx → inv pn (cx <| prop_buf := rest |>).
Proof.
  intros E []. split; try done.
  - simpl. rw E in inv_buf0. by apply Forall_cons in inv_buf0 as [_ ?].
  - destruct inv_calm0 as [|[]]; [by left|right]. split; try done.
    simpl. rw E in calm_buf0. by apply Forall_cons in calm_buf0 as [_ ?].
Qed.

Lemma set_relay_buf_inv pn cx rest : inv pn cx → inv pn (cx <| relay_buf := rest |>).
Proof. intros []. split; try done. destruct inv_calm0 as [|[]]; [by left|right]. by split. Qed.

Lemma set_pending_inv pn cx rest : inv pn cx → inv pn (cx <| pending_batches := rest |>).
Proof. intros []. split; try done. destruct inv_calm0 as [|[]]; [by left|right]. by split. Qed.

Lemma set_other_buf_inv pn cx x rest :
  other_buf cx = x :: rest → inv pn cx → inv pn (cx <| other_buf := rest |>).
Proof.
  intros E []. split; try done. destruct inv_calm0 as [|[]]; [by left|right].
  split; try done. simpl. rw E in calm_other0. by apply Forall_cons in calm_other0 as [_ ?].
Qed.

Lemma unqueue_future_inv pn cx r : inv pn cx → inv pn (cx <| future_msgs ::= delete r |>).
Proof.
  intros []. split; try done.
  - intros r' s' p'. simpl. rw lookup_delete. case_decide; [done|apply inv_future0].
  - destruct inv_calm0 as [|[]]; [by left|right]. by split.
Qed.

(** A drained queue, the others untouched. *)
Lemma drain_prop_spec pn cx :
  inv pn cx →
  wpp pn (loop (S (length (prop_buf cx))) drain_prop) (λ _ cx', inv pn cx' ∧ ext cx cx' ∧
    queues cx' = ([], relay_buf cx, other_buf cx, pending_batches cx)) cx.
Proof.
  intros Hi. apply (wpp_loop (λ cx', inv pn cx' ∧ ext cx cx' ∧
    queues cx' = (prop_buf cx', relay_buf cx, other_buf cx, pending_batches cx))
    (λ cx', length (prop_buf cx'))); [|by split_and!|lia].
  clear Hi. intros cx1 (Hi & He & Hq). unfold drain_prop. apply wpp_bind, wpp_get.
  destruct (prop_buf cx1) as [|[[[sender p] b] batch] rest] eqn:E.
  { apply wpp_ret. by rw Hq. }
  apply wpp_bind, wpp_modify, wpp_bind. pose proof (set_prop_buf_inv _ _ _ _ E Hi) as Hi1.
  eapply wpp_mono; [apply (delivery_check_spec pn _ sender p (Some (b, batch)) Hi1)|].
  { simpl. pose proof (inv_buf _ _ Hi) as Hb. rw E in Hb. apply Forall_cons in Hb as [Hb _].
    split; [done|]. destruct (inv_calm _ _ Hi) as [|Hcalm]; [by left|right].
    pose proof (calm_buf _ Hcalm) as Hc. rw E in Hc. by apply Forall_cons in Hc as [Hc _]. }
  intros [] cx2 [[Hi2 He2 Hq2] _]. apply wpp_ret. split; [split; [done|split]|].
  - etrans; [exact He|]. etrans; [|exact He2]. by split.
  - unfold queues in *. simpl in *. congruence.
  - unfold queues in Hq2. simpl in Hq2. injection Hq2 as -> _ _ _. simpl. lia.
Qed.

Lemma drain_relay_spec pn cx :
  inv pn cx →
  wpp pn (loop (S (length (relay_buf cx))) drain_relay) (λ _ cx', inv pn cx' ∧ ext cx cx' ∧
    queues cx' = (prop_buf cx, [], other_buf cx, pending_batches cx)) cx.
Proof.
  intros Hi. apply (wpp_loop (λ cx', inv pn cx' ∧ ext cx cx' ∧
    queues cx' = (prop_buf cx, relay_buf cx', other_buf cx, pending_batches cx))
    (λ cx', length (relay_buf cx'))); [|by split_and!|lia].
  clear Hi. intros cx1 (Hi & He & Hq). unfold drain_relay. apply wpp_bind, wpp_get.
  destruct (relay_buf cx1) as [|[sender p] rest] eqn:E; [apply wpp_ret; by rw Hq|].
  apply wpp_bind, wpp_modify, wpp_bind. pose proof (set_relay_buf_inv _ _ rest Hi) as Hi1.
  eapply wpp_mono; [by apply (delivery_check_spec pn _ sender p None Hi1)|].
  intros [] cx2 [[Hi2 He2 Hq2] _]. apply wpp_ret. split; [split; [done|split]|].
  - etrans; [exact He|]. etrans; [|exact He2]. by split.
  - unfold queues in *. simpl in *. congruence.
  - unfold queues in Hq2. simpl in Hq2. injection Hq2 as _ -> _ _. simpl. lia.
Qed.

Lemma on_recv_request_core pn cx sender rid h :
  wpp pn (on_recv_request sender rid h) (λ _ cx', core cx' = core cx) cx.
Proof.
  unfold on_recv_request. apply wpp_bind, wpp_get.
  destruct (prop_chain_by_hash cx !! h); [|by apply wpp_ret].
  destruct (delivered_block_from_hash _ _); [|by apply wpp_ret].
  apply wpp_bind. eapply wpp_mono; [apply read_batch_core|].
  intros [batch|] cx1 Hc; [|by apply wpp_ret]. apply wpp_modify. by rw send_core.
Qed.

Lemma drain_other_spec pn cx :
  inv pn cx →
  wpp pn (loop (S (length (other_buf cx))) drain_other) (λ _ cx', inv pn cx' ∧ ext cx cx' ∧
    queues cx' = (prop_buf cx, relay_buf cx, [], pending_batches cx)) cx.
Proof.
  intros Hi. apply (wpp_loop (λ cx', inv pn cx' ∧ ext cx cx' ∧
    queues cx' = (prop_buf cx, relay_buf cx, other_buf cx', pending_batches cx))
    (λ cx', length (other_buf cx'))); [|by split_and!|lia].
  clear Hi. intros cx1 (Hi & He & Hq). unfold drain_other. apply wpp_bind, wpp_get.
  destruct (other_buf cx1) as [|m rest] eqn:E; [apply wpp_ret; by rw Hq|].
  apply wpp_bind, wpp_modify, wpp_bind. pose proof (set_other_buf_inv _ _ _ _ E Hi) as Hi1.
  apply (wpp_mono _ (λ _ cx2, core cx2 = core (cx1 <| other_buf := rest |>))).
  { destruct m as [| |from rid h| |v]; try by apply wpp_ret.
    - apply on_recv_request_core.
    - apply wpp_panic. destruct (inv_calm _ _ Hi) as [|Hcalm]; [done|].
      pose proof (calm_other _ Hcalm) as Hc. rw E in Hc. by apply Forall_cons in Hc as [[] _]. }
  intros [] cx2 Hc. apply wpp_ret. pose proof (core_queues _ _ Hc) as Hq2.
  split; [split; [by eapply core_inv|split]|].
  - etrans; [exact He|]. etrans; [|by apply core_ext]. by split.
  - unfold queues in *. simpl in *. congruence.
  - unfold queues in Hq2. simpl in Hq2. injection Hq2 as _ _ -> _. simpl. lia.
Qed.

Lemma drain_future_spec pn cx :
  inv pn cx →
  wpp pn (loop (future_fuel cx) drain_future) (λ _ cx', inv pn cx' ∧ ext cx cx' ∧
    queues cx' = queues cx ∧ future_msgs cx' !! round cx' = None) cx.
Proof.
  intros Hi.
  set (slot := λ cx, match future_msgs cx !! round cx with Some _ => 1 | None => 0 end).
  apply (wpp_loop (λ cx', inv pn cx' ∧ ext cx cx' ∧ queues cx' = queues cx)
    (λ cx', 2 * waiting_msgs cx' + slot cx')); [|by split_and!|].
  2:{ unfold future_fuel, waiting_msgs, slot. destruct (future_msgs cx !! round cx); lia. }
  clear Hi. intros cx1 (Hi & He & Hq). unfold drain_future. apply wpp_bind, wpp_get.
  destruct (future_msgs cx1 !! round cx1) as [[sender p]|] eqn:E; [|apply wpp_ret; by split_and!].
  apply wpp_bind, wpp_modify, wpp_bind.
  pose proof (unqueue_future_inv pn cx1 (round cx1) Hi) as Hi1.
  pose proof (inv_future _ _ Hi _ _ _ E) as Hr.
  eapply wpp_mono; [by apply (delivery_check_spec pn _ sender p None Hi1)|].
  intros [] cx2 [[Hi2 He2 Hq2] Hw]. apply wpp_ret. split; [split; [done|split]|].
  - etrans; [exact He|]. etrans; [|exact He2]. by split.
  - by rw Hq2.
  - assert (waiting_msgs cx1 = S (waiting_msgs (cx1 <| future_msgs ::= delete (round cx1) |>))) as Hsz.
    { unfold waiting_msgs. simpl. rw map_size_delete E.
      assert (size (future_msgs cx1) ≠ 0); [|lia]. intros Ez%map_size_empty_inv. by rw Ez in E. }
    assert (slot cx1 = 1) as Hslot by (unfold slot; by rw E).
    cbv beta. rw Hslot Hsz. clear Hsz.
    destruct Hw as [Hw|(Hw & Ef & Er)]; [simpl; lia| |].
    + assert (slot cx2 ≤ 1) by (unfold slot; destruct (future_msgs cx2 !! round cx2); lia). lia.
    + assert (slot cx2 = 0) as Hs2; [|lia]. unfold slot. rw Ef Er /= lookup_delete_eq //.
Qed.

Lemma process_message_spec pn cx :
  inv pn cx →
  wpp pn process_message (λ _ cx', inv pn cx' ∧ ext cx cx' ∧
    queues cx' = ([], [], [], pending_batches cx) ∧ future_msgs cx' !! round cx' = None) cx.
Proof.
  intros Hi. unfold process_message. do 2 (apply wpp_bind; try apply wpp_get).
  eapply wpp_mono; [by apply drain_prop_spec|]. intros [] cx1 (Hi1 & He1 & Hq1).
  do 2 (apply wpp_bind; try apply wpp_get).
  eapply wpp_mono; [by apply drain_relay_spec|]. intros [] cx2 (Hi2 & He2 & Hq2).
  do 2 (apply wpp_bind; try apply wpp_get).
  eapply wpp_mono; [by apply drain_other_spec|]. intros [] cx3 (Hi3 & He3 & Hq3).
  apply wpp_bind, wpp_get.
  eapply wpp_mono; [by apply drain_future_spec|]. intros [] cx4 (Hi4 & He4 & Hq4 & Hf).
  split; [done|]. split; [|split; [|done]].
  - by do 3 (etrans; [eassumption|]).
  - unfold queues in *. simplify_eq. congruence.
Qed.

(** ** Proposing *)
Lemma do_propose_spec pn cx bh batch :
  inv pn cx → wpp pn (do_propose bh batch) (λ _ cx', progressed pn cx cx') cx.
Proof.
  intros Hi. unfold do_propose. apply wpp_bind, wpp_get. cbv zeta.
  match goal with |- context [NewProposal _ ?x _] => set (nb := x) end.
  apply wpp_bind, wpp_unwrap.
  2:{ intros Hs. destruct (inv_calm _ _ Hi) as [|Hcalm]; [done|]. exfalso.
      destruct (calm_sign _ Hcalm (hash_as_ref (prop_hash (propose_new (block_hash nb))))).
      congruence. }
  intros a _. unfold multicast. do 3 (apply wpp_bind, wpp_modify).
  match goal with |- wpp _ _ _ (?x <| storage ::= _ |>) => set (cx1 := x) end.
  assert (core cx1 = core cx) as Hc1 by done.
  assert (progressed pn cx cx1) as Hp1 by by apply progressed_core.
  destruct (deliver_progressed pn cx1 nb) as [Hi2 He2 Hq2];
    [apply Hp1|by right|right; exact (inv_last _ _ (pg_inv _ _ _ Hp1))|].
  eapply wpp_mono; [apply (on_receive_spec pn _ _ nb Hi2)|]; [done|done| |].
  { exact (add_delivered_self nb (storage cx1)). }
  intros [] cx3 [Hh _]. eapply progressed_trans; [exact Hp1|].
  eapply progressed_trans; [split; [exact Hi2|exact He2|exact Hq2]|]. by apply progressed_handled.
Qed.

Lemma leader_drain_spec pn cx :
  inv pn cx →
  wpp pn leader_drain (λ _ cx', inv pn cx' ∧ ext cx cx' ∧
    (round_leader cx' = myid cx' → pending_batches cx' = []) ∧
    (queues cx').1 = (queues cx).1) cx.
Proof.
  intros Hi. unfold leader_drain. apply wpp_bind, wpp_get.
  apply (wpp_loop (λ cx', inv pn cx' ∧ ext cx cx' ∧ (queues cx').1 = (queues cx).1)
    (λ cx', length (pending_batches cx'))); [|done|lia].
  clear Hi. intros cx1 (Hi & He & Hq). unfold leader_step. apply wpp_bind, wpp_get.
  destruct (pending_batches cx1) as [|[bh batch] rest] eqn:E; [apply wpp_ret; by split_and!|].
  apply wpp_if; [intros _|intros Hl%N.eqb_neq; apply wpp_ret; by split_and!].
  apply wpp_bind, wpp_modify, wpp_bind. pose proof (set_pending_inv pn cx1 rest Hi) as Hi1.
  eapply wpp_mono; [by apply do_propose_spec|]. intros [] cx2 [Hi2 He2 Hq2]. apply wpp_ret.
  split; [split; [done|split]|].
  - etrans; [exact He|]. etrans; [|exact He2]. by split.
  - rw Hq2. exact Hq.
  - unfold queues in Hq2. simpl in Hq2. injection Hq2 as _ _ _ ->. simpl. lia.
Qed.

(** ** Turns *)
Definition msg_ok (pn : Prop) cx (m : ProtocolMsg) : Prop :=
  match m with
  | NewProposal _ b _ | Response _ _ _ b _ =>
      well_hashed b ∧ (pn ∨ delivered cx (prev (header b)))
  | Blame _ => pn
  | _ => True
  end.
Definition event_ok (pn : Prop) cx (ev : event) : Prop :=
  match ev with EvMsgs msgs => Forall (msg_ok pn cx) msgs | _ => True end.

Lemma push_prop_inv pn cx sender p b batch :
  inv pn cx → well_hashed b → (pn ∨ delivered cx (prev (header b))) →
  inv pn (cx <| prop_buf ::= λ l, l ++ [(sender, p, b, batch)] |>).
Proof.
  intros [] Hb Hpar. split; try done; simpl.
  - apply Forall_app_2; [done|by apply Forall_singleton].
  - destruct inv_calm0 as [|[]]; [by left|]. destruct Hpar; [by left|right]. split; try done.
    simpl. apply Forall_app_2; [done|by apply Forall_singleton].
Qed.

Lemma push_other_inv pn cx m :
  inv pn cx → msg_ok pn cx m → inv pn (cx <| other_buf ::= λ l, l ++ [m] |>).
Proof.
  intros [] Hm. split; try done. destruct inv_calm0 as [|[]]; [by left|].
  destruct m; try (right; split; try done; simpl; apply Forall_app_2; [done|by apply Forall_singleton]).
  by left.
Qed.

Lemma handle_message_spec pn cx m :
  inv pn cx → msg_ok pn cx m →
  wpp pn (handle_message m) (λ _ cx', inv pn cx' ∧ ext cx cx' ∧ storage cx' = storage cx) cx.
Proof.
  intros Hi Hm. unfold handle_message. apply wpp_modify. destruct m; (split; [|by repeat split]).
  - by apply push_prop_inv; [done|apply Hm|apply Hm].
  - by apply set_relay_buf_inv.
  - by apply push_other_inv.
  - by apply push_prop_inv; [done|apply Hm|apply Hm].
  - by apply push_other_inv.
Qed.

Lemma handle_all_spec pn cx msgs :
  inv pn cx → Forall (msg_ok pn cx) msgs →
  wpp pn (for_each msgs handle_message) (λ _ cx', inv pn cx' ∧ ext cx cx') cx.
Proof.
  intros Hi Hm. eapply wpp_mono; [apply (wpp_for_each (λ _ cx',
    inv pn cx' ∧ ext cx cx' ∧ storage cx' = storage cx))|]; [|by split_and!|naive_solver].
  intros m dn rest cx1 E (Hi1 & He1 & Hs1).
  eapply wpp_mono; [apply (handle_message_spec pn cx1 m Hi1)|].
  - rw Forall_forall in Hm. assert (msg_ok pn cx m) as Hok.
    { apply Hm. rw E. apply elem_of_app. right. constructor. }
    unfold msg_ok in *. by rw Hs1.
  - intros [] cx2 (Hi2 & He2 & Hs2). split; [done|]. split; [by etrans|congruence].
Qed.

(** Nothing waits to be processed. *)
Definition idle cx : Prop := prop_buf cx = [] ∧ relay_buf cx = [] ∧ other_buf cx = [].
Lemma idle_queues cx cx' : (queues cx').1 = (queues cx).1 → idle cx → idle cx'.
Proof. unfold queues, idle. simpl. intros [= E1 E2 E3]. by rw E1 E2 E3. Qed.
Lemma emptied_idle cx l : queues cx = ([], [], [], l) → idle cx.
Proof. unfold queues, idle. by intros [= -> -> ->]. Qed.

(** The events that end the reactor. *)
Definition closes (i : input) : bool :=
  match i with Turn EvNetClosed | Turn EvMempoolClosed => true | _ => false end.

Lemma react_spec pn cx ev :
  inv pn cx → event_ok pn cx ev →
  wpp pn (react ev) (λ go cx', (inv pn cx' ∧ ext cx cx') ∧ (idle cx → idle cx') ∧
    go = negb (closes (Turn ev))) cx.
Proof.
  intros Hi Hev. assert (∀ cx1, inv pn cx1 → ext cx cx1 → (idle cx → idle cx1) →
    wpp pn (leader_drain;;; ret true) (λ go cx', (inv pn cx' ∧ ext cx cx') ∧
      (idle cx → idle cx') ∧ go = true) cx1) as Hlead.
  { intros cx1 Hi1 He1 Hid. apply wpp_bind. eapply wpp_mono; [by apply leader_drain_spec|].
    intros [] cx2 (Hi2 & He2 & _ & Hq2). apply wpp_ret. split; [split; [done|by etrans]|].
    split; [|done]. intros Hidle. eapply idle_queues; [exact Hq2|]. by apply Hid. }
  destruct ev as [|msgs| | |bh batch|]; try (by apply wpp_ret).
  - apply wpp_bind, wpp_modify. apply Hlead.
    + eapply core_inv; [|exact Hi]. by destruct (_ =? _)%N.
    + apply core_ext. by destruct (_ =? _)%N.
    + by destruct (_ =? _)%N.
  - apply wpp_bind. eapply wpp_mono; [by apply handle_all_spec|]. intros [] cx1 (Hi1 & He1).
    apply wpp_bind. eapply wpp_mono; [by apply process_message_spec|].
    intros [] cx2 (Hi2 & He2 & Hq2 & _). apply Hlead; [done|by etrans|].
    intros _. by eapply emptied_idle.
  - apply wpp_bind, wpp_modify. apply Hlead; [|by split|done]. exact (set_pending_inv pn cx _ Hi).
Qed.

Lemma take_input_spec pn cx i :
  inv pn cx → (match i with Turn ev => event_ok pn cx ev | Sealed _ _ => True end) →
  wpp pn (take_input i) (λ go cx', (inv pn cx' ∧ ext cx cx') ∧ (idle cx → idle cx') ∧
    go = negb (closes i)) cx.
Proof.
  intros Hi Hok. destruct i as [ev|h batch]; [by apply react_spec|].
  unfold take_input, persist_batch. wpp_go. split; [|done].
  split; [by apply (core_inv pn cx)|by apply core_ext].
Qed.

(** ** Runs *)
Definition input_ok (pn : Prop) cx (i : input) : Prop :=
  match i with Turn ev => event_ok pn cx ev | Sealed _ _ => True end.

(** Every input is acceptable in the state it is taken in. *)
Fixpoint inputs_ok (pn : Prop) (ins : list input) cx : Prop :=
  match ins with
  | [] => True
  | i :: ins' => input_ok pn cx i ∧ ∀ go cx', take_input i cx = Done go cx' → inputs_ok pn ins' cx'
  end.

Lemma run_spec pn ins cx :
  inv pn cx → inputs_ok pn ins cx → wpp pn (run ins) (λ _ cx', inv pn cx' ∧ ext cx cx') cx.
Proof.
  revert cx. induction ins as [|i ins IH]; intros cx Hi Hok; simpl.
  { by apply wpp_ret. }
  destruct Hok as [Hok Hrest]. apply wpp_bind. pose proof (take_input_spec pn cx i Hi Hok) as Ht.
  unfold wpp in Ht |- *. destruct (take_input i cx) as [go cx1| |] eqn:E; [|done..].
  destruct Ht as [[Hi1 He1] _]. destruct go; [|done]. specialize (IH cx1 Hi1 (Hrest _ _ eq_refl)).
  unfold wpp in IH. destruct (run ins cx1); [|done..]. destruct IH. split; [done|by etrans].
Qed.

(** What decoding gives: a block knows its hash. *)
Definition msg_hashed (m : ProtocolMsg) : Prop :=
  match m with NewProposal _ b _ | Response _ _ _ b _ => well_hashed b | _ => True end.
Definition input_hashed (i : input) : Prop :=
  match i with Turn (EvMsgs msgs) => Forall msg_hashed msgs | _ => True end.

Lemma hashed_input_ok cx i : input_hashed i → input_ok True cx i.
Proof.
  destruct i as [[]|]; try done. simpl. intros Hi. eapply Forall_impl; [exact Hi|].
  intros []; simpl; auto.
Qed.
Lemma hashed_ok ins cx : Forall input_hashed ins → inputs_ok True ins cx.
Proof.
  revert cx. induction ins as [|i ins IH]; intros cx; simpl; [done|].
  intros [Hi Hins]%Forall_cons. split; [by apply hashed_input_ok|eauto].
Qed.

Lemma started_idle config bs cx : reactor_start config bs = Some cx → idle cx.
Proof.
  unfold reactor_start, context_new. destruct (decode_secret config); [|done].
  destruct (decode_public_keys config _); [|done]. intros [= <-]. by split_and!.
Qed.
Lemma start_inv pn config bs cx0 :
  (0 < Config.num_nodes config < u16_size)%N → reactor_start config bs = Some cx0 →
  (pn ∨ (∀ sk m, decode_secret config = Some sk → is_Some (sk_sign sk m)) ∧
        ∀ r, (r < Config.num_nodes config)%N → is_Some (pk_map config !! r)) →
  inv pn cx0.
Proof.
  intros Hn Hs Hpn. unfold reactor_start, context_new in Hs.
  destruct (decode_secret config) as [sk|]; [|done].
  destruct (decode_public_keys config _) as [pks|] eqn:Ek; [|done]. injection Hs as <-.
  assert (∀ h b, all_delivered_blocks_by_hash (add_delivered_block GENESIS_BLOCK storage_new) !! h
    = Some b → b = GENESIS_BLOCK ∧ h = EMPTY_HASH) as Hg.
  { intros h b. simpl. rw lookup_insert lookup_empty. case_decide; naive_solver. }
  split; try done; simpl in *.
  - apply (add_delivered_block_wf GENESIS_BLOCK), storage_new_wf.
  - intros h b [-> ->]%Hg. by left.
  - intros r. rw lookup_empty. split; [by intros []|lia].
  - rw lookup_insert_eq. eauto.
  - destruct Hpn as [|[Hsig Hpk]]; [by left|right]. split; simpl; try done.
    + intros h b [-> ->]%Hg. simpl. rw lookup_insert_eq. eauto.
    + intros m. by apply Hsig.
    + intros r Hr Hne. apply (decode_public_keys_spec _ _ _ r Ek). split; [by apply Hpk|].
      by apply negb_true_iff, N.eqb_neq.
Qed.

(** ** What a commit announces *)
Definition batch_of cx (b : Block) : option (CachedBatch Transaction) :=
  cache_get (batch_cache (batches cx)) (batch_hash (body b)).

(** The store knows nothing that the cache does not. *)
Definition store_below_cache cx (b : Block) : Prop :=
  batch_of cx b = None → store_read (hash_as_ref (batch_hash (body b)))
                           (batch_store (batches cx)) = None.

Lemma read_cached cx b :
  store_below_cache cx b →
  batches_read (batch_hash (body b)) (batches cx) = (batch_of cx b, batches cx).
Proof.
  intros Hb. unfold batches_read. fold (batch_of cx b). unfold store_below_cache in Hb.
  destruct (batch_of cx b); [done|]. by rw Hb.
Qed.

Lemma announce_cached cx l :
  Forall (store_below_cache cx) l →
  wp (for_each l announce_commit) (λ _ cx',
    to_batcher cx' = to_batcher cx ++
      omap (λ b, (λ x, Committed x (height (header b))) <$> batch_of cx b) l ∧
    to_router cx' = to_router cx ++ omap (batch_of cx) l ∧
    batches cx' = batches cx ∧ core cx' = core cx) cx.
Proof.
  revert cx. induction l as [|b l IH]; intros cx; simpl.
  { intros _. apply wpp_ret. by rw !app_nil_r. }
  intros [Hb Hl]%Forall_cons. apply wpp_bind. unfold announce_commit, read_batch at 1.
  unfold wpp at 1. unfold bind. rw (read_cached _ _ Hb). simpl.
  destruct (batch_of cx b) as [batch|]; simpl;
    (eapply wpp_mono; [apply IH; exact Hl|]; intros [] cx' (E1 & E2 & E3 & E4); simpl in * );
    rw E1 E2 E3 E4 -?app_assoc; done.
Qed.

Lemma path_in_index s h path :
  path_from s h path → Forall (λ b, ∃ h', all_delivered_blocks_by_hash s !! h' = Some b) path.
Proof. induction 1; constructor; eauto. Qed.

Lemma commit_blocks_calm cx p :
  storage_wf (storage cx) → complete (storage cx) (prop_hash p) →
  ∃ path s', commit_blocks (prop_hash p) cx = Done path (cx <| storage := s' |>) ∧
    walked (storage cx) (prop_hash p) path s' ∧ storage_wf s'.
Proof.
  intros Hwf Hc. destruct (commit_walk_total _ _ Hwf Hc) as (path & s' & E & Hw & Hwf').
  exists path, s'. unfold commit_blocks. by rw E.
Qed.
End invariant.

(** ** Apollo's guarantees *)
Section guarantees.
Context `{Bincode} `{!BincodeLaws} `{!CollisionFree} `{Store} `{NetOracle}.
Implicit Types (cx : Context) (p : Propose) (b : Block).

Abbreviation delivered cx h := (is_Some (all_delivered_blocks_by_hash (storage cx) !! h)).

(** C6.  Whatever the network delivers (any messages, Byzantine ones
    included, as long as a decoded block carries its own hash), a node that
    was started on a configuration with 1 to 65535 replicas never hangs: each
    turn returns or panics.  As long as it has not panicked its invariant
    holds: the block index is consistent, the committed set is closed under
    parents, rounds 1 to the current one have exactly one accepted proposal
    each with its block delivered, a proposal accepted more than f rounds ago
    is committed, the leader is `(round - 1) mod n`; and no later turn
    withdraws a delivery, a commit, an accepted proposal or a round. *)
Theorem apollo_run_inv config bs cx0 ins1 cx1 ins2 :
  (0 < Config.num_nodes config < u16_size)%N → reactor_start config bs = Some cx0 →
  Forall input_hashed ins1 → Forall input_hashed ins2 →
  run ins1 cx0 = Done tt cx1 →
  wlp (run ins2) (λ _ cx2, inv True cx2 ∧ ext cx1 cx2) cx1.
Proof.
  intros Hn Hs Hh1 Hh2 E. assert (inv True cx0) as Hi0 by (eapply start_inv; eauto).
  pose proof (run_spec True ins1 cx0 Hi0 (hashed_ok _ _ Hh1)) as Hr.
  eapply wlp_done in Hr as [Hi1 _]; [|exact E]. apply run_spec; [done|by apply hashed_ok].
Qed.

(** With usable keys for every replica, a run in which every block
    arrives after its parent and nobody sends a blame never panics: it
    reaches a final state, in which every delivered block has all its
    ancestors and nothing waits for a parent. *)
Theorem apollo_calm_run config bs cx0 ins :
  (0 < Config.num_nodes config < u16_size)%N → reactor_start config bs = Some cx0 →
  (∀ sk m, decode_secret config = Some sk → is_Some (sk_sign sk m)) →
  (∀ r, (r < Config.num_nodes config)%N → is_Some (pk_map config !! r)) →
  inputs_ok False ins cx0 →
  ∃ cx', run ins cx0 = Done tt cx' ∧ inv True cx' ∧ calm cx' ∧ ext cx0 cx'.
Proof.
  intros Hn Hs Hsig Hpk Hok. assert (inv False cx0) as Hi0 by (eapply start_inv; eauto).
  destruct (wpp_done _ _ _ (run_spec False ins cx0 Hi0 Hok)) as ([] & cx' & E & Hi & He).
  exists cx'. split; [done|]. destruct Hi. destruct inv_calm0 as [[]|Hcalm].
  split; [split; try done; by left|done].
Qed.

(** C11.  The commit rule.  In a calm node, accepting a proposal of the
    current round `r > f` commits exactly the ancestors of the proposal
    accepted in round `r - f`, moves to round `r + 1` and its leader, and
    makes the block the next parent. *)
Theorem apollo_commit_exact cx p block q :
  inv False cx → prop_round p = round cx → block_hash block = prop_hash p →
  delivered cx (prop_hash p) → equivocates cx block = false →
  (num_faults cx < round cx)%N →
  <[prop_round p := p]> (prop_chain_by_round cx) !! (round cx - num_faults cx)%N = Some q →
  ∃ cx', on_receive_proposal p block cx = Done tt cx' ∧
    (∀ h, h ∈ committed_blocks_by_hash (storage cx') ↔
          h ∈ committed_blocks_by_hash (storage cx) ∨ ancestor (storage cx) (prop_hash q) h) ∧
    prop_chain_by_round cx' = <[round cx := p]> (prop_chain_by_round cx) ∧
    round cx' = N.succ (round cx) ∧ round_leader cx' = (round cx mod num_nodes cx)%N ∧
    last_seen_block cx' = block.
Proof.
  intros Hi Hr Hb Hd Heq Hf Hq.
  destruct (wpp_done _ _ _ (on_receive_run False cx p block Hi Hr Hd))
    as ([] & cx' & E & [[_ ?]|(s' & Hc & _ & Hcommit)]); [congruence|].
  destruct (Hcommit Hf) as (q' & path & Hq' & Hw).
  assert (q' = q) as -> by congruence.
  exists cx'. split; [done|]. pose proof (next_leader_mod cx (inv_nodes _ _ Hi)
    (inv_round _ _ Hi) (inv_leader _ _ Hi)) as Hl.
  assert (N.succ (round cx) - 1 = round cx)%N as Hs by lia. rw Hs in Hl.
  unfold core in Hc. simpl in Hc. injection Hc as _ _ _ _ _ Es _ _ _ _ Er El Ec _ _ Eb.
  rw Es Ec Er El Eb Hr Hl. split; [|done]. apply walked_exact with path; [apply Hi..|done].
Qed.

(** A commit announces the newly committed blocks in chain order: with
    every ancestor delivered, `do_commit` tells the batcher `Committed` and
    hands the router the batch of each block on the path from the oldest
    uncommitted ancestor to the proposal's block, oldest first, and of no
    other block; a block whose batch is neither cached nor stored is
    skipped. *)
Theorem apollo_commit_announces cx p :
  prop_chain_by_round cx !! (round cx - num_faults cx)%N = Some p →
  storage_wf (storage cx) → complete (storage cx) (prop_hash p) →
  (∀ h b, all_delivered_blocks_by_hash (storage cx) !! h = Some b → store_below_cache cx b) →
  ∃ path cx', do_commit cx = Done tt cx' ∧
    walked (storage cx) (prop_hash p) path (storage cx') ∧
    to_batcher cx' = to_batcher cx ++
      omap (λ b, (λ x, Committed x (height (header b))) <$> batch_of cx b) (reverse path) ∧
    to_router cx' = to_router cx ++ omap (batch_of cx) (reverse path).
Proof.
  intros Hp Hwf Hc Hb. destruct (commit_blocks_calm cx p Hwf Hc) as (path & s' & E & Hw & _).
  assert (Forall (store_below_cache cx) (reverse path)) as Hcached.
  { apply Forall_reverse. eapply Forall_impl; [eapply path_in_index, (walked_path _ _ _ _ Hw)|].
    intros b [h Hh]. eauto. }
  set (cx1 := cx <| storage := s' |>) in E.
  destruct (wpp_done _ _ _ (announce_cached cx1 (reverse path) Hcached))
    as ([] & cx' & E' & E1 & E2 & _ & Ec).
  exists path, cx'. split; [|split; [|done]].
  - unfold do_commit, bind, get. rw Hp /=. unfold ret. rw E. exact E'.
  - assert (storage cx' = s') as ->; [|done]. revert Ec. unfold core; simpl. by intros [=].
Qed.

(** Once a block is indexed the equivocation test compares it with itself. *)
Lemma equivocates_indexed cx b :
  equivocates (cx <| storage ::= add_delivered_block b |>) b = false.
Proof.
  unfold equivocates, delivered_block_from_ht. simpl. rw lookup_insert_eq.
  by rw bool_decide_eq_false_2; [|intros []].
Qed.

(** A proposal of the leader of this round, complete and on a known parent. *)
Record valid_proposal cx p b (batch : CachedBatch Transaction) : Prop := {
  vp_hash : block_hash b = prop_hash p;
  vp_batch : check_batch_hash b batch = true;
  vp_hashed : well_hashed b;
  vp_parent : delivered cx (prev (header b));
  vp_round : prop_round p = round cx;
  vp_leader : origin (sig p) = round_leader cx;
  vp_author : author (header b) = round_leader cx;
  vp_signed : origin (sig p) = myid cx ∨
    ∃ pk, pub_key_map cx !! origin (sig p) = Some pk ∧ check_sig p pk = true;
}.

Lemma valid_received cx p b batch sender cx1 :
  inv False cx → valid_proposal cx p b batch →
  core cx1 = core (cx <| storage ::= add_delivered_block b |>) →
  equivocates cx1 b = false →
  wp (receive_or_queue p b sender) (λ _ cx', ∃ s', core cx' = core (advance cx1 p b s')) cx1.
Proof.
  intros Hi [] Hc He.
  pose proof (pg_inv _ _ _ (deliver_progressed False cx b Hi vp_hashed0 (or_intror vp_parent0))) as Hi'.
  pose proof (core_inv _ _ _ Hc Hi') as Hi1.
  assert (round cx1 = round cx ∧ round_leader cx1 = round_leader cx ∧ myid cx1 = myid cx ∧
    pub_key_map cx1 = pub_key_map cx ∧ storage cx1 = add_delivered_block b (storage cx))
    as (Er & El & Em & Ek & Es) by (revert Hc; unfold core; simpl; by intros [=]).
  unfold receive_or_queue, try_receive_proposal. apply wpp_bind, wpp_get.
  rw Er vp_round0 N.ltb_irrefl. apply wpp_bind, wpp_get. rw Er !N.ltb_irrefl.
  rw bool_decide_eq_false_2; [|tauto]. unfold get_author, Block_BlockTrait.
  rw El vp_leader0 vp_author0 N.eqb_refl /=. apply wpp_bind.
  apply (wpp_mono _ (λ bad cx', bad = false ∧ cx' = cx1)).
  { apply wpp_if; intros Hm; [by apply wpp_ret|]. apply N.eqb_neq in Hm.
    destruct vp_signed0 as [|(pk & Hpk & Hsig)]; [congruence|].
    rw Ek -vp_leader0 Hpk /=. apply wpp_bind, wpp_ret, wpp_ret. by rw Hsig. }
  intros bad cx2 [-> ->]. eapply wpp_mono; [apply (on_receive_run False); [done|congruence|]|].
  - rw Es -vp_hash0. exact (add_delivered_self b (storage cx)).
  - intros [] cx' [[_ He']|(s' & Hcx & _)]; [congruence|eauto].
Qed.

Lemma valid_delivered cx sender p b batch :
  inv False cx → valid_proposal cx p b batch →
  wp (delivery_check sender p (Some (b, batch))) (λ _ cx', progressed False cx cx' ∧
    prop_chain_by_round cx' !! round cx = Some p ∧ round cx' = N.succ (round cx) ∧
    last_seen_block cx' = b) cx.
Proof.
  intros Hi Hv. pose proof Hv as []. apply wpp_and.
  { eapply wpp_mono; [apply (delivery_check_spec False); [done|split; [done|by right]]|].
    by intros [] cx' []. }
  unfold delivery_check. apply wpp_bind, wpp_get. rw bool_decide_eq_false_2; last first.
  { rw vp_round0 (inv_chain _ _ Hi). lia. }
  apply wpp_bind. unfold resolve_block. apply wpp_bind, wpp_get.
  rw bool_decide_eq_false_2; [|tauto]. rw vp_batch0 /=. unfold persist_batch. wpp_go.
  { exfalso. match goal with H : negb _ = true |- _ =>
      apply negb_true_iff, not_true_iff_false in H; apply H end. by apply is_delivered_spec. }
  eapply wpp_mono; [apply (valid_received cx p b batch); [done|done|done|apply equivocates_indexed]|].
  intros [] cx2 (s' & Hc2). wpp_go. simpl.
  assert (prop_waiting_parent cx2 = ∅) as ->.
  { destruct (inv_calm _ _ Hi) as [[]|Hcalm]. revert Hc2. unfold core, advance; simpl.
    intros [=]. by rw -(calm_waiting _ Hcalm). }
  rw lookup_empty. apply wpp_ret. revert Hc2. unfold core, advance; simpl.
  intros [= _ _ _ _ _ _ _ _ _ _ E1 _ E2 _ _ E3]. rw E1 E2 E3 vp_round0 lookup_insert_eq //.
Qed.

(** Equivocation goes unnoticed: when the leader of the round has
    already had another block delivered at the same height, its new block is
    accepted all the same.  `delivery_check` indexes the block by height
    first, so the equivocation test that follows looks at that very block. *)
Theorem apollo_accepts_equivocation cx sender p b batch x :
  inv False cx → valid_proposal cx p b batch →
  delivered_block_from_ht (storage cx) (height (header b)) = Some x →
  block_hash x ≠ block_hash b → author (header x) = author (header b) →
  ∃ cx', delivery_check sender p (Some (b, batch)) cx = Done tt cx' ∧
    prop_chain_by_round cx' !! round cx = Some p ∧ round cx' = N.succ (round cx) ∧
    last_seen_block cx' = b.
Proof.
  intros Hi Hv _ _ _. destruct (wpp_done _ _ _ (valid_delivered cx sender p b batch Hi Hv))
    as ([] & cx' & E & _ & HΦ). exists cx'. by split.
Qed.

(** *** Progress *)
Lemma core_valid cx cx' p b batch :
  core cx' = core cx → valid_proposal cx p b batch → valid_proposal cx' p b batch.
Proof.
  intros Hc. destruct cx, cx'. unfold core in Hc; simpl in Hc. simplify_eq. intros []. by split.
Qed.

(** With one proposal in the buffer, processing starts with it. *)
Lemma process_one cx x Φ :
  prop_buf cx = [x] →
  wp drain_prop (λ more cx', more = true ∧ prop_buf cx' = [] ∧ wp process_message Φ cx') cx →
  wp process_message Φ cx.
Proof.
  intros Ex Hd. unfold process_message at 1. apply wpp_bind, wpp_get. rw Ex.
  apply wpp_bind. cbn [length loop]. apply wpp_bind. eapply wpp_mono; [exact Hd|].
  intros more cx' (-> & Ep & Hp). apply wpp_bind_inv in Hp. unfold wpp at 1, get in Hp.
  rw Ep in Hp. by apply wpp_bind_inv in Hp.
Qed.

(** A turn that takes one valid proposal from the network. *)
Lemma proposal_turn cx p b batch :
  inv False cx → idle cx → valid_proposal cx p b batch →
  wp (react (EvMsgs [NewProposal p b batch])) (λ go cx', go = true ∧ inv False cx' ∧ idle cx' ∧
    ext cx cx' ∧ prop_chain_by_round cx' !! round cx = Some p ∧ (round cx < round cx')%N) cx.
Proof.
  intros Hi (I1 & I2 & I3) Hv. cbn [react for_each]. apply wpp_bind, wpp_bind, wpp_modify, wpp_ret.
  set (cx1 := cx <| prop_buf ::= _ |>).
  apply wpp_bind, (process_one cx1 (origin (sig p), p, b, batch)); [simpl; by rw I1|].
  assert (prop_buf cx1 = [(origin (sig p), p, b, batch)]) as E1 by (simpl; by rw I1).
  unfold drain_prop. apply wpp_bind, wpp_get. rw E1. apply wpp_bind, wpp_modify, wpp_bind.
  set (cx2 := cx1 <| prop_buf := [] |>).
  assert (core cx2 = core cx) as Hc2 by (unfold core; simpl; by rw I1).
  pose proof (core_inv _ _ _ Hc2 Hi) as Hi2. pose proof (core_ext _ _ Hc2) as He2.
  eapply wpp_mono; [apply (valid_delivered cx2); [done|by eapply core_valid]|].
  intros [] cx3 ([Hi3 He3 Hq3] & Hch & Hr & _). apply wpp_ret.
  assert (queues cx3 = ([], [], [], pending_batches cx)) as Hq3'.
  { rw Hq3. unfold queues; simpl. by rw I2 I3. }
  split; [done|]. split; [by injection Hq3'|].
  eapply wpp_mono; [by apply process_message_spec|]. intros [] cx4 (Hi4 & He4 & Hq4 & _).
  apply wpp_bind. eapply wpp_mono; [by apply leader_drain_spec|].
  intros [] cx5 (Hi5 & He5 & _ & Hq5). apply wpp_ret. split; [done|]. split; [done|].
  assert (ext cx3 cx5) as He by by etrans. split; [|split; [|split]].
  - eapply idle_queues; [exact Hq5|]. by eapply emptied_idle.
  - etrans; [exact He2|]. by etrans.
  - apply (ext_chain _ _ He). exact Hch.
  - pose proof (ext_round _ _ He). change (round cx2) with (round cx) in Hr. lia.
Qed.

(** Each proposal is valid in the state in which the node takes it. *)
Fixpoint valid_run (l : list (Propose * Block * CachedBatch Transaction)) cx : Prop :=
  match l with
  | [] => True
  | (p, b, batch) :: l' => valid_proposal cx p b batch ∧
      ∀ go cx', react (EvMsgs [NewProposal p b batch]) cx = Done go cx' → valid_run l' cx'
  end.
Definition feed (l : list (Propose * Block * CachedBatch Transaction)) : list input :=
  (λ x, Turn (EvMsgs [NewProposal x.1.1 x.1.2 x.2])) <$> l.

Lemma feed_spec l cx :
  inv False cx → idle cx → valid_run l cx →
  wp (run (feed l)) (λ _ cx', inv False cx' ∧ ext cx cx' ∧
    Forall (λ x, prop_chain_by_round cx' !! prop_round x.1.1 = Some x.1.1) l ∧
    (round cx + N.of_nat (length l) ≤ round cx')%N) cx.
Proof.
  revert cx. induction l as [|[[p b] batch] l IH]; intros cx Hi Hid Hv.
  { apply wpp_ret. split; [done|]. split; [done|]. split; [done|]. simpl. lia. }
  destruct Hv as [Hv Hrest]. cbn [feed fmap list_fmap run take_input fst snd].
  destruct (wpp_done _ _ _ (proposal_turn cx p b batch Hi Hid Hv))
    as (go & cx1 & E & -> & Hi1 & Hid1 & He1 & Hch & Hr1).
  unfold wpp, bind. rw E. specialize (IH cx1 Hi1 Hid1 (Hrest _ _ E)). unfold wpp, feed in IH.
  destruct (run _ cx1) as [[] cx2| |]; [|done..]. destruct IH as (? & He2 & ? & ?).
  split; [done|]. split; [by etrans|]. split; [|simpl length; lia]. constructor; [|done].
  simpl. rw (vp_round _ _ _ _ Hv). by apply (ext_chain _ _ He2).
Qed.

(** C17.  Progress.  Take a node in the state of a calm run: its invariant holds,
    its keys work, every block it has indexed has its parent indexed, no
    proposal waits for a missing parent and nothing is buffered.  It is sent
    proposals one at a time, each valid when it is taken: for the current
    round, from the round's leader and signed unless that is this node, with
    its batch, on a known parent.  Then it accepts every one of them for its
    round and moves ahead at least as many rounds, and every block proposed
    more than f rounds before the round it reaches is committed.  With at
    least f + 1 proposals that includes the first one. *)
Theorem apollo_progress cx p b batch l :
  inv False cx → idle cx → valid_run ((p, b, batch) :: l) cx →
  ∃ cx', run (feed ((p, b, batch) :: l)) cx = Done tt cx' ∧
    Forall (λ x, prop_chain_by_round cx' !! prop_round x.1.1 = Some x.1.1) ((p, b, batch) :: l) ∧
    (round cx + N.of_nat (S (length l)) ≤ round cx')%N ∧
    (∀ x, x ∈ (p, b, batch) :: l → (prop_round x.1.1 + num_faults cx < round cx')%N →
       prop_hash x.1.1 ∈ committed_blocks_by_hash (storage cx')) ∧
    ((num_faults cx ≤ N.of_nat (length l))%N → (prop_round p + num_faults cx < round cx')%N).
Proof.
  intros Hi Hid Hv.
  destruct (wpp_done _ _ _ (feed_spec _ cx Hi Hid Hv)) as ([] & cx' & E & Hi' & He & Hall & Hr).
  exists cx'. split; [done|]. split; [done|]. simpl length in Hr. split; [done|]. split.
  - intros x Hin Hlt. rw Forall_forall in Hall. apply (inv_lag _ _ Hi' _ _ (Hall _ Hin)).
    by destruct (ext_static _ _ He) as (_ & -> & _).
  - destruct Hv as [[] _]. lia.
Qed.
End guarantees.

(** ** Examples: three replicas, one faulty; this node is replica 2 *)
Module Examples.
Import Toy ToyFormat ConfigExamples.

Definition cfg : Node := cfg3 <| Config.id := 2%N |> <| secret_key_bytes := [12%N] |>.
Definition bs0 : Batches := mkBatches (∅ : gmap bytes bytes) ∅.
Definition start : option Context := reactor_start cfg bs0.
Definition dummy : Context := Eval vm_compute in
  match reactor_start cfg bs0 with Some cx => cx | None =>
    mkContext 0 0 0 ∅ 0%N net_new [] bs0 [] [] [] [] [] [] ∅ storage_new ∅ ∅ 0 0 0 0 0 0
      GENESIS_BLOCK ∅ ∅ 0 end.

Lemma start_dummy : reactor_start cfg bs0 = Some dummy.
Proof. vm_compute. reflexivity. Qed.

Definition batch (n : N) : CachedBatch Transaction :=
  (hash_get_or_init (batch_new [new_dummy_tx_keyed 1 n 2])).2.
(** The block replica [r] builds on [parent], and its signed proposal. *)
Definition block (r : N) (parent : Hash) (ht n : N) : Block :=
  init (with_batch (hash (batch n)) <| header ::= λ h,
    h <| prev := parent |> <| author := r |> <| height := ht |> |>).
Definition proposal (r rd : N) (b : Block) : Propose :=
  mkPropose (mkVote r ((10 + r)%N :: block_hash b)) rd (block_hash b).

Definition b1 : Block := block 0 EMPTY_HASH 1 1.
Definition b2 : Block := block 1 (block_hash b1) 2 2.
Definition p1 : Propose := proposal 0 1 b1.
Definition p2 : Propose := proposal 1 2 b2.

(** Two honest rounds, and a batch of our own when it is our turn. *)
Definition ins1 : list input := [Turn (EvMsgs [NewProposal p1 b1 (batch 1)])].
Definition ins2 : list input :=
  [Turn (EvMsgs [NewProposal p2 b2 (batch 2); Relay 0 p1]);
   Sealed (hash (batch 3)) (batch 3); Turn (EvBatch (hash (batch 3)) (batch 3)); Turn EvTick].

Definition state_after (ins : list input) : Context :=
  final dummy (run ins dummy).

Lemma run_ins1 : run ins1 dummy = Done tt (state_after ins1).
Proof. apply is_done_final. vm_compute. reflexivity. Qed.

Lemma hashed_ins : Forall input_hashed ins1 ∧ Forall input_hashed ins2.
Proof. split; repeat constructor; right; reflexivity. Qed.

Lemma apollo_run_inv_witness :
  wlp (run ins2) (λ _ cx2, inv True cx2 ∧ ext (state_after ins1) cx2) (state_after ins1) ∧
  match run ins2 (state_after ins1) with
  | Done _ cx => (round cx = 4 ∧ round_leader cx = 0)%N
  | _ => False
  end.
Proof.
  split; [|vm_compute; split; reflexivity].
  apply (apollo_run_inv cfg bs0 dummy ins1 (state_after ins1) ins2).
  - vm_compute. split; reflexivity.
  - exact start_dummy.
  - apply hashed_ins.
  - apply hashed_ins.
  - exact run_ins1.
Defined.

(** The same run, as a calm one: each block comes after its parent. *)
Lemma calm_ins1 : inputs_ok False (ins1 ++ ins2) dummy.
Proof.
  assert (∀ cx b, is_delivered_by_hash (storage cx) (prev (header b)) = true →
    False ∨ is_Some (all_delivered_blocks_by_hash (storage cx) !! prev (header b))) as Hd.
  { intros cx b Hb. right. by apply is_delivered_spec. }
  split; [apply Forall_singleton; split; [right; reflexivity|apply Hd; vm_compute; reflexivity]|].
  intros go cx1 E1. assert (cx1 = final dummy (take_input (Turn (EvMsgs [NewProposal p1 b1 (batch 1)]))
    dummy)) as -> by (by rw E1).
  split; [constructor; [split; [right; reflexivity|apply Hd; vm_compute; reflexivity]|];
          by apply Forall_singleton|].
  intros; split; [done|]. intros; split; [done|]. intros; split; [done|]. done.
Qed.

Lemma apollo_calm_run_witness :
  ∃ cx', run (ins1 ++ ins2) dummy = Done tt cx' ∧ calm cx'.
Proof.
  destruct (apollo_calm_run cfg bs0 dummy (ins1 ++ ins2)) as (cx' & E & _ & Hc & _).
  - vm_compute. split; reflexivity.
  - exact start_dummy.
  - intros sk m _. eexists. reflexivity.
  - intros r Hr. assert (r = 0 ∨ r = 1 ∨ r = 2)%N as [->|[->| ->]] by (simpl in Hr; lia);
      eexists; vm_compute; reflexivity.
  - exact calm_ins1.
  - exists cx'. split; [exact E|exact Hc].
Defined.

(** The state in which the proposal of round 2 is accepted. *)
Definition cx_r2 : Context := state_after ins1 <| storage ::= add_delivered_block b2 |>.

Lemma dummy_inv : inv False dummy.
Proof.
  eapply start_inv; [|exact start_dummy|]; [vm_compute; split; reflexivity|].
  right. split; [intros; eexists; reflexivity|]. intros r Hr.
  assert (r = 0 ∨ r = 1 ∨ r = 2)%N as [->|[->| ->]] by (simpl in Hr; lia);
    eexists; vm_compute; reflexivity.
Qed.

Lemma cx_r2_inv : inv False cx_r2.
Proof.
  assert (inv False (state_after ins1)) as Hi.
  { assert (inputs_ok False ins1 dummy) as Hok by (split; [apply calm_ins1|done]).
    destruct (wpp_done _ _ _ (run_spec False ins1 dummy dummy_inv Hok)) as (? & cx & E & Hi & _).
    unfold state_after. by rw E. }
  eapply pg_inv, deliver_progressed; [exact Hi|by right|]. right.
  apply is_delivered_spec. vm_compute. reflexivity.
Qed.

(** Replica 0 has had another first block delivered. *)
Definition b1' : Block := block 0 EMPTY_HASH 1 4.
Definition cx_eq : Context := dummy <| storage ::= add_delivered_block b1' |>.

Lemma apollo_accepts_equivocation_witness :
  ∃ cx', delivery_check 0 p1 (Some (b1, batch 1)) cx_eq = Done tt cx' ∧ last_seen_block cx' = b1.
Proof.
  assert (inv False cx_eq) as Hi.
  { eapply pg_inv, deliver_progressed; [exact dummy_inv|by right|]. right.
    apply is_delivered_spec. vm_compute. reflexivity. }
  destruct (apollo_accepts_equivocation cx_eq 0 p1 b1 (batch 1) b1') as (cx' & E & _ & _ & Hl).
  - exact Hi.
  - split; try (vm_compute; reflexivity); [by right|apply is_delivered_spec; vm_compute; reflexivity|].
    right. eexists. split; vm_compute; reflexivity.
  - vm_compute. reflexivity.
  - vm_compute. discriminate.
  - vm_compute. reflexivity.
  - exists cx'. split; [exact E|exact Hl].
Defined.

(** The proposals of rounds 1 and 2; f = 1. *)
Lemma valid_run12 : valid_run [(p1, b1, batch 1); (p2, b2, batch 2)] dummy.
Proof.
  split.
  - split; try (vm_compute; reflexivity); [by right|apply is_delivered_spec; vm_compute; reflexivity|].
    right. eexists. split; vm_compute; reflexivity.
  - intros go cx' E. assert (cx' = final dummy (react (EvMsgs [NewProposal p1 b1 (batch 1)]) dummy))
      as -> by by rw E. clear E. split; [|done].
    split; try (vm_compute; reflexivity); [by right|apply is_delivered_spec; vm_compute; reflexivity|].
    right. eexists. split; vm_compute; reflexivity.
Qed.

Lemma apollo_progress_witness :
  ∃ cx', run (feed [(p1, b1, batch 1); (p2, b2, batch 2)]) dummy = Done tt cx' ∧
    prop_chain_by_round cx' !! 2%N = Some p2 ∧
    block_hash b1 ∈ committed_blocks_by_hash (storage cx').
Proof.
  destruct (apollo_progress dummy p1 b1 (batch 1) [(p2, b2, batch 2)]) as (cx' & E & Hall & _ & Hc & Hf).
  - exact dummy_inv.
  - repeat split.
  - exact valid_run12.
  - exists cx'. split; [exact E|]. split.
    + exact (proj1 (proj1 (Forall_cons _ _ _) (proj2 (proj1 (Forall_cons _ _ _) Hall)))).
    + refine (Hc (p1, b1, batch 1) _ _); [by left|]. apply Hf. vm_compute. discriminate.
Defined.

Lemma apollo_commit_exact_witness :
  ∃ cx', on_receive_proposal p2 b2 cx_r2 = Done tt cx' ∧
    (∀ h, h ∈ committed_blocks_by_hash (storage cx') ↔
       h ∈ committed_blocks_by_hash (storage cx_r2) ∨ ancestor (storage cx_r2) (prop_hash p1) h) ∧
    round cx' = 3%N.
Proof.
  destruct (apollo_commit_exact cx_r2 p2 b2 p1) as (cx' & E & Hc & _ & Hr & _).
  - exact cx_r2_inv.
  - vm_compute. reflexivity.
  - reflexivity.
  - apply is_delivered_spec. vm_compute. reflexivity.
  - vm_compute. reflexivity.
  - vm_compute. reflexivity.
  - vm_compute. reflexivity.
  - exists cx'. split; [exact E|]. split; [exact Hc|]. rw Hr. vm_compute. reflexivity.
Defined.

Definition known (b : Block) : bool :=
  match batch_of cx_r2 b with
  | Some _ => true
  | None => match store_read (hash_as_ref (batch_hash (body b))) (batch_store (batches cx_r2))
            with Some _ => false | None => true end
  end.
Lemma known_all :
  forallb (λ kv, known kv.2) (map_to_list (all_delivered_blocks_by_hash (storage cx_r2))) = true.
Proof. vm_compute. reflexivity. Qed.

Lemma apollo_commit_announces_witness :
  ∃ path cx', do_commit cx_r2 = Done tt cx' ∧
    walked (storage cx_r2) (prop_hash p1) path (storage cx') ∧
    to_router cx' = to_router cx_r2 ++ omap (batch_of cx_r2) (reverse path).
Proof.
  destruct (apollo_commit_announces cx_r2 p1) as (path & cx' & E & Hw & _ & Hr).
  - vm_compute. reflexivity.
  - apply cx_r2_inv.
  - pose proof cx_r2_inv as Hi. apply parents_complete.
    + destruct (inv_calm _ _ Hi) as [[]|Hcalm]. apply Hcalm.
    + apply is_delivered_spec. vm_compute. reflexivity.
  - intros h b Hb.
    pose proof (forallb_map _ known known_all h b Hb) as Hk. unfold known in Hk.
    unfold store_below_cache. destruct (batch_of cx_r2 b); [done|].
    by destruct (store_read _ _).
  - exists path, cx'. split; [exact E|]. split; [exact Hw|exact Hr].
Defined.

(** Replica 0 may be faulty.  It first sends a block whose parent nobody
    knows, then, as the leader of round 1, a block on top of it; when the
    honest leader of round 2 proposes, this node dies in the commit loop. *)
Definition orphan : Block := block 0 [9%N; 9%N] 7 5.
Definition bad1 : Block := block 0 (block_hash orphan) 8 6.
Definition good2 : Block := block 1 (block_hash bad1) 9 2.

(** A faulty leader can crash every correct node: well-formed messages
    of replica 0, followed by an honest proposal, make `do_commit` unwrap a
    missing ancestor. *)
Example apollo_orphan_panics :
  react (EvMsgs [NewProposal (proposal 0 50 orphan) orphan (batch 5);
                 NewProposal (proposal 0 1 bad1) bad1 (batch 6);
                 NewProposal (proposal 1 2 good2) good2 (batch 2)]) dummy =
  Panicked "called `Option::unwrap()` on a `None` value".
Proof. vm_compute. reflexivity. Qed.

(** Anybody can propose in a node's name: when it is this node's turn, a
    message that claims to come from it is accepted without a signature, and
    the round is lost. *)
Example apollo_forged_own_proposal :
  let cx := state_after (ins1 ++ [Turn (EvMsgs [NewProposal p2 b2 (batch 2)])]) in
  let forged := block 2 (block_hash b2) 3 4 in
  round_leader cx = 2%N ∧ round cx = 3%N ∧
  match react (EvMsgs [NewProposal (mkPropose (mkVote 2 []) 3 (block_hash forged)) forged (batch 4)]) cx with
  | Done _ cx' => last_seen_block cx' = forged ∧ round cx' = 4%N
  | _ => False
  end.
Proof. vm_compute. repeat split; reflexivity. Qed.
End Examples.
End ApolloProofs.
