(* ===== verification/Artemis.v ===== *)
(** * The Artemis node (consensus/artemis/src/node)

    [Context] and every handler of the reactor, with the reactor's metrics.

    The round counter starts at 1 and only ever grows by one, so it does not
    wrap in any run of less than 2^64 rounds and is kept unbounded
    ([update_round]); rounds and heights that arrive in messages are
    arbitrary, and the height of a new block is computed with wrap-around. *)

From S2P Require Import Prelude Crypto Types Config Storage Batch NodeIO.

(** ** node/metrics.rs

    The reactor is the only writer, so an atomic counter is a number that
    wraps at 2^64. *)
Definition BUCKETS_US : list N :=
  [100; 500; 1000; 5000; 10000; 50000; 100000; 500000; u64_size - 1]%N.

Record Histogram := mkHistogram {
  buckets : list N;
  sum_us : N;
  count : N;
  max_us : N;
}.
#[export] Instance eta_Histogram : Eta Histogram := λ x,
  mkHistogram (buckets x) (sum_us x) (count x) (max_us x).

Definition histogram_new : Histogram := mkHistogram (replicate 9 0%N) 0 0 0.

(** `BUCKETS_US.iter().position(|&b| us < b)`, or the last bucket. *)
Fixpoint bucket_position (us : N) (bs : list N) (i : nat) : option nat :=
  match bs with
  | [] => None
  | b :: bs' => if (us <? b)%N then Some i else bucket_position us bs' (S i)
  end.
Definition bucket_index (us : N) : nat :=
  match bucket_position us BUCKETS_US 0 with Some i => i | None => length BUCKETS_US - 1 end.

Definition record_us (us : N) (h : Histogram) : Histogram :=
  h <| buckets ::= alter (λ n, add64 n 1) (bucket_index us) |>
    <| sum_us ::= λ s, add64 s us |>
    <| count ::= λ c, add64 c 1 |>
    <| max_us ::= λ m, if (m <? us)%N then us else m |>.

(** `created_at.elapsed()`: the monotonic clock at its [k]-th reading, in
    nanoseconds. *)
Class Clock := elapsed_ns : N → N.

Record Metrics := mkMetrics {
  proposes : N;
  votes_cast : N;
  round_advances : N;
  batch_recvs : N;
  reactor_iters : N;
  inter_propose : Histogram;
  inter_vote : Histogram;
  inter_round_advance : Histogram;
  inter_batch_recv : Histogram;
  last_propose : N;
  last_vote : N;
  last_round_advance : N;
  last_batch_recv : N;
  clock_reads : N;
}.
#[export] Instance eta_Metrics : Eta Metrics := λ x,
  mkMetrics (proposes x) (votes_cast x) (round_advances x) (batch_recvs x) (reactor_iters x)
    (inter_propose x) (inter_vote x) (inter_round_advance x) (inter_batch_recv x)
    (last_propose x) (last_vote x) (last_round_advance x) (last_batch_recv x) (clock_reads x).

Definition metrics_new : Metrics :=
  mkMetrics 0 0 0 0 0 histogram_new histogram_new histogram_new histogram_new 0 0 0 0 0.

Section metrics.
Context `{Clock}.

(** `now_ns`, and the time and histogram after `record_interval`. *)
Definition now_ns (m : Metrics) : N := wrap64 (elapsed_ns (clock_reads m)).
Definition record_interval (m : Metrics) (last : N) (hist : Histogram) : N * Histogram :=
  let now := now_ns m in
  (now, if (last =? 0)%N then hist else record_us (sub64 now last / 1000)%N hist).

Definition record_propose (m : Metrics) : Metrics :=
  let m := m <| proposes ::= λ n, add64 n 1 |> in
  let '(l, h) := record_interval m (last_propose m) (inter_propose m) in
  m <| last_propose := l |> <| inter_propose := h |> <| clock_reads ::= N.succ |>.

Definition record_vote (m : Metrics) : Metrics :=
  let m := m <| votes_cast ::= λ n, add64 n 1 |> in
  let '(l, h) := record_interval m (last_vote m) (inter_vote m) in
  m <| last_vote := l |> <| inter_vote := h |> <| clock_reads ::= N.succ |>.

Definition record_round_advance (m : Metrics) : Metrics :=
  let m := m <| round_advances ::= λ n, add64 n 1 |> in
  let '(l, h) := record_interval m (last_round_advance m) (inter_round_advance m) in
  m <| last_round_advance := l |> <| inter_round_advance := h |> <| clock_reads ::= N.succ |>.

Definition record_batch_recv (m : Metrics) : Metrics :=
  let m := m <| batch_recvs ::= λ n, add64 n 1 |> in
  let '(l, h) := record_interval m (last_batch_recv m) (inter_batch_recv m) in
  m <| last_batch_recv := l |> <| inter_batch_recv := h |> <| clock_reads ::= N.succ |>.

Definition record_reactor_iter (m : Metrics) : Metrics :=
  m <| reactor_iters ::= λ n, add64 n 1 |>.
End metrics.

Module Artemis.
Section artemis.
Context `{Bincode} `{Store} `{NetOracle} `{Clock}.

Abbreviation Batch := (CachedBatch Transaction).

(** ** types/src/msg/artemis/block.rs *)
Record Block := mkBlock { blk : Types.Block; sig : Vote }.
#[export] Instance eta_Block : Eta Block := λ x, mkBlock (blk x) (sig x).

Definition GENESIS_BLOCK : Block :=
  {| blk := Types.GENESIS_BLOCK; sig := {| auth := []; origin := 0 |} |}.
Definition with_batch (h : Hash) : Block :=
  {| blk := Types.with_batch h; sig := {| auth := []; origin := 0 |} |}.
Definition block_check_sig (b : Block) (pk : PublicKey) : bool :=
  pk_verify pk (hash_as_ref (block_hash (blk b))) (auth (sig b)).
Definition block_init (b : Block) : Block := b <| blk ::= init |>.

#[export] Instance Block_BlockTrait : BlockTrait Block := {|
  get_hash b := block_hash (blk b);
  get_height b := height (header (blk b));
  get_author b := author (header (blk b));
|}.
#[export] Instance Block_HasParent : HasParent Block := λ b, prev (header (blk b)).

(** ** types/src/msg/artemis/ucr.rs *)
Record UCRVote := mkUCRVote {
  v_hash : Hash;
  v_round : Round;
  v_view : View;
  v_vote : Vote;
}.
Definition ucr_new : UCRVote :=
  {| v_hash := EMPTY_HASH; v_round := 0; v_view := 0; v_vote := {| auth := []; origin := 0 |} |}.
Definition ucr_digest (v : UCRVote) : bytes :=
  hash_as_ref (do_hash (ser_ucr (v_hash v) (v_round v) (v_view v))).
Definition ucr_check_sig (v : UCRVote) (pk : PublicKey) : bool :=
  pk_verify pk (ucr_digest v) (auth (v_vote v)).
Definition ucr_origin (v : UCRVote) : Replica := origin (v_vote v).

(** ** types/src/msg/artemis/proto.rs *)
Inductive ProtocolMsg :=
  | NewBlock (b : Block) (batch : Batch)
  | MUCRVote (v : UCRVote)
  | Relay (from : Replica) (v : UCRVote)
  | Blame (v : Vote)
  | Request (from : Replica) (rid : N) (h : Hash)
  | Response (from : Replica) (rid : N) (b : Block) (batch : Batch)
  | Invalid.

(** ** node/context.rs *)
Record Context := mkContext {
  num_nodes : N;
  num_faults : N;
  myid : Replica;
  pub_key_map : gmap Replica PublicKey;
  my_secret_key : Keypair;
  consensus_net : Net ProtocolMsg;
  broadcast_peers : list Replica;
  batches : Batches;
  pending_batches : list (Hash * Batch);
  to_batcher : list (BatcherConsensusMsg Transaction);
  to_router : list Batch;
  storage : Storage Block;
  vote_chain : gmap Round UCRVote;
  round_leader : Replica;
  last_f_leaders : list Replica;
  eligible_leaders : list Replica;
  view_leader : Replica;
  view : View;
  round : Round;
  last_seen_block : Block;
  last_voted_block : Block;
  req_ctr : N;
  payload_len : N;
  block_size : N;
  bench_committed_tx_count : N;
  bench_emit_window_secs : N;
  bench_metrics_node : Replica;
  vote_waiting : gmap Hash UCRVote;
  vote_ready : gmap Round UCRVote;
  block_processing_waiting : list (Block * Batch);
  response_waiting : list (Replica * Block * Batch);
  metrics : Metrics;
  other_buf : list ProtocolMsg;
  block_parent_waiting : gmap Hash Hash;
  undelivered_blocks : gmap Hash Block;
}.
#[export] Instance eta_Context : Eta Context := λ x,
  mkContext (num_nodes x) (num_faults x) (myid x) (pub_key_map x) (my_secret_key x)
    (consensus_net x) (broadcast_peers x) (batches x) (pending_batches x) (to_batcher x)
    (to_router x) (storage x) (vote_chain x) (round_leader x) (last_f_leaders x)
    (eligible_leaders x) (view_leader x) (view x) (round x) (last_seen_block x)
    (last_voted_block x) (req_ctr x) (payload_len x) (block_size x)
    (bench_committed_tx_count x) (bench_emit_window_secs x) (bench_metrics_node x)
    (vote_waiting x) (vote_ready x) (block_processing_waiting x) (response_waiting x)
    (metrics x) (other_buf x) (block_parent_waiting x) (undelivered_blocks x).

(** `LinkedHashMap<Replica, ()>`, as the keys in insertion order: inserting a
    key that is there moves it to the back. *)
Definition linked_insert (k : Replica) (l : list Replica) : list Replica :=
  filter (λ x, x ≠ k) l ++ [k].

Definition context_new (config : Node) (bs : Batches) : option Context :=
  match decode_secret config, decode_public_keys config (λ r, negb (r =? Config.id config)%N) with
  | Some sk, Some pks =>
      let f := Config.num_faults config in
      let n := Config.num_nodes config in
      Some {|
      num_nodes := n;
      num_faults := f;
      myid := Config.id config;
      pub_key_map := pks;
      my_secret_key := sk;
      consensus_net := net_new;
      broadcast_peers := broadcast_list config;
      batches := bs;
      pending_batches := [];
      to_batcher := [];
      to_router := [];
      storage := add_delivered_block GENESIS_BLOCK storage_new;
      vote_chain := ∅;
      round_leader := as_u16 (sub64 f 1);
      last_f_leaders := foldl (λ l i, linked_insert (as_u16 (N.of_nat i)) l) []
                          (seq 0 (N.to_nat f));
      eligible_leaders := (λ i, as_u16 (N.of_nat i)) <$>
                            seq (N.to_nat f) (N.to_nat n - N.to_nat f);
      view_leader := 0;
      view := 0;
      round := 1;
      last_seen_block := GENESIS_BLOCK;
      last_voted_block := GENESIS_BLOCK;
      req_ctr := 0;
      payload_len := wrap64 (Config.payload_size config * Config.block_size config);
      block_size := Config.block_size config;
      bench_committed_tx_count := 0;
      bench_emit_window_secs := N.max (Config.bench_emit_window_secs config) 1;
      bench_metrics_node := Config.bench_metrics_node config;
      vote_waiting := ∅;
      vote_ready := ∅;
      block_processing_waiting := [];
      response_waiting := [];
      metrics := metrics_new;
      other_buf := [];
      block_parent_waiting := ∅;
      undelivered_blocks := ∅ |}
  | _, _ => None
  end.

(** `usize::from_be_bytes`. *)
Definition from_be_bytes (bs : bytes) : N := foldl (λ acc b, acc * 256 + b)%N 0%N bs.

(** The leader of the next round and its index among the eligible ones;
    [None] is the panic of `% 0` or of an index out of range. *)
Definition compute_next_round_leader (cx : Context) : option (Replica * nat) :=
  let data := to_be_bytes (round cx + 1) in
  let h := do_hash data in
  let n := N.of_nat (length (eligible_leaders cx)) in
  if (n =? 0)%N then None
  else let idx := N.to_nat (from_be_bytes (drop 24 (hash_as_ref h)) mod n) in
       match eligible_leaders cx !! idx with
       | Some l => Some (l, idx)
       | None => None
       end.

Definition next_round_leader : M Context Replica :=
  let! cx := get in
  let! r := unwrap "attempt to calculate the remainder with a divisor of zero"
              (compute_next_round_leader cx) in
  ret r.1.

Definition gc_handlers (cx : Context) : Context := cx <| consensus_net ::= net_gc |>.
Definition signal (m : BatcherConsensusMsg Transaction) (cx : Context) : Context :=
  cx <| to_batcher ::= λ l, l ++ [m] |>.

Definition update_round : M Context unit :=
  modify (λ cx, cx <| metrics ::= record_round_advance |>);;;
  let! cx := get in
  let! r := unwrap "attempt to calculate the remainder with a divisor of zero"
              (compute_next_round_leader cx) in
  let '(new_leader, idx) := r in
  modify (λ cx, cx <| round_leader := new_leader |> <| round ::= N.succ |>);;;
  let! eligible_again := unwrap "called `Option::unwrap()` on a `None` value"
                           (head (last_f_leaders cx)) in
  modify (λ cx, cx <| last_f_leaders ::= tail |>
                   <| last_f_leaders ::= linked_insert new_leader |>
                   <| eligible_leaders ::= insert idx eligible_again |>);;;
  modify gc_handlers.

Definition announce_height_to_batcher : M Context unit := modify (λ cx,
  let next_height := add64 (get_height (last_seen_block cx)) 1 in
  signal (NewRound (view_leader cx) next_height) cx).

Definition persist_batch (h : Hash) (batch : Batch) : M Context unit :=
  modify (λ cx, cx <| batches ::= batches_persist h batch |>).
Definition read_batch (h : Hash) : M Context (option Batch) := λ cx,
  let '(r, bs) := batches_read h (batches cx) in Done r (cx <| batches := bs |>).

(** ** node/comms.rs *)
Definition send (to : Replica) (msg : ProtocolMsg) : M Context unit := modify (λ cx,
  if (to =? myid cx)%N then cx
  else cx <| consensus_net ::= net_send (round cx) to msg |>).
Definition multicast (msg : ProtocolMsg) : M Context unit := modify (λ cx,
  cx <| consensus_net ::= net_broadcast (round cx) (broadcast_peers cx) msg |>).

(** ** node/commit.rs *)
Definition commit_blocks (h : Hash) : M Context (list Block) := λ cx,
  match commit_walk (commit_fuel (storage cx)) (storage cx) h [] with
  | Done newly s => Done newly (cx <| storage := s |>)
  | Panicked w => Panicked w
  | OutOfFuel => OutOfFuel
  end.

Definition announce_commit (block : Block) : M Context unit :=
  let! o := read_batch (batch_hash (body (blk block))) in
  match o with
  | None => ret tt
  | Some batch =>
      modify (λ cx, cx <| bench_committed_tx_count ::=
                            λ n, sat_add64 n (N.of_nat (length (payload batch))) |>);;;
      modify (signal (Committed batch (height (header (blk block)))));;;
      modify (λ cx, cx <| to_router ::= λ l, l ++ [batch] |>)
  end.

(** Only called with `round > num_faults`. *)
Definition do_commit : M Context unit :=
  let! cx := get in
  let commit_round := (round cx - num_faults cx)%N in
  let! v := unwrap "called `Option::unwrap()` on a `None` value"
              (vote_chain cx !! commit_round) in
  let! newly_committed := commit_blocks (v_hash v) in
  for_each (reverse newly_committed) announce_commit.

(** ** node/round_vote.rs *)
Definition on_receive_round_vote (v : UCRVote) : M Context unit :=
  let! cx := get in
  if negb (view cx =? v_view v)%N then ret tt
  else
    let! bad := (if (myid cx =? round_leader cx)%N then ret false
                 else let! pk := unwrap "no entry found for key"
                                   (pub_key_map cx !! round_leader cx) in
                      ret (negb (ucr_check_sig v pk))) in
    if bad then ret tt
    else
      modify (λ cx, cx <| vote_chain ::= insert (v_round v) v |>);;;
      (if (num_faults cx <? round cx)%N then do_commit else ret tt);;;
      let! cx := get in
      let! last_voted := unwrap "Obtained a vote for an unknown hash"
                           (delivered_block_from_hash (storage cx) (v_hash v)) in
      modify (λ cx, cx <| last_voted_block := last_voted |>);;;
      let! next := next_round_leader in
      send next (Relay (myid cx) v);;;
      update_round.

Definition request_and_wait (from : Replica) (v : UCRVote) : M Context unit :=
  let! cx := get in
  send from (Request (myid cx) (req_ctr cx) (v_hash v));;;
  modify (λ cx, cx <| vote_waiting ::= insert (v_hash v) v |>).

Definition try_receive_round_vote (from : Replica) (v : UCRVote) : M Context unit :=
  let! cx := get in
  if (v_round v <? round cx)%N then ret tt
  else if (round cx <? v_round v)%N then
    if is_delivered_by_hash (storage cx) (v_hash v)
    then modify (λ cx, cx <| vote_ready ::= insert (v_round v) v |>)
    else request_and_wait from v
  else if negb (is_delivered_by_hash (storage cx) (v_hash v))
  then request_and_wait from v
  else on_receive_round_vote v.

Definition do_round_vote : M Context unit :=
  modify (λ cx, cx <| metrics ::= record_vote |>);;;
  let! cx := get in
  let v := ucr_new in
  let v := {| v_hash := get_hash (last_seen_block cx); v_round := round cx;
              v_view := view cx; v_vote := v_vote v |} in
  let! a := unwrap "Failed to sign a ucr message" (sk_sign (my_secret_key cx) (ucr_digest v)) in
  let v := {| v_hash := v_hash v; v_round := v_round v; v_view := v_view v;
              v_vote := {| auth := a; origin := myid cx |} |} in
  multicast (MUCRVote v);;;
  on_receive_round_vote v.

Definition try_round_vote : M Context unit :=
  let! cx := get in
  if negb (myid cx =? round_leader cx)%N then ret tt
  else if (get_height (last_seen_block cx) <=? get_height (last_voted_block cx))%N then ret tt
  else do_round_vote.

(** ** node/coordinator.rs *)
Definition check_batch_hash (b : Block) (batch : Batch) : bool :=
  bool_decide (hash batch = batch_hash (body (blk b))).

(** Index a block; [true] if it is a new highest one. *)
Definition index_block (b : Block) : M Context bool :=
  modify (λ cx, cx <| storage ::= add_delivered_block b |>);;;
  let! cx := get in
  if (get_height (last_seen_block cx) <? get_height b)%N
  then modify (λ cx, cx <| last_seen_block := b |>);;; ret true
  else ret false.

Definition ready_waiting_vote (h : Hash) : M Context unit := modify (λ cx,
  match vote_waiting cx !! h with
  | Some v => cx <| vote_waiting ::= delete h |> <| vote_ready ::= insert (v_round v) v |>
  | None => cx
  end).

(** `while let Some(child) = cx.block_parent_waiting.remove(&b_hash)`. *)
Fixpoint deliver_children (fuel : nat) (h : Hash) (advanced : bool) : M Context bool :=
  match fuel with
  | O => λ _, OutOfFuel
  | S fuel' =>
      let! cx := get in
      match block_parent_waiting cx !! h with
      | None => ret advanced
      | Some child =>
          modify (λ cx, cx <| block_parent_waiting ::= delete h |>);;;
          let! adv := match undelivered_blocks cx !! child with
                      | Some b =>
                          modify (λ cx, cx <| undelivered_blocks ::= delete child |>);;;
                          index_block b
                      | None => ret false
                      end in
          ready_waiting_vote child;;;
          deliver_children fuel' child (advanced || adv)
      end
  end.

Definition do_delivery (b : Block) : M Context unit :=
  let h := get_hash b in
  let! adv := index_block b in
  modify (λ cx, cx <| undelivered_blocks ::= delete h |>);;;
  ready_waiting_vote h;;;
  let! cx := get in
  let! advanced := deliver_children (S (size (block_parent_waiting cx))) h adv in
  if advanced then announce_height_to_batcher else ret tt.

Definition on_receive_new_block_direct (b : Block) : M Context unit :=
  let! cx := get in
  if is_delivered_by_hash (storage cx) (get_hash b) then ret tt
  else if negb (is_delivered_by_hash (storage cx) (prev (header (blk b)))) then ret tt
  else if negb (view_leader cx =? get_author b)%N || negb (view_leader cx =? origin (sig b))%N
  then ret tt
  else
    let! bad := (if (view_leader cx =? myid cx)%N then ret false
                 else let! pk := unwrap "Must have this node's pubkey"
                                   (pub_key_map cx !! view_leader cx) in
                      ret (negb (block_check_sig b pk))) in
    if bad then ret tt else do_delivery b.

Definition do_new_block (bh : Hash) (batch : Batch) : M Context unit :=
  modify (λ cx, cx <| metrics ::= record_propose |>);;;
  let! cx := get in
  let nb := with_batch bh in
  let nb := nb <| blk ::= λ b, b <| header ::= λ h,
              h <| prev := get_hash (last_seen_block cx) |> <| author := myid cx |>
                <| height := add64 (get_height (last_seen_block cx)) 1 |> |> |>
               <| sig := {| origin := myid cx; auth := auth (sig nb) |} |> in
  let nb := block_init nb in
  let! a := unwrap "Failed to sign the block"
              (sk_sign (my_secret_key cx) (hash_as_ref (block_hash (blk nb)))) in
  let nb := nb <| sig := {| origin := origin (sig nb); auth := a |} |> in
  multicast (NewBlock nb batch);;;
  modify (signal (Proposed batch (height (header (blk nb)))));;;
  on_receive_new_block_direct nb.

(** ** node/request.rs *)
Definition handle_request (sender : Replica) (req_id : N) (h : Hash) : M Context unit :=
  let! cx := get in
  let is_delivered := is_delivered_by_hash (storage cx) h in
  if negb is_delivered && negb (bool_decide (is_Some (undelivered_blocks cx !! h))) then ret tt
  else
    let! b := (if is_delivered
               then unwrap "called `Option::unwrap()` on a `None` value"
                      (delivered_block_from_hash (storage cx) h)
               else unwrap "called `Option::unwrap()` on a `None` value"
                      (undelivered_blocks cx !! h)) in
    let! o := read_batch (batch_hash (body (blk b))) in
    match o with
    | None => ret tt
    | Some batch => send sender (Response (myid cx) req_id b batch)
    end.

Definition do_request (sender : Replica) (h : Hash) : M Context unit :=
  let! cx := get in send sender (Request (myid cx) (req_ctr cx) h).

(** ** node/blame.rs *)
Definition on_receive_blame (v : Vote) : M Context unit := panic "Received a blame message".

(** ** node/message.rs *)
Definition buffer_message (message : ProtocolMsg) : M Context unit := modify (λ cx,
  match message with
  | Invalid => cx
  | NewBlock b batch => cx <| block_processing_waiting ::= λ l, l ++ [(b, batch)] |>
  | Response from _ b batch => cx <| response_waiting ::= λ l, l ++ [(from, b, batch)] |>
  | x => cx <| other_buf ::= λ l, l ++ [x] |>
  end).

Definition update_delivery (b : Block) (sender : Replica) : M Context unit :=
  let! cx := get in
  if is_delivered_by_hash (storage cx) (get_hash b) then ret tt
  else
    let p_hash := prev (header (blk b)) in
    let is_parent_delivered := is_delivered_by_hash (storage cx) p_hash in
    if bool_decide (is_Some (block_parent_waiting cx !! p_hash)) then ret tt
    else
      let b_hash := get_hash b in
      if negb is_parent_delivered then
        modify (λ cx, cx <| block_parent_waiting ::= insert p_hash b_hash |>);;;
        modify (λ cx, cx <| undelivered_blocks ::= insert b_hash b |>);;;
        do_request sender b_hash
      else do_delivery b.

(** The drain loops of `process_message`; [true] is "go on". *)
Definition drain_blocks : M Context bool :=
  let! cx := get in
  match block_processing_waiting cx with
  | [] => ret false
  | (b, batch) :: rest =>
      modify (λ cx, cx <| block_processing_waiting := rest |>);;;
      (if check_batch_hash b batch
       then persist_batch (batch_hash (body (blk b))) batch;;; on_receive_new_block_direct b
       else ret tt);;; ret true
  end.

Definition drain_responses : M Context bool :=
  let! cx := get in
  match response_waiting cx with
  | [] => ret false
  | (sender, b, batch) :: rest =>
      modify (λ cx, cx <| response_waiting := rest |>);;;
      (if check_batch_hash b batch
       then persist_batch (batch_hash (body (blk b))) batch;;; update_delivery b sender
       else ret tt);;; ret true
  end.

Definition drain_ready : M Context bool :=
  let! cx := get in
  match vote_ready cx !! round cx with
  | None => ret false
  | Some v =>
      modify (λ cx, cx <| vote_ready ::= delete (round cx) |>);;;
      on_receive_round_vote v;;; ret true
  end.

Definition drain_other : M Context bool :=
  let! cx := get in
  match other_buf cx with
  | [] => ret false
  | msg :: rest =>
      modify (λ cx, cx <| other_buf := rest |>);;;
      match msg with
      | MUCRVote v => try_receive_round_vote (ucr_origin v) v
      | Relay from v => try_receive_round_vote from v
      | Request from rid h => handle_request from rid h
      | Blame v => on_receive_blame v
      | _ => panic "unreachable"
      end;;; ret true
  end.

Definition process_message : M Context unit :=
  let! cx := get in
  loop (S (length (block_processing_waiting cx))) drain_blocks;;;
  let! cx := get in
  loop (S (length (response_waiting cx))) drain_responses;;;
  let! cx := get in
  loop (S (size (vote_ready cx))) drain_ready;;;
  let! cx := get in
  loop (S (length (other_buf cx))) drain_other;;;
  let! cx := get in
  loop (S (size (vote_ready cx))) drain_ready.

(** ** node/reactor.rs *)
Inductive event :=
  | EvTick
  | EvMsgs (msgs : list ProtocolMsg)
  | EvUndecodable
  | EvNetClosed
  | EvBatch (bh : Hash) (batch : Batch)
  | EvMempoolClosed.

Definition leader_step : M Context bool :=
  let! cx := get in
  match pending_batches cx with
  | (bh, batch) :: rest =>
      if (view_leader cx =? myid cx)%N then
        modify (λ cx, cx <| pending_batches := rest |>);;;
        do_new_block bh batch;;; ret true
      else ret false
  | [] => ret false
  end.

(** The end of a turn: dispatch pending batches, then vote. *)
Definition leader_drain : M Context unit :=
  let! cx := get in
  loop (S (length (pending_batches cx))) leader_step;;;
  try_round_vote.

Definition reactor_start (config : Node) (bs : Batches) : option Context :=
  match context_new config bs with
  | Some cx => match announce_height_to_batcher cx with Done _ cx => Some cx | _ => None end
  | None => None
  end.

Definition react (ev : event) : M Context bool :=
  modify (λ cx, cx <| metrics ::= record_reactor_iter |>);;;
  match ev with
  | EvTick =>
      modify (λ cx, if (myid cx =? bench_metrics_node cx)%N
                    then cx <| bench_committed_tx_count := 0%N |> else cx);;;
      leader_drain;;; ret true
  | EvMsgs msgs =>
      for_each msgs buffer_message;;;
      process_message;;;
      leader_drain;;; ret true
  | EvUndecodable => ret true
  | EvNetClosed => ret false
  | EvBatch bh batch =>
      modify (λ cx, cx <| metrics ::= record_batch_recv |>);;;
      modify (λ cx, cx <| pending_batches ::= λ l, l ++ [(bh, batch)] |>);;;
      leader_drain;;; ret true
  | EvMempoolClosed => ret false
  end.

Inductive input :=
  | Turn (ev : event)
  | Sealed (h : Hash) (batch : Batch).
Definition take_input (i : input) : M Context bool :=
  match i with
  | Turn ev => react ev
  | Sealed h batch => persist_batch h batch;;; ret true
  end.
Fixpoint run (ins : list input) : M Context unit :=
  match ins with
  | [] => ret tt
  | i :: ins' => let! go := take_input i in if go then run ins' else ret tt
  end.
End artemis.
End Artemis.
