(* ===== verification/ArtemisProofs.v ===== *)
(** * Artemis: the node's invariant

    Every turn of the reactor ends and keeps the invariant.  Blocks are only
    indexed after their parent, whatever arrives, so the commit loop cannot
    miss an ancestor: the only message that can kill a node is a blame. *)

From S2P Require Import Prelude Crypto Types Config Storage Batch NodeIO Artemis.

Module ArtemisProofs.
Import Artemis.

(** ** The histogram *)
Lemma bucket_position_spec us bs i j :
  bucket_position us bs i = Some j →
  i ≤ j ∧ (∃ b, bs !! (j - i) = Some b ∧ (us < b)%N) ∧
  ∀ k b, i ≤ k < j → bs !! (k - i) = Some b → (b ≤ us)%N.
Proof.
  revert i. induction bs as [|b bs IH]; intros i; simpl; [done|].
  case_eq (us <? b)%N; [intros Hlt%N.ltb_lt [= <-]|intros Hge%N.ltb_ge Hp%IH].
  - rw Nat.sub_diag. split; [done|]. split; [eauto|lia].
  - destruct Hp as (Hle & (b' & Hb' & ?) & Hall). split; [lia|]. split.
    + exists b'. assert (j - i = S (j - S i)) as -> by lia. done.
    + intros k b1 Hk. destruct (decide (k = i)) as [->|]; [rw Nat.sub_diag /=; naive_solver|].
      assert (k - i = S (k - S i)) as -> by lia. apply Hall. lia.
Qed.

Lemma bucket_position_None us bs i :
  bucket_position us bs i = None → Forall (λ b, (b ≤ us)%N) bs.
Proof.
  revert i. induction bs as [|b bs IH]; intros i; simpl; [constructor|].
  case_eq (us <? b)%N; [done|]. intros ?%N.ltb_ge ?. constructor; [done|by eapply IH].
Qed.

Definition total (l : list N) : N := foldr N.add 0%N l.

Lemma total_alter l i :
  i < length l → Forall (λ n, (n < u64_size)%N) l →
  wrap64 (total (alter (λ n, add64 n 1) i l)) = wrap64 (total l + 1).
Proof.
  revert i. induction l as [|n l IH]; intros i Hi Hl; simpl in *; [lia|].
  apply Forall_cons in Hl as [Hn Hl]. destruct i as [|i].
  - change (alter _ 0 (n :: l)) with (add64 n 1 :: l). simpl. unfold add64, wrap64.
    rw N.Div0.add_mod_idemp_l. f_equal. lia.
  - change (alter _ (S i) (n :: l)) with (n :: alter (λ n, add64 n 1) i l). simpl.
    unfold wrap64 in *. rw -N.Div0.add_mod_idemp_r IH; [|lia|done].
    rw N.Div0.add_mod_idemp_r. f_equal. lia.
Qed.

Record histogram_wf (h : Histogram) : Prop := {
  hw_len : length (buckets h) = 9;
  hw_bounds : Forall (λ n, (n < u64_size)%N) (buckets h);
  hw_count : count h = wrap64 (total (buckets h));
}.

Lemma bucket_index_lt us : bucket_index us < 9.
Proof.
  unfold bucket_index. destruct (bucket_position us BUCKETS_US 0) as [j|] eqn:E; [|simpl; lia].
  apply bucket_position_spec in E as (_ & (b & Hb & _) & _).
  apply lookup_lt_Some in Hb. rw Nat.sub_0_r in Hb. exact Hb.
Qed.

Lemma record_us_wf us h : histogram_wf h → histogram_wf (record_us us h).
Proof.
  intros [H1 H2 H3]. split; simpl.
  - by rw length_alter.
  - apply Forall_alter; [done|]. intros n _ _. apply N.mod_lt. done.
  - rw H3 total_alter //; [|by rw H1; apply bucket_index_lt].
    unfold add64, wrap64. rw N.Div0.add_mod_idemp_l //.
Qed.

(** The histogram counts every sample once, in the bucket of the first
    edge above it (the last bucket if there is none), and its `count` is the
    sum of the buckets modulo 2^64. *)
Theorem histogram_records (samples : list N) :
  let h := foldl (λ h us, record_us us h) histogram_new samples in
  count h = wrap64 (total (buckets h)) ∧ length (buckets h) = 9 ∧
  ∀ us, (us < u64_size - 1)%N → ∃ b, BUCKETS_US !! bucket_index us = Some b ∧ (us < b)%N ∧
    ∀ k b', k < bucket_index us → BUCKETS_US !! k = Some b' → (b' ≤ us)%N.
Proof.
  intros h. assert (histogram_wf h) as [? _ ?].
  { apply foldl_inv; [intros; by apply record_us_wf|]. split; simpl; [done| |done].
    repeat constructor. }
  split; [done|]. split; [done|]. intros us Hus. unfold bucket_index.
  destruct (bucket_position us BUCKETS_US 0) as [j|] eqn:E.
  - apply bucket_position_spec in E as (_ & (b & Hb & ?) & Hall). rw Nat.sub_0_r in Hb.
    exists b. split; [done|]. split; [done|]. intros k b' Hk Hb'.
    apply (Hall k); [lia|by rw Nat.sub_0_r].
  - exfalso. apply bucket_position_None in E. rw Forall_forall in E.
    specialize (E (u64_size - 1)%N). assert (u64_size - 1 ≤ us)%N; [|lia]. apply E.
    unfold BUCKETS_US. do 8 right. left.
Qed.

(** Replacing an entry of a duplicate-free list. *)
Lemma elem_of_insert_swap {A} (l : list A) i x y r :
  NoDup l → l !! i = Some x → r ∈ <[i := y]> l ↔ (r ∈ l ∧ r ≠ x) ∨ r = y.
Proof.
  intros Hnd Hx. pose proof (lookup_lt_Some _ _ _ Hx) as Hlt.
  rw list_elem_of_lookup. setoid_rewrite list_lookup_insert_Some. split.
  - intros (j & [(-> & -> & _)|(Hne & Hj)]); [by right|left].
    split; [by eapply list_elem_of_lookup_2|]. intros ->.
    apply Hne. by eapply NoDup_lookup.
  - intros [[(j & Hj)%list_elem_of_lookup Hne]| ->].
    + exists j. right. split; [|done]. intros ->. congruence.
    + exists i. by left.
Qed.

Section invariant.
Context `{Bincode} `{!BincodeLaws} `{!CollisionFree} `{Store} `{NetOracle} `{Clock}.
Implicit Types (cx : Context) (v : UCRVote) (b : Block).

Abbreviation delivered cx h := (is_Some (all_delivered_blocks_by_hash (storage cx) !! h)).
Abbreviation hashed b := (well_hashed (blk b)).

(** The leaders: the last [f] of them, newest last, and everybody else. *)
Record leaders_ok cx : Prop := {
  lo_perm : last_f_leaders cx ++ eligible_leaders cx ≡ₚ
            N.of_nat <$> seq 0 (N.to_nat (num_nodes cx));
  lo_len : length (last_f_leaders cx) = N.to_nat (num_faults cx);
  lo_bounds : (1 ≤ num_faults cx < num_nodes cx)%N;
  lo_last : last (last_f_leaders cx) = Some (round_leader cx);
  lo_view : (view_leader cx < num_nodes cx)%N;
}.

(** The indexes of blocks and votes. *)
Record index_ok cx : Prop := {
  io_storage : storage_wf (storage cx);
  io_closed : committed_closed (storage cx);
  io_parents : parents_delivered (storage cx);
  io_hashed : ∀ h b, all_delivered_blocks_by_hash (storage cx) !! h = Some b → hashed b;
  io_undelivered : ∀ h b, undelivered_blocks cx !! h = Some b → get_hash b = h ∧ hashed b;
  io_waiting : ∀ p h, block_parent_waiting cx !! p = Some h →
    ∃ b, undelivered_blocks cx !! h = Some b ∧ prev (header (blk b)) = p;
  io_ready : ∀ r v, vote_ready cx !! r = Some v → v_round v = r ∧ delivered cx (v_hash v);
  io_vote_waiting : ∀ h v, vote_waiting cx !! h = Some v → v_hash v = h;
  io_chain : ∀ r v, vote_chain cx !! r = Some v → v_round v = r ∧ delivered cx (v_hash v);
  io_last : delivered cx (get_hash (last_seen_block cx));
}.

(** What blocks wait for is not there yet, [x] perhaps excepted. *)
Definition awaited (x : option Hash) cx : Prop :=
  ∀ p, is_Some (block_parent_waiting cx !! p) → Some p ≠ x → ¬ delivered cx p.

(** One vote a round, committed once it is [f] rounds old. *)
Record rounds_ok cx : Prop := {
  ro_round : (1 ≤ round cx)%N;
  ro_chain : ∀ r, is_Some (vote_chain cx !! r) ↔ (1 ≤ r < round cx)%N;
  ro_lag : ∀ r w, vote_chain cx !! r = Some w → (r + num_faults cx < round cx)%N →
    v_hash w ∈ committed_blocks_by_hash (storage cx);
}.

Record buffers_ok cx : Prop := {
  bo_blocks : Forall (λ x, hashed x.1) (block_processing_waiting cx);
  bo_responses : Forall (λ x, hashed x.1.2) (response_waiting cx);
  bo_other : Forall (λ m, match m with NewBlock _ _ | Response _ _ _ _ | Invalid => False
                                     | _ => True end) (other_buf cx);
}.

(** What keeps a turn from panicking: nobody blames, and the keys work. *)
Record calm cx : Prop := {
  calm_other : Forall (λ m, match m with Blame _ => False | _ => True end) (other_buf cx);
  calm_sign : ∀ m, is_Some (sk_sign (my_secret_key cx) m);
  calm_keys : ∀ r, (r < num_nodes cx)%N → r ≠ myid cx → is_Some (pub_key_map cx !! r);
}.

Record inv (pn : Prop) cx : Prop := {
  inv_leaders : leaders_ok cx;
  inv_index : index_ok cx;
  inv_awaited : awaited None cx;
  inv_rounds : rounds_ok cx;
  inv_buffers : buffers_ok cx;
  inv_calm : pn ∨ calm cx;
}.

(** What no handler undoes. *)
Record ext cx cx' : Prop := {
  ext_static : num_nodes cx' = num_nodes cx ∧ num_faults cx' = num_faults cx ∧
               myid cx' = myid cx;
  ext_delivered : ∀ h, delivered cx h → delivered cx' h;
  ext_committed : committed_blocks_by_hash (storage cx) ⊆ committed_blocks_by_hash (storage cx');
  ext_round : (round cx ≤ round cx')%N;
  ext_chain : ∀ r v, vote_chain cx !! r = Some v → vote_chain cx' !! r = Some v;
}.
#[export] Instance ext_preorder : PreOrder ext.
Proof.
  split.
  - intros cx. by split.
  - intros c1 c2 c3 [(?&?&?) ????] [(?&?&?) ????]. split; [|eauto..| |eauto].
    + split; [congruence|]. split; congruence.
    + set_solver.
    + lia.
Qed.

Definition queues cx :=
  (block_processing_waiting cx, response_waiting cx, other_buf cx, pending_batches cx).

(** Everything the invariant talks about. *)
Definition core cx :=
  (num_nodes cx, num_faults cx, myid cx, pub_key_map cx, my_secret_key cx, storage cx,
   (block_processing_waiting cx, response_waiting cx, other_buf cx, pending_batches cx),
   (round cx, round_leader cx, last_f_leaders cx, eligible_leaders cx, view_leader cx),
   (vote_chain cx, vote_ready cx, vote_waiting cx, block_parent_waiting cx,
    undelivered_blocks cx, last_seen_block cx)).

Ltac by_core :=
  intros Hc; match type of Hc with core ?a = core ?b => destruct a, b end;
  unfold core in Hc; simpl in Hc; simplify_eq.

Lemma core_leaders cx cx' : core cx' = core cx → leaders_ok cx → leaders_ok cx'.
Proof. by_core. intros []. by split. Qed.
Lemma core_index cx cx' : core cx' = core cx → index_ok cx → index_ok cx'.
Proof. by_core. intros []. by split. Qed.
Lemma core_awaited cx cx' x : core cx' = core cx → awaited x cx → awaited x cx'.
Proof. by_core. done. Qed.
Lemma core_rounds cx cx' : core cx' = core cx → rounds_ok cx → rounds_ok cx'.
Proof. by_core. intros []. by split. Qed.
Lemma core_buffers cx cx' : core cx' = core cx → buffers_ok cx → buffers_ok cx'.
Proof. by_core. intros []. by split. Qed.
Lemma art_core_calm cx cx' : core cx' = core cx → calm cx → calm cx'.
Proof. by_core. intros []. by split. Qed.

Lemma art_core_inv pn cx cx' : core cx' = core cx → inv pn cx → inv pn cx'.
Proof.
  intros Hc [? ? ? ? ? Hp]. split; [by eapply core_leaders|by eapply core_index|
    by eapply core_awaited|by eapply core_rounds|by eapply core_buffers|].
  destruct Hp; [by left|right; by eapply art_core_calm].
Qed.
Lemma art_core_ext cx cx' : core cx' = core cx → ext cx cx'.
Proof. by_core. by split. Qed.
Lemma art_core_queues cx cx' : core cx' = core cx → queues cx' = queues cx.
Proof. by_core. done. Qed.

(** A handler that keeps the invariant and leaves the queues alone. *)
Record progressed (pn : Prop) cx cx' : Prop := {
  pg_inv : inv pn cx';
  pg_ext : ext cx cx';
  pg_queues : queues cx' = queues cx;
}.
Lemma art_progressed_refl pn cx : inv pn cx → progressed pn cx cx.
Proof. by split. Qed.
Lemma art_progressed_trans pn cx cx1 cx' :
  progressed pn cx cx1 → progressed pn cx1 cx' → progressed pn cx cx'.
Proof. intros [] []. split; [done|by etrans|congruence]. Qed.
Lemma art_progressed_core pn cx cx' : inv pn cx → core cx' = core cx → progressed pn cx cx'.
Proof. intros. split; [by eapply art_core_inv|by apply art_core_ext|by apply art_core_queues]. Qed.

(** ** Leader rotation *)
Lemma next_leader_spec cx :
  leaders_ok cx → ∃ l idx, compute_next_round_leader cx = Some (l, idx) ∧
    eligible_leaders cx !! idx = Some l.
Proof.
  intros [Hp Hl Hb _ _]. unfold compute_next_round_leader.
  assert (length (eligible_leaders cx) ≠ 0) as Hne.
  { apply Permutation_length in Hp. rw length_app Hl length_fmap length_seq in Hp. lia. }
  case_eq (N.of_nat (length (eligible_leaders cx)) =? 0)%N; [intros ?%N.eqb_eq; lia|intros _].
  set (idx := N.to_nat _). assert (idx < length (eligible_leaders cx)) as Hlt.
  { unfold idx. set (x := from_be_bytes _). set (n := N.of_nat _).
    pose proof (N.mod_lt x n ltac:(lia)). lia. }
  apply lookup_lt_is_Some in Hlt as [l El]. rw El. eauto.
Qed.

(** The state after a round change; only the leaders and the round move. *)
Definition rotate cx (l : Replica) (idx : nat) (again : Replica) : Context :=
  cx <| round_leader := l |> <| round ::= N.succ |>
     <| last_f_leaders := tail (last_f_leaders cx) ++ [l] |>
     <| eligible_leaders ::= insert idx again |>.

Lemma leaders_nodup cx : leaders_ok cx → NoDup (last_f_leaders cx ++ eligible_leaders cx).
Proof.
  intros Ho. rw (lo_perm _ Ho). apply NoDup_fmap; [apply _|apply NoDup_seq].
Qed.

Lemma eligible_fresh cx l idx :
  leaders_ok cx → eligible_leaders cx !! idx = Some l → l ∉ last_f_leaders cx.
Proof.
  intros Ho El Hin. pose proof (leaders_nodup _ Ho) as Hnd.
  apply NoDup_app in Hnd as (_ & Hd & _). apply (Hd l Hin). by apply list_elem_of_lookup_2 in El.
Qed.

Lemma linked_insert_fresh (k : Replica) l : k ∉ l → linked_insert k l = l ++ [k].
Proof.
  intros Hk. unfold linked_insert. f_equal. induction l as [|x l IH]; [done|].
  apply not_elem_of_cons in Hk as [Hne Hk]. rw filter_cons decide_True; [by rw IH|congruence].
Qed.

Lemma rotate_leaders cx l idx again rest :
  leaders_ok cx → eligible_leaders cx !! idx = Some l →
  last_f_leaders cx = again :: rest → leaders_ok (rotate cx l idx again).
Proof.
  intros [] El Ef. split; simpl; try done.
  - rw Ef /= -lo_perm0 Ef. set (e := eligible_leaders cx) in *.
    assert (e = take idx e ++ l :: drop (S idx) e) as He by (symmetry; by apply take_drop_middle).
    assert (<[idx := again]> e = take idx e ++ again :: drop (S idx) e) as ->
      by (apply insert_take_drop; by eapply lookup_lt_Some).
    generalize dependent (take idx e). intros t. generalize (drop (S idx) e). intros d He. rw He.
    solve_Permutation.
  - rw length_app /= -lo_len0 Ef /=. lia.
  - rw last_snoc //.
Qed.

Lemma update_round_run pn cx :
  leaders_ok cx →
  wpp pn update_round (λ _ cx', ∃ l idx again rest,
    eligible_leaders cx !! idx = Some l ∧ last_f_leaders cx = again :: rest ∧
    core cx' = core (rotate cx l idx again)) cx.
Proof.
  intros Ho. destruct (next_leader_spec _ Ho) as (l & idx & E & El).
  unfold update_round. apply wpp_bind, wpp_modify. apply wpp_bind, wpp_get.
  change (compute_next_round_leader (cx <| metrics ::= record_round_advance |>))
    with (compute_next_round_leader cx). rw E. wpp_go.
  destruct (last_f_leaders cx) as [|again rest] eqn:Ef.
  { pose proof (lo_len _ Ho) as Hl. pose proof (lo_bounds _ Ho). rw Ef /= in Hl. lia. }
  simpl. rw Ef. wpp_go. exists l, idx, again, rest. split; [done|]. split; [done|].
  unfold core, rotate. simpl. rw Ef. simpl. rw linked_insert_fresh; [done|].
  intros Hin. eapply eligible_fresh; [exact Ho|exact El|]. rw Ef. by right.
Qed.

(** ** Committing *)
Lemma art_read_batch_core pn cx h : wpp pn (read_batch h) (λ _ cx', core cx' = core cx) cx.
Proof. unfold wpp, read_batch. by destruct (batches_read h (batches cx)). Qed.

Lemma art_announce_core pn cx b : wpp pn (announce_commit b) (λ _ cx', core cx' = core cx) cx.
Proof.
  unfold announce_commit. wpp_go. eapply wpp_mono; [apply art_read_batch_core|].
  intros [batch|] cx' Hc; wpp_go; done.
Qed.

Lemma art_announce_all_core pn cx l :
  wpp pn (for_each l announce_commit) (λ _ cx', core cx' = core cx) cx.
Proof.
  apply (wpp_for_each (λ _ cx', core cx' = core cx)); [|done].
  intros b dn rest cx' _ Hc. eapply wpp_mono; [apply art_announce_core|].
  intros [] cx'' Hc'. by rw Hc'.
Qed.

Lemma art_do_commit_spec pn cx v :
  vote_chain cx !! (round cx - num_faults cx)%N = Some v →
  storage_wf (storage cx) → complete (storage cx) (v_hash v) →
  wpp pn do_commit (λ _ cx', ∃ path s', core cx' = core (cx <| storage := s' |>) ∧
    walked (storage cx) (v_hash v) path s' ∧ storage_wf s') cx.
Proof.
  intros Hv Hwf Hc. unfold do_commit. wpp_go. rw Hv. wpp_go.
  destruct (commit_walk_total _ _ Hwf Hc) as (path & s' & E & Hw & Hwf').
  unfold commit_blocks, wpp at 1. rw E. wpp_go.
  eapply wpp_mono; [apply art_announce_all_core|]. intros [] cx' Ec. eauto.
Qed.

(** The state after a vote has been accepted, before the round changes. *)
Definition voted cx v (s' : Storage Block) : Context :=
  cx <| vote_chain ::= insert (v_round v) v |> <| storage := s' |>.

Lemma voted_index cx v s' :
  index_ok cx → delivered cx (v_hash v) → committed_more (storage cx) s' → index_ok (voted cx v s').
Proof.
  intros [] Hd (E & _ & Hwf & Hcl). split; simpl; rw ?E; try done.
  - by apply Hcl.
  - unfold parents_delivered. by rw E.
  - intros r w. rw lookup_insert. case_decide; [naive_solver|apply io_chain0].
Qed.

Lemma voted_rotate_inv pn cx v s' l idx again rest :
  inv pn cx → v_round v = round cx → delivered cx (v_hash v) → committed_more (storage cx) s' →
  ((num_faults cx < round cx)%N → ∃ w,
    <[v_round v := v]> (vote_chain cx) !! (round cx - num_faults cx)%N = Some w ∧
    v_hash w ∈ committed_blocks_by_hash s') →
  eligible_leaders cx !! idx = Some l → last_f_leaders cx = again :: rest →
  inv pn (rotate (voted cx v s') l idx again).
Proof.
  intros [] Hr Hd Hs Hlag El Ef. pose proof (voted_index _ _ _ inv_index0 Hd Hs) as Hix.
  destruct Hs as (E & Hmore & _). pose proof (lo_bounds _ inv_leaders0) as Hf. split.
  - apply (rotate_leaders (voted cx v s') l idx again rest); [|done..].
    destruct inv_leaders0. by split.
  - destruct Hix. by split.
  - intros p Hp Hx. simpl in *. rw E. by apply inv_awaited0.
  - destruct inv_rounds0. split; simpl; [lia| |].
    + intros r. rw lookup_insert Hr. case_decide as Hd'; [subst r|rw ro_chain0; lia]. split; [lia|eauto].
    + intros r w Hw Hlt. destruct (decide (r + num_faults cx < round cx)%N) as [Hold|Hnew].
      * apply Hmore, (ro_lag0 r w); [|done]. revert Hw. rw lookup_insert_ne //. lia.
      * assert (1 ≤ r)%N. { revert Hw. rw lookup_insert Hr. case_decide; [lia|]. intros Hw.
          assert (is_Some (vote_chain cx !! r)) as Hs%ro_chain0 by eauto. lia. }
        destruct Hlag as (w' & Hw' & Hc); [lia|].
        assert (round cx - num_faults cx = r)%N as Er by lia. rw Er Hw in Hw'. by injection Hw' as <-.
  - destruct inv_buffers0. by split.
  - destruct inv_calm0 as [|[]]; [by left|right]. by split.
Qed.

Lemma voted_rotate_ext pn cx v s' l idx again :
  inv pn cx → v_round v = round cx → committed_more (storage cx) s' →
  ext cx (rotate (voted cx v s') l idx again).
Proof.
  intros Hi Hr (E & Hc & _). split; simpl; [done| |done|lia|].
  - by rw E.
  - intros r w Hw. rw lookup_insert_ne //. intros <-. rw Hr in Hw.
    assert (is_Some (vote_chain cx !! round cx)) as Hs by eauto.
    apply (ro_chain _ (inv_rounds _ _ Hi)) in Hs. lia.
Qed.

Lemma round_leader_lt cx : leaders_ok cx → (round_leader cx < num_nodes cx)%N.
Proof.
  intros Ho. pose proof (lo_last _ Ho) as Hl.
  assert (round_leader cx ∈ last_f_leaders cx ++ eligible_leaders cx) as Hin.
  { apply elem_of_app. left. by apply last_Some_elem_of. }
  rw (lo_perm _ Ho) in Hin. apply list_elem_of_fmap in Hin as (i & -> & Hi%elem_of_seq). lia.
Qed.

Lemma check_key pn cx (r : Replica) (A : Type) (m : PublicKey → M Context A) why
    (Φ : A → Context → Prop) :
  inv pn cx → (r < num_nodes cx)%N → r ≠ myid cx →
  (∀ pk, pub_key_map cx !! r = Some pk → wpp pn (m pk) Φ cx) →
  wpp pn (let! pk := unwrap why (pub_key_map cx !! r) in m pk) Φ cx.
Proof.
  intros Hi Hr Hne Hm. apply wpp_bind, wpp_unwrap; [intros pk Hpk; by apply Hm|]. intros Hk.
  destruct (inv_calm _ _ Hi) as [|Hcalm]; [done|]. exfalso.
  destruct (calm_keys _ Hcalm r Hr Hne). congruence.
Qed.

(** Of this view, and signed by the round leader if that is another. *)
Definition authentic_vote cx v : Prop :=
  v_view v = view cx ∧
  (myid cx ≠ round_leader cx →
   ∃ pk, pub_key_map cx !! round_leader cx = Some pk ∧ ucr_check_sig v pk = true).

Lemma signature_checked pn cx v :
  inv pn cx → view cx = v_view v →
  wpp pn (if (myid cx =? round_leader cx)%N then ret false
          else let! pk := unwrap "no entry found for key" (pub_key_map cx !! round_leader cx) in
               ret (negb (ucr_check_sig v pk)))
    (λ bad cx', cx' = cx ∧ (bad = false ↔ authentic_vote cx v)) cx.
Proof.
  intros Hi Hview. apply wpp_if.
  { intros Hme%N.eqb_eq. apply wpp_ret. split; [done|]. split; [|done]. by split. }
  intros Hne%N.eqb_neq. apply check_key; [done|by apply round_leader_lt; apply Hi|congruence|].
  intros pk Hpk. apply wpp_ret. split; [done|]. rw negb_false_iff. split.
  - intros Hv. split; [done|]. intros _. by exists pk.
  - intros [_ Hsig]. destruct (Hsig Hne) as (pk' & Hpk' & Hv). congruence.
Qed.

Lemma vote_run pn cx v :
  inv pn cx → v_round v = round cx → delivered cx (v_hash v) →
  wpp pn (on_receive_round_vote v) (λ _ cx', cx' = cx ∧ ¬ authentic_vote cx v ∨
    authentic_vote cx v ∧
    ∃ s' l idx again rest, eligible_leaders cx !! idx = Some l ∧
      last_f_leaders cx = again :: rest ∧
      core cx' = core (rotate (voted cx v s') l idx again) ∧ committed_more (storage cx) s' ∧
      ((num_faults cx < round cx)%N → ∃ w path,
        <[v_round v := v]> (vote_chain cx) !! (round cx - num_faults cx)%N = Some w ∧
        walked (storage cx) (v_hash w) path s')) cx.
Proof.
  intros Hi Hr Hd. unfold on_receive_round_vote. apply wpp_bind, wpp_get.
  apply wpp_if; [intros Hview%negb_true_iff%N.eqb_neq; apply wpp_ret; left
                |intros Hview%negb_false_iff%N.eqb_eq].
  { split; [done|]. intros [E _]. congruence. }
  apply wpp_bind, (wpp_mono _ (λ bad cx', cx' = cx ∧ (bad = false ↔ authentic_vote cx v))).
  { by apply signature_checked. }
  intros bad cx1 [-> Hbad].
  apply wpp_if; [intros ->; apply wpp_ret; left; split; [done|]; by intros ?%Hbad|].
  intros Ha%Hbad. clear Hbad. apply wpp_bind, wpp_modify, wpp_bind.
  set (cx1 := cx <| vote_chain ::= insert (v_round v) v |>).
  apply (wpp_mono _ (λ _ cx2, ∃ s', core cx2 = core (voted cx v s') ∧
    committed_more (storage cx) s' ∧ ((num_faults cx < round cx)%N → ∃ w path,
      <[v_round v := v]> (vote_chain cx) !! (round cx - num_faults cx)%N = Some w ∧
      walked (storage cx) (v_hash w) path s'))).
  { apply wpp_if; [intros Hlt%N.ltb_lt|intros Hge%N.ltb_ge].
    - assert (∃ w, vote_chain cx1 !! (round cx1 - num_faults cx1)%N = Some w ∧
        delivered cx (v_hash w)) as (w & Hw & Hdw).
      { simpl. rw lookup_insert Hr. case_decide; [by exists v|].
        destruct (proj2 (ro_chain _ (inv_rounds _ _ Hi) (round cx - num_faults cx)%N)) as [w Hw]; [lia|].
        exists w. split; [done|]. by apply (io_chain _ (inv_index _ _ Hi) _ _ Hw). }
      eapply wpp_mono; [apply (art_do_commit_spec pn cx1 w Hw)|].
      + apply (inv_index _ _ Hi).
      + apply parents_complete; [apply (inv_index _ _ Hi)|done].
      + intros [] cx2 (path & s' & Hc & Hwk & Hwf'). exists s'. split; [done|]. split.
        * eapply walked_more; [apply (inv_index _ _ Hi)|done|done].
        * intros _. by exists w, path.
    - apply wpp_ret. exists (storage cx). split; [done|]. split; [|lia].
      split; [done|]. by split; [|split; [apply (inv_index _ _ Hi)|]]. }
  intros [] cx2 (s' & Hc2 & Hs' & Hw). apply wpp_bind, wpp_get.
  assert (storage cx2 = s') as Es by (revert Hc2; unfold core; simpl; by intros [=]).
  destruct Hd as [bd Hbd]. unfold delivered_block_from_hash.
  assert (all_delivered_blocks_by_hash (storage cx2) !! v_hash v = Some bd) as ->
    by (rw Es (proj1 Hs') //). wpp_go.
  set (cx3 := cx2 <| last_voted_block := bd |>).
  assert (core cx3 = core (voted cx v s')) as Hc3 by done.
  assert (leaders_ok cx3) as Ho3.
  { eapply core_leaders; [exact Hc3|]. destruct (inv_leaders _ _ Hi). by split. }
  destruct (next_leader_spec _ Ho3) as (l & idx & E & _).
  unfold next_round_leader. wpp_go. rw E. wpp_go. unfold send. wpp_go.
  match goal with |- wpp _ update_round _ ?c => set (cx4 := c) end.
  assert (core cx4 = core cx3) as Hc4 by (unfold cx4; by destruct (_ =? _)%N).
  eapply wpp_mono; [apply update_round_run; eapply core_leaders; [exact Hc4|exact Ho3]|].
  intros [] cx5 (l' & idx' & again & rest & E1 & E2 & Hc5). right. split; [exact Ha|].
  exists s', l', idx', again, rest.
  rw Hc3 in Hc4. clear -Hc4 Hc5 E1 E2 Hs' Hw. revert Hc4. unfold core at 1 2. simpl. intros [=].
  split; [congruence|]. split; [congruence|]. split; [|done].
  rw Hc5. unfold core, rotate; simpl. congruence.
Qed.

(** Votes *)
Lemma vote_spec pn cx v :
  inv pn cx → v_round v = round cx → delivered cx (v_hash v) →
  wpp pn (on_receive_round_vote v) (λ _ cx',
    progressed pn cx cx' ∧ vote_ready cx' = vote_ready cx) cx.
Proof.
  intros Hi Hr Hd. eapply wpp_mono; [by apply vote_run|].
  intros [] cx' [[-> _]|(_ & s' & l & idx & again & rest & El & Ef & Hc & Hs & Hw)].
  { split; [by apply art_progressed_refl|done]. }
  split; [split|].
  - eapply art_core_inv; [exact Hc|]. eapply voted_rotate_inv; [done..| |done|done].
    intros Hf. destruct (Hw Hf) as (w & path & Hlk & Hwk). exists w. split; [done|]. by eapply walked_start.
  - etrans; [by eapply (voted_rotate_ext pn cx v s' l idx again)|by apply art_core_ext].
  - by rw (art_core_queues _ _ Hc).
  - revert Hc. unfold core; simpl. by intros [=].
Qed.

Lemma art_send_core cx to msg : core (if (to =? myid cx)%N then cx else
  cx <| consensus_net ::= net_send (round cx) to msg |>) = core cx.
Proof. by destruct (_ =? _)%N. Qed.

(** A change of the vote queues only. *)
Lemma vote_queue_progressed pn cx ready waiting :
  inv pn cx →
  (∀ r v, ready !! r = Some v → v_round v = r ∧ delivered cx (v_hash v)) →
  (∀ h v, waiting !! h = Some v → v_hash v = h) →
  progressed pn cx (cx <| vote_ready := ready |> <| vote_waiting := waiting |>).
Proof.
  intros [? [] ? [] [] Hp] Hr Hw. split; [|by split|done]. split; try done.
  - destruct inv_leaders0. by split.
  - destruct Hp as [|[]]; [by left|right]. by split.
Qed.

Lemma request_and_wait_spec pn cx from v :
  inv pn cx → wpp pn (request_and_wait from v) (λ _ cx', progressed pn cx cx') cx.
Proof.
  intros Hi. unfold request_and_wait, send. wpp_go.
  match goal with |- progressed _ _ (?c <| vote_waiting ::= _ |>) => set (cx1 := c) end.
  assert (core cx1 = core cx) as Hc by apply art_send_core.
  pose proof (art_progressed_core _ _ _ Hi Hc) as Hp1. eapply art_progressed_trans; [exact Hp1|].
  pose proof (inv_index _ _ (pg_inv _ _ _ Hp1)) as Hix.
  apply (vote_queue_progressed pn cx1 (vote_ready cx1) (<[v_hash v := v]> (vote_waiting cx1)));
    [apply Hp1|apply Hix|].
  intros h w. rw lookup_insert. case_decide; [naive_solver|apply Hix].
Qed.

Lemma try_receive_vote_spec pn cx from v :
  inv pn cx → wpp pn (try_receive_round_vote from v) (λ _ cx', progressed pn cx cx') cx.
Proof.
  intros Hi. unfold try_receive_round_vote. apply wpp_bind, wpp_get.
  apply wpp_if; [intros _; apply wpp_ret; by apply art_progressed_refl|intros Hge%N.ltb_ge].
  apply wpp_if; [intros _|intros Hle%N.ltb_ge].
  - apply wpp_if; [intros Hd%is_delivered_spec; apply wpp_modify|by intros _; apply request_and_wait_spec].
    assert (∀ r w, <[v_round v := v]> (vote_ready cx) !! r = Some w →
      v_round w = r ∧ delivered cx (v_hash w)) as Hready.
    { intros r w. rw lookup_insert. case_decide; [naive_solver|apply Hi]. }
    exact (vote_queue_progressed pn cx _ (vote_waiting cx) Hi Hready
      (io_vote_waiting _ (inv_index _ _ Hi))).
  - apply wpp_if; [by intros _; apply request_and_wait_spec|].
    intros Hd%negb_false_iff%is_delivered_spec.
    eapply wpp_mono; [apply (vote_spec pn cx v Hi)|]; [lia|done|]. by intros [] ? [? _].
Qed.

(** ** Delivering blocks *)

(** What delivering a block does not touch. *)
Definition rest cx :=
  (num_nodes cx, num_faults cx, myid cx, pub_key_map cx, my_secret_key cx,
   (block_processing_waiting cx, response_waiting cx, other_buf cx, pending_batches cx),
   (round cx, round_leader cx, last_f_leaders cx, eligible_leaders cx, view_leader cx),
   vote_chain cx, committed_blocks_by_hash (storage cx)).

Record delivering cx cx' : Prop := {
  dv_index : index_ok cx';
  dv_rest : rest cx' = rest cx;
  dv_mono : ∀ h, delivered cx h → delivered cx' h;
}.
Lemma delivering_trans cx cx1 cx' :
  delivering cx cx1 → delivering cx1 cx' → delivering cx cx'.
Proof. intros [] []. split; [done|congruence|auto]. Qed.

Lemma delivering_progressed pn cx cx' :
  inv pn cx → delivering cx cx' → awaited None cx' → progressed pn cx cx'.
Proof.
  intros [? ? ? ? ? Hp] [? Hr Hm] ?.
  assert (leaders_ok cx' ∧ rounds_ok cx' ∧ buffers_ok cx' ∧ (pn ∨ calm cx')) as (?&?&?&?).
  { clear -inv_leaders0 inv_rounds0 inv_buffers0 Hp Hr. destruct cx, cx'. unfold rest in Hr.
    simpl in Hr. simplify_eq. destruct inv_leaders0, inv_rounds0, inv_buffers0. simpl in *.
    split; [by split|]. split;
      [split; simpl; [done|done|match goal with E : committed_blocks_by_hash _ = _ |- _ => by rw E end]|]. split; [by split|].
    destruct Hp as [|[]]; [by left|right; by split]. }
  split; [by split| |].
  - unfold rest in Hr. injection Hr as ? ? ? _ _ _ _ _ _ ? _ _ _ _ Hv Hc.
    split; [done|done|by rw Hc|lia|by rw Hv].
  - unfold rest, queues in *. congruence.
Qed.

Lemma same_hash_parent cx b b' :
  index_ok cx → hashed b → all_delivered_blocks_by_hash (storage cx) !! get_hash b = Some b' →
  parent_hash b' = parent_hash b.
Proof.
  intros Hix Hb Hb'. assert (blk b' = blk b) as E.
  { apply well_hashed_inj; [by eapply io_hashed|done|].
    by apply (wf_hash _ (io_storage _ Hix) _ _ Hb'). }
  unfold parent_hash, Block_HasParent. by rw E.
Qed.

Lemma index_add cx b :
  index_ok cx → hashed b → delivered cx (prev (header (blk b))) →
  delivering cx (cx <| storage ::= add_delivered_block b |>).
Proof.
  intros Hix Hb Hpar. pose proof (λ b', same_hash_parent cx b b' Hix Hb) as Hsame.
  pose proof (add_delivered_mono b (storage cx)) as Hmono.
  split; [|done|done]. destruct Hix. split; try done; cbn -[add_delivered_block].
  - by apply add_delivered_block_wf.
  - apply add_delivered_closed; [done| |done]. intros b' Hb'. by apply Hsame.
  - by apply add_delivered_parents.
  - intros h b'. simpl. rw lookup_insert. case_decide; [naive_solver|]. apply io_hashed0.
  - intros r v Hv. destruct (io_ready0 _ _ Hv). split; [done|by apply Hmono].
  - intros r v Hv. destruct (io_chain0 _ _ Hv). split; [done|by apply Hmono].
  - by apply Hmono.
Qed.

Lemma index_block_spec pn cx b :
  index_ok cx → hashed b → delivered cx (prev (header (blk b))) →
  wpp pn (index_block b) (λ _ cx', delivering cx cx' ∧
    storage cx' = add_delivered_block b (storage cx) ∧
    block_parent_waiting cx' = block_parent_waiting cx ∧
    undelivered_blocks cx' = undelivered_blocks cx) cx.
Proof.
  intros Hix Hb Hpar. pose proof (index_add _ _ Hix Hb Hpar) as Hd. unfold index_block. wpp_go.
  - split; [|done]. eapply delivering_trans; [exact Hd|]. split; [|done..].
    destruct (dv_index _ _ Hd). split; try done. exact (add_delivered_self b (storage cx)).
  - done.
Qed.

Lemma index_forget cx (h : Hash) :
  index_ok cx → (∀ p, block_parent_waiting cx !! p ≠ Some h) →
  delivering cx (cx <| undelivered_blocks ::= delete h |>).
Proof.
  intros [] Hn. split; [|done..]. split; try done; simpl.
  - intros h' b. rw lookup_delete. case_decide; [done|apply io_undelivered0].
  - intros p h' Hp. destruct (io_waiting0 _ _ Hp) as (b & Hb & Hpb). exists b.
    rw lookup_delete_ne; [done|]. intros <-. by eapply Hn.
Qed.

Lemma index_unwait cx (h : Hash) :
  index_ok cx → delivering cx (cx <| block_parent_waiting ::= delete h |>).
Proof.
  intros []. split; [|done..]. split; try done; simpl.
  intros p h'. rw lookup_delete. case_decide; [done|apply io_waiting0].
Qed.

Lemma ready_vote_spec pn cx (h : Hash) :
  index_ok cx → delivered cx h →
  wpp pn (ready_waiting_vote h) (λ _ cx', delivering cx cx' ∧ storage cx' = storage cx ∧
    block_parent_waiting cx' = block_parent_waiting cx) cx.
Proof.
  intros Hix Hh. unfold ready_waiting_vote. apply wpp_modify.
  destruct (vote_waiting cx !! h) as [v|] eqn:E; [|by split; [split|]].
  split; [|done]. destruct Hix. split; [|done..]. split; try done; simpl.
  - intros r w. rw lookup_insert. case_decide; [|apply io_ready0]. intros [= <-].
    split; [done|]. by rw (io_vote_waiting0 _ _ E).
  - intros h' w. rw lookup_delete. case_decide; [done|apply io_vote_waiting0].
Qed.

(** Only [get_hash b] becomes delivered. *)
Lemma awaited_add cx cx' b x :
  awaited x cx → storage cx' = add_delivered_block b (storage cx) →
  (∀ p, is_Some (block_parent_waiting cx' !! p) → is_Some (block_parent_waiting cx !! p) ∧ Some p ≠ x) →
  awaited (Some (get_hash b)) cx'.
Proof.
  intros Ha Es Hsub p Hp Hne Hd. destruct (Hsub p Hp) as [Hp' Hx]. apply (Ha p Hp' Hx).
  rw Es in Hd. simpl in Hd. rw lookup_insert in Hd. case_decide as Hh; [|done].
  exfalso. apply Hne. f_equal. symmetry. exact Hh.
Qed.

Lemma deliver_children_spec pn fuel cx h adv :
  index_ok cx → awaited (Some h) cx → delivered cx h →
  size (block_parent_waiting cx) < fuel →
  wpp pn (deliver_children fuel h adv) (λ _ cx', delivering cx cx' ∧ awaited None cx') cx.
Proof.
  revert cx h adv. induction fuel as [|fuel IH]; intros cx h adv Hix Ha Hh Hlt; [lia|].
  cbn [deliver_children]. apply wpp_bind, wpp_get.
  destruct (block_parent_waiting cx !! h) as [child|] eqn:Ew.
  2:{ apply wpp_ret. split; [by split|]. intros p Hp _. apply Ha; [done|]. intros [= ->].
      by destruct Hp; simplify_eq. }
  apply wpp_bind, wpp_modify, wpp_bind.
  set (cx1 := cx <| block_parent_waiting ::= delete h |>).
  pose proof (index_unwait _ h Hix) as Hd1.
  destruct (io_waiting _ Hix _ _ Ew) as (b & Hb & Hpb). rw Hb.
  destruct (io_undelivered _ Hix _ _ Hb) as [Hbh Hbw].
  assert (delivering cx1 (cx1 <| undelivered_blocks ::= delete child |>)) as Hd2.
  { apply index_forget; [apply Hd1|]. intros p Hp. simpl in Hp. rw lookup_delete in Hp.
    case_decide as Hne; [done|]. destruct (io_waiting _ Hix _ _ Hp) as (b' & Hb' & Hpb').
    simplify_eq. }
  wpp_go. eapply wpp_mono; [apply (index_block_spec pn _ b (dv_index _ _ Hd2) Hbw)|].
  { by rw Hpb. }
  intros a cx3 (Hd3 & Es3 & Ew3 & _). wpp_go.
  assert (delivered cx3 child) as Hch.
  { rw Es3 -Hbh. exact (add_delivered_self b _). }
  assert (awaited (Some child) cx3) as Ha3.
  { rw -Hbh. apply (awaited_add cx _ b (Some h) Ha Es3). intros p Hp. rw Ew3 /= lookup_delete in Hp.
    case_decide; [by destruct Hp|]. split; [done|congruence]. }
  eapply wpp_mono; [apply (ready_vote_spec pn cx3 child (dv_index _ _ Hd3) Hch)|].
  intros [] cx4 (Hd4 & Es4 & Ew4).
  eapply wpp_mono; [apply (IH cx4 child (adv || a) (dv_index _ _ Hd4))|].
  - unfold awaited. by rw Ew4 Es4.
  - by rw Es4.
  - rw Ew4 Ew3 /= map_size_delete Ew.
    assert (size (block_parent_waiting cx) ≠ 0); [|lia].
    intros E%map_size_empty_inv. by rw E in Ew.
  - intros a' cx5 [Hd5 Ha5]. split; [|done].
    by do 4 (eapply delivering_trans; [eassumption|]).
Qed.

Lemma do_delivery_spec pn cx b :
  inv pn cx → hashed b → delivered cx (prev (header (blk b))) → ¬ delivered cx (get_hash b) →
  wpp pn (do_delivery b) (λ _ cx', progressed pn cx cx') cx.
Proof.
  intros Hi Hb Hpar Hnd. unfold do_delivery. wpp_go.
  eapply wpp_mono; [apply (index_block_spec pn cx b (inv_index _ _ Hi) Hb Hpar)|].
  intros adv cx1 (Hd1 & Es1 & Ew1 & Eu1). wpp_go.
  assert (delivering cx1 (cx1 <| undelivered_blocks ::= delete (get_hash b) |>)) as Hd2.
  { apply index_forget; [apply Hd1|]. intros p Hp. rw Ew1 in Hp.
    pose proof (inv_index _ _ Hi) as Hix. destruct (io_waiting _ Hix _ _ Hp) as (b' & Hb' & Hpb').
    destruct (io_undelivered _ Hix _ _ Hb') as [Hh' Hw'].
    assert (blk b' = blk b) as E by by apply well_hashed_inj. rw E in Hpb'. subst p.
    apply (inv_awaited _ _ Hi (prev (header (blk b)))); [eauto|done|done]. }
  eapply wpp_mono; [apply (ready_vote_spec pn _ (get_hash b) (dv_index _ _ Hd2))|].
  { simpl. rw Es1. exact (add_delivered_self b (storage cx)). }
  intros [] cx3 (Hd3 & Es3 & Ew3). wpp_go. simpl in Es3, Ew3.
  eapply wpp_mono; [apply (deliver_children_spec pn (S (size (block_parent_waiting cx3))) cx3
    (get_hash b) adv (dv_index _ _ Hd3))|].
  - apply (awaited_add cx _ b None (inv_awaited _ _ Hi)); [by rw Es3|].
    intros p Hp. by rw Ew3 Ew1 in Hp.
  - rw Es3 Es1. exact (add_delivered_self b (storage cx)).
  - lia.
  - intros advd cx4 [Hd4 Ha4].
    assert (progressed pn cx cx4) as Hp4.
    { apply delivering_progressed; [done| |done].
      by do 3 (eapply delivering_trans; [eassumption|]). }
    destruct advd; unfold announce_height_to_batcher; wpp_go; [|done].
    eapply art_progressed_trans; [exact Hp4|]. apply art_progressed_core; [apply Hp4|done].
Qed.

Lemma new_block_direct_spec pn cx b :
  inv pn cx → hashed b →
  wpp pn (on_receive_new_block_direct b) (λ _ cx', progressed pn cx cx') cx.
Proof.
  intros Hi Hb. unfold on_receive_new_block_direct. apply wpp_bind, wpp_get.
  apply wpp_if; [intros _; apply wpp_ret; by apply art_progressed_refl|intros Hnd].
  apply wpp_if; [intros _; apply wpp_ret; by apply art_progressed_refl|].
  intros Hpar%negb_false_iff%is_delivered_spec.
  apply wpp_if; [intros _; apply wpp_ret; by apply art_progressed_refl|intros _].
  apply wpp_bind, (wpp_mono _ (λ _ cx', cx' = cx)).
  { apply wpp_if; [by intros _; apply wpp_ret|]. intros Hne%N.eqb_neq.
    apply check_key; [done|apply Hi|done|]. intros pk _. by apply wpp_ret. }
  intros bad cx1 ->. apply wpp_if; [intros _; apply wpp_ret; by apply art_progressed_refl|intros _].
  apply do_delivery_spec; [done..|]. by rw -is_delivered_spec Hnd.
Qed.

Lemma update_delivery_spec pn cx b sender :
  inv pn cx → hashed b →
  wpp pn (update_delivery b sender) (λ _ cx', progressed pn cx cx') cx.
Proof.
  intros Hi Hb. unfold update_delivery. apply wpp_bind, wpp_get.
  apply wpp_if; [intros _; apply wpp_ret; by apply art_progressed_refl|intros Hnd]. cbv zeta.
  apply wpp_if; [intros _; apply wpp_ret; by apply art_progressed_refl|intros Hnw%bool_decide_eq_false].
  apply wpp_if.
  - intros Hpar%negb_true_iff. unfold do_request, send. wpp_go.
    set (cx1 := cx <| block_parent_waiting ::= insert (prev (header (blk b))) (get_hash b) |>
                   <| undelivered_blocks ::= insert (get_hash b) b |>).
    assert (progressed pn cx cx1) as Hp1.
    { apply delivering_progressed; [done| |].
      - pose proof (inv_index _ _ Hi) as Hix. split; [|done..].
        pose proof (λ h' b', io_undelivered _ Hix h' b') as Hu.
        destruct Hix. split; try done; simpl.
        + intros h b'. rw lookup_insert. case_decide; [naive_solver|apply Hu].
        + intros p h. rw !lookup_insert. case_decide as Hp.
          * intros [= <-]. exists b. by rw decide_True.
          * intros Hw. destruct (io_waiting0 _ _ Hw) as (b' & Hb' & Hpb').
            case_decide as Hh; [|by exists b']. subst h. exists b. split; [done|].
            destruct (Hu _ _ Hb') as [? ?]. assert (blk b' = blk b) as E by by apply well_hashed_inj.
            by rw -E.
      - intros p Hp _. simpl in Hp |- *. rw lookup_insert in Hp. case_decide as Hpp.
        + subst p. by rw -is_delivered_spec Hpar.
        + by apply (inv_awaited _ _ Hi). }
    eapply art_progressed_trans; [exact Hp1|]. apply art_progressed_core; [apply Hp1|apply art_send_core].
  - intros Hpar%negb_false_iff%is_delivered_spec.
    apply do_delivery_spec; [done..|]. by rw -is_delivered_spec Hnd.
Qed.

(** ** Queues *)

(** Replacing the queues of messages keeps the rest of the invariant. *)
Lemma queues_inv pn cx bw rw ob pb :
  inv pn cx → Forall (λ x, hashed x.1) bw → Forall (λ x, hashed x.1.2) rw →
  Forall (λ m, match m with NewBlock _ _ | Response _ _ _ _ | Invalid => False
                          | _ => True end) ob →
  (pn ∨ Forall (λ m, match m with Blame _ => False | _ => True end) ob) →
  inv pn (cx <| block_processing_waiting := bw |> <| response_waiting := rw |>
             <| other_buf := ob |> <| pending_batches := pb |>).
Proof.
  intros [[] [] ? [] [] Hp] ??? Hb. split; try done.
  destruct Hp as [|[]]; [by left|]. destruct Hb; [by left|right]. by split.
Qed.

Lemma calm_buf pn cx : inv pn cx →
  pn ∨ Forall (λ m, match m with Blame _ => False | _ => True end) (other_buf cx).
Proof. intros Hi. destruct (inv_calm _ _ Hi) as [|[]]; [by left|by right]. Qed.

Lemma inv_pop_block pn cx x l :
  inv pn cx → block_processing_waiting cx = x :: l →
  inv pn (cx <| block_processing_waiting := l |>) ∧ hashed x.1.
Proof.
  intros Hi E. pose proof (bo_blocks _ (inv_buffers _ _ Hi)) as Hb. rw E in Hb.
  apply Forall_cons in Hb as [Hx Hl]. split; [|done].
  exact (queues_inv pn cx l (response_waiting cx) (other_buf cx) (pending_batches cx) Hi Hl
    (bo_responses _ (inv_buffers _ _ Hi)) (bo_other _ (inv_buffers _ _ Hi)) (calm_buf _ _ Hi)).
Qed.

Lemma inv_pop_response pn cx x l :
  inv pn cx → response_waiting cx = x :: l →
  inv pn (cx <| response_waiting := l |>) ∧ hashed x.1.2.
Proof.
  intros Hi E. pose proof (bo_responses _ (inv_buffers _ _ Hi)) as Hb. rw E in Hb.
  apply Forall_cons in Hb as [Hx Hl]. split; [|done].
  exact (queues_inv pn cx (block_processing_waiting cx) l (other_buf cx) (pending_batches cx) Hi
    (bo_blocks _ (inv_buffers _ _ Hi)) Hl (bo_other _ (inv_buffers _ _ Hi)) (calm_buf _ _ Hi)).
Qed.

Lemma inv_pop_other pn cx m l :
  inv pn cx → other_buf cx = m :: l →
  inv pn (cx <| other_buf := l |>) ∧
  match m with NewBlock _ _ | Response _ _ _ _ | Invalid => False | Blame _ => pn | _ => True end.
Proof.
  intros Hi E. pose proof (bo_other _ (inv_buffers _ _ Hi)) as Hb. rw E in Hb.
  apply Forall_cons in Hb as [Hx Hl]. pose proof (calm_buf _ _ Hi) as Hc. rw E in Hc.
  rw Forall_cons in Hc. split; [|destruct m; naive_solver].
  refine (queues_inv pn cx (block_processing_waiting cx) (response_waiting cx) l
    (pending_batches cx) Hi (bo_blocks _ (inv_buffers _ _ Hi))
    (bo_responses _ (inv_buffers _ _ Hi)) Hl _). naive_solver.
Qed.

Lemma inv_set_pending pn cx l : inv pn cx → inv pn (cx <| pending_batches := l |>).
Proof.
  intros Hi.
  exact (queues_inv pn cx (block_processing_waiting cx) (response_waiting cx) (other_buf cx) l Hi
    (bo_blocks _ (inv_buffers _ _ Hi)) (bo_responses _ (inv_buffers _ _ Hi))
    (bo_other _ (inv_buffers _ _ Hi)) (calm_buf _ _ Hi)).
Qed.

Lemma ext_set_pending cx (f : list (Hash * CachedBatch Transaction) → list (Hash * CachedBatch Transaction)) :
  ext cx (cx <| pending_batches ::= f |>).
Proof. by split. Qed.

Lemma inv_pop_ready pn cx r : inv pn cx → inv pn (cx <| vote_ready ::= delete r |>).
Proof.
  intros Hi. pose proof (inv_index _ _ Hi) as Hix.
  refine (pg_inv _ _ _ (vote_queue_progressed pn cx (delete r (vote_ready cx)) (vote_waiting cx)
    Hi _ (io_vote_waiting _ Hix))).
  intros r' v. rw lookup_delete. case_decide; [done|apply Hix].
Qed.

(** The two queues of blocks drain alike. *)
Lemma drain_blocks_spec pn cx :
  inv pn cx →
  wpp pn (loop (S (length (block_processing_waiting cx))) drain_blocks)
    (λ _ cx', inv pn cx' ∧ ext cx cx' ∧
      queues cx' = ([], response_waiting cx, other_buf cx, pending_batches cx)) cx.
Proof.
  intros Hi. apply (wpp_loop (λ cx', inv pn cx' ∧ ext cx cx' ∧ queues cx' =
      (block_processing_waiting cx', response_waiting cx, other_buf cx, pending_batches cx))
    (λ cx', length (block_processing_waiting cx'))); [|by split_and!|lia].
  clear Hi. intros cx1 (Hi & He & Hq). unfold drain_blocks. apply wpp_bind, wpp_get.
  destruct (block_processing_waiting cx1) as [|[b batch] l] eqn:E; [apply wpp_ret; by rw Hq|].
  destruct (inv_pop_block _ _ _ _ Hi E) as [Hi1 Hb].
  apply wpp_bind, wpp_modify, wpp_bind. set (cx2 := cx1 <| block_processing_waiting := l |>).
  apply (wpp_mono _ (λ _ cx', progressed pn cx2 cx')).
  - apply wpp_if; [intros _|intros _; apply wpp_ret; by apply art_progressed_refl].
    unfold persist_batch. wpp_go.
    set (cx3 := cx2 <| batches ::= batches_persist (batch_hash (body (blk b))) batch |>).
    assert (progressed pn cx2 cx3) as Hp by (by apply art_progressed_core).
    eapply wpp_mono; [apply (new_block_direct_spec pn cx3 b (pg_inv _ _ _ Hp) Hb)|].
    intros [] cx4. by apply art_progressed_trans.
  - intros [] cx3 [Hi3 He3 Hq3]. apply wpp_ret. split; [split; [done|split]|].
    + etrans; [exact He|]. etrans; [|exact He3]. by split.
    + unfold queues in *. simpl in *. congruence.
    + unfold queues in Hq3. simpl in Hq3. injection Hq3 as -> _ _ _. simpl. lia.
Qed.

Lemma drain_responses_spec pn cx :
  inv pn cx →
  wpp pn (loop (S (length (response_waiting cx))) drain_responses)
    (λ _ cx', inv pn cx' ∧ ext cx cx' ∧
      queues cx' = (block_processing_waiting cx, [], other_buf cx, pending_batches cx)) cx.
Proof.
  intros Hi. apply (wpp_loop (λ cx', inv pn cx' ∧ ext cx cx' ∧ queues cx' =
      (block_processing_waiting cx, response_waiting cx', other_buf cx, pending_batches cx))
    (λ cx', length (response_waiting cx'))); [|by split_and!|lia].
  clear Hi. intros cx1 (Hi & He & Hq). unfold drain_responses. apply wpp_bind, wpp_get.
  destruct (response_waiting cx1) as [|[[sender b] batch] l] eqn:E; [apply wpp_ret; by rw Hq|].
  destruct (inv_pop_response _ _ _ _ Hi E) as [Hi1 Hb].
  apply wpp_bind, wpp_modify, wpp_bind. set (cx2 := cx1 <| response_waiting := l |>).
  apply (wpp_mono _ (λ _ cx', progressed pn cx2 cx')).
  - apply wpp_if; [intros _|intros _; apply wpp_ret; by apply art_progressed_refl].
    unfold persist_batch. wpp_go.
    set (cx3 := cx2 <| batches ::= batches_persist (batch_hash (body (blk b))) batch |>).
    assert (progressed pn cx2 cx3) as Hp by (by apply art_progressed_core).
    eapply wpp_mono; [apply (update_delivery_spec pn cx3 b sender (pg_inv _ _ _ Hp) Hb)|].
    intros [] cx4. by apply art_progressed_trans.
  - intros [] cx3 [Hi3 He3 Hq3]. apply wpp_ret. split; [split; [done|split]|].
    + etrans; [exact He|]. etrans; [|exact He3]. by split.
    + unfold queues in *. simpl in *. congruence.
    + unfold queues in Hq3. simpl in Hq3. injection Hq3 as _ -> _ _. simpl. lia.
Qed.

Lemma drain_ready_spec pn cx :
  inv pn cx →
  wpp pn (loop (S (size (vote_ready cx))) drain_ready) (λ _ cx', inv pn cx' ∧ ext cx cx' ∧
    queues cx' = queues cx ∧ vote_ready cx' !! round cx' = None) cx.
Proof.
  intros Hi. apply (wpp_loop (λ cx', inv pn cx' ∧ ext cx cx' ∧ queues cx' = queues cx)
    (λ cx', size (vote_ready cx'))); [|done|lia].
  clear Hi. intros cx1 (Hi & He & Hq). unfold drain_ready. apply wpp_bind, wpp_get.
  destruct (vote_ready cx1 !! round cx1) as [v|] eqn:E; [|apply wpp_ret; by split_and!].
  apply wpp_bind, wpp_modify, wpp_bind.
  destruct (io_ready _ (inv_index _ _ Hi) _ _ E) as [Hr Hd].
  eapply wpp_mono; [apply (vote_spec pn _ v (inv_pop_ready pn cx1 (round cx1) Hi))|]; [done|done|].
  intros [] cx2 [[Hi2 He2 Hq2] Er]. apply wpp_ret. split; [split; [done|split]|].
  - etrans; [exact He|]. etrans; [|exact He2]. by split.
  - by rw Hq2.
  - rw Er /= map_size_delete E. assert (size (vote_ready cx1) ≠ 0); [|lia].
    intros Ez%map_size_empty_inv. by rw Ez in E.
Qed.

Lemma handle_request_core pn cx sender rid h :
  wpp pn (handle_request sender rid h) (λ _ cx', core cx' = core cx) cx.
Proof.
  unfold handle_request. apply wpp_bind, wpp_get. cbv zeta.
  apply wpp_if; [intros _; by apply wpp_ret|]. intros Hor.
  apply wpp_bind, (wpp_mono _ (λ _ cx', cx' = cx)).
  { apply wpp_if.
    - intros [b Hb]%is_delivered_spec. rw Hb. by wpp_go.
    - intros Hn. rw Hn in Hor. simpl in Hor. apply negb_false_iff, bool_decide_eq_true in Hor as [b Hb].
      rw Hb. by wpp_go. }
  intros b cx1 ->. apply wpp_bind. eapply wpp_mono; [apply art_read_batch_core|].
  intros [batch|] cx1 Hc; [|by apply wpp_ret]. apply wpp_modify. by rw art_send_core.
Qed.

Lemma art_drain_other_spec pn cx :
  inv pn cx →
  wpp pn (loop (S (length (other_buf cx))) drain_other) (λ _ cx', inv pn cx' ∧ ext cx cx' ∧
    queues cx' = (block_processing_waiting cx, response_waiting cx, [], pending_batches cx)) cx.
Proof.
  intros Hi. apply (wpp_loop (λ cx', inv pn cx' ∧ ext cx cx' ∧ queues cx' =
      (block_processing_waiting cx, response_waiting cx, other_buf cx', pending_batches cx))
    (λ cx', length (other_buf cx'))); [|by split_and!|lia].
  clear Hi. intros cx1 (Hi & He & Hq). unfold drain_other. apply wpp_bind, wpp_get.
  destruct (other_buf cx1) as [|m l] eqn:E; [apply wpp_ret; by rw Hq|].
  destruct (inv_pop_other _ _ _ _ Hi E) as [Hi1 Hm].
  apply wpp_bind, wpp_modify, wpp_bind. set (cx2 := cx1 <| other_buf := l |>).
  apply (wpp_mono _ (λ _ cx', progressed pn cx2 cx')).
  - destruct m; try done; try by apply try_receive_vote_spec.
    eapply wpp_mono; [apply handle_request_core|]. intros [] cx3. by apply art_progressed_core.
  - intros [] cx3 [Hi3 He3 Hq3]. apply wpp_ret. split; [split; [done|split]|].
    + etrans; [exact He|]. etrans; [|exact He3]. by split.
    + unfold queues in *. simpl in *. congruence.
    + unfold queues in Hq3. simpl in Hq3. injection Hq3 as _ _ -> _. simpl. lia.
Qed.

Lemma art_process_message_spec pn cx :
  inv pn cx →
  wpp pn process_message (λ _ cx', inv pn cx' ∧ ext cx cx' ∧
    queues cx' = ([], [], [], pending_batches cx)) cx.
Proof.
  intros Hi. unfold process_message. do 2 (apply wpp_bind; try apply wpp_get).
  eapply wpp_mono; [by apply drain_blocks_spec|]. intros [] cx1 (Hi1 & He1 & Hq1).
  do 2 (apply wpp_bind; try apply wpp_get).
  eapply wpp_mono; [by apply drain_responses_spec|]. intros [] cx2 (Hi2 & He2 & Hq2).
  do 2 (apply wpp_bind; try apply wpp_get).
  eapply wpp_mono; [by apply drain_ready_spec|]. intros [] cx3 (Hi3 & He3 & Hq3 & _).
  do 2 (apply wpp_bind; try apply wpp_get).
  eapply wpp_mono; [by apply art_drain_other_spec|]. intros [] cx4 (Hi4 & He4 & Hq4).
  apply wpp_bind, wpp_get.
  eapply wpp_mono; [by apply drain_ready_spec|]. intros [] cx5 (Hi5 & He5 & Hq5 & _).
  split; [done|]. split; [by do 4 (etrans; [eassumption|])|].
  unfold queues in *. simplify_eq. congruence.
Qed.

(** ** The leaders' turns *)
Lemma sign_total pn cx m : inv pn cx → sk_sign (my_secret_key cx) m = None → pn.
Proof.
  intros Hi Hs. destruct (inv_calm _ _ Hi) as [|Hcalm]; [done|]. exfalso.
  destruct (calm_sign _ Hcalm m). congruence.
Qed.

Lemma do_new_block_spec pn cx bh batch :
  inv pn cx → wpp pn (do_new_block bh batch) (λ _ cx', progressed pn cx cx') cx.
Proof.
  intros Hi. unfold do_new_block. apply wpp_bind, wpp_modify, wpp_bind, wpp_get.
  set (cx1 := cx <| metrics ::= record_propose |>).
  assert (progressed pn cx cx1) as Hp1 by (by apply art_progressed_core). cbv zeta.
  apply wpp_bind, wpp_unwrap; [|intros Hs; by apply (sign_total pn cx1 _ (pg_inv _ _ _ Hp1) Hs)].
  intros a _. unfold multicast. do 2 (apply wpp_bind, wpp_modify).
  match goal with |- wpp _ (on_receive_new_block_direct ?x) _ ?c => set (nb := x); set (cx2 := c) end.
  assert (progressed pn cx1 cx2) as Hp2 by (apply art_progressed_core; [apply Hp1|done]).
  eapply wpp_mono; [apply (new_block_direct_spec pn cx2 nb (pg_inv _ _ _ Hp2))|].
  { by right. }
  intros [] cx3 Hp3. by do 2 (eapply art_progressed_trans; [eassumption|]).
Qed.

Lemma try_round_vote_spec pn cx :
  inv pn cx → wpp pn try_round_vote (λ _ cx', progressed pn cx cx') cx.
Proof.
  intros Hi. unfold try_round_vote. apply wpp_bind, wpp_get.
  apply wpp_if; [intros _; apply wpp_ret; by apply art_progressed_refl|intros _].
  apply wpp_if; [intros _; apply wpp_ret; by apply art_progressed_refl|intros _].
  unfold do_round_vote. apply wpp_bind, wpp_modify, wpp_bind, wpp_get.
  set (cx1 := cx <| metrics ::= record_vote |>).
  assert (progressed pn cx cx1) as Hp1 by (by apply art_progressed_core). cbv zeta.
  apply wpp_bind, wpp_unwrap; [|intros Hs; by apply (sign_total pn cx1 _ (pg_inv _ _ _ Hp1) Hs)].
  intros a _. unfold multicast. apply wpp_bind, wpp_modify.
  match goal with |- wpp _ (on_receive_round_vote ?x) _ ?c => set (v := x); set (cx2 := c) end.
  assert (progressed pn cx1 cx2) as Hp2 by (apply art_progressed_core; [apply Hp1|done]).
  eapply wpp_mono; [apply (vote_spec pn cx2 v (pg_inv _ _ _ Hp2))|]; [done| |].
  { exact (io_last _ (inv_index _ _ (pg_inv _ _ _ Hp2))). }
  intros [] cx3 [Hp3 _]. by do 2 (eapply art_progressed_trans; [eassumption|]).
Qed.

Lemma art_leader_drain_spec pn cx :
  inv pn cx →
  wpp pn leader_drain (λ _ cx', inv pn cx' ∧ ext cx cx' ∧ (queues cx').1 = (queues cx).1) cx.
Proof.
  intros Hi. unfold leader_drain. apply wpp_bind, wpp_get, wpp_bind.
  apply (wpp_mono _ (λ _ cx', inv pn cx' ∧ ext cx cx' ∧ (queues cx').1 = (queues cx).1)).
  - apply (wpp_loop (λ cx', inv pn cx' ∧ ext cx cx' ∧ (queues cx').1 = (queues cx).1)
      (λ cx', length (pending_batches cx'))); [|done|lia].
    clear Hi. intros cx1 (Hi & He & Hq). unfold leader_step. apply wpp_bind, wpp_get.
    destruct (pending_batches cx1) as [|[bh batch] l] eqn:E; [by apply wpp_ret|].
    apply wpp_if; intros _; [|by apply wpp_ret].
    apply wpp_bind, wpp_modify, wpp_bind.
    eapply wpp_mono; [apply (do_new_block_spec pn _ bh batch (inv_set_pending pn cx1 l Hi))|].
    intros [] cx2 [Hi2 He2 Hq2]. apply wpp_ret. split; [split; [done|split]|].
    + etrans; [exact He|]. etrans; [|exact He2]. by split.
    + rw Hq2. exact Hq.
    + unfold queues in Hq2. simpl in Hq2. injection Hq2 as _ _ _ ->. simpl. lia.
  - intros [] cx1 (Hi1 & He1 & Hq1). eapply wpp_mono; [by apply try_round_vote_spec|].
    intros [] cx2 [Hi2 He2 Hq2]. split; [done|]. split; [by etrans|]. by rw Hq2.
Qed.

(** ** Turns and runs *)
Definition msg_ok (pn : Prop) (m : ProtocolMsg) : Prop :=
  match m with
  | NewBlock b _ | Response _ _ b _ => hashed b
  | Blame _ => pn
  | _ => True
  end.
Definition input_ok (pn : Prop) (i : input) : Prop :=
  match i with Turn (EvMsgs msgs) => Forall (msg_ok pn) msgs | _ => True end.

Lemma buffer_message_spec pn cx m :
  inv pn cx → msg_ok pn m →
  wpp pn (buffer_message m) (λ _ cx', inv pn cx' ∧ ext cx cx') cx.
Proof.
  intros Hi Hm. unfold buffer_message. apply wpp_modify.
  pose proof (inv_buffers _ _ Hi) as [B1 B2 B3]. pose proof (calm_buf _ _ Hi) as Hc.
  assert (∀ x, match x with NewBlock _ _ | Response _ _ _ _ | Invalid => False
    | Blame _ => pn | _ => True end → inv pn (cx <| other_buf ::= λ l, l ++ [x] |>)) as Hother.
  { intros x Hx. refine (queues_inv pn cx (block_processing_waiting cx) (response_waiting cx)
      (other_buf cx ++ [x]) (pending_batches cx) Hi B1 B2 _ _).
    - apply Forall_app_2; [done|]. apply Forall_singleton. by destruct x.
    - destruct Hc; [by left|]. destruct x; try by left.
      all: right; apply Forall_app_2; [done|by apply Forall_singleton]. }
  destruct m; (split; [|by repeat split]); try by apply Hother.
  - refine (queues_inv pn cx (block_processing_waiting cx ++ [(b, batch)]) (response_waiting cx)
      (other_buf cx) (pending_batches cx) Hi _ B2 B3 Hc).
    apply Forall_app_2; [done|by apply Forall_singleton].
  - refine (queues_inv pn cx (block_processing_waiting cx) (response_waiting cx ++ [(from, b, batch)])
      (other_buf cx) (pending_batches cx) Hi B1 _ B3 Hc).
    apply Forall_app_2; [done|by apply Forall_singleton].
  - done.
Qed.

(** Nothing waits to be processed. *)
Definition idle cx : Prop :=
  block_processing_waiting cx = [] ∧ response_waiting cx = [] ∧ other_buf cx = [].

Lemma idle_same_queues cx cx' : (queues cx').1 = (queues cx).1 → idle cx → idle cx'.
Proof. unfold queues, idle. simpl. intros [= E1 E2 E3]. by rw E1 E2 E3. Qed.

(** The events that end the reactor. *)
Definition closes (i : input) : bool :=
  match i with Turn EvNetClosed | Turn EvMempoolClosed => true | _ => false end.

Lemma art_lead_spec pn cx cx1 :
  inv pn cx1 → ext cx cx1 → (idle cx → idle cx1) →
  wpp pn (leader_drain;;; ret true) (λ go cx', (inv pn cx' ∧ ext cx cx') ∧ (idle cx → idle cx') ∧
    go = true) cx1.
Proof.
  intros Hi1 He1 Hid. apply wpp_bind. eapply wpp_mono; [by apply art_leader_drain_spec|].
  intros [] cx2 (Hi2 & He2 & Hq2). apply wpp_ret. split; [split; [done|by etrans]|].
  split; [|done]. intros Hidle. eapply idle_same_queues; [exact Hq2|]. by apply Hid.
Qed.

Lemma art_take_input_spec pn cx i :
  inv pn cx → input_ok pn i →
  wpp pn (take_input i) (λ go cx', (inv pn cx' ∧ ext cx cx') ∧ (idle cx → idle cx') ∧
    go = negb (closes i)) cx.
Proof.
  intros Hi Hok. destruct i as [ev|h batch].
  2:{ unfold take_input, persist_batch. wpp_go. split; [|done].
      split; [by apply (art_core_inv pn cx)|by apply art_core_ext]. }
  unfold take_input, react. apply wpp_bind, wpp_modify.
  set (cx0 := cx <| metrics ::= record_reactor_iter |>).
  assert (inv pn cx0) as Hi0 by by apply (art_core_inv pn cx).
  assert (ext cx cx0) as He0 by by apply art_core_ext.
  destruct ev as [|msgs| | |bh batch|]; cbn [closes negb]; try (by apply wpp_ret).
  - apply wpp_bind, wpp_modify. apply art_lead_spec.
    + eapply art_core_inv; [|exact Hi0]. by destruct (_ =? _)%N.
    + etrans; [exact He0|]. apply art_core_ext. by destruct (_ =? _)%N.
    + by destruct (_ =? _)%N.
  - apply wpp_bind. eapply wpp_mono; [apply (wpp_for_each (λ _ cx', inv pn cx' ∧ ext cx cx'))|].
    + intros m dn l cx1 E (Hi1 & He1). eapply wpp_mono; [apply (buffer_message_spec pn cx1 m Hi1)|].
      * simpl in Hok. rw Forall_forall in Hok. apply Hok. rw E. apply elem_of_app. right. constructor.
      * intros [] cx2 (? & ?). split; [done|by etrans].
    + done.
    + intros [] cx1 (Hi1 & He1). apply wpp_bind.
      eapply wpp_mono; [by apply art_process_message_spec|]. intros [] cx2 (Hi2 & He2 & Hq2).
      apply art_lead_spec; [done|by etrans|]. intros _. unfold queues in Hq2. unfold idle.
      by injection Hq2 as -> -> ->.
  - apply wpp_bind, wpp_modify, wpp_bind, wpp_modify.
    set (cx1 := cx0 <| metrics ::= record_batch_recv |>).
    assert (inv pn cx1) as Hi1 by by apply (art_core_inv pn cx0).
    apply art_lead_spec; [exact (inv_set_pending pn cx1 _ Hi1)| |done].
    etrans; [exact He0|]. etrans; [by apply (art_core_ext cx0 cx1)|]. apply ext_set_pending.
Qed.

Lemma art_run_spec pn ins cx :
  inv pn cx → Forall (input_ok pn) ins →
  wpp pn (run ins) (λ _ cx', inv pn cx' ∧ ext cx cx') cx.
Proof.
  revert cx. induction ins as [|i ins IH]; intros cx Hi Hok; simpl; [by apply wpp_ret|].
  apply Forall_cons in Hok as [Hok Hrest]. apply wpp_bind.
  eapply wpp_mono; [by apply art_take_input_spec|]. intros [] cx1 ((Hi1 & He1) & _); [|by apply wpp_ret].
  eapply wpp_mono; [by apply IH|]. intros [] cx2 (? & ?). split; [done|by etrans].
Qed.

(** The leaders a node starts with. *)
Lemma initial_last (k : nat) :
  (N.of_nat k ≤ u16_size)%N →
  foldl (λ l i, linked_insert (as_u16 (N.of_nat i)) l) [] (seq 0 k) = N.of_nat <$> seq 0 k.
Proof.
  induction k as [|k IH]; intros Hk; [done|]. rw seq_S foldl_snoc IH; [|lia]. rw Nat.add_0_l.
  assert (as_u16 (N.of_nat k) = N.of_nat k) as -> by (apply N.mod_small; lia).
  rw linked_insert_fresh; [by rw fmap_app|].
  intros (i & Hi & Hin%elem_of_seq)%list_elem_of_fmap. lia.
Qed.

Lemma initial_eligible (f n : nat) :
  (N.of_nat n ≤ u16_size)%N → f ≤ n →
  (λ i, as_u16 (N.of_nat i)) <$> seq f (n - f) = N.of_nat <$> seq f (n - f).
Proof.
  intros Hn Hf. apply list_fmap_ext. intros i x Hx. apply lookup_seq in Hx as [-> Hi].
  apply N.mod_small. lia.
Qed.

Lemma genesis_index h b :
  all_delivered_blocks_by_hash (add_delivered_block GENESIS_BLOCK storage_new) !! h = Some b →
  b = GENESIS_BLOCK ∧ h = EMPTY_HASH.
Proof. simpl. rw lookup_insert lookup_empty. case_decide; naive_solver. Qed.

Lemma genesis_delivered :
  is_Some (all_delivered_blocks_by_hash (add_delivered_block GENESIS_BLOCK storage_new) !! EMPTY_HASH).
Proof. simpl. rw lookup_insert_eq. eauto. Qed.

Lemma art_started_idle config bs cx : reactor_start config bs = Some cx → idle cx.
Proof.
  unfold reactor_start, context_new. destruct (decode_secret config); [|done].
  destruct (decode_public_keys config _); [|done]. intros [= <-]. by split_and!.
Qed.
Lemma art_start_inv pn config bs cx0 :
  (Config.num_nodes config < u16_size)%N →
  (1 ≤ Config.num_faults config < Config.num_nodes config)%N →
  reactor_start config bs = Some cx0 →
  (pn ∨ (∀ sk m, decode_secret config = Some sk → is_Some (sk_sign sk m)) ∧
        ∀ r, (r < Config.num_nodes config)%N → is_Some (pk_map config !! r)) →
  inv pn cx0.
Proof.
  intros Hn Hf Hs Hpn. unfold reactor_start, context_new in Hs.
  destruct (decode_secret config) as [sk|]; [|done].
  destruct (decode_public_keys config _) as [pks|] eqn:Ek; [|done].
  cbn -[seq add_delivered_block as_u16 sub64] in Hs. injection Hs as <-.
  rw initial_last; [|lia]. rw initial_eligible; [|lia|lia].
  set (f := Config.num_faults config) in *. set (n := Config.num_nodes config) in *.
  split.
  - split; cbn -[seq as_u16 sub64]; [| |done| |lia].
    + rw -fmap_app -(seq_app (N.to_nat f) (N.to_nat n - N.to_nat f) 0).
      assert (N.to_nat f + (N.to_nat n - N.to_nat f) = N.to_nat n) as -> by lia. done.
    + by rw length_fmap length_seq.
    + destruct (N.to_nat f) as [|k] eqn:Ef; [lia|]. rw seq_S fmap_app last_snoc. f_equal.
      rw sub64_small; [|lia|unfold u16_size, u64_size in *; lia].
      unfold as_u16. rw N.mod_small; lia.
  - split; cbn -[add_delivered_block]; try done.
    + apply (add_delivered_block_wf GENESIS_BLOCK), storage_new_wf.
    + intros h b [-> ->]%genesis_index. apply genesis_delivered.
    + intros h b [-> ->]%genesis_index. by left.
    + apply genesis_delivered.
  - intros p [h Hp]. simpl in Hp. by rw lookup_empty in Hp.
  - split; [done| |intros r w; simpl; by rw lookup_empty].
    intros r. simpl. rw lookup_empty. split; [by intros []|lia].
  - by split.
  - destruct Hpn as [|[Hsig Hpk]]; [by left|right]. split; simpl; try done.
    + intros m. by apply Hsig.
    + intros r Hr Hne. apply (decode_public_keys_spec _ _ _ r Ek). split; [by apply Hpk|].
      by apply negb_true_iff, N.eqb_neq.
Qed.
End invariant.

(** ** Artemis's guarantees *)
Section guarantees.
Context `{Bincode} `{!BincodeLaws} `{!CollisionFree} `{Store} `{NetOracle} `{Clock}.
Implicit Types (cx : Context) (v : UCRVote) (b : Block).

Abbreviation delivered cx h := (is_Some (all_delivered_blocks_by_hash (storage cx) !! h)).

(** C8.  An Artemis node survives every peer: with working keys and
    `1 <= f < n < 65536`, no run whose messages carry correctly hashed
    blocks and no blame ever panics or hangs.  In the state it reaches
    every indexed block has its parent indexed, committed blocks have
    committed parents, every round so far has exactly one accepted vote for
    a delivered block, and the last `f` round leaders and the eligible ones
    partition the replicas; nothing delivered, committed or voted earlier
    in the run is lost. *)
Theorem artemis_never_panics config bs cx0 ins1 ins2 :
  (Config.num_nodes config < u16_size)%N →
  (1 ≤ Config.num_faults config < Config.num_nodes config)%N →
  reactor_start config bs = Some cx0 →
  (∀ sk m, decode_secret config = Some sk → is_Some (sk_sign sk m)) →
  (∀ r, (r < Config.num_nodes config)%N → is_Some (pk_map config !! r)) →
  Forall (input_ok False) ins1 → Forall (input_ok False) ins2 →
  ∃ cx1 cx2, run ins1 cx0 = Done tt cx1 ∧ run ins2 cx1 = Done tt cx2 ∧
    inv False cx2 ∧ ext cx1 cx2.
Proof.
  intros Hn Hf Hs Hsig Hpk H1' H2'. assert (inv False cx0) as Hi0 by (eapply art_start_inv; eauto).
  destruct (wpp_done _ _ _ (art_run_spec False ins1 cx0 Hi0 H1')) as ([] & cx1 & E1 & Hi1 & _).
  destruct (wpp_done _ _ _ (art_run_spec False ins2 cx1 Hi1 H2')) as ([] & cx2 & E2 & Hi2 & He2).
  by exists cx1, cx2.
Qed.

(** Leader rotation: a round change elects an eligible replica that was
    not among the last `f` leaders (the current one included), retires the
    oldest of those to the eligible set in its place, and so keeps the
    partition of the replicas; any `f + 1` consecutive leaders differ. *)
Theorem artemis_leader_rotation cx :
  leaders_ok cx →
  ∃ cx' again rest, update_round cx = Done tt cx' ∧ last_f_leaders cx = again :: rest ∧
    round_leader cx' ∈ eligible_leaders cx ∧ (round_leader cx' ∉ last_f_leaders cx) ∧
    last_f_leaders cx' = rest ++ [round_leader cx'] ∧
    (∀ r, r ∈ eligible_leaders cx' ↔
       (r ∈ eligible_leaders cx ∧ r ≠ round_leader cx') ∨ r = again) ∧
    NoDup (last_f_leaders cx ++ [round_leader cx']) ∧
    round cx' = N.succ (round cx) ∧ leaders_ok cx'.
Proof.
  intros Ho. destruct (wpp_done _ _ _ (update_round_run False cx Ho))
    as ([] & cx' & E & l & idx & again & rst & El & Ef & Hc).
  exists cx', again, rst. pose proof (rotate_leaders _ _ _ _ _ Ho El Ef) as Ho'.
  pose proof (eligible_fresh _ _ _ Ho El) as Hfresh.
  assert (leaders_ok cx') as Ho2 by (eapply core_leaders; [exact Hc|exact Ho']).
  unfold core, rotate in Hc. simpl in Hc.
  injection Hc as _ _ _ _ _ _ _ _ _ _ Er El' Elf Eel _ _ _ _ _ _ _.
  rw El' Elf Eel Ef Er. split; [done|]. split; [done|].
  split; [by eapply list_elem_of_lookup_2|]. rw Ef in Hfresh. split; [done|]. split; [done|].
  pose proof (leaders_nodup _ Ho) as Hnd. rw Ef in Hnd.
  split; [|split; [|done]].
  - intros r. apply elem_of_insert_swap; [|done]. by apply NoDup_app in Hnd as (_ & _ & ?).
  - apply NoDup_app in Hnd as (Hnd & _ & _). apply NoDup_app. split; [done|].
    split; [|apply NoDup_singleton]. by intros x Hx ->%list_elem_of_singleton.
Qed.

(** C10.  The commit rule.  A calm node takes a vote of the current round
    `r > f` for a delivered block.  If the vote is of the current view and,
    unless this node is the round leader itself, signed by the round leader,
    it is recorded for the round, exactly the ancestors of the block voted for
    in round `r - f` become committed on top of what was, and the node moves
    to round `r + 1`.  If it is not, nothing changes. *)
Theorem artemis_commit_exact cx v :
  inv False cx → v_round v = round cx → delivered cx (v_hash v) →
  (num_faults cx < round cx)%N →
  ∃ cx', on_receive_round_vote v cx = Done tt cx' ∧
    (¬ authentic_vote cx v ∧ cx' = cx ∨
     authentic_vote cx v ∧
     ∃ w, <[v_round v := v]> (vote_chain cx) !! (round cx - num_faults cx)%N = Some w ∧
      (∀ h, h ∈ committed_blocks_by_hash (storage cx') ↔
            h ∈ committed_blocks_by_hash (storage cx) ∨ ancestor (storage cx) (v_hash w) h) ∧
      vote_chain cx' = <[round cx := v]> (vote_chain cx) ∧ round cx' = N.succ (round cx)).
Proof.
  intros Hi Hr Hd Hf. destruct (wpp_done _ _ _ (vote_run False cx v Hi Hr Hd))
    as ([] & cx' & E & [[-> Hno]|(Ha & s' & l & idx & again & rst & _ & _ & Hc & _ & Hw)]).
  { exists cx. split; [done|by left]. }
  destruct (Hw Hf) as (w & path & Hlk & Hwk). exists cx'. split; [done|right]. split; [exact Ha|].
  exists w.
  unfold core, rotate, voted in Hc. simpl in Hc.
  injection Hc as _ _ _ _ _ Es _ _ _ _ Er _ _ _ _ Ev _ _ _ _ _.
  rw Es Er Ev. split; [done|]. split; [|by rw Hr].
  by apply walked_exact with path; [apply (inv_index _ _ Hi)..|].
Qed.

(** A vote that the node is waiting for. *)
Record awaited_vote cx v : Prop := {
  aw_round : v_round v = round cx;
  aw_delivered : delivered cx (v_hash v);
  aw_authentic : authentic_vote cx v;
}.
Lemma vote_accepted cx v :
  inv False cx → awaited_vote cx v →
  wp (on_receive_round_vote v) (λ _ cx', progressed False cx cx' ∧ vote_chain cx' !! round cx = Some v ∧
    round cx' = N.succ (round cx)) cx.
Proof.
  intros Hi [Hr Hd Ha]. pose proof (vote_spec False cx v Hi Hr Hd) as Hs.
  pose proof (vote_run False cx v Hi Hr Hd) as Hv. pose proof (wpp_and _ _ _ _ Hs Hv) as Hw.
  eapply wpp_mono; [exact Hw|]. intros [] cx' [[Hp _] [[_ Hno]|(_ & s' & l & idx & again & rst & _ & _ & Hc & _)]];
    [done|]. split; [done|]. unfold core, rotate, voted in Hc. simpl in Hc.
  injection Hc as _ _ _ _ _ _ _ _ _ _ Er _ _ _ _ Ev _ _ _ _ _. rw Er Ev Hr lookup_insert_eq. done.
Qed.

(** An empty queue ends its loop at once. *)
Lemma wpp_loop_done fuel (body : M Context bool) cx (Φ : unit → Context → Prop) :
  body cx = Done false cx → Φ tt cx → wp (loop (S fuel) body) Φ cx.
Proof. intros E HΦ. unfold wpp. cbn [loop]. unfold bind. by rw E. Qed.

(** A turn that takes one awaited vote from the network. *)
Lemma vote_turn cx v :
  inv False cx → idle cx → vote_ready cx !! round cx = None → awaited_vote cx v →
  wp (react (EvMsgs [MUCRVote v])) (λ go cx', go = true ∧ inv False cx' ∧ idle cx' ∧
    ext cx cx' ∧ vote_chain cx' !! round cx = Some v ∧ (round cx < round cx')%N) cx.
Proof.
  intros Hi (I1 & I2 & I3) Hready Hv. cbn [react for_each]. apply wpp_bind, wpp_modify, wpp_bind, wpp_bind, wpp_modify, wpp_ret.
  set (cx1 := cx <| metrics ::= record_reactor_iter |> <| other_buf ::= λ l, l ++ [MUCRVote v] |>).
  assert (block_processing_waiting cx1 = [] ∧ response_waiting cx1 = [] ∧ other_buf cx1 = [MUCRVote v] ∧
    vote_ready cx1 !! round cx1 = None) as (E1 & E2 & E3 & E4) by (simpl; by rw I3).
  set (cx2 := cx1 <| other_buf := [] |>).
  assert (core cx2 = core cx) as Hc by (unfold core; simpl; by rw I3).
  pose proof (art_core_inv False _ _ Hc Hi) as Hi2. pose proof (art_core_ext _ _ Hc) as He2.
  assert (awaited_vote cx2 v) as Hv2 by (destruct Hv; by split).
  apply wpp_bind. unfold process_message. apply wpp_bind, wpp_get, wpp_bind, wpp_loop_done.
  { unfold drain_blocks, bind, get. by rw E1. }
  apply wpp_bind, wpp_get, wpp_bind, wpp_loop_done; [unfold drain_responses, bind, get; by rw E2|].
  apply wpp_bind, wpp_get, wpp_bind, wpp_loop_done; [unfold drain_ready, bind, get; by rw E4|].
  apply wpp_bind, wpp_get, wpp_bind. rw E3. cbn [length]. cbn [loop]. apply wpp_bind.
  unfold drain_other at 1. apply wpp_bind, wpp_get. rw E3. apply wpp_bind, wpp_modify, wpp_bind. fold cx2.
  unfold try_receive_round_vote. apply wpp_bind, wpp_get.
  pose proof Hv2 as [Hr Hd _]. rw Hr N.ltb_irrefl. apply is_delivered_spec in Hd. rw Hd.
  eapply wpp_mono; [by apply vote_accepted|]. intros [] cx3 ([Hi3 He3 Hq3] & Hch & Hrd). apply wpp_ret.
  apply wpp_bind. assert (idle cx3) as Hid3 by (by apply (idle_same_queues cx2); [rw Hq3|]).
  pose proof Hid3 as (_ & _ & E5).
  eapply (wpp_mono _ (λ more cx', more = false ∧ cx' = cx3)).
  { unfold drain_other. apply wpp_bind, wpp_get. rw E5. by apply wpp_ret. }
  intros more cx4 [-> ->]. apply wpp_ret, wpp_bind, wpp_get.
  eapply wpp_mono; [by apply drain_ready_spec|]. intros [] cx5 (Hi5 & He5 & Hq5 & _). apply wpp_bind.
  eapply wpp_mono; [by apply art_leader_drain_spec|]. intros [] cx6 (Hi6 & He6 & Hq6). apply wpp_ret.
  assert (ext cx3 cx6) as He by by etrans. split; [done|]. split; [done|].
  split; [apply (idle_same_queues cx3); [by rw Hq6 Hq5|done]|].
  split; [etrans; [exact He2|by etrans]|]. split; [by apply (ext_chain _ _ He)|].
  pose proof (ext_round _ _ He). change (round cx2) with (round cx) in Hrd. lia.
Qed.

(** Each vote is awaited in the state in which the node takes it, and no vote
    that came early is stored for that round. *)
Fixpoint awaited_run (l : list UCRVote) cx : Prop :=
  match l with
  | [] => True
  | v :: l' => vote_ready cx !! round cx = None ∧ awaited_vote cx v ∧
      ∀ go cx', react (EvMsgs [MUCRVote v]) cx = Done go cx' → awaited_run l' cx'
  end.
Definition votes_in (l : list UCRVote) : list input := (λ v, Turn (EvMsgs [MUCRVote v])) <$> l.

Lemma votes_in_spec l cx :
  inv False cx → idle cx → awaited_run l cx →
  wp (run (votes_in l)) (λ _ cx', inv False cx' ∧ ext cx cx' ∧
    Forall (λ w, vote_chain cx' !! v_round w = Some w) l ∧
    (round cx + N.of_nat (length l) ≤ round cx')%N) cx.
Proof.
  revert cx. induction l as [|v l IH]; intros cx Hi Hid Hv.
  { apply wpp_ret. split; [done|]. split; [done|]. split; [done|]. simpl. lia. }
  destruct Hv as (Hrd & Hv & Hrest). cbn [votes_in fmap list_fmap run take_input].
  destruct (wpp_done _ _ _ (vote_turn cx v Hi Hid Hrd Hv))
    as (go & cx1 & E & -> & Hi1 & Hid1 & He1 & Hch & Hr1).
  unfold wpp, bind. rw E. specialize (IH cx1 Hi1 Hid1 (Hrest _ _ E)). unfold wpp, votes_in in IH.
  destruct (run _ cx1) as [[] cx2| |]; [|done..]. destruct IH as (? & He2 & ? & ?).
  split; [done|]. split; [by etrans|]. split; [|simpl length; lia]. constructor; [|done].
  rw (aw_round _ _ Hv). by apply (ext_chain _ _ He2).
Qed.

(** C18.  Progress.  Take a node in the state of a good run (its invariant
    holds, its keys work, no blame and no other message is buffered) that is
    sent votes one at a time, each when it is waited for: of the current round
    and view, signed by the round's leader unless that is this node, for a
    block that has been delivered, and with no early vote of that round stored
    already.  Then it accepts every one of them for its round and moves ahead
    at least as many rounds, and every block voted for more than f rounds before
    the round it reaches is committed with all its ancestors.  With at least
    f + 1 votes that includes the first one. *)
Theorem artemis_progress cx v l :
  inv False cx → idle cx → awaited_run (v :: l) cx →
  ∃ cx', run (votes_in (v :: l)) cx = Done tt cx' ∧
    Forall (λ w, vote_chain cx' !! v_round w = Some w) (v :: l) ∧
    (round cx + N.of_nat (S (length l)) ≤ round cx')%N ∧
    (∀ w h, w ∈ v :: l → (v_round w + num_faults cx < round cx')%N →
       ancestor (storage cx') (v_hash w) h → h ∈ committed_blocks_by_hash (storage cx')) ∧
    ((num_faults cx ≤ N.of_nat (length l))%N → (v_round v + num_faults cx < round cx')%N).
Proof.
  intros Hi Hid Hv.
  destruct (wpp_done _ _ _ (votes_in_spec (v :: l) cx Hi Hid Hv)) as ([] & cx' & E & Hi' & He & Hall & Hr).
  exists cx'. split; [done|]. split; [done|]. simpl length in Hr. split; [done|]. split.
  - intros w h Hin Hlt. apply closed_ancestor; [apply (inv_index _ _ Hi')|].
    rw Forall_forall in Hall. apply (ro_lag _ (inv_rounds _ _ Hi') _ _ (Hall _ Hin)).
    by destruct (ext_static _ _ He) as (_ & -> & _).
  - destruct Hv as (_ & [-> _ _] & _). lia.
Qed.

(** A new block whose parent is missing and not yet asked for. *)
Record lacks_parent cx b : Prop := {
  lp_new : is_delivered_by_hash (storage cx) (get_hash b) = false;
  lp_parent : is_delivered_by_hash (storage cx) (prev (header (blk b))) = false;
  lp_waiting : block_parent_waiting cx !! prev (header (blk b)) = None;
}.

(** A block whose parent is missing makes the node ask the sender for
    that very block again, not for its parent. *)
Theorem artemis_requests_the_block_itself cx b (sender : Replica) :
  lacks_parent cx b → sender ≠ myid cx →
  ∃ cx', update_delivery b sender cx = Done tt cx' ∧
    sent (consensus_net cx') = sent (consensus_net cx) ++
      [(sender, Request (myid cx) (req_ctr cx) (get_hash b))] ∧
    undelivered_blocks cx' !! get_hash b = Some b.
Proof.
  intros [Hb Hp Hw] Hs. unfold update_delivery, bind, get. rw Hb. cbv zeta. rw Hp.
  rw bool_decide_eq_false_2; [|rw Hw; apply is_Some_None]. simpl.
  unfold do_request, send, modify, bind, get. simpl.
  case_eq (sender =? myid cx)%N; [intros ?%N.eqb_eq; done|intros _].
  eexists. split; [done|]. simpl. rw net_send_sent lookup_insert_eq. done.
Qed.
End guarantees.

(** ** Examples: three replicas, one faulty; this node is replica 1 *)
Module Examples.
Import Toy ToyFormat ConfigExamples.
#[local] Instance clock : Clock := λ k, (1000000 * (k + 1))%N.

Definition cfg : Node := cfg3 <| Config.id := 1%N |> <| secret_key_bytes := [11%N] |>.
Definition bs0 : Batches := mkBatches (∅ : gmap bytes bytes) ∅.
Definition genesis_cx : Context :=
  mkContext 0 0 0 ∅ 0%N net_new [] bs0 [] [] [] storage_new ∅ 0 [] [] 0 0 0
    GENESIS_BLOCK GENESIS_BLOCK 0 0 0 0 0 0 ∅ ∅ [] [] metrics_new [] ∅ ∅.
Definition cx0 : Context := default genesis_cx (reactor_start cfg bs0).

Lemma start_cx0 : reactor_start cfg bs0 = Some cx0.
Proof. reflexivity. Qed.

Lemma keys_ok r : (r < Config.num_nodes cfg)%N → is_Some (pk_map cfg !! r).
Proof.
  intros Hr. assert (r = 0 ∨ r = 1 ∨ r = 2)%N as [->|[->| ->]] by (simpl in Hr; lia);
    eexists; vm_compute; reflexivity.
Qed.

Lemma cx0_inv : inv False cx0.
Proof.
  eapply art_start_inv; [..|exact start_cx0|]; [vm_compute; reflexivity|vm_compute; by split|].
  right. split; [intros; eexists; reflexivity|exact keys_ok].
Qed.

Definition batch (n : N) : CachedBatch Transaction :=
  (hash_get_or_init (batch_new [new_dummy_tx_keyed 1 n 2])).2.
(** The view leader's block on [parent]. *)
Definition block (parent : Hash) (ht n : N) : Block :=
  let b := Types.with_batch (hash (batch n)) <| header ::= λ h,
             h <| prev := parent |> <| author := 0%N |> <| height := ht |> |> in
  let b := init b in
  mkBlock b (mkVote 0 (10%N :: block_hash b)).
Definition vote (r rd : N) (b : Block) : UCRVote :=
  let v := mkUCRVote (get_hash b) rd 0 (mkVote r []) in
  mkUCRVote (get_hash b) rd 0 (mkVote r ((10 + r)%N :: ucr_digest v)).

Definition b1 : Block := block EMPTY_HASH 1 1.
Definition b2 : Block := block (get_hash b1) 2 2.
Definition ins1 : list input :=
  [Turn (EvMsgs [MUCRVote (vote 0 1 b1); NewBlock b1 (batch 1)])].
Definition ins2 : list input :=
  [Turn (EvMsgs [Response 0 0 (block (get_hash b2) 3 3) (batch 3); NewBlock b2 (batch 2)]);
   Turn EvTick].
Definition state_after (ins : list input) : Context := final cx0 (run ins cx0).

Lemma inputs1_ok : Forall (input_ok False) ins1.
Proof.
  apply Forall_singleton. simpl. constructor; [done|]. apply Forall_singleton. by right.
Qed.
Lemma inputs2_ok : Forall (input_ok False) ins2.
Proof.
  constructor; [|by apply Forall_singleton]. simpl. constructor; [by right|].
  apply Forall_singleton. by right.
Qed.

Lemma artemis_never_panics_witness :
  ∃ cx1 cx2, run ins1 cx0 = Done tt cx1 ∧ run ins2 cx1 = Done tt cx2 ∧
    inv False cx2 ∧ ext cx1 cx2.
Proof.
  apply (artemis_never_panics cfg bs0 cx0 ins1 ins2).
  - vm_compute. reflexivity.
  - vm_compute. split; [discriminate|reflexivity].
  - exact start_cx0.
  - intros sk m _. eexists. reflexivity.
  - exact keys_ok.
  - exact inputs1_ok.
  - exact inputs2_ok.
Defined.

(** This node votes in round 2 and commits; the third block arrived early. *)
Example run_commits :
  let cx := state_after (ins1 ++ ins2) in
  (round cx, height (header (blk (last_seen_block cx))),
   bool_decide (get_hash b1 ∈ committed_blocks_by_hash (storage cx))) = (3%N, 3%N, true).
Proof. vm_compute. reflexivity. Qed.

Lemma artemis_leader_rotation_witness :
  ∃ cx', update_round cx0 = Done tt cx' ∧ (round_leader cx' ∉ last_f_leaders cx0) ∧
    leaders_ok cx'.
Proof.
  destruct (artemis_leader_rotation cx0) as (cx' & a & l & E & _ & _ & Hn & _ & _ & _ & _ & Ho).
  - apply cx0_inv.
  - exists cx'. split; [exact E|]. split; [exact Hn|exact Ho].
Defined.

Lemma cx1_inv : inv False (state_after ins1).
Proof.
  destruct (wpp_done _ _ _ (art_run_spec False ins1 cx0 cx0_inv inputs1_ok)) as (? & cx & E & Hi & _).
  unfold state_after. by rw E.
Qed.

Lemma artemis_commit_exact_witness :
  ∃ cx', on_receive_round_vote (vote 1 2 b1) (state_after ins1) = Done tt cx' ∧
    round cx' = 3%N ∧ ∃ w, <[2%N := vote 1 2 b1]> (vote_chain (state_after ins1)) !! 1%N = Some w.
Proof.
  assert (authentic_vote (state_after ins1) (vote 1 2 b1)) as Ha.
  { split; [vm_compute; reflexivity|]. intros Hne.
    first [exfalso; apply Hne; vm_compute; reflexivity | eexists; split; vm_compute; reflexivity]. }
  destruct (artemis_commit_exact (state_after ins1) (vote 1 2 b1)) as (cx' & E & Hor).
  - exact cx1_inv.
  - vm_compute. reflexivity.
  - apply is_delivered_spec. vm_compute. reflexivity.
  - vm_compute. reflexivity.
  - exists cx'. split; [exact E|]. destruct Hor as [[Hno _]|(_ & w & Hw & _ & _ & Hrd)]; [destruct (Hno Ha)|].
    split; [rw Hrd; vm_compute; reflexivity|]. exists w. assert (round (state_after ins1) - num_faults (state_after ins1) = 1)%N as Er
      by (vm_compute; reflexivity). rw Er in Hw. exact Hw.
Defined.

(** The first block arrives, then the votes of two rounds. *)
Definition ins_b1 : list input := [Turn (EvMsgs [NewBlock b1 (batch 1)])].
Definition cx_b1 : Context := state_after ins_b1.
Lemma cx_b1_inv : inv False cx_b1.
Proof.
  assert (Forall (input_ok False) ins_b1) as Hok by (apply Forall_singleton, Forall_singleton; by right).
  destruct (wpp_done _ _ _ (art_run_spec False ins_b1 cx0 cx0_inv Hok)) as (? & cx & E & Hi & _).
  unfold cx_b1, state_after. by rw E.
Qed.
Definition cx_v1 : Context := final cx_b1 (react (EvMsgs [MUCRVote (vote 0 1 b1)]) cx_b1).

Lemma awaited_here cx v :
  v_round v = round cx → is_delivered_by_hash (storage cx) (v_hash v) = true → v_view v = view cx →
  (if (myid cx =? round_leader cx)%N then true
   else match pub_key_map cx !! round_leader cx with Some pk => ucr_check_sig v pk | None => false end) = true →
  awaited_vote cx v.
Proof.
  intros Hr Hd%is_delivered_spec Hw Hs. split; [done|done|]. split; [done|]. intros Hne%N.eqb_neq.
  rw Hne in Hs. destruct (pub_key_map cx !! round_leader cx) as [pk|]; [|done]. by exists pk.
Qed.

Lemma artemis_progress_witness :
  ∃ cx', run (votes_in [vote 0 1 b1; vote 1 2 b1]) cx_b1 = Done tt cx' ∧ (3 ≤ round cx')%N ∧
    vote_chain cx' !! 2%N = Some (vote 1 2 b1) ∧
    get_hash b1 ∈ committed_blocks_by_hash (storage cx').
Proof.
  destruct (artemis_progress cx_b1 (vote 0 1 b1) [vote 1 2 b1]) as (cx' & E & Hall & Hr & Hc & Hf).
  - exact cx_b1_inv.
  - split_and!; vm_compute; reflexivity.
  - split; [vm_compute; reflexivity|].
    split; [apply awaited_here; vm_compute; reflexivity|]. intros go cx1 E1.
    assert (cx1 = cx_v1) as -> by (unfold cx_v1; by rw E1). split; [vm_compute; reflexivity|].
    split; [apply awaited_here; vm_compute; reflexivity|done].
  - exists cx'. split; [exact E|]. split; [|split].
    + assert (round cx_b1 = 1%N) as E1 by (vm_compute; reflexivity). rw E1 in Hr. exact Hr.
    + exact (proj1 (proj1 (Forall_cons _ _ _) (proj2 (proj1 (Forall_cons _ _ _) Hall)))).
    + apply (Hc (vote 0 1 b1)); [by left|apply Hf; vm_compute; discriminate|apply rtc_refl].
Defined.

Lemma artemis_requests_witness :
  ∃ cx', update_delivery b2 0 cx0 = Done tt cx' ∧
    sent (consensus_net cx') = sent (consensus_net cx0) ++ [(0%N, Request 1 0 (get_hash b2))].
Proof.
  destruct (artemis_requests_the_block_itself cx0 b2 0) as (cx' & E & Hs & _);
    [split; vm_compute; reflexivity|vm_compute; discriminate|].
  exists cx'. split; [exact E|exact Hs].
Defined.

(** When it is this node's turn to vote, a vote that anybody sent is
    accepted without a signature: the round passes and commits what the
    forger chose. *)
Example artemis_forged_own_vote :
  let cx := state_after ins1 in
  let forged := mkUCRVote (get_hash b1) 2 0 (mkVote 7 []) in
  (round cx, round_leader cx, myid cx) = (2, 1, 1)%N ∧
  match react (EvMsgs [MUCRVote forged]) cx with
  | Done _ cx' => round cx' = 3%N ∧ vote_chain cx' !! 2%N = Some forged
  | _ => False
  end.
Proof. vm_compute. repeat split; reflexivity. Qed.

(** With no faulty replicas configured the node starts with a leader
    that does not exist and dies on the first vote. *)
Example artemis_no_faults_panics :
  match reactor_start (cfg <| Config.num_faults := 0%N |>) bs0 with
  | Some cx => round_leader cx = 65535%N ∧
      react (EvMsgs [NewBlock b1 (batch 1); MUCRVote (vote 0 1 b1)]) cx =
        Panicked "no entry found for key"
  | None => False
  end.
Proof. vm_compute. repeat split; reflexivity. Qed.
End Examples.
End ArtemisProofs.
