(* ===== verification/SyncHS.v ===== *)
(** * The Sync HotStuff node (consensus/synchs/src/node)

    [Context] and every handler of the reactor.  The messages are those of
    types/src/msg/synchs, which Opt Sync uses too; so does it most of the code
    below (see OptSync.v).

    A node never leaves view 0: nothing in the crate changes the view or the
    leader, and no message other than a proposal or a vote is handled. *)

From S2P Require Import Prelude Crypto Types Config Batch NodeIO.

(** ** tokio_util: `DelayQueue`

    The clock is read when an entry is put in and when the queue is polled;
    [dq_poll now q] is an entry whose time has come, taken out. *)
Class DelayQueue (A : Type) := {
  dqueue : Type;
  dq_new : dqueue;
  dq_insert : N → A → N → dqueue → dqueue;
  dq_poll : N → dqueue → option (A * dqueue);
}.
Arguments dqueue A {_}.

(** The entries with the time they are due: an entry is due its delay after
    it was put in, and leaves the queue once, not before it is due. *)
Class DelayQueueLaws (A : Type) `{DelayQueue A} := {
  dq_entries : dqueue A → list (N * A);
  dq_entries_new : dq_entries dq_new = [];
  dq_entries_insert now a d q :
    dq_entries (dq_insert now a d q) ≡ₚ ((now + d)%N, a) :: dq_entries q;
  dq_entries_poll now q a q' :
    dq_poll now q = Some (a, q') →
    ∃ due, (due ≤ now)%N ∧ dq_entries q ≡ₚ (due, a) :: dq_entries q';
}.

(** A queue to run the examples with: the entries in the order they came. *)
Module ToyQueue.
Section queue.
Context {A : Type}.
Fixpoint poll (now : N) (q : list (N * A)) : option (A * list (N * A)) :=
  match q with
  | [] => None
  | (due, a) :: q' =>
      if (due <=? now)%N then Some (a, q')
      else match poll now q' with
           | Some (a', q'') => Some (a', (due, a) :: q'')
           | None => None
           end
  end.
End queue.

#[export] Instance queue A : DelayQueue A := {|
  dqueue := list (N * A);
  dq_new := [];
  dq_insert now a d q := q ++ [((now + d)%N, a)];
  dq_poll := poll;
|}.

#[export] Instance queue_laws A : DelayQueueLaws A.
Proof.
  refine {| dq_entries := λ q : dqueue A, q : list (N * A) |}; [done| |].
  - intros now a d q. simpl. by rw Permutation_app_comm.
  - intros now q. simpl. induction q as [|[due x] q IH]; intros a q'; simpl; [done|].
    case_eq (due <=? now)%N; [intros ?%N.leb_le [= <- <-]; eauto|intros _].
    destruct (poll now q) as [[a' q'']|]; [|done]. intros [= <- <-].
    destruct (IH _ _ eq_refl) as (d & ? & E). exists d. split; [done|]. rw E.
    apply Permutation_swap.
Defined.
End ToyQueue.

Module SyncHS.

(** ** types/src/msg/synchs/propose.rs, proto.rs *)
Section messages.
Context `{Crypto}.

Record Propose := mkPropose {
  proof : bytes;
  cert : Certificate;
  prop_view : View;
  prop_hash : Hash;
}.
Definition propose_new : Propose :=
  {| proof := []; cert := empty_cert; prop_view := 0; prop_hash := EMPTY_HASH |}.

Inductive ProtocolMsg :=
  | NewProposal (p : Propose) (b : Block) (batch : CachedBatch Transaction)
  | VoteMsg (c : Certificate) (p : Propose)
  | EquivcationBlameMsg (b1 b2 : Block) (c : Certificate)
  | NoProgressBlameMsg (c : Certificate)
  | ChangeView (v : View) (c : Certificate)
  | QuitViewMsg (v : View) (c : Certificate)
  | StatusMsg (c : Certificate).

Inductive ClientMsg :=
  | NewBlock (b : Block) (tx_hashes : list Hash) (p : Payload)
  | Request (h : Hash)
  | Response (h : Hash) (b : Block).
End messages.

Section synchs.
Context `{Bincode} `{Store} `{NetOracle} `{DelayQueue Propose}.

Abbreviation Batch := (CachedBatch Transaction).

(** ** node/context.rs

    [now] is the clock the delay queue reads, in milliseconds.  The control
    channel to the mempool is never written to and is left out. *)
Record Context := mkContext {
  consensus_net : Net ProtocolMsg;
  client_net : Net ClientMsg;
  broadcast_peers : list Replica;
  all_clients : list ClientId;
  batches : Batches;
  pending_batches : list (Hash * Batch);
  num_nodes : N;
  myid : Replica;
  num_faults : N;
  payload : N;
  my_secret_key : Keypair;
  pub_key_map : gmap Replica PublicKey;
  storage : Storage Block;
  cert_map : gmap Hash Certificate;
  height : Height;
  last_leader : Replica;
  last_seen_block : Block;
  last_seen_cert : Certificate;
  last_committed_block_ht : Height;
  vote_map : gmap Hash Certificate;
  view : View;
  commit_queue : dqueue Propose;
  now : N;
}.

#[export] Instance eta_Context : Eta Context := λ x,
  mkContext (consensus_net x) (client_net x) (broadcast_peers x) (all_clients x) (batches x)
    (pending_batches x) (num_nodes x) (myid x) (num_faults x) (payload x) (my_secret_key x)
    (pub_key_map x) (storage x) (cert_map x) (height x) (last_leader x) (last_seen_block x)
    (last_seen_cert x) (last_committed_block_ht x) (vote_map x) (view x) (commit_queue x)
    (now x).

(** [None] is a panic while decoding the keys. *)
Definition context_new (config : Node) (bs : Batches) (start : N) : option Context :=
  match decode_secret config, decode_public_keys config (λ _, true) with
  | Some sk, Some pks => Some {|
      consensus_net := net_new;
      client_net := net_new;
      broadcast_peers := broadcast_list config;
      all_clients := (map_to_list (client_net_map config)).*1;
      batches := bs;
      pending_batches := [];
      num_nodes := Config.num_nodes config;
      myid := Config.id config;
      num_faults := Config.num_faults config;
      payload := wrap64 (payload_size config * Config.block_size config);
      my_secret_key := sk;
      pub_key_map := pks;
      storage := add_committed_block GENESIS_BLOCK (add_delivered_block GENESIS_BLOCK storage_new);
      cert_map := {[ block_hash GENESIS_BLOCK := empty_cert ]};
      height := 0;
      last_leader := 0;
      last_seen_block := GENESIS_BLOCK;
      last_seen_cert := empty_cert;
      last_committed_block_ht := 0;
      vote_map := ∅;
      view := 0;
      commit_queue := dq_new;
      now := start |}
  | _, _ => None
  end.

Definition next_leader (cx : Context) : Replica := last_leader cx.

(** [None] is a remainder by zero. *)
Definition leader_of_view (cx : Context) : option Replica :=
  if (num_nodes cx =? 0)%N then None else Some (as_u16 (view cx mod num_nodes cx)).

Definition multicast (msg : ProtocolMsg) : M Context unit := modify (λ cx,
  cx <| consensus_net ::= net_broadcast (height cx) (broadcast_peers cx) msg |>).

Definition multicast_client (msg : ClientMsg) : M Context unit := modify (λ cx,
  if bool_decide (all_clients cx = []) then cx
  else cx <| client_net ::= net_broadcast (height cx) (all_clients cx) msg |>).

Definition persist_batch (h : Hash) (batch : Batch) : M Context unit :=
  modify (λ cx, cx <| batches ::= batches_persist h batch |>).

Definition read_batch (h : Hash) : M Context (option Batch) := λ cx,
  let '(r, bs) := batches_read h (batches cx) in Done r (cx <| batches := bs |>).

Definition gc_handlers (cx : Context) : Context :=
  cx <| consensus_net ::= net_gc |> <| client_net ::= net_gc |>.

(** ** node/proposal.rs *)

(** The loop over the votes of a certificate: the signers, or [None] at the
    first vote that is not one. *)
Fixpoint check_votes (keys : gmap Replica PublicKey) (data : bytes) (vs : list Vote)
    (uniq : gset Replica) : option (gset Replica) :=
  match vs with
  | [] => Some uniq
  | v :: vs' =>
      match keys !! origin v with
      | None => None
      | Some pk => if pk_verify pk data (auth v)
                   then check_votes keys data vs' (uniq ∪ {[ origin v ]}) else None
      end
  end.

Definition check_proposal (p : Propose) (new_block : Block) : M Context bool :=
  let! cx := get in
  if bool_decide (block_hash new_block ≠ prop_hash p) then ret false else
  let! leader := unwrap "attempt to calculate the remainder with a divisor of zero"
                   (leader_of_view cx) in
  if negb (author (header new_block) =? leader)%N then ret false
  else if (Types.height (header new_block) =? 1)%N &&
          bool_decide (prev (header new_block) ≠ EMPTY_HASH) then ret false
  else if (1 <? Types.height (header new_block))%N &&
          (N.of_nat (length (votes (cert p))) <=? num_faults cx)%N then ret false
  else
    let! pk := unwrap "called `Option::unwrap()` on a `None` value"
                 (pub_key_map cx !! author (header new_block)) in
    if negb (pk_verify pk (hash_as_ref (block_hash new_block)) (proof p)) then ret false
    else if negb (view cx =? prop_view p)%N
    then panic "This view check should be unreachable"
    else if (Types.height (header new_block) =? 1)%N then ret true
    else
      match cert_msg (cert p) with
      | CTVote _ h =>
          if bool_decide (h ≠ prev (header new_block)) then ret false
          else match check_votes (pub_key_map cx) (ser_cert_type (cert_msg (cert p)))
                       (votes (cert p)) ∅ with
               | None => ret false
               | Some uniq_votes =>
                   if (N.of_nat (size uniq_votes) <? num_faults cx)%N then ret false
                   else if bool_decide (prev (header new_block) ≠
                                        block_hash (last_seen_block cx)) then ret false
                   else ret true
               end
      | _ => ret false
      end.

Definition check_batch_hash (block : Block) (batch : Batch) : bool :=
  bool_decide (hash batch = batch_hash (body block)).

(** A vote of this node for [h]. *)
Definition own_vote (why : string) (h : Hash) : M Context Certificate :=
  let! cx := get in
  let msg := CTVote (view cx) h in
  let! s := unwrap why (sk_sign (my_secret_key cx) (ser_cert_type msg)) in
  ret {| cert_msg := msg; votes := [{| origin := myid cx; auth := s |}] |}.

Definition on_new_valid_proposal (p : Propose) (new_block : Block) : M Context bool :=
  let! cx := get in
  if negb (is_delivered_by_hash (storage cx) (prev (header new_block))) then ret false
  else
    let! my_vote := own_vote "Failed to sign a vote" (block_hash new_block) in
    modify (λ cx, cx <| storage ::= add_delivered_block new_block |>);;;
    modify (λ cx, cx <| height := Types.height (header new_block) |>);;;
    modify (λ cx, cx <| last_seen_block := new_block |>);;;
    modify (λ cx, cx <| last_seen_cert := cert p |>);;;
    multicast (VoteMsg my_vote p);;;
    ret true.

Definition on_receive_proposal (p : Propose) (new_block : Block) (batch : Batch)
    : M Context bool :=
  let! cx := get in
  if is_delivered_by_hash (storage cx) (block_hash new_block) then ret false
  else
    let! ok := check_proposal p new_block in
    if negb ok then ret false
    else if negb (check_batch_hash new_block batch) then ret false
    else
      persist_batch (batch_hash (body new_block)) batch;;;
      on_new_valid_proposal p new_block.

(** The block a leader builds on [parent]. *)
Definition block_on (parent : Block) (bh : Hash) (me : Replica) : Block :=
  init (with_batch bh <| header ::= λ h,
    h <| author := me |> <| prev := block_hash parent |>
      <| Types.height := add64 (Types.height (header parent)) 1 |> |>).

(** `new_block_cert`, this node's vote for its own block, is built and
    dropped. *)
Definition do_propose (bh : Hash) (batch : Batch) : M Context (option (Propose * Block)) :=
  let! cx := get in
  let parent := last_seen_block cx in
  let new_block := block_on parent bh (myid cx) in
  let! proof := unwrap "Failed to sign the new proposal"
                  (sk_sign (my_secret_key cx) (hash_as_ref (block_hash new_block))) in
  let! new_block_cert := own_vote "Failed to sign the new proposal" (block_hash new_block) in
  let! c := unwrap "Must call propose only if the parent is certified"
              (cert_map cx !! block_hash parent) in
  let p := {| proof := proof; prop_hash := block_hash new_block; cert := c;
              prop_view := view cx |} in
  modify (λ cx, cx <| storage ::= add_delivered_block new_block |>);;;
  multicast (NewProposal p new_block batch);;;
  ret (Some (p, new_block)).

(** ** node/vote.rs *)

(** The vote of [c] moved to the end of [into]. *)
Definition push_vote (c into : Certificate) : M Context Certificate :=
  let! v := unwrap "called `Option::unwrap()` on a `None` value" (last (votes c)) in
  ret {| cert_msg := cert_msg into; votes := votes into ++ [v] |}.

Definition add_vote (c : Certificate) (h : Hash) : M Context unit :=
  let! cx := get in
  if bool_decide (is_Some (cert_map cx !! h)) then ret tt
  else
    match vote_map cx !! h with
    | None => modify (λ cx, cx <| vote_map ::= insert h c |>)
    | Some old =>
        modify (λ cx, cx <| vote_map ::= delete h |>);;;
        let! full := push_vote c old in
        if (num_faults cx <? N.of_nat (length (votes full)))%N then
          modify (λ cx, cx <| cert_map ::= insert h full |>);;;
          modify (λ cx, cx <| last_seen_cert := full |>)
        else modify (λ cx, cx <| vote_map ::= insert h full |>)
    end.

(** The checks of `on_vote`: the block voted for, or [None] when the vote
    is dropped. *)
Definition vote_target (c : Certificate) (p : Propose) : M Context (option Hash) :=
  let! cx := get in
  match votes c with
  | [vote] =>
      match pub_key_map cx !! origin vote with
      | None => ret None
      | Some pk =>
          match cert_msg c with
          | CTVote _ d =>
              if bool_decide (d ≠ prop_hash p) then ret None
              else if negb (pk_verify pk (ser_cert_type (cert_msg c)) (auth vote))
              then ret None
              else if negb (is_delivered_by_hash (storage cx) d) then ret None
              else
                let! new_block := unwrap "called `Option::unwrap()` on a `None` value"
                                    (delivered_block_from_hash (storage cx) d) in
                match delivered_block_from_ht (storage cx)
                        (Types.height (header new_block)) with
                | Some x => if bool_decide (block_hash x ≠ d) then ret None else ret (Some d)
                | None => ret (Some d)
                end
          | _ => panic "internal error: entered unreachable code: other vote types cant be here"
          end
      end
  | _ => ret None
  end.

Definition on_vote (c : Certificate) (p : Propose) : M Context bool :=
  let! o := vote_target c p in
  match o with
  | None => ret false
  | Some h => add_vote c h;;; ret false
  end.

(** ** node/commit.rs *)
Definition on_commit (p : Propose) : M Context unit :=
  let! cx := get in
  match delivered_block_from_hash (storage cx) (prop_hash p) with
  | None => ret tt
  | Some b =>
      if is_committed_by_hash (storage cx) (block_hash b) then ret tt
      else
        modify (λ cx, cx <| last_committed_block_ht := Types.height (header b) |>);;;
        modify (λ cx, cx <| storage ::= add_committed_block b |>);;;
        let! o := read_batch (batch_hash (body b)) in
        let txs := match o with Some batch => tx_hashes batch | None => [] end in
        let! cx := get in
        multicast_client (NewBlock b txs (with_payload (N.to_nat (payload cx))));;;
        modify gc_handlers
  end.

(** ** node/reactor.rs

    A turn of the `select!` loop; the value says whether the reactor goes
    on.  [EvTimer] polls the delay queue; nothing happens when nothing is
    due. *)
Inductive event :=
  | EvMsg (msg : ProtocolMsg)
  | EvUndecodable
  | EvNetClosed
  | EvBatch (bh : Hash) (batch : Batch)
  | EvMempoolClosed
  | EvTimer
  | EvTimerError.

Definition queue_commit (p : Propose) (d2 : N) : M Context unit :=
  modify (λ cx, cx <| commit_queue ::= dq_insert (now cx) p d2 |>).

Definition leader_step (d2 : N) : M Context bool :=
  let! cx := get in
  match pending_batches cx with
  | (bh, batch) :: rest =>
      if (next_leader cx =? myid cx)%N &&
         bool_decide (is_Some (cert_map cx !! block_hash (last_seen_block cx))) then
        modify (λ cx, cx <| pending_batches := rest |>);;;
        let! o := do_propose bh batch in
        match o with
        | Some (p, _) => queue_commit p d2
        | None => ret tt
        end;;;
        ret true
      else ret false
  | [] => ret false
  end.

Definition leader_drain (d2 : N) : M Context unit :=
  let! cx := get in loop (S (length (pending_batches cx))) (leader_step d2).

Definition react (d2 : N) (ev : event) : M Context bool :=
  match ev with
  | EvMsg msg =>
      match msg with
      | NewProposal p b batch =>
          let! decision := on_receive_proposal p b batch in
          if decision then queue_commit p d2 else ret tt
      | VoteMsg v p => on_vote v p;;; ret tt
      | _ => ret tt
      end;;;
      leader_drain d2;;; ret true
  | EvUndecodable => ret true
  | EvNetClosed => ret false
  | EvBatch bh batch =>
      modify (λ cx, cx <| pending_batches ::= λ l, l ++ [(bh, batch)] |>);;;
      leader_drain d2;;; ret true
  | EvMempoolClosed => ret false
  | EvTimer =>
      let! cx := get in
      match dq_poll (now cx) (commit_queue cx) with
      | None => ret true
      | Some (p, q) =>
          modify (λ cx, cx <| commit_queue := q |>);;;
          on_commit p;;;
          leader_drain d2;;; ret true
      end
  | EvTimerError => ret true
  end.

(** A turn at a time (the clock never goes back), or a batch the mempool
    tasks sealed into the shared cache and store. *)
Inductive input :=
  | Turn (at_ : N) (ev : event)
  | Sealed (h : Hash) (batch : Batch).

Definition take_input (d2 : N) (i : input) : M Context bool :=
  match i with
  | Turn t ev => modify (λ cx, cx <| now ::= N.max t |>);;; react d2 ev
  | Sealed h batch => persist_batch h batch;;; ret true
  end.

Fixpoint run (d2 : N) (ins : list input) : M Context unit :=
  match ins with
  | [] => ret tt
  | i :: ins' => let! go := take_input d2 i in if go then run d2 ins' else ret tt
  end.

(** `Duration::from_millis(2 * config.delta)`. *)
Definition two_delta (config : Node) : N := wrap64 (2 * delta config).
End synchs.
End SyncHS.
