(* ===== verification/OptSync.v ===== *)
(** * The Opt Sync node (consensus/optsync/src/node)

    The crate is Sync HotStuff with responsive commits: a block with votes
    from three quarters of the nodes is committed at once.  Its `Context` has
    the fields of Sync HotStuff's and two more; the functions whose text is
    the same in both crates are the ones of SyncHS.v, run on the common
    fields. *)

From S2P Require Import Prelude Crypto Types Config Batch NodeIO SyncHS.

(** A handler of a part of the state. *)
Definition zoom {S T A} (part : S → T) (put : T → S → S) (m : M T A) : M S A := λ s,
  match m (part s) with
  | Done a t => Done a (put t s)
  | Panicked why => Panicked why
  | OutOfFuel => OutOfFuel
  end.

Lemma wpp_zoom {S T A pn} (part : S → T) put (m : M T A) Φ s :
  wpp pn m (λ a t, Φ a (put t s)) (part s) → wpp pn (zoom part put m) Φ s.
Proof. unfold wpp, zoom. by destruct (m (part s)). Qed.

Module OptSync.
Import SyncHS (Propose, ProtocolMsg, NewProposal, VoteMsg, prop_hash, mkPropose, cert, block_on,
  EvMsg, EvUndecodable, EvNetClosed, EvBatch, EvMempoolClosed, EvTimer, EvTimerError, event,
  input, Turn, Sealed).
#[local] Existing Instance SyncHS.eta_Context.

Section optsync.
Context `{Bincode} `{Store} `{NetOracle} `{DelayQueue Propose}.

Abbreviation Batch := (CachedBatch Transaction).

(** ** node/context.rs *)
Record Context := mkContext {
  base : SyncHS.Context;
  d2 : N;
  resp_cert : gmap Hash Certificate;
}.
#[export] Instance eta_Context : Eta Context := λ x, mkContext (base x) (d2 x) (resp_cert x).

(** What the two crates have in common. *)
Definition common {A} (m : M SyncHS.Context A) : M Context A :=
  zoom base (λ b cx, cx <| base := b |>) m.

Definition context_new (config : Node) (bs : Batches) (start : N) : option Context :=
  match SyncHS.context_new config bs start with
  | Some b => Some {| base := b; d2 := SyncHS.two_delta config; resp_cert := ∅ |}
  | None => None
  end.

Definition next_leader (cx : Context) : Replica := SyncHS.next_leader (base cx).
Definition multicast (msg : ProtocolMsg) : M Context unit := common (SyncHS.multicast msg).
Definition persist_batch (h : Hash) (batch : Batch) : M Context unit :=
  common (SyncHS.persist_batch h batch).

Definition leader_of_view (cx : Context) : option Replica := SyncHS.leader_of_view (base cx).
Definition multicast_client (msg : SyncHS.ClientMsg) : M Context unit := common (SyncHS.multicast_client msg).
Definition read_batch (h : Hash) : M Context (option Batch) := common (SyncHS.read_batch h).
Definition gc_handlers (cx : Context) : Context := cx <| base ::= SyncHS.gc_handlers |>.

(** ** node/proposal.rs *)
Definition check_proposal (p : Propose) (new_block : Block) : M Context bool :=
  common (SyncHS.check_proposal p new_block).

Definition check_batch_hash (block : Block) (batch : Batch) : bool :=
  bool_decide (hash batch = batch_hash (body block)).

(** The vote is filed before the block is delivered. *)
Definition on_new_valid_proposal (p : Propose) (new_block : Block) : M Context bool :=
  let! cx := get in
  if negb (is_delivered_by_hash (SyncHS.storage (base cx)) (prev (header new_block)))
  then ret false
  else
    let! my_vote := common (SyncHS.own_vote "Failed to sign a vote" (block_hash new_block)) in
    match SyncHS.vote_map (base cx) !! prop_hash p with
    | Some _ => panic "Already have a vote"
    | None =>
        common (
          modify (λ cx, cx <| SyncHS.vote_map ::= insert (prop_hash p) my_vote |>);;;
          modify (λ cx, cx <| SyncHS.storage ::= add_delivered_block new_block |>);;;
          modify (λ cx, cx <| SyncHS.height := height (header new_block) |>);;;
          modify (λ cx, cx <| SyncHS.last_seen_block := new_block |>);;;
          modify (λ cx, cx <| SyncHS.last_seen_cert := cert p |>);;;
          SyncHS.multicast (VoteMsg my_vote p));;;
        ret true
    end.

Definition on_receive_proposal (p : Propose) (new_block : Block) (batch : Batch)
    : M Context bool :=
  let! cx := get in
  if is_delivered_by_hash (SyncHS.storage (base cx)) (block_hash new_block) then ret false
  else
    let! ok := check_proposal p new_block in
    if negb ok then ret false
    else if negb (check_batch_hash new_block batch) then ret false
    else
      persist_batch (batch_hash (body new_block)) batch;;;
      on_new_valid_proposal p new_block.

Definition queue_commit (p : Propose) : M Context unit :=
  let! cx := get in common (SyncHS.queue_commit p (d2 cx)).

Definition do_propose (bh : Hash) (batch : Batch) : M Context (option Propose) :=
  let! cx := get in
  let parent := SyncHS.last_seen_block (base cx) in
  let new_block := block_on parent bh (SyncHS.myid (base cx)) in
  let! proof := unwrap "Failed to sign the new proposal"
    (sk_sign (SyncHS.my_secret_key (base cx)) (hash_as_ref (block_hash new_block))) in
  let! new_block_cert :=
    common (SyncHS.own_vote "Failed to sign the new proposal" (block_hash new_block)) in
  let! c := unwrap "Must call propose only if the parent is certified"
              (SyncHS.cert_map (base cx) !! block_hash parent) in
  let p := mkPropose proof c (SyncHS.view (base cx)) (block_hash new_block) in
  common (
    modify (λ cx, cx <| SyncHS.storage ::= add_delivered_block new_block |>);;;
    modify (λ cx, cx <| SyncHS.vote_map ::= insert (block_hash new_block) new_block_cert |>);;;
    modify (λ cx, cx <| SyncHS.height := height (header new_block) |>);;;
    modify (λ cx, cx <| SyncHS.last_seen_block := new_block |>);;;
    modify (λ cx, cx <| SyncHS.last_committed_block_ht := SyncHS.height cx |>);;;
    SyncHS.multicast (NewProposal p new_block batch));;;
  queue_commit p;;;
  ret (Some p).

(** ** node/vote.rs *)
Definition add_vote (c : Certificate) (h : Hash) : M Context bool :=
  let! cx := get in
  match SyncHS.vote_map (base cx) !! h with
  | None =>
      common (modify (λ cx, cx <| SyncHS.vote_map ::= insert h c |>));;; ret false
  | Some old =>
      common (modify (λ cx, cx <| SyncHS.vote_map ::= delete h |>));;;
      let! full := common (SyncHS.push_vote c old) in
      let n := N.of_nat (length (votes full)) in
      let commit_decision := (wrap64 (3 * SyncHS.num_nodes (base cx)) / 4 <=? n)%N in
      (if commit_decision
       then modify (λ cx, cx <| resp_cert ::= insert h full |>) else ret tt);;;
      (if (SyncHS.num_faults (base cx) <? n)%N then
         common (modify (λ cx, cx <| SyncHS.cert_map ::= insert h full |>);;;
                 modify (λ cx, cx <| SyncHS.last_seen_cert := full |>))
       else ret tt);;;
      common (modify (λ cx, cx <| SyncHS.vote_map ::= insert h full |>));;;
      ret commit_decision
  end.

Definition on_vote (c : Certificate) (p : Propose) : M Context bool :=
  let! o := common (SyncHS.vote_target c p) in
  match o with
  | None => ret false
  | Some h =>
      let! cx := get in
      if bool_decide (is_Some (resp_cert cx !! h)) then ret false else add_vote c h
  end.

(** ** node/commit.rs *)
Definition on_commit (p : Propose) : M Context unit := common (SyncHS.on_commit p).

(** Its text, in the methods of this crate's `Context`. *)
Lemma on_commit_text p cx :
  on_commit p cx =
    match delivered_block_from_hash (SyncHS.storage (base cx)) (prop_hash p) with
    | None => Done tt cx
    | Some b =>
        if is_committed_by_hash (SyncHS.storage (base cx)) (block_hash b) then Done tt cx
        else
          (modify (λ cx, cx <| base ::= λ c, c <| SyncHS.last_committed_block_ht := height (header b) |>
                                             <| SyncHS.storage ::= add_committed_block b |> |>);;;
           let! o := read_batch (batch_hash (body b)) in
           let txs := match o with Some batch => tx_hashes batch | None => [] end in
           multicast_client (SyncHS.NewBlock b txs (with_payload (N.to_nat (SyncHS.payload (base cx)))));;;
           modify gc_handlers) cx
    end.
Proof.
  destruct cx as [c d r]. unfold on_commit, common, zoom, SyncHS.on_commit, bind, get. simpl.
  destruct (delivered_block_from_hash _ _) as [b|]; [|done].
  destruct (is_committed_by_hash _ _); [done|].
  unfold read_batch, multicast_client, SyncHS.read_batch, SyncHS.multicast_client, common, zoom, modify.
  simpl. destruct (batches_read _ _) as [o bs]. done.
Qed.

(** ** node/process.rs *)
Definition process_msg (msg : ProtocolMsg) : M Context unit :=
  match msg with
  | NewProposal p b batch =>
      let! decision := on_receive_proposal p b batch in
      if decision then queue_commit p else ret tt
  | VoteMsg v p =>
      let! decision := on_vote v p in
      if decision then on_commit p else ret tt
  | _ => ret tt
  end.

(** ** node/reactor.rs *)
Definition leader_step : M Context bool :=
  let! cx := get in
  match SyncHS.pending_batches (base cx) with
  | (bh, batch) :: rest =>
      if (next_leader cx =? SyncHS.myid (base cx))%N &&
         bool_decide (is_Some (SyncHS.cert_map (base cx) !!
                               block_hash (SyncHS.last_seen_block (base cx)))) then
        common (modify (λ cx, cx <| SyncHS.pending_batches := rest |>));;;
        do_propose bh batch;;; ret true
      else ret false
  | [] => ret false
  end.

Definition leader_drain : M Context unit :=
  let! cx := get in loop (S (length (SyncHS.pending_batches (base cx)))) leader_step.

Definition react (ev : event) : M Context bool :=
  match ev with
  | EvMsg msg => process_msg msg;;; leader_drain;;; ret true
  | EvUndecodable => ret true
  | EvNetClosed => ret false
  | EvBatch bh batch =>
      common (modify (λ cx, cx <| SyncHS.pending_batches ::= λ l, l ++ [(bh, batch)] |>));;;
      leader_drain;;; ret true
  | EvMempoolClosed => ret false
  | EvTimer =>
      let! cx := get in
      match dq_poll (SyncHS.now (base cx)) (SyncHS.commit_queue (base cx)) with
      | None => ret true
      | Some (p, q) =>
          common (modify (λ cx, cx <| SyncHS.commit_queue := q |>));;;
          on_commit p;;;
          leader_drain;;; ret true
      end
  | EvTimerError => ret true
  end.

Definition take_input (i : input) : M Context bool :=
  match i with
  | Turn t ev => common (modify (λ cx, cx <| SyncHS.now ::= N.max t |>));;; react ev
  | Sealed h batch => persist_batch h batch;;; ret true
  end.

Fixpoint run (ins : list input) : M Context unit :=
  match ins with
  | [] => ret tt
  | i :: ins' => let! go := take_input i in if go then run ins' else ret tt
  end.
End optsync.
End OptSync.
