(* ===== verification/SyncHSProofs.v ===== *)
(** * Sync HotStuff: what a node accepts, certifies and commits

    The invariant of a run, the exact conditions under which a proposal is
    accepted, and the 2Δ wait before a commit.  The lemmas on the functions
    that Opt Sync shares are used again in OptSyncProofs.v. *)

From S2P Require Import Prelude Crypto Types Config Storage Batch NodeIO SyncHS.

Module SyncHSProofs.
Import SyncHS.

Section checks.
Context `{Bincode} `{Store} `{NetOracle} `{DelayQueue Propose}.
Implicit Types (cx : Context) (p : Propose) (b : Block).

(** [v] is signed over [data] by the replica it names. *)
Definition signed_by (keys : gmap Replica PublicKey) (data : bytes) (v : Vote) : Prop :=
  ∃ pk, keys !! origin v = Some pk ∧ pk_verify pk data (auth v) = true.

Lemma check_votes_spec keys data vs u u' :
  check_votes keys data vs u = Some u' ↔
  Forall (signed_by keys data) vs ∧ u' = u ∪ list_to_set (origin <$> vs).
Proof.
  revert u. induction vs as [|v vs IH]; intros u; simpl.
  { rw right_id_L. split; [intros [= ->]; by split|]. by intros [_ ->]. }
  rw Forall_cons. unfold signed_by at 1. destruct (keys !! origin v) as [pk|];
    [|split; [done|]; by intros [[(? & ? & _) _] _]].
  destruct (pk_verify pk data (auth v)) eqn:E;
    [|split; [done|]; intros [[(? & [= ->] & ?) _] _]; congruence].
  rw IH assoc_L. split; [intros [? ->]; eauto|]. by intros [[_ ?] ->].
Qed.

(** What a follower asks of a proposal that names its view. *)
Record acceptable cx (leader : Replica) (pk : PublicKey) p b : Prop := {
  ac_hash : block_hash b = prop_hash p;
  ac_author : author (header b) = leader;
  ac_signed : pk_verify pk (hash_as_ref (block_hash b)) (proof p) = true;
  ac_chain :
    (Types.height (header b) = 1%N ∧ prev (header b) = EMPTY_HASH) ∨
    (Types.height (header b) ≠ 1%N ∧
     ((1 < Types.height (header b))%N → (num_faults cx < N.of_nat (length (votes (cert p))))%N) ∧
     (∃ w, cert_msg (cert p) = CTVote w (prev (header b))) ∧
     Forall (signed_by (pub_key_map cx) (ser_cert_type (cert_msg (cert p)))) (votes (cert p)) ∧
     (num_faults cx ≤
        N.of_nat (size (list_to_set (origin <$> votes (cert p)) : gset Replica)))%N ∧
     prev (header b) = block_hash (last_seen_block cx));
}.

Lemma cert_branch cx p b r :
  (match cert_msg (cert p) with
   | CTVote _ h =>
       if bool_decide (h ≠ prev (header b)) then ret false
       else match check_votes (pub_key_map cx) (ser_cert_type (cert_msg (cert p)))
                    (votes (cert p)) ∅ with
            | None => ret false
            | Some uniq_votes =>
                if (N.of_nat (size uniq_votes) <? num_faults cx)%N then ret false
                else if bool_decide (prev (header b) ≠ block_hash (last_seen_block cx))
                then ret false else ret true
            end
   | _ => ret false
   end : M Context bool) cx = Done r cx →
  r = true ↔
    (∃ w, cert_msg (cert p) = CTVote w (prev (header b))) ∧
    Forall (signed_by (pub_key_map cx) (ser_cert_type (cert_msg (cert p)))) (votes (cert p)) ∧
    (num_faults cx ≤
       N.of_nat (size (list_to_set (origin <$> votes (cert p)) : gset Replica)))%N ∧
    prev (header b) = block_hash (last_seen_block cx).
Proof.
  destruct (cert_msg (cert p)) as [|w h| |] eqn:Em;
    try by (intros [= <-]; split; [done|intros ((? & ?) & _); congruence]).
  case_bool_decide as Hh; [intros [= <-]; split; [done|naive_solver]|].
  destruct (check_votes _ _ _ ∅) as [u|] eqn:Ev.
  - apply check_votes_spec in Ev as [Hv ->]. rw left_id_L.
    case_eq (N.of_nat (size (list_to_set (origin <$> votes (cert p)) : gset Replica)) <?
      num_faults cx)%N; [intros Hn%N.ltb_lt [= <-]; split; [done|lia]|intros Hn%N.ltb_ge].
    case_bool_decide as Hp; intros [= <-]; split; try done; [naive_solver|].
    intros _. subst h. eauto.
  - intros [= <-]. split; [done|]. intros (_ & Hv & _).
    assert (check_votes (pub_key_map cx) (ser_cert_type (CTVote w h)) (votes (cert p)) ∅ =
      Some (∅ ∪ list_to_set (origin <$> votes (cert p)))) as E'; [|congruence].
    by apply check_votes_spec.
Qed.

(** C25.  `check_proposal` decides [acceptable]: for a proposal of the node's
    view it returns, leaves the state alone, and answers yes exactly when
    the block is the one proposed, is authored and signed by the leader of
    the view, and either is a first block on the genesis hash or comes with
    enough valid votes for its parent, the block this node saw last. *)
Theorem check_proposal_exact cx leader pk p b :
  leader_of_view cx = Some leader → pub_key_map cx !! leader = Some pk →
  prop_view p = view cx →
  ∃ r, check_proposal p b cx = Done r cx ∧ (r = true ↔ acceptable cx leader pk p b).
Proof.
  intros El Ek Ev. unfold check_proposal, bind, get.
  case_bool_decide as Hh; [eexists; split; [done|]; split; [done|]; by intros []|].
  rw El /=.
  case_eq (author (header b) =? leader)%N; [intros Ha%N.eqb_eq|intros Ha%N.eqb_neq]; simpl;
    [|eexists; split; [done|]; split; [done|]; by intros []].
  set (h1 := (Types.height (header b) =? 1)%N).
  case_eq (h1 && bool_decide (prev (header b) ≠ EMPTY_HASH));
    [intros [E1 E2]%andb_true_iff|intros E1].
  { eexists; split; [done|]. split; [done|]. intros [_ _ _ [[? ?]|[? _]]].
    - by apply bool_decide_eq_true in E2. - by apply N.eqb_eq in E1. }
  case_eq ((1 <? Types.height (header b))%N &&
    (N.of_nat (length (votes (cert p))) <=? num_faults cx)%N);
    [intros [E2%N.ltb_lt E3%N.leb_le]%andb_true_iff|intros E2].
  { eexists; split; [done|]. split; [done|]. intros [_ _ _ [[? ?]|(_ & Hl & _)]]; [lia|].
    specialize (Hl E2). lia. }
  rw Ha Ek /=. destruct (pk_verify _ _ _) eqn:Es; simpl;
    [|eexists; split; [done|]; split; [done|]; intros [_ _ Es' _]; congruence].
  rw Ev N.eqb_refl /=. destruct h1 eqn:Eh1; unfold h1 in Eh1.
  { exists true. split; [done|]. split; [intros _|done]. apply N.eqb_eq in Eh1.
    rw andb_true_l in E1. apply bool_decide_eq_false, dec_stable in E1. split; eauto. }
  apply N.eqb_neq in Eh1.
  match goal with |- ∃ r, ?m cx = _ ∧ _ =>
    assert (∃ r, m cx = Done r cx) as (r & Er)
      by (repeat case_match; eexists; reflexivity) end.
  exists r. split; [exact Er|]. rw (cert_branch _ _ _ _ Er). split.
  - intros (? & ? & ? & ?). split; [done..|]. right. split; [done|]. split; [|done].
    intros Hgt%N.ltb_lt. rw Hgt andb_true_l in E2. by apply N.leb_gt.
  - intros [_ _ _ [[? _]|(_ & _ & ?)]]; [done|naive_solver].
Qed.
End checks.

Section invariant.
Context `{Bincode} `{Store} `{NetOracle} `{DelayQueue Propose} `{!DelayQueueLaws Propose}.
Implicit Types (cx : Context) (p : Propose) (b : Block) (pn : Prop).

Abbreviation delivered cx h := (is_Some (all_delivered_blocks_by_hash (storage cx) !! h)).
Abbreviation committed cx := (committed_blocks_by_hash (storage cx)).

(** A vote for [h] in some view: signed by the replica it names, or made
    with this node's own key. *)
Definition genuine cx (h : Hash) (v : Vote) : Prop :=
  ∃ w, let data := ser_cert_type (CTVote w h) in
    signed_by (pub_key_map cx) data v ∨
    (origin v = myid cx ∧ sk_sign (my_secret_key cx) data = Some (auth v)).

Record index_ok cx : Prop := {
  io_storage : storage_wf (storage cx);
  io_parents : parents_delivered (storage cx);
  io_last : delivered cx (block_hash (last_seen_block cx));
  io_votes : ∀ h c, vote_map cx !! h = Some c →
    delivered cx h ∧ Forall (genuine cx h) (votes c);
  io_certs : ∀ h c, cert_map cx !! h = Some c → delivered cx h ∧
    (h = block_hash GENESIS_BLOCK ∨
     (num_faults cx < N.of_nat (length (votes c)))%N ∧ Forall (genuine cx h) (votes c));
  io_queue : ∀ due p, (due, p) ∈ dq_entries (commit_queue cx) → delivered cx (prop_hash p);
}.

(** What keeps a turn from panicking, the messages apart. *)
Record calm cx : Prop := {
  calm_nodes : num_nodes cx ≠ 0%N;
  calm_keys : ∀ r, leader_of_view cx = Some r → is_Some (pub_key_map cx !! r);
  calm_sign : ∀ m, is_Some (sk_sign (my_secret_key cx) m);
}.

Record inv pn cx : Prop := {
  inv_index : index_ok cx;
  inv_calm : pn ∨ calm cx;
}.

Definition static cx :=
  (num_nodes cx, num_faults cx, myid cx, pub_key_map cx, my_secret_key cx, view cx,
   last_leader cx, broadcast_peers cx, all_clients cx).

(** What a handler that commits nothing does to the rest: blocks are only
    added, and what enters the queue is due [d2] later. *)
Record advances (d2 : N) cx cx' : Prop := {
  ad_static : static cx' = static cx;
  ad_now : now cx' = now cx;
  ad_delivered : ∀ h, delivered cx h → delivered cx' h;
  ad_committed : committed cx' = committed cx;
  ad_queue : ∀ due p, (due, p) ∈ dq_entries (commit_queue cx') →
    (due, p) ∈ dq_entries (commit_queue cx) ∨
    (due = (now cx + d2)%N ∧ delivered cx' (prop_hash p));
}.
#[export] Instance advances_preorder d2 : PreOrder (advances d2).
Proof.
  split; [split; naive_solver|]. intros c1 c2 c3 [] [].
  split; [congruence..|naive_solver|congruence|]. intros due p Hin.
  destruct (ad_queue1 _ _ Hin) as [Hin'|[-> ?]]; [|right; by rw ad_now0].
  destruct (ad_queue0 _ _ Hin') as [?|[-> ?]]; [by left|right; eauto].
Qed.

(** Everything the invariant talks about. *)
Definition core cx :=
  (static cx, storage cx, cert_map cx, vote_map cx, last_seen_block cx, commit_queue cx,
   now cx).

Ltac by_core :=
  intros Hc; match type of Hc with core ?a = core ?b => destruct a, b end;
  unfold core, static in Hc; simpl in Hc; simplify_eq.

Lemma syn_core_inv pn cx cx' : core cx' = core cx → inv pn cx → inv pn cx'.
Proof.
  by_core. intros [[] Hp]. split; [by split|]. destruct Hp as [|[]]; [by left|right; by split].
Qed.
Lemma syn_core_advances d2 cx cx' : core cx' = core cx → advances d2 cx cx'.
Proof. by_core. split; naive_solver. Qed.

Record progressed pn (d2 : N) cx cx' : Prop := {
  pg_inv : inv pn cx';
  pg_advances : advances d2 cx cx';
}.
Lemma syn_progressed_refl pn d2 cx : inv pn cx → progressed pn d2 cx cx.
Proof. by split. Qed.
Lemma syn_progressed_trans pn d2 cx cx1 cx' :
  progressed pn d2 cx cx1 → progressed pn d2 cx1 cx' → progressed pn d2 cx cx'.
Proof. intros [] []. split; [done|by etrans]. Qed.
Lemma syn_progressed_core pn d2 cx cx' :
  inv pn cx → core cx' = core cx → progressed pn d2 cx cx'.
Proof. intros. split; [by eapply syn_core_inv|by apply syn_core_advances]. Qed.

Lemma genuine_static cx cx' h v : static cx' = static cx → genuine cx h v → genuine cx' h v.
Proof. unfold static, genuine. intros E. destruct cx, cx'; simpl in *. by simplify_eq. Qed.
Lemma calm_static cx cx' : static cx' = static cx → calm cx → calm cx'.
Proof.
  unfold static. intros E []. destruct cx, cx'; simpl in *. simplify_eq. by split.
Qed.

(** ** Single updates *)
Lemma deliver_index cx b ls :
  index_ok cx → delivered cx (prev (header b)) → ls = b ∨ ls = last_seen_block cx →
  index_ok (cx <| storage ::= add_delivered_block b |> <| last_seen_block := ls |>).
Proof.
  intros [] Hp Hls. pose proof (add_delivered_mono b (storage cx)) as Hm. split.
  - by apply add_delivered_block_wf.
  - by apply add_delivered_parents.
  - destruct Hls as [-> | ->]; [exact (add_delivered_self b (storage cx))|exact (Hm _ io_last0)].
  - intros h c [Hd Hg]%io_votes0. exact (conj (Hm _ Hd) Hg).
  - intros h c [Hd Hg]%io_certs0. exact (conj (Hm _ Hd) Hg).
  - intros due p Hin. exact (Hm _ (io_queue0 _ _ Hin)).
Qed.

Lemma deliver_advances d2 cx b ls :
  advances d2 cx (cx <| storage ::= add_delivered_block b |> <| last_seen_block := ls |>).
Proof. split; try done; [exact (add_delivered_mono b (storage cx))|by left]. Qed.

Lemma queue_index cx p d2 :
  index_ok cx → delivered cx (prop_hash p) →
  index_ok (cx <| commit_queue ::= dq_insert (now cx) p d2 |>).
Proof.
  intros [] Hp. split; simpl; try done. intros due p'.
  rw dq_entries_insert elem_of_cons. intros [[= _ ->]|?]; [done|by eapply io_queue0].
Qed.

Lemma queue_advances cx p d2 :
  delivered cx (prop_hash p) →
  advances d2 cx (cx <| commit_queue ::= dq_insert (now cx) p d2 |>).
Proof.
  intros Hp. split; simpl; try done. intros due p'.
  rw dq_entries_insert elem_of_cons. intros [[= -> ->]|?]; [by right|by left].
Qed.

Lemma vote_insert_index cx h c :
  index_ok cx → delivered cx h → Forall (genuine cx h) (votes c) →
  index_ok (cx <| vote_map ::= insert h c |>).
Proof.
  intros [] Hd Hg. split; simpl; try done. intros h' c'.
  rw lookup_insert. case_decide; [intros [= <-]; by subst|apply io_votes0].
Qed.

Lemma vote_delete_index cx h : index_ok cx → index_ok (cx <| vote_map ::= delete h |>).
Proof.
  intros []. split; simpl; try done. intros h' c'. rw lookup_delete.
  case_decide; [done|apply io_votes0].
Qed.

Lemma cert_insert_index cx h c :
  index_ok cx → delivered cx h → (num_faults cx < N.of_nat (length (votes c)))%N →
  Forall (genuine cx h) (votes c) →
  index_ok (cx <| cert_map ::= insert h c |>).
Proof.
  intros [] Hd Hl Hg. split; simpl; try done. intros h' c'.
  rw lookup_insert. case_decide; [intros [= <-]; subst; eauto|apply io_certs0].
Qed.

Lemma index_inv pn cx cx' :
  inv pn cx → static cx' = static cx → index_ok cx' → inv pn cx'.
Proof.
  intros [_ Hp] Hs Hi. split; [done|]. destruct Hp; [by left|right; by eapply calm_static].
Qed.

(** ** The functions *)
Lemma check_proposal_spec pn cx p b :
  inv pn cx → pn ∨ prop_view p = view cx →
  wpp pn (check_proposal p b) (λ ok cx', cx' = cx ∧
    (ok = true → block_hash b = prop_hash p ∧ Some (author (header b)) = leader_of_view cx)) cx.
Proof.
  intros [_ Hp] Hv. unfold check_proposal. apply wpp_bind, wpp_get.
  apply wpp_if; intros Hh; [by apply wpp_ret|].
  apply bool_decide_eq_false, dec_stable in Hh.
  apply wpp_bind, wpp_unwrap; [intros l El|intros El]; last first.
  { destruct Hp as [|[Hn _ _]]; [done|]. unfold leader_of_view in El.
    apply N.eqb_neq in Hn. by rw Hn in El. }
  apply wpp_if; intros Ha; [by apply wpp_ret|]. apply negb_false_iff, N.eqb_eq in Ha.
  do 2 (apply wpp_if; intros _; [by apply wpp_ret|]).
  apply wpp_bind, wpp_unwrap; [intros pk _|intros Ek]; last first.
  { destruct Hp as [|[_ Hk _]]; [done|]. rw Ha in Ek. destruct (Hk _ El). congruence. }
  apply wpp_if; intros _; [by apply wpp_ret|].
  apply wpp_if; intros Hne.
  { apply wpp_panic. destruct Hv as [|Hv]; [done|]. by rw Hv N.eqb_refl in Hne. }
  assert (∀ ok, wpp pn (ret ok) (λ ok cx', cx' = cx ∧ (ok = true →
    block_hash b = prop_hash p ∧ Some (author (header b)) = leader_of_view cx)) cx) as Hr.
  { intros ok. apply wpp_ret. split; [done|]. intros _. split; [done|]. by rw Ha. }
  apply wpp_if; intros _; [apply Hr|]. repeat case_match; apply Hr.
Qed.

Lemma own_vote_spec pn cx why h :
  inv pn cx →
  wpp pn (own_vote why h) (λ c cx', cx' = cx ∧ Forall (genuine cx h) (votes c)) cx.
Proof.
  intros [_ Hp]. unfold own_vote. apply wpp_bind, wpp_get.
  apply wpp_bind, wpp_unwrap; [intros s Es|intros Es]; last first.
  { destruct Hp as [|[_ _ Hs]]; [done|]. destruct (Hs (ser_cert_type (CTVote (view cx) h))).
    congruence. }
  apply wpp_ret. split; [done|]. apply Forall_singleton. exists (view cx). by right.
Qed.

Lemma on_new_valid_spec pn d2 cx p b :
  inv pn cx → block_hash b = prop_hash p →
  wpp pn (on_new_valid_proposal p b) (λ ok cx', progressed pn d2 cx cx' ∧
    (ok = true → delivered cx' (prop_hash p))) cx.
Proof.
  intros Hi Hh. unfold on_new_valid_proposal. apply wpp_bind, wpp_get. apply wpp_if; intros Hd.
  { apply wpp_ret. by split; [apply syn_progressed_refl|]. }
  apply negb_false_iff, is_delivered_spec in Hd.
  apply wpp_bind. eapply wpp_mono; [by apply own_vote_spec|]. intros c ? [-> _]. wpp_go.
  set (cx1 := cx <| storage ::= add_delivered_block b |> <| last_seen_block := b |>).
  assert (progressed pn d2 cx cx1) as Hpg.
  { split; [|apply deliver_advances]. apply (index_inv _ cx); [done..|].
    apply deliver_index; [apply Hi|done|by left]. }
  split.
  - eapply syn_progressed_trans; [exact Hpg|]. apply syn_progressed_core; [apply Hpg|done].
  - intros _. rw -Hh. exact (add_delivered_self b (storage cx)).
Qed.

Lemma syn_receive_spec pn d2 cx p b batch :
  inv pn cx → pn ∨ prop_view p = view cx →
  wpp pn (on_receive_proposal p b batch) (λ ok cx', progressed pn d2 cx cx' ∧
    (ok = true → delivered cx' (prop_hash p))) cx.
Proof.
  intros Hi Hv. assert (progressed pn d2 cx cx) by by apply syn_progressed_refl.
  unfold on_receive_proposal. apply wpp_bind, wpp_get.
  apply wpp_if; intros _; [by apply wpp_ret|].
  apply wpp_bind. eapply wpp_mono; [by apply check_proposal_spec|].
  intros ok cx' [-> Hok]. apply wpp_if; intros Eok; [by apply wpp_ret|].
  apply negb_false_iff in Eok. destruct (Hok Eok) as [Hh _].
  apply wpp_if; intros _; [by apply wpp_ret|]. apply wpp_bind, wpp_modify.
  set (cx1 := cx <| batches ::= _ |>).
  assert (progressed pn d2 cx cx1) as Hpg by by apply syn_progressed_core.
  eapply wpp_mono; [apply on_new_valid_spec; [apply Hpg|done]|].
  intros ok' cx' [? ?]. split; [by eapply syn_progressed_trans|done].
Qed.

Lemma syn_propose_spec pn d2 cx bh batch :
  inv pn cx → is_Some (cert_map cx !! block_hash (last_seen_block cx)) →
  wpp pn (do_propose bh batch) (λ o cx', progressed pn d2 cx cx' ∧
    pending_batches cx' = pending_batches cx ∧
    (∀ p b, o = Some (p, b) → delivered cx' (prop_hash p))) cx.
Proof.
  intros Hi [c Hc]. unfold do_propose. apply wpp_bind, wpp_get. cbv zeta.
  set (nb := block_on _ _ _).
  apply wpp_bind, wpp_unwrap; [intros pr _|intros Es]; last first.
  { destruct (inv_calm _ _ Hi) as [|[_ _ Hs]]; [done|].
    destruct (Hs (hash_as_ref (block_hash nb))). congruence. }
  apply wpp_bind. eapply wpp_mono; [by apply own_vote_spec|]. intros nc ? [-> _].
  rw Hc. wpp_go.
  set (cx1 := cx <| storage ::= add_delivered_block nb |>
                 <| last_seen_block := last_seen_block cx |>).
  assert (progressed pn d2 cx cx1) as Hpg.
  { split; [|apply deliver_advances]. apply (index_inv _ cx); [done..|].
    apply deliver_index; [apply Hi| |by right]. apply (io_last _ (inv_index _ _ Hi)). }
  split; [|split; [done|]].
  - eapply syn_progressed_trans; [exact Hpg|]. apply syn_progressed_core; [apply Hpg|done].
  - intros p b [= <- <-]. exact (add_delivered_self nb (storage cx)).
Qed.

Lemma queue_spec pn d2 cx p :
  inv pn cx → delivered cx (prop_hash p) →
  wpp pn (queue_commit p d2) (λ _ cx', progressed pn d2 cx cx' ∧
    pending_batches cx' = pending_batches cx) cx.
Proof.
  intros Hi Hd. unfold queue_commit. wpp_go. split; [|done]. split; [|by apply queue_advances].
  apply (index_inv _ cx); [done..|]. apply queue_index; [apply Hi|done].
Qed.

Lemma vote_target_spec pn cx c p :
  inv pn cx → pn ∨ (∃ w d, cert_msg c = CTVote w d) →
  wpp pn (vote_target c p) (λ o cx', cx' = cx ∧ ∀ h, o = Some h →
    h = prop_hash p ∧ delivered cx h ∧ ∃ v, votes c = [v] ∧ genuine cx h v) cx.
Proof.
  intros Hi Hm. assert (wpp pn (ret None) (λ (o : option Hash) cx', cx' = cx ∧ ∀ h, o = Some h →
    h = prop_hash p ∧ delivered cx h ∧ ∃ v, votes c = [v] ∧ genuine cx h v) cx) as Hn
    by by apply wpp_ret.
  unfold vote_target. apply wpp_bind, wpp_get.
  destruct (votes c) as [|v [|? ?]] eqn:Ev; [done| |done].
  destruct (pub_key_map cx !! origin v) as [pk|] eqn:Ek; [|done].
  destruct (cert_msg c) as [|w d| |] eqn:Em;
    try by (apply wpp_panic; destruct Hm as [|(? & ? & ?)]).
  apply wpp_if; intros Hd; [done|]. apply bool_decide_eq_false, dec_stable in Hd.
  apply wpp_if; intros Hs; [done|]. apply negb_false_iff in Hs.
  apply wpp_if; intros Hdel; [done|]. apply negb_false_iff, is_delivered_spec in Hdel.
  destruct Hdel as [nb Hnb]. rw Hnb. wpp_go.
  assert (wpp pn (ret (Some d)) (λ o cx', cx' = cx ∧ ∀ h, o = Some h →
    h = prop_hash p ∧ delivered cx h ∧ ∃ v', [v] = [v'] ∧ genuine cx h v') cx) as Hr.
  { apply wpp_ret. split; [done|]. intros h [= <-]. split; [done|]. split; [eauto|].
    exists v. split; [done|]. exists w. left. by exists pk. }
  destruct (delivered_block_from_ht _ _) as [x|]; [|done]. by apply wpp_if.
Qed.

Lemma push_vote_spec pn cx c old v :
  votes c = [v] →
  wpp pn (push_vote c old) (λ full cx', cx' = cx ∧
    full = mkCertificate (cert_msg old) (votes old ++ [v])) cx.
Proof. intros Ev. unfold push_vote. rw Ev. by wpp_go. Qed.

Lemma index_progressed pn d2 cx cx' :
  inv pn cx → index_ok cx' → static cx' = static cx → now cx' = now cx →
  storage cx' = storage cx → commit_queue cx' = commit_queue cx → progressed pn d2 cx cx'.
Proof.
  intros Hi Hx Hs Hn Est Eq. split; [by eapply index_inv|].
  split; [done|done|by rw Est|by rw Est|]. rw Eq. by left.
Qed.

Lemma add_vote_spec pn d2 cx c h v :
  inv pn cx → delivered cx h → votes c = [v] → genuine cx h v →
  wpp pn (add_vote c h) (λ _ cx', progressed pn d2 cx cx') cx.
Proof.
  intros Hi Hd Ev Hg. pose proof (inv_index _ _ Hi) as Hx.
  unfold add_vote. apply wpp_bind, wpp_get.
  apply wpp_if; intros _; [by apply wpp_ret, syn_progressed_refl|].
  destruct (vote_map cx !! h) as [old|] eqn:Eo.
  - destruct (io_votes _ Hx _ _ Eo) as [_ Hgo].
    apply wpp_bind, wpp_modify, wpp_bind. eapply wpp_mono; [by apply push_vote_spec|].
    intros full ? [-> ->]. set (full := mkCertificate _ _).
    pose proof (vote_delete_index cx h Hx) as Hx'. set (cx1 := cx <| vote_map ::= delete h |>) in *.
    assert (Forall (genuine cx1 h) (votes full)) as Hgf
      by (apply Forall_app; split; [done|by apply Forall_singleton]).
    apply wpp_if; [intros Hl%N.ltb_lt|intros _]; wpp_go.
    + set (cx2 := cx1 <| cert_map ::= insert h full |>).
      assert (progressed pn d2 cx cx2) as Hpg
        by (apply index_progressed; [done|by apply cert_insert_index|done..]).
      eapply syn_progressed_trans; [exact Hpg|]. apply syn_progressed_core; [apply Hpg|done].
    + apply index_progressed; [done| |done..]. by apply vote_insert_index.
  - wpp_go. apply index_progressed; [done| |done..]. apply vote_insert_index; [done..|].
    rw Ev. by apply Forall_singleton.
Qed.

Lemma on_vote_spec pn d2 cx c p :
  inv pn cx → pn ∨ (∃ w d, cert_msg c = CTVote w d) →
  wpp pn (on_vote c p) (λ _ cx', progressed pn d2 cx cx') cx.
Proof.
  intros Hi Hm. unfold on_vote. apply wpp_bind. eapply wpp_mono; [by apply vote_target_spec|].
  intros [h|] ? [-> Hh]; [|by apply wpp_ret, syn_progressed_refl].
  destruct (Hh h eq_refl) as (_ & Hd & v & Ev & Hg). apply wpp_bind.
  eapply wpp_mono; [by eapply add_vote_spec|]. intros [] cx' ?. by apply wpp_ret.
Qed.

(** ** Commits and turns *)
Lemma syn_read_batch_core pn cx h : wpp pn (read_batch h) (λ _ cx', core cx' = core cx) cx.
Proof. unfold wpp, read_batch. by destruct (batches_read h (batches cx)). Qed.

Lemma on_commit_spec pn cx p :
  wpp pn (on_commit p) (λ _ cx', pending_batches cx' = pending_batches cx ∧
    (core cx' = core cx ∨ ∃ b, all_delivered_blocks_by_hash (storage cx) !! prop_hash p = Some b ∧
      core cx' = core (cx <| storage ::= add_committed_block b |>))) cx.
Proof.
  unfold on_commit, delivered_block_from_hash. apply wpp_bind, wpp_get.
  destruct (_ !! prop_hash p) as [b|] eqn:Eb; [|apply wpp_ret; by auto].
  apply wpp_if; intros _; [apply wpp_ret; by auto|].
  apply wpp_bind, wpp_modify, wpp_bind, wpp_modify, wpp_bind.
  unfold wpp at 1, read_batch. set (r := batches_read _ _). destruct r as [o bs].
  apply wpp_bind, wpp_get. unfold multicast_client, gc_handlers. wpp_go.
  simpl. case_bool_decide; (split; [done|]); right; by exists b.
Qed.

Lemma committed_index cx b h :
  index_ok cx → all_delivered_blocks_by_hash (storage cx) !! h = Some b →
  index_ok (cx <| storage ::= add_committed_block b |>).
Proof.
  intros [] Hb. split; try done. apply add_committed_block_wf; [done|].
  by rw (wf_hash _ io_storage0 _ _ Hb).
Qed.

(** A turn: what is newly committed was in the queue and due, or committed
    for the reason [R]. *)
Record turned (R : Hash → Prop) (d2 : N) cx cx' : Prop := {
  tn_static : static cx' = static cx;
  tn_now : (now cx ≤ now cx')%N;
  tn_delivered : ∀ h, delivered cx h → delivered cx' h;
  tn_mono : committed cx ⊆ committed cx';
  tn_committed : ∀ h, h ∈ committed cx' → h ∈ committed cx ∨ R h ∨
    ∃ due p, (due, p) ∈ dq_entries (commit_queue cx) ∧ (due ≤ now cx')%N ∧ prop_hash p = h;
  tn_queue : ∀ due p, (due, p) ∈ dq_entries (commit_queue cx') →
    (due, p) ∈ dq_entries (commit_queue cx) ∨
    (due = (now cx' + d2)%N ∧ delivered cx' (prop_hash p));
}.

Lemma turned_advances R d2 cx cx1 cx' :
  turned R d2 cx cx1 → advances d2 cx1 cx' → turned R d2 cx cx'.
Proof.
  intros [] []. split; [congruence|by rw ad_now0|eauto|by rw ad_committed0| |].
  - rw ad_committed0 ad_now0. done.
  - intros due p Hin. rw ad_now0. destruct (ad_queue0 _ _ Hin) as [Hin'|]; [|by right].
    destruct (tn_queue0 _ _ Hin') as [|[-> ?]]; [by left|right; eauto].
Qed.

Lemma advances_turned R d2 cx cx' : advances d2 cx cx' → turned R d2 cx cx'.
Proof. intros []. split; rw ?ad_now0 ?ad_committed0; auto. Qed.

(** Moving the clock, taking an entry out of the queue. *)
Lemma clock_turned R d2 cx t : turned R d2 cx (cx <| now ::= N.max t |>).
Proof. split; simpl; auto. lia. Qed.

Lemma turned_after R R' d2 cx cx1 cx' :
  storage cx1 = storage cx → static cx1 = static cx → (now cx ≤ now cx1)%N →
  (∀ x, x ∈ dq_entries (commit_queue cx1) → x ∈ dq_entries (commit_queue cx)) →
  (∀ h, R' h → R h ∨ ∃ due p, (due, p) ∈ dq_entries (commit_queue cx) ∧
    (due ≤ now cx1)%N ∧ prop_hash p = h) →
  turned R' d2 cx1 cx' → turned R d2 cx cx'.
Proof.
  intros Es Et Hn Hq Hr []. split; rw -?Es; [congruence|lia|auto..| |].
  - intros h Hh. destruct (tn_committed0 _ Hh) as [|[Hh'|(d & p & Hin & ?)]]; [by left| |].
    + right. destruct (Hr _ Hh') as [|(d & p & ? & ? & ?)]; [by left|right].
      exists d, p. split; [done|]. split; [lia|done].
    + right. right. exists d, p. split; [by apply Hq|done].
  - intros due p Hin. destruct (tn_queue0 _ _ Hin); [left; by apply Hq|by right].
Qed.

Lemma commit_inv pn cx p cx' :
  inv pn cx →
  (core cx' = core cx ∨ ∃ b, all_delivered_blocks_by_hash (storage cx) !! prop_hash p = Some b ∧
     core cx' = core (cx <| storage ::= add_committed_block b |>)) →
  inv pn cx' ∧ (∀ R d2, (R (prop_hash p) : Prop) → turned R d2 cx cx').
Proof.
  intros Hi [Hc|(b & Hb & Hc)].
  { split; [by eapply syn_core_inv|]. intros. by apply advances_turned, syn_core_advances. }
  pose proof (wf_hash _ (io_storage _ (inv_index _ _ Hi)) _ _ Hb) as Hh.
  set (cx1 := cx <| storage ::= add_committed_block b |>) in *. split.
  - apply (syn_core_inv _ cx1); [done|]. apply (index_inv _ cx); [done..|].
    eapply committed_index; [apply Hi|done].
  - intros R d2 Hr. apply (turned_advances _ _ _ cx1); [|by apply syn_core_advances].
    split; simpl; auto; [set_solver|]. intros h [Hn|?]%elem_of_union; [|by left].
    apply elem_of_singleton in Hn as ->. right. left. exact (eq_ind_r R Hr Hh).
Qed.

Lemma poll_spec pn d2 cx p q :
  inv pn cx → dq_poll (now cx) (commit_queue cx) = Some (p, q) →
  progressed pn d2 cx (cx <| commit_queue := q |>) ∧
  (∀ x, x ∈ dq_entries q → x ∈ dq_entries (commit_queue cx)) ∧
  ∃ due, (due, p) ∈ dq_entries (commit_queue cx) ∧ (due ≤ now cx)%N.
Proof.
  intros Hi (due & Hle & Hp)%dq_entries_poll.
  assert (∀ x, x ∈ dq_entries q → x ∈ dq_entries (commit_queue cx)) as Hsub
    by (intros x Hx; rw Hp; by right).
  split; [|split; [done|exists due; rw Hp; split; [left|done]]]. split.
  - apply (index_inv _ cx); [done..|]. destruct (inv_index _ _ Hi). split; try done.
    intros d p' Hin. exact (io_queue0 _ _ (Hsub _ Hin)).
  - split; try done. intros d p' Hin. left. by apply Hsub.
Qed.

Lemma leader_step_spec pn d2 cx :
  inv pn cx →
  wpp pn (leader_step d2) (λ (go : bool) cx', progressed pn d2 cx cx' ∧
    (go = true → length (pending_batches cx') < length (pending_batches cx))) cx.
Proof.
  intros Hi. unfold leader_step. apply wpp_bind, wpp_get.
  destruct (pending_batches cx) as [|[bh batch] rest] eqn:Ep.
  { apply wpp_ret. by split; [apply syn_progressed_refl|]. }
  apply wpp_if; [intros [_ Hc%bool_decide_eq_true]%andb_true_iff|intros _]; last first.
  { apply wpp_ret. by split; [apply syn_progressed_refl|]. }
  apply wpp_bind, wpp_modify. set (cx1 := cx <| pending_batches := rest |>).
  assert (progressed pn d2 cx cx1) as Hpg by by apply syn_progressed_core.
  apply wpp_bind. eapply wpp_mono; [apply (syn_propose_spec pn d2 cx1); [apply Hpg|done]|].
  intros o cx2 (Hpg2 & Hp2 & Hd). apply wpp_bind.
  apply (wpp_mono _ (λ _ cx', progressed pn d2 cx2 cx' ∧
    pending_batches cx' = pending_batches cx2)).
  { destruct o as [[p b]|]; [|apply wpp_ret; split; [apply syn_progressed_refl, Hpg2|done]].
    apply queue_spec; [apply Hpg2|by eapply Hd]. }
  intros [] cx3 [Hpg3 Hp3]. apply wpp_ret. split.
  - eapply syn_progressed_trans; [exact Hpg|]. by eapply syn_progressed_trans.
  - intros _. rw Hp3 Hp2. simpl. lia.
Qed.

Lemma syn_leader_drain_spec pn d2 cx :
  inv pn cx → wpp pn (leader_drain d2) (λ _ cx', progressed pn d2 cx cx') cx.
Proof.
  intros Hi. unfold leader_drain. apply wpp_bind, wpp_get.
  apply (wpp_loop (λ cx', progressed pn d2 cx cx') (λ cx', length (pending_batches cx')));
    [|by apply syn_progressed_refl|lia].
  intros cx1 Hpg. eapply wpp_mono; [apply leader_step_spec, Hpg|].
  intros go cx2 [Hpg2 Hlt]. assert (progressed pn d2 cx cx2) by by eapply syn_progressed_trans.
  destruct go; [split; [done|by apply Hlt]|done].
Qed.

(** The messages that cannot make a node panic: proposals for the view it is
    in, and votes that are votes. *)
Definition msg_ok (vw : View) (msg : ProtocolMsg) : Prop :=
  match msg with
  | NewProposal p _ _ => prop_view p = vw
  | VoteMsg c _ => ∃ w d, cert_msg c = CTVote w d
  | _ => True
  end.
Definition event_ok (vw : View) (ev : event) : Prop :=
  match ev with EvMsg msg => msg_ok vw msg | _ => True end.
Definition input_ok pn (vw : View) (i : input) : Prop :=
  match i with Turn _ ev => pn ∨ event_ok vw ev | Sealed _ _ => True end.

Lemma handle_spec pn d2 cx msg :
  inv pn cx → pn ∨ msg_ok (view cx) msg →
  wpp pn (match msg with
          | NewProposal p b batch =>
              let! decision := on_receive_proposal p b batch in
              if decision then queue_commit p d2 else ret tt
          | VoteMsg v p => on_vote v p;;; ret tt
          | _ => ret tt
          end) (λ _ cx', progressed pn d2 cx cx') cx.
Proof.
  intros Hi Hm. destruct msg; try by apply wpp_ret, syn_progressed_refl.
  - apply wpp_bind. eapply wpp_mono; [by apply (syn_receive_spec pn d2)|].
    intros ok cx1 [Hpg Hd]. apply wpp_if; intros Hok; [|by apply wpp_ret].
    eapply wpp_mono; [apply queue_spec; [apply Hpg|by apply Hd]|].
    intros [] cx2 [? _]. by eapply syn_progressed_trans.
  - apply wpp_bind. eapply wpp_mono; [by apply (on_vote_spec pn d2)|]. intros ? ? ?.
    by apply wpp_ret.
Qed.

Definition nothing (_ : Hash) : Prop := False.

Lemma syn_react_spec pn d2 cx ev :
  inv pn cx → pn ∨ event_ok (view cx) ev →
  wpp pn (react d2 ev) (λ _ cx', inv pn cx' ∧ turned nothing d2 cx cx') cx.
Proof.
  intros Hi He. assert (inv pn cx ∧ turned nothing d2 cx cx) as Hsame
    by (split; [done|by apply advances_turned]).
  assert (∀ cx1, progressed pn d2 cx cx1 →
    wpp pn (leader_drain d2;;; ret true)
      (λ _ cx', inv pn cx' ∧ turned nothing d2 cx cx') cx1) as Hl.
  { intros cx1 Hpg. apply wpp_bind. eapply wpp_mono; [apply syn_leader_drain_spec, Hpg|].
    intros [] cx2 Hpg2. apply wpp_ret. split; [apply Hpg2|]. apply advances_turned.
    etrans; [apply Hpg|apply Hpg2]. }
  destruct ev as [msg| | |bh batch| | |]; try by apply wpp_ret.
  - apply wpp_bind. eapply wpp_mono; [by apply (handle_spec pn d2)|]. intros [] cx1 Hpg.
    by apply Hl.
  - unfold react. apply wpp_bind, wpp_modify, Hl. by apply syn_progressed_core.
  - unfold react. apply wpp_bind, wpp_get.
    destruct (dq_poll (now cx) (commit_queue cx)) as [[p q]|] eqn:Ep; [|by apply wpp_ret].
    destruct (poll_spec pn d2 _ _ _ Hi Ep) as (Hpg & Hsub & due & Hin & Hle).
    apply wpp_bind, wpp_modify, wpp_bind. set (cx1 := cx <| commit_queue := q |>) in *.
    eapply wpp_mono; [apply on_commit_spec|]. intros [] cx2 [_ Hc].
    destruct (commit_inv pn cx1 p cx2 (pg_inv _ _ _ _ Hpg) Hc) as [Hi2 Ht].
    apply wpp_bind. eapply wpp_mono; [apply syn_leader_drain_spec, Hi2|].
    intros [] cx3 Hpg3. apply wpp_ret. split; [apply Hpg3|].
    eapply turned_advances; [|apply Hpg3].
    apply (turned_after _ (λ h, h = prop_hash p) _ _ cx1); [done..|exact Hsub| |by apply Ht].
    intros h ->. right. by exists due, p.
Qed.

Lemma syn_take_input_spec pn d2 cx i :
  inv pn cx → input_ok pn (view cx) i →
  wpp pn (take_input d2 i) (λ _ cx', inv pn cx' ∧ turned nothing d2 cx cx') cx.
Proof.
  intros Hi Hok. destruct i as [t ev|h batch]; unfold take_input.
  - apply wpp_bind, wpp_modify. set (cx1 := cx <| now ::= N.max t |>).
    assert (inv pn cx1) as Hi1.
    { apply (index_inv _ cx); [done..|]. by destruct (inv_index _ _ Hi); split. }
    eapply wpp_mono; [by apply (syn_react_spec pn d2)|]. intros go cx' [? ?]. split; [done|].
    apply (turned_after _ nothing _ _ cx1); [done|done| |done|done|done].
    unfold cx1. simpl. lia.
  - wpp_go. assert (progressed pn d2 cx (cx <| batches ::= batches_persist h batch |>)) as []
      by by apply syn_progressed_core. split; [done|by apply advances_turned].
Qed.

(** ** Runs *)
Definition turn_step (d2 : N) cx cx' : Prop := ∃ i go, take_input d2 i cx = Done go cx'.
Definition reach (d2 : N) : relation Context := rtc (turn_step d2).

Lemma run_reach d2 ins cx cx' : run d2 ins cx = Done tt cx' → reach d2 cx cx'.
Proof.
  revert cx. induction ins as [|i ins IH]; intros cx; simpl; [by intros [= ->]|].
  unfold bind. destruct (take_input d2 i cx) as [go cx1| |] eqn:E; [|done..].
  intros Hr. eapply rtc_l; [by exists i, go|]. destruct go; [by apply IH|].
  by injection Hr as ->.
Qed.

Lemma turn_view d2 cx cx' : turned nothing d2 cx cx' → view cx' = view cx.
Proof. intros [E _ _ _ _ _]. unfold static in E. congruence. Qed.

Lemma syn_run_spec pn d2 ins cx :
  inv pn cx → Forall (input_ok pn (view cx)) ins →
  wpp pn (run d2 ins) (λ _ cx', inv pn cx' ∧ view cx' = view cx) cx.
Proof.
  revert cx. induction ins as [|i ins IH]; intros cx Hi Hok; simpl; [by apply wpp_ret|].
  apply Forall_cons in Hok as [Hok1 Hok]. apply wpp_bind.
  eapply wpp_mono; [by apply (syn_take_input_spec pn d2)|]. intros go cx1 [Hi1 Ht].
  pose proof (turn_view _ _ _ Ht) as Ev. apply wpp_if; intros _; [|by apply wpp_ret].
  rw -Ev in Hok. eapply wpp_mono; [by apply IH|]. intros [] cx' [? ?]. by rw -Ev.
Qed.

Lemma reach_inv d2 cx cx' : inv True cx → reach d2 cx cx' → inv True cx'.
Proof.
  intros Hi Hr. induction Hr as [|c1 c2 c3 (i & go & E) _ IH]; [done|]. apply IH.
  assert (input_ok True (view c1) i) as Hok by (destruct i; simpl; auto).
  pose proof (syn_take_input_spec True d2 c1 i Hi Hok) as Hw.
  by eapply wlp_done in Hw as [? _].
Qed.

Lemma syn_start_inv pn config bs t cx :
  context_new config bs t = Some cx → pn ∨ calm cx → inv pn cx.
Proof.
  unfold context_new. destruct (decode_secret config); [|done].
  destruct (decode_public_keys _ _); [|done]. intros [= <-] Hp. split; [|done].
  assert (is_Some (all_delivered_blocks_by_hash
    (add_delivered_block GENESIS_BLOCK storage_new) !! block_hash GENESIS_BLOCK)) as Hg
    by exact (add_delivered_self GENESIS_BLOCK storage_new).
  split; simpl.
  - apply add_committed_block_wf; [auto with storage|exact Hg].
  - intros h b. simpl. rw lookup_insert. case_decide; [|by rw lookup_empty].
    intros [= <-]. exact Hg.
  - exact Hg.
  - intros h c. by rw lookup_empty.
  - intros h c. rw lookup_singleton. case_decide; [|done]. intros [= <-]. subst h.
    split; [exact Hg|by left].
  - intros due p. rw dq_entries_new. by intros ?%not_elem_of_nil.
Qed.

(** ** The past of a state

    [P] holds of the states the node has been in; every committed block was
    there [d2] ago, or was committed for the reason [R], and every entry of
    the queue is due [d2] after its block was there. *)
Record history (R : Hash → Prop) (P : Context → Prop) (d2 : N) cx : Prop := {
  hi_committed : ∀ h, h ∈ committed cx → h = block_hash GENESIS_BLOCK ∨ R h ∨
    ∃ c, P c ∧ delivered c h ∧ (now c + d2 ≤ now cx)%N;
  hi_queue : ∀ due p, (due, p) ∈ dq_entries (commit_queue cx) →
    ∃ c, P c ∧ delivered c (prop_hash p) ∧ due = (now c + d2)%N;
}.

Lemma history_step R R' P d2 cx cx' :
  (∀ h, R h → R' h) → history R P d2 cx → turned R' d2 cx cx' →
  history R' (λ c, P c ∨ c = cx') d2 cx'.
Proof.
  intros HR [Hc Hq] []. split.
  - intros h Hh. destruct (tn_committed0 _ Hh) as [Hh'|[|(due & p & Hin & Hle & <-)]].
    + destruct (Hc _ Hh') as [|[|(c & ? & ? & ?)]]; [by left|right; left; auto|].
      right. right. exists c. split; [by left|]. split; [done|lia].
    + by right; left.
    + right. right. destruct (Hq _ _ Hin) as (c & ? & ? & ->). exists c.
      split; [by left|]. split; [done|lia].
  - intros due p Hin. destruct (tn_queue0 _ _ Hin) as [Hin'|[-> ?]].
    + destruct (Hq _ _ Hin') as (c & ? & ? & ?). exists c. split; [by left|done].
    + exists cx'. split; [by right|done].
Qed.

Lemma start_history R config bs t d2 cx :
  context_new config bs t = Some cx → history R (λ c, c = cx) d2 cx.
Proof.
  unfold context_new. destruct (decode_secret config); [|done].
  destruct (decode_public_keys _ _); [|done]. intros [= <-]. split; simpl.
  - intros h. rw right_id_L elem_of_singleton. by left.
  - intros due p. rw dq_entries_new. by intros ?%not_elem_of_nil.
Qed.

Lemma history_mono R P P' d2 cx :
  (∀ c, P c → P' c) → history R P d2 cx → history R P' d2 cx.
Proof.
  intros HP [Hc Hq]. split.
  - intros h Hh. destruct (Hc _ Hh) as [|[|(c & ? & ?)]]; [by left|right; by left|].
    right. right. exists c. split; [by apply HP|done].
  - intros due p Hin. destruct (Hq _ _ Hin) as (c & ? & ?). exists c. split; [by apply HP|done].
Qed.

(** The states a run goes through. *)
Fixpoint trace (d2 : N) (ins : list input) cx : list Context :=
  cx :: match ins with
        | [] => []
        | i :: ins' =>
            match take_input d2 i cx with
            | Done true cx' => trace d2 ins' cx'
            | Done false cx' => [cx']
            | _ => []
            end
        end.

Lemma trace_history d2 ins P cx cx' :
  inv True cx → history nothing P d2 cx → P cx → run d2 ins cx = Done tt cx' →
  history nothing (λ c, P c ∨ c ∈ trace d2 ins cx) d2 cx'.
Proof.
  revert P cx. induction ins as [|i ins IH]; intros P cx Hi Hh HP; simpl.
  { intros [= <-]. eapply history_mono; [|done]. by left. }
  unfold bind. destruct (take_input d2 i cx) as [go cx1| |] eqn:E; [|done..].
  assert (input_ok True (view cx) i) as Hok by (destruct i; simpl; auto).
  pose proof (wlp_done _ _ _ _ _ (syn_take_input_spec True d2 cx i Hi Hok) E) as [Hi1 Ht].
  pose proof (history_step nothing nothing P d2 cx cx1 (λ _ x, x) Hh Ht) as Hh1.
  destruct go; intros Hr.
  - eapply history_mono; [|apply (IH _ cx1 Hi1 Hh1); [by right|done]].
    intros c [[?| ->]|Hin]; [by left| |]; right; right; [destruct ins; by left|done].
  - injection Hr as <-. eapply history_mono; [|exact Hh1].
    intros c [?| ->]; [by left|right; right; by left].
Qed.

(** C12.  2Δ wait: when a run has committed a block other than the genesis
    block, it was in a state 2Δ before (or earlier) in which that block had
    been delivered. *)
Theorem synchs_commit_waits config bs t cx0 ins cx h :
  context_new config bs t = Some cx0 →
  run (two_delta config) ins cx0 = Done tt cx →
  h ∈ committed cx →
  h = block_hash GENESIS_BLOCK ∨
  ∃ c, c ∈ trace (two_delta config) ins cx0 ∧ delivered c h ∧
    (now c + two_delta config ≤ now cx)%N.
Proof.
  intros E0 Er Hh. assert (history nothing (λ c, c = cx0 ∨
    c ∈ trace (two_delta config) ins cx0) (two_delta config) cx) as Hist.
  { apply trace_history; [by eapply syn_start_inv; [|left]|by eapply start_history|done|done]. }
  destruct (hi_committed _ _ _ _ Hist h Hh) as [|[[]|(c & Hc & ?)]]; [by left|right].
  exists c. split; [|done]. destruct Hc as [->|]; [|done]. destruct ins; left.
Qed.

(** C26.  Certificates: in any state a node reaches, whatever messages it is
    sent, every block is delivered after its parent, committed blocks are
    delivered ones, and every certificate it holds (the genesis block's
    apart) is for a delivered block and carries more than f votes, each
    signed for that block by the replica it names or by this node. *)
Theorem synchs_certificates config bs t cx0 d2 ins cx :
  context_new config bs t = Some cx0 → run d2 ins cx0 = Done tt cx →
  parents_delivered (storage cx) ∧
  (∀ h, h ∈ committed cx → delivered cx h) ∧
  ∀ h c, cert_map cx !! h = Some c → delivered cx h ∧
    (h = block_hash GENESIS_BLOCK ∨
     (num_faults cx < N.of_nat (length (votes c)))%N ∧ Forall (genuine cx h) (votes c)).
Proof.
  intros E0 Er. assert (inv True cx) as [[Hw Hp _ _ Hc _] _].
  { eapply reach_inv; [by eapply syn_start_inv; [|left]|by eapply run_reach]. }
  split; [done|]. split; [apply (wf_committed _ Hw)|done].
Qed.

Lemma start_calm config bs t cx :
  context_new config bs t = Some cx →
  Config.num_nodes config ≠ 0%N → is_Some (pk_map config !! 0%N) →
  (∀ m, is_Some (sk_sign (my_secret_key cx) m)) → calm cx ∧ view cx = 0%N.
Proof.
  intros E0 Hn Hk Hs. unfold context_new in E0. destruct (decode_secret config); [|done].
  destruct (decode_public_keys config _) as [pks|] eqn:Ek; [|done]. injection E0 as <-.
  split; [|done]. split; [done| |done]. unfold leader_of_view. simpl.
  apply N.eqb_neq in Hn as Hn'. rw Hn'. intros r [= <-]. rw N.Div0.mod_0_l.
  by apply (decode_public_keys_spec _ _ _ _ Ek).
Qed.

(** A node with a usable configuration goes through any sequence of
    turns without a panic and without running out of fuel, as long as the
    proposals it is sent name view 0 and the votes are votes. *)
Theorem synchs_calm_run config bs t cx0 d2 ins :
  context_new config bs t = Some cx0 →
  Config.num_nodes config ≠ 0%N → is_Some (pk_map config !! 0%N) →
  (∀ m, is_Some (sk_sign (my_secret_key cx0) m)) →
  Forall (input_ok False 0) ins →
  ∃ cx, run d2 ins cx0 = Done tt cx ∧ inv False cx.
Proof.
  intros E0 Hn Hk Hs Hok. destruct (start_calm _ _ _ _ E0 Hn Hk Hs) as [Hcalm Hv].
  rw -Hv in Hok. pose proof (syn_run_spec False d2 ins cx0) as Hw.
  destruct (wpp_done _ _ _ (Hw (syn_start_inv _ _ _ _ _ E0 (or_intror Hcalm)) Hok))
    as ([] & cx & E & Hi & _). eauto.
Qed.
End invariant.

(** ** The leader never leaves the first height *)
Section stuck.
Context `{Bincode} `{Store} `{NetOracle} `{DelayQueue Propose} `{!DelayQueueLaws Propose}.
Implicit Types (cx : Context) (p : Propose) (b : Block).

(** Where the chain of the leader is, and what it told the others. *)
Definition outlook cx := (last_seen_block cx, sent (consensus_net cx)).

Record stuck cx : Prop := {
  st_last : last_seen_block cx = GENESIS_BLOCK;
  st_sent : ∀ to p b batch, (to, NewProposal p b batch) ∈ sent (consensus_net cx) →
    Types.height (header b) = 1%N ∧ prev (header b) = EMPTY_HASH;
}.
Lemma outlook_stuck cx cx' : outlook cx' = outlook cx → stuck cx → stuck cx'.
Proof. unfold outlook. intros [= E1 E2] []. split; [congruence|]. by rw E2. Qed.

Lemma vote_outlook cx c p :
  inv True cx → wlp (on_vote c p) (λ _ cx', outlook cx' = outlook cx) cx.
Proof.
  intros Hi. unfold on_vote. apply wpp_bind.
  eapply wpp_mono; [by apply (vote_target_spec True); auto|].
  intros [h|] ? [-> _]; [|by apply wpp_ret]. unfold add_vote, push_vote. apply wpp_bind, wpp_bind, wpp_get.
  apply wpp_if; intros _; [by wpp_go|]. destruct (vote_map cx !! h) as [old|]; [|by wpp_go].
  wpp_go. apply wpp_unwrap; [|done]. intros v _. by wpp_go.
Qed.

Lemma commit_outlook cx p : wlp (on_commit p) (λ _ cx', outlook cx' = outlook cx) cx.
Proof.
  unfold on_commit. apply wpp_bind, wpp_get.
  destruct (delivered_block_from_hash _ _) as [b|]; [|by apply wpp_ret].
  apply wpp_if; intros _; [by apply wpp_ret|].
  apply wpp_bind, wpp_modify, wpp_bind, wpp_modify, wpp_bind.
  unfold wpp at 1, read_batch. set (r := batches_read _ _). destruct r as [o bs].
  apply wpp_bind, wpp_get. unfold multicast_client, gc_handlers. wpp_go.
  unfold outlook. simpl. by case_bool_decide.
Qed.

Lemma propose_stuck cx bh batch : stuck cx → wlp (do_propose bh batch) (λ _ cx', stuck cx') cx.
Proof.
  intros [Hl Hs]. unfold do_propose. apply wpp_bind, wpp_get. cbv zeta. rw Hl.
  set (nb := block_on _ _ _). apply wpp_bind, wpp_unwrap; [intros pr _|done].
  unfold own_vote. wpp_go. apply wpp_unwrap; [intros s _|done]. wpp_go.
  apply wpp_unwrap; [intros c _|done]. unfold multicast. wpp_go. split; [done|]. simpl.
  intros to p b batch'. rw net_broadcast_sent elem_of_app. intros [Hin|Hin]; [by eapply Hs|].
  apply list_elem_of_fmap in Hin as (r & [= -> -> -> ->] & _). done.
Qed.

Lemma leader_stuck d2 cx :
  inv True cx → stuck cx → wlp (leader_drain d2) (λ _ cx', stuck cx') cx.
Proof.
  intros Hi Hs. unfold leader_drain. apply wpp_bind, wpp_get.
  apply (wpp_loop (λ cx', inv True cx' ∧ stuck cx') (λ cx', length (pending_batches cx')));
    [|done|lia].
  clear cx Hi Hs. intros cx [Hi Hs].
  eapply wpp_mono; [apply wpp_and; [apply (leader_step_spec True d2), Hi|]|].
  - instantiate (1 := λ _ cx', stuck cx'). unfold leader_step. apply wpp_bind, wpp_get.
    destruct (pending_batches cx) as [|[bh batch] rest]; [by apply wpp_ret|].
    apply wpp_if; intros _; [|by apply wpp_ret]. apply wpp_bind, wpp_modify, wpp_bind.
    eapply wpp_mono; [apply propose_stuck; by apply (outlook_stuck cx)|].
    intros o cx1 Hs1. apply wpp_bind. destruct o as [[p b]|]; unfold queue_commit; wpp_go; [|done].
    by apply (outlook_stuck cx1).
  - intros [] cx' [[Hpg Hlt] Hs']; [|done]. split; [split; [apply Hpg|done]|by apply Hlt].
Qed.

(** Anything but a proposal. *)
Definition no_proposal (i : input) : Prop :=
  match i with Turn _ (EvMsg (NewProposal _ _ _)) => False | _ => True end.

Lemma react_stuck d2 cx ev t :
  inv True cx → no_proposal (Turn t ev) → stuck cx → wlp (react d2 ev) (λ _ cx', stuck cx') cx.
Proof.
  intros Hi Hno Hs.
  assert (∀ cx1, inv True cx1 → outlook cx1 = outlook cx →
    wlp (leader_drain d2;;; ret true) (λ _ cx', stuck cx') cx1) as Hl.
  { intros cx1 Hi1 E. apply wpp_bind.
    eapply wpp_mono; [apply leader_stuck; [done|by eapply outlook_stuck]|].
    intros [] cx2 ?. by apply wpp_ret. }
  destruct ev as [msg| | |bh batch| | |]; try by apply wpp_ret.
  - apply wpp_bind. destruct msg; try (by apply wpp_ret, Hl); [done|].
    apply wpp_bind. eapply wpp_mono;
      [apply wpp_and; [apply (on_vote_spec True d2); auto|by apply vote_outlook]|].
    intros ? cx1 [[Hi1 _] E]. by apply wpp_ret, Hl.
  - unfold react. apply wpp_bind, wpp_modify, Hl; [|done]. by apply (syn_core_inv True cx).
  - unfold react. apply wpp_bind, wpp_get.
    destruct (dq_poll (now cx) (commit_queue cx)) as [[p q]|] eqn:Ep; [|by apply wpp_ret].
    destruct (poll_spec True d2 _ _ _ Hi Ep) as ([Hi1 _] & _).
    apply wpp_bind, wpp_modify, wpp_bind.
    eapply wpp_mono; [apply wpp_and; [apply on_commit_spec|apply commit_outlook]|].
    intros [] cx2 [[_ Hc] E]. apply Hl; [|done]. by eapply commit_inv.
Qed.

Lemma run_stuck d2 ins cx :
  inv True cx → Forall no_proposal ins → stuck cx → wlp (run d2 ins) (λ _ cx', stuck cx') cx.
Proof.
  revert cx. induction ins as [|i ins IH]; intros cx Hi Hno Hs; simpl; [by apply wpp_ret|].
  apply Forall_cons in Hno as [Hno1 Hno]. apply wpp_bind.
  apply (wpp_mono _ (λ _ cx', inv True cx' ∧ stuck cx')).
  - apply wpp_and.
    + eapply wpp_mono; [apply (syn_take_input_spec True d2); [done|]|by intros ? ? []].
      destruct i; simpl; auto.
    + destruct i as [t ev|h batch]; unfold take_input.
      * apply wpp_bind, wpp_modify. apply (react_stuck _ _ _ t); [|done|by apply (outlook_stuck cx)].
        apply (index_inv _ cx); [done..|]. by destruct (inv_index _ _ Hi); split.
      * wpp_go. by apply (outlook_stuck cx).
  - intros go cx1 [Hi1 Hs1]. apply wpp_if; intros _; [by apply IH|by apply wpp_ret].
Qed.

(** The leader proposes only first blocks: a node that is not sent
    proposals (the leader proposes them) never moves past the genesis
    block, however many batches and votes it gets, and every block it has
    ever proposed has height 1 and the genesis block as its parent. *)
Theorem synchs_leader_stuck config bs t cx0 d2 ins cx :
  context_new config bs t = Some cx0 → Forall no_proposal ins →
  run d2 ins cx0 = Done tt cx →
  last_seen_block cx = GENESIS_BLOCK ∧
  ∀ to p b batch, (to, NewProposal p b batch) ∈ sent (consensus_net cx) →
    Types.height (header b) = 1%N ∧ prev (header b) = block_hash GENESIS_BLOCK.
Proof.
  intros E0 Hno Er. assert (inv True cx0) as Hi by (eapply syn_start_inv; [done|by left]).
  assert (stuck cx0) as Hs.
  { unfold context_new in E0. destruct (decode_secret config); [|done].
    destruct (decode_public_keys config _); [|done]. injection E0 as <-. split; [done|].
    simpl. by intros ? ? ? ? ?%not_elem_of_nil. }
  by destruct (wlp_done _ _ _ _ _ (run_stuck d2 ins cx0 Hi Hno Hs) Er).
Qed.
End stuck.

(** ** What a single message can do *)
Section attacks.
Context `{Bincode} `{Store} `{NetOracle} `{DelayQueue Propose} `{!DelayQueueLaws Propose}.
Implicit Types (cx : Context) (p : Propose) (b : Block).

(** One "vote" of a known replica [v] on something that is not a block. *)
Record not_a_vote cx (c : Certificate) (v : Vote) : Prop := {
  nv_votes : votes c = [v];
  nv_known : is_Some (pub_key_map cx !! origin v);
  nv_kind : ∀ w d, cert_msg c ≠ CTVote w d;
}.

(** A "vote" whose certificate is of another kind ends the process, in
    every state: it only has to name a replica this node knows, and nothing
    has to be signed. *)
Theorem synchs_bad_vote_panics d2 cx c p v :
  not_a_vote cx c v →
  react d2 (EvMsg (VoteMsg c p)) cx =
    Panicked "internal error: entered unreachable code: other vote types cant be here".
Proof.
  intros [Ev [pk Ek] Hc]. unfold react, on_vote, vote_target, bind, get. rw Ev Ek.
  destruct (cert_msg c) as [|w d| |]; [done|by destruct (Hc w d)|done..].
Qed.

(** A first block that the leader signed. *)
Record signed_first cx (leader : Replica) (pk : PublicKey) p b : Prop := {
  sf_leader : leader_of_view cx = Some leader;
  sf_key : pub_key_map cx !! leader = Some pk;
  sf_new : is_delivered_by_hash (storage cx) (block_hash b) = false;
  sf_hash : block_hash b = prop_hash p;
  sf_author : author (header b) = leader;
  sf_signed : pk_verify pk (hash_as_ref (block_hash b)) (proof p) = true;
  sf_height : Types.height (header b) = 1%N;
  sf_prev : prev (header b) = EMPTY_HASH;
}.

(** The leader's signature does not cover the view: a signed first
    proposal that the node has not seen, replayed with another view number
    by anybody, ends the process. *)
Theorem synchs_other_view_panics d2 cx leader pk p b batch :
  signed_first cx leader pk p b → prop_view p ≠ view cx →
  react d2 (EvMsg (NewProposal p b batch)) cx = Panicked "This view check should be unreachable".
Proof.
  intros [El Ek Hn Hh Ha Hs Eh Hp] Hv.
  unfold react, on_receive_proposal, check_proposal, bind, get. rw Hn.
  rw bool_decide_eq_false_2; [|tauto]. rw El /= Ha N.eqb_refl Eh /=.
  rw bool_decide_eq_false_2; [|tauto]. rw /= Ek /= Hs /=.
  case_eq (view cx =? prop_view p)%N; [intros ?%N.eqb_eq; congruence|done].
Qed.

(** A node that is following a chain of any height accepts any new
    signed first block: it answers yes, delivers it and makes it the block
    seen last, so its chain starts again at height 1. *)
Theorem synchs_restarts_at_one cx leader pk p b batch s :
  signed_first cx leader pk p b → prop_view p = view cx →
  check_batch_hash b batch = true →
  is_delivered_by_hash (storage cx) EMPTY_HASH = true →
  sk_sign (my_secret_key cx) (ser_cert_type (CTVote (view cx) (block_hash b))) = Some s →
  ∃ cx', on_receive_proposal p b batch cx = Done true cx' ∧ last_seen_block cx' = b ∧
    is_delivered_by_hash (storage cx') (block_hash b) = true ∧
    sent (consensus_net cx') = sent (consensus_net cx) ++
      ((λ to, (to, VoteMsg (mkCertificate (CTVote (view cx) (block_hash b))
                              [mkVote (myid cx) s]) p)) <$> broadcast_peers cx).
Proof.
  intros [El Ek Hn Hh Ha Hs Eh Hp] Hv Hb Hg Es.
  assert (check_proposal p b cx = Done true cx) as Ec.
  { unfold check_proposal, bind, get. rw bool_decide_eq_false_2; [|tauto].
    rw El /= Ha N.eqb_refl Eh /=. rw bool_decide_eq_false_2; [|tauto].
    by rw /= Ek /= Hs /= Hv N.eqb_refl. }
  unfold on_receive_proposal, bind, get. rw Hn Ec /= Hb /=.
  unfold on_new_valid_proposal, own_vote, bind, get. simpl. rw Hp Hg /= Es /=.
  eexists. split; [reflexivity|]. split; [done|]. split; [|apply net_broadcast_sent].
  apply is_delivered_spec. exact (add_delivered_self b (storage cx)).
Qed.
End attacks.

(** ** Examples: three replicas, one faulty; replica 0 leads *)
Module Examples.
Import Toy ToyFormat ToyQueue ConfigExamples.

Definition bs0 : Batches := mkBatches (∅ : gmap bytes bytes) ∅.
Definition blank : Context :=
  mkContext net_new net_new [] [] bs0 [] 0 0 0 0 0%N ∅ storage_new ∅ 0 0 GENESIS_BLOCK
    empty_cert 0 ∅ 0 ([] : list (N * Propose)) 0.
(** Replica 0, and replica 1 with a client to tell. *)
Definition leader_cfg : Node := cfg3.
Definition follower_cfg : Node :=
  cfg3 <| Config.id := 1%N |> <| secret_key_bytes := [11%N] |>
       <| client_net_map := {[ 7%N := "127.0.0.1:5000" ]} |>.
Definition leader0 : Context := default blank (context_new leader_cfg bs0 0).
Definition follower0 : Context := default blank (context_new follower_cfg bs0 0).

Lemma start_leader : context_new leader_cfg bs0 0 = Some leader0.
Proof. reflexivity. Qed.
Lemma start_follower : context_new follower_cfg bs0 0 = Some follower0.
Proof. reflexivity. Qed.

Definition batch (n : N) : CachedBatch Transaction :=
  (hash_get_or_init (batch_new [new_dummy_tx_keyed 1 n 2])).2.
(** The leader's block with batch [n] on [parent], and its proposal. *)
Definition block (parent : Block) (n : N) : Block := block_on parent (hash (batch n)) 0.
Definition proposal (b : Block) (c : Certificate) : Propose :=
  mkPropose (10%N :: block_hash b) c 0 (block_hash b).
Definition vote (r : Replica) (w : View) (b : Block) : Vote :=
  mkVote r ((10 + r)%N :: ser_cert_type (CTVote w (block_hash b))).
Definition propose_msg (b : Block) (c : Certificate) (n : N) : event :=
  EvMsg (NewProposal (proposal b c) b (batch n)).

Definition b1 : Block := block GENESIS_BLOCK 1.
Definition b1' : Block := block GENESIS_BLOCK 2.
Definition b2 : Block := block b1 3.

(** Two first blocks, accepted one after the other, and their timers. *)
Definition fork : list input :=
  [Turn 0 (propose_msg b1 empty_cert 1); Turn 5 (propose_msg b1' empty_cert 2);
   Turn 99 EvTimer; Turn 100 EvTimer; Turn 105 EvTimer].
Definition after (cx : Context) (ins : list input) : Context := final cx (run 100 ins cx).

Lemma fork_runs : run 100 fork follower0 = Done tt (after follower0 fork).
Proof. apply is_done_final. vm_compute. reflexivity. Qed.

(** A follower accepts, votes for and commits two different blocks at
    height 1. *)
Example synchs_forks_first_height :
  Types.height (header b1) = Types.height (header b1') ∧ block_hash b1 ≠ block_hash b1' ∧
  is_committed_by_hash (storage (after follower0 fork)) (block_hash b1) = true ∧
  is_committed_by_hash (storage (after follower0 fork)) (block_hash b1') = true.
Proof. vm_compute. repeat split; try reflexivity. discriminate. Qed.

(** Nothing is committed before 2Δ. *)
Example fork_waits :
  bool_decide (committed_blocks_by_hash (storage (after follower0 (take 3 fork))) =
               {[ block_hash GENESIS_BLOCK ]}) = true.
Proof. vm_compute. reflexivity. Qed.

Lemma synchs_commit_waits_witness :
  block_hash b1 = block_hash GENESIS_BLOCK ∨
  ∃ c, c ∈ trace 100 fork follower0 ∧
    is_Some (all_delivered_blocks_by_hash (storage c) !! block_hash b1) ∧
    (now c + 100 ≤ now (after follower0 fork))%N.
Proof.
  apply (synchs_commit_waits follower_cfg bs0 0 follower0 fork).
  - exact start_follower.
  - exact fork_runs.
  - apply is_committed_spec. vm_compute. reflexivity.
Defined.

Lemma synchs_certificates_witness :
  parents_delivered (storage (after follower0 fork)).
Proof.
  apply (synchs_certificates follower_cfg bs0 0 follower0 100 fork);
    [exact start_follower|exact fork_runs].
Defined.

Lemma synchs_calm_run_witness :
  ∃ cx, run 100 fork follower0 = Done tt cx ∧ inv False cx.
Proof.
  apply (synchs_calm_run follower_cfg bs0 0 follower0 100 fork).
  - exact start_follower.
  - vm_compute. discriminate.
  - eexists. vm_compute. reflexivity.
  - intros m. eexists. reflexivity.
  - repeat constructor; right; reflexivity.
Defined.

Lemma check_proposal_exact_witness :
  ∃ r, check_proposal (proposal b1 empty_cert) b1 follower0 = Done r follower0 ∧
    (r = true ↔ acceptable follower0 0 10%N (proposal b1 empty_cert) b1).
Proof.
  apply check_proposal_exact; [vm_compute; reflexivity..].
Defined.

(** The leader gets two batches: two proposals at height 1. *)
Definition batches_in : list input :=
  [Turn 0 (EvBatch (hash (batch 1)) (batch 1)); Turn 1 (EvBatch (hash (batch 2)) (batch 2))].

Lemma synchs_leader_stuck_witness :
  last_seen_block (after leader0 batches_in) = GENESIS_BLOCK ∧
  length (sent (consensus_net (after leader0 batches_in))) = 4.
Proof.
  split; [|vm_compute; reflexivity].
  refine (proj1 (synchs_leader_stuck leader_cfg bs0 0 leader0 100 batches_in
    (after leader0 batches_in) start_leader _ _)).
  - repeat constructor.
  - apply is_done_final. vm_compute. reflexivity.
Defined.

(** One replica's vote, repeated, passes for a certificate: with f = 1
    the distinct signers are required to be at least f, not f + 1. *)
Example synchs_accepts_f_signers :
  let cx := after follower0 (take 1 fork) in
  let c := mkCertificate (CTVote 0 (block_hash b1)) [vote 2 0 b1; vote 2 0 b1] in
  match check_proposal (proposal b2 c) b2 cx with Done r _ => r | _ => false end = true.
Proof. vm_compute. reflexivity. Qed.

Lemma synchs_bad_vote_witness :
  react 100 (EvMsg (VoteMsg (mkCertificate CTDEFAULT [mkVote 2 []]) propose_new)) follower0 =
    Panicked "internal error: entered unreachable code: other vote types cant be here".
Proof.
  apply (synchs_bad_vote_panics 100 follower0 _ _ (mkVote 2 [])). split.
  - reflexivity.
  - eexists. vm_compute. reflexivity.
  - intros w d. discriminate.
Defined.

Lemma first_signed c v b : b = b1 ∨ b = b1' →
  signed_first follower0 0 10%N (mkPropose (10%N :: block_hash b) c v (block_hash b)) b.
Proof. intros [-> | ->]; split; vm_compute; reflexivity. Qed.

Lemma synchs_other_view_witness :
  react 100 (EvMsg (NewProposal (mkPropose (10%N :: block_hash b1) empty_cert 1 (block_hash b1))
                      b1 (batch 1))) follower0 =
    Panicked "This view check should be unreachable".
Proof.
  apply (synchs_other_view_panics 100 follower0 0 10%N).
  - apply first_signed. by left.
  - vm_compute. discriminate.
Defined.

(** A node at height 2 is taken back to height 1. *)
Definition at_two : Context :=
  after follower0 [Turn 0 (propose_msg b1 empty_cert 1);
    Turn 1 (propose_msg b2 (mkCertificate (CTVote 0 (block_hash b1)) [vote 0 0 b1; vote 2 0 b1]) 3)].

Lemma synchs_restarts_witness :
  Types.height (header (last_seen_block at_two)) = 2%N ∧
  ∃ cx', on_receive_proposal (proposal b1' empty_cert) b1' (batch 2) at_two = Done true cx' ∧
    last_seen_block cx' = b1'.
Proof.
  split; [vm_compute; reflexivity|].
  destruct (synchs_restarts_at_one at_two 0 10%N (proposal b1' empty_cert) b1' (batch 2)
    (11%N :: ser_cert_type (CTVote 0 (block_hash b1')))) as (cx' & E & Hl & _).
  - split; vm_compute; reflexivity.
  - vm_compute. reflexivity.
  - vm_compute. reflexivity.
  - vm_compute. reflexivity.
  - vm_compute. reflexivity.
  - exists cx'. split; [exact E|exact Hl].
Defined.
End Examples.
End SyncHSProofs.
