(* ===== verification/OptSyncProofs.v ===== *)
(** * Opt Sync: responsive and timed commits

    The lemmas of SyncHSProofs.v on the common state, carried over; the
    responsive certificates; why a node commits what it commits. *)

From S2P Require Import Prelude Crypto Types Config Storage Batch NodeIO SyncHS OptSync SyncHSProofs.

Module OptSyncProofs.
Import OptSync.
Import SyncHSProofs (static, core, genuine, turned, advances, history, msg_ok, event_ok, input_ok).
#[local] Existing Instances SyncHS.eta_Context eta_Context SyncHSProofs.advances_preorder.
Module S := SyncHSProofs.

Section invariant.
Context `{Bincode} `{Store} `{NetOracle} `{DelayQueue SyncHS.Propose}
  `{!DelayQueueLaws SyncHS.Propose}.
Implicit Types (cx : Context) (p : SyncHS.Propose) (b : Block) (pn : Prop).

Abbreviation delivered b h :=
  (is_Some (all_delivered_blocks_by_hash (SyncHS.storage b) !! h)).
Abbreviation committed b := (committed_blocks_by_hash (SyncHS.storage b)).

(** Enough votes to commit without waiting. *)
Definition quorum (b : SyncHS.Context) : N := (wrap64 (3 * SyncHS.num_nodes b) / 4)%N.

Definition responsive cx (h : Hash) (c : Certificate) : Prop :=
  (quorum (base cx) ≤ N.of_nat (length (votes c)))%N ∧ Forall (genuine (base cx) h) (votes c).

Record inv pn cx : Prop := {
  inv_base : S.inv pn (base cx);
  inv_resp : ∀ h c, resp_cert cx !! h = Some c → responsive cx h c;
}.

(** What no handler undoes. *)
Record kept cx cx' : Prop := {
  kp_d2 : d2 cx' = d2 cx;
  kp_resp : ∀ h, is_Some (resp_cert cx !! h) → is_Some (resp_cert cx' !! h);
}.
#[export] Instance kept_preorder : PreOrder kept.
Proof. split; [by split|]. intros ??? [] []. split; [congruence|eauto]. Qed.

Record progressed pn cx cx' : Prop := {
  pg_inv : inv pn cx';
  pg_kept : kept cx cx';
  pg_advances : advances (d2 cx) (base cx) (base cx');
}.
Lemma opt_progressed_refl pn cx : inv pn cx → progressed pn cx cx.
Proof. by split. Qed.
Lemma opt_progressed_trans pn cx cx1 cx' :
  progressed pn cx cx1 → progressed pn cx1 cx' → progressed pn cx cx'.
Proof.
  intros [_ [Hd ?] ?] [? Hk Ha]. split; [done|etrans; [by split|done]|].
  rw Hd in Ha. by etrans.
Qed.

(** A step of the common part. *)
Lemma base_progressed pn cx (b' : SyncHS.Context) :
  inv pn cx → S.progressed pn (d2 cx) (base cx) b' → progressed pn cx (cx <| base := b' |>).
Proof.
  intros [_ Hr] [Hi Ha]. split; [|by split|done]. split; [done|]. simpl. intros h c Hc.
  destruct (Hr _ _ Hc) as [Hq Hg]. pose proof (S.ad_static _ _ _ Ha) as Hs. split.
  - assert (SyncHS.num_nodes b' = SyncHS.num_nodes (base cx)) as En
      by (unfold static in Hs; congruence). unfold quorum in *. simpl. by rw En.
  - eapply Forall_impl; [exact Hg|]. intros v. by apply S.genuine_static.
Qed.

Lemma common_spec {A} pn cx (m : M SyncHS.Context A) (Φ : A → SyncHS.Context → Prop) :
  wpp pn m Φ (base cx) → wpp pn (common m) (λ a cx', ∃ b' : SyncHS.Context, cx' = cx <| base := b' |> ∧ Φ a b') cx.
Proof. intros Hm. apply wpp_zoom. eapply wpp_mono; [exact Hm|]. eauto. Qed.

Lemma opt_own_vote pn cx why h :
  inv pn cx → wpp pn (common (SyncHS.own_vote why h))
    (λ c cx', cx' = cx ∧ Forall (genuine (base cx) h) (votes c)) cx.
Proof.
  intros [Hi _]. eapply wpp_mono; [apply common_spec, S.own_vote_spec, Hi|].
  intros c cx' (b' & -> & -> & ?). split; [by destruct cx|done].
Qed.

(** A delivered block with this node's vote for it. *)
Lemma deliver_vote pn cx b c ls (b' : SyncHS.Context) :
  inv pn cx → delivered (base cx) (prev (header b)) →
  ls = b ∨ ls = SyncHS.last_seen_block (base cx) →
  Forall (genuine (base cx) (block_hash b)) (votes c) →
  core b' = core (base cx <| SyncHS.storage ::= add_delivered_block b |>
    <| SyncHS.last_seen_block := ls |> <| SyncHS.vote_map ::= insert (block_hash b) c |>) →
  progressed pn cx (cx <| base := b' |>).
Proof.
  intros Hi Hp Hls Hg Hc. apply base_progressed; [done|].
  set (b1 := base cx <| SyncHS.storage ::= _ |> <| SyncHS.last_seen_block := ls |>) in *.
  assert (S.progressed pn (d2 cx) (base cx) b1) as Hpg.
  { split; [|apply S.deliver_advances]. apply (S.index_inv _ (base cx)); [apply Hi|done|].
    by apply S.deliver_index; [apply Hi| |]. }
  eapply S.syn_progressed_trans; [exact Hpg|].
  set (b2 := b1 <| SyncHS.vote_map ::= _ |>) in *.
  assert (S.progressed pn (d2 cx) b1 b2) as Hpg2.
  { apply S.index_progressed; [apply Hpg| |done..].
    apply S.vote_insert_index; [apply Hpg|exact (add_delivered_self b (SyncHS.storage (base cx)))|done]. }
  eapply S.syn_progressed_trans; [exact Hpg2|]. apply S.syn_progressed_core; [apply Hpg2|done].
Qed.

Lemma opt_new_valid_spec pn cx p b :
  inv pn cx → block_hash b = SyncHS.prop_hash p →
  SyncHS.vote_map (base cx) !! SyncHS.prop_hash p = None →
  wpp pn (on_new_valid_proposal p b) (λ ok cx', progressed pn cx cx' ∧
    (ok = true → delivered (base cx') (SyncHS.prop_hash p))) cx.
Proof.
  intros Hi Hh Hv. unfold on_new_valid_proposal. apply wpp_bind, wpp_get. apply wpp_if; intros Hd.
  { apply wpp_ret. by split; [apply opt_progressed_refl|]. }
  apply negb_false_iff, is_delivered_spec in Hd.
  apply wpp_bind. eapply wpp_mono; [by apply opt_own_vote|]. intros c ? [-> Hg].
  rw Hv. apply wpp_bind. unfold common at 1. apply wpp_zoom. wpp_go. unfold SyncHS.multicast.
  wpp_go. split.
  - rw -Hh. by eapply (deliver_vote pn cx b c b); auto.
  - intros _. rw -Hh. exact (add_delivered_self b (SyncHS.storage (base cx))).
Qed.

Lemma opt_receive_spec pn cx p b batch :
  inv pn cx → pn ∨ SyncHS.prop_view p = SyncHS.view (base cx) →
  wpp pn (on_receive_proposal p b batch) (λ ok cx', progressed pn cx cx' ∧
    (ok = true → delivered (base cx') (SyncHS.prop_hash p))) cx.
Proof.
  intros Hi Hv. assert (progressed pn cx cx) by by apply opt_progressed_refl.
  unfold on_receive_proposal. apply wpp_bind, wpp_get. apply wpp_if; intros Hnd; [by apply wpp_ret|].
  apply wpp_bind. eapply wpp_mono; [apply common_spec, S.check_proposal_spec; [apply Hi|done]|].
  intros ok ? (b' & -> & -> & Hok). apply wpp_if; intros Eok; [by apply wpp_ret; destruct cx|].
  apply negb_false_iff in Eok. destruct (Hok Eok) as [Hh _].
  apply wpp_if; intros _; [by apply wpp_ret; destruct cx|].
  apply wpp_bind, wpp_zoom, wpp_modify. set (cx1 := _ <| base := _ |>).
  assert (progressed pn cx cx1) as Hpg.
  { apply (base_progressed pn cx); [done|]. by apply S.syn_progressed_core; [apply Hi|]. }
  eapply wpp_mono; [apply opt_new_valid_spec; [apply Hpg|done|]|].
  - destruct (_ !! SyncHS.prop_hash p) as [c|] eqn:Ec; [|done]. exfalso.
    apply (S.io_votes _ (S.inv_index _ _ (inv_base _ _ Hi))) in Ec as [Hd _].
    rw -Hh in Hd. apply is_delivered_spec in Hd. congruence.
  - intros ok' cx' [? ?]. split; [by eapply opt_progressed_trans|done].
Qed.

Lemma opt_queue_spec pn cx p :
  inv pn cx → delivered (base cx) (SyncHS.prop_hash p) →
  wpp pn (queue_commit p) (λ _ cx', progressed pn cx cx' ∧
    SyncHS.pending_batches (base cx') = SyncHS.pending_batches (base cx)) cx.
Proof.
  intros Hi Hd. unfold queue_commit. apply wpp_bind, wpp_get.
  eapply wpp_mono; [apply common_spec, (S.queue_spec pn); [apply Hi|done]|].
  intros [] ? (b' & -> & Hpg & ?). split; [by apply base_progressed|done].
Qed.

Lemma opt_propose_spec pn cx bh batch :
  inv pn cx →
  is_Some (SyncHS.cert_map (base cx) !! block_hash (SyncHS.last_seen_block (base cx))) →
  wpp pn (do_propose bh batch) (λ _ cx', progressed pn cx cx' ∧
    SyncHS.pending_batches (base cx') = SyncHS.pending_batches (base cx)) cx.
Proof.
  intros Hi [c Hc]. unfold do_propose. apply wpp_bind, wpp_get. cbv zeta.
  set (nb := SyncHS.block_on _ _ _).
  apply wpp_bind, wpp_unwrap; [intros pr _|intros Es]; last first.
  { destruct (S.inv_calm _ _ (inv_base _ _ Hi)) as [|[_ _ Hs]]; [done|].
    destruct (Hs (hash_as_ref (block_hash nb))). congruence. }
  apply wpp_bind. eapply wpp_mono; [by apply opt_own_vote|]. intros nc ? [-> Hg].
  rw Hc. apply wpp_bind, wpp_ret, wpp_bind. unfold common at 1. apply wpp_zoom. wpp_go.
  unfold SyncHS.multicast. wpp_go. set (cx1 := _ <| base := _ |>).
  assert (progressed pn cx cx1) as Hpg.
  { eapply (deliver_vote pn cx nb nc nb); [done| |by left|done|done].
    apply (S.io_last _ (S.inv_index _ _ (inv_base _ _ Hi))). }
  eapply wpp_mono; [apply opt_queue_spec; [apply Hpg|]|].
  - exact (add_delivered_self nb (SyncHS.storage (base cx))).
  - intros [] cx2 [Hpg2 Hp2]. apply wpp_ret. split; [by eapply opt_progressed_trans|by rw Hp2].
Qed.

(** A vote is filed: the blocks, the queue and the clock do not move. *)
Record filed pn cx cx' : Prop := {
  fi_inv : inv pn cx';
  fi_kept : kept cx cx';
  fi_static : static (base cx') = static (base cx);
  fi_storage : SyncHS.storage (base cx') = SyncHS.storage (base cx);
  fi_queue : SyncHS.commit_queue (base cx') = SyncHS.commit_queue (base cx);
  fi_now : SyncHS.now (base cx') = SyncHS.now (base cx);
}.
Lemma filed_refl pn cx : inv pn cx → filed pn cx cx.
Proof. by split. Qed.

Lemma filed_base pn cx (b' : SyncHS.Context) :
  inv pn cx → S.index_ok b' → static b' = static (base cx) →
  SyncHS.storage b' = SyncHS.storage (base cx) →
  SyncHS.commit_queue b' = SyncHS.commit_queue (base cx) →
  SyncHS.now b' = SyncHS.now (base cx) → filed pn cx (cx <| base := b' |>).
Proof.
  intros Hi Hx ????. split; try done. eapply pg_inv, base_progressed; [done|].
  apply S.index_progressed; [apply Hi|done..].
Qed.

Lemma filed_resp pn cx cx1 h c :
  filed pn cx cx1 → responsive cx1 h c →
  filed pn cx (cx1 <| resp_cert ::= insert h c |>).
Proof.
  intros [[Hi Hr] [Hd Hk] ????] Hc. split; try done.
  - split; [done|]. simpl. intros h' c'. rw lookup_insert. case_decide; [|apply Hr].
    subst. by intros [= <-].
  - split; [done|]. simpl. intros h' Hh'. rw lookup_insert. case_decide; [eauto|by apply Hk].
Qed.

(** The certificate of [h] with one more vote, promoted or not. *)
Definition refiled (promote : bool) (h : Hash) (full : Certificate) (b : SyncHS.Context)
    : SyncHS.Context :=
  let b := b <| SyncHS.vote_map ::= delete h |> in
  let b := if promote then b <| SyncHS.cert_map ::= insert h full |>
                             <| SyncHS.last_seen_cert := full |> else b in
  b <| SyncHS.vote_map ::= insert h full |>.

Lemma refiled_index promote h full (b : SyncHS.Context) :
  S.index_ok b → delivered b h → Forall (genuine b h) (votes full) →
  (promote = true → (SyncHS.num_faults b < N.of_nat (length (votes full)))%N) →
  S.index_ok (refiled promote h full b).
Proof.
  intros Hx Hd Hg Hp. pose proof (S.vote_delete_index b h Hx) as Hx1.
  unfold refiled. destruct promote; apply S.vote_insert_index; [|done..|done|done|done].
  pose proof (S.cert_insert_index _ h full Hx1 Hd (Hp eq_refl) Hg) as []. by split.
Qed.

Lemma filed_refiled pn cx promote h full :
  inv pn cx → delivered (base cx) h → Forall (genuine (base cx) h) (votes full) →
  (promote = true → (SyncHS.num_faults (base cx) < N.of_nat (length (votes full)))%N) →
  filed pn cx (cx <| base ::= refiled promote h full |>).
Proof.
  intros Hi Hd Hg Hp. apply filed_base; [done| |by destruct promote..].
  apply refiled_index; [apply Hi|done..].
Qed.

Lemma opt_add_vote_spec pn cx c h v :
  inv pn cx → delivered (base cx) h → votes c = [v] → genuine (base cx) h v →
  wpp pn (add_vote c h) (λ ok cx', filed pn cx cx' ∧
    (ok = true → is_Some (resp_cert cx' !! h))) cx.
Proof.
  intros Hi Hd Ev Hg. pose proof (S.inv_index _ _ (inv_base _ _ Hi)) as Hx.
  unfold add_vote. apply wpp_bind, wpp_get.
  destruct (SyncHS.vote_map (base cx) !! h) as [old|] eqn:Eo; last first.
  { apply wpp_bind, wpp_zoom, wpp_modify, wpp_ret. split; [|done].
    apply filed_base; [done| |done..]. apply S.vote_insert_index; [done..|].
    rw Ev. by apply Forall_singleton. }
  destruct (S.io_votes _ Hx _ _ Eo) as [_ Hgo].
  apply wpp_bind, wpp_zoom, wpp_modify, wpp_bind.
  eapply wpp_mono; [apply common_spec, (S.push_vote_spec pn _ c old v Ev)|].
  intros full ? (b' & -> & -> & ->). cbv zeta. set (full := mkCertificate _ _).
  assert (Forall (genuine (base cx) h) (votes full)) as Hgf
    by (apply Forall_app; split; [done|by apply Forall_singleton]).
  set (n := N.of_nat (length (votes full))).
  destruct (_ <=? n)%N eqn:Eq; destruct (SyncHS.num_faults (base cx) <? n)%N eqn:Ef;
    apply wpp_bind; wpp_go; apply wpp_zoom; wpp_go;
    (split; [|done || (intros _; simpl; rw lookup_insert_eq; eauto)]).
  - apply N.leb_le in Eq. apply N.ltb_lt in Ef.
    pose proof (filed_refiled pn cx true h full Hi Hd Hgf (λ _, Ef)) as Hf.
    exact (filed_resp pn cx _ h full Hf (conj Eq Hgf)).
  - apply N.leb_le in Eq.
    pose proof (filed_refiled pn cx false h full Hi Hd Hgf ltac:(done)) as Hf.
    exact (filed_resp pn cx _ h full Hf (conj Eq Hgf)).
  - apply N.ltb_lt in Ef. exact (filed_refiled pn cx true h full Hi Hd Hgf (λ _, Ef)).
  - exact (filed_refiled pn cx false h full Hi Hd Hgf ltac:(done)).
Qed.

Lemma opt_vote_spec pn cx c p :
  inv pn cx → pn ∨ (∃ w d, cert_msg c = CTVote w d) →
  wpp pn (on_vote c p) (λ ok cx', filed pn cx cx' ∧
    (ok = true → is_Some (resp_cert cx' !! SyncHS.prop_hash p))) cx.
Proof.
  intros Hi Hm. unfold on_vote. apply wpp_bind.
  eapply wpp_mono; [apply common_spec, S.vote_target_spec; [apply Hi|done]|].
  intros o ? (b' & -> & -> & Ho). assert (cx <| base := base cx |> = cx) as -> by by destruct cx.
  destruct o as [h|]; [|by apply wpp_ret; split; [apply filed_refl|]].
  destruct (Ho h eq_refl) as (-> & Hd & v & Ev & Hg). apply wpp_bind, wpp_get.
  apply wpp_if; intros _; [by apply wpp_ret; split; [apply filed_refl|]|].
  by eapply opt_add_vote_spec.
Qed.

(** ** Turns *)
Record turns pn cx cx' : Prop := {
  tu_inv : inv pn cx';
  tu_kept : kept cx cx';
  tu_turned : turned (λ h, is_Some (resp_cert cx' !! h)) (d2 cx) (base cx) (base cx');
}.

Lemma turned_mono (R R' : Hash → Prop) t (b b' : SyncHS.Context) :
  (∀ h, R h → R' h) → turned R t b b' → turned R' t b b'.
Proof. intros HR []. split; auto. intros h Hh. destruct (tn_committed h Hh) as [|[|]]; auto. Qed.

Lemma progressed_turns pn cx cx' : progressed pn cx cx' → turns pn cx cx'.
Proof. intros []. split; [done..|]. by apply S.advances_turned. Qed.

Lemma turns_progressed pn cx cx1 cx' : turns pn cx cx1 → progressed pn cx1 cx' → turns pn cx cx'.
Proof.
  intros [_ Hk Ht] [? Hk' Ha]. split; [done|by etrans|].
  rw (kp_d2 _ _ Hk) in Ha. eapply S.turned_advances; [|done].
  eapply turned_mono; [|done]. apply Hk'.
Qed.

(** Filing a vote, or polling the queue, and then committing. *)
Lemma commit_turns pn cx cx1 p :
  inv pn cx1 → kept cx cx1 → static (base cx1) = static (base cx) →
  SyncHS.storage (base cx1) = SyncHS.storage (base cx) →
  SyncHS.now (base cx1) = SyncHS.now (base cx) →
  (∀ x, x ∈ dq_entries (SyncHS.commit_queue (base cx1)) →
        x ∈ dq_entries (SyncHS.commit_queue (base cx))) →
  is_Some (resp_cert cx1 !! SyncHS.prop_hash p) ∨
    (∃ due, (due, p) ∈ dq_entries (SyncHS.commit_queue (base cx)) ∧
            (due ≤ SyncHS.now (base cx))%N) →
  wpp pn (on_commit p) (λ _ cx', turns pn cx cx') cx1.
Proof.
  intros Hi Hk Hst Hsg Hn Hq Hwhy.
  eapply wpp_mono; [apply common_spec, S.on_commit_spec|]. intros [] ? (b' & -> & _ & Hc).
  destruct (S.commit_inv pn _ p b' (inv_base _ _ Hi) Hc) as [Hib Ht].
  assert (static b' = static (base cx1)) as Hsb by exact (S.tn_static _ _ _ _ (Ht (λ _, True) 0%N I)).
  split; [split; [done|]|by destruct Hk|].
  - simpl. intros h c Hh. destruct (inv_resp _ _ Hi _ _ Hh) as [Hqu Hg]. split.
    + assert (SyncHS.num_nodes b' = SyncHS.num_nodes (base cx1)) as En
        by (unfold static in Hsb; congruence). unfold quorum in *. simpl. by rw En.
    + eapply Forall_impl; [exact Hg|]. intros v. by apply S.genuine_static.
  - simpl. apply (S.turned_after _ (λ h, h = SyncHS.prop_hash p) _ _ (base cx1));
      [done|done|by rw Hn|done| |by apply Ht].
    intros h ->. destruct Hwhy as [|(due & ? & ?)]; [by left|right].
    exists due, p. by rw Hn.
Qed.

Lemma process_spec pn cx msg :
  inv pn cx → pn ∨ msg_ok (SyncHS.view (base cx)) msg →
  wpp pn (process_msg msg) (λ _ cx', turns pn cx cx') cx.
Proof.
  intros Hi Hm. assert (turns pn cx cx) by by apply progressed_turns, opt_progressed_refl.
  destruct msg; try by apply wpp_ret.
  - apply wpp_bind. eapply wpp_mono; [by apply opt_receive_spec|].
    intros ok cx1 [Hpg Hd]. apply wpp_if; intros Hok; [|by apply wpp_ret, progressed_turns].
    eapply wpp_mono; [apply opt_queue_spec; [apply Hpg|by apply Hd]|].
    intros [] cx2 [? _]. by eapply progressed_turns, opt_progressed_trans.
  - apply wpp_bind. eapply wpp_mono; [by apply opt_vote_spec|].
    intros ok cx1 [[] Hr]. apply wpp_if; intros Hok.
    + apply commit_turns; [done..|by rw fi_queue0|left; by apply Hr].
    + apply wpp_ret. split; [done..|]. apply S.advances_turned.
      split; [done|done|by rw fi_storage0|by rw fi_storage0|rw fi_queue0; by left].
Qed.

Lemma opt_leader_step_spec pn cx :
  inv pn cx →
  wpp pn leader_step (λ (go : bool) cx', progressed pn cx cx' ∧ (go = true →
    length (SyncHS.pending_batches (base cx')) < length (SyncHS.pending_batches (base cx)))) cx.
Proof.
  intros Hi. unfold leader_step. apply wpp_bind, wpp_get.
  destruct (SyncHS.pending_batches (base cx)) as [|[bh batch] rest] eqn:Ep.
  { apply wpp_ret. by split; [apply opt_progressed_refl|]. }
  apply wpp_if; [intros [_ Hc%bool_decide_eq_true]%andb_true_iff|intros _]; last first.
  { apply wpp_ret. by split; [apply opt_progressed_refl|]. }
  apply wpp_bind, wpp_zoom, wpp_modify. set (cx1 := _ <| base := _ |>).
  assert (progressed pn cx cx1) as Hpg.
  { apply base_progressed; [done|]. by apply S.syn_progressed_core; [apply Hi|]. }
  apply wpp_bind. eapply wpp_mono; [apply opt_propose_spec; [apply Hpg|done]|].
  intros o cx2 [Hpg2 Hp2]. apply wpp_ret. split; [by eapply opt_progressed_trans|].
  intros _. rw Hp2. simpl. lia.
Qed.

Lemma opt_leader_drain_spec pn cx :
  inv pn cx → wpp pn leader_drain (λ _ cx', progressed pn cx cx') cx.
Proof.
  intros Hi. unfold leader_drain. apply wpp_bind, wpp_get.
  apply (wpp_loop (λ cx', progressed pn cx cx')
           (λ cx', length (SyncHS.pending_batches (base cx'))));
    [|by apply opt_progressed_refl|lia].
  intros cx1 Hpg. eapply wpp_mono; [apply opt_leader_step_spec, Hpg|].
  intros go cx2 [Hpg2 Hlt]. assert (progressed pn cx cx2) by by eapply opt_progressed_trans.
  destruct go; [split; [done|by apply Hlt]|done].
Qed.

Lemma opt_react_spec pn cx ev :
  inv pn cx → pn ∨ event_ok (SyncHS.view (base cx)) ev →
  wpp pn (react ev) (λ _ cx', turns pn cx cx') cx.
Proof.
  intros Hi He. assert (turns pn cx cx) by by apply progressed_turns, opt_progressed_refl.
  assert (∀ cx1, turns pn cx cx1 →
    wpp pn (leader_drain;;; ret true) (λ _ cx', turns pn cx cx') cx1) as Hl.
  { intros cx1 Ht. apply wpp_bind. eapply wpp_mono; [apply opt_leader_drain_spec, Ht|].
    intros [] cx2 Hpg2. apply wpp_ret. by eapply turns_progressed. }
  destruct ev as [msg| | |bh batch| | |]; try by apply wpp_ret.
  - apply wpp_bind. eapply wpp_mono; [by apply process_spec|]. intros [] cx1. apply Hl.
  - unfold react. apply wpp_bind, wpp_zoom, wpp_modify, Hl, progressed_turns, base_progressed;
      [done|]. by apply S.syn_progressed_core; [apply Hi|].
  - unfold react. apply wpp_bind, wpp_get.
    destruct (dq_poll _ _) as [[p q]|] eqn:Ep; [|by apply wpp_ret].
    destruct (S.poll_spec pn (d2 cx) _ _ _ (inv_base _ _ Hi) Ep) as (Hpg & Hsub & due & ? & ?).
    apply wpp_bind, wpp_zoom, wpp_modify, wpp_bind. set (cx1 := cx <| base := _ |>).
    assert (progressed pn cx cx1) as [Hi1 Hk1 _] by by apply base_progressed.
    eapply wpp_mono; [apply (commit_turns pn cx cx1)|]; [done..|right; eauto|].
    intros [] cx2. apply Hl.
Qed.

Lemma opt_take_input_spec pn cx i :
  inv pn cx → input_ok pn (SyncHS.view (base cx)) i →
  wpp pn (take_input i) (λ _ cx', turns pn cx cx') cx.
Proof.
  intros Hi Hok. destruct i as [t ev|h batch]; unfold take_input.
  - apply wpp_bind, wpp_zoom, wpp_modify. set (cx1 := cx <| base := _ |>).
    assert (inv pn cx1) as Hi1.
    { destruct Hi as [Hb Hr]. split; [|exact Hr]. apply (S.index_inv _ (base cx)); [done..|].
      by destruct (S.inv_index _ _ Hb); split. }
    eapply wpp_mono; [by apply opt_react_spec|]. intros go cx' [? Hk Ht]. split; [done|by destruct Hk|].
    eapply S.turned_after; [..|exact Ht]; [done|done| |done|by left]. simpl. lia.
  - apply wpp_bind, wpp_zoom, wpp_modify, wpp_ret, progressed_turns, base_progressed; [done|].
    by apply S.syn_progressed_core; [apply Hi|].
Qed.

(** ** Runs *)
Fixpoint trace (ins : list SyncHS.input) cx : list Context :=
  cx :: match ins with
        | [] => []
        | i :: ins' =>
            match take_input i cx with
            | Done true cx' => trace ins' cx'
            | Done false cx' => [cx']
            | _ => []
            end
        end.

Lemma opt_start_inv pn config bs t cx :
  context_new config bs t = Some cx → pn ∨ S.calm (base cx) → inv pn cx.
Proof.
  unfold context_new. destruct (SyncHS.context_new config bs t) as [b|] eqn:E; [|done].
  intros [= <-] Hp. split; [by eapply S.syn_start_inv|]. simpl. intros h c. by rw lookup_empty.
Qed.

Lemma turns_view pn cx cx' : turns pn cx cx' → SyncHS.view (base cx') = SyncHS.view (base cx).
Proof. intros [_ _ [E _ _ _ _ _]]. unfold static in E. congruence. Qed.

Lemma opt_run_spec pn ins cx :
  inv pn cx → Forall (input_ok pn (SyncHS.view (base cx))) ins →
  wpp pn (run ins) (λ _ cx', inv pn cx') cx.
Proof.
  revert cx. induction ins as [|i ins IH]; intros cx Hi Hok; simpl; [by apply wpp_ret|].
  apply Forall_cons in Hok as [Hok1 Hok]. apply wpp_bind.
  eapply wpp_mono; [by apply opt_take_input_spec|]. intros go cx1 Ht.
  apply wpp_if; intros _; [|apply wpp_ret, Ht]. apply IH; [apply Ht|].
  by rw (turns_view _ _ _ Ht).
Qed.

Definition committed_fast cx (h : Hash) : Prop := is_Some (resp_cert cx !! h).

Lemma opt_trace_history ins (P : SyncHS.Context → Prop) cx cx' :
  inv True cx → history (committed_fast cx) P (d2 cx) (base cx) → P (base cx) →
  run ins cx = Done tt cx' →
  inv True cx' ∧ history (committed_fast cx')
    (λ c, P c ∨ ∃ o, o ∈ trace ins cx ∧ base o = c) (d2 cx) (base cx').
Proof.
  revert P cx. induction ins as [|i ins IH]; intros P cx Hi Hh HP; simpl.
  { intros [= <-]. split; [done|]. eapply S.history_mono; [|done]. by left. }
  unfold bind. destruct (take_input i cx) as [go cx1| |] eqn:E; [|done..].
  assert (input_ok True (SyncHS.view (base cx)) i) as Hok by (destruct i; simpl; auto).
  destruct (wlp_done _ _ _ _ _ (opt_take_input_spec True cx i Hi Hok) E) as [Hi1 [Hd Hk] Ht].
  pose proof (S.history_step _ _ P (d2 cx) (base cx) (base cx1) Hk Hh Ht) as Hh1.
  destruct go; intros Hr.
  - rw -Hd in Hh1. destruct (IH _ cx1 Hi1 Hh1 ltac:(by right) Hr) as [Hi' Hh'].
    split; [done|]. rw -Hd. eapply S.history_mono; [|exact Hh'].
    intros c [[?| ->]|(o & Hin & <-)]; [by left| |]; right; [exists cx1|exists o];
      (split; [|done]); right; [destruct ins; by left|done].
  - injection Hr as <-. split; [done|]. eapply S.history_mono; [|exact Hh1].
    intros c [?| ->]; [by left|right; exists cx1; split; [right; by left|done]].
Qed.

(** C13.  Why a block is committed: if a run has committed a block other than
    the genesis block, then either the node holds a responsive certificate
    for it (three quarters of the nodes in votes, each signed for this block
    by the replica it names or by the node itself), or the node had
    delivered it 2Δ before. *)
Theorem optsync_commit_reason config bs t cx0 ins cx h :
  context_new config bs t = Some cx0 → run ins cx0 = Done tt cx →
  h ∈ committed (base cx) →
  h = block_hash GENESIS_BLOCK ∨
  (∃ c, resp_cert cx !! h = Some c ∧ responsive cx h c) ∨
  ∃ c, c ∈ trace ins cx0 ∧ delivered (base c) h ∧
    (SyncHS.now (base c) + SyncHS.two_delta config ≤ SyncHS.now (base cx))%N.
Proof.
  intros E0 Er Hh. assert (inv True cx0) as Hi by (eapply opt_start_inv; [done|by left]).
  assert (d2 cx0 = SyncHS.two_delta config ∧
    history (committed_fast cx0) (λ c, c = base cx0) (d2 cx0) (base cx0)) as [Hd Hh0].
  { unfold context_new in E0. destruct (SyncHS.context_new config bs t) eqn:E; [|done].
    injection E0 as <-. split; [done|]. by eapply S.start_history. }
  destruct (opt_trace_history ins _ cx0 cx Hi Hh0 eq_refl Er) as [Hi' Hist].
  destruct (S.hi_committed _ _ _ _ Hist h Hh) as [|[[c Hc]|(c & Hc & Hdel & Hle)]]; [by left| |].
  - right. left. exists c. split; [done|by apply Hi'].
  - right. right. rw Hd in Hle. destruct Hc as [->|(o & Ho & <-)].
    + exists cx0. split; [destruct ins; left|done].
    + exists o. done.
Qed.

(** A node with a usable configuration goes through any sequence of
    turns without a panic (it never already has a vote for a new proposal),
    as long as the proposals it is sent name view 0 and the votes are
    votes. *)
Theorem optsync_calm_run config bs t cx0 ins :
  context_new config bs t = Some cx0 →
  Config.num_nodes config ≠ 0%N → is_Some (pk_map config !! 0%N) →
  (∀ m, is_Some (sk_sign (SyncHS.my_secret_key (base cx0)) m)) →
  Forall (input_ok False 0) ins →
  ∃ cx, run ins cx0 = Done tt cx ∧ inv False cx.
Proof.
  intros E0 Hn Hk Hs Hok. pose proof E0 as E1. unfold context_new in E1.
  destruct (SyncHS.context_new config bs t) as [b|] eqn:E; [|done]. injection E1 as <-.
  destruct (S.start_calm config bs t b E Hn Hk Hs) as [Hcalm Hv].
  destruct (wpp_done _ _ _ (opt_run_spec False ins _
    (opt_start_inv _ _ _ _ _ E0 (or_intror Hcalm)) ltac:(by rw -Hv in Hok))) as ([] & cx & Er & Hi).
  eauto.
Qed.

(** [cx'] is [cx] after it proposed [p], which carries the certificate [c], for
    the batch [bh]. *)
Record extended cx (bh : Hash) batch c p cx' : Prop := {
  ex_prev : prev (header (SyncHS.last_seen_block (base cx'))) =
    block_hash (SyncHS.last_seen_block (base cx));
  ex_height : height (header (SyncHS.last_seen_block (base cx'))) =
    add64 (height (header (SyncHS.last_seen_block (base cx)))) 1;
  ex_author : author (header (SyncHS.last_seen_block (base cx'))) = SyncHS.myid (base cx);
  ex_batch : batch_hash (body (SyncHS.last_seen_block (base cx'))) = bh;
  ex_hashed : well_hashed (SyncHS.last_seen_block (base cx'));
  ex_prop : SyncHS.prop_hash p = block_hash (SyncHS.last_seen_block (base cx'));
  ex_cert : SyncHS.cert p = c;
  ex_vote : ∃ v, SyncHS.vote_map (base cx') !! SyncHS.prop_hash p = Some v ∧
    (origin <$> votes v) = [SyncHS.myid (base cx)];
  ex_sent : sent (SyncHS.consensus_net (base cx')) = sent (SyncHS.consensus_net (base cx)) ++
    ((λ to, (to, SyncHS.NewProposal p (SyncHS.last_seen_block (base cx')) batch)) <$>
       SyncHS.broadcast_peers (base cx));
  ex_queue : dq_entries (SyncHS.commit_queue (base cx')) ≡ₚ
    ((SyncHS.now (base cx) + d2 cx)%N, p) :: dq_entries (SyncHS.commit_queue (base cx));
}.

(** A proposal extends the chain: the new block has the block seen last
    as its parent and one more than its height, it becomes the block seen
    last, goes to every peer with the parent's certificate, carries this
    node's vote, and is due for commit 2Δ from now. *)
Theorem optsync_leader_extends cx bh batch c :
  (∀ m, is_Some (sk_sign (SyncHS.my_secret_key (base cx)) m)) →
  SyncHS.cert_map (base cx) !! block_hash (SyncHS.last_seen_block (base cx)) = Some c →
  ∃ p cx', do_propose bh batch cx = Done (Some p) cx' ∧ extended cx bh batch c p cx'.
Proof.
  intros Hs Hc. set (nb := SyncHS.block_on (SyncHS.last_seen_block (base cx)) bh (SyncHS.myid (base cx))).
  destruct (Hs (hash_as_ref (block_hash nb))) as [pr Ep].
  destruct (Hs (ser_cert_type (CTVote (SyncHS.view (base cx)) (block_hash nb)))) as [sg Es].
  unfold do_propose, bind, get. fold nb. rw Hc Ep. cbv beta iota delta [unwrap ret].
  unfold common at 1, zoom at 1, SyncHS.own_vote, bind, get. rw Es.
  eexists _, _. split; [reflexivity|]. split; try done.
  - by right.
  - eexists. split; [apply lookup_insert_eq|done].
  - apply net_broadcast_sent.
  - apply dq_entries_insert.
Qed.
End invariant.

(** ** Examples: the replicas and blocks of the Sync HotStuff examples *)
Module Examples.
Import Toy ToyFormat ToyQueue ConfigExamples.
Import SyncHSProofs.Examples (bs0, blank, leader_cfg, follower_cfg, batch, block, proposal,
  vote, propose_msg, b1, b2).

Definition start (config : Node) : Context :=
  default (mkContext blank 0 ∅) (context_new config bs0 0).
Definition after (cx : Context) (ins : list SyncHS.input) : Context := final cx (run ins cx).
Definition leader0 : Context := start leader_cfg.
Definition follower0 : Context := start follower_cfg.
Lemma opt_start_follower : context_new follower_cfg bs0 0 = Some follower0.
Proof. reflexivity. Qed.

Definition cert_of (b : Block) (vs : list Vote) : Certificate :=
  mkCertificate (CTVote 0 (block_hash b)) vs.
Definition vote_msg (r : Replica) (w : View) (b : Block) : SyncHS.event :=
  SyncHS.EvMsg (SyncHS.VoteMsg (mkCertificate (CTVote w (block_hash b)) [vote r w b])
                  (proposal b empty_cert)).
(** The child comes right after its parent and gets a second vote. *)
Definition chain : list SyncHS.input :=
  [SyncHS.Turn 0 (propose_msg b1 empty_cert 1);
   SyncHS.Turn 1 (propose_msg b2 (cert_of b1 [vote 0 0 b1; vote 2 0 b1]) 3);
   SyncHS.Turn 2 (vote_msg 2 0 b2)].

Lemma chain_runs : run chain follower0 = Done tt (after follower0 chain).
Proof. apply is_done_final. vm_compute. reflexivity. Qed.

(** A block is committed before its parent: a responsive commit commits
    the one block and not its ancestors, although the comment on `on_commit`
    says "this block and all its ancestors". *)
Example optsync_child_first :
  let s := SyncHS.storage (base (after follower0 chain)) in
  prev (header b2) = block_hash b1 ∧
  is_committed_by_hash s (block_hash b2) = true ∧ is_committed_by_hash s (block_hash b1) = false.
Proof. vm_compute. repeat split; reflexivity. Qed.

Lemma optsync_commit_reason_witness :
  block_hash b2 = block_hash GENESIS_BLOCK ∨
  (∃ c, resp_cert (after follower0 chain) !! block_hash b2 = Some c ∧
        responsive (after follower0 chain) (block_hash b2) c) ∨
  ∃ c, c ∈ trace chain follower0 ∧
    is_Some (all_delivered_blocks_by_hash (SyncHS.storage (base c)) !! block_hash b2) ∧
    (SyncHS.now (base c) + SyncHS.two_delta follower_cfg ≤
       SyncHS.now (base (after follower0 chain)))%N.
Proof.
  apply (optsync_commit_reason follower_cfg bs0 0 follower0 chain).
  - exact opt_start_follower.
  - exact chain_runs.
  - apply is_committed_spec. vm_compute. reflexivity.
Defined.

Lemma optsync_calm_run_witness : ∃ cx, run chain follower0 = Done tt cx ∧ inv False cx.
Proof.
  apply (optsync_calm_run follower_cfg bs0 0 follower0 chain).
  - exact opt_start_follower.
  - vm_compute. discriminate.
  - eexists. vm_compute. reflexivity.
  - intros m. eexists. reflexivity.
  - constructor; [right; reflexivity|]. constructor; [right; reflexivity|].
    constructor; [right; simpl; eauto|constructor].
Defined.

Lemma optsync_leader_extends_witness :
  ∃ p cx', do_propose (hash (batch 1)) (batch 1) leader0 = Done (Some p) cx' ∧
    SyncHS.cert p = empty_cert ∧
    prev (header (SyncHS.last_seen_block (base cx'))) = block_hash GENESIS_BLOCK.
Proof.
  destruct (optsync_leader_extends leader0 (hash (batch 1)) (batch 1) empty_cert)
    as (p & cx' & E & Hx).
  - intros m. eexists. reflexivity.
  - vm_compute. reflexivity.
  - exists p, cx'. split; [exact E|]. split; [exact (ex_cert _ _ _ _ _ _ Hx)|exact (ex_prev _ _ _ _ _ _ Hx)].
Defined.

(** Five replicas: three votes make a responsive certificate. *)
Definition cfg5 : Node :=
  follower_cfg <| Config.num_nodes := 5%N |> <| Config.num_faults := 2%N |>
    <| pk_map := {[ 0%N := [10%N]; 1%N := [11%N]; 2%N := [12%N]; 3%N := [13%N]; 4%N := [14%N] ]} |>.

(** The same vote counts twice: with the node's own vote and one other
    replica's, sent two times, three of five "votes" commit a block at
    once. *)
Example optsync_counts_votes_twice :
  let cx := after (start cfg5) [SyncHS.Turn 0 (propose_msg b1 empty_cert 1);
              SyncHS.Turn 1 (vote_msg 2 0 b1); SyncHS.Turn 2 (vote_msg 2 0 b1)] in
  quorum (base cx) = 3%N ∧
  is_committed_by_hash (SyncHS.storage (base cx)) (block_hash b1) = true ∧
  (λ c, origin <$> votes c) <$> resp_cert cx !! block_hash b1 = Some [1; 2; 2]%N.
Proof. vm_compute. repeat split; reflexivity. Qed.

(** A certificate can be poisoned: the view a vote is for is not
    checked, so a vote signed for view 7 completes the leader's certificate,
    and the next proposal, which carries it, is refused by the followers. *)
Example optsync_poisoned_certificate :
  let cx := after leader0 [SyncHS.Turn 0 (SyncHS.EvBatch (hash (batch 1)) (batch 1));
              SyncHS.Turn 1 (vote_msg 2 7 b1);
              SyncHS.Turn 2 (SyncHS.EvBatch (hash (batch 3)) (batch 3))] in
  let f := after follower0 (take 1 chain) in
  last (sent (SyncHS.consensus_net (base cx))) =
    Some (2%N, SyncHS.NewProposal
                 (proposal b2 (cert_of b1 [vote 0 0 b1; vote 2 7 b1])) b2 (batch 3)) ∧
  match check_proposal (proposal b2 (cert_of b1 [vote 0 0 b1; vote 2 7 b1])) b2 f with
  | Done r _ => r = false
  | _ => False
  end.
Proof. vm_compute. repeat split; reflexivity. Qed.
End Examples.
End OptSyncProofs.
