(* ===== verification/Stats.v ===== *)
(** * Latency statistics (consensus/src/lib.rs)

    The numbers the clients print.  The sums are exact; the final division to
    `f64` and the lines themselves are in Report.v.  A `SystemTime` is a number of
    nanoseconds; nothing says that it grows. *)

From S2P Require Import Prelude.

(** ** Time *)
Definition duration_since (later earlier : N) : option N :=
  if (earlier <=? later)%N then Some (later - earlier)%N else None.
Definition as_millis (d : N) : N := (d / 1000000)%N.

(** ** consensus/src/lib.rs *)
Definition LAT_WINDOW_SECS : N := 1.

(** The samples of a window; the value is what is printed, if anything. *)
Definition emit_window_latency : M (list N) (option N) :=
  let! samples := get in
  if bool_decide (samples = []) then ret None
  else
    modify (merge_sort N.le);;;
    let! sorted := get in
    let mid := length sorted / 2 in
    let! median :=
      if (length sorted mod 2 =? 0)%nat then
        let! lo := unwrap "index out of bounds" (sorted !! (mid - 1)) in
        let! hi := unwrap "index out of bounds" (sorted !! mid) in
        ret (add128 lo hi / 2)%N
      else unwrap "index out of bounds" (sorted !! mid) in
    modify (λ _, []);;;
    ret (Some median).

(** What `statistics` and `statistics_latency` add up before they divide by
    `f64`: the number of entries and the total time in milliseconds. *)
Record Summary := mkSummary { sm_idx : N; sm_total_time : N }.
#[export] Instance eta_Summary : Eta Summary := λ x, mkSummary (sm_idx x) (sm_total_time x).

Definition add_latency (e : N * N) : M Summary unit :=
  let! d := unwrap "time differencing errors" (duration_since e.2 e.1) in
  modify (λ s, s <| sm_idx ::= λ i, add64 i 1 |>
                 <| sm_total_time ::= λ t, add128 t (as_millis d) |>).

Definition summarise {K} `{Countable K} (latency_map : gmap K (N * N)) : M Summary unit :=
  for_each (map_to_list latency_map).*2 add_latency.

(** `statistics(now, start, latency_map)`: the entries, then the run's own
    duration (nanoseconds; printed as seconds). *)
Definition statistics {K} `{Countable K} (now start : N) (latency_map : gmap K (N * N))
    : M Summary N :=
  summarise latency_map;;;
  unwrap "time differencing errors" (duration_since now start).

Definition statistics_latency {K} `{Countable K} (latency_map : gmap K (N * N)) : M Summary unit :=
  summarise latency_map.

(** Apollo's and Artemis' throughput: confirmed over nanoseconds, 0 for an
    empty interval. *)
Definition emit_run_throughput (now start confirmed : N) : option (option (N * N)) :=
  match duration_since now start with
  | None => None
  | Some elapsed => Some (if (0 <? elapsed)%N then Some (confirmed, elapsed) else None)
  end.

(** ** Medians *)
Definition is_median (m : N) (l : list N) : Prop :=
  length l ≤ 2 * countb (λ s, s <=? m)%N l ∧ length l ≤ 2 * countb (λ s, m <=? s)%N l.

Lemma countb_mono {A} (p q : A → bool) l :
  (∀ x, p x = true → q x = true) → countb p l ≤ countb q l.
Proof.
  intros Hpq. induction l as [|x l IH]; simpl; [done|].
  destruct (p x) eqn:E; [rw (Hpq _ E); lia|destruct (q x); lia].
Qed.

Lemma countb_perm {A} (p : A → bool) l l' : l ≡ₚ l' → countb p l = countb p l'.
Proof. induction 1; simpl; lia. Qed.

Lemma countb_all {A} (p : A → bool) l : Forall (λ x, p x = true) l → countb p l = length l.
Proof. induction 1 as [|x l Hx _ IH]; simpl; [done|]. rw Hx. lia. Qed.

(** In a sorted list, what comes before an element is no larger, what comes
    after it no smaller. *)
Lemma sorted_counts (l : list N) i x :
  StronglySorted N.le l → l !! i = Some x →
  i < countb (λ s, s <=? x)%N l ∧ length l ≤ i + countb (λ s, x <=? s)%N l.
Proof.
  intros Hs. revert i. induction Hs as [|y l Hs IH Hy]; intros i; [done|].
  destruct i as [|i]; simpl.
  - intros [= ->]. rw N.leb_refl. split; [lia|].
    rw countb_all; [lia|]. eapply Forall_impl; [exact Hy|]. intros z. apply N.leb_le.
  - intros Hx. destruct (IH _ Hx) as [I1 I2].
    assert (y ≤ x)%N as Hyx%N.leb_le.
    { rw Forall_forall in Hy. apply Hy. by eapply list_elem_of_lookup_2. }
    rw Hyx. destruct (x <=? y)%N; lia.
Qed.

Lemma sorted_le (l : list N) i j x y :
  StronglySorted N.le l → i ≤ j → l !! i = Some x → l !! j = Some y → (x ≤ y)%N.
Proof.
  intros Hs. revert i j. induction Hs as [|z l Hs IH Hz]; intros i j Hij; [done|].
  destruct i as [|i], j as [|j]; simpl; [naive_solver| |lia|apply IH; lia].
  intros [= ->] Hy. rw Forall_forall in Hz. apply Hz. by eapply list_elem_of_lookup_2.
Qed.

#[local] Instance N_le_total : Total N.le.
Proof. intros x y. lia. Qed.

Lemma median_between (l : list N) (lo hi m : N) (i j : nat) :
  StronglySorted N.le l → l !! i = Some lo → l !! j = Some hi → (lo ≤ m ≤ hi)%N →
  length l ≤ 2 * i + 2 → 2 * j ≤ length l → is_median m l.
Proof.
  intros Hs Hi Hj Hm Hli Hlj. destruct (sorted_counts _ _ _ Hs Hi) as [C1 _].
  destruct (sorted_counts _ _ _ Hs Hj) as [_ C2]. split.
  - assert (countb (λ s, s <=? lo)%N l ≤ countb (λ s, s <=? m)%N l); [|lia].
    apply countb_mono. intros z. rw !N.leb_le. lia.
  - assert (countb (λ s, hi <=? s)%N l ≤ countb (λ s, m <=? s)%N l); [|lia].
    apply countb_mono. intros z. rw !N.leb_le. lia.
Qed.

Lemma is_median_perm m l l' : l ≡ₚ l' → is_median m l → is_median m l'.
Proof. intros E. unfold is_median. by rw !(countb_perm _ _ _ E) (Permutation_length E). Qed.

Lemma emit_window_latency_spec (samples : list N) :
  ∃ out, emit_window_latency samples = Done out [] ∧
    match out with
    | None => samples = []
    | Some m => samples ≠ [] ∧
        (Forall (λ s, (s + s < u128_size)%N) samples → is_median m samples)
    end.
Proof.
  enough (wp emit_window_latency (λ out s', s' = [] ∧
    match out with None => samples = [] | Some m => samples ≠ [] ∧
      (Forall (λ s, (s + s < u128_size)%N) samples → is_median m samples) end)
    samples) as (out & s' & E & -> & Ho)%wpp_done by eauto.
  destruct (decide (samples = [])) as [->|Hne]; [done|].
  pose proof (merge_sort_Permutation N.le samples) as Hp.
  pose proof (StronglySorted_merge_sort N.le samples) as Hs.
  unfold emit_window_latency. apply wpp_bind, wpp_get. rw bool_decide_eq_false_2 //.
  apply wpp_bind, wpp_modify, wpp_bind, wpp_get. set (l := merge_sort N.le samples) in *.
  assert (length l ≠ 0) as Hl0 by (rw (Permutation_length Hp); by destruct samples).
  pose proof (Nat.div_mod_eq (length l) 2) as Hdm.
  pose proof (Nat.mod_upper_bound (length l) 2) as Hmod.
  assert (is_Some (l !! (length l / 2))) as [hi Hhi] by (apply lookup_lt_is_Some; lia).
  assert (∀ i lo m, l !! i = Some lo → (lo ≤ m ≤ hi)%N → length l ≤ 2 * i + 2 →
    is_median m samples) as Hmed.
  { intros i lo m ???. eapply is_median_perm; [done|].
    apply (median_between l lo hi m i (length l / 2)); [done..|lia]. }
  rw Hhi. apply wpp_bind. case_eq (length l mod 2 =? 0)%nat;
    [intros Epar%Nat.eqb_eq|intros Epar%Nat.eqb_neq].
  - assert (is_Some (l !! (length l / 2 - 1))) as [lo Hlo] by (apply lookup_lt_is_Some; lia).
    rw Hlo. wpp_go. split; [done|]. split; [done|]. intros Hb.
    assert (lo ≤ hi)%N as Hle by (apply (sorted_le l (length l / 2 - 1) (length l / 2)); [done|lia|done..]).
    assert (hi + hi < u128_size)%N as Hh.
    { rw Forall_forall in Hb. apply Hb. rw -Hp. by eapply list_elem_of_lookup_2. }
    unfold add128, wrap128. rw N.mod_small; [|lia].
    apply (Hmed _ _ _ Hlo); [|lia].
    split; [apply N.div_le_lower_bound; lia|apply N.Div0.div_le_upper_bound; lia].
  - wpp_go. split; [done|]. split; [done|]. intros _. apply (Hmed _ _ _ Hhi); lia.
Qed.

(** `emit_window_latency` never panics (its index expressions are in range),
    prints nothing for an empty window, and otherwise prints a median of the
    window: at least half of the samples are at most the value printed and at
    least half are at least it (given that two samples can be added in 128
    bits).  It leaves the window empty. *)
Theorem window_latency_median (samples : list N) :
  Forall (λ s, (s + s < u128_size)%N) samples →
  ∃ out, emit_window_latency samples = Done out [] ∧
    match out with
    | None => samples = []
    | Some m => samples ≠ [] ∧ is_median m samples
    end.
Proof.
  intros Hb. destruct (emit_window_latency_spec samples) as (out & E & Ho).
  exists out. split; [done|]. destruct out; naive_solver.
Qed.

Lemma window_latency_median_witness :
  emit_window_latency [9; 1; 7; 4]%N = Done (Some 5%N) [] ∧ is_median 5 [9; 1; 7; 4]%N.
Proof.
  assert (emit_window_latency [9; 1; 7; 4]%N = Done (Some 5%N) []) as E
    by (vm_compute; reflexivity).
  split; [exact E|]. destruct (window_latency_median [9; 1; 7; 4]%N) as (out & E' & Ho).
  { repeat constructor; vm_compute; reflexivity. }
  rw E in E'. injection E' as <-. apply Ho.
Defined.

(** ** Sums *)
Definition total_ms (l : list (N * N)) : N :=
  foldr (λ e acc, as_millis (e.2 - e.1) + acc)%N 0%N l.

Lemma for_each_latency (l : list (N * N)) (i t : N) :
  Forall (λ e, (e.1 ≤ e.2)%N) l →
  for_each l add_latency (mkSummary (wrap64 i) (wrap128 t)) =
  Done tt (mkSummary (wrap64 (i + N.of_nat (length l))) (wrap128 (t + total_ms l))).
Proof.
  intros Hl. revert i t. induction Hl as [|e l He Hl IH]; intros i t.
  { simpl. by rw !N.add_0_r. }
  assert (add_latency e (mkSummary (wrap64 i) (wrap128 t)) =
    Done tt (mkSummary (wrap64 (i + 1)) (wrap128 (t + as_millis (e.2 - e.1))))) as E.
  { unfold add_latency, duration_since. apply N.leb_le in He. rw He.
    assert (add64 (wrap64 i) 1 = wrap64 (i + 1)) as Ei
      by (unfold add64, wrap64; apply N.Div0.add_mod_idemp_l).
    assert (∀ d, add128 (wrap128 t) d = wrap128 (t + d)) as Et
      by (intros d; unfold add128, wrap128; apply N.Div0.add_mod_idemp_l).
    by rw -Ei -Et. }
  simpl for_each. unfold bind. rw E IH. do 3 f_equal; [simpl length; lia|].
  simpl total_ms. lia.
Qed.

(** If no entry ends before it begins, the statistics count the entries and
    add their milliseconds up. *)
Lemma summarise_spec {K} `{Countable K} (m : gmap K (N * N)) :
  map_Forall (λ _ e, (e.1 ≤ e.2)%N) m →
  summarise m (mkSummary 0 0) =
  Done tt (mkSummary (wrap64 (N.of_nat (size m))) (wrap128 (total_ms (map_to_list m).*2))).
Proof.
  intros Hm. unfold summarise. rw (for_each_latency _ 0 0).
  - by rw length_fmap length_map_to_list N.add_0_l N.add_0_l.
  - apply Forall_forall. intros e ([k e'] & -> & Hin)%list_elem_of_fmap.
    apply elem_of_map_to_list in Hin. by apply (Hm k).
Qed.
