(* ===== verification/KeyedClient.v ===== *)
(** * The client of Apollo and Artemis

    The open-loop client of consensus/{apollo,artemis}/src/client/start.rs and
    its forwarder consensus/apollo/src/normal_client/start.rs: it mints keyed
    transactions in bursts and counts the confirmations the servers' routers
    send back.

    The client is a `select!` loop, so a run is a list of events: a timer, or
    a message from a server. *)

From S2P Require Import Prelude Crypto Types Text Config Batch TxPool Keyed NodeIO Stats.

Module KeyedClient.

Record State `{Crypto} := mkState {
  peer_map : gmap N SocketAddr;
  reply_to : SocketAddr;
  payload : nat;
  my_client_id : ClientId;
  burst_size : nat;
  metric : N;
  nonce : N;
  time_map : gmap Hash N;
  num_cmds : N;
  window_samples : list N;
  (** What was put on the wire, and the latencies printed, oldest first. *)
  outbox : list (N * ClientMsg Transaction);
  printed : list N;
}.
Arguments mkState {_}.
#[export] Instance eta_State `{Crypto} : Eta State := λ x,
  mkState (peer_map x) (reply_to x) (payload x) (my_client_id x) (burst_size x) (metric x)
    (nonce x) (time_map x) (num_cmds x) (window_samples x) (outbox x) (printed x).

Inductive event `{Crypto} :=
  | EvLatWindow
  | EvBurst (now : N)
  (** The item that woke the branch and those that are ready behind it. *)
  | EvConfirm (now : N) (item : stream_item (ClientMsg Transaction))
      (ready : list (stream_item (ClientMsg Transaction))).

Section client.
Context `{Bincode}.
Implicit Types st : State.

(** Everything before the loop; [None] is a panic. *)
Definition init (c : Client) (metric txs_per_burst : N) : option State :=
  peer_map ← parse_entries (map_to_list (c_net_map c)) ∅;
  reply_to ← parse_addr (c_my_listen_addr c);
  Some {| peer_map := peer_map; reply_to := reply_to; payload := N.to_nat (c_payload c);
          my_client_id := c_my_id c; burst_size := N.to_nat (N.max txs_per_burst 1);
          metric := metric; nonce := 1; time_map := ∅; num_cmds := 0;
          window_samples := []; outbox := []; printed := [] |}.

(** The tail of [emit_window_latency] seen from the client. *)
Definition emit_latency : M State unit := λ st,
  match emit_window_latency (window_samples st) with
  | Done out samples =>
      Done tt (st <| window_samples := samples |>
                  <| printed ::= λ l, l ++ match out with Some m => [m] | None => [] end |>)
  | Panicked w => Panicked w
  | OutOfFuel => OutOfFuel
  end.

(** `for _ in 0..burst_size`: the batch. *)
Fixpoint mint_batch (now : N) (count : nat) : M State (list Transaction) :=
  match count with
  | O => ret []
  | S count' =>
      let! st := get in
      let tx := new_dummy_tx_keyed (my_client_id st) (nonce st) (payload st) in
      modify (λ st, st <| nonce ::= λ n, add64 n 1 |>
                       <| time_map ::= insert (tx_hash tx) now |>);;;
      let! batch := mint_batch now count' in
      ret (tx :: batch)
  end.

Definition all_servers st : list N := (map_to_list (peer_map st)).*1.

Definition on_burst (now : N) : M State unit :=
  let! st := get in
  let! batch := mint_batch now (burst_size st) in
  let! st := get in
  modify (λ st, st <| outbox ::= λ l,
    l ++ ((λ s, (s, NewBatch batch (reply_to st))) <$> all_servers st) |>).

(** One confirmed hash. *)
Definition confirm (now : N) (h : Hash) : M State unit :=
  modify (λ st,
    match time_map st !! h with
    | Some t0 =>
        st <| time_map ::= delete h |>
           <| window_samples ::= λ l, l ++ [default 0%N (as_millis <$> duration_since now t0)] |>
           <| num_cmds ::= λ n, add128 n 1 |>
    | None => st
    end).

(** The drain ends at the first item that is not a confirmation, which is
    lost. *)
Fixpoint drain (now : N) (ready : list (stream_item (ClientMsg Transaction))) : M State unit :=
  match ready with
  | Item (Confirmation h) :: ready' => confirm now h;;; drain now ready'
  | _ => ret tt
  end.

(** The check at the bottom of the loop: whether the client returns. *)
Definition finish : M State bool :=
  let! st := get in
  if (metric st <? num_cmds st)%N then emit_latency;;; ret true else ret false.

Definition react (ev : event) : M State bool :=
  match ev with
  | EvLatWindow => emit_latency;;; finish
  | EvBurst now => on_burst now;;; finish
  | EvConfirm now item ready =>
      match item with
      | DecodeError | Closed => ret false
      | Item (Confirmation h) => confirm now h;;; drain now ready;;; finish
      | Item _ => finish
      end
  end.

(** The value says whether the client returned. *)
Fixpoint run (evs : list event) : M State bool :=
  match evs with
  | [] => ret false
  | ev :: evs' => let! done := react ev in if done : bool then ret true else run evs'
  end.

(** `start`: the set-up (a timer needs a period) and then the loop.  Artemis'
    client is the same text. *)
Definition client_start (c : Client) (metric txs_per_burst burst_interval_ms : N) (evs : list event)
    : outcome State bool :=
  match init c metric txs_per_burst with
  | None => Panicked "invalid address"
  | Some st => if (burst_interval_ms =? 0)%N then Panicked "`period` must be non-zero." else run evs st
  end.
Definition artemis_start : Client → N → N → N → list event → outcome State bool := client_start.
End client.

(** *** consensus/apollo/src/normal_client/start.rs *)
Definition normal_txs_per_burst (window : N) : N := N.max window 1.
Definition normal_init `{Bincode} (c : Client) (metric window : N) : option State :=
  init c metric (normal_txs_per_burst window).

(** *** What the client has minted *)
Section facts.
Context `{Bincode}.
Implicit Types st : State.

Definition tx_of st (n : nat) : Transaction :=
  new_dummy_tx_keyed (my_client_id st) (N.of_nat n) (payload st).
Definition minted_from st (n k : nat) : list Transaction := tx_of st <$> seq n k.
Definition minted st (k : nat) : list Transaction := minted_from st 1 k.

Lemma minted_app st j k : minted st (j + k) = minted st j ++ minted_from st (S j) k.
Proof. unfold minted, minted_from. by rw -fmap_app seq_app. Qed.

(** The transactions that went to server [s], in order. *)
Definition received_by (s : N) (out : list (N * ClientMsg Transaction)) : list Transaction :=
  concat ((λ m, match m with NewBatch b _ => b | _ => [] end) <$> sent_to s out).

Lemma received_broadcast s out (servers : list N) batch to :
  NoDup servers → s ∈ servers →
  received_by s (out ++ ((λ s, (s, NewBatch batch to)) <$> servers)) = received_by s out ++ batch.
Proof.
  intros Hnd Hin. unfold received_by. rw sent_to_app sent_to_broadcast // fmap_app concat_app.
  by rw /= app_nil_r.
Qed.

(** The settings a run never changes. *)
Definition same_setup st0 st : Prop :=
  peer_map st = peer_map st0 ∧ reply_to st = reply_to st0 ∧ payload st = payload st0 ∧
  my_client_id st = my_client_id st0 ∧ burst_size st = burst_size st0 ∧ metric st = metric st0.

(** After [k] transactions: each waits for its confirmation or was counted. *)
Record counted st0 (k : nat) st : Prop := {
  ct_setup : same_setup st0 st;
  ct_nonce : nonce st = N.of_nat (S k);
  ct_fits : (N.of_nat (S k) < u64_size)%N;
  ct_keys h t : time_map st !! h = Some t → h ∈ tx_hash <$> minted st0 k;
  ct_count : (num_cmds st + N.of_nat (size (time_map st)) = N.of_nat k)%N;
}.

Lemma counted_same st0 k st st' :
  counted st0 k st → same_setup st st' → nonce st' = nonce st → time_map st' = time_map st →
  num_cmds st' = num_cmds st → counted st0 k st'.
Proof.
  intros [(S1 & S2 & S3 & S4 & S5 & S6) C2 C3 C4 C5] (T1 & T2 & T3 & T4 & T5 & T6) En Et Ec.
  split; rw ?En ?Et ?Ec //. unfold same_setup. by rw T1 T2 T3 T4 T5 T6.
Qed.

Lemma emit_latency_spec st :
  wp emit_latency (λ _ st', same_setup st st' ∧ nonce st' = nonce st ∧
    time_map st' = time_map st ∧ num_cmds st' = num_cmds st ∧ outbox st' = outbox st) st.
Proof.
  unfold wpp, emit_latency. destruct (emit_window_latency_spec (window_samples st)) as (out & -> & _).
  done.
Qed.

Lemma finish_spec st :
  wp finish (λ fin st', same_setup st st' ∧ nonce st' = nonce st ∧
    time_map st' = time_map st ∧ num_cmds st' = num_cmds st ∧ outbox st' = outbox st ∧
    fin = (metric st <? num_cmds st)%N) st.
Proof.
  unfold finish. apply wpp_bind, wpp_get. destruct (metric st <? num_cmds st)%N; wpp_go; [|done].
  eapply wpp_mono; [apply emit_latency_spec|]. intros [] st' (? & ? & ? & ? & ?). wpp_go. done.
Qed.

Lemma confirm_counted st0 k st now h :
  counted st0 k st →
  wp (confirm now h) (λ _ st', counted st0 k st' ∧ outbox st' = outbox st ∧
    time_map st' = delete h (time_map st) ∧
    num_cmds st' = (num_cmds st + match time_map st !! h with Some _ => 1 | None => 0 end)%N) st.
Proof.
  intros [C1 C2 C3 C4 C5]. unfold confirm. wpp_go.
  destruct (time_map st !! h) as [t0|] eqn:E.
  - assert (size (time_map st) = S (size (delete h (time_map st)))) as Hs.
    { rw map_size_delete_Some; [|by rw E]. assert (size (time_map st) ≠ 0); [|lia].
      intros Hz%map_size_empty_inv. by rw Hz lookup_empty in E. }
    assert (add128 (num_cmds st) 1 = (num_cmds st + 1)%N) as Ea.
    { unfold add128, wrap128. apply N.mod_small. unfold u128_size, u64_size in *. lia. }
    split; [split; simpl; try done|split; [done|split; [done|exact Ea]]].
    + intros h' t. rw lookup_delete_Some. intros [_ ?]. by apply (C4 _ t).
    + rw Ea. lia.
  - split; [done|]. split; [done|]. rw delete_id //. split; [done|lia].
Qed.

Lemma drain_counted st0 k ready st now :
  counted st0 k st →
  wp (drain now ready) (λ _ st', counted st0 k st' ∧ outbox st' = outbox st) st.
Proof.
  revert st. induction ready as [|[| |[tx a|b a|h]] ready IH]; intros st Hc; simpl; wpp_go; try done.
  eapply wpp_mono; [by apply confirm_counted|]. intros [] st1 (H1 & H2 & _).
  eapply wpp_mono; [by apply IH|]. intros [] st2 [??]. by rw -H2.
Qed.

(** Confirmations of distinct waiting transactions count one each. *)
Lemma drain_all st0 k hs st now :
  counted st0 k st → NoDup hs → (∀ h, h ∈ hs → is_Some (time_map st !! h)) →
  wp (drain now ((λ h, Item (Confirmation h)) <$> hs))
    (λ _ st', counted st0 k st' ∧ num_cmds st' = (num_cmds st + N.of_nat (length hs))%N) st.
Proof.
  intros Hc Hnd. revert st Hc. induction Hnd as [|h hs Hh Hnd IH]; intros st Hc Hin; simpl; wpp_go.
  { split; [done|lia]. }
  eapply wpp_mono; [by apply confirm_counted|]. intros [] st1 (C1 & _ & C2 & C3).
  destruct (Hin h) as [t Ht]; [by constructor|]. rw Ht in C3.
  eapply wpp_mono; [apply IH; [done|]|].
  - intros h' Hh'. rw C2 lookup_delete_ne; [|naive_solver]. apply Hin. by constructor.
  - intros [] st2 [? E]. split; [done|]. rw E C3. lia.
Qed.
End facts.

(** *** Minting *)
Section minting.
Context `{BincodeTxLaws} `{!CollisionFree}.
Implicit Types st : State.

Lemma tx_of_hash_inj st m n :
  (my_client_id st < u16_size)%N → (N.of_nat m < u64_size)%N → (N.of_nat n < u64_size)%N →
  tx_hash (tx_of st m) = tx_hash (tx_of st n) → m = n.
Proof.
  intros Hc Hm Hn E. apply (inj do_hash), ser_tx_inj in E; [|done..].
  injection E. lia.
Qed.

Lemma minted_fresh st k :
  (my_client_id st < u16_size)%N → (N.of_nat (S k) < u64_size)%N →
  tx_hash (tx_of st (S k)) ∉ tx_hash <$> minted st k.
Proof.
  intros Hc Hk (tx & E & Hin)%list_elem_of_fmap.
  apply list_elem_of_fmap in Hin as (i & -> & Hi%elem_of_seq).
  apply tx_of_hash_inj in E; [lia|done|lia..].
Qed.

Lemma minted_hashes_NoDup st n k :
  (my_client_id st < u16_size)%N → (N.of_nat (n + k) ≤ u64_size)%N →
  NoDup (tx_hash <$> minted_from st n k).
Proof.
  intros Hc Hk. unfold minted_from. rw -list_fmap_compose.
  apply NoDup_fmap_2_strong; [|apply NoDup_seq].
  intros i j Hi%elem_of_seq Hj%elem_of_seq. apply tx_of_hash_inj; [done|lia..].
Qed.

Lemma mint_counted st0 now count k st :
  (my_client_id st0 < u16_size)%N → (N.of_nat (S (k + count)) < u64_size)%N →
  counted st0 k st →
  wp (mint_batch now count) (λ batch st', batch = minted_from st0 (S k) count ∧
    counted st0 (k + count) st' ∧ outbox st' = outbox st ∧ num_cmds st' = num_cmds st ∧
    (∀ tx, tx ∈ batch → time_map st' !! tx_hash tx = Some now) ∧
    (∀ h, h ∉ tx_hash <$> batch → time_map st' !! h = time_map st !! h)) st.
Proof.
  intros Hc. revert k st. induction count as [|count IH]; intros k st Hk Hct; simpl; wpp_go.
  { rw Nat.add_0_r. split; [done|]. split; [done|]. split; [done|]. split; [done|].
    split; [by intros ? ?%not_elem_of_nil|done]. }
  pose proof Hct as [(_ & _ & S3 & S4 & _ & _) C2 C3 C4 C5].
  assert (new_dummy_tx_keyed (my_client_id st) (nonce st) (payload st) = tx_of st0 (S k)) as Etx.
  { unfold tx_of. by rw S3 S4 C2. }
  rw Etx. assert (tx_hash (tx_of st0 (S k)) ∉ tx_hash <$> minted st0 k) as Hfr.
  { apply minted_fresh; [done|lia]. }
  eapply wpp_mono; [apply (IH (S k)); [by rw Nat.add_succ_l -Nat.add_succ_r|]|].
  - destruct Hct as [CS _ _ _ _]. split; [done| |lia| |]; cbn [nonce time_map num_cmds set].
    + simpl. rw C2 add64_small; lia.
    + intros h t. replace (minted st0 (S k)) with (minted st0 k ++ minted_from st0 (S k) 1)
        by by rw -minted_app Nat.add_1_r.
      rw fmap_app elem_of_app lookup_insert_Some.
      intros [[<- _]|[_ Ht]]; [right; by constructor|left; by apply (C4 _ t)].
    + simpl. rw map_size_insert_None; [lia|].
      destruct (time_map st !! tx_hash (tx_of st0 (S k))) as [t|] eqn:E; [|done].
      by apply C4 in E.
  - intros batch st' (Hb & Hct' & Ho & Hn & Hin & Hout). simpl in *. wpp_go.
    replace (k + S count) with (S k + count) by lia. rw Hb.
    split; [done|]. split; [done|]. split; [done|]. split; [done|]. rw -Hb. split.
    + intros tx [->|Htx]%elem_of_cons; [|by apply Hin].
      destruct (decide (tx_hash (tx_of st0 (S k)) ∈ tx_hash <$> batch)) as [Hi|Hi].
      * apply list_elem_of_fmap in Hi as (tx & -> & Htx). by apply Hin.
      * by rw Hout // lookup_insert_eq.
    + intros h [Hh1 Hh2]%not_elem_of_cons. rw Hout // lookup_insert_ne //.
Qed.

Lemma on_burst_counted st0 now k st :
  (my_client_id st0 < u16_size)%N → (N.of_nat (S (k + burst_size st0)) < u64_size)%N →
  counted st0 k st →
  wp (on_burst now) (λ _ st', let batch := minted_from st0 (S k) (burst_size st0) in
    counted st0 (k + burst_size st0) st' ∧ num_cmds st' = num_cmds st ∧
    outbox st' = outbox st ++ ((λ s, (s, NewBatch batch (reply_to st0))) <$> all_servers st0) ∧
    ∀ tx, tx ∈ batch → time_map st' !! tx_hash tx = Some now) st.
Proof.
  intros Hc Hk Hct. pose proof (ct_setup _ _ _ Hct) as (S1 & S2 & S3 & S4 & S5 & S6).
  unfold on_burst. wpp_go. rw S5. eapply wpp_mono; [by apply mint_counted|].
  intros batch st1 (-> & Hct1 & Ho & Hn & Hin & _). wpp_go. cbv zeta.
  pose proof (ct_setup _ _ _ Hct1) as (T1 & T2 & T3 & T4 & T5 & T6).
  split; [by eapply counted_same|]. split; [done|]. split; [|done].
  simpl. unfold all_servers. by rw Ho T1 T2.
Qed.

(** *** Runs *)
Definition is_burst (ev : event) : bool := match ev with EvBurst _ => true | _ => false end.

(** What holds after [k] transactions between two events. *)
Definition client_inv st0 (k : nat) st : Prop :=
  counted st0 k st ∧ ∀ s, s ∈ all_servers st0 → received_by s (outbox st) = minted st0 k.

Definition mints (st0 : State) (ev : event) : nat := if is_burst ev then burst_size st0 else 0.

Lemma react_inv st0 k st ev :
  (my_client_id st0 < u16_size)%N → (N.of_nat (S (k + mints st0 ev)) < u64_size)%N →
  client_inv st0 k st → (num_cmds st ≤ metric st0)%N →
  wp (react ev) (λ fin st', client_inv st0 (k + mints st0 ev) st' ∧
    fin = (metric st0 <? num_cmds st')%N) st.
Proof.
  intros Hc Hk [Hct Hrv] Hle.
  assert (∀ k' st1, client_inv st0 k' st1 → wp finish (λ fin st',
    client_inv st0 k' st' ∧ fin = (metric st0 <? num_cmds st')%N) st1) as Hfin.
  { intros k' st1 [Hct1 Hrv1]. eapply wpp_mono; [apply finish_spec|].
    intros fin st' (Hs & En & Et & Ec & Eo & ->).
    pose proof (ct_setup _ _ _ Hct1) as (_ & _ & _ & _ & _ & E6). rw E6 Ec.
    split; [|done]. split; [by eapply counted_same|by rw Eo]. }
  assert (client_inv st0 k st ∧ false = (metric st0 <? num_cmds st)%N) as Hstay.
  { split; [done|]. symmetry. by apply N.ltb_ge. }
  destruct ev as [|now|now item ready]; unfold mints; simpl; rw ?Nat.add_0_r.
  - wpp_go. eapply wpp_mono; [apply emit_latency_spec|]. intros [] st1 (Hs & En & Et & Ec & Eo).
    apply Hfin. split; [by eapply counted_same|by rw Eo].
  - wpp_go. eapply wpp_mono; [by apply on_burst_counted|]. cbv zeta.
    intros [] st1 (Hct1 & _ & Eo & _). apply Hfin. split; [done|]. intros s Hs.
    rw Eo received_broadcast //; [|apply NoDup_fst_map_to_list]. rw Hrv //.
    by rw minted_app.
  - destruct item as [| |[tx a|b a|h]]; wpp_go; try done; try by apply Hfin.
    eapply wpp_mono; [by apply confirm_counted|]. intros [] st1 (Hct1 & Eo & _). wpp_go.
    eapply wpp_mono; [by apply drain_counted|]. intros [] st2 (Hct2 & Eo2).
    apply Hfin. split; [done|]. by rw Eo2 Eo.
Qed.

Lemma run_inv st0 evs k st :
  (my_client_id st0 < u16_size)%N →
  (N.of_nat (S (k + burst_size st0 * countb is_burst evs)) < u64_size)%N →
  client_inv st0 k st → (num_cmds st ≤ metric st0)%N →
  wp (run evs) (λ fin st', fin = (metric st0 <? num_cmds st')%N ∧
    ∃ j, client_inv st0 (k + j) st' ∧ j ≤ burst_size st0 * countb is_burst evs ∧
      (fin = false → j = burst_size st0 * countb is_burst evs)) st.
Proof.
  intros Hc. revert k st. induction evs as [|ev evs IH]; intros k st Hk Hi Hle; simpl; wpp_go.
  { split; [symmetry; by apply N.ltb_ge|]. exists 0. rw Nat.add_0_r. split; [done|]. lia. }
  simpl in Hk. assert (mints st0 ev = burst_size st0 * (if is_burst ev then 1 else 0)) as Em.
  { unfold mints. destruct (is_burst ev); lia. }
  eapply wpp_mono; [apply (react_inv st0 k); [done|lia|done..]|].
  intros fin st1 [Hi1 ->]. destruct (metric st0 <? num_cmds st1)%N eqn:E; wpp_go.
  - split; [done|]. exists (mints st0 ev). split; [done|]. split; [lia|done].
  - apply N.ltb_ge in E. eapply wpp_mono; [apply (IH (k + mints st0 ev)); [lia|done..]|].
    intros fin st2 (-> & j & Hi2 & Hj & Hf). split; [done|].
    exists (mints st0 ev + j). split; [by rw Nat.add_assoc|]. split; [lia|].
    intros Hd%Hf. lia.
Qed.

Lemma init_inv c metric txs st0 : init c metric txs = Some st0 → client_inv st0 0 st0.
Proof.
  unfold init. destruct (parse_entries _ _) as [pm|]; [|done]. simpl.
  destruct (parse_addr _) as [a|]; [|done]. simpl. intros [= <-].
  split; [|done]. split; [done|done|done| |done]. intros h t. simpl. by rw lookup_empty.
Qed.

Lemma init_setup c m txs st0 :
  init c m txs = Some st0 → my_client_id st0 = c_my_id c ∧ metric st0 = m ∧ num_cmds st0 = 0%N ∧
  payload st0 = N.to_nat (c_payload c) ∧ burst_size st0 = N.to_nat (N.max txs 1).
Proof.
  unfold init. destruct (parse_entries _ _) as [pm|]; [|done]. simpl.
  destruct (parse_addr _) as [a|]; [|done]. simpl. by intros [= <-].
Qed.

(** C38.  A client run, whatever the servers send, in whatever order and how
    often: it never panics; server after server has been sent the
    transactions with nonces 1, 2, 3, ... in order and nothing else, so all
    servers saw the same; every transaction minted is waiting for a
    confirmation or was counted exactly once; and the client returns exactly
    when more than `metric` transactions were counted.  (Nonces must fit in 64
    bits and the client id in 16.) *)
Theorem keyed_client_accounts (c : Client) (m txs : N) (evs : list event) st0 :
  init c m txs = Some st0 → (c_my_id c < u16_size)%N →
  (N.of_nat (S (burst_size st0 * countb is_burst evs)) < u64_size)%N →
  ∃ fin st k, run evs st0 = Done fin st ∧
    (∀ s, s ∈ all_servers st0 → received_by s (outbox st) = minted st0 k) ∧
    (num_cmds st + N.of_nat (size (time_map st)) = N.of_nat k)%N ∧
    (∀ h t, time_map st !! h = Some t → h ∈ tx_hash <$> minted st0 k) ∧
    fin = (m <? num_cmds st)%N ∧
    (fin = false → k = burst_size st0 * countb is_burst evs).
Proof.
  intros Hi Hid Hk. destruct (init_setup _ _ _ _ Hi) as (Eid & Em & Enc & _).
  destruct (wpp_done (run evs) _ st0 (run_inv st0 evs 0 st0 ltac:(by rw Eid) Hk
    (init_inv _ _ _ _ Hi) ltac:(rw Enc; lia))) as (fin & st & E & -> & j & [Hct Hrv] & Hj & Hf).
  exists (m <? num_cmds st)%N, st, j. rw E Em in Hf |- *. split; [done|].
  split; [done|]. split; [apply Hct|]. split; [apply Hct|]. split; [done|].
  exact Hf.
Qed.

Lemma burst_mineable st0 (k b : nat) (p : Txpool Transaction) :
  (hi p (my_client_id st0) ≤ N.of_nat k)%N →
  (∀ n, (N.of_nat k < n)%N → inflight p !! (my_client_id st0, n) = None) →
  let txs := (λ tx, (tx, serialized_size tx)) <$> minted_from st0 (S k) b in
  ∀ tx, tx ∈ minted_from st0 (S k) b →
    mineable (foldl (λ p v, add_tx v.1 v.2 p) p txs) !! tx_key tx = Some (tx, serialized_size tx).
Proof.
  intros Hhi Hif txs tx Hin. destruct (add_txs_mineable txs p) as [Hm _].
  - unfold txs, minted_from. rw -!list_fmap_compose.
    apply NoDup_fmap_2; [|apply NoDup_seq]. intros i j E%(f_equal snd).
    cbn in E. lia.
  - apply Forall_forall. intros v (tx' & -> & Htx')%list_elem_of_fmap.
    apply list_elem_of_fmap in Htx' as (i & -> & Hi%elem_of_seq).
    split; simpl; [lia|]. apply (Hif (N.of_nat i)). lia.
  - apply (Hm (tx, serialized_size tx)). apply list_elem_of_fmap. by exists tx.
Qed.

End minting.
End KeyedClient.

(** ** Examples: two servers, bursts of two, done after more than two
    confirmations. *)
Module KeyedClientExamples.
Import Toy ToyFormat KeyedClient.

Definition cli : Client :=
  client_new <| c_net_map := {[ 0%N := "127.0.0.1:7000"; 1%N := "127.0.0.1:7001" ]} |>
    <| c_my_id := 1%N |> <| c_payload := 2%N |> <| c_my_listen_addr := "127.0.0.1:9000" |>.
Definition st0 : State :=
  mkState {[ 0%N := loopback 7000; 1%N := loopback 7001 ]} (loopback 9000) 2 1 2 2 1 ∅ 0 [] [] [].
Definition h (n : nat) : Hash := tx_hash (tx_of st0 n).

(** The first transaction is confirmed by both servers, the third one before
    it was sent. *)
Definition evs : list event :=
  [EvBurst 10; EvConfirm 3000010 (Item (Confirmation (h 1))) [Item (Confirmation (h 1));
     Item (Confirmation (h 3))]; EvConfirm 5000000 DecodeError []; EvBurst 6000000].

Lemma init_cli : init cli 2 2 = Some st0.
Proof. vm_compute. reflexivity. Qed.

Lemma keyed_client_accounts_witness :
  ∃ st, run evs st0 = Done false st ∧ received_by 1 (outbox st) = minted st0 4 ∧
    num_cmds st = 1%N ∧ size (time_map st) = 3.
Proof.
  destruct (keyed_client_accounts cli 2 2 evs st0) as (fin & st & k & E & Hs & Hc & _ & Hf & Hk);
    [vm_compute; reflexivity..|].
  assert (num_cmds st = 1%N) as En.
  { assert (num_cmds <$> Some (final st0 (run evs st0)) = Some 1%N) as En
      by (vm_compute; reflexivity). rw E in En. by injection En. }
  rw En in Hf, Hc. change (2 <? 1)%N with false in Hf. subst fin. pose proof (Hk eq_refl) as ->.
  exists st. split; [exact E|]. split; [|split; [exact En|]].
  - apply Hs, list_elem_of_In. vm_compute. tauto.
  - change (burst_size st0 * countb is_burst evs) with 4 in Hc. lia.
Defined.

End KeyedClientExamples.
