(* ===== verification/WindowClient.v ===== *)
(** * The client of Sync HotStuff and Opt Sync

    consensus/{synchs,optsync}/src/client/start.rs: a producer task makes
    transactions, the loop sends one whenever the window allows it, and a
    block announced often enough gives `block_size` places back.

    A run is a list of turns of the `select!` loop, each with the event that
    fired and the clock read at the end of the turn. *)

From S2P Require Import Prelude Crypto Types Text Config Batch NodeIO SyncHS Stats.

Module WindowClient.

(** [next_tx] is the producer's counter: its channel is first in first out,
    so the loop receives transaction 0, 1, 2, ... *)
Record State `{Crypto} := mkState {
  peer_map : gmap N SocketAddr;
  payload : nat;
  num_faults : N;
  block_size : N;
  metric : N;
  start : N;
  next_tx : N;
  pending : N;
  time_map : gmap Hash N;
  count_map : gmap Hash N;
  finished_map : gset Hash;
  latency_map : gmap Hash (N * N);
  num_cmds : N;
  (** What was put on the wire, oldest first, and the final statistics. *)
  outbox : list (N * Transaction);
  report : option (Summary * N);
}.
Arguments mkState {_}.
#[export] Instance eta_State `{Crypto} : Eta State := λ x,
  mkState (peer_map x) (payload x) (num_faults x) (block_size x) (metric x) (start x)
    (next_tx x) (pending x) (time_map x) (count_map x) (finished_map x) (latency_map x)
    (num_cmds x) (outbox x) (report x).

Inductive event `{Crypto} :=
  | EvTx (now : N)
  | EvServer (now : N) (item : stream_item SyncHS.ClientMsg).

Section client.
Context `{Bincode}.
Implicit Types st : State.

(** Everything before the loop; [None] is a panic. *)
Definition init (c : Client) (metric window start : N) : option State :=
  peer_map ← parse_entries (map_to_list (c_net_map c)) ∅;
  _ ← parse_addr (c_my_listen_addr c);
  Some {| peer_map := peer_map; payload := N.to_nat (c_payload c);
          num_faults := c_num_faults c; block_size := c_block_size c; metric := metric;
          start := start; next_tx := 0; pending := window; time_map := ∅; count_map := ∅;
          finished_map := ∅; latency_map := ∅; num_cmds := 0; outbox := []; report := None |}.

Definition all_servers st : list N := (map_to_list (peer_map st)).*1.

(** The branch `tx_opt = recv.recv(), if pending > 0`. *)
Definition send_tx (now : N) : M State unit :=
  let! st := get in
  let tx := new_dummy_tx (next_tx st) (payload st) in
  modify (λ st, st <| next_tx ::= λ i, add64 i 1 |>
                   <| outbox ::= λ l, l ++ ((λ s, (s, tx)) <$> all_servers st) |>
                   <| time_map ::= insert (tx_compute_hash tx) now |>
                   <| pending ::= λ p, sub64 p 1 |>).

(** One hash of a finished block. *)
Definition match_hash (now : N) (t : Hash) : M State unit :=
  modify (λ st,
    match time_map st !! t with
    | Some old => st <| latency_map ::= insert t (old, now) |>
    | None => st <| num_cmds ::= λ n, sub128 n 1 |>
    end).

(** The value says whether the turn ends with `continue`. *)
Definition on_new_block (now : N) (b : Block) (tx_hashes : list Hash) : M State bool :=
  modify (λ st, st <| count_map ::=
    partial_alter (λ o, Some (add64 (default 0%N o) 1)) (block_hash b) |>);;;
  let! st := get in
  if (default 0 (count_map st !! block_hash b) <? add64 (num_faults st) 1)%N then ret true
  else if bool_decide (block_hash b ∈ finished_map st) then ret true
  else
    modify (λ st, st <| pending ::= λ p, add64 p (block_size st) |>
                     <| num_cmds ::= λ n, add128 n (block_size st) |>);;;
    for_each tx_hashes (match_hash now);;;
    modify (λ st, st <| finished_map ::= union {[ block_hash b ]} |>);;;
    ret false.

(** The check at the bottom of the loop. *)
Definition finish (now : N) : M State bool :=
  let! st := get in
  if (metric st <? num_cmds st)%N then
    match statistics now (start st) (latency_map st) (mkSummary 0 0) with
    | Done elapsed s => modify (λ st, st <| report := Some (s, elapsed) |>);;; ret true
    | Panicked w => panic w
    | OutOfFuel => λ _, OutOfFuel
    end
  else ret false.

Definition react (ev : event) (t_end : N) : M State bool :=
  match ev with
  | EvTx now =>
      let! st := get in
      if (0 <? pending st)%N then send_tx now;;; finish t_end else ret false
  | EvServer now item =>
      match item with
      | Item (SyncHS.NewBlock b tx_hashes _) =>
          let! continue := on_new_block now b tx_hashes in
          if continue : bool then ret false else finish t_end
      | Item _ => ret false
      | DecodeError => finish t_end
      | Closed => panic "server push listener closed"
      end
  end.

Fixpoint run (evs : list (event * N)) : M State bool :=
  match evs with
  | [] => ret false
  | (ev, t_end) :: evs' =>
      let! done := react ev t_end in if done : bool then ret true else run evs'
  end.

(** `start`: the set-up and then the loop.  Opt Sync's client is the same
    text. *)
Definition client_start (c : Client) (metric window start : N) (evs : list (event * N))
    : outcome State bool :=
  match init c metric window start with
  | None => Panicked "invalid address"
  | Some st => run evs st
  end.
Definition optsync_start : Client → N → N → N → list (event * N) → outcome State bool := client_start.
End client.

(** *** Flow control *)
Section facts.
Context `{Bincode}.
Implicit Types st : State.

(** The clock does not go back: an event is read after the turn before it. *)
Definition ev_time (ev : event) : N := match ev with EvTx t => t | EvServer t _ => t end.
Fixpoint clock_ok (t : N) (evs : list (event * N)) : Prop :=
  match evs with
  | [] => True
  | (ev, t_end) :: evs' => (t ≤ ev_time ev ≤ t_end)%N ∧ clock_ok t_end evs'
  end.

Definition announces (h : Hash) (e : event * N) : bool :=
  match e.1 with
  | EvServer _ (Item (SyncHS.NewBlock b _ _)) => bool_decide (block_hash b = h)
  | _ => false
  end.
Definition closes (e : event * N) : bool :=
  match e.1 with EvServer _ Closed => true | _ => false end.

(** The first [k] transactions of the producer. *)
Definition produced st (k : nat) : list Transaction :=
  (λ i, new_dummy_tx (N.of_nat i) (payload st)) <$> seq 0 k.

Lemma produced_S st k :
  produced st (S k) = produced st k ++ [new_dummy_tx (N.of_nat k) (payload st)].
Proof. unfold produced. by rw seq_S fmap_app. Qed.

(** The settings a run never changes. *)
Definition same_setup st0 st : Prop :=
  peer_map st = peer_map st0 ∧ payload st = payload st0 ∧ num_faults st = num_faults st0 ∧
  block_size st = block_size st0 ∧ metric st = metric st0 ∧ start st = start st0.

(** After [k] transactions, [e] turns and at time [t]. *)
Record flow st0 (k e : nat) (t : N) st : Prop := {
  fl_setup : same_setup st0 st;
  fl_next : next_tx st = N.of_nat k;
  fl_sent s : s ∈ all_servers st0 → sent_to s (outbox st) = produced st0 k;
  fl_pending : (pending st + N.of_nat k =
    pending st0 + block_size st0 * N.of_nat (size (finished_map st)))%N;
  fl_finished : size (finished_map st) ≤ e;
  fl_start : (start st0 ≤ t)%N;
  fl_times h a : time_map st !! h = Some a → (a ≤ t)%N;
  fl_latency h a : latency_map st !! h = Some a → (a.1 ≤ a.2)%N;
}.

Lemma flow_le st0 k e e' t t' st :
  flow st0 k e t st → e ≤ e' → (t ≤ t')%N → flow st0 k e' t' st.
Proof.
  intros [] He Ht. split; try done; [lia|lia|]. intros h a Ha.
  etrans; [|exact Ht]. by eapply fl_times0.
Qed.

Lemma flow_counts st0 k e t st cm :
  flow st0 k e t st → flow st0 k e t (st <| count_map := cm |>).
Proof. by intros []. Qed.

Lemma finish_flow st0 k e t t' st :
  flow st0 k e t st → (t ≤ t')%N →
  wp (finish t') (λ fin st', flow st0 k e t' st' ∧ count_map st' = count_map st ∧
    finished_map st' = finished_map st ∧ fin = (metric st0 <? num_cmds st')%N) st.
Proof.
  intros Hf Ht. pose proof (flow_le _ _ _ e _ t' _ Hf (Nat.le_refl _) Ht) as Hf'.
  pose proof (fl_setup _ _ _ _ _ Hf) as (_ & _ & _ & _ & E5 & E6).
  unfold finish. apply wpp_bind, wpp_get. rw E5. destruct (metric st0 <? num_cmds st)%N eqn:Em;
    [|wpp_go; by rw Em].
  assert (statistics t' (start st) (latency_map st) (mkSummary 0 0) = Done (t' - start st0)%N
    (mkSummary (wrap64 (N.of_nat (size (latency_map st))))
      (wrap128 (total_ms (map_to_list (latency_map st)).*2)))) as ->.
  { unfold statistics, bind. rw summarise_spec; [|exact (fl_latency _ _ _ _ _ Hf')].
    unfold duration_since. rw E6. pose proof (fl_start _ _ _ _ _ Hf') as Hs.
    apply N.leb_le in Hs. by rw Hs. }
  wpp_go. split; [by destruct Hf'|]. simpl. by rw Em.
Qed.

(** Matching the hashes of a block touches the latencies and the count. *)
Lemma match_hashes_frame now hs st :
  (∀ h a, time_map st !! h = Some a → (a ≤ now)%N) →
  (∀ h a, latency_map st !! h = Some a → (a.1 ≤ a.2)%N) →
  wp (for_each hs (match_hash now)) (λ _ st', ∃ lm nc,
    st' = st <| latency_map := lm |> <| num_cmds := nc |> ∧
    ∀ h a, lm !! h = Some a → (a.1 ≤ a.2)%N) st.
Proof.
  revert st. induction hs as [|h hs IH]; intros st Ht Hl; simpl; wpp_go.
  { exists (latency_map st), (num_cmds st). by destruct st. }
  unfold match_hash. wpp_go. destruct (time_map st !! h) as [a|] eqn:Eh.
  - eapply wpp_mono; [apply IH; simpl; [done|]|by intros [] st' (lm & nc & -> & ?); eauto].
    intros h' x. rw lookup_insert_Some. intros [[_ <-]|[_ Hx]]; [by eapply Ht|by eapply Hl].
  - eapply wpp_mono; [by apply IH|by intros [] st' (lm & nc & -> & ?); eauto].
Qed.

Lemma send_flow st0 k e t now st :
  flow st0 k e t st → (t ≤ now)%N → (0 < pending st)%N → (pending st < u64_size)%N →
  (N.of_nat (S k) < u64_size)%N →
  wp (send_tx now) (λ _ st', flow st0 (S k) e now st' ∧ count_map st' = count_map st ∧
    finished_map st' = finished_map st) st.
Proof.
  intros Hf Ht Hp Hp' Hk. pose proof (fl_setup _ _ _ _ _ Hf) as (E1 & E2 & _).
  destruct Hf. unfold send_tx. wpp_go. split; [|done]. split; try done; simpl.
  - rw fl_next0 add64_small; lia.
  - intros s Hs. rw sent_to_app fl_sent0 // fl_next0 E2 produced_S. f_equal.
    unfold all_servers. rw E1. apply sent_to_broadcast; [apply NoDup_fst_map_to_list|done].
  - rw sub64_small; lia.
  - lia.
  - intros h a. rw lookup_insert_Some. intros [[_ <-]|[_ Ha]]; [done|].
    etrans; [by eapply fl_times0|done].
Qed.

(** The announcements are counted, and a block is finished only after more
    than f of them. *)
Definition counts st0 (past : list (event * N)) st : Prop :=
  (∀ h, default 0%N (count_map st !! h) = N.of_nat (countb (announces h) past)) ∧
  (∀ h, h ∈ finished_map st → (num_faults st0 < N.of_nat (countb (announces h) past))%N).

Lemma countb_length {A} (p : A → bool) l : countb p l ≤ length l.
Proof. induction l as [|a l IH]; simpl; [done|]. destruct (p a); lia. Qed.

Lemma counts_skip st0 past e st st' :
  counts st0 past st → (∀ h, announces h e = false) →
  count_map st' = count_map st → finished_map st' = finished_map st →
  counts st0 (past ++ [e]) st'.
Proof.
  intros [C1 C2] He Ec Ef. split; intros h; rw countb_app /= He /= ?Ec ?Ef Nat.add_0_r; auto.
Qed.

Lemma counts_announce st0 past now b hs pl t_end st :
  let e := (EvServer now (Item (SyncHS.NewBlock b hs pl)), t_end) in
  counts st0 past st → (N.of_nat (S (length past)) < u64_size)%N →
  counts st0 (past ++ [e]) (st <| count_map ::=
    partial_alter (λ o, Some (add64 (default 0%N o) 1)) (block_hash b) |>).
Proof.
  intros e [C1 C2] Hl. split; intros h; simpl.
  - rw countb_app /= lookup_partial_alter. unfold announces at 2; simpl.
    case_decide as Hd; [subst h; rw bool_decide_eq_true_2 //|rw bool_decide_eq_false_2 // C1 /=; lia].
    pose proof (countb_length (announces (block_hash b)) past). simpl.
    rw C1 add64_small; lia.
  - intros Hh%C2. rw countb_app. lia.
Qed.

Lemma on_new_block_flow st0 past k t now b hs pl t_end st :
  let e := (EvServer now (Item (SyncHS.NewBlock b hs pl)), t_end) in
  flow st0 k (length past) t st → counts st0 past st → (t ≤ now)%N →
  (pending st0 + block_size st0 * N.of_nat (S (length past)) < u64_size)%N →
  (num_faults st0 + 1 < u64_size)%N → (N.of_nat (S (length past)) < u64_size)%N →
  wp (on_new_block now b hs) (λ cont st', flow st0 k (S (length past)) now st' ∧
    counts st0 (past ++ [e]) st' ∧ (cont = true → num_cmds st' = num_cmds st)) st.
Proof.
  intros e Hf Hc Ht Hw Hfa Hl. unfold on_new_block. apply wpp_bind, wpp_modify, wpp_bind, wpp_get.
  pose proof (counts_announce st0 past now b hs pl t_end st Hc Hl) as Hc1. fold e in Hc1.
  set (st1 := st <| count_map ::= _ |>) in *.
  assert (flow st0 k (length past) now st1) as Hf1.
  { apply flow_counts. eapply flow_le; [done|done|done]. }
  pose proof (flow_le _ _ _ _ _ now _ Hf1 (Nat.le_succ_diag_r _) (N.le_refl _)) as Hf2.
  apply wpp_if; intros Hlt; [wpp_go; done|]. apply wpp_if; intros Hfin; [wpp_go; done|].
  apply bool_decide_eq_false in Hfin. destruct (fl_setup _ _ _ _ _ Hf1) as (E1 & E2 & E3 & E4 & E5 & E6).
  assert (num_faults st0 < N.of_nat (countb (announces (block_hash b)) (past ++ [e])))%N as Hq.
  { destruct Hc1 as [C1 _]. apply N.ltb_ge in Hlt. rw C1 E3 add64_small in Hlt; lia. }
  apply wpp_bind, wpp_modify. rw E4. destruct Hc1 as [C1 C2].
  set (st2 := st1 <| pending ::= _ |> <| num_cmds ::= _ |>).
  destruct Hf1 as [F1 F2 F3 F4 F5 F6 F7 F8].
  apply wpp_bind. eapply wpp_mono; [by apply (match_hashes_frame now hs st2)|].
  intros [] st3 (lm & nc & -> & Hlm). wpp_go.
  assert (block_hash b ∉ finished_map st1) as Hni by done.
  assert (size ({[ block_hash b ]} ∪ finished_map st1) = S (size (finished_map st1))) as Hsz.
  { rw size_union; [|set_solver]. by rw size_singleton. }
  split; [|split; [split; [done|]|done]].
  - change (finished_map st1) with (finished_map st) in *.
    change (pending st1) with (pending st) in *.
    split; try done; simpl.
    + rw Hsz add64_small; nia.
    + rw Hsz. lia.
  - intros h. unfold st2; simpl. rw elem_of_union elem_of_singleton. intros [->|Hh]; [done|].
    by apply C2.
Qed.

Lemma react_flow st0 past k t ev t_end st :
  flow st0 k (length past) t st → counts st0 past st → (num_cmds st ≤ metric st0)%N →
  (t ≤ ev_time ev ≤ t_end)%N → closes (ev, t_end) = false →
  (pending st0 + block_size st0 * N.of_nat (S (length past)) < u64_size)%N →
  (num_faults st0 + 1 < u64_size)%N → (N.of_nat (S (length past)) < u64_size)%N →
  wp (react ev t_end) (λ fin st', fin = (metric st0 <? num_cmds st')%N ∧
    counts st0 (past ++ [(ev, t_end)]) st' ∧
    ∃ k', flow st0 k' (S (length past)) t_end st') st.
Proof.
  intros Hf Hc Hle [Ht1 Ht2] Hcl Hw Hfa Hl.
  assert (∀ st1, flow st0 k (S (length past)) t_end st1 → counts st0 (past ++ [(ev, t_end)]) st1 →
    num_cmds st1 = num_cmds st → false = (metric st0 <? num_cmds st1)%N ∧
    counts st0 (past ++ [(ev, t_end)]) st1 ∧ ∃ k', flow st0 k' (S (length past)) t_end st1) as Hstay.
  { intros st1 Hf1 Hc1 En. rw En. split; [symmetry; by apply N.ltb_ge|eauto]. }
  assert (∀ k1 t1 st1, flow st0 k1 (S (length past)) t1 st1 → (t1 ≤ t_end)%N →
    counts st0 (past ++ [(ev, t_end)]) st1 → wp (finish t_end) (λ fin st',
    fin = (metric st0 <? num_cmds st')%N ∧ counts st0 (past ++ [(ev, t_end)]) st' ∧
    ∃ k', flow st0 k' (S (length past)) t_end st') st1) as Hfin.
  { intros k1 t1 st1 Hf1 Ht Hc1. eapply wpp_mono; [by apply (finish_flow st0 k1 (S (length past)) t1)|].
    intros fin st' (Hf' & Ec & Ef & ->). split; [done|]. split; [|eauto].
    unfold counts. by rw Ec Ef. }
  assert (flow st0 k (S (length past)) t_end st) as Hf2 by (eapply flow_le; [done|lia|lia]).
  destruct ev as [now|now [| |[b hs pl|h|h b]]]; simpl in *; try done.
  - apply wpp_bind, wpp_get. apply wpp_if; intros Hp.
    + apply N.ltb_lt in Hp. wpp_go. pose proof (fl_pending _ _ _ _ _ Hf).
      pose proof (fl_finished _ _ _ _ _ Hf). eapply wpp_mono; [apply (send_flow st0 k (length past) t now); [done..|nia|nia]|].
      intros [] st1 (Hf1 & Ec & Ef). eapply Hfin; [|exact Ht2|by eapply counts_skip].
      eapply flow_le; [done|lia|lia].
    + wpp_go. apply Hstay; [done|by eapply counts_skip|done].
  - eapply Hfin; [done|lia|by eapply counts_skip].
  - wpp_go. eapply wpp_mono; [by apply (on_new_block_flow st0 past k t now b hs pl t_end)|].
    intros cont st1 (Hf1 & Hc1 & Hn). destruct cont; wpp_go; [|by eapply Hfin].
    apply Hstay; [by eapply flow_le; [exact Hf1|lia|lia]|done|by apply Hn].
  - wpp_go. apply Hstay; [done|by eapply counts_skip|done].
  - wpp_go. apply Hstay; [done|by eapply counts_skip|done].
Qed.

Lemma run_flow st0 evs past k t st :
  flow st0 k (length past) t st → counts st0 past st → (num_cmds st ≤ metric st0)%N →
  clock_ok t evs → Forall (λ e, closes e = false) evs →
  (pending st0 + block_size st0 * N.of_nat (length past + length evs) < u64_size)%N →
  (num_faults st0 + 1 < u64_size)%N → (N.of_nat (length past + length evs) < u64_size)%N →
  wp (run evs) (λ fin st', fin = (metric st0 <? num_cmds st')%N ∧
    ∃ k' seen t', seen `prefix_of` past ++ evs ∧ counts st0 seen st' ∧
      flow st0 k' (length seen) t' st' ∧ (fin = false → seen = past ++ evs)) st.
Proof.
  revert past k t st. induction evs as [|[ev t_end] evs IH];
    intros past k t st Hf Hc Hle Hck Hcl Hw Hfa Hl; simpl.
  { wpp_go. split; [symmetry; by apply N.ltb_ge|]. exists k, past, t. rw app_nil_r. done. }
  destruct Hck as [Ht Hck]. apply Forall_cons in Hcl as [Hcl1 Hcl]. simpl in Hw, Hl.
  apply wpp_bind. eapply wpp_mono; [apply (react_flow st0 past k t); try done; nia|].
  intros fin st1 (-> & Hc1 & k1 & Hf1). destruct (metric st0 <? num_cmds st1)%N eqn:E; wpp_go.
  - split; [done|]. exists k1, (past ++ [(ev, t_end)]), t_end.
    split; [exists evs; by rw -app_assoc|]. split; [done|]. rw length_app /= Nat.add_1_r. done.
  - apply N.ltb_ge in E. replace (past ++ (ev, t_end) :: evs)
      with ((past ++ [(ev, t_end)]) ++ evs) by by rw -app_assoc.
    assert (length (past ++ [(ev, t_end)]) = S (length past)) as El by (rw length_app /=; lia).
    apply (IH _ k1 t_end); rw ?El; try done; [|lia]. rw Nat.add_succ_l -Nat.add_succ_r. done.
Qed.

Lemma init_flow c m w t0 st0 :
  init c m w t0 = Some st0 →
  flow st0 0 0 t0 st0 ∧ counts st0 [] st0 ∧ pending st0 = w ∧ block_size st0 = c_block_size c ∧
  num_faults st0 = c_num_faults c ∧ metric st0 = m ∧ num_cmds st0 = 0%N.
Proof.
  unfold init. destruct (parse_entries _ _) as [pm|]; [|done]. simpl.
  destruct (parse_addr _) as [a|]; [|done]. simpl. intros [= <-].
  split; [|split; [|done]].
  - split; cbn [pending finished_map block_size start time_map latency_map]; try done.
    rw size_empty. lia.
  - split; simpl; intros h; [by rw lookup_empty|set_solver].
Qed.

(** C39.  Flow control.  While the clock does not go back and the listener stays
    open, a client run never panics, whatever the servers send; each server
    has been sent the producer's first k transactions in order, where k is at
    most the window plus `block_size` for each finished block, and `pending`
    is the difference; a block is finished only after at least f + 1
    announcements of its hash; and the client returns exactly when `num_cmds`
    exceeds `metric`.  (The window never overflows: it fits 64 bits with
    `block_size` added once a turn.) *)
Theorem window_client_flow (c : Client) (m w t0 : N) (evs : list (event * N)) st0 :
  init c m w t0 = Some st0 → clock_ok t0 evs → Forall (λ e, closes e = false) evs →
  (w + c_block_size c * N.of_nat (length evs) < u64_size)%N →
  (c_num_faults c + 1 < u64_size)%N → (N.of_nat (length evs) < u64_size)%N →
  ∃ fin st k, run evs st0 = Done fin st ∧
    (∀ s, s ∈ all_servers st0 → sent_to s (outbox st) = produced st0 k) ∧
    (pending st + N.of_nat k = w + c_block_size c * N.of_nat (size (finished_map st)))%N ∧
    (∀ h, h ∈ finished_map st → (c_num_faults c < N.of_nat (countb (announces h) evs))%N) ∧
    fin = (m <? num_cmds st)%N.
Proof.
  intros Hi Hck Hcl Hw Hfa Hl.
  destruct (init_flow _ _ _ _ _ Hi) as (Hf & Hc & Ew & Eb & Ef & Em & En).
  destruct (wpp_done (run evs) _ st0 (run_flow st0 evs [] 0 t0 st0 Hf Hc ltac:(rw En; lia) Hck Hcl
    ltac:(by rw Ew Eb) ltac:(by rw Ef) Hl)) as (fin & st & E & -> & k & seen & t' & Hpre & Hc' & Hf' & _).
  exists (m <? num_cmds st)%N, st, k. rw -Em. split; [done|]. split; [apply Hf'|].
  rw -Ew -Eb. split; [apply Hf'|]. split; [|done].
  intros h Hh. destruct Hc' as [_ C2]. rw -Ef. eapply N.lt_le_trans; [by apply C2|].
  destruct Hpre as [l El]. simpl in El. rw El countb_app. lia.
Qed.
End facts.
End WindowClient.

(** ** Examples: one server, f = 1, blocks of two. *)
Module WindowClientExamples.
Import Toy ToyFormat WindowClient.

Definition cli : Client :=
  client_new <| c_net_map := {[ 0%N := "127.0.0.1:7000" ]} |> <| c_num_faults := 1%N |>
    <| c_block_size := 2%N |> <| c_my_listen_addr := "127.0.0.1:9000" |>.
Definition st0 : State :=
  mkState {[ 0%N := loopback 7000 ]} 0 1 2 100 5 0 3 ∅ ∅ ∅ ∅ 0 [] None.
Definition th (i : N) : Hash := tx_compute_hash (new_dummy_tx i 0).
Definition blk : Block := Types.init (with_batch (do_hash [1%N])).
Definition announce (hs : list Hash) : stream_item SyncHS.ClientMsg :=
  Item (SyncHS.NewBlock blk hs payload_empty).

(** Three transactions exhaust the window; the block's second announcement
    gives two places back, the third none. *)
Definition evs : list (event * N) :=
  [(EvTx 6, 6%N); (EvTx 7, 7%N); (EvTx 8, 8%N); (EvTx 9, 9%N);
   (EvServer 10 (announce [th 0; th 1]), 10%N); (EvServer 11 (announce [th 0; th 1]), 11%N);
   (EvServer 12 (announce [th 0; th 1]), 12%N); (EvTx 13, 13%N)].

Lemma window_client_flow_witness :
  ∃ st, run evs st0 = Done false st ∧ sent_to 0 (outbox st) = produced st0 4 ∧
    pending st = 1%N ∧ num_cmds st = 2%N ∧ size (finished_map st) = 1.
Proof.
  destruct (window_client_flow cli 100 3 5 evs st0) as (fin & st & k & E & Hs & Hp & _ & Hf);
    [vm_compute; reflexivity|vm_compute; repeat split; congruence|repeat constructor
    |vm_compute; reflexivity..|].
  assert ((λ s, (pending s, num_cmds s, size (finished_map s))) (final st0 (run evs st0)) =
    (1%N, 2%N, 1)) as En by (vm_compute; reflexivity).
  rw E in En. injection En as E1 E2 E3. rw E2 in Hf. change (100 <? 2)%N with false in Hf.
  subst fin. exists st. split; [exact E|]. rw E1 E3 in Hp.
  assert (k = 4) as -> by (change (c_block_size cli) with 2%N in Hp; lia).
  split; [|done]. apply Hs, list_elem_of_In. vm_compute. tauto.
Defined.

(** The announcements are counted, not the servers that make them, and the
    hashes of the last one are believed: two messages of one server for a
    block that was never proposed, naming three transactions that were never
    sent, take `num_cmds` below zero, which is above any metric, and the
    client reports and stops. *)
Example window_client_one_server_stops_it :
  ∃ st, run [(EvServer 6 (announce []), 6%N); (EvServer 7 (announce [th 7; th 8; th 9]), 7%N)] st0 =
    Done true st ∧ num_cmds st = (u128_size - 1)%N ∧ outbox st = [] ∧
    report st = Some (mkSummary 0 0, 2%N).
Proof. eexists. split; [vm_compute; reflexivity|]. split; [|split]; vm_compute; reflexivity. Qed.
End WindowClientExamples.
