(* ===== verification/System.v ===== *)
(** * A node and its mempool

    The consensus task tells the batcher of its own node about rounds,
    proposals and commits over a channel (`to_batcher`).  Here the two models
    are put together: the batcher consumes what an Apollo node sent, with its
    clients' transactions and its timer in between. *)

From S2P Require Import Prelude Crypto Types Storage Config Batch.
From S2P Require Import TxPool PoolSpec Keyed NodeIO Apollo ApolloProofs.

(** ** What the batcher is told *)
Section signals.
Context `{Crypto} {Tx : Type}.
Implicit Types l : list (BatcherConsensusMsg Tx).

(** The last round announced. *)
Definition note_round (acc : option (Replica * N)) (m : BatcherConsensusMsg Tx) :=
  match m with NewRound leader round => Some (leader, round) | _ => acc end.
Definition last_round l : option (Replica * N) := foldl note_round None l.

Lemma last_round_snoc l m : last_round (l ++ [m]) = note_round (last_round l) m.
Proof. unfold last_round. by rw foldl_app. Qed.

Lemma note_round_last l acc :
  foldl note_round acc l = match last_round l with Some x => Some x | None => acc end.
Proof.
  induction l as [|m l IH] using rev_ind; [done|]. rw last_round_snoc foldl_app /= IH.
  by destruct m; simpl; destruct (last_round l).
Qed.

(** The consensus messages among the events of a batcher. *)
Definition consensus_of (ev : rr_event Tx) : list (BatcherConsensusMsg Tx) :=
  match ev with EvConsensus (Some m) => [m] | _ => [] end.
Definition told (evs : list (rr_event Tx)) : list (BatcherConsensusMsg Tx) :=
  concat (consensus_of <$> evs).
Definition channel_open (ev : rr_event Tx) : bool :=
  match ev with EvTx None | EvConsensus None => false | _ => true end.
End signals.

(** ** The node's side: the last round announced is the current one *)
Section node.
Context `{Bincode} `{Store} `{NetOracle}.
Import Apollo.
Implicit Types cx : Context.

Definition in_sync cx : Prop := last_round (to_batcher cx) = Some (round_leader cx, round cx).

Ltac kept := intros; apply keeps_modify; intros cx Hs; exact Hs.

Lemma signal_sync cx m :
  in_sync cx → (∀ ld r, m ≠ NewRound ld r) → in_sync (signal m cx).
Proof.
  unfold in_sync. intros Hs Hm. simpl. rw last_round_snoc Hs. destruct m; try done.
  by destruct (Hm leader round0).
Qed.

Lemma read_batch_keeps h : keeps in_sync (read_batch h).
Proof.
  intros cx a cx' Hs. unfold read_batch. destruct (batches_read h (batches cx)). by intros [= _ <-].
Qed.
Lemma persist_keeps h b : keeps in_sync (persist_batch h b).
Proof. kept. Qed.
Lemma send_keeps to msg : keeps in_sync (send to msg).
Proof. apply keeps_modify. intros cx Hs. by destruct (_ =? _)%N. Qed.
Lemma multicast_keeps msg : keeps in_sync (multicast msg).
Proof. kept. Qed.
Lemma signal_keeps m : (∀ ld r, m ≠ NewRound ld r) → keeps in_sync (modify (signal m)).
Proof. intros Hm. apply keeps_modify. intros cx Hs. by apply signal_sync. Qed.

(** The round moves and is announced at once. *)
Lemma update_round_keeps : keeps in_sync update_round.
Proof. apply keeps_modify. intros cx _. unfold in_sync. simpl. by rw last_round_snoc. Qed.

Hint Resolve read_batch_keeps persist_keeps send_keeps multicast_keeps update_round_keeps : keeps.
Ltac keep := keeps_go ltac:(first [apply signal_keeps; done | kept]).

Lemma commit_blocks_keeps h : keeps in_sync (commit_blocks h).
Proof.
  intros cx a' cx' Hs. unfold commit_blocks.
  destruct (commit_walk _ _ _ _); [|done..]. by intros [= _ <-].
Qed.
Hint Resolve commit_blocks_keeps : keeps.
Lemma do_commit_keeps : keeps in_sync do_commit.
Proof. unfold do_commit, announce_commit. keep. Qed.
Hint Resolve do_commit_keeps : keeps.
Lemma on_receive_keeps p b : keeps in_sync (on_receive_proposal p b).
Proof. unfold on_receive_proposal. keep. Qed.
Hint Resolve on_receive_keeps : keeps.
Lemma receive_or_queue_keeps p b from : keeps in_sync (receive_or_queue p b from).
Proof. unfold receive_or_queue, try_receive_proposal. keep. Qed.
Hint Resolve receive_or_queue_keeps : keeps.
Lemma do_propose_keeps bh batch : keeps in_sync (do_propose bh batch).
Proof.
  unfold do_propose. keep. apply keeps_modify. intros cx Hs. by apply signal_sync.
Qed.
Hint Resolve do_propose_keeps : keeps.
Lemma release_keeps fuel sender h : keeps in_sync (release_children fuel sender h).
Proof. revert h. induction fuel as [|fuel IH]; intros h; simpl; keep. Qed.
Hint Resolve release_keeps : keeps.
Lemma delivery_check_keeps sender p bb : keeps in_sync (delivery_check sender p bb).
Proof. unfold delivery_check, resolve_block. keep. Qed.
Hint Resolve delivery_check_keeps : keeps.
Lemma handle_message_keeps m : keeps in_sync (handle_message m).
Proof. apply keeps_modify. intros cx Hs. by destruct m. Qed.
Hint Resolve handle_message_keeps : keeps.
Lemma process_message_keeps : keeps in_sync process_message.
Proof.
  unfold process_message, drain_prop, drain_relay, drain_other, drain_future, on_recv_request,
    on_receive_blame. keep.
Qed.
Hint Resolve process_message_keeps : keeps.
Lemma take_input_keeps i : keeps in_sync (take_input i).
Proof.
  unfold take_input, react, leader_drain, leader_step. keep.
  apply keeps_modify. intros cx Hs. by destruct (_ =? _)%N.
Qed.
Lemma run_keeps ins : keeps in_sync (run ins).
Proof.
  induction ins as [|i ins IH]; simpl; [apply keeps_ret|].
  apply keeps_bind; [apply take_input_keeps|]. intros []; [done|apply keeps_ret].
Qed.

Lemma start_in_sync config bs cx0 : reactor_start config bs = Some cx0 → in_sync cx0.
Proof.
  unfold reactor_start, context_new. destruct (decode_secret config); [|done].
  destruct (decode_public_keys _ _); [|done]. by intros [= <-].
Qed.
End node.

(** ** The batcher's side *)
Section batcher.
Context `{MempoolTx Tx}.
Implicit Types (st : RRBatcher Tx) (evs : list (rr_event Tx)).

Definition at_round (lr : Replica * N) st : Prop := (current_leader st, current_round st) = lr.
(** The pool is well formed and transaction [k] is spent in it. *)
Definition spent k st : Prop := pool_wf (pool st) ∧ state_of (pool st) k = Replayed.

(** Sealing a batch changes the pool only, by one call. *)
Lemma seal_keeps (I : RRBatcher Tx → Prop) :
  (∀ st l p, make_batch (current_round st) (pool st) = Done l p → I st → I (st <| pool := p |>)) →
  (∀ st, I st → I (st <| proposed := true |>)) →
  keeps I (seal_and_propose true).
Proof.
  intros Hp Hpr st r st' Hs. unfold seal_and_propose.
  destruct (make_batch (current_round st) (pool st)) as [l p| |] eqn:E; [|done..].
  assert (I (st <| pool := p |>)) as Hs1 by by eapply Hp.
  destruct l; [by intros [= _ <-]|]. intros [= _ <-]. by apply Hpr.
Qed.

Lemma seal_at_round lr : keeps (at_round lr) (seal_and_propose true).
Proof. by apply seal_keeps. Qed.

(** No call of the pool brings a spent transaction back. *)
Lemma spent_step k o st out p' :
  pool_step o (pool st) = Done out p' → spent k st → spent k (st <| pool := p' |>).
Proof.
  intros E [Hwf Hs]. destruct (pool_step_wf o (pool st) Hwf) as (? & ? & E' & Hwf').
  rw E in E'. injection E' as <- <-. split; [done|]. simpl.
  rw (proj1 (pool_step_refines o _ _ _ k Hwf E)) Hs. by destruct o.
Qed.
Lemma seal_spent k : keeps (spent k) (seal_and_propose true).
Proof.
  apply seal_keeps; [|done]. intros st l p E. by apply (spent_step k (OpMake (current_round st)) st l p).
Qed.
Hint Resolve seal_at_round seal_spent : keeps.

Lemma rr_step_round ev st r st' :
  rr_step true ev st = Done r st' →
  (current_leader st', current_round st') =
    match ev with
    | EvConsensus (Some (NewRound ld rd)) => (ld, rd)
    | _ => (current_leader st, current_round st)
    end.
Proof.
  unfold rr_step. destruct ev as [|[[tx sz]|]|[[ld rd|b rd|b rd|rs]|]]; intros E;
    try (injection E as _ <-; done).
  - unfold bind, get in E. destruct (can_propose st); [by eapply seal_at_round|by injection E as _ <-].
  - unfold bind, get, modify in E.
    destruct (_ && _) in E; [by eapply seal_at_round in E|by injection E as _ <-].
  - unfold bind, get, modify, try_propose in E. unfold bind, get in E.
    destruct (_ && _) in E; [|by injection E as _ <-].
    by apply (seal_at_round (ld, rd)) in E.
Qed.

Lemma rr_step_go ev st r st' :
  channel_open ev = true → rr_step true ev st = Done r st' → r.2 = true.
Proof.
  assert (∀ st r st', seal_and_propose true st = Done r st' → r.2 = true) as Hs.
  { clear. intros st r st'. unfold seal_and_propose. destruct (make_batch _ _) as [l p| |]; [|done..].
    destruct l; by intros [= <- _]. }
  unfold rr_step, try_propose, bind, get, modify.
  destruct ev as [|[[tx sz]|]|[[ld rd|b rd|b rd|rs]|]]; try done; intros _;
    try (by intros [= <- _]); destruct (can_propose _); simpl; try (by intros [= <- _]);
    try (destruct (ready _)); try (by intros [= <- _]); apply Hs.
Qed.

Lemma rr_step_spent ev st r st' k :
  rr_step true ev st = Done r st' → spent k st → spent k st'.
Proof.
  intros E Hk. revert E.
  assert (∀ st1, spent k st1 → seal_and_propose true st1 = Done r st' → spent k st') as Hs
    by (intros st1 H1 E; by eapply seal_spent).
  unfold rr_step, try_propose, bind, get, modify.
  destruct ev as [|[[tx sz]|]|[[ld rd|b rd|b rd|rs]|]].
  1: destruct (can_propose st); [by apply Hs|by intros [= _ <-]].
  1: destruct (_ && _); [apply Hs|intros [= _ <-]]; by apply (spent_step k (OpAdd tx sz) st []).
  1: by intros [= _ <-].
  1: assert (∀ ld rd, spent k (st <| current_leader := ld |> <| current_round := rd |>
       <| proposed := false |> <| pool ::= reset_timer |>)) as Hr
       by (intros; destruct Hk; split; [by apply reset_timer_wf|done]).
  1: destruct (_ && _); [by apply Hs|by intros [= _ <-]].
  all: intros [= _ <-]; try done.
  - by apply (spent_step k (OpAdmit b rd) st []).
  - by apply (spent_step k (OpCommit b rd) st []).
  - by apply (spent_step k (OpRollback rs) st []).
Qed.

Lemma rr_step_commit b rd st r st' tx :
  pool_wf (pool st) →
  rr_step true (EvConsensus (Some (Committed b rd))) st = Done r st' → tx ∈ payload b →
  spent (tx_key tx) st'.
Proof.
  intros Hwf [= _ <-] Hin. split; [by apply commit_wf|]. simpl. apply state_covered.
  - by apply commit_wf.
  - rw commit_hi. by apply commit_marks_hi.
  - rw commit_inflight decide_True //. by apply list_elem_of_fmap_2.
Qed.

(** The pool drops a spent transaction that is submitted, and makes no batch
    of it. *)
Lemma spent_dropped k st :
  spent k st →
  (∀ tx sz, tx_key tx = k → add_tx tx sz (pool st) = pool st) ∧
  (∀ r out p', make_batch r (pool st) = Done out p' → k ∉ tx_key <$> out).
Proof.
  intros [Hwf Hk]. split.
  - intros tx sz <-. apply add_tx_rejected. intros [Hlt _].
    apply state_replayed in Hk as (_ & _ & Hle). simpl in *. lia.
  - intros r out p' E Hin. apply (make_batch_state r _ out p' k Hwf E) in Hin. congruence.
Qed.

Lemma rr_run_round evs st out st' acc :
  forallb channel_open evs = true → rr_run evs st = Done out st' →
  acc = Some (current_leader st, current_round st) →
  foldl note_round acc (told evs) = Some (current_leader st', current_round st').
Proof.
  revert st out acc. induction evs as [|ev evs IH]; intros st out acc Hop E Hacc; simpl in *.
  { by injection E as _ <-. }
  apply andb_true_iff in Hop as [Hop1 Hop]. unfold bind in E.
  destruct (rr_step true ev st) as [r st1| |] eqn:E1; [|done..].
  pose proof (rr_step_go _ _ _ _ Hop1 E1) as Hgo. rw Hgo in E.
  destruct (rr_run evs st1) as [out1 st2| |] eqn:E2; [|done..]. injection E as _ <-.
  unfold told. simpl. rw foldl_app. apply (IH st1 out1); [done|done|].
  pose proof (rr_step_round _ _ _ _ E1) as Hr. rw Hr Hacc.
  by destruct ev as [|[[tx sz]|]|[[ld rd|b rd|b rd|rs]|]].
Qed.

Lemma rr_run_spent evs st out st' k :
  pool_wf (pool st) → forallb channel_open evs = true → rr_run evs st = Done out st' →
  spent k st ∨ (∃ b rd tx, Committed b rd ∈ told evs ∧ tx ∈ payload b ∧ tx_key tx = k) →
  spent k st'.
Proof.
  revert st out. induction evs as [|ev evs IH]; intros st out Hwf Hop E Hs; simpl in *.
  { injection E as _ <-. destruct Hs as [|(b & rd & tx & Hin & _)]; [done|].
    by apply not_elem_of_nil in Hin. }
  apply andb_true_iff in Hop as [Hop1 Hop]. unfold bind in E.
  pose proof (rr_step_turn ev st Hwf) as Ht. unfold wpp in Ht.
  destruct (rr_step true ev st) as [r st1| |] eqn:E1; [|done..].
  pose proof (rr_step_go _ _ _ _ Hop1 E1) as Hgo. rw Hgo in E.
  destruct (rr_run evs st1) as [out1 st2| |] eqn:E2; [|done..]. injection E as _ <-.
  apply (IH st1 out1); [by destruct Ht|done|done|].
  destruct Hs as [Hs|(b & rd & tx & Hin & Htx & <-)].
  { left. by eapply rr_step_spent. }
  apply elem_of_app in Hin as [Hin|Hin]; [left|right; eauto 10].
  destruct ev as [|[[t0 sz]|]|[m|]]; simpl in Hin; try by apply not_elem_of_nil in Hin.
  apply list_elem_of_singleton in Hin as <-. by eapply rr_step_commit.
Qed.
End batcher.

(** ** Together *)
Section together.
Context `{Bincode} `{Store} `{NetOracle}.
Import Apollo.

(** C20.  The mempool follows consensus.  Take any run of an Apollo node, and
    let its batcher consume everything the node sent it, with transactions and
    timer ticks in between: the batcher does not fail, it ends up in the
    node's round under the node's leader, and every transaction of a batch the
    node announced as committed is spent in the pool: it is stored nowhere, a
    submission of it is dropped, and the batcher makes no further batch of it.
    (This is about the pool.  Batches that were sealed before stay in the
    reactor's own queue, `pending_batches`, which a commit does not purge.) *)
Theorem apollo_mempool_follows config bs cx0 ins cx params evs :
  reactor_start config bs = Some cx0 → run ins cx0 = Done tt cx →
  forallb channel_open evs = true → told evs = to_batcher cx →
  ∃ out st, rr_run evs (rr_new params) = Done out st ∧
    current_leader st = round_leader cx ∧ current_round st = round cx ∧
    (∀ b rd tx, Committed b rd ∈ to_batcher cx → tx ∈ payload b →
       state_of (pool st) (tx_key tx) = Replayed ∧
       (∀ sz, add_tx tx sz (pool st) = pool st) ∧
       ∀ r l p', make_batch r (pool st) = Done l p' → tx_key tx ∉ tx_key <$> l).
Proof.
  intros Hst Hrun Hop Htold.
  destruct (wpp_done _ _ _ (rr_run_wf evs (rr_new params) (pool_new_wf _))) as (out & st & E & _).
  exists out, st. split; [done|].
  pose proof (run_keeps ins cx0 tt cx (start_in_sync _ _ _ Hst) Hrun) as Hsync.
  pose proof (rr_run_round evs (rr_new params) out st _ Hop E eq_refl) as Hlast.
  rw Htold note_round_last Hsync in Hlast. injection Hlast as -> ->.
  split; [done|]. split; [done|]. intros b rd tx Hb Htx.
  assert (spent (tx_key tx) st) as Hs.
  { apply (rr_run_spent evs (rr_new params) out st); [apply pool_new_wf|done|done|].
    right. rw Htold. eauto 10. }
  destruct (spent_dropped _ _ Hs) as [Hadd Hmake]. split; [apply Hs|]. by split; [intros; apply Hadd|].
Qed.
End together.

Module SystemExamples.
Import Toy ToyFormat Apollo ApolloProofs ApolloProofs.Examples.

(** Two rounds of three replicas; the client's transaction comes in again
    after its commit. *)
Definition two_rounds : list input := feed [(p1, b1, batch 1); (p2, b2, batch 2)].
Definition cx2 : Context := final dummy (run two_rounds dummy).
Definition evs2 : list (rr_event Transaction) :=
  EvTx (Some (new_dummy_tx_keyed 1 1 2, 30%N)) ::
  ((λ m, EvConsensus (Some m)) <$> to_batcher cx2) ++
  [EvTx (Some (new_dummy_tx_keyed 1 1 2, 30%N)); EvTimer].

Lemma apollo_mempool_follows_witness :
  ∃ out st, rr_run evs2 (rr_new (mkParameters 2 0 20)) = Done out st ∧
    current_leader st = 2%N ∧ current_round st = 3%N ∧
    state_of (pool st) (1, 1)%N = Replayed.
Proof.
  destruct (apollo_mempool_follows cfg bs0 dummy two_rounds cx2 (mkParameters 2 0 20) evs2)
    as (out & st & E & El & Er & Hc).
  - exact start_dummy.
  - apply is_done_final. vm_compute. reflexivity.
  - vm_compute. reflexivity.
  - vm_compute. reflexivity.
  - exists out, st. split; [exact E|]. split; [rw El; vm_compute; reflexivity|].
    split; [rw Er; vm_compute; reflexivity|].
    apply (Hc (batch 1) 1%N (new_dummy_tx_keyed 1 1 2)); [|by constructor].
    apply list_elem_of_In. vm_compute. tauto.
Defined.
End SystemExamples.
