(* ===== verification/Network.v ===== *)
(** * Nodes on an unreliable network

    A world holds the state of every replica that was started.  A step gives
    one replica one turn of its reactor on an input that the network may
    produce in this world; what the network may produce is a parameter, so a
    protocol says there which messages cannot be forged.  Loss, delay,
    reordering and duplication come for free: nothing obliges the network to
    deliver, or keeps it from delivering twice. *)

From S2P Require Import Prelude.

Section network.
Context {St In : Type} (take_input : In → M St bool).
Context (allowed : gmap N St → In → Prop).
Implicit Types W : gmap N St.

Inductive step W : gmap N St → Prop :=
  | step_node i inp s go s' :
      W !! i = Some s → allowed W inp → take_input inp s = Done go s' → step W (<[i := s']> W).

(** A property that a turn of any replica keeps, and that may depend on the
    number of turns, holds of every world reached. *)
Lemma nsteps_inv (P : nat → gmap N St → Prop) k W0 W :
  (∀ k W i inp s go s', P k W → W !! i = Some s → allowed W inp → take_input inp s = Done go s' →
     P (S k) (<[i := s']> W)) →
  P 0 W0 → nsteps step k W0 W → P k W.
Proof.
  intros Hstep H0 Hr. revert W Hr. induction k as [|k IH]; intros W Hr.
  - by inversion Hr; subst.
  - apply nsteps_inv_r in Hr as (W' & Hr & Hs). destruct Hs. eapply Hstep; eauto.
Qed.

(** ** Executing a script

    A script is a list of actions; [act] says whose turn an action is and on
    what input.  A turn that the network may not give is skipped. *)
Context {Act : Type} (act : gmap N St → Act → N * In).
Context (allowedb : gmap N St → In → bool).
Context (allowedb_spec : ∀ W inp, allowedb W inp = true → allowed W inp).

Definition exec W (a : Act) : gmap N St :=
  let '(i, inp) := act W a in
  match W !! i with
  | Some s => if allowedb W inp then
                match take_input inp s with Done _ s' => <[i := s']> W | _ => W end
              else W
  | None => W
  end.
Definition simulate (l : list Act) W : gmap N St := foldl exec W l.

Lemma exec_steps W a : ∃ k, k ≤ 1 ∧ nsteps step k W (exec W a).
Proof.
  assert (∃ k, k ≤ 1 ∧ nsteps step k W W) as Hstay by (exists 0; split; [lia|constructor]).
  unfold exec. destruct (act W a) as [i inp]. destruct (W !! i) as [s|] eqn:Hi; [|done].
  destruct (allowedb W inp) eqn:Ha; [|done].
  destruct (take_input inp s) as [go s'| |] eqn:E; [|done..].
  exists 1. split; [done|]. apply nsteps_once. eapply step_node; eauto.
Qed.

Lemma simulate_steps l W : ∃ k, k ≤ length l ∧ nsteps step k W (simulate l W).
Proof.
  unfold simulate. revert W. induction l as [|a l IH]; intros W; simpl.
  { exists 0. split; [lia|constructor]. }
  destruct (exec_steps W a) as (k1 & ? & H1), (IH (exec W a)) as (k2 & ? & H2).
  exists (k1 + k2). split; [lia|]. by eapply nsteps_trans.
Qed.
End network.
