(* ===== verification/ApolloNet.v ===== *)
(** * A network of Apollo nodes

    Every replica runs the node of Apollo.v; the network may lose, duplicate,
    delay, reorder and reroute what they send, and may add messages of its
    own as long as a proposal in them is one that some node sent.  The nodes
    may stop at any time.  In every world that can be reached the nodes agree:
    round by round on the proposal they accepted, and on one chain of
    committed blocks; and no node ever panics. *)

From S2P Require Import Prelude Crypto Types Config Storage Batch NodeIO Apollo ApolloProofs Network.

Module ApolloNet.
Import Apollo ApolloProofs.

Abbreviation delivered cx h := (is_Some (all_delivered_blocks_by_hash (storage cx) !! h)).

Section chain.
Context `{Bincode} `{!BincodeLaws} `{!CollisionFree} `{Store} `{NetOracle}.
Implicit Types (cx : Context) (p q : Propose) (b c : Block).

(** ** The proposals made so far, by round *)
Abbreviation history := (gmap Round (Propose * Block)).
Implicit Types G : history.

(** The block that the leader of round [r] extends. *)
Definition parent_at G (r : Round) b : Prop :=
  r = 1%N ∧ b = GENESIS_BLOCK ∨ (1 < r)%N ∧ ∃ p, G !! (r - 1)%N = Some (p, b).

(** One chain: the block of round [r] is at height [r] and extends the one
    before it. *)
Record linear G : Prop := {
  lin_pos : ∀ r p b, G !! r = Some (p, b) → (1 ≤ r)%N;
  lin_prop : ∀ r p b, G !! r = Some (p, b) → prop_round p = r ∧ prop_hash p = block_hash b;
  lin_hashed : ∀ r p b, G !! r = Some (p, b) → block_hash b = compute_hash b;
  lin_height : ∀ r p b, G !! r = Some (p, b) → height (header b) = wrap64 r;
  lin_parent : ∀ r p b, G !! r = Some (p, b) →
    ∃ c, parent_at G r c ∧ prev (header b) = block_hash c;
}.

Definition made G p : Prop := ∃ b, G !! prop_round p = Some (p, b).
Definition chain_block G b : Prop := b = GENESIS_BLOCK ∨ ∃ r p, G !! r = Some (p, b).

Lemma made_mono G G' p : G ⊆ G' → made G p → made G' p.
Proof. intros Hs [b Hb]. exists b. by eapply lookup_weaken. Qed.
Lemma chain_block_mono G G' b : G ⊆ G' → chain_block G b → chain_block G' b.
Proof. intros Hs [->|(r & p & Hb)]; [by left|right]. exists r, p. by eapply lookup_weaken. Qed.
Lemma parent_at_mono G G' r b : G ⊆ G' → parent_at G r b → parent_at G' r b.
Proof.
  intros Hs [?|(? & p & Hb)]; [by left|right]. split; [done|]. exists p. by eapply lookup_weaken.
Qed.

Lemma chain_block_hashed G b : linear G → chain_block G b → well_hashed b.
Proof. intros HG [->|(r & p & Hb)]; [by left|right]. by eapply lin_hashed. Qed.

(** The block of a proposal is known by its hash. *)
Lemma made_block G p b :
  linear G → made G p → well_hashed b → block_hash b = prop_hash p → G !! prop_round p = Some (p, b).
Proof.
  intros HG [c Hc] Hb E. assert (c = b) as ->; [|done].
  apply well_hashed_inj; [right; by eapply lin_hashed|done|].
  destruct (lin_prop _ HG _ _ _ Hc) as [_ <-]. done.
Qed.

Lemma parent_at_fun G r b c : parent_at G r b → parent_at G r c → b = c.
Proof.
  intros [[-> ->]|(? & p & Hp)] [[? ->]|(? & q & Hq)]; [done|lia|lia|]. congruence.
Qed.

Lemma linear_empty : linear ∅.
Proof. by split. Qed.

Lemma parent_at_hash G r b : linear G → parent_at G r b → well_hashed b.
Proof. intros HG [[_ ->]|(_ & p & Hp)]; [by left|right]. by eapply lin_hashed. Qed.
Lemma parent_at_height G r b :
  linear G → (1 ≤ r)%N → parent_at G r b → height (header b) = wrap64 (r - 1).
Proof.
  intros HG Hr [[-> ->]|(_ & p & Hp)]; [done|]. by eapply lin_height.
Qed.

(** The chain grows by a block on its newest one. *)
Lemma linear_insert G r p b c :
  linear G → G !! r = None → (1 ≤ r)%N → parent_at G r c →
  prop_round p = r → prop_hash p = block_hash b → block_hash b = compute_hash b →
  height (header b) = wrap64 r → prev (header b) = block_hash c →
  linear (<[r := (p, b)]> G).
Proof.
  intros HG Hr Hpos Hc E1 E2 E3 E4 E5. pose proof (insert_subseteq G r (p, b) Hr) as Hsub.
  split; intros r' p' b' [[<- [= <- <-]]|[_ Hb]]%lookup_insert_Some; try done.
  - by eapply lin_pos.
  - by eapply lin_prop.
  - by eapply lin_hashed.
  - by eapply lin_height.
  - exists c. split; [by eapply parent_at_mono|done].
  - destruct (lin_parent _ HG _ _ _ Hb) as (d & Hd & Ed). exists d.
    split; [by eapply parent_at_mono|done].
Qed.

(** Every round up to a made one is made. *)
Lemma linear_below G r r' p b :
  linear G → G !! r = Some (p, b) → (1 ≤ r' ≤ r)%N → ∃ p' b', G !! r' = Some (p', b').
Proof.
  intros HG. revert p b. induction r as [|r IH] using N.peano_ind; intros p b Hb Hr'.
  { apply (lin_pos _ HG) in Hb. lia. }
  destruct (decide (r' = N.succ r)) as [->|Hne]; [eauto|].
  destruct (lin_parent _ HG _ _ _ Hb) as (c & [[? ->]|(? & q & Hq)] & _); [lia|].
  replace (N.succ r - 1)%N with r in Hq by lia. apply (IH _ _ Hq). lia.
Qed.
End chain.

(** ** One node against the history *)
Section node.
Context `{Bincode} `{!BincodeLaws} `{!CollisionFree} `{Store} `{NetOracle}.
Implicit Types (cx : Context) (p q : Propose) (b c : Block).
Context (n : N) (me : Replica).
Context (n_nodes : (0 < n < u16_size)%N).

Definition carries (m : ProtocolMsg) : option Propose :=
  match m with
  | NewProposal p _ _ | Relay _ p | Response _ _ p _ _ => Some p
  | Request _ _ _ | Blame _ => None
  end.

(** Everything the node holds comes from the history: what it buffered,
    parked, accepted, indexed and sent; it has accepted every round before
    its own, and its parent for the next block is the newest of them. *)
Record tracks (G : gmap Round (Propose * Block)) (lo : Round) cx : Prop := {
  tr_id : myid cx = me;
  tr_nodes : num_nodes cx = n;
  tr_lo : (lo ≤ round cx)%N;
  tr_pos : (1 ≤ round cx)%N;
  tr_leader : round_leader cx = ((round cx - 1) mod n)%N;
  tr_keys : ∀ r, (r < n)%N → r ≠ me → is_Some (pub_key_map cx !! r);
  tr_sign : ∀ m, is_Some (sk_sign (my_secret_key cx) m);
  tr_other : Forall (λ m, match m with Blame _ => False | _ => True end) (other_buf cx);
  tr_buf : Forall (λ x, made G x.1.1.2 ∧ well_hashed x.1.2) (prop_buf cx);
  tr_relay : Forall (λ x, made G x.2) (relay_buf cx);
  tr_future : map_Forall (λ _ x, made G x.2) (future_msgs cx);
  tr_waiting : map_Forall (λ _ p, made G p ∧ delivered cx (prop_hash p)) (prop_waiting_parent cx);
  tr_by_hash : map_Forall (λ _ p, made G p) (prop_chain_by_hash cx);
  tr_by_round : map_Forall (λ r p, made G p ∧ prop_round p = r) (prop_chain_by_round cx);
  tr_accepted : ∀ r, (1 ≤ r < round cx)%N → ∃ p, prop_chain_by_round cx !! r = Some p ∧
    delivered cx (prop_hash p);
  tr_storage : storage_wf (storage cx);
  tr_genesis : delivered cx EMPTY_HASH;
  tr_index : ∀ h b, all_delivered_blocks_by_hash (storage cx) !! h = Some b → chain_block G b;
  tr_heights : ∀ ht b, all_delivered_blocks_by_ht (storage cx) !! ht = Some b → chain_block G b;
  tr_last : parent_at G (round cx) (last_seen_block cx);
  tr_sent : ∀ to m p, (to, m) ∈ sent (consensus_net cx) → carries m = Some p → made G p;
}.

Lemma tracks_mono G G' lo cx : G ⊆ G' → tracks G lo cx → tracks G' lo cx.
Proof.
  intros Hs []. split; try done.
  - eapply Forall_impl; [done|]. intros x []. by eauto using made_mono.
  - eapply Forall_impl; [done|]. intros x. by apply made_mono.
  - eapply map_Forall_impl; [done|]. intros ? x. by apply made_mono.
  - eapply map_Forall_impl; [done|]. intros ? x []. by eauto using made_mono.
  - eapply map_Forall_impl; [done|]. intros ? x. by apply made_mono.
  - eapply map_Forall_impl; [done|]. intros ? x []. by eauto using made_mono.
  - eauto using chain_block_mono.
  - eauto using chain_block_mono.
  - by eapply parent_at_mono.
  - eauto using made_mono.
Qed.

(** What [tracks] looks at besides [core]. *)
Definition told_peers cx := (prop_chain_by_hash cx, sent (consensus_net cx)).

Lemma tracks_core G lo cx cx' :
  core cx' = core cx → told_peers cx' = told_peers cx → tracks G lo cx → tracks G lo cx'.
Proof.
  intros Hc Ht. destruct cx, cx'. unfold core in Hc; unfold told_peers in Ht; simpl in *.
  simplify_eq. intros []. split; simpl in *; try done.
  match goal with E : sent _ = sent _ |- _ => by rw E end.
Qed.

Context (G : gmap Round (Propose * Block)) (lo : Round).
Hypothesis HG : linear G.
Abbreviation T := (tracks G lo).

Lemma send_tracks cx to m :
  T cx → (∀ p, carries m = Some p → made G p) →
  T (if (to =? myid cx)%N then cx else cx <| consensus_net ::= net_send (round cx) to m |>).
Proof.
  intros Ht Hm. destruct (to =? myid cx)%N; [done|]. destruct Ht. split; try done.
  intros to' m' p. simpl. rw net_send_sent elem_of_app list_elem_of_singleton.
  intros [?|[= -> ->]]; eauto.
Qed.
Lemma send_guards to m : (∀ p, carries m = Some p → made G p) → guards T (send to m).
Proof. intros Hm. apply guards_modify. intros cx Ht. by apply send_tracks. Qed.

Lemma read_batch_told x h : keeps (λ cx, told_peers cx = x) (read_batch h).
Proof.
  intros cx a cx' Hs. unfold read_batch. destruct (batches_read h (batches cx)). by intros [= _ <-].
Qed.
Lemma read_batch_guards h : guards T (read_batch h).
Proof.
  intros cx Ht. eapply safely_mono.
  - eapply (safely_keeps _ _ _ _ (read_batch_told (told_peers cx) h)); [done|].
    apply safely_wp, read_batch_core.
  - intros o cx' [Hc Hp]. by eapply tracks_core.
Qed.

(** Indexing a block of the history. *)
Lemma deliver_tracks cx b :
  chain_block G b → T cx → T (cx <| storage ::= add_delivered_block b |>).
Proof.
  intros Hb []. pose proof (add_delivered_mono b (storage cx)) as Hmono.
  split; try done; cbn -[add_delivered_block].
  - eapply map_Forall_impl; [done|]. cbn -[add_delivered_block]. intros ? x []. by auto.
  - intros r Hr. destruct (tr_accepted0 r Hr) as (p & ? & ?). eauto.
  - by apply add_delivered_block_wf.
  - by apply Hmono.
  - intros h b'. simpl. rw lookup_insert. case_decide; [naive_solver|]. apply tr_index0.
  - intros h b'. simpl. rw lookup_insert. case_decide; [naive_solver|]. apply tr_heights0.
Qed.

(** ** Committing *)
Ltac keep_told := keeps_go ltac:(apply keeps_modify; intros; assumption).

Lemma do_commit_told x : keeps (λ cx, told_peers cx = x) do_commit.
Proof.
  assert (∀ h, keeps (λ cx, told_peers cx = x) (commit_blocks h)) as Hw.
  { intros h cx a cx' Hs. unfold commit_blocks.
    destruct (commit_walk _ _ _ _); [|done..]. by intros [= _ <-]. }
  pose proof (read_batch_told x). unfold do_commit, announce_commit. keep_told.
Qed.

Lemma indexed_block cx h b b' :
  T cx → all_delivered_blocks_by_hash (storage cx) !! h = Some b' →
  well_hashed b → block_hash b = h → b' = b.
Proof.
  intros Ht Hb' Hb E. apply well_hashed_inj; [|done|].
  - eapply chain_block_hashed; [exact HG|]. by eapply tr_index.
  - rw E. exact (wf_hash _ (tr_storage _ _ _ Ht) _ _ Hb').
Qed.

Lemma genesis_complete cx : T cx → complete (storage cx) EMPTY_HASH.
Proof.
  intros Ht h Hanc. assert (h = EMPTY_HASH) as ->; [|by eapply tr_genesis].
  remember EMPTY_HASH as h0 eqn:E0. induction Hanc as [|h1 h2 h3 (b & Hb & ->) _ IH]; [done|].
  subst h1. rw IH; rw (indexed_block cx _ GENESIS_BLOCK b Ht Hb) //; by left.
Qed.

(** The ancestors of an accepted block are all there. *)
Lemma accepted_complete cx r p b :
  T cx → G !! r = Some (p, b) → (∀ r', (1 ≤ r' ≤ r)%N → ∃ p', prop_chain_by_round cx !! r' = Some p' ∧
    delivered cx (prop_hash p')) → complete (storage cx) (block_hash b).
Proof.
  intros Ht. revert p b. induction r as [|r IH] using N.peano_ind; intros p b Hb Hacc.
  { apply (lin_pos _ HG) in Hb. lia. }
  destruct (Hacc (N.succ r)) as (p' & Hp' & b' & Hb'); [lia|].
  destruct (tr_by_round _ _ _ Ht _ _ Hp') as [[b'' Hm] E]. rw E Hb in Hm. simplify_eq.
  destruct (lin_prop _ HG _ _ _ Hb) as [_ Eh]. rw Eh in Hb'.
  assert (b' = b'') as ->.
  { eapply indexed_block; [exact Ht|exact Hb'| |done]. right. by eapply lin_hashed. }
  eapply complete_of_parent; [exact Hb'|].
  destruct (lin_parent _ HG _ _ _ Hb) as (c & [[_ ->]|(? & q & Hq)] & Ec).
  - unfold parent_hash, Block_HasParent. rw Ec. by apply genesis_complete.
  - unfold parent_hash, Block_HasParent. rw Ec. replace (N.succ r - 1)%N with r in Hq by lia.
    apply (IH q); [done|]. intros r' Hr'. apply Hacc. lia.
Qed.

Lemma commit_tracks cx h path s' :
  T cx → walked (storage cx) h path s' → storage_wf s' → T (cx <| storage := s' |>).
Proof.
  intros [] [E1 E2 _ _ _ _ _ _] Hwf. split; simpl; rw ?E1 ?E2 //.
Qed.

(** Between the acceptance of [p] and the next round. *)
Definition accepting p cx : Prop :=
  T cx ∧ round cx = prop_round p ∧ prop_chain_by_round cx !! round cx = Some p ∧
  delivered cx (prop_hash p).

Lemma accepting_core p cx cx' :
  core cx' = core cx → told_peers cx' = told_peers cx → accepting p cx → accepting p cx'.
Proof.
  intros Hc Ht (Ht' & Hr & Hp & Hd). split; [by eapply tracks_core|].
  revert Hc. clear Ht. destruct cx, cx'. unfold core; simpl. intros [=]. by simplify_eq.
Qed.

Lemma accepting_chain p cx r :
  accepting p cx → (1 ≤ r ≤ round cx)%N →
  ∃ q, prop_chain_by_round cx !! r = Some q ∧ delivered cx (prop_hash q).
Proof.
  intros (Ht & _ & Hp & Hd) Hr. destruct (decide (r = round cx)) as [->|Hne]; [eauto|].
  apply (tr_accepted _ _ _ Ht). lia.
Qed.

Lemma do_commit_accepting p cx :
  accepting p cx → (num_faults cx < round cx)%N → safely do_commit (λ _, accepting p) cx.
Proof.
  intros Ha Hf. pose proof Ha as (Ht & Hr & _).
  destruct (accepting_chain p cx (round cx - num_faults cx)%N Ha) as (q & Hq & Hdq); [lia|].
  destruct (tr_by_round _ _ _ Ht _ _ Hq) as [[b Hb] Eq].
  destruct (lin_prop _ HG _ _ _ Hb) as [_ Eh].
  eapply safely_mono.
  - eapply (safely_keeps _ _ _ _ (do_commit_told (told_peers cx))); [done|].
    apply safely_wp, (do_commit_spec False cx q Hq); [by eapply tr_storage|right].
    rw Eh. apply (accepted_complete cx (prop_round q) q); [done|done|].
    intros r' Hr'. eapply accepting_chain; [done|]. lia.
  - intros [] cx' [(path & s' & Hc & Hw & Hwf) Hp].
    apply (accepting_core p (cx <| storage := s' |>)); [done|done|].
    destruct Ha as (_ & _ & Hpr & Hd). split; [by eapply commit_tracks|].
    split; [done|]. split; [done|]. simpl. by rw (walked_by_hash _ _ _ _ Hw).
Qed.

(** ** Accepting a proposal *)
Lemma accept_tracks cx p :
  T cx → made G p → prop_round p = round cx → delivered cx (prop_hash p) →
  accepting p (cx <| prop_chain_by_hash ::= insert (prop_hash p) p |>
                  <| prop_chain_by_round ::= insert (prop_round p) p |>).
Proof.
  intros [] Hm Hr Hd. split; [split; try done; simpl|].
  - by apply map_Forall_insert_2.
  - by apply map_Forall_insert_2.
  - intros r Hlt. rw lookup_insert_ne; [|lia]. by apply tr_accepted0.
  - simpl. rw Hr lookup_insert_eq. done.
Qed.

Lemma next_round_tracks cx p block :
  accepting p cx → G !! prop_round p = Some (p, block) →
  safely (modify (λ cx, cx <| last_seen_block := block |>);;; update_round)
    (λ _, tracks G (N.succ (prop_round p))) cx.
Proof.
  intros Ha Hb. pose proof (accepting_chain p cx) as Hacc. destruct Ha as ([] & Hr & Hp & Hd).
  apply safely_bind, safely_modify, safely_modify. split; try done; simpl.
  - lia.
  - lia.
  - pose proof (next_leader_mod cx) as Hl. rw -tr_nodes0. apply Hl; [|done|]; by rw tr_nodes0.
  - intros r Hlt. apply Hacc; [|lia]. split; [by split|done].
  - right. split; [lia|]. exists p. rw Hr. by replace (N.succ (prop_round p) - 1)%N with (prop_round p) by lia.
Qed.

Lemma signal_accepting p m cx : accepting p cx → accepting p (signal m cx).
Proof. by apply accepting_core. Qed.

Lemma on_receive_tracks p block cx :
  T cx → G !! prop_round p = Some (p, block) → prop_round p = round cx → delivered cx (prop_hash p) →
  safely (on_receive_proposal p block) (λ _ cx', (cx' = cx ∧ equivocates cx block = true) ∨
    T cx' ∧ tracks G (N.succ (prop_round p)) cx') cx.
Proof.
  intros Ht Hb Hr Hd. assert (made G p) as Hm by (by exists block).
  unfold on_receive_proposal. apply safely_bind, safely_get, safely_if.
  { intros Heq. apply safely_ret. by left. }
  intros _. apply safely_bind, safely_modify. set (cx1 := if (_ =? _)%N then _ else _).
  assert (T cx1 ∧ round cx1 = round cx ∧ storage cx1 = storage cx) as (Ht1 & Er & Es).
  { split; [apply send_tracks; [done|by intros q [= <-]]|]. unfold cx1. by destruct (_ =? _)%N. }
  apply safely_bind, safely_modify, safely_bind, safely_modify, safely_bind.
  eapply safely_mono with (Φ := λ _, accepting p).
  { match goal with |- wpf _ _ _ ?c => assert (accepting p c) as Ha end.
    { apply accept_tracks; [done|done|congruence|by rw Es]. }
    eapply safely_mono.
    - eapply (safely_keeps _ _ _ _ (read_batch_told _ _)); [reflexivity|].
      apply safely_wp, read_batch_core.
    - intros o cx2 [Hc Hp]. by eapply accepting_core. }
  intros o cx2 Ha2. apply safely_bind, (safely_mono _ (λ _, accepting p)).
  { destruct o; [apply safely_modify; by apply signal_accepting|by apply safely_ret]. }
  intros [] cx3 Ha3. apply safely_bind, safely_get, safely_bind, (safely_mono _ (λ _, accepting p)).
  { apply safely_if; [|intros _; by apply safely_ret]. intros Hf%N.ltb_lt. by apply do_commit_accepting. }
  intros [] cx4 Ha4. eapply safely_mono; [by eapply next_round_tracks|]. intros [] cx5 Ht5. right.
  split; [|done]. destruct Ht5, Ht. split; try done. lia.
Qed.

Lemma park_tracks cx p (from : Replica) :
  made G p → T cx → T (cx <| future_msgs ::= insert (prop_round p) (from, p) |>).
Proof. intros Hm []. split; try done. simpl. by apply map_Forall_insert_2. Qed.

Lemma try_receive_tracks p block from cx :
  T cx → G !! prop_round p = Some (p, block) → delivered cx (prop_hash p) →
  safely (try_receive_proposal p block from) (λ _, T) cx.
Proof.
  intros Ht Hb Hd. assert (made G p) as Hm by (by exists block).
  unfold try_receive_proposal. apply safely_bind, safely_get.
  apply safely_if; intros Hge; [by apply safely_ret|].
  apply safely_if; intros Hle; [by apply safely_modify, park_tracks|].
  apply safely_if; intros _; [by apply safely_ret|].
  apply safely_if; intros Hl; [by apply safely_ret|].
  apply safely_if; intros _; [by apply safely_ret|].
  apply safely_bind, (safely_mono _ (λ _ cx', cx' = cx)).
  { apply safely_if; intros Hme; [by apply safely_ret|]. apply N.eqb_neq in Hme.
    destruct (tr_keys _ _ _ Ht (origin (sig p))) as [pk Hpk].
    - apply negb_false_iff, N.eqb_eq in Hl. rw -Hl (tr_leader _ _ _ Ht). apply N.mod_lt. lia.
    - by rw (tr_id _ _ _ Ht) in Hme.
    - by rw Hpk. }
  intros bad cx' ->. apply safely_if; intros _; [by apply safely_ret|].
  apply N.ltb_ge in Hge, Hle.
  eapply safely_mono; [apply on_receive_tracks; [done|done|lia|done]|].
  intros [] cx' [[-> _]|[? _]]; done.
Qed.

Lemma receive_or_queue_tracks p block sender cx :
  T cx → G !! prop_round p = Some (p, block) → delivered cx (prop_hash p) →
  safely (receive_or_queue p block sender) (λ _, T) cx.
Proof.
  intros Ht Hb Hd. unfold receive_or_queue. apply safely_bind, safely_get.
  apply safely_if; intros Hr; [apply safely_modify, park_tracks; [by exists block|done]|].
  by apply try_receive_tracks.
Qed.

Lemma stored_block cx p b :
  T cx → made G p → all_delivered_blocks_by_hash (storage cx) !! prop_hash p = Some b →
  G !! prop_round p = Some (p, b).
Proof.
  intros Ht Hm Hb. apply made_block; [done|done| |].
  - eapply chain_block_hashed; [exact HG|]. by eapply tr_index.
  - exact (wf_hash _ (tr_storage _ _ _ Ht) _ _ Hb).
Qed.

Lemma release_guards fuel sender h : guards T (release_children fuel sender h).
Proof.
  revert h. induction fuel as [|fuel IH]; intros h cx Ht; [done|]. simpl.
  apply safely_bind, safely_get. destruct (prop_waiting_parent cx !! h) as [p|] eqn:Ep; [|done].
  destruct (tr_waiting _ _ _ Ht _ _ Ep) as [Hm [b Hb]].
  apply safely_bind, safely_modify. unfold delivered_block_from_hash. rw Hb.
  apply safely_bind, safely_ret, safely_bind.
  eapply safely_mono; [apply receive_or_queue_tracks|].
  - destruct Ht. split; try done. simpl. by apply map_Forall_delete.
  - by eapply stored_block.
  - simpl. rw Hb. eauto.
  - intros [] cx' Ht'. by apply IH.
Qed.

Lemma resolve_tracks sender p bb cx :
  T cx → made G p → (∀ b batch, bb = Some (b, batch) → well_hashed b) →
  safely (resolve_block sender p bb)
    (λ o cx', T cx' ∧ ∀ b, o = Some b → G !! prop_round p = Some (p, b)) cx.
Proof.
  intros Ht Hm Hbb. unfold resolve_block. apply safely_bind, safely_get. destruct bb as [[b batch]|].
  - apply safely_if; intros Hh; [by apply safely_ret|].
    apply safely_if; intros _; [by apply safely_ret|].
    apply bool_decide_eq_false, dec_stable in Hh.
    apply safely_bind, safely_modify, safely_ret. split; [by apply (tracks_core _ _ cx)|].
    intros b' [= <-]. apply made_block; [done|done|by eapply Hbb|done].
  - destruct (delivered_block_from_hash _ _) as [b|] eqn:Eb.
    + apply safely_ret. split; [done|]. intros b' [= <-]. by eapply stored_block.
    + apply safely_bind, safely_modify, safely_bind, safely_modify, safely_ret. split; [|done].
      apply send_tracks; [by apply (tracks_core _ _ cx)|done].
Qed.

Lemma delivery_check_guards sender p bb :
  made G p → (∀ b batch, bb = Some (b, batch) → well_hashed b) → guards T (delivery_check sender p bb).
Proof.
  intros Hm Hbb cx Ht. unfold delivery_check. apply safely_bind, safely_get.
  apply safely_if; intros _; [by apply safely_ret|]. apply safely_bind.
  eapply safely_mono; [by apply resolve_tracks|]. clear cx Ht. intros [b|] cx [Ht Hb]; [|done].
  specialize (Hb b eq_refl). destruct (lin_prop _ HG _ _ _ Hb) as [_ Eh].
  assert (T (cx <| storage ::= add_delivered_block b |>)) as Ht'.
  { apply deliver_tracks; [right; eauto|done]. }
  assert (delivered (cx <| storage ::= add_delivered_block b |>) (prop_hash p)) as Hd.
  { rw Eh. exact (add_delivered_self b (storage cx)). }
  apply safely_bind, safely_get, safely_if; intros _.
  - apply safely_bind, safely_modify, safely_bind, safely_modify, safely_modify.
    apply send_tracks; [|done]. destruct Ht'. split; try done. simpl. by apply map_Forall_insert_2.
  - apply safely_bind, safely_modify, safely_bind.
    eapply safely_mono; [by apply receive_or_queue_tracks|]. intros [] cx2 Ht2.
    apply safely_bind, safely_modify, safely_bind, safely_get, release_guards. by apply (tracks_core _ _ cx2).
Qed.

(** ** Messages *)
(** A message whose proposal is in the history, as decoding delivers it. *)
Definition msg_from G' (m : ProtocolMsg) : Prop :=
  msg_hashed m ∧ (∀ p, carries m = Some p → made G' p) ∧ (∀ v, m ≠ Blame v).

Lemma handle_message_guards m : msg_from G m → guards T (handle_message m).
Proof.
  intros (Hh & Hm & Hbl). apply guards_modify. intros cx [].
  destruct m as [p b batch|from p|from rid h|from rid p b batch|v]; split; try done; simpl;
    try (apply Forall_app_2; [done|apply Forall_singleton]; by simpl; eauto).
  by destruct (Hbl v).
Qed.

Lemma on_recv_request_guards sender rid h : guards T (on_recv_request sender rid h).
Proof.
  intros cx Ht. unfold on_recv_request. apply safely_bind, safely_get.
  destruct (prop_chain_by_hash cx !! h) as [p|] eqn:Ep; [|done].
  destruct (delivered_block_from_hash _ _) as [b|]; [|done].
  apply safely_bind. eapply safely_mono; [by apply read_batch_guards|]. intros [batch|] cx' Ht'; [|done].
  apply send_guards; [|done]. intros q [= <-]. by eapply (tr_by_hash _ _ _ Ht).
Qed.

Lemma drain_prop_guards : guards T drain_prop.
Proof.
  apply guards_get. intros cx Ht. destruct (prop_buf cx) as [|[[[sender p] b] batch] rest] eqn:E; [apply guards_ret|].
  pose proof (tr_buf _ _ _ Ht) as Hb. rw E in Hb. apply Forall_cons in Hb as [[Hm Hh] Hb].
  apply guards_bind; [|intros _; apply guards_bind; [|intros _; apply guards_ret]].
  - apply guards_modify. intros cx' []. by split.
  - apply delivery_check_guards; [done|]. by intros b' batch' [= <- _].
Qed.

Lemma drain_relay_guards : guards T drain_relay.
Proof.
  apply guards_get. intros cx Ht. destruct (relay_buf cx) as [|[sender p] rest] eqn:E; [apply guards_ret|].
  pose proof (tr_relay _ _ _ Ht) as Hb. rw E in Hb. apply Forall_cons in Hb as [Hm Hb].
  apply guards_bind; [|intros _; apply guards_bind; [|intros _; apply guards_ret]].
  - apply guards_modify. intros cx' []. by split.
  - by apply delivery_check_guards.
Qed.

Lemma drain_other_guards : guards T drain_other.
Proof.
  apply guards_get. intros cx Ht. destruct (other_buf cx) as [|m rest] eqn:E; [apply guards_ret|].
  pose proof (tr_other _ _ _ Ht) as Hb. rw E in Hb. apply Forall_cons in Hb as [Hm Hb].
  apply guards_bind; [|intros _; apply guards_bind; [|intros _; apply guards_ret]].
  - apply guards_modify. intros cx' []. by split.
  - destruct m; try apply guards_ret; [apply on_recv_request_guards|done].
Qed.

Lemma drain_future_guards : guards T drain_future.
Proof.
  apply guards_get. intros cx Ht. destruct (future_msgs cx !! round cx) as [[sender p]|] eqn:E; [|apply guards_ret].
  apply guards_bind; [|intros _; apply guards_bind; [|intros _; apply guards_ret]].
  - apply guards_modify. intros cx' []. split; try done. simpl. by apply map_Forall_delete.
  - apply delivery_check_guards; [|done]. exact (tr_future _ _ _ Ht _ _ E).
Qed.

Lemma process_message_guards : guards T process_message.
Proof.
  unfold process_message.
  repeat first [apply guards_get; intros ? _ | apply guards_bind; [|intros _]]; apply guards_loop;
    auto using drain_prop_guards, drain_relay_guards, drain_other_guards, drain_future_guards.
Qed.
End node.

(** ** The leader's turn *)
Section leader.
Context `{Bincode} `{!BincodeLaws} `{!CollisionFree} `{Store} `{NetOracle}.
Implicit Types (cx : Context) (G : gmap Round (Propose * Block)).
Context (n : N) (me : Replica) (n_nodes : (0 < n < u16_size)%N).

(** The rounds that are this node's turn and have a proposal are over. *)
Definition ahead G cx : Prop :=
  ∀ r, is_Some (G !! r) → ((r - 1) mod n)%N = me → (r < round cx)%N.

(** The history has grown by rounds of this leader only. *)
Record grown G G' : Prop := {
  gr_sub : G ⊆ G';
  gr_linear : linear G';
  gr_new : ∀ r, is_Some (G' !! r) → G !! r = None → ((r - 1) mod n)%N = me;
}.

Definition led G cx : Prop := ∃ G', grown G G' ∧ tracks n me G' 1 cx ∧ ahead G' cx.

Lemma grown_insert G G' r x :
  grown G G' → G' !! r = None → linear (<[r := x]> G') → ((r - 1) mod n)%N = me →
  grown G (<[r := x]> G').
Proof.
  intros [Hs Hl Hn] Hr Hl' Hme. split; [|done|].
  - etrans; [exact Hs|]. by apply insert_subseteq.
  - intros r'. rw lookup_insert. case_decide as Hd; [by subst r'|apply Hn].
Qed.

Lemma multicast_tracks G lo cx m :
  tracks n me G lo cx → (∀ p, carries m = Some p → made G p) →
  tracks n me G lo (cx <| consensus_net ::= net_broadcast (round cx) (broadcast_peers cx) m |>).
Proof.
  intros [] Hm. split; try done. intros to m' p. simpl.
  rw net_broadcast_sent elem_of_app list_elem_of_fmap. intros [?|(to' & [= -> ->] & _)]; eauto.
Qed.

Lemma do_propose_led G bh batch cx :
  led G cx → round_leader cx = myid cx → safely (do_propose bh batch) (λ _, led G) cx.
Proof.
  intros (G' & Hg & Ht & Ha) Hl. unfold do_propose. apply safely_bind, safely_get. cbv zeta.
  match goal with |- context [NewProposal _ ?x _] => set (nb := x) end.
  destruct (tr_sign _ _ _ _ _ Ht (hash_as_ref (prop_hash (propose_new (block_hash nb))))) as [a Ea].
  rw Ea. apply safely_bind, safely_ret.
  match goal with |- context [NewProposal ?x nb _] => set (p := x) end.
  set (G2 := <[round cx := (p, nb)]> G').
  assert (((round cx - 1) mod n)%N = me) as Hme
    by (rw -(tr_leader _ _ _ _ _ Ht) Hl; by eapply tr_id).
  assert (G' !! round cx = None) as Hfresh.
  { apply eq_None_not_Some. intros Hs. pose proof (Ha _ Hs Hme). lia. }
  pose proof (tr_pos _ _ _ _ _ Ht) as Hpos. pose proof (tr_last _ _ _ _ _ Ht) as Hlast.
  pose proof (gr_linear _ _ Hg) as HG. assert (linear G2) as HG2.
  { apply (linear_insert _ _ _ _ (last_seen_block cx)); try done. simpl.
    rw (parent_at_height _ _ _ HG Hpos Hlast) add64_wrap. f_equal. lia. }
  assert (G' ⊆ G2) as Hsub by by apply insert_subseteq.
  assert (G2 !! prop_round p = Some (p, nb)) as Hp by (unfold G2; simpl; by rw lookup_insert_eq).
  assert (made G2 p) as Hm by by exists nb.
  unfold multicast. do 3 apply safely_bind, safely_modify.
  match goal with |- wpf _ _ _ (?c <| storage ::= _ |>) => set (cx1 := c) end.
  assert (tracks n me G2 1 cx1) as Ht1.
  { apply (tracks_core _ _ _ _ (cx <| consensus_net ::= net_broadcast (round cx) (broadcast_peers cx)
      (NewProposal p nb batch) |>)); [done|done|].
    apply multicast_tracks; [by eapply tracks_mono|]. by intros q [= <-]. }
  eapply safely_mono; [apply (on_receive_tracks n me n_nodes G2 1 HG2 p nb)|].
  - apply deliver_tracks; [done|right; eauto|done].
  - done.
  - done.
  - exact (add_delivered_self nb (storage cx1)).
  - intros [] cx2 [[_ Heq]|[Ht2 Ht3]].
    { change (equivocates (cx1 <| storage ::= add_delivered_block nb |>) nb = true) in Heq.
      by rw equivocates_indexed in Heq. }
    exists G2. split; [by apply grown_insert|]. split; [done|].
    pose proof (tr_lo _ _ _ _ _ Ht3) as Hlo. simpl in Hlo. intros r. unfold G2. rw lookup_insert.
    case_decide as Hd; [lia|]. intros Hs Hr. pose proof (Ha r Hs Hr). lia.
Qed.

Lemma leader_drain_led G : guards (led G) leader_drain.
Proof.
  apply guards_get. intros cx0 _. apply guards_loop. intros cx Hl. unfold leader_step.
  apply safely_bind, safely_get. destruct (pending_batches cx) as [|[bh batch] rest]; [done|].
  apply safely_if; intros Hlead; [|done]. apply N.eqb_eq in Hlead.
  apply safely_bind, safely_modify, safely_bind. eapply safely_mono; [apply do_propose_led|].
  - destruct Hl as (G' & Hg & Ht & Ha). exists G'. split; [done|]. split; [|done].
    destruct Ht. by split.
  - done.
  - by intros [] cx' Hl'.
Qed.
End leader.

(** ** The network *)
(** The state of every replica that was started. *)
Abbreviation world := (gmap Replica Context).

Section network.
Context `{Bincode} `{!BincodeLaws} `{!CollisionFree} `{Store} `{NetOracle}.
Implicit Types (cx : Context) (p q : Propose) (b c : Block).
Context (n : N).

Implicit Types W : world.

(** What the network may hand to a node: any message that decodes, as long as
    its proposal is one that some node has sent, to whomever and in whatever
    message.  A node's own messages are among these, and so are forged
    requests, responses and relays.  Blames are left out: the code takes one
    from anybody and panics on it (`on_receive_blame`, node/blame.rs), so a
    network that delivers blames stops whatever node it likes; see
    [blame_panics]. *)
Definition authentic W (m : ProtocolMsg) : Prop :=
  msg_hashed m ∧ (∀ v, m ≠ Blame v) ∧
  ∀ p, carries m = Some p → ∃ j cx to m', W !! j = Some cx ∧
    (to, m') ∈ sent (consensus_net cx) ∧ carries m' = Some p.
Definition input_authentic W (i : input) : Prop :=
  match i with Turn (EvMsgs msgs) => Forall (authentic W) msgs | _ => True end.

Abbreviation step := (Network.step take_input input_authentic).

(** The replicas of one cluster, each started on its own configuration and
    batch store. *)
Definition config_ok (i : Replica) (config : Node) : Prop :=
  Config.id config = i ∧ Config.num_nodes config = n ∧ (i < n)%N ∧
  (∀ sk m, decode_secret config = Some sk → is_Some (sk_sign sk m)) ∧
  (∀ r, (r < n)%N → is_Some (pk_map config !! r)).
Definition started W : Prop :=
  (0 < n < u16_size)%N ∧
  ∀ i cx, W !! i = Some cx → ∃ config bs, config_ok i config ∧ reactor_start config bs = Some cx.
Definition reachable W : Prop := ∃ W0 k, started W0 ∧ nsteps step k W0 W.

(** ** What holds of every reachable world *)
Record agreed W (G : gmap Round (Propose * Block)) : Prop := {
  ag_nodes : (0 < n < u16_size)%N;
  ag_linear : linear G;
  ag_inv : ∀ i cx, W !! i = Some cx → inv True cx;
  ag_tracks : ∀ i cx, W !! i = Some cx → tracks n i G 1 cx;
  ag_ahead : ∀ i cx, W !! i = Some cx → ahead n i G cx;
  ag_leader : ∀ r, is_Some (G !! r) → is_Some (W !! ((r - 1) mod n)%N);
}.

Lemma start_tracks i config bs cx :
  config_ok i config → reactor_start config bs = Some cx → tracks n i ∅ 1 cx.
Proof.
  intros (Hid & Hn & _ & Hsig & Hpk) Hs. unfold reactor_start, context_new in Hs.
  destruct (decode_secret config) as [sk|] eqn:Esk; [|done].
  destruct (decode_public_keys config _) as [pks|] eqn:Ek; [|done]. injection Hs as <-.
  assert (∀ h b, all_delivered_blocks_by_hash (add_delivered_block GENESIS_BLOCK storage_new) !! h
    = Some b → b = GENESIS_BLOCK) as Hg.
  { intros h b. simpl. rw lookup_insert lookup_empty. case_decide; naive_solver. }
  split; try done; simpl.
  - intros r Hr Hne. apply (decode_public_keys_spec _ _ _ r Ek). split; [by apply Hpk|].
    apply negb_true_iff, N.eqb_neq. by rw Hid.
  - intros m. by apply Hsig.
  - lia.
  - apply (add_delivered_block_wf GENESIS_BLOCK), storage_new_wf.
  - rw lookup_insert_eq. eauto.
  - intros h b Hb. left. by eapply Hg.
  - intros h b. rw lookup_insert lookup_empty. case_decide; [|done]. intros [= <-]. by left.
  - by left.
  - by intros to m p ?%not_elem_of_nil.
Qed.

Lemma started_agreed W : started W → agreed W ∅.
Proof.
  intros [Hn Hs]. split; [done|apply linear_empty|..].
  - intros i cx Hi. destruct (Hs i cx Hi) as (config & bs & (_ & En & _) & Hst).
    apply (start_inv True config bs); [by rw En|done|by left].
  - intros i cx Hi. destruct (Hs i cx Hi) as (config & bs & Hok & Hst). by eapply start_tracks.
  - by intros i cx Hi r [x ?].
  - by intros r [x ?].
Qed.

(** A turn of one node. *)
Lemma turn_led G me cx inp :
  (0 < n < u16_size)%N → linear G → tracks n me G 1 cx → ahead n me G cx →
  (∀ msgs, inp = Turn (EvMsgs msgs) → Forall (msg_from G) msgs) →
  safely (take_input inp) (λ _, led n me G) cx.
Proof.
  intros Hn HG Ht Ha Hin.
  assert (∀ cx', tracks n me G (round cx) cx' → led n me G cx') as Hend.
  { intros cx' Ht'. exists G. split; [by split; [done|done|intros r [x ?]; congruence]|]. split.
    - destruct Ht'. split; try done.
    - intros r Hs Hr. pose proof (Ha r Hs Hr). pose proof (tr_lo _ _ _ _ _ Ht'). lia. }
  assert (tracks n me G (round cx) cx) as Ht0 by (destruct Ht; by split).
  assert (∀ cx', tracks n me G (round cx) cx' →
    safely (leader_drain;;; ret true) (λ _, led n me G) cx') as Hlead.
  { intros cx' Ht'. apply safely_bind. eapply safely_mono; [by apply leader_drain_led, Hend|done]. }
  destruct inp as [[|msgs| | |bh batch|]|h batch]; try (apply safely_ret; by apply Hend).
  - apply safely_bind, safely_modify, Hlead.
    apply (tracks_core n me G (round cx) cx); [by destruct (_ =? _)%N..|done].
  - apply safely_bind. eapply safely_mono.
    { apply (guards_for_each (tracks n me G (round cx))); [|done]. intros m Hm.
      apply handle_message_guards. specialize (Hin msgs eq_refl). rw Forall_forall in Hin. by apply Hin. }
    intros [] cx1 Ht1. apply safely_bind. eapply safely_mono.
    { by apply (process_message_guards n me Hn G (round cx) HG). }
    intros [] cx2 Ht2. by apply Hlead.
  - apply safely_bind, safely_modify, Hlead. destruct Ht0. by split.
  - apply safely_bind, safely_modify, safely_ret, Hend. by apply (tracks_core n me G (round cx) cx).
Qed.

Lemma agreed_authentic W G msgs :
  agreed W G → Forall (authentic W) msgs → Forall (msg_from G) msgs.
Proof.
  intros Ha Hm. eapply Forall_impl; [exact Hm|]. intros m (Hh & Hb & Hc). split; [done|]. split; [|done].
  intros p Hp. destruct (Hc p Hp) as (j & cx & to & m' & Hj & Hs & Hc').
  by eapply (tr_sent _ _ _ _ _ (ag_tracks _ _ Ha _ _ Hj)).
Qed.

Lemma authentic_ok W inp cx : input_authentic W inp → input_ok True cx inp.
Proof.
  destruct inp as [[]|]; try done. intros Hin. simpl in *. eapply Forall_impl; [exact Hin|].
  intros [] (? & ? & ?); simpl; auto.
Qed.

Lemma turn_agreed W G i cx inp :
  agreed W G → W !! i = Some cx → input_authentic W inp →
  wp (take_input inp) (λ _ cx', ∃ G', G ⊆ G' ∧ agreed (<[i := cx']> W) G') cx.
Proof.
  intros Ha Hi Hin. pose proof Ha as [Hn HG Hinv Htr Hah Hld].
  assert (∀ msgs, inp = Turn (EvMsgs msgs) → Forall (msg_from G) msgs) as Hmsgs.
  { intros msgs ->. by eapply agreed_authentic. }
  eapply wpp_mono.
  - eapply safely_and_wlp; [apply (turn_led G i); eauto|].
    apply (take_input_spec True cx inp); [by eapply Hinv|by eapply authentic_ok].
  - intros go cx' [(G' & [Hs HG' Hnew] & Ht' & Ha') [[Hi' He] _]]. exists G'. split; [done|].
    split; [done|done| | | |].
    + intros j cxj [[<- <-]|[? Hj]]%lookup_insert_Some; eauto.
    + intros j cxj [[<- <-]|[? Hj]]%lookup_insert_Some; [done|]. eapply tracks_mono; eauto.
    + intros j cxj [[<- <-]|[Hne Hj]]%lookup_insert_Some; [done|]. intros r Hr Hl.
      destruct (G !! r) as [x|] eqn:E; [by eapply Hah|]. by rw (Hnew r Hr E) in Hl.
    + intros r Hr. rw lookup_insert. case_decide as Hd; [eauto|].
      destruct (G !! r) as [x|] eqn:E; [eauto|]. by rw (Hnew r Hr E) in Hd.
Qed.

Lemma reachable_agreed W : reachable W → ∃ G, agreed W G.
Proof.
  intros (W0 & k & Hs & Hr). revert Hr. apply (nsteps_inv _ _ (λ _ W, ∃ G, agreed W G));
    [|eauto using started_agreed].
  intros _ W' i inp cx go cx' [G HG] Hi Hin E. pose proof (turn_agreed W' G i cx inp HG Hi Hin) as Ht.
  unfold wpp in Ht. rw E in Ht. naive_solver.
Qed.

(** ** Agreement *)
Lemma committed_on_chain W G i cx h :
  agreed W G → W !! i = Some cx → h ∈ committed_blocks_by_hash (storage cx) →
  ∃ b, all_delivered_blocks_by_hash (storage cx) !! h = Some b ∧ h = block_hash b ∧ chain_block G b.
Proof.
  intros Ha Hi Hh. pose proof (ag_tracks _ _ Ha _ _ Hi) as Ht. pose proof (tr_storage _ _ _ _ _ Ht) as Hwf.
  destruct (wf_committed _ Hwf _ Hh) as [b Hb]. exists b. split; [done|].
  split; [symmetry; exact (wf_hash _ Hwf _ _ Hb)|]. by eapply tr_index.
Qed.

(** The committed blocks of a node reach down to the genesis block, along the
    history. *)
Lemma committed_reaches W G i cx r p b c :
  agreed W G → W !! i = Some cx → G !! r = Some (p, b) →
  block_hash b ∈ committed_blocks_by_hash (storage cx) →
  (c = GENESIS_BLOCK ∨ ∃ r' q, (r' ≤ r)%N ∧ G !! r' = Some (q, c)) →
  ancestor (storage cx) (block_hash b) (block_hash c).
Proof.
  intros Ha Hi. pose proof (ag_linear _ _ Ha) as HG. revert p b.
  induction r as [|r IH] using N.peano_ind; intros p b Hb Hh Hc.
  { apply (lin_pos _ HG) in Hb. lia. }
  pose proof (ag_tracks _ _ Ha _ _ Hi) as Ht. pose proof (tr_storage _ _ _ _ _ Ht) as Hwf.
  assert (c = b ∨ (c = GENESIS_BLOCK ∨ ∃ r' q, (r' ≤ r)%N ∧ G !! r' = Some (q, c))) as [->|Hc'].
  { destruct Hc as [->|(r' & q & Hr' & Hq)]; [by right; left|].
    destruct (decide (r' = N.succ r)) as [->|]; [left; congruence|]. right; right. exists r', q.
    split; [lia|done]. }
  { apply rtc_refl. }
  destruct (wf_committed _ Hwf _ Hh) as [b' Hb']. assert (b' = b) as ->.
  { eapply indexed_block; [exact HG|exact Ht|exact Hb'| |done]. right. by eapply lin_hashed. }
  pose proof (inv_closed _ _ (ag_inv _ _ Ha _ _ Hi) _ _ Hh Hb') as Hpar.
  eapply rtc_l; [by exists b|]. unfold parent_hash, Block_HasParent in *.
  destruct (lin_parent _ HG _ _ _ Hb) as (d & Hd & Ed). rw Ed in Hpar |- *.
  destruct Hd as [[Hr1 ->]|(_ & q & Hq)].
  - destruct Hc' as [->|(r' & q' & Hr' & Hq')]; [apply rtc_refl|].
    apply (lin_pos _ HG) in Hq'. lia.
  - replace (N.succ r - 1)%N with r in Hq by lia. by apply (IH q).
Qed.

Lemma committed_comparable W G i j cxi cxj h h' :
  agreed W G → W !! i = Some cxi → W !! j = Some cxj →
  h ∈ committed_blocks_by_hash (storage cxi) → h' ∈ committed_blocks_by_hash (storage cxj) →
  ancestor (storage cxi) h h' ∨ ancestor (storage cxj) h' h.
Proof.
  intros Ha Hi Hj Hh Hh'.
  destruct (committed_on_chain _ _ _ _ _ Ha Hi Hh) as (b & _ & -> & Hb).
  destruct (committed_on_chain _ _ _ _ _ Ha Hj Hh') as (c & _ & -> & Hc).
  destruct Hb as [->|(r & p & Hb)].
  { right. destruct Hc as [->|(r' & q & Hc)]; [apply rtc_refl|].
    eapply committed_reaches; [done|done|done|done|by left]. }
  destruct Hc as [->|(r' & q & Hc)].
  { left. eapply committed_reaches; [done|done|done|done|by left]. }
  destruct (decide (r' ≤ r)%N) as [Hle|Hgt].
  - left. eapply committed_reaches; eauto 10.
  - right. eapply committed_reaches; [done|done|done|done|]. right. exists r, p. split; [lia|done].
Qed.

(** Below 2^64 rounds a height names one block of the chain. *)
Lemma height_block W G b c :
  agreed W G → (∀ k cx, W !! k = Some cx → (round cx ≤ u64_size)%N) →
  chain_block G b → chain_block G c → height (header b) = height (header c) → b = c.
Proof.
  intros Ha Hr Hb Hc E. pose proof (ag_linear _ _ Ha) as HG.
  assert (∀ d, chain_block G d → d = GENESIS_BLOCK ∨ (1 ≤ height (header d))%N ∧
    ∃ p, G !! height (header d) = Some (p, d)) as Hd.
  { intros d [->|(r & p & Hd)]; [by left|right]. pose proof (lin_pos _ HG _ _ _ Hd).
    destruct (ag_leader _ _ Ha r) as [cx Hl]; [eauto|]. pose proof (Hr _ _ Hl).
    pose proof (ag_ahead _ _ Ha _ _ Hl r ltac:(eauto) eq_refl).
    rw (lin_height _ HG _ _ _ Hd) wrap64_small; [|lia]. eauto. }
  destruct (Hd b Hb) as [->|[Hb1 [p Hp]]], (Hd c Hc) as [->|[Hc1 [q Hq]]]; simpl in *; [done|lia|lia|].
  rw E in Hp. congruence.
Qed.

Lemma committed_ht_block W G i cx ht b :
  agreed W G → W !! i = Some cx → committed_block_from_ht (storage cx) ht = Some b →
  chain_block G b ∧ height (header b) = ht.
Proof.
  intros Ha Hi. unfold committed_block_from_ht. case_bool_decide; [|done]. intros Hb.
  pose proof (ag_tracks _ _ Ha _ _ Hi) as Ht. split; [by eapply tr_heights|].
  exact (proj1 (wf_ht _ (tr_storage _ _ _ _ _ Ht) _ _ Hb)).
Qed.

(** C1.  Agreement.  Start any number of replicas of one cluster and let the
    network lose, duplicate, delay, reorder and redirect their messages, and
    inject any message whose proposal is one that a replica sent; let any of
    the replicas stop.  In every world that can be reached, two replicas that
    accepted a proposal for the same round accepted the same one; of two
    blocks committed by two replicas one is an ancestor of the other, so the
    committed chain of one replica extends that of the other; and, until
    2^64 rounds have passed, the blocks they report committed at one height
    are the same. *)
Theorem apollo_agreement W i j cxi cxj :
  reachable W → W !! i = Some cxi → W !! j = Some cxj →
  (∀ r p q, prop_chain_by_round cxi !! r = Some p → prop_chain_by_round cxj !! r = Some q → p = q) ∧
  (∀ h h', h ∈ committed_blocks_by_hash (storage cxi) → h' ∈ committed_blocks_by_hash (storage cxj) →
     ancestor (storage cxi) h h' ∨ ancestor (storage cxj) h' h) ∧
  ((∀ k cx, W !! k = Some cx → (round cx ≤ u64_size)%N) →
     ∀ ht b c, committed_block_from_ht (storage cxi) ht = Some b →
       committed_block_from_ht (storage cxj) ht = Some c → b = c).
Proof.
  intros [G Ha]%reachable_agreed Hi Hj. split; [|split].
  - intros r p q Hp Hq.
    destruct (tr_by_round _ _ _ _ _ (ag_tracks _ _ Ha _ _ Hi) _ _ Hp) as [[b Hb] <-].
    destruct (tr_by_round _ _ _ _ _ (ag_tracks _ _ Ha _ _ Hj) _ _ Hq) as [[c Hc] E]. congruence.
  - intros h h'. by eapply committed_comparable.
  - intros Hr ht b c Hb Hc.
    destruct (committed_ht_block _ _ _ _ _ _ Ha Hi Hb) as [Hb1 E1].
    destruct (committed_ht_block _ _ _ _ _ _ Ha Hj Hc) as [Hc1 E2].
    eapply height_block; [done|done|done|done|congruence].
Qed.

(** Between turns nothing is buffered. *)
Lemma reachable_idle W i cx : reachable W → W !! i = Some cx → idle cx.
Proof.
  intros (W0 & k & [Hn Hs] & Hr).
  enough ((∃ G, agreed W G) ∧ ∀ i cx, W !! i = Some cx → idle cx) as [_ Hid] by eauto.
  clear i cx. revert Hr.
  apply (nsteps_inv _ _ (λ _ W, (∃ G, agreed W G) ∧ ∀ i cx, W !! i = Some cx → idle cx)).
  - intros _ W' i inp cx go cx' [[G HG] Hid] Hi Hin E.
    pose proof (turn_agreed W' G i cx inp HG Hi Hin) as Ht. unfold wpp in Ht. rw E in Ht.
    destruct Ht as (G' & _ & HG'). split; [by exists G'|].
    pose proof (take_input_spec True cx inp (ag_inv _ _ HG _ _ Hi) (authentic_ok W' inp cx Hin)) as Hw.
    unfold wpp in Hw. rw E in Hw. destruct Hw as (_ & Hidle & _).
    intros j cxj [[<- <-]|[? Hj]]%lookup_insert_Some; [|by eapply Hid]. eapply Hidle, Hid, Hi.
  - split; [exists ∅; by apply started_agreed|]. intros i cx Hi.
    destruct (Hs i cx Hi) as (config & bs & _ & Hst). by eapply started_idle.
Qed.

Lemma blame_panics cx v :
  idle cx → take_input (Turn (EvMsgs [Blame v])) cx = Panicked "Received a blame message".
Proof.
  intros (E1 & E2 & E3). cbn [take_input react for_each].
  unfold handle_message, process_message, bind, modify, get, ret. simpl.
  unfold drain_prop, drain_relay, drain_other, bind, get, modify, ret. simpl.
  rw E1 E2. simpl. by rw E3.
Qed.

(** C16.  No message but a blame stops an honest network.  In every reachable
    world every replica completes whatever turn the network gives it, without
    panic or endless loop, and the world stays reachable: blocks may arrive
    before their parents, more than once or never, and requests, relays and
    responses may be made up, as long as every proposal in a message is one
    that some replica has sent.  A blame is the exception, and anybody can
    send one: a turn that takes a blame panics, in every reachable world. *)
Theorem apollo_net_never_panics W i cx :
  reachable W → W !! i = Some cx →
  (∀ inp, input_authentic W inp →
    ∃ go cx', take_input inp cx = Done go cx' ∧ reachable (<[i := cx']> W)) ∧
  (∀ v, take_input (Turn (EvMsgs [Blame v])) cx = Panicked "Received a blame message").
Proof.
  intros Hr Hi. split; [|intros v; eapply blame_panics, reachable_idle; eauto].
  intros inp Hin. pose proof Hr as [G Ha]%reachable_agreed.
  destruct (wpp_done _ _ _ (turn_agreed W G i cx inp Ha Hi Hin)) as (go & cx' & E & _).
  exists go, cx'. split; [done|]. destruct Hr as (W0 & k & Hs & Hr). exists W0, (S k). split; [done|].
  eapply nsteps_r; [exact Hr|]. by eapply step_node.
Qed.
End network.

(** ** Executing the network

    A script of turns, run against a world; a turn the network is not allowed
    to give is skipped. *)
Section simulate.
Context `{Bincode} `{!BincodeLaws} `{!CollisionFree} `{Store} `{NetOracle}.
Implicit Types W : world.

#[export] Instance Propose_eq_dec : EqDecision Propose.
Proof. solve_decision. Defined.

Definition sent_proposal W (p : Propose) : bool :=
  existsb (λ kv, existsb (λ x, bool_decide (carries x.2 = Some p)) (sent (consensus_net kv.2)))
    (map_to_list W).
Definition authenticb W (m : ProtocolMsg) : bool :=
  match m with
  | NewProposal p b _ | Response _ _ p b _ => bool_decide (well_hashed b) && sent_proposal W p
  | Relay _ p => sent_proposal W p
  | Request _ _ _ => true
  | Blame _ => false
  end.

Lemma sent_proposal_spec W p :
  sent_proposal W p = true → ∃ j cx to m', W !! j = Some cx ∧
    (to, m') ∈ sent (consensus_net cx) ∧ carries m' = Some p.
Proof.
  unfold sent_proposal. intros ([j cx] & Hj & Hx)%existsb_exists.
  apply existsb_exists in Hx as ([to m'] & Hm & E%bool_decide_eq_true).
  apply list_elem_of_In, elem_of_map_to_list in Hj. apply list_elem_of_In in Hm. eauto 10.
Qed.

Lemma authenticb_spec W m : authenticb W m = true → authentic W m.
Proof.
  destruct m as [p b batch|from p|from rid h|from rid p b batch|v]; simpl; try done.
  all: try (intros [Hb Hs]%andb_true_iff; apply bool_decide_eq_true in Hb).
  all: try intros Hs.
  all: split; [done|]; split; [done|]; intros q [= <-]; by apply sent_proposal_spec.
Qed.

(** A batch for node [i], or a poll of the network by [i] that finds the
    messages [j] has sent it. *)
Inductive action :=
  | Give (i : Replica) (h : Hash) (batch : CachedBatch Transaction)
  | Poll (i j : Replica).
Definition act W (a : action) : Replica * input :=
  match a with
  | Give i h batch => (i, Turn (EvBatch h batch))
  | Poll i j => (i, Turn (EvMsgs match W !! j with
                                 | Some cx => sent_to i (sent (consensus_net cx))
                                 | None => []
                                 end))
  end.
Definition input_authenticb W (inp : input) : bool :=
  match inp with Turn (EvMsgs msgs) => forallb (authenticb W) msgs | _ => true end.
Definition simulate : list action → world → world := Network.simulate take_input act input_authenticb.

Lemma input_authenticb_spec W inp : input_authenticb W inp = true → input_authentic W inp.
Proof.
  intros Hal. destruct inp as [[]|]; try done. simpl in *.
  apply Forall_forall. intros m Hm. apply authenticb_spec.
  rw forallb_forall in Hal. apply Hal. by apply list_elem_of_In.
Qed.

Lemma simulate_reachable n l W : started n W → reachable n (simulate l W).
Proof.
  intros Hs. destruct (simulate_steps take_input input_authentic act input_authenticb
    input_authenticb_spec l W) as (k & _ & Hk). by exists W, k.
Qed.
End simulate.

Module Examples.
Import Toy ToyFormat ConfigExamples ApolloProofs.Examples.

(** Three replicas; f = 1. *)
Definition cfg_of (i : N) : Node := cfg3 <| Config.id := i |> <| secret_key_bytes := [(10 + i)%N] |>.
Definition boot (i : N) : Context := default dummy (reactor_start (cfg_of i) bs0).
Definition W0 : world := {[ 0%N := boot 0; 1%N := boot 1; 2%N := boot 2 ]}.

Lemma W0_started : started 3 W0.
Proof.
  split; [done|]. intros i cx Hi.
  assert (∀ i, (i < 3)%N → config_ok 3 i (cfg_of i) ∧ reactor_start (cfg_of i) bs0 = Some (boot i)) as Hok.
  { clear. intros i Hi. split.
    - split; [done|]. split; [done|]. split; [done|]. split; [intros; eexists; reflexivity|].
      intros r Hr. assert (r = 0 ∨ r = 1 ∨ r = 2)%N as [->|[->| ->]] by lia;
        eexists; vm_compute; reflexivity.
    - assert (i = 0 ∨ i = 1 ∨ i = 2)%N as [->|[->| ->]] by lia; vm_compute; reflexivity. }
  exists (cfg_of i), bs0. assert ((i < 3)%N ∧ cx = boot i) as [Hlt ->].
  { unfold W0 in Hi. do 2 (apply lookup_insert_Some in Hi as [[<- <-]|[_ Hi]]; [done|]).
    by apply lookup_singleton_Some in Hi as [<- <-]. }
  by apply Hok.
Qed.

(** Replica 1 proposes before replica 2 has seen the first block, and the
    messages of replica 1 reach replica 2 first; replica 2 polls replica 0
    twice. *)
Definition script : list action :=
  [Give 0 (hash (batch 1)) (batch 1); Poll 1 0; Give 1 (hash (batch 2)) (batch 2);
   Poll 2 1; Poll 2 0; Poll 2 0; Poll 2 1; Poll 0 1].
Definition W1 : world := simulate script W0.
Definition node (i : N) : Context := default dummy (W1 !! i).

Lemma W1_nodes : W1 !! 0%N = Some (node 0) ∧ W1 !! 2%N = Some (node 2).
Proof.
  assert (∀ i, bool_decide (is_Some (W1 !! i)) = true → W1 !! i = Some (node i)) as Hn.
  { intros i [cx E]%bool_decide_eq_true. unfold node. by rw E. }
  split; apply Hn; vm_compute; reflexivity.
Qed.

Lemma W1_committed i :
  bool_decide (is_Some (committed_block_from_ht (storage (node i)) 1)) = true →
  ∃ b, committed_block_from_ht (storage (node i)) 1 = Some b.
Proof. by intros [b Hb]%bool_decide_eq_true; exists b. Qed.

Lemma W1_rounds k cx : W1 !! k = Some cx → (round cx ≤ u64_size)%N.
Proof.
  intros Hk. apply N.leb_le. revert k cx Hk. apply (forallb_map W1 (λ cx, round cx <=? u64_size)%N).
  vm_compute. reflexivity.
Qed.

Lemma apollo_agreement_witness :
  ∃ b, committed_block_from_ht (storage (node 0)) 1 = Some b ∧
       committed_block_from_ht (storage (node 2)) 1 = Some b ∧
       (∀ h h', h ∈ committed_blocks_by_hash (storage (node 0)) →
          h' ∈ committed_blocks_by_hash (storage (node 2)) →
          ancestor (storage (node 0)) h h' ∨ ancestor (storage (node 2)) h' h).
Proof.
  destruct (apollo_agreement 3 W1 0 2 (node 0) (node 2)) as (_ & Hanc & Hht).
  - apply simulate_reachable, W0_started.
  - apply W1_nodes.
  - apply W1_nodes.
  - destruct (W1_committed 0) as [b Hb]; [vm_compute; reflexivity|].
    destruct (W1_committed 2) as [c Hc]; [vm_compute; reflexivity|].
    exists b. split; [exact Hb|]. split; [|exact Hanc].
    rw (Hht W1_rounds 1%N b c Hb Hc). exact Hc.
Defined.

(** A forged request and a relay of a proposal that was sent. *)
Lemma apollo_net_never_panics_witness :
  (∃ go cx', take_input (Turn (EvMsgs [Request 1 7 EMPTY_HASH; Relay 2 p1])) (node 0) = Done go cx' ∧
    reachable 3 (<[0%N := cx']> W1)) ∧
  take_input (Turn (EvMsgs [Blame (mkVote 9 [])])) (node 0) = Panicked "Received a blame message".
Proof.
  destruct (apollo_net_never_panics 3 W1 0 (node 0)) as [Hok Hblame].
  - apply simulate_reachable, W0_started.
  - apply W1_nodes.
  - split; [|apply Hblame]. apply Hok. constructor; [by apply authenticb_spec|].
    apply Forall_singleton, authenticb_spec. vm_compute. reflexivity.
Defined.

(** Why the network must not be allowed to alter a proposal: the signature
    covers the hash of the block and not the round.  Replica 0 leads rounds 1
    and 4.  After three honest rounds, its first proposal is sent to replica 2
    again with the round changed to 4: the signature is still good, the old
    block is accepted for round 4 and becomes the parent of the next one. *)
Definition W3 : world := simulate (script ++ [Give 2 (hash (batch 3)) (batch 3); Poll 0 2; Poll 1 2]) W0.
Definition replayed : Propose := mkPropose (sig p1) 4 (prop_hash p1).
Example apollo_replay_forks :
  let cx := default dummy (W3 !! 2%N) in
  sent_proposal W3 p1 = true ∧ sent_proposal W3 replayed = false ∧ round cx = 4%N ∧
  match react (EvMsgs [NewProposal replayed b1 (batch 1)]) cx with
  | Done _ cx' => round cx' = 5%N ∧ block_hash (last_seen_block cx) ≠ block_hash b1 ∧
                  last_seen_block cx' = b1
  | _ => False
  end.
Proof. vm_compute. repeat split; try reflexivity. discriminate. Qed.
End Examples.
End ApolloNet.
