(* ===== verification/ArtemisNet.v ===== *)
(** * A network of Artemis nodes

    Every replica runs the node of Artemis.v; the network may lose, duplicate,
    delay, reorder and reroute what they send, and may add messages of its
    own, as long as a block or vote in them is one that some node sent.  In
    every world that is reached in fewer than 2^64 turns the nodes agree: on
    the leader of every round, on the vote they accepted for it, and on one
    chain of committed blocks. *)

From S2P Require Import Prelude Crypto Types Config Storage Batch NodeIO Artemis ArtemisProofs Network.

Module ArtemisNet.
Import Artemis ArtemisProofs.

Abbreviation delivered cx h := (is_Some (all_delivered_blocks_by_hash (storage cx) !! h)).

(** ** The schedule of round leaders

    The leaders of a round depend on the cluster's size and on nothing that
    is received: whoever is in round [k + 1] has the leaders below. *)
Section schedule.
Context `{Crypto}.
Context (n f : N).

Definition leaders : Type := Replica * list Replica * list Replica.

Definition pick (r : Round) (eligible : list Replica) : option (Replica * nat) :=
  let len := N.of_nat (length eligible) in
  if (len =? 0)%N then None
  else let idx := N.to_nat (from_be_bytes (drop 24 (hash_as_ref (do_hash (to_be_bytes (r + 1))))) mod len) in
       match eligible !! idx with Some l => Some (l, idx) | None => None end.

Definition next_leaders (r : Round) (ls : leaders) : option leaders :=
  let '(_, last, eligible) := ls in
  match pick r eligible, head last with
  | Some (l, idx), Some again => Some (l, linked_insert l (tail last), <[idx := again]> eligible)
  | _, _ => None
  end.

Definition first_leaders : leaders :=
  (as_u16 (sub64 f 1),
   foldl (λ l i, linked_insert (as_u16 (N.of_nat i)) l) [] (seq 0 (N.to_nat f)),
   (λ i, as_u16 (N.of_nat i)) <$> seq (N.to_nat f) (N.to_nat n - N.to_nat f)).

Fixpoint schedule (k : nat) : option leaders :=
  match k with
  | O => Some first_leaders
  | S k' => schedule k' ≫= next_leaders (N.of_nat k' + 1)
  end.

(** The leader of round [r]. *)
Definition leader_of (r : Round) : option Replica := (λ ls, ls.1.1) <$> schedule (N.to_nat (r - 1)).
End schedule.

(** ** The blocks and votes made so far *)
Section history.
Context `{Bincode} `{!BincodeLaws} `{!CollisionFree}.
Implicit Types (L : list Types.Block) (V : gmap Round UCRVote) (b c : Types.Block).

(** The chain of the view leader, oldest first: the block at position [i] is
    at height [i] and extends the one before it. *)
Record linear L : Prop := {
  lin_genesis : L !! 0 = Some Types.GENESIS_BLOCK;
  lin_hashed : ∀ i b, L !! S i = Some b → block_hash b = compute_hash b;
  lin_height : ∀ i b, L !! i = Some b → height (header b) = N.of_nat i;
  lin_parent : ∀ i b c, L !! S i = Some b → L !! i = Some c → prev (header b) = block_hash c;
}.

Lemma linear_genesis : linear [Types.GENESIS_BLOCK].
Proof. split; [done|done| |done]. intros [|i] b; by intros [= <-]. Qed.

Lemma linear_nonempty L : linear L → ∃ b, last L = Some b.
Proof. intros HL. pose proof (lin_genesis _ HL). destruct L as [|b L]; [done|]. rw last_cons. destruct (last L); eauto. Qed.

Lemma linear_elem_hashed L b : linear L → b ∈ L → well_hashed b.
Proof.
  intros HL [[|i] Hi]%list_elem_of_lookup.
  - rw (lin_genesis _ HL) in Hi. left. congruence.
  - right. by eapply lin_hashed.
Qed.

(** A block of the chain is known by its hash. *)
Lemma linear_inj L b c : linear L → b ∈ L → well_hashed c → block_hash b = block_hash c → b = c.
Proof. intros HL Hb. apply well_hashed_inj. by eapply linear_elem_hashed. Qed.

Lemma linear_top L b c : linear L → b ∈ L → last L = Some c → (height (header b) ≤ height (header c))%N.
Proof.
  intros HL [i Hi]%list_elem_of_lookup Hc. rw last_lookup in Hc.
  rw (lin_height _ HL _ _ Hi) (lin_height _ HL _ _ Hc). apply lookup_lt_Some in Hi. lia.
Qed.

Lemma linear_snoc L b c :
  linear L → last L = Some c → block_hash b = compute_hash b → prev (header b) = block_hash c →
  height (header b) = N.of_nat (length L) → linear (L ++ [b]).
Proof.
  intros HL Hc Hh Hp Hht. rw last_lookup in Hc. split.
  - apply lookup_app_l_Some. apply HL.
  - intros i b' [Hb|[Hl Hb]]%lookup_app_Some; [by eapply lin_hashed|].
    apply list_lookup_singleton_Some in Hb as [_ <-]. done.
  - intros i b' [Hb|[Hl Hb]]%lookup_app_Some; [by eapply lin_height|].
    apply list_lookup_singleton_Some in Hb as [? <-]. rw Hht. f_equal. lia.
  - intros i b' c' [Hb|[Hl Hb]]%lookup_app_Some Hc'.
    + eapply lin_parent; [done|exact Hb|]. apply lookup_app_Some in Hc' as [?|[? _]]; [done|].
      apply lookup_lt_Some in Hb. lia.
    + apply list_lookup_singleton_Some in Hb as [? <-].
      rw lookup_app_l in Hc'; [|lia]. assert (i = pred (length L)) as -> by lia. congruence.
Qed.

(** Votes by round. *)
Definition cast V (v : UCRVote) : Prop := V !! v_round v = Some v.
Lemma cast_mono V V' v : V ⊆ V' → cast V v → cast V' v.
Proof. intros Hs Hv. by eapply lookup_weaken. Qed.
End history.

(** ** One node against the history *)
Section node.
Context `{Bincode} `{!BincodeLaws} `{!CollisionFree} `{Store} `{NetOracle} `{Clock}.
Implicit Types (cx : Context) (v : UCRVote) (b : Block) (L : list Types.Block) (V : gmap Round UCRVote).
Context (n nf : N) (me : Replica).

Definition carries_block (m : ProtocolMsg) : option Types.Block :=
  match m with NewBlock b _ | Response _ _ b _ => Some (blk b) | _ => None end.
Definition carries_vote (m : ProtocolMsg) : option UCRVote :=
  match m with MUCRVote v | Relay _ v => Some v | _ => None end.
(** A message whose block and vote are in the history. *)
Definition msg_from L V (m : ProtocolMsg) : Prop :=
  (∀ b : Types.Block, carries_block m = Some b → b ∈ L) ∧ (∀ v, carries_vote m = Some v → cast V v).

(** Everything the node holds comes from the history; its leaders follow the
    schedule; the view leader's newest block is the newest of all.  [room]
    bounds the blocks made and the batches waiting to become one. *)
Record tracks L V (room : N) (lo : Round) cx : Prop := {
  tr_id : myid cx = me;
  tr_view : view cx = 0%N;
  tr_view_leader : view_leader cx = 0%N;
  tr_lo : (lo ≤ round cx)%N;
  tr_pos : (1 ≤ round cx)%N;
  tr_leaders : schedule n nf (N.to_nat (round cx - 1)) =
    Some (round_leader cx, last_f_leaders cx, eligible_leaders cx);
  tr_blocks : Forall (λ x, blk x.1 ∈ L) (block_processing_waiting cx);
  tr_responses : Forall (λ x, blk x.1.2 ∈ L) (response_waiting cx);
  tr_other : Forall (msg_from L V) (other_buf cx);
  tr_undelivered : map_Forall (λ _ b, blk b ∈ L) (undelivered_blocks cx);
  tr_ready : map_Forall (λ r v, cast V v ∧ v_round v = r) (vote_ready cx);
  tr_waiting : map_Forall (λ _ v, cast V v) (vote_waiting cx);
  tr_chain : map_Forall (λ r v, V !! r = Some v) (vote_chain cx);
  tr_storage : storage_wf (storage cx);
  tr_index : map_Forall (λ _ b, blk b ∈ L) (all_delivered_blocks_by_hash (storage cx));
  tr_heights : map_Forall (λ _ b, blk b ∈ L) (all_delivered_blocks_by_ht (storage cx));
  tr_last : blk (last_seen_block cx) ∈ L;
  tr_seen : delivered cx (get_hash (last_seen_block cx));
  tr_top : me = 0%N → last L = Some (blk (last_seen_block cx));
  tr_room : me = 0%N → (N.of_nat (length L + length (pending_batches cx)) ≤ room)%N;
  tr_sent : ∀ to m, (to, m) ∈ sent (consensus_net cx) → msg_from L V m;
}.

Lemma msg_from_mono L L' V V' m : L ⊆ L' → V ⊆ V' → msg_from L V m → msg_from L' V' m.
Proof. intros HL HV [Hb Hv]. split; [|eauto using cast_mono]. intros b Hc. by apply HL, Hb. Qed.

(** Growing the history: by blocks, which the view leader must notice, or by
    votes. *)
Lemma artemis_tracks_mono L L' V V' room lo cx :
  L ⊆ L' → V ⊆ V' → (me = 0%N → L' = L) → tracks L V room lo cx → tracks L' V' room lo cx.
Proof.
  intros HL HV Hme []. assert (∀ b : Types.Block, b ∈ L → b ∈ L') as Hsub by done.
  split; try done; try (eapply Forall_impl; [eassumption|]; by eauto);
    try (eapply map_Forall_impl; [eassumption|]; by eauto).
  - eapply Forall_impl; [exact tr_other0|]. intros m. by apply msg_from_mono.
  - eapply map_Forall_impl; [exact tr_ready0|]. intros ? x []. eauto using cast_mono.
  - eapply map_Forall_impl; [exact tr_waiting0|]. intros ? x. by apply cast_mono.
  - eapply map_Forall_impl; [exact tr_chain0|]. intros r x Hx. exact (lookup_weaken _ _ _ _ Hx HV).
  - by apply HL.
  - intros E. rw Hme //. by apply tr_top0.
  - intros E. rw Hme //. by apply tr_room0.
  - intros to m Hs. eapply msg_from_mono; eauto.
Qed.

(** What [tracks] looks at besides [core]. *)
Definition told_peers cx := (view cx, sent (consensus_net cx)).

Lemma artemis_tracks_core L V room lo cx cx' :
  core cx' = core cx → told_peers cx' = told_peers cx → tracks L V room lo cx → tracks L V room lo cx'.
Proof.
  intros Hc Ht. destruct cx, cx'. unfold core in Hc; unfold told_peers in Ht; simpl in *.
  simplify_eq. intros []. split; simpl in *; try done; try congruence.
  match goal with E : sent _ = sent _ |- _ => by rw E end.
Qed.

Context (L : list Types.Block) (V : gmap Round UCRVote) (room : N) (lo : Round).
Hypothesis HL : linear L.
Abbreviation T := (tracks L V room lo).
Abbreviation keeps_it m := (guards_pn True T m).

Lemma artemis_send_tracks cx to m :
  T cx → msg_from L V m →
  T (if (to =? myid cx)%N then cx else cx <| consensus_net ::= net_send (round cx) to m |>).
Proof.
  intros Ht Hm. destruct (to =? myid cx)%N; [done|]. destruct Ht. split; try done.
  intros to' m'. simpl. rw net_send_sent elem_of_app list_elem_of_singleton.
  intros [?|[= -> ->]]; eauto.
Qed.
Lemma send_keeps_it to m : msg_from L V m → keeps_it (send to m).
Proof. intros Hm. apply guards_modify. intros cx Ht. by apply artemis_send_tracks. Qed.

Lemma msg_from_none m : carries_block m = None → carries_vote m = None → msg_from L V m.
Proof. intros E1 E2. by split; intros x; rw ?E1 ?E2. Qed.

Lemma artemis_read_batch_told x h : keeps (λ cx, told_peers cx = x) (read_batch h).
Proof.
  intros cx a cx' Hs. unfold read_batch. destruct (batches_read h (batches cx)). by intros [= _ <-].
Qed.
Lemma read_batch_keeps_it h : keeps_it (read_batch h).
Proof.
  intros cx Ht. eapply safely_mono.
  - eapply (safely_keeps _ _ _ _ (artemis_read_batch_told (told_peers cx) h)); [done|].
    apply safely_wp, art_read_batch_core.
  - intros o cx' [Hc Hp]. by eapply artemis_tracks_core.
Qed.
Lemma persist_keeps_it h batch : keeps_it (persist_batch h batch).
Proof. apply guards_modify. intros cx. by apply artemis_tracks_core. Qed.

(** ** Votes *)
Lemma announce_keeps_it l : keeps_it (for_each l announce_commit).
Proof.
  apply guards_for_each. intros b _. unfold announce_commit.
  apply guards_bind; [apply read_batch_keeps_it|]. intros [batch|]; [|apply guards_ret].
  repeat (apply guards_bind; [|intros _]); apply guards_modify; intros cx; by apply artemis_tracks_core.
Qed.

Lemma do_commit_keeps_it : keeps_it do_commit.
Proof.
  intros cx Ht. unfold do_commit. apply safely_bind, safely_get, safely_bind, safely_unwrap; [|done].
  intros v _. apply safely_bind. apply (safely_mono _ (λ _, T)).
  - unfold commit_blocks, wpf at 1.
    pose proof (commit_walk_run _ _ (v_hash v) [] (tr_storage _ _ _ _ _ Ht) (uncommitted_fuel (storage cx)))
      as Hrun. destruct (commit_walk _ _ _ _) as [newly s'| |]; [|done..].
    destruct Hrun as (path & _ & [E1 E2 _ _ _ _ _ _] & Hwf'). destruct Ht. split; simpl; rw ?E1 ?E2 //.
  - intros newly cx'. apply announce_keeps_it.
Qed.

Lemma update_round_tracks cx :
  T cx → after update_round (λ _, tracks L V room (N.succ (round cx))) cx.
Proof.
  intros Ht. unfold update_round.
  apply safely_bind, safely_modify, safely_bind, safely_get, safely_bind, safely_unwrap; [|done].
  intros [l idx] E. apply safely_bind, safely_modify, safely_bind, safely_unwrap; [|done].
  intros again Ea. apply safely_bind, safely_modify, safely_modify. destruct Ht.
  split; try done; simpl in *.
  - lia.
  - replace (N.to_nat (N.succ (round cx) - 1)) with (S (N.to_nat (round cx - 1))) by lia.
    cbn [schedule]. rw tr_leaders0. simpl. replace (N.of_nat (N.to_nat (round cx - 1)) + 1)%N with (round cx) by lia.
    change (compute_next_round_leader _) with (pick (round cx) (eligible_leaders cx)) in E.
    by rw E Ea.
Qed.

(** A vote of the history, for the current round. *)
Lemma round_vote_tracks cx v :
  T cx → cast V v → v_round v = round cx →
  after (on_receive_round_vote v) (λ _ cx', T cx' ∧
    (v_view v = 0%N → round_leader cx = me → tracks L V room (N.succ (round cx)) cx')) cx.
Proof.
  intros Ht Hv Hr. unfold on_receive_round_vote. apply safely_bind, safely_get.
  apply safely_if; intros Hview.
  { apply safely_ret. split; [done|]. intros E. by rw (tr_view _ _ _ _ _ Ht) E in Hview. }
  apply safely_bind, (safely_mono _ (λ bad cx', cx' = cx ∧ (round_leader cx = me → bad = false))).
  { apply safely_if; intros Hme; [by apply safely_ret|]. apply safely_bind, safely_unwrap; [|done].
    intros pk _. apply safely_ret. split; [done|]. intros E.
    by rw (tr_id _ _ _ _ _ Ht) E N.eqb_refl in Hme. }
  intros bad cx' [-> Hbad]. apply safely_if; intros Eb.
  { apply safely_ret. split; [done|]. intros _ E. by rw Hbad in Eb. }
  apply safely_bind, safely_modify, safely_bind.
  apply (safely_mono _ (λ _ cx', T cx' ∧ round cx' = round cx)).
  { assert (∀ cx1, T cx1 → round cx1 = round cx → T (cx1 <| vote_chain ::= insert (v_round v) v |>)) as Hins.
    { intros cx1 [] _. split; try done. simpl. by apply map_Forall_insert_2. }
    assert (keeps (λ cx', round cx' = round cx) do_commit) as Hk.
    { assert (∀ h, keeps (λ cx', round cx' = round cx) (read_batch h)) as Hrb.
      { intros h c1 a c2 Hs. unfold read_batch. destruct (batches_read h (batches c1)). by intros [= _ <-]. }
      assert (∀ h, keeps (λ cx', round cx' = round cx) (commit_blocks h)) as Hcb.
      { intros h c1 a c2 Hs. unfold commit_blocks. destruct (commit_walk _ _ _ _); [|done..].
        by intros [= _ <-]. }
      unfold do_commit, announce_commit.
      repeat first [progress intros | solve [trivial with keeps] | apply keeps_bind | apply keeps_for_each
        | solve [eauto with keeps] | apply keeps_modify; intros; assumption
        | match goal with |- keeps _ (match ?x with _ => _ end) => destruct x end ]. }
    apply safely_if; intros _; [|apply safely_ret; by split; [apply Hins|]].
    apply (safely_keeps _ _ _ _ Hk); [done|]. apply do_commit_keeps_it. by apply Hins. }
  intros [] cx1 [Ht1 Er]. apply safely_bind, safely_get, safely_bind, safely_unwrap; [|done].
  intros b _. apply safely_bind, safely_modify. unfold next_round_leader.
  apply safely_bind, safely_bind, safely_get, safely_bind, safely_unwrap; [|done].
  intros r _. apply safely_ret, safely_bind, safely_modify.
  match goal with |- wpf _ _ _ ?c => assert (T c ∧ round c = round cx) as [Ht2 Er2] end.
  { split; [|destruct (r.1 =? _)%N; exact Er]. apply artemis_send_tracks; [by apply (artemis_tracks_core _ _ _ _ cx1)|].
    by split; [|intros v' [= <-]]. }
  eapply safely_mono; [by apply update_round_tracks|]. rw Er2. intros [] cx3 Ht3. split; [|done].
  pose proof (tr_lo _ _ _ _ _ Ht). destruct Ht3. split; try done. lia.
Qed.

Lemma request_and_wait_keeps_it from v : cast V v → keeps_it (request_and_wait from v).
Proof.
  intros Hv. unfold request_and_wait. apply guards_get. intros cx0 _. apply guards_bind.
  - by apply send_keeps_it, msg_from_none.
  - intros _. apply guards_modify. intros cx []. split; try done. simpl. by apply map_Forall_insert_2.
Qed.

Lemma try_receive_vote_keeps_it from v : cast V v → keeps_it (try_receive_round_vote from v).
Proof.
  intros Hv cx Ht. unfold try_receive_round_vote. apply safely_bind, safely_get.
  apply safely_if; intros Hge; [by apply safely_ret|].
  apply safely_if; intros Hle.
  { apply safely_if; intros _; [|by apply request_and_wait_keeps_it]. apply safely_modify.
    destruct Ht. split; try done. simpl. by apply map_Forall_insert_2. }
  apply safely_if; intros _; [by apply request_and_wait_keeps_it|]. apply N.ltb_ge in Hge, Hle.
  eapply safely_mono; [apply round_vote_tracks; [done|done|lia]|]. by intros [] cx' [? _].
Qed.

(** ** Blocks *)
Lemma artemis_deliver_tracks cx b : blk b ∈ L → T cx → T (cx <| storage ::= add_delivered_block b |>).
Proof.
  intros Hb []. split; try done; cbn -[add_delivered_block].
  - by apply add_delivered_block_wf.
  - simpl. by apply map_Forall_insert_2.
  - simpl. by apply map_Forall_insert_2.
  - by apply add_delivered_mono.
Qed.

Lemma index_block_keeps_it b : blk b ∈ L → keeps_it (index_block b).
Proof.
  intros Hb cx Ht. unfold index_block. apply safely_bind, safely_modify, safely_bind, safely_get.
  pose proof (artemis_deliver_tracks cx b Hb Ht) as Ht1. apply safely_if; intros Hlt; [|by apply safely_ret].
  apply safely_bind, safely_modify, safely_ret. apply N.ltb_lt in Hlt. pose proof Ht1 as [].
  split; try done; [exact (add_delivered_self b (storage cx))|].
  intros Hme. specialize (tr_top0 Hme). pose proof (linear_top _ _ _ HL Hb tr_top0).
  simpl in *. lia.
Qed.

Lemma ready_waiting_keeps_it h : keeps_it (ready_waiting_vote h).
Proof.
  apply guards_modify. intros cx []. destruct (vote_waiting cx !! h) as [v|] eqn:E; [|by split].
  pose proof (tr_waiting0 _ _ E). split; try done; simpl.
  - by apply map_Forall_insert_2.
  - by apply map_Forall_delete.
Qed.

Lemma deliver_children_keeps_it fuel h adv : keeps_it (deliver_children fuel h adv).
Proof.
  revert h adv. induction fuel as [|fuel IH]; intros h adv; [by intros cx Ht|]. simpl.
  apply guards_get. intros cx Ht. destruct (block_parent_waiting cx !! h) as [child|]; [|apply guards_ret].
  apply guards_bind; [apply guards_modify; intros cx1 []; by split|intros _].
  apply guards_bind; [|intros adv'; apply guards_bind; [apply ready_waiting_keeps_it|intros _; apply IH]].
  destruct (undelivered_blocks cx !! child) as [b|] eqn:E; [|apply guards_ret].
  apply guards_bind; [|intros _; apply index_block_keeps_it; exact (tr_undelivered _ _ _ _ _ Ht _ _ E)].
  apply guards_modify. intros cx1 []. split; try done. simpl. by apply map_Forall_delete.
Qed.

Lemma announce_height_keeps_it : keeps_it announce_height_to_batcher.
Proof. apply guards_modify. intros cx. by apply artemis_tracks_core. Qed.

(** What `do_delivery` does after it has indexed the block. *)
Definition delivery_rest (h : Hash) (adv : bool) : M Context unit :=
  modify (λ cx, cx <| undelivered_blocks ::= delete h |>);;;
  ready_waiting_vote h;;;
  let! cx := get in
  let! advanced := deliver_children (S (size (block_parent_waiting cx))) h adv in
  if advanced then announce_height_to_batcher else ret tt.

Lemma delivery_rest_keeps_it h adv : keeps_it (delivery_rest h adv).
Proof.
  apply guards_bind; [|intros _; apply guards_bind; [apply ready_waiting_keeps_it|intros _]].
  { apply guards_modify. intros cx []. split; try done. simpl. by apply map_Forall_delete. }
  apply guards_get. intros cx _. apply guards_bind; [apply deliver_children_keeps_it|].
  intros []; [apply announce_height_keeps_it|apply guards_ret].
Qed.

Lemma do_delivery_keeps_it b : blk b ∈ L → keeps_it (do_delivery b).
Proof.
  intros Hb. apply (guards_bind T (index_block b) (delivery_rest (get_hash b)));
    [by apply index_block_keeps_it|apply delivery_rest_keeps_it].
Qed.

Lemma new_block_keeps_it b : blk b ∈ L → keeps_it (on_receive_new_block_direct b).
Proof.
  intros Hb cx Ht. unfold on_receive_new_block_direct. apply safely_bind, safely_get.
  do 3 (apply safely_if; intros _; [by apply safely_ret|]).
  apply safely_bind, (safely_mono _ (λ _ cx', cx' = cx)).
  { apply safely_if; intros _; [by apply safely_ret|]. by apply safely_bind, safely_unwrap. }
  intros bad cx' ->. apply safely_if; intros _; [by apply safely_ret|]. by apply do_delivery_keeps_it.
Qed.

Lemma update_delivery_keeps_it b sender : blk b ∈ L → keeps_it (update_delivery b sender).
Proof.
  intros Hb cx Ht. unfold update_delivery. apply safely_bind, safely_get.
  do 2 (apply safely_if; intros _; [by apply safely_ret|]).
  apply safely_if; intros _; [|by apply do_delivery_keeps_it].
  apply safely_bind, safely_modify, safely_bind, safely_modify. unfold do_request.
  apply safely_bind, safely_get, send_keeps_it; [by apply msg_from_none|].
  destruct Ht. split; try done. simpl. by apply map_Forall_insert_2.
Qed.

Lemma handle_request_keeps_it sender rid h : keeps_it (handle_request sender rid h).
Proof.
  intros cx Ht. unfold handle_request. apply safely_bind, safely_get.
  apply safely_if; intros _; [by apply safely_ret|].
  apply safely_bind, (safely_mono _ (λ b cx', blk b ∈ L ∧ cx' = cx)).
  { apply safely_if; intros _; apply safely_unwrap; try done; intros b Hb; (split; [|done]).
    - exact (tr_index _ _ _ _ _ Ht _ _ Hb).
    - exact (tr_undelivered _ _ _ _ _ Ht _ _ Hb). }
  intros b cx' [Hb ->]. apply safely_bind. eapply safely_mono; [by apply read_batch_keeps_it|].
  intros [batch|] cx' Ht'; [|by apply safely_ret]. apply send_keeps_it; [|done].
  split; [|done]. by intros c [= <-].
Qed.

(** ** Messages *)
Lemma buffer_message_keeps_it m : msg_from L V m → keeps_it (buffer_message m).
Proof.
  intros Hm. pose proof Hm as [Hb Hv]. apply guards_modify. intros cx [].
  destruct m as [b batch|v|from v|v|from rid h|from rid b batch|]; split; try done; simpl;
    apply Forall_app_2; try done; apply Forall_singleton; simpl; eauto.
Qed.

Lemma drain_blocks_keeps_it : keeps_it drain_blocks.
Proof.
  apply guards_get. intros cx Ht. pose proof (tr_blocks _ _ _ _ _ Ht) as Hb.
  destruct (block_processing_waiting cx) as [|[b batch] rest]; [apply guards_ret|].
  apply Forall_cons in Hb as [Hb Hrest]. apply guards_bind; [|intros _; apply guards_bind].
  - apply guards_modify. intros cx1 []. by split.
  - destruct (check_batch_hash b batch); [|apply guards_ret].
    apply guards_bind; [apply persist_keeps_it|intros _; by apply new_block_keeps_it].
  - intros _. apply guards_ret.
Qed.

Lemma drain_responses_keeps_it : keeps_it drain_responses.
Proof.
  apply guards_get. intros cx Ht. pose proof (tr_responses _ _ _ _ _ Ht) as Hb.
  destruct (response_waiting cx) as [|[[sender b] batch] rest]; [apply guards_ret|].
  apply Forall_cons in Hb as [Hb Hrest]. apply guards_bind; [|intros _; apply guards_bind].
  - apply guards_modify. intros cx1 []. by split.
  - destruct (check_batch_hash b batch); [|apply guards_ret].
    apply guards_bind; [apply persist_keeps_it|intros _; by apply update_delivery_keeps_it].
  - intros _. apply guards_ret.
Qed.

Lemma drain_ready_keeps_it : keeps_it drain_ready.
Proof.
  intros cx Ht. unfold drain_ready. apply safely_bind, safely_get.
  destruct (vote_ready cx !! round cx) as [v|] eqn:E; [|by apply safely_ret].
  destruct (tr_ready _ _ _ _ _ Ht _ _ E) as [Hv Hr].
  apply safely_bind, safely_modify, safely_bind.
  eapply safely_mono; [apply round_vote_tracks; [|done|done]|].
  - destruct Ht. split; try done. simpl. by apply map_Forall_delete.
  - by intros [] cx' [? _].
Qed.

Lemma drain_other_keeps_it : keeps_it drain_other.
Proof.
  apply guards_get. intros cx Ht. pose proof (tr_other _ _ _ _ _ Ht) as Hb.
  destruct (other_buf cx) as [|m rest]; [apply guards_ret|].
  apply Forall_cons in Hb as [[Hb Hv] Hrest]. apply guards_bind; [|intros _; apply guards_bind].
  - apply guards_modify. intros cx1 []. by split.
  - destruct m; try (by intros ? ?).
    + apply try_receive_vote_keeps_it. by apply Hv.
    + apply try_receive_vote_keeps_it. by apply Hv.
    + apply handle_request_keeps_it.
  - intros _. apply guards_ret.
Qed.

Lemma process_message_keeps_it : keeps_it process_message.
Proof.
  unfold process_message.
  repeat first [apply guards_get; intros ? _ | apply guards_bind; [|intros _]]; apply guards_loop;
    auto using drain_blocks_keeps_it, drain_responses_keeps_it, drain_ready_keeps_it, drain_other_keeps_it.
Qed.
End node.

(** ** The leaders' turns *)
Section leader.
Context `{Bincode} `{!BincodeLaws} `{!CollisionFree} `{Store} `{NetOracle} `{Clock}.
Implicit Types (cx : Context) (v : UCRVote) (b : Block) (L : list Types.Block) (V : gmap Round UCRVote).
Context (n nf : N) (me : Replica) (room : N).
Hypothesis room_ok : (room ≤ u64_size)%N.
Abbreviation track := (tracks n nf me).

(** The view leader adds a block of its own to the chain. *)
Lemma tracks_grow L V lo cx nb batch (m : BatcherConsensusMsg Transaction) :
  track L V room lo cx →
  (N.of_nat (S (length L + length (pending_batches cx))) ≤ room)%N →
  track (L ++ [blk nb]) V room lo (cx
    <| consensus_net ::= net_broadcast (round cx) (broadcast_peers cx) (NewBlock nb batch) |>
    <| to_batcher ::= λ l, l ++ [m] |> <| storage ::= add_delivered_block nb |>
    <| last_seen_block := nb |>).
Proof.
  intros [] Hroom. assert (blk nb ∈ L ++ [blk nb]) as Hnb by set_solver.
  assert (∀ b : Types.Block, b ∈ L → b ∈ L ++ [blk nb]) as Hsub by set_solver.
  assert (∀ m, msg_from L V m → msg_from (L ++ [blk nb]) V m) as Hmsg.
  { intros m' Hm'. by eapply msg_from_mono. }
  split; try done; cbn -[add_delivered_block]; try (eapply Forall_impl; [eassumption|]; eauto);
    try (eapply map_Forall_impl; [eassumption|]; eauto).
  - by apply add_delivered_block_wf.
  - simpl. apply map_Forall_insert_2; [done|]. eapply map_Forall_impl; [eassumption|]; eauto.
  - simpl. apply map_Forall_insert_2; [done|]. eapply map_Forall_impl; [eassumption|]; eauto.
  - exact (add_delivered_self nb (storage cx)).
  - intros _. by rw last_snoc.
  - intros _. rw length_app /=. lia.
  - intros to m'. rw net_broadcast_sent elem_of_app list_elem_of_fmap.
    intros [?|(to' & [= -> ->] & _)]; [by eapply Hmsg, tr_sent0|]. split; [|done]. by intros c [= <-].
Qed.

(** The rounds that this node led and that have a vote are over. *)
Definition ahead V cx : Prop :=
  ∀ r, is_Some (V !! r) → leader_of n nf r = Some me → (r < round cx)%N.

(** The history has grown by what this node may add: votes of rounds it
    leads and, if it is the view leader, blocks. *)
Record grown L V L' V' : Prop := {
  gr_prefix : L `prefix_of` L';
  gr_linear : linear L';
  gr_other : me ≠ 0%N → L' = L;
  gr_votes : V ⊆ V';
  gr_cast : map_Forall (λ r v, v_round v = r) V';
  gr_new : ∀ r, is_Some (V' !! r) → V !! r = None → leader_of n nf r = Some me;
}.
Definition led L V cx : Prop :=
  ∃ L' V', grown L V L' V' ∧ track L' V' room 1 cx ∧ ahead V' cx.

(** The block the view leader makes is new. *)
Lemma fresh_block L V lo cx b :
  linear L → track L V room lo cx → block_hash (blk b) = compute_hash (blk b) →
  get_height b = N.of_nat (length L) → is_delivered_by_hash (storage cx) (get_hash b) = false.
Proof.
  intros HL Ht Hh Hht. apply not_true_iff_false. intros [c Hc]%is_delivered_spec.
  pose proof (tr_index _ _ _ _ _ _ _ _ Ht _ _ Hc) as Hin.
  assert (blk c = blk b) as E.
  { eapply linear_inj; [done|done|by right|]. exact (wf_hash _ (tr_storage _ _ _ _ _ _ _ _ Ht) _ _ Hc). }
  apply list_elem_of_lookup in Hin as [i Hi]. pose proof (lin_height _ HL _ _ Hi) as Hi'.
  apply lookup_lt_Some in Hi. rw E in Hi'. simpl in Hht. rw Hi' in Hht. lia.
Qed.

Lemma do_new_block_led L V bh batch cx :
  linear L → track L V room 1 cx → me = 0%N →
  (N.of_nat (S (length L + length (pending_batches cx))) ≤ room)%N →
  after (do_new_block bh batch) (λ _ cx', ∃ nb, linear (L ++ [nb]) ∧
    track (L ++ [nb]) V room (round cx) cx') cx.
Proof.
  intros HL Ht Hme Hroom. unfold do_new_block. apply safely_bind, safely_modify, safely_bind, safely_get.
  cbv zeta. apply safely_bind, safely_unwrap; [|done]. intros a Ea. clear Ea.
  match goal with |- context [NewBlock ?x batch] => set (nb := x) end.
  unfold multicast. do 2 apply safely_bind, safely_modify.
  assert (track L V room (round cx) cx) as Ht0 by (destruct Ht; by split).
  pose proof (tr_top _ _ _ _ _ _ _ _ Ht Hme) as Htop.
  assert (get_height (last_seen_block cx) = N.of_nat (pred (length L))) as Hlast.
  { rw last_lookup in Htop. exact (lin_height _ HL _ _ Htop). }
  assert (length L ≠ 0) as Hne by (destruct L; [by destruct HL|done]).
  assert (get_height nb = N.of_nat (length L)) as Hht.
  { change (add64 (get_height (last_seen_block cx)) 1 = N.of_nat (length L)).
    rw Hlast add64_small; lia. }
  assert (linear (L ++ [blk nb])) as HL'.
  { by apply (linear_snoc _ _ (blk (last_seen_block cx))). }
  match goal with |- wpf _ _ _ ?c => set (cx1 := c) end.
  assert (is_delivered_by_hash (storage cx1) (get_hash nb) = false) as Hf
    by (by apply (fresh_block L V (round cx) cx)).
  assert (is_delivered_by_hash (storage cx1) (prev (header (blk nb))) = true) as Hd.
  { apply is_delivered_spec. exact (tr_seen _ _ _ _ _ _ _ _ Ht). }
  pose proof (tr_view_leader _ _ _ _ _ _ _ _ Ht) as Evl. pose proof (tr_id _ _ _ _ _ _ _ _ Ht) as Eid.
  unfold on_receive_new_block_direct. apply safely_bind, safely_get. rw Hf Hd.
  apply safely_if; [done|intros _].
  assert (get_author nb = 0%N ∧ origin (sig nb) = 0%N ∧ view_leader cx1 = 0%N ∧ myid cx1 = 0%N)
    as (-> & -> & -> & ->) by (simpl; by rw Eid Hme).
  apply safely_if; [intros E; discriminate E|intros _].
  apply safely_bind, safely_ret, safely_bind. unfold index_block.
  apply safely_bind, safely_modify, safely_bind, safely_get.
  apply safely_if; intros Hlt.
  2:{ apply N.ltb_ge in Hlt. change (get_height nb ≤ get_height (last_seen_block cx))%N in Hlt.
      rw Hht Hlast in Hlt. lia. }
  apply safely_bind, safely_modify, safely_ret.
  eapply safely_mono; [eapply (delivery_rest_keeps_it n nf me (L ++ [blk nb]) V room (round cx) HL')|].
  - eapply (artemis_tracks_core _ _ _ _ _ _ _ (cx
      <| consensus_net ::= net_broadcast (round cx) (broadcast_peers cx) (NewBlock nb batch) |>
      <| to_batcher ::= λ l, l ++ [Proposed batch 0] |> <| storage ::= add_delivered_block nb |>
      <| last_seen_block := nb |>)); [reflexivity|reflexivity|]. by apply tracks_grow.
  - intros [] cx' Ht'. by exists (blk nb).
Qed.
Lemma leader_step_led L V : guards_pn True (led L V) leader_step.
Proof.
  intros cx (L' & V' & Hg & Ht & Ha). unfold leader_step. apply safely_bind, safely_get.
  destruct (pending_batches cx) as [|[bh batch] rest] eqn:Ep.
  { apply safely_ret. by exists L', V'. }
  apply safely_if; intros Hl; [|apply safely_ret; by exists L', V'].
  apply N.eqb_eq in Hl. rw (tr_view_leader _ _ _ _ _ _ _ _ Ht) (tr_id _ _ _ _ _ _ _ _ Ht) in Hl.
  pose proof (tr_room _ _ _ _ _ _ _ _ Ht (eq_sym Hl)) as Hroom. rw Ep /= in Hroom.
  apply safely_bind, safely_modify, safely_bind.
  eapply safely_mono; [apply (do_new_block_led L' V')|].
  - apply Hg.
  - destruct Ht. split; try done. simpl. intros _. lia.
  - done.
  - simpl. lia.
  - intros [] cx' (nb & HL' & Ht'). apply safely_ret. exists (L' ++ [nb]), V'.
    destruct Hg. split; [split; try done|split].
    + by apply prefix_app_r.
    + destruct Ht'. split; try done.
    + intros r Hs Hr. pose proof (Ha r Hs Hr). pose proof (tr_lo _ _ _ _ _ _ _ _ Ht'). simpl in *. lia.
Qed.

Lemma my_round_leader L V lo cx :
  track L V room lo cx → leader_of n nf (round cx) = Some (round_leader cx).
Proof. intros Ht. unfold leader_of. by rw (tr_leaders _ _ _ _ _ _ _ _ Ht). Qed.

Lemma multicast_vote_tracks L V lo cx v :
  track L V room lo cx → cast V v →
  track L V room lo (cx <| consensus_net ::= net_broadcast (round cx) (broadcast_peers cx) (MUCRVote v) |>).
Proof.
  intros [] Hv. split; try done. intros to m. simpl.
  rw net_broadcast_sent elem_of_app list_elem_of_fmap. intros [?|(to' & [= -> ->] & _)]; [eauto|].
  split; [done|]. by intros v' [= <-].
Qed.

Lemma try_round_vote_led L V : guards_pn True (led L V) try_round_vote.
Proof.
  intros cx (L' & V' & Hg & Ht & Ha). unfold try_round_vote. apply safely_bind, safely_get.
  apply safely_if; intros Hl; [apply safely_ret; by exists L', V'|].
  apply safely_if; intros _; [apply safely_ret; by exists L', V'|].
  apply negb_false_iff, N.eqb_eq in Hl. rw (tr_id _ _ _ _ _ _ _ _ Ht) in Hl.
  unfold do_round_vote. apply safely_bind, safely_modify, safely_bind, safely_get. cbv zeta.
  apply safely_bind, safely_unwrap; [|done]. intros a _.
  match goal with |- context [MUCRVote ?x] => set (v := x) end.
  pose proof (my_round_leader _ _ _ _ Ht) as Hlead. rw -Hl in Hlead.
  assert (V' !! round cx = None) as Hfresh.
  { apply eq_None_not_Some. intros Hs. pose proof (Ha _ Hs Hlead). lia. }
  set (V2 := <[round cx := v]> V'). assert (V' ⊆ V2) as Hsub by by apply insert_subseteq.
  assert (cast V2 v) as Hv by (unfold cast, V2; simpl; by rw lookup_insert_eq).
  unfold multicast. apply safely_bind, safely_modify.
  match goal with |- wpf _ _ _ ?c => set (cx1 := c) end.
  assert (track L' V2 room 1 cx1) as Ht1.
  { apply (artemis_tracks_core _ _ _ _ _ _ _ (cx <| consensus_net ::= net_broadcast (round cx) (broadcast_peers cx)
      (MUCRVote v) |>)); [done|done|]. apply multicast_vote_tracks; [|done].
    by eapply artemis_tracks_mono; [..|exact Ht]. }
  pose proof Hg as [].
  eapply safely_mono; [apply (round_vote_tracks _ _ _ _ _ _ _ cx1 v Ht1 Hv eq_refl)|].
  intros [] cx2 [Ht2 Hup]. exists L', V2. split; [|split; [done|]].
  - split; try done; [by etrans|by apply map_Forall_insert_2|].
    intros r. unfold V2. rw lookup_insert. case_decide as Hd; [by subst r|]. apply gr_new0.
  - assert (track L' V2 room (N.succ (round cx)) cx2) as Ht3 by (apply Hup; [exact (tr_view _ _ _ _ _ _ _ _ Ht)|done]).
    pose proof (tr_lo _ _ _ _ _ _ _ _ Ht3). intros r. unfold V2. rw lookup_insert.
    case_decide as Hd; [lia|]. intros Hs Hr. pose proof (Ha r Hs Hr). lia.
Qed.

Lemma artemis_leader_drain_led L V : guards_pn True (led L V) leader_drain.
Proof.
  apply guards_get. intros cx0 _. apply guards_bind; [|intros _; apply try_round_vote_led].
  apply guards_loop, leader_step_led.
Qed.
End leader.

(** ** The network *)
(** The state of every replica that was started. *)
Abbreviation world := (gmap Replica Context).

Section network.
Context `{Bincode} `{!BincodeLaws} `{!CollisionFree} `{Store} `{NetOracle} `{Clock}.
Implicit Types (cx : Context) (v : UCRVote) (b : Block) (W : world).
Context (n nf : N).

(** What the network may hand to a node: any message that decodes and is no
    blame, as long as its block or vote is one that some node has sent. *)
Definition authentic W (m : ProtocolMsg) : Prop :=
  msg_ok False m ∧
  (∀ b : Types.Block, carries_block m = Some b → ∃ j cx to m', W !! j = Some cx ∧
     (to, m') ∈ sent (consensus_net cx) ∧ carries_block m' = Some b) ∧
  (∀ v, carries_vote m = Some v → ∃ j cx to m', W !! j = Some cx ∧
     (to, m') ∈ sent (consensus_net cx) ∧ carries_vote m' = Some v).
Definition input_authentic W (i : input) : Prop :=
  match i with Turn (EvMsgs msgs) => Forall (authentic W) msgs | _ => True end.
Abbreviation step := (Network.step take_input input_authentic).

Definition config_ok (i : Replica) (config : Node) : Prop :=
  Config.id config = i ∧ Config.num_nodes config = n ∧ Config.num_faults config = nf ∧
  (∀ sk m, decode_secret config = Some sk → is_Some (sk_sign sk m)) ∧
  (∀ r, (r < n)%N → is_Some (pk_map config !! r)).
Definition started W : Prop :=
  (n < u16_size)%N ∧ (1 ≤ nf < n)%N ∧
  ∀ i cx, W !! i = Some cx → ∃ config bs, config_ok i config ∧ reactor_start config bs = Some cx.
(** Reached in fewer than 2^64 turns. *)
Definition reachable W : Prop :=
  ∃ W0 k, started W0 ∧ (N.of_nat k < u64_size)%N ∧ nsteps step k W0 W.

(** ** What holds of every reachable world *)
Record agreed (k : nat) W (L : list Types.Block) (V : gmap Round UCRVote) : Prop := {
  ag_linear : linear L;
  ag_cast : map_Forall (λ r v, v_round v = r) V;
  ag_inv : ∀ i cx, W !! i = Some cx → inv False cx;
  ag_tracks : ∀ i cx, W !! i = Some cx → tracks n nf i L V (N.of_nat (S k)) 1 cx;
  ag_ahead : ∀ i cx, W !! i = Some cx → ahead n nf i V cx;
}.

Lemma artemis_start_tracks i config bs cx :
  config_ok i config → reactor_start config bs = Some cx →
  tracks n nf i [Types.GENESIS_BLOCK] ∅ 1 1 cx.
Proof.
  intros (Hid & Hn & Hf & _) Hs. unfold reactor_start, context_new in Hs.
  destruct (decode_secret config) as [sk|]; [|done].
  destruct (decode_public_keys config _) as [pks|]; [|done].
  cbn -[seq add_delivered_block as_u16 sub64] in Hs. injection Hs as <-.
  split; try done; cbn -[seq add_delivered_block as_u16 sub64].
  - by rw Hn Hf.
  - apply (add_delivered_block_wf GENESIS_BLOCK), storage_new_wf.
  - intros h b [-> ->]%genesis_index. by left.
  - intros h b. simpl. rw lookup_insert lookup_empty. case_decide; [|done]. intros [= <-]. by left.
  - by left.
  - apply genesis_delivered.
  - by intros to m ?%not_elem_of_nil.
Qed.

Lemma artemis_started_agreed W : started W → agreed 0 W [Types.GENESIS_BLOCK] ∅.
Proof.
  intros (Hn & Hf & Hs). split; [apply linear_genesis|done|..].
  - intros i cx Hi. destruct (Hs i cx Hi) as (config & bs & (_ & En & Ef & Hsig & Hpk) & Hst).
    apply (art_start_inv False config bs); [by rw En|by rw En Ef|done|]. right. by rw En.
  - intros i cx Hi. destruct (Hs i cx Hi) as (config & bs & Hok & Hst). by eapply artemis_start_tracks.
  - by intros i cx Hi r [x ?].
Qed.

(** A turn of one node; a batch takes room for one more block. *)
Lemma artemis_turn_led L V room me cx inp :
  (room < u64_size)%N → linear L → map_Forall (λ r v, v_round v = r) V →
  tracks n nf me L V room 1 cx → ahead n nf me V cx →
  (∀ msgs, inp = Turn (EvMsgs msgs) → Forall (msg_from L V) msgs) →
  after (take_input inp) (λ _, led n nf me (N.succ room) L V) cx.
Proof.
  intros Hroom HL HV Ht Ha Hin. set (room' := N.succ room). assert (room' ≤ u64_size)%N as Hr' by lia.
  assert (∀ cx', tracks n nf me L V room' (round cx) cx' → led n nf me room' L V cx') as Hend.
  { intros cx' Ht'. exists L, V. split; [|split].
    - split; try done. intros r [x ?]. congruence.
    - destruct Ht'. by split.
    - intros r Hs Hr. pose proof (Ha r Hs Hr). pose proof (tr_lo _ _ _ _ _ _ _ _ Ht'). lia. }
  assert (tracks n nf me L V room' (round cx) cx) as Ht0.
  { destruct Ht. split; try done. intros Hme. specialize (tr_room0 Hme). lia. }
  assert (∀ cx', tracks n nf me L V room' (round cx) cx' →
    after (leader_drain;;; ret true) (λ _, led n nf me room' L V) cx') as Hlead.
  { intros cx' Ht'. apply safely_bind. eapply safely_mono; [by apply artemis_leader_drain_led, Hend|done]. }
  destruct inp as [ev|h batch].
  2:{ apply safely_bind, safely_modify, safely_ret, Hend. by apply (artemis_tracks_core n nf me L V room' (round cx) cx). }
  apply safely_bind, safely_modify.
  match goal with |- wpf _ _ _ ?c => assert (tracks n nf me L V room' (round cx) c) as Ht1
    by (by apply (artemis_tracks_core n nf me L V room' (round cx) cx)) end.
  destruct ev as [|msgs| | |bh batch|]; try (apply safely_ret; by apply Hend).
  - apply safely_bind, safely_modify, Hlead.
    eapply artemis_tracks_core; [| |exact Ht1]; by destruct (_ =? _)%N.
  - apply safely_bind. eapply safely_mono.
    { apply (guards_for_each (tracks n nf me L V room' (round cx))); [|exact Ht1]. intros m Hm.
      apply buffer_message_keeps_it. specialize (Hin msgs eq_refl). rw Forall_forall in Hin. by apply Hin. }
    intros [] cx1 Hcx1. apply safely_bind. eapply safely_mono.
    { by apply (process_message_keeps_it n nf me L V room' (round cx) HL). }
    intros [] cx2 Hcx2. by apply Hlead.
  - apply safely_bind, safely_modify, safely_bind, safely_modify, Hlead.
    destruct Ht0. split; try done. intros Hme. destruct Ht. specialize (tr_room1 Hme). simpl.
    rw length_app /=. lia.
Qed.

Lemma artemis_agreed_authentic k W L V msgs :
  agreed k W L V → Forall (authentic W) msgs → Forall (msg_from L V) msgs.
Proof.
  intros Ha Hm. eapply Forall_impl; [exact Hm|]. intros m (_ & Hb & Hv). split.
  - intros b Hc. destruct (Hb b Hc) as (j & cx & to & m' & Hj & Hs & Hc').
    by apply (tr_sent _ _ _ _ _ _ _ _ (ag_tracks _ _ _ _ Ha _ _ Hj) _ _ Hs).
  - intros v Hc. destruct (Hv v Hc) as (j & cx & to & m' & Hj & Hs & Hc').
    by apply (tr_sent _ _ _ _ _ _ _ _ (ag_tracks _ _ _ _ Ha _ _ Hj) _ _ Hs).
Qed.

Lemma artemis_turn_agreed k W L V i cx inp :
  (N.of_nat (S k) < u64_size)%N → agreed k W L V → W !! i = Some cx → input_authentic W inp →
  wp (take_input inp) (λ _ cx', ∃ L' V', agreed (S k) (<[i := cx']> W) L' V') cx.
Proof.
  intros Hk Ha Hi Hin. pose proof Ha as [HL HV Hinv Htr Hah].
  assert (∀ msgs, inp = Turn (EvMsgs msgs) → Forall (msg_from L V) msgs) as Hmsgs.
  { intros msgs ->. by eapply artemis_agreed_authentic. }
  eapply wpp_mono.
  - eapply after_and_wp; [apply (artemis_turn_led L V (N.of_nat (S k)) i); eauto|].
    apply (art_take_input_spec False cx inp); [by eapply Hinv|]. destruct inp as [[]|]; try done.
    simpl in *. eapply Forall_impl; [exact Hin|]. by intros m [? _].
  - intros go cx' [(L' & V' & [] & Ht' & Ha') [[Hi' He] _]]. exists L', V'.
    assert (N.succ (N.of_nat (S k)) = N.of_nat (S (S k))) as Er by lia. rw Er in Ht'.
    assert (∀ j cxj, j ≠ i → W !! j = Some cxj → tracks n nf j L' V' (N.of_nat (S (S k))) 1 cxj) as Hoth.
    { intros j cxj Hne Hj. apply (artemis_tracks_mono n nf j L L' V V').
      - intros x Hx. destruct gr_prefix0 as [l ->]. by apply elem_of_app; left.
      - done.
      - intros ->. by apply gr_other0.
      - destruct (Htr _ _ Hj). split; try done. intros Hme. specialize (tr_room0 Hme). lia. }
    split; [done|done|..].
    + intros j cxj [[<- <-]|[? Hj]]%lookup_insert_Some; eauto.
    + intros j cxj [[<- <-]|[? Hj]]%lookup_insert_Some; [done|]. by apply Hoth.
    + intros j cxj [[<- <-]|[Hne Hj]]%lookup_insert_Some; [done|]. intros r Hr Hl.
      destruct (V !! r) as [x|] eqn:E; [by eapply Hah|]. rw (gr_new0 r Hr E) in Hl. congruence.
Qed.

Lemma artemis_reachable_agreed W : reachable W → ∃ k L V, agreed k W L V.
Proof.
  intros (W0 & k & Hs & Hk & Hr). exists k. revert Hk.
  refine (nsteps_inv _ _ (λ k W, (N.of_nat k < u64_size)%N → ∃ L V, agreed k W L V) k W0 W _ _ Hr).
  - intros k' W' i inp cx go cx' IH Hi Hin E Hk. destruct IH as (L & V & HG); [lia|].
    pose proof (artemis_turn_agreed k' W' L V i cx inp Hk HG Hi Hin) as Ht. unfold wpp in Ht. by rw E in Ht.
  - eauto using artemis_started_agreed.
Qed.
(** ** Agreement *)
Lemma artemis_committed_on_chain k W L V i cx h :
  agreed k W L V → W !! i = Some cx → h ∈ committed_blocks_by_hash (storage cx) →
  ∃ b x, all_delivered_blocks_by_hash (storage cx) !! h = Some b ∧ h = get_hash b ∧ L !! x = Some (blk b).
Proof.
  intros Ha Hi Hh. pose proof (ag_tracks _ _ _ _ Ha _ _ Hi) as Ht.
  pose proof (tr_storage _ _ _ _ _ _ _ _ Ht) as Hwf. destruct (wf_committed _ Hwf _ Hh) as [b Hb].
  pose proof (tr_index _ _ _ _ _ _ _ _ Ht _ _ Hb) as [x Hx]%list_elem_of_lookup. exists b, x.
  split; [done|]. split; [symmetry; exact (wf_hash _ Hwf _ _ Hb)|done].
Qed.

(** The committed blocks of a node reach down the whole chain. *)
Lemma artemis_committed_reaches k W L V i cx x y (b c : Types.Block) :
  agreed k W L V → W !! i = Some cx → L !! x = Some b → L !! y = Some c → y ≤ x →
  block_hash b ∈ committed_blocks_by_hash (storage cx) →
  ancestor (storage cx) (block_hash b) (block_hash c).
Proof.
  intros Ha Hi. pose proof (ag_linear _ _ _ _ Ha) as HL. revert b.
  induction x as [|x IH]; intros b Hb Hc Hle Hh.
  { assert (y = 0) as -> by lia. rw Hb in Hc. injection Hc as ->. apply rtc_refl. }
  destruct (decide (y = S x)) as [->|Hne].
  { rw Hb in Hc. injection Hc as ->. apply rtc_refl. }
  pose proof (ag_tracks _ _ _ _ Ha _ _ Hi) as Ht. pose proof (tr_storage _ _ _ _ _ _ _ _ Ht) as Hwf.
  destruct (wf_committed _ Hwf _ Hh) as [b' Hb'].
  assert (blk b' = b) as E.
  { eapply linear_inj; [exact HL|by eapply tr_index| |exact (wf_hash _ Hwf _ _ Hb')].
    right. by eapply lin_hashed. }
  pose proof (io_closed _ (inv_index _ _ (ag_inv _ _ _ _ Ha _ _ Hi)) _ _ Hh Hb') as Hpar.
  destruct (lookup_lt_is_Some_2 L x) as [d Hd]; [apply lookup_lt_Some in Hb; lia|].
  eapply rtc_l; [by exists b'|]. unfold parent_hash, Artemis.Block_HasParent in *. rw E in Hpar |- *.
  rw (lin_parent _ HL _ _ _ Hb Hd) in Hpar |- *. apply (IH d Hd Hc); [lia|done].
Qed.

(** C2.  Agreement.  Start any number of replicas of one cluster
    (`1 <= f < n < 65536`, working keys) and let the network lose, duplicate,
    delay, reorder and redirect their messages, and inject any message whose
    block or vote is one that a replica sent; let any of the replicas stop.
    In every world reached in fewer than 2^64 turns: replicas in the same
    round have the same round leader; two replicas that accepted a vote for
    the same round accepted the same vote; of two blocks committed by two
    replicas one is an ancestor of the other, so one committed chain extends
    the other; and the blocks they report committed at one height are the
    same. *)
Theorem artemis_agreement W i j cxi cxj :
  reachable W → W !! i = Some cxi → W !! j = Some cxj →
  (round cxi = round cxj → round_leader cxi = round_leader cxj) ∧
  (∀ r v w, vote_chain cxi !! r = Some v → vote_chain cxj !! r = Some w → v = w) ∧
  (∀ h h', h ∈ committed_blocks_by_hash (storage cxi) → h' ∈ committed_blocks_by_hash (storage cxj) →
     ancestor (storage cxi) h h' ∨ ancestor (storage cxj) h' h) ∧
  (∀ ht b c, committed_block_from_ht (storage cxi) ht = Some b →
     committed_block_from_ht (storage cxj) ht = Some c → blk b = blk c).
Proof.
  intros (k & L & V & Ha)%artemis_reachable_agreed Hi Hj. pose proof (ag_linear _ _ _ _ Ha) as HL.
  pose proof (ag_tracks _ _ _ _ Ha _ _ Hi) as Hti. pose proof (ag_tracks _ _ _ _ Ha _ _ Hj) as Htj.
  split; [|split; [|split]].
  - intros E. pose proof (tr_leaders _ _ _ _ _ _ _ _ Hti) as E1. rw E in E1.
    rw (tr_leaders _ _ _ _ _ _ _ _ Htj) in E1. congruence.
  - intros r v w Hv Hw. apply (tr_chain _ _ _ _ _ _ _ _ Hti) in Hv.
    apply (tr_chain _ _ _ _ _ _ _ _ Htj) in Hw. congruence.
  - intros h h' Hh Hh'. destruct (artemis_committed_on_chain _ _ _ _ _ _ _ Ha Hi Hh) as (b & x & _ & -> & Hx).
    destruct (artemis_committed_on_chain _ _ _ _ _ _ _ Ha Hj Hh') as (c & y & _ & -> & Hy).
    destruct (decide (y ≤ x)); [left|right]; (eapply artemis_committed_reaches; [done..|lia|done]).
  - intros ht b c. unfold committed_block_from_ht. do 2 (case_bool_decide; [|done]). intros Hb Hc.
    assert (∀ cx d, tracks n nf i L V (N.of_nat (S k)) 1 cx ∨ tracks n nf j L V (N.of_nat (S k)) 1 cx →
      all_delivered_blocks_by_ht (storage cx) !! ht = Some d → L !! N.to_nat ht = Some (blk d)) as Hd.
    { intros cx d Ht Hd. assert (blk d ∈ L ∧ height (header (blk d)) = ht) as [[x Hx]%list_elem_of_lookup E].
      { destruct Ht as [Ht|Ht]; (split; [by eapply (tr_heights _ _ _ _ _ _ _ _ Ht)|]);
          exact (proj1 (wf_ht _ (tr_storage _ _ _ _ _ _ _ _ Ht) _ _ Hd)). }
      rw -E (lin_height _ HL _ _ Hx) Nat2N.id. done. }
    pose proof (Hd cxi b (or_introl Hti) Hb). pose proof (Hd cxj c (or_intror Htj) Hc). congruence.
Qed.
End network.

(** ** Executing the network *)
Section simulate.
Context `{Bincode} `{!BincodeLaws} `{!CollisionFree} `{Store} `{NetOracle} `{Clock}.
Implicit Types W : world.

#[export] Instance UCRVote_eq_dec : EqDecision UCRVote.
Proof. solve_decision. Defined.

(** Some node has sent a message that satisfies [P]. *)
Definition somebody_sent W (P : ProtocolMsg → bool) : bool :=
  existsb (λ kv, existsb (λ x, P x.2) (sent (consensus_net kv.2))) (map_to_list W).
Definition sent_block W (b : Types.Block) : bool :=
  somebody_sent W (λ m, bool_decide (carries_block m = Some b)).
Definition sent_vote W (v : UCRVote) : bool :=
  somebody_sent W (λ m, bool_decide (carries_vote m = Some v)).
Definition authenticb W (m : ProtocolMsg) : bool :=
  match m with
  | NewBlock b _ | Response _ _ b _ => bool_decide (well_hashed (blk b)) && sent_block W (blk b)
  | MUCRVote v | Relay _ v => sent_vote W v
  | Request _ _ _ | Invalid => true
  | Blame _ => false
  end.
Definition input_authenticb W (inp : input) : bool :=
  match inp with Turn (EvMsgs msgs) => forallb (authenticb W) msgs | _ => true end.

Lemma somebody_sent_spec W P :
  somebody_sent W P = true → ∃ j cx to m', W !! j = Some cx ∧
    (to, m') ∈ sent (consensus_net cx) ∧ P m' = true.
Proof.
  unfold somebody_sent. intros ([j cx] & Hj & Hx)%existsb_exists.
  apply existsb_exists in Hx as ([to m'] & Hm & E).
  apply list_elem_of_In, elem_of_map_to_list in Hj. apply list_elem_of_In in Hm. eauto 10.
Qed.
Lemma sent_block_spec W b : sent_block W b = true → ∃ j cx to m', W !! j = Some cx ∧
  (to, m') ∈ sent (consensus_net cx) ∧ carries_block m' = Some b.
Proof.
  intros (j & cx & to & m' & Hj & Hm & E%bool_decide_eq_true)%somebody_sent_spec. eauto 10.
Qed.
Lemma sent_vote_spec W v : sent_vote W v = true → ∃ j cx to m', W !! j = Some cx ∧
  (to, m') ∈ sent (consensus_net cx) ∧ carries_vote m' = Some v.
Proof.
  intros (j & cx & to & m' & Hj & Hm & E%bool_decide_eq_true)%somebody_sent_spec. eauto 10.
Qed.

Lemma artemis_input_authenticb_spec W inp : input_authenticb W inp = true → input_authentic W inp.
Proof.
  assert (∀ m, authenticb W m = true → authentic W m) as Hm.
  { intros [b batch|v|from v|v|from rid h|from rid b batch|]; simpl; try done.
    all: try (intros [Hb Hs]%andb_true_iff; apply bool_decide_eq_true in Hb).
    all: try intros Hs.
    all: split; [done|]; split; [|]; intros x; try done; intros [= <-];
      by (apply sent_block_spec || apply sent_vote_spec). }
  intros Hal. destruct inp as [[]|]; try done. simpl in *.
  apply Forall_forall. intros m Hin. apply Hm. rw forallb_forall in Hal. apply Hal. by apply list_elem_of_In.
Qed.

(** A batch for node [i], or a poll of the network by [i] that finds the
    messages [j] has sent it. *)
Inductive action :=
  | Give (i : Replica) (h : Hash) (batch : CachedBatch Transaction)
  | Poll (i j : Replica).
Definition act W (a : action) : Replica * input :=
  match a with
  | Give i h batch => (i, Turn (EvBatch h batch))
  | Poll i j => (i, Turn (EvMsgs match W !! j with
                                 | Some cx => sent_to i (sent (consensus_net cx))
                                 | None => []
                                 end))
  end.
Definition simulate : list action → world → world := Network.simulate take_input act input_authenticb.

Lemma artemis_simulate_reachable n nf l W :
  started n nf W → (N.of_nat (length l) < u64_size)%N → reachable n nf (simulate l W).
Proof.
  intros Hs Hl. destruct (simulate_steps take_input input_authentic act input_authenticb
    artemis_input_authenticb_spec l W) as (k & Hk & Hn). exists W, k. split; [done|]. split; [lia|done].
Qed.
End simulate.

Module Examples.
Import Toy ToyFormat ConfigExamples ArtemisProofs.Examples.
#[local] Existing Instance ArtemisProofs.Examples.clock.

(** Three replicas; f = 1. *)
Definition cfg_of (i : N) : Node := cfg3 <| Config.id := i |> <| secret_key_bytes := [(10 + i)%N] |>.
Definition boot (i : N) : Context := default genesis_cx (reactor_start (cfg_of i) bs0).
Definition W0 : world := {[ 0%N := boot 0; 1%N := boot 1; 2%N := boot 2 ]}.

Lemma artemis_W0_started : started 3 1 W0.
Proof.
  split; [done|]. split; [done|]. intros i cx Hi.
  assert (∀ i, (i < 3)%N → config_ok 3 1 i (cfg_of i) ∧ reactor_start (cfg_of i) bs0 = Some (boot i)) as Hok.
  { clear. intros i Hi. split.
    - split; [done|]. split; [done|]. split; [done|]. split; [intros; eexists; reflexivity|].
      intros r Hr. assert (r = 0 ∨ r = 1 ∨ r = 2)%N as [->|[->| ->]] by lia;
        eexists; vm_compute; reflexivity.
    - assert (i = 0 ∨ i = 1 ∨ i = 2)%N as [->|[->| ->]] by lia; reflexivity. }
  exists (cfg_of i), bs0. assert ((i < 3)%N ∧ cx = boot i) as [Hlt ->].
  { unfold W0 in Hi. do 2 (apply lookup_insert_Some in Hi as [[<- <-]|[_ Hi]]; [done|]).
    by apply lookup_singleton_Some in Hi as [<- <-]. }
  by apply Hok.
Qed.

(** Two blocks of the view leader; replica 2 first hears of the second. *)
Definition all_poll : list action := [Poll 1 0; Poll 2 0; Poll 0 1; Poll 2 1; Poll 0 2; Poll 1 2].
Definition script : list action :=
  Give 0 (hash (batch 1)) (batch 1) :: Give 0 (hash (batch 2)) (batch 2) ::
  all_poll ++ all_poll ++ Give 0 (hash (batch 3)) (batch 3) :: all_poll ++ all_poll.
Definition W1 : world := simulate script W0.
Definition node (i : N) : Context := default genesis_cx (W1 !! i).

Lemma artemis_W1_nodes : W1 !! 0%N = Some (node 0) ∧ W1 !! 2%N = Some (node 2).
Proof.
  assert (∀ i, bool_decide (is_Some (W1 !! i)) = true → W1 !! i = Some (node i)) as Hn.
  { intros i [cx E]%bool_decide_eq_true. unfold node. by rw E. }
  split; apply Hn; vm_compute; reflexivity.
Qed.

Lemma artemis_W1_committed i :
  bool_decide (is_Some (committed_block_from_ht (storage (node i)) 2)) = true →
  ∃ b, committed_block_from_ht (storage (node i)) 2 = Some b.
Proof. by intros [b Hb]%bool_decide_eq_true; exists b. Qed.

Lemma artemis_agreement_witness :
  ∃ b c, committed_block_from_ht (storage (node 0)) 2 = Some b ∧
         committed_block_from_ht (storage (node 2)) 2 = Some c ∧ blk b = blk c ∧
         round (node 0) = 4%N ∧ round_leader (node 0) = round_leader (node 2).
Proof.
  destruct (artemis_agreement 3 1 W1 0 2 (node 0) (node 2)) as (Hl & _ & _ & Hht).
  - apply artemis_simulate_reachable; [exact artemis_W0_started|vm_compute; reflexivity].
  - apply artemis_W1_nodes.
  - apply artemis_W1_nodes.
  - destruct (artemis_W1_committed 0) as [b Hb]; [vm_compute; reflexivity|].
    destruct (artemis_W1_committed 2) as [c Hc]; [vm_compute; reflexivity|].
    exists b, c. split; [exact Hb|]. split; [exact Hc|]. split; [exact (Hht 2%N b c Hb Hc)|].
    split; [vm_compute; reflexivity|]. apply Hl. vm_compute. reflexivity.
Defined.

(** Why the network must not be allowed to make blocks up: a block that comes
    in a `Response` is indexed without a look at its author or its signature.
    Replica 1, which is not the view leader, sends replica 2 a block of its own
    that nobody signed; it becomes the block replica 2 would vote for. *)
Definition forged : Block :=
  mkBlock (init (Types.with_batch (hash (batch 9)) <| header ::= λ h,
    h <| prev := EMPTY_HASH |> <| author := 1%N |> <| height := 7%N |> |>)) (mkVote 1 []).
Example artemis_unsigned_response :
  sent_block W0 (blk forged) = false ∧
  match react (EvMsgs [Response 1 0 forged (batch 9)]) (boot 2) with
  | Done _ cx => last_seen_block cx = forged
  | _ => False
  end ∧
  match react (EvMsgs [NewBlock forged (batch 9)]) (boot 2) with
  | Done _ cx => last_seen_block cx = GENESIS_BLOCK
  | _ => False
  end.
Proof. vm_compute. repeat split; reflexivity. Qed.
End Examples.
End ArtemisNet.
