(* ===== verification/HSNet.v ===== *)
(** * What the networks of Sync HotStuff and Opt Sync have in common

    The two protocols share the state of [SyncHS.Context], the check of a
    proposal and the leader, replica 0, which signs the blocks it proposes.
    Here: the part of the state that agreement is about and the handlers that
    leave it alone; what `check_proposal` makes sure of; and the network's
    limits, a proposal under the leader's signature being the leader's. *)

From S2P Require Import Prelude Crypto Types Config Storage Batch NodeIO SyncHS Network.

#[local] Existing Instances SyncHS.eta_Context.

Section node.
Context `{Bincode} `{Store} `{NetOracle}
  `{DelayQueue SyncHS.Propose}.
Implicit Types (c : SyncHS.Context) (p : SyncHS.Propose) (b : Block).

Abbreviation index c := (all_delivered_blocks_by_hash (SyncHS.storage c)).
Abbreviation msgs c := (sent (SyncHS.consensus_net c)).

(** What agreement is about: the blocks, and who this is. *)
Definition face c : gmap Hash Block * Block * list (N * SyncHS.ProtocolMsg) *
    (N * Replica * Replica * View * gmap Replica PublicKey) :=
  (index c, SyncHS.last_seen_block c, msgs c,
   (SyncHS.num_nodes c, SyncHS.myid c, SyncHS.last_leader c, SyncHS.view c, SyncHS.pub_key_map c)).

(** A handler that leaves that alone. *)
Definition quiet {A} (m : M SyncHS.Context A) : Prop := ∀ P, keeps (λ c, P (face c)) m.

Lemma quiet_modify f : (∀ c, face (f c) = face c) → quiet (modify f).
Proof. intros Hf P. apply keeps_modify. intros c. by rw Hf. Qed.
Lemma quiet_read h : quiet (SyncHS.read_batch h).
Proof.
  intros P c a c' Hc. unfold SyncHS.read_batch. destruct (batches_read _ _). by intros [= <- <-].
Qed.
#[local] Hint Resolve quiet_read : keeps.
Ltac quiet_leaf := first [apply quiet_read | apply quiet_modify; intros; reflexivity].

Lemma quiet_own_vote why h : quiet (SyncHS.own_vote why h).
Proof. intros P. unfold SyncHS.own_vote. keeps_go quiet_leaf. Qed.
Lemma quiet_push_vote v old : quiet (SyncHS.push_vote v old).
Proof. intros P. unfold SyncHS.push_vote. keeps_go quiet_leaf. Qed.
Lemma quiet_vote_target v p : quiet (SyncHS.vote_target v p).
Proof. intros P. unfold SyncHS.vote_target. keeps_go quiet_leaf. Qed.
Lemma quiet_on_commit p : quiet (SyncHS.on_commit p).
Proof.
  intros P. unfold SyncHS.on_commit, SyncHS.multicast_client. keeps_go quiet_leaf.
  all: apply quiet_modify; intros c; by case_bool_decide.
Qed.

(** ** What `check_proposal` makes sure of *)
Definition verified c p b : Prop :=
  Some (author (header b)) = SyncHS.leader_of_view c ∧
  ∃ pk, SyncHS.pub_key_map c !! author (header b) = Some pk ∧
    pk_verify pk (hash_as_ref (block_hash b)) (SyncHS.proof p) = true.

Lemma check_verified c p b :
  wlp (SyncHS.check_proposal p b) (λ ok c', c' = c ∧ (ok = true → verified c p b)) c.
Proof.
  unfold SyncHS.check_proposal. apply wpp_bind, wpp_get.
  apply wpp_if; intros _; [by apply wpp_ret|].
  apply wpp_bind, wpp_unwrap; [intros l El|done].
  apply wpp_if; intros Ha; [by apply wpp_ret|]. apply negb_false_iff, N.eqb_eq in Ha.
  do 2 (apply wpp_if; intros _; [by apply wpp_ret|]).
  apply wpp_bind, wpp_unwrap; [intros pk Ek|done].
  apply wpp_if; intros Hs; [by apply wpp_ret|]. apply negb_false_iff in Hs.
  apply wpp_if; intros _; [done|].
  assert (∀ ok, wlp (ret ok) (λ ok c', c' = c ∧ (ok = true → verified c p b)) c) as Hr.
  { intros ok. apply wpp_ret. split; [done|]. intros _. split; [by rw Ha|eauto]. }
  apply wpp_if; intros _; [apply Hr|]. repeat case_match; apply Hr.
Qed.

(** ** What a turn does to the blocks *)
Definition ident c : N * Replica * Replica * View * gmap Replica PublicKey :=
  (SyncHS.num_nodes c, SyncHS.myid c, SyncHS.last_leader c, SyncHS.view c, SyncHS.pub_key_map c).

(** [c'] is [c] after it took in the block [b] of somebody else. *)
Record accepted b c c' : Prop := {
  acc_index : index c' = <[block_hash b := b]> (index c);
  acc_ident : ident c' = ident c;
}.

(** Replica [i], in view 0. *)
Definition is_node (i : N) c : Prop :=
  SyncHS.myid c = i ∧ SyncHS.last_leader c = 0%N ∧ SyncHS.view c = 0%N.

Lemma verified_leader i c p b :
  is_node i c → verified c p b → ∃ pk, SyncHS.pub_key_map c !! 0%N = Some pk ∧
    pk_verify pk (hash_as_ref (block_hash b)) (SyncHS.proof p) = true.
Proof.
  intros (_ & _ & Hv) [Ha (pk & Hk & Hs)]. unfold SyncHS.leader_of_view in Ha. rw Hv in Ha.
  destruct (_ =? 0)%N; [done|]. injection Ha as Ha. rw N.Div0.mod_0_l in Ha.
  rw Ha in Hk. eauto.
Qed.

End node.
Ltac quiet_leaf := first [apply quiet_read | apply quiet_modify; intros; reflexivity].

(** ** The limits of the network *)
Section network.
Context `{Bincode} `{Store} `{NetOracle} `{DelayQueue SyncHS.Propose}.
Context {St : Type} (part : St → SyncHS.Context).
Implicit Types (W : gmap N St) (p : SyncHS.Propose) (b : Block).

(** The leader is one of the replicas and has sent a proposal for [h]. *)
Definition leader_sent W (h : Hash) : Prop :=
  ∃ L to p b batch, W !! 0%N = Some L ∧
    (to, SyncHS.NewProposal p b batch) ∈ sent (SyncHS.consensus_net (part L)) ∧ block_hash b = h.

(** A proposal off the wire has a block with its own hash, and if the
    leader's key, as some replica has it, verifies its signature, the leader
    proposed that block. *)
Definition authentic W p b : Prop :=
  well_hashed b ∧
  ∀ i cx pk, W !! i = Some cx → SyncHS.pub_key_map (part cx) !! 0%N = Some pk →
    pk_verify pk (hash_as_ref (block_hash b)) (SyncHS.proof p) = true →
    leader_sent W (block_hash b).
Definition input_authentic W (i : SyncHS.input) : Prop :=
  match i with
  | SyncHS.Turn _ (SyncHS.EvMsg (SyncHS.NewProposal p b _)) => authentic W p b
  | _ => True
  end.
(** The blocks of the leader. *)
Definition lead_index W : gmap Hash Block :=
  match W !! 0%N with
  | Some L => all_delivered_blocks_by_hash (SyncHS.storage (part L))
  | None => {[ EMPTY_HASH := GENESIS_BLOCK ]}
  end.

(** The same, decided: enough to run a network. *)
Definition leader_sentb W (h : Hash) : bool :=
  match W !! 0%N with
  | Some L => existsb (λ x, match x.2 with
                            | SyncHS.NewProposal _ b _ => bool_decide (block_hash b = h)
                            | _ => false
                            end) (sent (SyncHS.consensus_net (part L)))
  | None => false
  end.
Definition input_authenticb W (i : SyncHS.input) : bool :=
  match i with
  | SyncHS.Turn _ (SyncHS.EvMsg (SyncHS.NewProposal _ b _)) =>
      bool_decide (well_hashed b) && leader_sentb W (block_hash b)
  | _ => true
  end.

Lemma hs_input_authenticb_spec W inp : input_authenticb W inp = true → input_authentic W inp.
Proof.
  destruct inp as [t [[p b batch| | | | | |]| | | | | |]|]; try done. simpl.
  intros [Hb Hs]%andb_true_iff. apply bool_decide_eq_true in Hb. split; [done|]. intros _ _ _ _ _ _.
  unfold leader_sentb in Hs. destruct (W !! 0%N) as [L|] eqn:HL; [|done].
  apply existsb_exists in Hs as ([to m] & Hin & Hm). apply list_elem_of_In in Hin. simpl in Hm.
  destruct m as [q b' batch'| | | | | |]; try done. apply bool_decide_eq_true in Hm.
  exists L, to, q, b', batch'. by split.
Qed.
End network.
