(* ===== verification/SyncHSNet.v ===== *)
(** * Sync HotStuff on an unreliable network

    Any number of replicas and an honest leader, under the limits of HSNet.v.
    What a replica delivers is what the leader proposed; and since the leader
    proposes only first blocks, the cluster never gets past height 1. *)

From S2P Require Import Prelude Crypto Types Config Storage Batch NodeIO SyncHS SyncHSProofs Network HSNet.

Module SyncHSNet.
Import SyncHS.
#[local] Existing Instances eta_Context.

Section node.
Context `{Bincode} `{!BincodeLaws} `{!CollisionFree} `{Store} `{NetOracle} `{DelayQueue Propose}.
Implicit Types (c : Context) (p : Propose) (b : Block).

Abbreviation index c := (all_delivered_blocks_by_hash (storage c)).
Abbreviation msgs c := (sent (consensus_net c)).

(** ** What a turn does to the blocks *)
Record offered b c c' : Prop := {
  of_index : index c' = <[block_hash b := b]> (index c);
  of_last : last_seen_block c' = last_seen_block c;
  of_ident : ident c' = ident c;
  of_msgs : ∃ l, msgs c' = msgs c ++ l ∧
    ∀ to p b' batch, (to, NewProposal p b' batch) ∈ l → b' = b;
}.

Lemma syn_receive_after c p b batch :
  after (on_receive_proposal p b batch) (λ _ c',
    face c' = face c ∨
    index c !! block_hash b = None ∧ verified c p b ∧ accepted b c c') c.
Proof.
  apply safely_wp. unfold on_receive_proposal. apply wpp_bind, wpp_get.
  apply wpp_if; intros Hd; [apply wpp_ret; by left|].
  apply wpp_bind. eapply wpp_mono; [apply check_verified|]. intros ok c' [-> Hv].
  apply wpp_if; intros Hok; [apply wpp_ret; by left|].
  apply negb_false_iff in Hok. apply wpp_if; intros _; [apply wpp_ret; by left|].
  apply wpp_bind, wpp_modify. unfold on_new_valid_proposal. apply wpp_bind, wpp_get.
  apply wpp_if; intros _; [apply wpp_ret; by left|].
  unfold own_vote. wpp_go. apply wpp_unwrap; [intros sg _|done]. unfold multicast. wpp_go. right.
  split; [|split; [by apply Hv|done]].
  destruct (index c !! block_hash b) eqn:E; [|done].
  assert (is_delivered_by_hash (storage c) (block_hash b) = true); [|congruence].
  apply is_delivered_spec. eauto.
Qed.

Lemma syn_propose_after c bh batch :
  after (do_propose bh batch) (λ _ c', offered (block_on (last_seen_block c) bh (myid c)) c c') c.
Proof.
  apply safely_wp. unfold do_propose. apply wpp_bind, wpp_get. cbv zeta.
  apply wpp_bind, wpp_unwrap; [intros pr _|done].
  unfold own_vote. wpp_go. apply wpp_unwrap; [intros sg _|done]. wpp_go.
  apply wpp_unwrap; [intros v _|done]. unfold multicast. wpp_go. split; try done.
  eexists. split; [apply net_broadcast_sent|]. intros to q b' batch' Hin.
  apply list_elem_of_fmap in Hin as (? & ? & _). naive_solver.
Qed.

Lemma quiet_on_vote v p : quiet (on_vote v p).
Proof.
  intros P. unfold on_vote. apply keeps_bind; [apply quiet_vote_target|].
  intros [h|]; [|apply keeps_ret]. unfold add_vote, push_vote. keeps_go quiet_leaf.
Qed.
Lemma quiet_queue p d2 : quiet (queue_commit p d2).
Proof. by apply quiet_modify. Qed.

(** A property of the face that proposals and acceptances keep is kept by
    every turn. *)
Lemma syn_turn_keeps (J : Context → Prop) d2 inp cx go cx' :
  (∀ c c', face c = face c' → J c → J c') →
  (∀ c bh c', J c → last_leader c = myid c →
     offered (block_on (last_seen_block c) bh (myid c)) c c' → J c') →
  (∀ t p b batch c c', inp = Turn t (EvMsg (NewProposal p b batch)) →
     J c → index c !! block_hash b = None → verified c p b → accepted b c c' → J c') →
  J cx → take_input d2 inp cx = Done go cx' → J cx'.
Proof.
  intros HJ Hpro Hacc.
  assert (∀ A (m : M Context A), quiet m → keeps J m) as Hq.
  { intros A m Hm c a c' Hc E. apply (HJ c); [|done]. symmetry.
    by apply (Hm (λ f, f = face c) c a c'). }
  assert (keeps J (leader_drain d2)) as Hdrain.
  { apply keeps_bind; [apply keeps_get|]. intros c0. apply keeps_loop.
    intros c a c' Hc. unfold leader_step, bind at 1, get.
    destruct (pending_batches c) as [|[bh batch] rest]; [by intros [= <- <-]|].
    destruct (_ && _) eqn:El; [|by intros [= <- <-]].
    apply andb_true_iff in El as [El%N.eqb_eq _]. unfold next_leader in El.
    unfold bind at 1, modify. set (c1 := c <| pending_batches := rest |>).
    pose proof (syn_propose_after c1 bh batch) as Hp. unfold wpf in Hp. unfold bind at 1.
    destruct (do_propose bh batch c1) as [o c2| |]; [|done..]. intros E.
    assert (J c1) as Hc1 by by apply (HJ c).
    assert (J c2) as Hc2 by by apply (Hpro c1 bh).
    revert E. apply (keeps_bind J); [|intros _; apply keeps_ret|done].
    destruct o as [[q nb]|]; [apply Hq, quiet_queue|apply keeps_ret]. }
  revert cx go cx'. change (keeps J (take_input d2 inp)).
  destruct inp as [t ev|h batch]; unfold take_input.
  - apply keeps_bind; [by apply Hq, quiet_modify|]. intros _.
    destruct ev as [msg| | |bh batch| | |]; unfold react; try apply keeps_ret.
    + apply keeps_bind; [|intros _; apply keeps_bind; [done|intros _; apply keeps_ret]].
      destruct msg as [p b batch|v p|b1 b2 v|v|v w|v w|v]; try apply keeps_ret.
      * apply keeps_bind; [|intros []; [apply Hq, quiet_queue|apply keeps_ret]].
        intros c a c' Hc E. pose proof (syn_receive_after c p b batch) as Hr.
        unfold wpf in Hr. rw E in Hr. destruct Hr as [Hf|(? & ? & ?)]; [by apply (HJ c)|].
        by eapply (Hacc t p b batch c).
      * apply keeps_bind; [apply Hq, quiet_on_vote|]. intros _. apply keeps_ret.
    + apply keeps_bind; [by apply Hq, quiet_modify|]. intros _.
      apply keeps_bind; [done|intros _; apply keeps_ret].
    + apply keeps_bind; [apply keeps_get|]. intros c0.
      destruct (dq_poll _ _) as [[p q]|]; [|apply keeps_ret].
      apply keeps_bind; [by apply Hq, quiet_modify|]. intros _.
      apply keeps_bind; [apply Hq, quiet_on_commit|]. intros _.
      apply keeps_bind; [done|intros _; apply keeps_ret].
  - apply keeps_bind; [by apply Hq, quiet_modify|]. intros _. apply keeps_ret.
Qed.

(** ** The leader's blocks *)
Definition first_block b : Prop :=
  Types.height (header b) = 1%N ∧ prev (header b) = EMPTY_HASH ∧ author (header b) = 0%N ∧
  block_hash b = compute_hash b.
Record holds c : Prop := {
  ho_last : last_seen_block c = GENESIS_BLOCK;
  ho_blocks h b : index c !! h = Some b →
    block_hash b = h ∧ (b = GENESIS_BLOCK ∨ first_block b);
  ho_sent to p b batch : (to, NewProposal p b batch) ∈ msgs c → index c !! block_hash b = Some b;
}.

Lemma holds_face c c' : face c = face c' → holds c → holds c'.
Proof.
  intros E [F1 F2 F3].
  assert (index c = index c' ∧ last_seen_block c = last_seen_block c' ∧ msgs c = msgs c')
    as (E1 & E2 & E3) by (by injection E).
  split; [by rw -E2|rw -E1; done|rw -E1 -E3; done].
Qed.
Lemma holds_hashed c h b : holds c → index c !! h = Some b → well_hashed b.
Proof. intros Hh Hb. destruct (ho_blocks _ Hh _ _ Hb) as [_ [->|(_ & _ & _ & ?)]]; [by left|by right]. Qed.

Lemma holds_offered c bh c' :
  is_node 0 c → holds c → offered (block_on (last_seen_block c) bh (myid c)) c c' →
  holds c' ∧ index c ⊆ index c'.
Proof.
  intros (Hme & _) Hh [Hi Hla _ (l & Hm & Hml)]. rw (ho_last _ Hh) Hme in Hi, Hml.
  set (nb := block_on GENESIS_BLOCK bh 0) in *.
  assert (first_block nb) as Hnb by done.
  assert (index c ⊆ index c') as Hsub.
  { rw Hi. apply map_subseteq_spec. intros h b Hb. rw lookup_insert. case_decide as E; [|done].
    f_equal. apply well_hashed_inj; [by right|by eapply holds_hashed|]. rw E. symmetry.
    by eapply ho_blocks. }
  split; [|done]. split.
  - rw Hla. by apply ho_last.
  - intros h b. rw Hi lookup_insert. case_decide; [intros [= <-]; auto|by apply ho_blocks].
  - intros to p b batch. rw Hm elem_of_app. intros [Hin|Hin].
    + eapply lookup_weaken; [by eapply ho_sent|done].
    + apply Hml in Hin as ->. by rw Hi lookup_insert_eq.
Qed.
End node.

(** ** The network *)
Abbreviation world := (gmap N Context).

Section network.
Context `{Bincode} `{!BincodeLaws} `{!CollisionFree} `{Store} `{NetOracle}
  `{DelayQueue Propose} `{!DelayQueueLaws Propose}.
(** 2Δ, as each replica has it. *)
Context (d2 : Replica → N).
Implicit Types (W : world) (c : Context) (p : Propose) (b : Block).

Abbreviation index c := (all_delivered_blocks_by_hash (storage c)).
Abbreviation self := (λ c : Context, c).
Definition turn (i : input) : M Context bool := λ c, take_input (d2 (myid c)) i c.
Abbreviation step := (Network.step turn (input_authentic self)).

Definition started W : Prop :=
  ∀ i c, W !! i = Some c → ∃ config bs t, context_new config bs t = Some c ∧ Config.id config = i.
Definition reachable W : Prop := ∃ W0 k, started W0 ∧ nsteps step k W0 W.

Record follows_leader W : Prop := {
  fl_inv i c : W !! i = Some c → SyncHSProofs.inv True c;
  fl_node i c : W !! i = Some c → is_node i c;
  fl_sub i c : W !! i = Some c → index c ⊆ lead_index self W;
  fl_holds L : W !! 0%N = Some L → holds L;
}.

Lemma syn_started_follows W : started W → follows_leader W.
Proof.
  intros Hs.
  assert (∀ i c, W !! i = Some c → SyncHSProofs.inv True c ∧ is_node i c ∧
    index c = {[ EMPTY_HASH := GENESIS_BLOCK ]} ∧ last_seen_block c = GENESIS_BLOCK ∧
    sent (consensus_net c) = []) as Hall.
  { intros i c Hi. destruct (Hs _ _ Hi) as (config & bs & t & E & Hid).
    split; [by eapply SyncHSProofs.syn_start_inv; [|left]|].
    unfold context_new in E. destruct (decode_secret config); [|done].
    destruct (decode_public_keys config _); [|done]. by injection E as <-. }
  split.
  - intros i c Hi. by apply (Hall i c).
  - intros i c Hi. by apply (Hall i c).
  - intros i c Hi. destruct (Hall _ _ Hi) as (_ & _ & -> & _). unfold lead_index.
    destruct (W !! 0%N) as [L|] eqn:EL; [|done]. by destruct (Hall _ _ EL) as (_ & _ & -> & _).
  - intros L EL. destruct (Hall _ _ EL) as (_ & _ & E1 & E2 & E3).
    split; rw ?E1 ?E2 ?E3; [done| |].
    + intros h b. rw lookup_singleton. case_decide; [|done]. intros [= <-]. subst. auto.
    + intros to p b batch Hin. by apply not_elem_of_nil in Hin.
Qed.

(** The leader has every block that somebody can show its signature on. *)
Lemma syn_leader_turn W L inp go L' :
  follows_leader W → W !! 0%N = Some L → input_authentic self W inp → turn inp L = Done go L' →
  is_node 0 L' ∧ holds L' ∧ index L ⊆ index L'.
Proof.
  intros Ha HL Hin E.
  enough (is_node 0 L' ∧ holds L' ∧ pub_key_map L' = pub_key_map L ∧ index L ⊆ index L')
    as (? & ? & _ & ?) by done.
  apply (syn_turn_keeps (λ c, is_node 0 c ∧ holds c ∧ pub_key_map c = pub_key_map L ∧
    index L ⊆ index c) (d2 (myid L)) inp L go L'); [..|exact E].
  - intros c c' Ef (Hn & Hl & Hk & Hs). split; [|split; [by eapply holds_face|]].
    + unfold is_node in *. injection Ef as _ _ _ _ <- <- <- _. done.
    + injection Ef as <- _ _ _ _ _ _ <-. done.
  - intros c bh c' (Hn & Hl & Hk & Hs) _ Hp. destruct (holds_offered _ _ _ Hn Hl Hp) as [Hl' Hs'].
    destruct Hp as [_ _ Hid _]. split; [unfold is_node in *; by injection Hid as _ -> -> -> _|].
    split; [done|]. split; [by injection Hid as _ _ _ _ ->|by etrans].
  - intros t p b batch c c' -> (Hn & Hl & Hk & Hs) Hnone Hv _. exfalso.
    destruct (verified_leader _ _ _ _ Hn Hv) as (pk & Hpk & Hsig). rw Hk in Hpk.
    destruct Hin as [_ Hau].
    destruct (Hau _ _ _ HL Hpk Hsig) as (L1 & to & q & b' & batch' & E1 & Hm & Eh).
    rw HL in E1. injection E1 as <-. apply (ho_sent _ (fl_holds _ Ha _ HL)) in Hm.
    rw Eh in Hm. eapply lookup_weaken in Hm; [|exact Hs]. congruence.
  - split; [by apply (fl_node _ Ha)|]. split; [by apply (fl_holds _ Ha)|done].
Qed.

Lemma syn_follower_turn W i cx inp go cx' :
  follows_leader W → i ≠ 0%N → W !! i = Some cx → input_authentic self W inp →
  turn inp cx = Done go cx' → is_node i cx' ∧ index cx' ⊆ lead_index self W.
Proof.
  intros Ha Hne Hi Hin E.
  enough (is_node i cx' ∧ pub_key_map cx' = pub_key_map cx ∧ index cx' ⊆ lead_index self W)
    as (? & _ & ?) by done.
  apply (syn_turn_keeps (λ c, is_node i c ∧ pub_key_map c = pub_key_map cx ∧
    index c ⊆ lead_index self W) (d2 (myid cx)) inp cx go cx'); [..|exact E].
  - intros c c' Ef (Hn & Hk & Hs). unfold is_node in *. by injection Ef as <- _ _ _ <- <- <- <-.
  - intros c bh c' ((Hid & Hl & _) & _) Hme _. congruence.
  - intros t p b batch c c' -> (Hn & Hk & Hs) _ Hv [Hidx Hid].
    destruct (verified_leader _ _ _ _ Hn Hv) as (pk & Hpk & Hsig). rw Hk in Hpk.
    destruct Hin as [Hwh Hau].
    destruct (Hau _ _ _ Hi Hpk Hsig) as (L & to & q & b' & batch' & HL & Hm & Eh).
    pose proof (fl_holds _ Ha _ HL) as HLd. apply (ho_sent _ HLd) in Hm.
    assert (b' = b) as -> by (apply well_hashed_inj; [by eapply holds_hashed|done|done]).
    split; [unfold is_node in *; by injection Hid as _ -> -> -> _|].
    split; [by injection Hid as _ _ _ _ ->|]. rw Hidx.
    apply insert_subseteq_l; [|done]. unfold lead_index. by rw HL.
  - split; [by apply (fl_node _ Ha)|]. split; [done|by eapply (fl_sub _ Ha)].
Qed.

Lemma syn_step_follows W i cx inp go cx' :
  follows_leader W → W !! i = Some cx → input_authentic self W inp → turn inp cx = Done go cx' →
  follows_leader (<[i := cx']> W).
Proof.
  intros Ha Hi Hin E.
  assert (SyncHSProofs.inv True cx') as Hinv.
  { assert (SyncHSProofs.input_ok True (view cx) inp) as Hok by (destruct inp; simpl; auto).
    by apply (wlp_done _ _ _ _ _ (SyncHSProofs.syn_take_input_spec True (d2 (myid cx)) cx inp
      (fl_inv _ Ha _ _ Hi) Hok) E). }
  assert (is_node i cx' ∧ lead_index self W ⊆ lead_index self (<[i := cx']> W) ∧
    index cx' ⊆ lead_index self (<[i := cx']> W) ∧ (i = 0%N → holds cx')) as (Hn & Hg & Hs & Hl).
  { destruct (decide (i = 0%N)) as [->|Hne].
    - destruct (syn_leader_turn _ _ _ _ _ Ha Hi Hin E) as (? & ? & ?).
      unfold lead_index. rw Hi lookup_insert_eq. done.
    - destruct (syn_follower_turn _ _ _ _ _ _ Ha Hne Hi Hin E) as [? ?].
      assert (lead_index self (<[i := cx']> W) = lead_index self W) as ->
        by (unfold lead_index; by rw lookup_insert_ne). done. }
  split.
  - intros j c. rw lookup_insert. case_decide; [by intros [= <-]|apply (fl_inv _ Ha)].
  - intros j c. rw lookup_insert. case_decide; [subst; by intros [= <-]|apply (fl_node _ Ha)].
  - intros j c. rw lookup_insert. case_decide; [by intros [= <-]|].
    intros Hj. etrans; [by eapply (fl_sub _ Ha)|done].
  - intros L. rw lookup_insert. case_decide; [subst; intros [= <-]; by apply Hl|apply (fl_holds _ Ha)].
Qed.

Lemma syn_reachable_follows W : reachable W → follows_leader W.
Proof.
  intros (W0 & k & Hs & Hk).
  apply (Network.nsteps_inv turn (input_authentic self) (λ _, follows_leader) k W0 W); [..|exact Hk].
  - intros _ W1 i inp cx go cx' Ha Hi Hin E. by eapply syn_step_follows.
  - by apply syn_started_follows.
Qed.

(** C14.  A Sync HotStuff cluster with an honest leader never gets past its
    first height.  Start any number of replicas and let the network do
    anything but put the leader's signature on a block it did not propose:
    whatever a replica delivers or commits, other than the genesis block, is
    a block of height 1 on the genesis block that the leader proposed, and
    the leader has it in its own index. *)
Theorem synchs_cluster_stuck W L i cx h :
  reachable W → W !! 0%N = Some L → W !! i = Some cx →
  (h ∈ committed_blocks_by_hash (storage cx) → is_Some (index cx !! h)) ∧
  (∀ b, index cx !! h = Some b → b = GENESIS_BLOCK ∨
     first_block b ∧ index L !! h = Some b).
Proof.
  intros Ha%syn_reachable_follows HL Hi. split.
  - apply (wf_committed _ (SyncHSProofs.io_storage _ (SyncHSProofs.inv_index _ _
      (fl_inv _ Ha _ _ Hi)))).
  - intros b Hb. eapply lookup_weaken in Hb; [|by eapply (fl_sub _ Ha)].
    unfold lead_index in Hb. rw HL in Hb.
    destruct (ho_blocks _ (fl_holds _ Ha _ HL) _ _ Hb) as [_ [?|?]]; [by left|by right].
Qed.
End network.

(** ** Executing the network *)
Section simulate.
Context `{Bincode} `{Store} `{NetOracle} `{DelayQueue Propose}.
Context (d2 : Replica → N).
Implicit Types W : world.

Inductive action :=
  | Give (i : Replica) (t : N) (h : Hash) (batch : CachedBatch Transaction)
  | Deliver (i j : Replica) (k : nat) (t : N)
  | Timer (i : Replica) (t : N).
Definition act W (a : action) : Replica * input :=
  match a with
  | Give i t h batch => (i, Turn t (EvBatch h batch))
  | Deliver i j k t =>
      (i, Turn t match W !! j ≫= λ c, sent (consensus_net c) !! k with
                 | Some (_, m) => EvMsg m
                 | None => EvUndecodable
                 end)
  | Timer i t => (i, Turn t EvTimer)
  end.
Definition simulate : list action → world → world :=
  Network.simulate (turn d2) act (input_authenticb (λ c : Context, c)).

Lemma syn_simulate_reachable l W : started W → reachable d2 (simulate l W).
Proof.
  intros Hs. destruct (simulate_steps (turn d2) (input_authentic (λ c : Context, c)) act
    (input_authenticb (λ c : Context, c)) (hs_input_authenticb_spec (λ c : Context, c)) l W)
    as (k & _ & Hk). by exists W, k.
Qed.
End simulate.

Module Examples.
Import Toy ToyFormat ToyQueue ConfigExamples.
Import SyncHSProofs.Examples (bs0, blank, batch).

Definition cfg_of (i : N) : Node := cfg3 <| Config.id := i |> <| secret_key_bytes := [(10 + i)%N] |>.
Definition boot (i : N) : Context := default blank (context_new (cfg_of i) bs0 0).
Definition W0 : world := {[ 0%N := boot 0; 1%N := boot 1; 2%N := boot 2 ]}.
Definition delta2 (_ : Replica) : N := 100.

Lemma syn_W0_started : started W0.
Proof.
  intros i cx Hi. exists (cfg_of i), bs0, 0%N. split; [|done]. unfold W0 in Hi.
  do 2 (apply lookup_insert_Some in Hi as [[<- <-]|[_ Hi]]; [reflexivity|]).
  apply lookup_singleton_Some in Hi as [<- <-]. reflexivity.
Qed.

(** The leader gets three batches and the votes for its first block; the
    followers get all its proposals and wait. *)
Definition script : list action :=
  [Give 0 0 (hash (batch 1)) (batch 1); Deliver 1 0 0 1; Deliver 0 1 0 2; Deliver 2 0 0 3;
   Deliver 0 2 0 4; Give 0 5 (hash (batch 2)) (batch 2); Give 0 6 (hash (batch 3)) (batch 3);
   Deliver 1 0 2 7; Deliver 1 0 4 8; Timer 1 1000; Timer 1 1000; Timer 1 1000].
Definition W1 : world := simulate delta2 script W0.
Definition node (i : N) : Context := default blank (W1 !! i).

Lemma syn_W1_nodes i : bool_decide (is_Some (W1 !! i)) = true → W1 !! i = Some (node i).
Proof. intros [cx E]%bool_decide_eq_true. unfold node. by rw E. Qed.

(** Replica 1 commits three blocks, all of height 1. *)
Lemma synchs_cluster_stuck_witness :
  size (committed_blocks_by_hash (storage (node 1))) = 4 ∧
  (last_seen_block (node 1) = GENESIS_BLOCK ∨ first_block (last_seen_block (node 1)) ∧
   all_delivered_blocks_by_hash (storage (node 0)) !! block_hash (last_seen_block (node 1)) =
     Some (last_seen_block (node 1))).
Proof.
  split; [vm_compute; reflexivity|].
  destruct (synchs_cluster_stuck delta2 W1 (node 0) 1 (node 1) (block_hash (last_seen_block (node 1))))
    as [_ Hb].
  - apply syn_simulate_reachable, syn_W0_started.
  - apply syn_W1_nodes. vm_compute. reflexivity.
  - apply syn_W1_nodes. vm_compute. reflexivity.
  - apply Hb. vm_compute. reflexivity.
Defined.
End Examples.
End SyncHSNet.
