(* ===== verification/OptSyncNet.v ===== *)
(** * Opt Sync on an unreliable network

    Any number of replicas, one of which is the leader (replica 0: the view
    never changes).  The network may do anything but forge the leader's
    signature on a block; votes may be forged, repeated and reordered.  The
    leader proposes one chain, a block per height, and what a replica
    delivers is on it. *)

From S2P Require Import Prelude Crypto Types Config Storage Batch NodeIO SyncHS OptSync SyncHSProofs OptSyncProofs Network HSNet.

Module OptSyncNet.
Import OptSync.
#[local] Existing Instances SyncHS.eta_Context eta_Context.

Section node.
Context `{Bincode} `{!BincodeLaws} `{!CollisionFree} `{Store} `{NetOracle}
  `{DelayQueue SyncHS.Propose}.
Implicit Types (cx : Context) (c : SyncHS.Context) (p : SyncHS.Propose) (b : Block).

Abbreviation index c := (all_delivered_blocks_by_hash (SyncHS.storage c)).
Abbreviation msgs c := (sent (SyncHS.consensus_net c)).

(** The same of a whole node. *)
Definition calm {A} (m : M Context A) : Prop := ∀ P, keeps (λ cx, P (face (base cx))) m.
Lemma calm_common {A} (m : M SyncHS.Context A) : quiet m → calm (common m).
Proof.
  intros Hm P cx a cx' Hcx. unfold common, zoom. specialize (Hm P (base cx)).
  destruct (m (base cx)) as [a' c'| |]; [|done..]. intros [= <- <-]. by eapply Hm.
Qed.
Lemma calm_resp f : calm (modify (λ cx, cx <| resp_cert ::= f |>)).
Proof. intros P. by apply keeps_modify. Qed.
Ltac calm_leaf :=
  first [ apply calm_resp
        | apply calm_common;
          first [apply quiet_read|apply quiet_own_vote|apply quiet_push_vote|apply quiet_vote_target
                |apply quiet_on_commit|apply quiet_modify; intros; reflexivity|intros ?; keeps_go quiet_leaf] ].

Lemma calm_persist h batch : calm (persist_batch h batch).
Proof. intros P. unfold persist_batch, SyncHS.persist_batch. keeps_go calm_leaf. Qed.
Lemma calm_queue p : calm (queue_commit p).
Proof. intros P. unfold queue_commit, SyncHS.queue_commit. keeps_go calm_leaf. Qed.
Lemma calm_on_commit p : calm (on_commit p).
Proof. intros P. unfold on_commit. keeps_go calm_leaf. Qed.
Lemma calm_on_vote v p : calm (on_vote v p).
Proof. intros P. unfold on_vote, add_vote. keeps_go calm_leaf. Qed.

(** ** What a turn does to the blocks *)
(** [c'] is [c] after it proposed [b]. *)
Record proposed b c c' : Prop := {
  pro_index : index c' = <[block_hash b := b]> (index c);
  pro_last : SyncHS.last_seen_block c' = b;
  pro_ident : ident c' = ident c;
  pro_msgs : ∃ l, msgs c' = msgs c ++ l ∧
    ∀ to p b' batch, (to, SyncHS.NewProposal p b' batch) ∈ l → b' = b;
}.

Lemma receive_after cx p b batch :
  after (on_receive_proposal p b batch) (λ _ cx',
    face (base cx') = face (base cx) ∨
    index (base cx) !! block_hash b = None ∧ verified (base cx) p b ∧
      accepted b (base cx) (base cx')) cx.
Proof.
  apply safely_wp. unfold on_receive_proposal. apply wpp_bind, wpp_get.
  apply wpp_if; intros Hd; [apply wpp_ret; by left|].
  apply wpp_bind, wpp_zoom. eapply wpp_mono; [apply check_verified|]. intros ok c' [-> Hv].
  apply wpp_if; intros Hok; [apply wpp_ret; left; by destruct cx|].
  apply negb_false_iff in Hok. apply wpp_if; intros _; [apply wpp_ret; left; by destruct cx|].
  apply wpp_bind, wpp_zoom, wpp_modify. unfold on_new_valid_proposal. apply wpp_bind, wpp_get.
  apply wpp_if; intros _; [apply wpp_ret; by left|].
  apply wpp_bind, wpp_zoom. unfold SyncHS.own_vote. apply wpp_bind, wpp_get, wpp_bind.
  apply wpp_unwrap; [intros sg _|done]. apply wpp_ret.
  match goal with |- wlp (match ?o with _ => _ end) _ _ => destruct o end; [done|].
  apply wpp_bind, wpp_zoom. unfold SyncHS.multicast. wpp_go. right.
  split; [|split; [by apply Hv|done]].
  destruct (index (base cx) !! block_hash b) eqn:E; [|done].
  assert (is_delivered_by_hash (SyncHS.storage (base cx)) (block_hash b) = true); [|congruence].
  apply is_delivered_spec. eauto.
Qed.

Lemma propose_after cx bh batch :
  after (do_propose bh batch) (λ _ cx',
    proposed (SyncHS.block_on (SyncHS.last_seen_block (base cx)) bh (SyncHS.myid (base cx)))
      (base cx) (base cx')) cx.
Proof.
  apply safely_wp. unfold do_propose. apply wpp_bind, wpp_get. cbv zeta.
  apply wpp_bind, wpp_unwrap; [intros pr _|done].
  apply wpp_bind, wpp_zoom. unfold SyncHS.own_vote. apply wpp_bind, wpp_get, wpp_bind.
  apply wpp_unwrap; [intros sg _|done]. apply wpp_ret.
  apply wpp_bind, wpp_unwrap; [intros c _|done].
  apply wpp_bind, wpp_zoom. unfold SyncHS.multicast. wpp_go.
  unfold queue_commit. apply wpp_bind, wpp_get, wpp_zoom, wpp_modify. simpl. split; try done.
  eexists. split; [apply net_broadcast_sent|]. intros to q b' batch' Hin.
  apply list_elem_of_fmap in Hin as (? & ? & _). naive_solver.
Qed.

(** A property of the face that proposals and acceptances keep is kept by
    every turn. *)
Lemma turn_keeps J inp :
  (∀ c bh c', J (face c) → SyncHS.last_leader c = SyncHS.myid c →
     proposed (SyncHS.block_on (SyncHS.last_seen_block c) bh (SyncHS.myid c)) c c' → J (face c')) →
  (∀ t p b batch c c', inp = SyncHS.Turn t (SyncHS.EvMsg (SyncHS.NewProposal p b batch)) →
     J (face c) → index c !! block_hash b = None → verified c p b → accepted b c c' → J (face c')) →
  keeps (λ cx, J (face (base cx))) (take_input inp).
Proof.
  intros Hpro Hacc. set (I := λ cx, J (face (base cx))).
  assert (keeps I leader_drain) as Hdrain.
  { apply keeps_bind; [apply keeps_get|]. intros cx0. apply keeps_loop.
    intros cx a cx' HI. unfold leader_step, bind at 1, get.
    destruct (SyncHS.pending_batches (base cx)) as [|[bh batch] rest]; [by intros [= <- <-]|].
    destruct (_ && _) eqn:El; [|by intros [= <- <-]].
    apply andb_true_iff in El as [El%N.eqb_eq _]. unfold next_leader, SyncHS.next_leader in El.
    unfold bind at 1, common, zoom, modify. intros E. simpl in E.
    set (cx1 := cx <| base := _ |>) in E. pose proof (propose_after cx1 bh batch) as Hp.
    unfold wpf in Hp. unfold bind, ret in E.
    destruct (do_propose bh batch cx1) as [o cx2| |]; [|done..]. injection E as <- <-.
    by apply (Hpro (base cx1) bh). }
  assert (∀ A (m : M Context A), calm m → keeps I m) as Hcalm by (intros A m Hm; apply Hm).
  destruct inp as [t ev|h batch]; unfold take_input.
  - apply keeps_bind; [apply Hcalm, calm_common, quiet_modify; done|]. intros _.
    destruct ev as [msg| | |bh batch| | |]; unfold react; try apply keeps_ret.
    + apply keeps_bind; [|intros _; apply keeps_bind; [done|intros _; apply keeps_ret]].
      destruct msg as [p b batch|v p|b1 b2 v|v|v w|v w|v]; try apply keeps_ret.
      * apply keeps_bind; [|intros []; [apply Hcalm, calm_queue|apply keeps_ret]].
        intros cx a cx' HI E. pose proof (receive_after cx p b batch) as Hr.
        unfold wpf in Hr. rw E in Hr. destruct Hr as [Hf|(? & ? & ?)]; [by rw /I Hf|].
        by eapply (Hacc t p b batch (base cx)).
      * apply keeps_bind; [apply Hcalm, calm_on_vote|].
        intros []; [apply Hcalm, calm_on_commit|apply keeps_ret].
    + apply keeps_bind; [apply Hcalm, calm_common, quiet_modify; done|]. intros _.
      apply keeps_bind; [done|intros _; apply keeps_ret].
    + apply keeps_bind; [apply keeps_get|]. intros cx0.
      destruct (dq_poll _ _) as [[p q]|]; [|apply keeps_ret].
      apply keeps_bind; [apply Hcalm, calm_common, quiet_modify; done|]. intros _.
      apply keeps_bind; [apply Hcalm, calm_on_commit|]. intros _.
      apply keeps_bind; [done|intros _; apply keeps_ret].
  - apply keeps_bind; [apply Hcalm, calm_persist|]. intros _. apply keeps_ret.
Qed.

(** In terms of the state, for a property that only looks at the face. *)
Lemma turn_keeps_of (J : SyncHS.Context → Prop) inp cx go cx' :
  (∀ c c', face c = face c' → J c → J c') →
  (∀ c bh c', J c → SyncHS.last_leader c = SyncHS.myid c →
     proposed (SyncHS.block_on (SyncHS.last_seen_block c) bh (SyncHS.myid c)) c c' → J c') →
  (∀ t p b batch c c', inp = SyncHS.Turn t (SyncHS.EvMsg (SyncHS.NewProposal p b batch)) →
     J c → index c !! block_hash b = None → verified c p b → accepted b c c' → J c') →
  J (base cx) → take_input inp cx = Done go cx' → J (base cx').
Proof.
  intros HJ Hpro Hacc Hcx E. set (J' := λ f, ∃ c, face c = f ∧ J c).
  assert (∀ c, J' (face c) → J c) as HJ' by (intros c (c1 & Hf & Hc1); by eapply HJ).
  apply HJ'. eapply (turn_keeps J' inp); [..|exact E].
  - intros c bh c' Hc%HJ' ??. exists c'. split; [done|]. by eapply Hpro.
  - intros t p b batch c c' ? Hc%HJ' ???. exists c'. split; [done|]. by eapply Hacc.
  - by exists (base cx).
Qed.

(** ** The leader's chain *)
Record chain (G : gmap Hash Block) (last : Block) : Prop := {
  ch_size : (height (header last) + 1)%N = N.of_nat (size G);
  ch_below h b : G !! h = Some b → (height (header b) ≤ height (header last))%N;
  ch_one h b h' b' : G !! h = Some b → G !! h' = Some b' →
    height (header b) = height (header b') → b = b';
  ch_parent h b : G !! h = Some b → b = GENESIS_BLOCK ∨
    ∃ a, G !! prev (header b) = Some a ∧ height (header b) = (height (header a) + 1)%N;
}.

(** An index in which a block is filed under its own hash. *)
Definition filed (G : gmap Hash Block) : Prop :=
  G !! EMPTY_HASH = Some GENESIS_BLOCK ∧
  ∀ h b, G !! h = Some b → block_hash b = h ∧ well_hashed b.

(** The leader's state; the chain is one as long as the heights do not wrap. *)
Record leads c : Prop := {
  ld_filed : filed (index c);
  ld_last : index c !! block_hash (SyncHS.last_seen_block c) = Some (SyncHS.last_seen_block c);
  ld_sent : ∀ to p b batch, (to, SyncHS.NewProposal p b batch) ∈ msgs c →
    index c !! block_hash b = Some b;
  ld_chain : (N.of_nat (size (index c)) ≤ u64_size)%N → chain (index c) (SyncHS.last_seen_block c);
}.

Lemma leads_face c c' : face c = face c' → leads c → leads c'.
Proof.
  unfold face. intros E [F1 F2 F3 F4].
  assert (index c = index c' ∧ SyncHS.last_seen_block c = SyncHS.last_seen_block c' ∧
    msgs c = msgs c') as (E1 & E2 & E3) by (by injection E).
  by split; rw -?E1 -?E2 -?E3.
Qed.

Lemma filed_insert G b : filed G → block_hash b = compute_hash b → filed (<[block_hash b := b]> G).
Proof.
  intros [Hg Hf] Hb. split.
  - rw lookup_insert_ne //. rw Hb. apply do_hash_not_empty.
  - intros h b'. rw lookup_insert. case_decide; [|apply Hf]. intros [= <-]. split; [done|by right].
Qed.

Lemma insert_filed_subseteq G b :
  filed G → block_hash b = compute_hash b → G ⊆ <[block_hash b := b]> G.
Proof.
  intros [_ Hf] Hb. apply map_subseteq_spec. intros h b' Hb'. rw lookup_insert.
  case_decide as E; [|done]. subst. destruct (Hf _ _ Hb') as [? ?]. f_equal.
  apply well_hashed_inj; [by right|done|done].
Qed.

(** A block on top of the chain is new, and the chain is one block longer. *)
Lemma chain_extend G last nb :
  filed G → G !! block_hash last = Some last → chain G last →
  block_hash nb = compute_hash nb → prev (header nb) = block_hash last →
  height (header nb) = add64 (height (header last)) 1 →
  (N.of_nat (size (<[block_hash nb := nb]> G)) ≤ u64_size)%N →
  chain (<[block_hash nb := nb]> G) nb.
Proof.
  intros Hf Hl Hc Hb Hp Hh Hs. destruct Hc as [C1 C2 C3 C4].
  destruct (G !! block_hash nb) as [x|] eqn:Ex.
  { exfalso. pose proof (proj2 Hf _ _ Ex) as [Ehx Hx].
    assert (x = nb) as -> by (apply well_hashed_inj; [done|by right|done]).
    rw insert_id // in Hs. pose proof (C2 _ _ Ex) as Hle.
    destruct (decide (height (header last) + 1 < u64_size)%N) as [Hlt|Hge].
    - rw Hh add64_small // in Hle. lia.
    - assert (height (header last) + 1 = u64_size)%N as Ew by lia.
      assert (height (header nb) = 0%N) as E0 by (rw Hh; unfold add64; by rw Ew).
      assert (nb = GENESIS_BLOCK) as Hgen by (by eapply C3; [exact Ex|apply Hf|]).
      rw Hgen /= in Hb. by apply (do_hash_not_empty (ser_block (header GENESIS_BLOCK) (body GENESIS_BLOCK))). }
  rw map_size_insert_None // in Hs |- *.
  assert (height (header nb) = height (header last) + 1)%N as Hnb.
  { rw Hh add64_small //. lia. }
  split.
  - rw map_size_insert_None //. lia.
  - intros h b. rw lookup_insert. case_decide; [by intros [= <-]|]. intros Hb'%C2. lia.
  - intros h b h' b'. rw !lookup_insert. repeat case_decide; intros E1 E2 E3; simplify_eq; [done| | |].
    + apply C2 in E2. lia.
    + apply C2 in E1. lia.
    + by eapply C3.
  - intros h b. rw lookup_insert. case_decide as Eh.
    + intros [= <-]. right. exists last. rw Hp lookup_insert_ne; [done|congruence].
    + intros Hb'. destruct (C4 _ _ Hb') as [?|(a & Ha & ?)]; [by left|right]. exists a.
      rw lookup_insert_ne; [done|]. congruence.
Qed.

Lemma leads_proposed c bh c' :
  leads c → proposed (SyncHS.block_on (SyncHS.last_seen_block c) bh (SyncHS.myid c)) c c' →
  leads c'.
Proof.
  set (nb := SyncHS.block_on _ _ _). intros [Hf Hl Hs Hc] [Hi Hla _ (l & Hm & Hml)].
  assert (block_hash nb = compute_hash nb) as Hnb by done. split.
  - rw Hi. by apply filed_insert.
  - by rw Hi Hla lookup_insert_eq.
  - intros to p b batch. rw Hm elem_of_app. intros [Hin|Hin].
    + apply Hs in Hin. rw Hi lookup_insert. case_decide as E; [|done].
      f_equal. apply well_hashed_inj; [by right|by eapply Hf|done].
    + apply Hml in Hin as ->. by rw Hi lookup_insert_eq.
  - rw Hi Hla. intros Hsz. apply (chain_extend _ (SyncHS.last_seen_block c)); try done.
    apply Hc. etrans; [|exact Hsz].
    destruct (index c !! block_hash nb) as [x|] eqn:E;
      [rw map_size_insert_Some; [lia|by rw E]|rw map_size_insert_None //; lia].
Qed.
End node.

(** ** The network *)
Abbreviation world := (gmap N Context).

Section network.
Context `{Bincode} `{!BincodeLaws} `{!CollisionFree} `{Store} `{NetOracle}
  `{DelayQueue SyncHS.Propose} `{!DelayQueueLaws SyncHS.Propose}.
Implicit Types (W : world) (cx : Context) (p : SyncHS.Propose) (b : Block).

Abbreviation index cx := (all_delivered_blocks_by_hash (SyncHS.storage (base cx))).

Abbreviation step := (Network.step take_input (input_authentic base)).

(** Every replica started on a configuration with its own id. *)
Definition started W : Prop :=
  ∀ i cx, W !! i = Some cx → ∃ config bs t,
    context_new config bs t = Some cx ∧ Config.id config = i.
Definition reachable W : Prop := ∃ W0 k, started W0 ∧ nsteps step k W0 W.

Record agreed W : Prop := {
  ag_inv i cx : W !! i = Some cx → OptSyncProofs.inv True cx;
  ag_node i cx : W !! i = Some cx → is_node i (base cx);
  ag_sub i cx : W !! i = Some cx → index cx ⊆ lead_index base W;
  ag_leads L : W !! 0%N = Some L → leads (base L);
}.

Lemma opt_started_agreed W : started W → agreed W.
Proof.
  intros Hs.
  assert (∀ i cx, W !! i = Some cx → OptSyncProofs.inv True cx ∧ is_node i (base cx) ∧
    index cx = {[ EMPTY_HASH := GENESIS_BLOCK ]} ∧
    SyncHS.last_seen_block (base cx) = GENESIS_BLOCK ∧
    sent (SyncHS.consensus_net (base cx)) = []) as Hall.
  { intros i cx Hi. destruct (Hs _ _ Hi) as (config & bs & t & E & Hid).
    split; [by eapply OptSyncProofs.opt_start_inv; [|left]|].
    unfold context_new, SyncHS.context_new in E. destruct (decode_secret config); [|done].
    destruct (decode_public_keys config _); [|done]. by injection E as <-. }
  split.
  - intros i cx Hi. by apply (Hall i cx).
  - intros i cx Hi. by apply (Hall i cx).
  - intros i cx Hi. destruct (Hall _ _ Hi) as (_ & _ & -> & _). unfold lead_index.
    destruct (W !! 0%N) as [L|] eqn:EL; [|done]. by destruct (Hall _ _ EL) as (_ & _ & -> & _).
  - intros L EL. destruct (Hall _ _ EL) as (_ & _ & E1 & E2 & E3).
    split; rw ?E1 ?E2 ?E3.
    + split; [by rw lookup_singleton_eq|]. intros h b. rw lookup_singleton.
      case_decide; [|done]. intros [= <-]. subst. split; [done|by left].
    + by rw lookup_singleton_eq.
    + intros to p b batch Hin. by apply not_elem_of_nil in Hin.
    + intros _. split.
      * by rw map_size_singleton.
      * intros h b. rw lookup_singleton. case_decide; [|done]. by intros [= <-].
      * intros h b h' b'. rw !lookup_singleton. repeat case_decide; naive_solver.
      * intros h b. rw lookup_singleton. case_decide; [|done]. intros [= <-]. by left.
Qed.

(** What a turn of the leader keeps. *)
Lemma leader_turn W L inp go L' :
  agreed W → W !! 0%N = Some L → input_authentic base W inp → take_input inp L = Done go L' →
  is_node 0 (base L') ∧ leads (base L') ∧ index L ⊆ index L'.
Proof.
  intros Ha HL Hin E.
  enough (is_node 0 (base L') ∧ leads (base L') ∧
    SyncHS.pub_key_map (base L') = SyncHS.pub_key_map (base L) ∧ index L ⊆ index L')
    as (? & ? & _ & ?) by done.
  apply (turn_keeps_of (λ c, is_node 0 c ∧ leads c ∧
    SyncHS.pub_key_map c = SyncHS.pub_key_map (base L) ∧
    index L ⊆ all_delivered_blocks_by_hash (SyncHS.storage c)) inp L go L'); [..|exact E].
  - intros c c' Ef (Hn & Hl & Hk & Hs). split; [|split; [by eapply leads_face|]].
    + unfold is_node in *. injection Ef as _ _ _ _ <- <- <- _. done.
    + injection Ef as <- _ _ _ _ _ _ <-. done.
  - intros c bh c' (Hn & Hl & Hk & Hs) _ Hp. pose proof Hp as [Hi _ Hid _].
    split; [|split; [by eapply leads_proposed|]].
    + unfold is_node in *. by injection Hid as _ -> -> -> _.
    + split; [by injection Hid as _ _ _ _ ->|]. rw Hi.
      etrans; [exact Hs|]. eapply insert_filed_subseteq; [by apply Hl|done].
  - intros t p b batch c c' -> (Hn & Hl & Hk & Hs) Hnone Hv _. exfalso.
    destruct (verified_leader _ _ _ _ Hn Hv) as (pk & Hpk & Hsig). rw Hk in Hpk.
    destruct Hin as [_ Hau]. destruct (Hau _ _ _ HL Hpk Hsig) as (L1 & to & q & b' & batch' & E1 & Hm & Eh).
    rw HL in E1. injection E1 as <-. apply (ld_sent _ (ag_leads _ Ha _ HL)) in Hm.
    rw Eh in Hm. eapply lookup_weaken in Hm; [|exact Hs]. congruence.
  - split; [by apply (ag_node _ Ha)|]. split; [by apply (ag_leads _ Ha)|done].
Qed.

(** What a turn of another replica keeps. *)
Lemma follower_turn W i cx inp go cx' :
  agreed W → i ≠ 0%N → W !! i = Some cx → input_authentic base W inp →
  take_input inp cx = Done go cx' →
  is_node i (base cx') ∧ index cx' ⊆ lead_index base W.
Proof.
  intros Ha Hne Hi Hin E.
  enough (is_node i (base cx') ∧ SyncHS.pub_key_map (base cx') = SyncHS.pub_key_map (base cx) ∧
    index cx' ⊆ lead_index base W) as (? & _ & ?) by done.
  apply (turn_keeps_of (λ c, is_node i c ∧ SyncHS.pub_key_map c = SyncHS.pub_key_map (base cx) ∧
    all_delivered_blocks_by_hash (SyncHS.storage c) ⊆ lead_index base W) inp cx go cx'); [..|exact E].
  - intros c c' Ef (Hn & Hk & Hs). unfold is_node in *. by injection Ef as <- _ _ _ <- <- <- <-.
  - intros c bh c' ((Hid & Hl & _) & _) Hme _. congruence.
  - intros t p b batch c c' -> (Hn & Hk & Hs) _ Hv [Hidx Hid].
    destruct (verified_leader _ _ _ _ Hn Hv) as (pk & Hpk & Hsig). rw Hk in Hpk.
    destruct Hin as [Hwh Hau]. destruct (Hau _ _ _ Hi Hpk Hsig) as (L & to & q & b' & batch' & HL & Hm & Eh).
    pose proof (ag_leads _ Ha _ HL) as HLd. apply (ld_sent _ HLd) in Hm.
    assert (b' = b) as ->.
    { apply well_hashed_inj; [by eapply (ld_filed _ HLd)|done|done]. }
    split; [unfold is_node in *; by injection Hid as _ -> -> -> _|].
    split; [by injection Hid as _ _ _ _ ->|]. rw Hidx.
    apply insert_subseteq_l; [|done]. unfold lead_index. by rw HL.
  - split; [by apply (ag_node _ Ha)|]. split; [done|by eapply (ag_sub _ Ha)].
Qed.

Lemma step_agreed W i cx inp go cx' :
  agreed W → W !! i = Some cx → input_authentic base W inp → take_input inp cx = Done go cx' →
  agreed (<[i := cx']> W).
Proof.
  intros Ha Hi Hin E.
  assert (OptSyncProofs.inv True cx') as Hinv.
  { assert (SyncHSProofs.input_ok True (SyncHS.view (base cx)) inp) as Hok
      by (destruct inp; simpl; auto).
    by apply (wlp_done _ _ _ _ _ (OptSyncProofs.opt_take_input_spec True cx inp (ag_inv _ Ha _ _ Hi) Hok) E). }
  assert (is_node i (base cx') ∧ lead_index base W ⊆ lead_index base (<[i := cx']> W) ∧
    index cx' ⊆ lead_index base (<[i := cx']> W) ∧ (i = 0%N → leads (base cx'))) as (Hn & Hg & Hs & Hl).
  { destruct (decide (i = 0%N)) as [->|Hne].
    - destruct (leader_turn _ _ _ _ _ Ha Hi Hin E) as (? & ? & ?).
      unfold lead_index. rw Hi lookup_insert_eq. done.
    - destruct (follower_turn _ _ _ _ _ _ Ha Hne Hi Hin E) as [? ?].
      assert (lead_index base (<[i := cx']> W) = lead_index base W) as ->
        by (unfold lead_index; by rw lookup_insert_ne). done. }
  split.
  - intros j cx1. rw lookup_insert. case_decide; [by intros [= <-]|apply (ag_inv _ Ha)].
  - intros j cx1. rw lookup_insert. case_decide; [subst; by intros [= <-]|apply (ag_node _ Ha)].
  - intros j cx1. rw lookup_insert. case_decide; [by intros [= <-]|].
    intros Hj. etrans; [by eapply (ag_sub _ Ha)|done].
  - intros L. rw lookup_insert. case_decide; [subst; intros [= <-]; by apply Hl|apply (ag_leads _ Ha)].
Qed.

Lemma opt_reachable_agreed W : reachable W → agreed W.
Proof.
  intros (W0 & k & Hs & Hk).
  apply (Network.nsteps_inv take_input (input_authentic base) (λ _, agreed) k W0 W); [..|exact Hk].
  - intros _ W1 i inp cx go cx' Ha Hi Hin E. by eapply step_agreed.
  - by apply opt_started_agreed.
Qed.

(** C3.  Agreement in Opt Sync.  Start any number of replicas and let the
    network lose, duplicate, delay, reorder and redirect messages and inject
    any other, votes with forged signatures included, except proposals with
    the leader's signature on a block it did not propose; let any replica
    stop.  As long as the leader has proposed fewer than 2^64 blocks, what
    the replicas commit is one chain: every committed block is in the index,
    two blocks of any two replicas at the same height are the same, and a
    block one higher than another has it as its parent. *)
Theorem optsync_agreement W L i j cxi cxj :
  reachable W → W !! 0%N = Some L → (N.of_nat (size (index L)) ≤ u64_size)%N →
  W !! i = Some cxi → W !! j = Some cxj →
  (∀ h, h ∈ committed_blocks_by_hash (SyncHS.storage (base cxi)) → is_Some (index cxi !! h)) ∧
  (∀ h h' b c, index cxi !! h = Some b → index cxj !! h' = Some c →
     (height (header b) = height (header c) → b = c) ∧
     (height (header b) = (height (header c) + 1)%N → prev (header b) = block_hash c)).
Proof.
  intros Ha%opt_reachable_agreed HL Hsz Hi Hj. pose proof (ag_leads _ Ha _ HL) as HLd.
  destruct (ld_chain _ HLd Hsz) as [_ _ C3 C4].
  assert (lead_index base W = index L) as EG by (unfold lead_index; by rw HL).
  split.
  - apply (wf_committed _ (SyncHSProofs.io_storage _ (SyncHSProofs.inv_index _ _
      (OptSyncProofs.inv_base _ _ (ag_inv _ Ha _ _ Hi))))).
  - intros h h' b c Hb Hc. eapply lookup_weaken in Hb; [|by eapply (ag_sub _ Ha)].
    eapply lookup_weaken in Hc; [|by eapply (ag_sub _ Ha)]. rw EG in Hb. rw EG in Hc. split.
    + intros Eh. by eapply C3.
    + intros Eh. destruct (C4 _ _ Hb) as [->|(a & Hp & Ea)]; [simpl in Eh; lia|].
      assert (a = c) as -> by (eapply C3; [exact Hp|exact Hc|lia]).
      symmetry. by eapply (ld_filed _ HLd).
Qed.
End network.

(** ** Executing the network *)
Section simulate.
Context `{Bincode} `{Store} `{NetOracle} `{DelayQueue SyncHS.Propose}.
Implicit Types W : world.

(** A batch for [i], the [k]th message that [j] sent, given to [i], or a look
    at the timers of [i]; [t] is the time. *)
Inductive action :=
  | Give (i : Replica) (t : N) (h : Hash) (batch : CachedBatch Transaction)
  | Deliver (i j : Replica) (k : nat) (t : N)
  | Timer (i : Replica) (t : N).
Definition act W (a : action) : Replica * SyncHS.input :=
  match a with
  | Give i t h batch => (i, SyncHS.Turn t (SyncHS.EvBatch h batch))
  | Deliver i j k t =>
      (i, SyncHS.Turn t match W !! j ≫= λ cx, sent (SyncHS.consensus_net (base cx)) !! k with
                        | Some (_, m) => SyncHS.EvMsg m
                        | None => SyncHS.EvUndecodable
                        end)
  | Timer i t => (i, SyncHS.Turn t SyncHS.EvTimer)
  end.
Definition simulate : list action → world → world :=
  Network.simulate take_input act (input_authenticb base).

Lemma opt_simulate_reachable l W : started W → reachable (simulate l W).
Proof.
  intros Hs. destruct (simulate_steps take_input (input_authentic base) act (input_authenticb base)
    (hs_input_authenticb_spec base) l W) as (k & _ & Hk). by exists W, k.
Qed.
End simulate.

Module Examples.
Import Toy ToyFormat ToyQueue ConfigExamples.
Import SyncHSProofs.Examples (bs0, blank, batch).

Definition cfg_of (i : N) : Node := cfg3 <| Config.id := i |> <| secret_key_bytes := [(10 + i)%N] |>.
Definition none : Context := mkContext blank 0 ∅.
Definition boot (i : N) : Context := default none (context_new (cfg_of i) bs0 0).
Definition W0 : world := {[ 0%N := boot 0; 1%N := boot 1; 2%N := boot 2 ]}.

Lemma opt_W0_started : started W0.
Proof.
  intros i cx Hi. exists (cfg_of i), bs0, 0%N. split; [|done]. unfold W0 in Hi.
  do 2 (apply lookup_insert_Some in Hi as [[<- <-]|[_ Hi]]; [reflexivity|]).
  apply lookup_singleton_Some in Hi as [<- <-]. reflexivity.
Qed.

(** The leader proposes a block, which reaches both replicas, one of them
    late; with a vote for it the leader proposes the next one. *)
Definition script : list action :=
  [Give 0 0 (hash (batch 1)) (batch 1); Deliver 1 0 0 1; Deliver 0 1 0 2;
   Give 0 3 (hash (batch 2)) (batch 2); Deliver 1 0 2 4; Deliver 2 0 0 5; Deliver 2 1 0 6;
   Deliver 2 0 2 7; Timer 1 2000; Timer 1 2000; Timer 2 3000; Timer 2 3000; Timer 0 3000; Timer 0 3000].
Definition W1 : world := simulate script W0.
Definition node (i : N) : Context := default none (W1 !! i).

Lemma opt_W1_nodes i : bool_decide (is_Some (W1 !! i)) = true → W1 !! i = Some (node i).
Proof. intros [cx E]%bool_decide_eq_true. unfold node. by rw E. Qed.

Example W1_commits :
  (λ i, (size (committed_blocks_by_hash (SyncHS.storage (base (node i)))),
         height (header (SyncHS.last_seen_block (base (node i)))))) <$> [0; 1; 2]%N =
  [(3, 2%N); (3, 2%N); (3, 2%N)].
Proof. vm_compute. reflexivity. Qed.

Definition top (i : N) : Block := SyncHS.last_seen_block (base (node i)).
Lemma optsync_agreement_witness :
  top 1 = top 2 ∧ height (header (top 1)) = 2%N ∧
  committed_block_by_hash (SyncHS.storage (base (node 1))) (block_hash (top 1)) = Some (top 1).
Proof.
  destruct (optsync_agreement W1 (node 0) 1 2 (node 1) (node 2)) as [_ Hag].
  - apply opt_simulate_reachable, opt_W0_started.
  - apply opt_W1_nodes. vm_compute. reflexivity.
  - vm_compute. discriminate.
  - apply opt_W1_nodes. vm_compute. reflexivity.
  - apply opt_W1_nodes. vm_compute. reflexivity.
  - split; [|split; vm_compute; reflexivity].
    apply (Hag (block_hash (top 1)) (block_hash (top 2))); vm_compute; reflexivity.
Defined.
End Examples.
End OptSyncNet.
