(* ===== verification/WireMsgs.v ===== *)
(** * Protocol messages on the wire

    The `Message` implementations of the protocol crates
    (types/src/msg/{apollo,artemis,synchs}/proto.rs and mempool/src/messages.rs)
    over the codecs of [Wire], and the receiving end of a reactor: frames
    queue up, the first is decoded, and the ones behind it are taken along
    until the queue is empty or a frame does not decode. *)

From S2P Require Import Prelude Crypto Types Text Config Batch NodeIO Wire Apollo ApolloProofs Artemis ArtemisProofs SyncHS.

Abbreviation u16 := (int W16).
Abbreviation u64 := (int W64).

(** What arrives, field by field. *)
Ltac norm_fields :=
  cbn [norm enum norm_variant v_fields v_build v_serde two fst snd].

(** ** Apollo *)
Section apollo.
Context `{Wire}.
Import Apollo.

Definition apollo_propose_serde : Codec Propose :=
  struct (λ p, (sig p, prop_round p, prop_hash p)) (λ p, mkPropose p.1.1 p.1.2 p.2)
    (vote_serde ⋅⋅ u64 ⋅⋅ digest).

Definition apollo_msg_serde : Codec ProtocolMsg := enum [
  mkVariant (λ m, match m with NewProposal p b batch => Some (p, b, batch) | _ => None end)
    (λ x, NewProposal x.1.1 x.1.2 x.2) (apollo_propose_serde ⋅⋅ block_serde ⋅⋅ batch_serde);
  mkVariant (λ m, match m with Relay from p => Some (from, p) | _ => None end)
    (λ x, Relay x.1 x.2) (u16 ⋅⋅ apollo_propose_serde);
  mkVariant (λ m, match m with Request from rid h => Some (from, rid, h) | _ => None end)
    (λ x, Request x.1.1 x.1.2 x.2) (u16 ⋅⋅ u64 ⋅⋅ digest);
  mkVariant (λ m, match m with
                  | Response from rid p b batch => Some (from, rid, p, b, batch)
                  | _ => None end)
    (λ x, Response x.1.1.1.1 x.1.1.1.2 x.1.1.2 x.1.2 x.2)
    (u16 ⋅⋅ u64 ⋅⋅ apollo_propose_serde ⋅⋅ block_serde ⋅⋅ batch_serde);
  mkVariant (λ m, match m with Blame v => Some v | _ => None end) (λ v, Blame v) vote_serde].

Definition apollo_from_bytes (bs : bytes) : option ProtocolMsg := bin_deserialize apollo_msg_serde bs.
Definition apollo_serialize_proto (m : ProtocolMsg) : bytes := bin_serialize apollo_msg_serde m.

(** A message as it is when it arrives: caches refilled. *)
Definition apollo_arrives (m : ProtocolMsg) : ProtocolMsg :=
  match m with
  | NewProposal p b batch => NewProposal p (init b) (rehash batch)
  | Response from rid p b batch => Response from rid p (init b) (rehash batch)
  | m => m
  end.

Lemma apollo_propose_exact : exact apollo_propose_serde.
Proof.
  apply struct_exact; [by intros []|]. apply two_exact; [apply two_exact|]; try done.
  apply vote_exact.
Qed.
Lemma apollo_msg_norm m : norm apollo_msg_serde m = apollo_arrives m.
Proof.
  destruct m; unfold apollo_msg_serde, apollo_arrives; norm_fields;
    by rw ?apollo_propose_exact ?block_norm ?batch_norm ?vote_exact.
Qed.

Context `{!WireLaws}.
Lemma apollo_propose_lawful : lawful apollo_propose_serde.
Proof. unfold apollo_propose_serde. solve_lawful. Qed.
Lemma apollo_propose_stable : stable apollo_propose_serde.
Proof. apply struct_stable; [by intros [[]]|]. solve_stable. Qed.
#[local] Hint Resolve apollo_propose_lawful apollo_propose_stable : wire.
Lemma apollo_msg_lawful : lawful apollo_msg_serde.
Proof. unfold apollo_msg_serde. solve_lawful. Qed.
Lemma apollo_msg_stable : stable apollo_msg_serde.
Proof. unfold apollo_msg_serde. solve_stable. Qed.
End apollo.

(** ** Artemis *)
Section artemis.
Context `{Wire}.
Import Artemis.

Definition artemis_block_serde : Codec Block :=
  struct (λ b, (blk b, sig b)) (λ p, mkBlock p.1 p.2) (block_serde ⋅⋅ vote_serde).
Definition ucr_serde : Codec UCRVote :=
  struct (λ v, (v_hash v, v_round v, v_view v, v_vote v))
    (λ p, mkUCRVote p.1.1.1 p.1.1.2 p.1.2 p.2) (digest ⋅⋅ u64 ⋅⋅ u64 ⋅⋅ vote_serde).

Definition artemis_msg_serde : Codec ProtocolMsg := enum [
  mkVariant (λ m, match m with NewBlock b batch => Some (b, batch) | _ => None end)
    (λ x, NewBlock x.1 x.2) (artemis_block_serde ⋅⋅ batch_serde);
  mkVariant (λ m, match m with MUCRVote v => Some v | _ => None end) (λ v, MUCRVote v) ucr_serde;
  mkVariant (λ m, match m with Relay from v => Some (from, v) | _ => None end)
    (λ x, Relay x.1 x.2) (u16 ⋅⋅ ucr_serde);
  mkVariant (λ m, match m with Blame v => Some v | _ => None end) (λ v, Blame v) vote_serde;
  mkVariant (λ m, match m with Request from rid h => Some (from, rid, h) | _ => None end)
    (λ x, Request x.1.1 x.1.2 x.2) (u16 ⋅⋅ u64 ⋅⋅ digest);
  mkVariant (λ m, match m with
                  | Response from rid b batch => Some (from, rid, b, batch)
                  | _ => None end)
    (λ x, Response x.1.1.1 x.1.1.2 x.1.2 x.2)
    (u16 ⋅⋅ u64 ⋅⋅ artemis_block_serde ⋅⋅ batch_serde);
  mkVariant (λ m, match m with Invalid => Some tt | _ => None end) (λ _, Invalid) unit_serde].

Definition artemis_block_from_bytes (bs : bytes) : option Block := bin_deserialize artemis_block_serde bs.
Definition artemis_from_bytes (bs : bytes) : option ProtocolMsg := bin_deserialize artemis_msg_serde bs.
Definition artemis_serialize_proto (m : ProtocolMsg) : bytes := bin_serialize artemis_msg_serde m.

Definition artemis_arrives (m : ProtocolMsg) : ProtocolMsg :=
  match m with
  | NewBlock b batch => NewBlock (block_init b) (rehash batch)
  | Response from rid b batch => Response from rid (block_init b) (rehash batch)
  | m => m
  end.

Lemma artemis_block_norm b : norm artemis_block_serde b = block_init b.
Proof.
  unfold artemis_block_serde. cbn [norm struct two fst snd]. rw block_norm vote_exact.
  by destruct b.
Qed.
Lemma ucr_exact : exact ucr_serde.
Proof.
  apply struct_exact; [by intros []|]. repeat apply two_exact; try done. apply vote_exact.
Qed.
Lemma artemis_msg_norm m : norm artemis_msg_serde m = artemis_arrives m.
Proof.
  destruct m; unfold artemis_msg_serde, artemis_arrives; norm_fields;
    by rw ?ucr_exact ?artemis_block_norm ?batch_norm ?vote_exact.
Qed.

Context `{!WireLaws}.
Lemma artemis_block_lawful : lawful artemis_block_serde.
Proof. unfold artemis_block_serde. solve_lawful. Qed.
Lemma ucr_lawful : lawful ucr_serde.
Proof. unfold ucr_serde. solve_lawful. Qed.
Lemma artemis_block_stable : stable artemis_block_serde.
Proof. apply struct_stable; [by intros []|]. solve_stable. Qed.
Lemma ucr_stable : stable ucr_serde.
Proof. apply struct_stable; [by intros [[[]]]|]. solve_stable. Qed.
#[local] Hint Resolve artemis_block_lawful ucr_lawful artemis_block_stable ucr_stable : wire.
Lemma artemis_msg_lawful : lawful artemis_msg_serde.
Proof. unfold artemis_msg_serde. solve_lawful. Qed.
Lemma artemis_msg_stable : stable artemis_msg_serde.
Proof. unfold artemis_msg_serde. solve_stable. Qed.
End artemis.

(** ** Sync HotStuff and Opt Sync, which shares its messages *)
Section synchs.
Context `{Wire}.
Import SyncHS.

Definition synchs_propose_serde : Codec Propose :=
  struct (λ p, (proof p, cert p, prop_view p, prop_hash p))
    (λ p, mkPropose p.1.1.1 p.1.1.2 p.1.2 p.2)
    (vec (int W8) ⋅⋅ certificate_serde ⋅⋅ u64 ⋅⋅ digest).

Definition synchs_msg_serde : Codec ProtocolMsg := enum [
  mkVariant (λ m, match m with NewProposal p b batch => Some (p, b, batch) | _ => None end)
    (λ x, NewProposal x.1.1 x.1.2 x.2) (synchs_propose_serde ⋅⋅ block_serde ⋅⋅ batch_serde);
  mkVariant (λ m, match m with VoteMsg c p => Some (c, p) | _ => None end)
    (λ x, VoteMsg x.1 x.2) (certificate_serde ⋅⋅ synchs_propose_serde);
  mkVariant (λ m, match m with EquivcationBlameMsg b1 b2 c => Some (b1, b2, c) | _ => None end)
    (λ x, EquivcationBlameMsg x.1.1 x.1.2 x.2) (block_serde ⋅⋅ block_serde ⋅⋅ certificate_serde);
  mkVariant (λ m, match m with NoProgressBlameMsg c => Some c | _ => None end)
    (λ c, NoProgressBlameMsg c) certificate_serde;
  mkVariant (λ m, match m with ChangeView v c => Some (v, c) | _ => None end)
    (λ x, ChangeView x.1 x.2) (u64 ⋅⋅ certificate_serde);
  mkVariant (λ m, match m with QuitViewMsg v c => Some (v, c) | _ => None end)
    (λ x, QuitViewMsg x.1 x.2) (u64 ⋅⋅ certificate_serde);
  mkVariant (λ m, match m with StatusMsg c => Some c | _ => None end)
    (λ c, StatusMsg c) certificate_serde].

(** What a leader pushes to the clients. *)
Definition synchs_client_msg_serde : Codec ClientMsg := enum [
  mkVariant (λ m, match m with NewBlock b hs p => Some (b, hs, p) | _ => None end)
    (λ x, NewBlock x.1.1 x.1.2 x.2) (block_serde ⋅⋅ vec digest ⋅⋅ payload_serde);
  mkVariant (λ m, match m with Request h => Some h | _ => None end) (λ h, Request h) digest;
  mkVariant (λ m, match m with Response h b => Some (h, b) | _ => None end)
    (λ x, Response x.1 x.2) (digest ⋅⋅ block_serde)].

Definition synchs_from_bytes (bs : bytes) : option ProtocolMsg := bin_deserialize synchs_msg_serde bs.
Definition synchs_serialize_proto (m : ProtocolMsg) : bytes := bin_serialize synchs_msg_serde m.
Definition synchs_client_from_bytes (bs : bytes) : option ClientMsg :=
  bin_deserialize synchs_client_msg_serde bs.

Definition synchs_arrives (m : ProtocolMsg) : ProtocolMsg :=
  match m with
  | NewProposal p b batch => NewProposal p (init b) (rehash batch)
  | EquivcationBlameMsg b1 b2 c => EquivcationBlameMsg (init b1) (init b2) c
  | m => m
  end.
Definition synchs_client_arrives (m : ClientMsg) : ClientMsg :=
  match m with
  | NewBlock b hs p => NewBlock (init b) hs p
  | Request h => Request h
  | Response h b => Response h (init b)
  end.

Lemma synchs_propose_exact : exact synchs_propose_serde.
Proof.
  apply struct_exact; [by intros []|]. repeat apply two_exact; try done.
  - by apply vec_exact.
  - apply certificate_exact.
Qed.
Lemma synchs_msg_norm m : norm synchs_msg_serde m = synchs_arrives m.
Proof.
  destruct m; unfold synchs_msg_serde, synchs_arrives; norm_fields;
    by rw ?synchs_propose_exact ?block_norm ?batch_norm ?certificate_exact.
Qed.
Lemma synchs_client_msg_norm m : norm synchs_client_msg_serde m = synchs_client_arrives m.
Proof.
  destruct m; unfold synchs_client_msg_serde, synchs_client_arrives; norm_fields;
    by rw ?block_norm ?(vec_exact _ digest_exact) ?payload_exact.
Qed.

Context `{!WireLaws}.
Lemma synchs_propose_lawful : lawful synchs_propose_serde.
Proof. unfold synchs_propose_serde. solve_lawful. Qed.
Lemma synchs_propose_stable : stable synchs_propose_serde.
Proof. apply struct_stable; [by intros [[[]]]|]. solve_stable. Qed.
#[local] Hint Resolve synchs_propose_lawful synchs_propose_stable : wire.
Lemma synchs_msg_lawful : lawful synchs_msg_serde.
Proof. unfold synchs_msg_serde. solve_lawful. Qed.
Lemma synchs_msg_stable : stable synchs_msg_serde.
Proof. unfold synchs_msg_serde. solve_stable. Qed.
Lemma synchs_client_msg_lawful : lawful synchs_client_msg_serde.
Proof. unfold synchs_client_msg_serde. solve_lawful. Qed.
Lemma synchs_client_msg_stable : stable synchs_client_msg_serde.
Proof. unfold synchs_client_msg_serde. solve_stable. Qed.
End synchs.

(** ** The keyed mempool's clients *)
Section clients.
Context `{Wire}.

Definition client_msg_serde : Codec (ClientMsg Transaction) := enum [
  mkVariant (λ m, match m with NewTx tx reply_to => Some (tx, reply_to) | _ => None end)
    (λ x, NewTx x.1 x.2) (transaction_serde ⋅⋅ addr);
  mkVariant (λ m, match m with NewBatch batch reply_to => Some (batch, reply_to) | _ => None end)
    (λ x, NewBatch x.1 x.2) (vec transaction_serde ⋅⋅ addr);
  mkVariant (λ m, match m with Confirmation h => Some h | _ => None end)
    (λ h, Confirmation h) digest].

Definition client_msg_from_bytes (bs : bytes) : option (ClientMsg Transaction) :=
  bin_deserialize client_msg_serde bs.

Lemma client_msg_exact : exact client_msg_serde.
Proof.
  intros []; unfold client_msg_serde; norm_fields;
    by rw ?transaction_exact ?(vec_exact _ transaction_exact).
Qed.
Lemma client_msg_lawful `{!WireLaws} : lawful client_msg_serde.
Proof. unfold client_msg_serde. solve_lawful. Qed.
Lemma client_msg_stable `{!WireLaws} : stable client_msg_serde.
Proof. unfold client_msg_serde. solve_stable. Qed.
End clients.

(** ** The round trip *)
Section roundtrip.
Context `{Wire} `{!WireLaws}.

(** What can be written, arrives as [arrives] of it, and what was read from any
    bytes can be sent on as it is. *)
Definition carries {A} (s : Codec A) (serialize : A → bytes) (decode : bytes → option A)
    (arrives : A → A) : Prop :=
  (∀ m, fit s m → decode (serialize m) = Some (arrives m)) ∧
  ∀ bs m, decode bs = Some m → decode (serialize m) = Some m.

Lemma carries_of {A} (s : Codec A) arrives :
  lawful s → stable s → (∀ m, norm s m = arrives m) →
  carries s (bin_serialize s) (bin_deserialize s) arrives.
Proof.
  intros Hl Hs Hn. split.
  - intros m Hm. by rw from_to_bytes // Hn.
  - intros bs m E. destruct (from_bytes_ensures _ _ _ _ Hs E) as [Hf Hm].
    by rw from_to_bytes // Hm.
Qed.

(** C30.  Messages survive the wire, between nodes in every protocol and between
    nodes and clients: a message arrives with
    the same fields, except that a block's hash is recomputed and a batch has
    its own hash filled in.  For a block that caches its own hash and a batch
    with honest caches that changes nothing: the block is the same, and the
    batch has the same transactions and hashes.  And whatever bytes a message
    was decoded from, it can be sent on and arrives unchanged. *)
Theorem messages_survive_the_wire :
  carries apollo_msg_serde apollo_serialize_proto apollo_from_bytes apollo_arrives ∧
  carries artemis_msg_serde artemis_serialize_proto artemis_from_bytes artemis_arrives ∧
  carries synchs_msg_serde synchs_serialize_proto synchs_from_bytes synchs_arrives ∧
  carries synchs_client_msg_serde (bin_serialize synchs_client_msg_serde) synchs_client_from_bytes
    synchs_client_arrives ∧
  carries client_msg_serde (bin_serialize client_msg_serde) client_msg_from_bytes (λ m, m) ∧
  (∀ b, block_hash b = compute_hash b → init b = b) ∧
  (∀ batch, batch_ok batch → payload (rehash batch) = payload batch ∧
     hash (rehash batch) = hash batch ∧ tx_hashes (rehash batch) = tx_hashes batch).
Proof.
  split_and!.
  - apply carries_of; [apply apollo_msg_lawful|apply apollo_msg_stable|apply apollo_msg_norm].
  - apply carries_of; [apply artemis_msg_lawful|apply artemis_msg_stable|apply artemis_msg_norm].
  - apply carries_of; [apply synchs_msg_lawful|apply synchs_msg_stable|apply synchs_msg_norm].
  - apply carries_of; [apply synchs_client_msg_lawful|apply synchs_client_msg_stable|
      apply synchs_client_msg_norm].
  - apply carries_of; [apply client_msg_lawful|apply client_msg_stable|apply client_msg_exact].
  - intros b Hb. by rw -block_norm block_norm_hashed.
  - intros batch Hb. by destruct (rehash_same batch Hb) as (? & ? & ? & _).
Qed.
End roundtrip.

(** ** The receiving end of a reactor

    `consensus_recv` yields the frames of all peers in some order.  The
    decoder is [decode]; [queue] are the frames that have arrived and have not
    been read. *)
Section receive.
Context {Msg : Type} (decode : bytes → option Msg).

(** `while let Some(Ok(pmsg)) = consensus_recv.next().now_or_never().flatten()`:
    the frame that ends the loop is consumed too. *)
Fixpoint drain_frames (queue : list bytes) : list Msg * list bytes :=
  match queue with
  | [] => ([], [])
  | f :: queue' =>
      match decode f with
      | Some m => let '(ms, rest) := drain_frames queue' in (m :: ms, rest)
      | None => ([], queue')
      end
  end.

(** One turn of the network arm: nothing to do, an undecodable frame, or a
    burst of messages. *)
Inductive received := RNothing | RUndecodable | RBurst (ms : list Msg).
Definition recv (queue : list bytes) : received * list bytes :=
  match queue with
  | [] => (RNothing, [])
  | f :: queue' =>
      match decode f with
      | None => (RUndecodable, queue')
      | Some m => let '(ms, rest) := drain_frames queue' in (RBurst (m :: ms), rest)
      end
  end.
Definition burst (r : received) : list Msg := match r with RBurst ms => ms | _ => [] end.

Lemma drain_messages queue :
  (drain_frames queue).1 ++ omap decode (drain_frames queue).2 = omap decode queue ∧
  Forall (λ m, ∃ f, f ∈ queue ∧ decode f = Some m) (drain_frames queue).1 ∧
  (∀ f, f ∈ (drain_frames queue).2 → f ∈ queue).
Proof.
  induction queue as [|f queue (Eq & Hms & Hin)]; simpl; [done|].
  destruct (decode f) as [m|] eqn:E.
  - destruct (drain_frames queue) as [ms rest]. simpl in *. split; [f_equal; exact Eq|]. split.
    + constructor; [exists f; split; [by left|done]|].
      eapply Forall_impl; [exact Hms|]. intros m' (f' & ? & ?). exists f'. by split; [right|].
    + intros f' ?. right. auto.
  - split; [done|]. split; [done|]. intros f' ?. by right.
Qed.

(** A poll takes the messages at the front of the queue and loses nothing but
    what does not decode. *)
Lemma recv_messages queue :
  burst (recv queue).1 ++ omap decode (recv queue).2 = omap decode queue ∧
  Forall (λ m, ∃ f, f ∈ queue ∧ decode f = Some m) (burst (recv queue).1) ∧
  (∀ f, f ∈ (recv queue).2 → f ∈ queue).
Proof.
  destruct queue as [|f queue]; [done|]. unfold recv. simpl.
  destruct (decode f) as [m|] eqn:E; simpl.
  - destruct (drain_messages queue) as (Eq & Hms & Hin).
    destruct (drain_frames queue) as [ms rest]. simpl in *. split; [f_equal; exact Eq|]. split.
    + constructor; [exists f; split; [by left|done]|].
      eapply Forall_impl; [exact Hms|]. intros m' (f' & ? & ?). exists f'. by split; [right|].
    + intros f' ?. right. auto.
  - split; [done|]. split; [done|]. intros f' ?. by right.
Qed.

(** *** A reactor that is fed with bytes

    Its inputs are [I]; [turn] is a poll that found messages, [undecodable]
    one that found a frame that does not decode, and [take_input] a turn of
    the loop, which says whether the loop goes on.  A frame that arrives is
    queued and read at a later poll. *)
Context {C I : Type} (turn : list Msg → I) (undecodable : I) (take_input : I → M C bool).

Inductive raw := Frame (f : bytes) | Poll | Local (i : I).

(** What became of the frames: the messages handed over to the node, in order,
    the frames left unread, and the events the loop did not live to see. *)
Record served := mkServed { taken : list Msg; unread : list bytes; unseen : list raw }.
Definition also (ms : list Msg) (s : served) : served :=
  mkServed (ms ++ taken s) (unread s) (unseen s).

Fixpoint serve (queue : list bytes) (rs : list raw) : M C served :=
  let next i queue rs :=
    let! go := take_input i in
    if go then serve queue rs else ret (mkServed [] queue rs) in
  match rs with
  | [] => ret (mkServed [] queue [])
  | Frame f :: rs => serve (queue ++ [f]) rs
  | Local i :: rs => next i queue rs
  | Poll :: rs =>
      match recv queue with
      | (RNothing, queue) => serve queue rs
      | (RUndecodable, queue) => next undecodable queue rs
      | (RBurst ms, queue) => let! s := next (turn ms) queue rs in ret (also ms s)
      end
  end.

Definition frames (rs : list raw) : list bytes :=
  omap (λ r, match r with Frame f => Some f | _ => None end) rs.
Definition locals (rs : list raw) : list I :=
  omap (λ r, match r with Local i => Some i | _ => None end) rs.

(** The loop as it is run on decoded inputs, and the messages of an input. *)
Context (run : list I → M C unit) (msgs_of : I → list Msg) (closes : I → bool).

(** All that decoded is accounted for in the order of arrival: first what the
    node was handed, then what is unread, then what came too late. *)
Definition in_order (queue : list bytes) (rs : list raw) (s : served) : Prop :=
  taken s ++ omap decode (unread s) ++ omap decode (frames (unseen s)) =
  omap decode (queue ++ frames rs).
(** The loop leaves events unseen only behind one that closes a channel. *)
Definition stops_late (rs : list raw) (s : served) : Prop :=
  unseen s = [] ∨ ∃ pre i, rs = pre ++ Local i :: unseen s ∧ closes i = true.
(** It is a run on inputs that carry just the messages taken. *)
Definition is_run (c : C) (s : served) (c' : C) : Prop :=
  ∃ ins, run ins c = Done tt c' ∧ mjoin (msgs_of <$> ins) = taken s.

Context (run_nil : run [] = ret tt).
Context (run_cons : ∀ i ins, run (i :: ins) = let! go := take_input i in if go then run ins else ret tt).
Context (turn_msgs : ∀ ms, msgs_of (turn ms) = ms) (undecodable_msgs : msgs_of undecodable = []).
Context (turn_open : ∀ ms, closes (turn ms) = false) (undecodable_open : closes undecodable = false).

(** What every turn on an acceptable input keeps, the whole service keeps. *)
Context (pn : Prop) (P : C → Prop) (R : relation C) `{!PreOrder R}.
Context (ok : I → Prop) (Q : Msg → Prop).
Context (turn_ok : ∀ ms, Forall Q ms → ok (turn ms)) (undecodable_ok : ok undecodable).
Context (take_ok : ∀ i c, P c → ok i →
  wpp pn (take_input i) (λ go c', (P c' ∧ R c c') ∧ go = negb (closes i)) c).

Definition serves (c : C) queue rs (s : served) (c' : C) : Prop :=
  in_order queue rs s ∧ stops_late rs s ∧ is_run c s c' ∧ P c' ∧ R c c'.

Lemma is_run_step c i c1 s c' :
  take_input i c = Done true c1 → is_run c1 s c' → is_run c (also (msgs_of i) s) c'.
Proof.
  intros Et (ins & Er & Em). exists (i :: ins). rw run_cons /bind Et Er. split; [done|].
  simpl. by f_equal.
Qed.
Lemma is_run_stop c i c1 queue rs :
  take_input i c = Done false c1 → msgs_of i = [] → is_run c (mkServed [] queue rs) c1.
Proof.
  intros Et Em. exists [i]. rw run_cons /bind Et. split; [done|]. simpl. by rw Em.
Qed.

(** One turn of the loop, then the rest. *)
Lemma serve_next c i queue rs queue' rs' (ms := msgs_of i) :
  P c → ok i →
  ms ++ omap decode (queue' ++ frames rs') = omap decode (queue ++ frames rs) →
  (∃ r, rs = r :: rs' ∧ (closes i = true → r = Local i ∧ ms = [])) →
  (∀ c1, P c1 → wpp pn (serve queue' rs') (serves c1 queue' rs') c1) →
  wpp pn (let! s := (let! go := take_input i in
                     if go then serve queue' rs' else ret (mkServed [] queue' rs')) in
          ret (also ms s)) (serves c queue rs) c.
Proof.
  intros HP Hok Eq (r & -> & Hr) IH. pose proof (take_ok i c HP Hok) as Ht.
  unfold wpp, bind in *. destruct (take_input i c) as [go c1| |] eqn:Et; [|done..].
  destruct Ht as [[HP1 HR1] ->]. destruct (closes i) eqn:Ec; simpl in Et |- *.
  - destruct (Hr eq_refl) as [-> Em]. unfold ms in *. rw Em in Eq |- *. split; [|split; [|split]].
    + unfold in_order. simpl. rw -omap_app. exact Eq.
    + right. by exists [], i.
    + rw -Em. destruct (is_run_stop c i c1 queue' rs' Et Em) as (ins & ? & ?).
      exists ins. split; [done|]. simpl in *. by rw Em.
    + done.
  - specialize (IH c1 HP1). destruct (serve queue' rs' c1) as [s c2| |]; [|done..].
    destruct IH as (Ho & Hs & Hrun & HP2 & HR2). split; [|split; [|split; [|split]]].
    + unfold in_order in *. simpl. rw -app_assoc. rw Ho. exact Eq.
    + destruct Hs as [|(pre & i' & -> & ?)]; [by left|right]. by exists (r :: pre), i'.
    + by eapply is_run_step.
    + done.
    + by etrans.
Qed.

Lemma also_nil (m : M C served) (Φ : served → C → Prop) c :
  wpp pn (let! s := m in ret (also [] s)) Φ c → wpp pn m Φ c.
Proof. unfold wpp, bind, also. by destruct (m c) as [[]| |]. Qed.

Lemma serve_spec c queue rs :
  P c → Forall (λ i, msgs_of i = [] ∧ ok i) (locals rs) →
  (∀ f m, f ∈ queue ++ frames rs → decode f = Some m → Q m) →
  wpp pn (serve queue rs) (serves c queue rs) c.
Proof.
  revert c queue. induction rs as [|r rs IH]; intros c queue HP Hl HQ.
  { apply wpp_ret. split; [|split; [by left|split; [|done]]].
    - unfold in_order. simpl. by rw !app_nil_r.
    - exists []. by rw run_nil. }
  destruct r as [f| |i]; cbn [serve].
  - eapply wpp_mono; [apply (IH c (queue ++ [f]) HP Hl)|].
    { intros f' m Hin. apply HQ. by rw -app_assoc in Hin. }
    intros s c' (Ho & Hs & Hr). split; [|split; [|done]].
    + unfold in_order in *. rw Ho. by rw -app_assoc.
    + destruct Hs as [|(pre & i & -> & ?)]; [by left|right]. by exists (Frame f :: pre), i.
  - destruct (recv_messages queue) as (Eq & Hms & Hin).
    destruct (recv queue) as [r q] eqn:Er. simpl in Eq, Hms, Hin.
    assert (∀ f m, f ∈ q ++ frames rs → decode f = Some m → Q m) as HQ'.
    { intros f m Hf. apply HQ. apply elem_of_app in Hf as [?|?]; apply elem_of_app; auto. }
    assert (∀ c1, P c1 → wpp pn (serve q rs) (serves c1 q rs) c1) as IH' by auto.
    assert (burst r ++ omap decode (q ++ frames rs) = omap decode (queue ++ frames rs)) as Eq'.
    { by rw !omap_app -Eq -app_assoc. }
    destruct r as [| |ms]; simpl in Eq'.
    + eapply wpp_mono; [by apply IH'|]. intros s c' (Ho & Hs & Hr). split; [|split; [|done]].
      * unfold in_order in *. by rw Ho.
      * destruct Hs as [|(pre & i & -> & ?)]; [by left|right]. by exists (Poll :: pre), i.
    + apply also_nil. pose proof (serve_next c undecodable queue (Poll :: rs) q rs) as Hn.
      cbv zeta in Hn. rw undecodable_msgs in Hn. apply Hn; try done.
      exists Poll. split; [done|]. by rw undecodable_open.
    + pose proof (serve_next c (turn ms) queue (Poll :: rs) q rs) as Hn. cbv zeta in Hn.
      rw turn_msgs in Hn. apply Hn; try done.
      * apply turn_ok. eapply Forall_impl; [exact Hms|]. intros m (f & Hf & Em).
        apply (HQ f); [|done]. apply elem_of_app. by left.
      * exists Poll. split; [done|]. by rw turn_open.
  - simpl in Hl. apply Forall_cons in Hl as [[Hm Hoki] Hl]. apply also_nil.
    pose proof (serve_next c i queue (Local i :: rs) queue rs) as Hn. cbv zeta in Hn.
    rw Hm in Hn. apply Hn; try done; [by exists (Local i)|by auto].
Qed.
End receive.
Arguments raw : clear implicits.
Arguments Frame {I}.
Arguments Poll {I}.
Arguments Local {I}.
Arguments served : clear implicits.
Arguments mkServed {Msg I}.
Arguments taken {Msg I}.
Arguments unread {Msg I}.
Arguments unseen {Msg I}.

(** ** Nodes fed with bytes *)
Section apollo_node.
Context `{Wire} `{!BincodeLaws (H0:=Wire_Bincode)} `{!CollisionFree} `{Store} `{NetOracle}.
Import Apollo ApolloProofs.ApolloProofs.

Definition apollo_msgs (i : input) : list ProtocolMsg :=
  match i with Turn (EvMsgs ms) => ms | _ => [] end.
Definition apollo_serve : list bytes → list (raw input) → M Context (served ProtocolMsg input) :=
  serve apollo_from_bytes (λ ms, Turn (EvMsgs ms)) (Turn EvUndecodable) take_input.

(** Whoever wrote the bytes, a block that was decoded caches its own hash. *)
Lemma apollo_msg_hashed bs m : apollo_from_bytes bs = Some m → msg_hashed m.
Proof.
  apply from_bytes_ensures, enum_ensures. repeat (apply Forall_cons; split); simpl; try done.
  - eapply ensures_mono; [eapply two_ensures; [eapply two_ensures; [apply any_ensures|]|];
      [apply block_ensures|apply any_ensures]|]. intros x [[_ E] _]. by right.
  - eapply ensures_mono; [eapply two_ensures; [eapply two_ensures; [apply any_ensures|]|];
      [apply block_ensures|apply any_ensures]|]. intros x [[_ E] _]. by right.
Qed.

(** The messages of a burst are sorted by kind as they are handed over, and
    those of one kind stay in order. *)
Definition proposals (m : ProtocolMsg) : option (Replica * Propose * Block * CachedBatch Transaction) :=
  match m with
  | NewProposal p b batch => Some (origin (sig p), p, b, batch)
  | Response from _ p b batch => Some (from, p, b, batch)
  | _ => None
  end.
Definition relays (m : ProtocolMsg) : option (Replica * Propose) :=
  match m with Relay from p => Some (from, p) | _ => None end.
Definition others (m : ProtocolMsg) : option ProtocolMsg :=
  match m with Request _ _ _ | Blame _ => Some m | _ => None end.

Lemma apollo_burst_sorted ms cx :
  ∃ cx', for_each ms handle_message cx = Done tt cx' ∧
    prop_buf cx' = prop_buf cx ++ omap proposals ms ∧ relay_buf cx' = relay_buf cx ++ omap relays ms ∧
    other_buf cx' = other_buf cx ++ omap others ms.
Proof.
  revert cx. induction ms as [|m ms IH]; intros cx.
  { exists cx. simpl. by rw !app_nil_r. }
  cbn [for_each]. unfold bind, handle_message, modify at 1.
  match goal with |- ∃ _, for_each _ _ ?c = _ ∧ _ => destruct (IH c) as (cx' & E & E1 & E2 & E3) end.
  exists cx'. split; [exact E|]. rw E1 E2 E3. destruct m; simpl; by rw -?app_assoc.
Qed.

End apollo_node.

Section artemis_node.
Context `{Wire} `{!BincodeLaws (H0:=Wire_Bincode)} `{!CollisionFree} `{Store} `{NetOracle} `{Clock}.
Import Artemis ArtemisProofs.ArtemisProofs.

Definition artemis_msgs (i : input) : list ProtocolMsg :=
  match i with Turn (EvMsgs ms) => ms | _ => [] end.
Definition artemis_serve : list bytes → list (raw input) → M Context (served ProtocolMsg input) :=
  serve artemis_from_bytes (λ ms, Turn (EvMsgs ms)) (Turn EvUndecodable) take_input.

Lemma artemis_block_ensures : ensures artemis_block_serde (λ b, well_hashed (blk b)).
Proof.
  eapply struct_ensures_of; [apply two_ensures; [apply block_ensures|apply any_ensures]|].
  intros x [E _]. by right.
Qed.
Lemma artemis_msg_ok bs m :
  artemis_from_bytes bs = Some m → (∀ v, m ≠ Blame v) → msg_ok False m.
Proof.
  apply (from_bytes_ensures _ (λ m, (∀ v, m ≠ Blame v) → msg_ok False m)), enum_ensures.
  repeat (apply Forall_cons; split); simpl; try done.
  - eapply ensures_mono; [eapply two_ensures; [apply artemis_block_ensures|apply any_ensures]|].
    by intros x [? _] _.
  - intros bs' v rest' _ Hb. by destruct (Hb v).
  - eapply ensures_mono; [eapply two_ensures; [eapply two_ensures; [apply any_ensures|]|];
      [apply artemis_block_ensures|apply any_ensures]|]. by intros x [[_ ?] _] _.
Qed.

(** The messages of a burst are sorted by kind as they are buffered. *)
Definition blocks_of (m : ProtocolMsg) : option (Block * CachedBatch Transaction) :=
  match m with NewBlock b batch => Some (b, batch) | _ => None end.
Definition responses_of (m : ProtocolMsg) : option (Replica * Block * CachedBatch Transaction) :=
  match m with Response from _ b batch => Some (from, b, batch) | _ => None end.
Definition others_of (m : ProtocolMsg) : option ProtocolMsg :=
  match m with Invalid | NewBlock _ _ | Response _ _ _ _ => None | _ => Some m end.

Lemma artemis_burst_sorted ms cx :
  ∃ cx', for_each ms buffer_message cx = Done tt cx' ∧
    block_processing_waiting cx' = block_processing_waiting cx ++ omap blocks_of ms ∧
    response_waiting cx' = response_waiting cx ++ omap responses_of ms ∧
    other_buf cx' = other_buf cx ++ omap others_of ms.
Proof.
  revert cx. induction ms as [|m ms IH]; intros cx.
  { exists cx. simpl. by rw !app_nil_r. }
  cbn [for_each]. unfold bind, buffer_message, modify at 1.
  match goal with |- ∃ _, for_each _ _ ?c = _ ∧ _ => destruct (IH c) as (cx' & E & E1 & E2 & E3) end.
  exists cx'. split; [exact E|]. rw E1 E2 E3. destruct m; simpl; by rw -?app_assoc.
Qed.

End artemis_node.

(** ** A node of three, on a concrete format *)
Module WireExamples.
Import Toy.
#[local] Existing Instance BincodeLE.numbers.
#[local] Instance laws : WireLaws := proj1 BincodeLE.numbers_laws.
#[local] Instance total : WireTotal := proj2 BincodeLE.numbers_laws.
#[local] Instance no_collision : CollisionFree := ToyFormat.collision_free.

(** Bincode's own integers: a relayed proposal and a broken frame. *)
Definition relay : Apollo.ProtocolMsg :=
  Apollo.Relay 2 (Apollo.mkPropose (mkVote 1 [7; 8]%N) 258 [5; 6]%N).
Lemma messages_survive_the_wire_witness :
  apollo_from_bytes (H0:=BincodeLE.wire)
    (apollo_serialize_proto (H0:=BincodeLE.wire) relay) = Some relay.
Proof.
  destruct (messages_survive_the_wire (H0:=BincodeLE.wire) (H1:=BincodeLE.wire_laws))
    as [[Ha _] _].
  apply (Ha relay). cbn. repeat split; try lia. repeat constructor; lia.
Defined.
Example relay_bytes :
  bin_serialize (apollo_msg_serde (H0:=BincodeLE.wire)) relay =
    [1;0;0;0; 2;0; 1;0; 2;0;0;0;0;0;0;0; 7;8; 2;1;0;0;0;0;0;0; 2; 5;6]%N ∧
  bin_deserialize (apollo_msg_serde (H0:=BincodeLE.wire)) [9;0;0;0]%N = None.
Proof. split; reflexivity. Qed.

Definition batch (n : N) : CachedBatch Transaction :=
  (hash_get_or_init (batch_new [new_dummy_tx_keyed 1 n 2])).2.
Definition block (r : N) (parent : Hash) (ht n : N) : Block :=
  init (with_batch (hash (batch n)) <| header ::= λ h,
    h <| prev := parent |> <| author := r |> <| height := ht |> |>).
Definition bs0 : Batches := mkBatches (∅ : gmap bytes bytes) ∅.

Section apollo_example.
Import Apollo ApolloProofs.ApolloProofs.

Definition acfg : Node :=
  ConfigExamples.cfg3 <| Config.id := 2%N |> <| secret_key_bytes := [12%N] |>.
Definition adummy : Context :=
  mkContext 0 0 0 ∅ 0%N net_new [] bs0 [] [] [] [] [] [] ∅ storage_new ∅ ∅ 0 0 0 0 0 0
    GENESIS_BLOCK ∅ ∅ 0.
Definition acx0 : Context := Eval vm_compute in default adummy (reactor_start acfg bs0).
Definition ab1 : Block := block 0 EMPTY_HASH 1 1.
Definition ap1 : Propose :=
  mkPropose (mkVote 0 (10%N :: block_hash ab1)) 1 (block_hash ab1).
Definition afirst : ProtocolMsg := NewProposal ap1 ab1 (batch 1).
(** Two copies of a proposal around a broken frame. *)
Definition ars : list (raw input) :=
  [Frame (apollo_serialize_proto afirst); Frame [9%N]; Frame (apollo_serialize_proto afirst);
   Poll; Local (Turn EvTick); Poll; Poll].

(** The events at a node, then its mempool closes and more frames come. *)
Definition ars_closed : list (raw input) :=
  ars ++ [Frame (apollo_serialize_proto relay); Local (Turn EvMempoolClosed);
          Frame (apollo_serialize_proto relay); Poll].


(** The node accepts the block in the first poll, which also eats the broken
    frame; the copy is handled in the second one.  The relay before the end
    stays unread, the one after it is not even seen. *)
Example bytes_accepted :
  match apollo_serve [] ars_closed acx0 with
  | Done s cx => (length (taken s), length (unread s), length (unseen s), round cx) = (2, 1, 2, 2%N)
  | _ => False
  end.
Proof. vm_compute. reflexivity. Qed.
End apollo_example.

Section artemis_example.
Import Artemis ArtemisProofs.ArtemisProofs.
Definition tick : Clock := λ k, (1000000 * (k + 1))%N.
#[local] Existing Instance tick.

Definition rcfg : Node :=
  ConfigExamples.cfg3 <| Config.id := 1%N |> <| secret_key_bytes := [11%N] |>.
Definition rdummy : Context :=
  mkContext 0 0 0 ∅ 0%N net_new [] bs0 [] [] [] storage_new ∅ 0 [] [] 0 0 0
    GENESIS_BLOCK GENESIS_BLOCK 0 0 0 0 0 0 ∅ ∅ [] [] metrics_new [] ∅ ∅.
Definition rcx0 : Context := Eval vm_compute in default rdummy (reactor_start rcfg bs0).
Definition rb1 : Block :=
  let b := WireExamples.block 0 EMPTY_HASH 1 1 in mkBlock b (mkVote 0 (10%N :: block_hash b)).
Definition rv1 : UCRVote :=
  let v := mkUCRVote (get_hash rb1) 1 0 (mkVote 0 []) in
  mkUCRVote (get_hash rb1) 1 0 (mkVote 0 (10%N :: ucr_digest v)).
Definition rrs : list (raw input) :=
  [Frame (artemis_serialize_proto (MUCRVote rv1)); Frame [];
   Frame (artemis_serialize_proto (NewBlock rb1 (batch 1))); Poll; Local (Turn EvTick); Poll].


(** The vote comes first and waits in its buffer for the block it is for. *)
Example bytes_voted :
  match artemis_serve [] rrs rcx0 with
  | Done s cx => (length (taken s), length (unread s), round cx) = (2, 0, 2%N)
  | _ => False
  end.
Proof. vm_compute. reflexivity. Qed.
End artemis_example.
End WireExamples.
