(* ===== verification/Meter.v ===== *)
(** * The throughput that a node reports

    The `DP[Throughput]` sampler of the Apollo and Artemis reactors
    (consensus/apollo/src/node/reactor.rs, consensus/artemis/src/node/reactor.rs):
    a counter that commits add to (commit.rs) and that every window of
    `bench_emit_window_secs` seconds prints and clears on one node. *)

From S2P Require Import Prelude Crypto Types Config Storage Batch NodeIO Apollo Artemis.

(** The transactions of the batches told to the confirmation router. *)
Definition tx_total `{Crypto} (bs : list (CachedBatch Transaction)) : N :=
  foldr (λ b n, N.of_nat (length (payload b)) + n)%N 0%N bs.
Definition total (l : list N) : N := foldr N.add 0%N l.

Lemma total_app l1 l2 : total (l1 ++ l2) = (total l1 + total l2)%N.
Proof. induction l1 as [|x l1 IH]; simpl; [done|]. rw IH. lia. Qed.

Section totals.
Context `{Crypto}.

Lemma tx_total_snoc bs b : tx_total (bs ++ [b]) = (tx_total bs + N.of_nat (length (payload b)))%N.
Proof. induction bs as [|b' bs IH]; simpl; [lia|]. rw IH. lia. Qed.

(** The counter of a node that has printed [k] so far: exact while the total
    fits in 64 bits, where the source saturates. *)
Definition metered (k count : N) (bs : list (CachedBatch Transaction)) : Prop :=
  (tx_total bs < u64_size)%N → (k + count = tx_total bs)%N.

Lemma metered_commit k count bs b :
  metered k count bs → metered k (sat_add64 count (N.of_nat (length (payload b)))) (bs ++ [b]).
Proof.
  unfold metered, sat_add64. rw tx_total_snoc. intros Hm Hlt. rw N.min_l; [lia|].
  specialize (Hm ltac:(lia)). unfold u64_size in *. lia.
Qed.
Lemma metered_flush k count bs : metered k count bs → metered (k + count) 0 bs.
Proof. unfold metered. lia. Qed.
End totals.

(** ** What a run prints *)
Section sampler.
Context {S I : Type} (take_input : I → M S bool) (run : list I → M S unit) (tick : I → S → list N).
Context (ok : N → S → Prop).
Hypothesis run_nil : ∀ s, run [] s = Done tt s.
Hypothesis run_cons : ∀ i ins s,
  run (i :: ins) s = (let! go := take_input i in if go : bool then run ins else ret tt) s.
Hypothesis turn_ok : ∀ i k s go s',
  ok k s → take_input i s = Done go s' → ok (k + total (tick i s)) s'.

(** The counts printed, in order. *)
Fixpoint windows (ins : list I) (s : S) : list N :=
  match ins with
  | [] => []
  | i :: ins' => tick i s ++ match take_input i s with Done true s' => windows ins' s' | _ => [] end
  end.

Lemma windows_ok ins k s s' : ok k s → run ins s = Done tt s' → ok (k + total (windows ins s)) s'.
Proof.
  revert k s. induction ins as [|i ins IH]; intros k s Hk.
  { rw run_nil. intros [= <-]. cbn [windows total foldr]. by rw N.add_0_r. }
  rw run_cons. unfold bind. cbn [windows]. destruct (take_input i s) as [go s1| |] eqn:E; [|done..].
  apply (turn_ok i k) in E; [|done]. rw total_app N.add_assoc. destruct go; [by apply IH|].
  intros [= <-]. cbn [total foldr]. by rw N.add_0_r.
Qed.
End sampler.

(** ** Apollo *)
Module ApolloMeter.
Section apollo.
Context `{Bincode} `{Store} `{NetOracle}.
Import Apollo.
Implicit Types cx : Context.

(** What a window prints, before the division by its length. *)
Definition apollo_tick (i : input) cx : list N :=
  match i with
  | Turn EvTick => if (myid cx =? bench_metrics_node cx)%N then [bench_committed_tx_count cx] else []
  | _ => []
  end.
Definition apollo_printed : list input → Context → list N := windows take_input apollo_tick.

Definition apollo_metered k cx : Prop := metered k (bench_committed_tx_count cx) (to_router cx).

Section keeps.
Context (k : N).
Ltac leaf := apply keeps_modify; intros cx Hs; first [exact Hs | by destruct (_ =? _)%N].
Ltac keep := keeps_go ltac:(leaf).

Lemma apollo_read_batch_meter h : keeps (apollo_metered k) (read_batch h).
Proof. intros cx a cx' Hs. unfold read_batch. destruct (batches_read _ _). by intros [= _ <-]. Qed.
Lemma apollo_announce_meter b : keeps (apollo_metered k) (announce_commit b).
Proof.
  unfold announce_commit. apply keeps_bind; [apply apollo_read_batch_meter|]. intros [batch|]; [|apply keeps_ret].
  intros cx a cx' Hm [= _ <-]. exact (metered_commit _ _ _ batch Hm).
Qed.
Lemma apollo_commit_blocks_meter h : keeps (apollo_metered k) (commit_blocks h).
Proof.
  intros cx a' cx' Hs. unfold commit_blocks. destruct (commit_walk _ _ _ _); [|done..]. by intros [= _ <-].
Qed.
Hint Resolve apollo_read_batch_meter apollo_announce_meter apollo_commit_blocks_meter : keeps.
Lemma apollo_receive_meter p b : keeps (apollo_metered k) (on_receive_proposal p b).
Proof. unfold on_receive_proposal, do_commit, send, update_round. keep. Qed.
Hint Resolve apollo_receive_meter : keeps.
Lemma apollo_receive_or_queue_meter p b from : keeps (apollo_metered k) (receive_or_queue p b from).
Proof. unfold receive_or_queue, try_receive_proposal. keep. Qed.
Hint Resolve apollo_receive_or_queue_meter : keeps.
Lemma apollo_release_meter fuel sender h : keeps (apollo_metered k) (release_children fuel sender h).
Proof. revert h. induction fuel as [|fuel IH]; intros h; simpl; keep. Qed.
Hint Resolve apollo_release_meter : keeps.
Lemma apollo_delivery_meter sender p bb : keeps (apollo_metered k) (delivery_check sender p bb).
Proof. unfold delivery_check, resolve_block, persist_batch, send. keep. Qed.
Hint Resolve apollo_delivery_meter : keeps.
Lemma apollo_leader_drain_meter : keeps (apollo_metered k) leader_drain.
Proof. unfold leader_drain, leader_step, do_propose, multicast. keep. Qed.
Lemma apollo_handle_message_meter m : keeps (apollo_metered k) (handle_message m).
Proof. apply keeps_modify. intros cx Hs. by destruct m. Qed.
Hint Resolve apollo_leader_drain_meter apollo_handle_message_meter : keeps.
Lemma apollo_other_turn_meter i : i ≠ Turn EvTick → keeps (apollo_metered k) (take_input i).
Proof.
  intros Hne. unfold take_input, react, process_message, drain_prop, drain_relay, drain_other, drain_future,
    on_recv_request, on_receive_blame, persist_batch, send. keep.
Qed.
End keeps.

(** A window moves the counter to the output. *)
Lemma apollo_turn_meter i k cx go cx' :
  apollo_metered k cx → take_input i cx = Done go cx' → apollo_metered (k + total (apollo_tick i cx)) cx'.
Proof.
  intros Hm E. assert (i = Turn EvTick ∨ i ≠ Turn EvTick) as [->|Hne]
    by (destruct i as [[]|]; [by left|by right..]).
  - cbn [take_input react] in E. set (k' := (k + _)%N).
    assert (keeps (apollo_metered k') (leader_drain;;; ret true)) as Hk.
    { apply keeps_bind; [apply apollo_leader_drain_meter|]. intros []. apply keeps_ret. }
    refine (Hk _ _ _ _ E). unfold k', apollo_tick, apollo_metered in *.
    destruct (myid cx =? bench_metrics_node cx)%N eqn:Em; cbn -[metered] in *; rw ?Em; simpl;
      rw N.add_0_r //. by apply metered_flush.
  - assert (apollo_tick i cx = []) as -> by (by destruct i as [[]|]). cbn [total foldr]. rw N.add_0_r.
    by eapply apollo_other_turn_meter.
Qed.

Lemma apollo_start_meter config bs cx0 : reactor_start config bs = Some cx0 → apollo_metered 0 cx0.
Proof.
  unfold reactor_start, context_new. destruct (decode_secret config); [|done].
  destruct (decode_public_keys _ _); [|done]. intros [= <-]. done.
Qed.

Lemma apollo_printed_total config bs ins cx0 cx :
  reactor_start config bs = Some cx0 → run ins cx0 = Done tt cx →
  metered (total (apollo_printed ins cx0)) (bench_committed_tx_count cx) (to_router cx).
Proof.
  intros Hst Hr. apply apollo_start_meter in Hst.
  exact (windows_ok take_input run apollo_tick apollo_metered (λ _, eq_refl) (λ _ _ _, eq_refl) apollo_turn_meter ins 0 cx0 cx Hst Hr).
Qed.
End apollo.
End ApolloMeter.

(** ** Artemis *)
Module ArtemisMeter.
Section artemis.
Context `{Bincode} `{Store} `{NetOracle} `{Clock}.
Import Artemis.
Implicit Types cx : Context.

(** What a window prints, before the division by its length. *)
Definition artemis_tick (i : input) cx : list N :=
  match i with
  | Turn EvTick => if (myid cx =? bench_metrics_node cx)%N then [bench_committed_tx_count cx] else []
  | _ => []
  end.
Definition artemis_printed : list input → Context → list N := windows take_input artemis_tick.

Definition artemis_metered k cx : Prop := metered k (bench_committed_tx_count cx) (to_router cx).

Section keeps.
Context (k : N).
Ltac leaf := apply keeps_modify; intros cx Hs; first [exact Hs | by destruct (_ =? _)%N].
Ltac keep := keeps_go ltac:(leaf).

Lemma artemis_read_batch_meter h : keeps (artemis_metered k) (read_batch h).
Proof. intros cx a cx' Hs. unfold read_batch. destruct (batches_read _ _). by intros [= _ <-]. Qed.
Lemma artemis_announce_meter b : keeps (artemis_metered k) (announce_commit b).
Proof.
  unfold announce_commit. apply keeps_bind; [apply artemis_read_batch_meter|]. intros [batch|]; [|apply keeps_ret].
  intros cx a cx' Hm [= _ <-]. exact (metered_commit _ _ _ batch Hm).
Qed.
Lemma artemis_commit_blocks_meter h : keeps (artemis_metered k) (commit_blocks h).
Proof.
  intros cx a' cx' Hs. unfold commit_blocks. destruct (commit_walk _ _ _ _); [|done..]. by intros [= _ <-].
Qed.
Hint Resolve artemis_read_batch_meter artemis_announce_meter artemis_commit_blocks_meter : keeps.
Lemma artemis_vote_meter v : keeps (artemis_metered k) (on_receive_round_vote v).
Proof. unfold on_receive_round_vote, do_commit, next_round_leader, send, update_round. keep. Qed.
Hint Resolve artemis_vote_meter : keeps.
Lemma artemis_children_meter fuel h adv : keeps (artemis_metered k) (deliver_children fuel h adv).
Proof.
  revert h adv. induction fuel as [|fuel IH]; intros h adv; simpl; [auto with keeps|].
  unfold index_block, ready_waiting_vote. keep. apply keeps_modify. intros cx Hs. by destruct (_ !! _).
Qed.
Hint Resolve artemis_children_meter : keeps.
Lemma artemis_delivery_meter b : keeps (artemis_metered k) (do_delivery b).
Proof.
  unfold do_delivery, index_block, ready_waiting_vote, announce_height_to_batcher. keep.
  apply keeps_modify. intros cx Hs. by destruct (_ !! _).
Qed.
Hint Resolve artemis_delivery_meter : keeps.
Lemma artemis_new_block_meter b : keeps (artemis_metered k) (on_receive_new_block_direct b).
Proof. unfold on_receive_new_block_direct. keep. Qed.
Hint Resolve artemis_new_block_meter : keeps.
Lemma artemis_leader_drain_meter : keeps (artemis_metered k) leader_drain.
Proof.
  unfold leader_drain, leader_step, do_new_block, multicast, try_round_vote, do_round_vote. keep.
Qed.
Lemma artemis_buffer_message_meter m : keeps (artemis_metered k) (buffer_message m).
Proof. apply keeps_modify. intros cx Hs. by destruct m. Qed.
Hint Resolve artemis_leader_drain_meter artemis_buffer_message_meter : keeps.
Lemma artemis_other_turn_meter i : i ≠ Turn EvTick → keeps (artemis_metered k) (take_input i).
Proof.
  intros Hne. unfold take_input, react, process_message, drain_blocks, drain_responses, drain_ready,
    drain_other, try_receive_round_vote, request_and_wait, handle_request, on_receive_blame,
    update_delivery, do_request, persist_batch, send. keep.
Qed.
End keeps.

(** A window moves the counter to the output. *)
Lemma artemis_turn_meter i k cx go cx' :
  artemis_metered k cx → take_input i cx = Done go cx' → artemis_metered (k + total (artemis_tick i cx)) cx'.
Proof.
  intros Hm E. assert (i = Turn EvTick ∨ i ≠ Turn EvTick) as [->|Hne]
    by (destruct i as [[]|]; [by left|by right..]).
  - cbn [take_input react] in E. set (k' := (k + _)%N).
    assert (keeps (artemis_metered k') (leader_drain;;; ret true)) as Hk.
    { apply keeps_bind; [apply artemis_leader_drain_meter|]. intros []. apply keeps_ret. }
    refine (Hk _ _ _ _ E). unfold k', artemis_tick, artemis_metered in *.
    destruct (myid cx =? bench_metrics_node cx)%N eqn:Em; cbn -[metered] in *; rw ?Em; simpl;
      rw N.add_0_r //. by apply metered_flush.
  - assert (artemis_tick i cx = []) as -> by (by destruct i as [[]|]). cbn [total foldr]. rw N.add_0_r.
    by eapply artemis_other_turn_meter.
Qed.

Lemma artemis_start_meter config bs cx0 : reactor_start config bs = Some cx0 → artemis_metered 0 cx0.
Proof.
  unfold reactor_start, context_new. destruct (decode_secret config); [|done].
  destruct (decode_public_keys _ _); [|done]. intros [= <-]. done.
Qed.

Lemma artemis_printed_total config bs ins cx0 cx :
  reactor_start config bs = Some cx0 → run ins cx0 = Done tt cx →
  metered (total (artemis_printed ins cx0)) (bench_committed_tx_count cx) (to_router cx).
Proof.
  intros Hst Hr. apply artemis_start_meter in Hst.
  exact (windows_ok take_input run artemis_tick artemis_metered (λ _, eq_refl) (λ _ _ _, eq_refl) artemis_turn_meter ins 0 cx0 cx Hst Hr).
Qed.
End artemis.
End ArtemisMeter.
