(* ===== verification/Launch.v ===== *)
(** * The binaries (examples/*/node, examples/*/client)

    What the mains do between the command line and the reactor: insist on the
    arguments that cli.yml requires, choose the decoder by the extension of the
    configuration file, apply the overrides, validate, rewrite the addresses
    from the `ip` file, derive the database path, parse every address, set up
    the TLS senders, start the mempool and hand all of it to the protocol.  The files themselves (and serde's decoders) are the parameter
    [Host], which Disk.v makes of bytes; the TLS identity, the log level and the
    descriptor limit are in Process.v. *)

From Stdlib Require Import Ascii.
From stdpp Require Import pretty.
From S2P Require Import Prelude Crypto Types Text Config GenConfig Batch Legacy.
From S2P Require Import Keyed NodeIO Apollo Artemis SyncHS OptSync KeyedClient WindowClient.

(** ** Files on the host *)
Class Host `{Store} := {
  (** `Node::from_json` and its kin, `Client::from_json` and its kin. *)
  read_node : FileType → string → option Node;
  read_client : FileType → string → option Client;
  (** The text of a file, in ASCII. *)
  read_text : string → option string;
  (** `RocksStore::new`. *)
  open_store : string → option store;
  (** `TlsReliableSender::with_peers_and_options`, on these PEM files. *)
  tls_sender : string → string → option unit;
}.

(** ** `std::path` *)
(** A trailing separator or `.` is not a component; the first part is kept:
    it is the root, the current directory or a name. *)
Definition skipped (part : string) : bool := bool_decide (part = "" ∨ part = ".").
Fixpoint drop_skipped (rev_parts : list string) : list string :=
  match rev_parts with
  | p :: (_ :: _) as rest => if skipped p then drop_skipped rest else rev_parts
  | _ => rev_parts
  end.
(** The components, last first. *)
Definition components (path : string) : list string := drop_skipped (reverse (split 47 path)).

Definition file_name (path : string) : option string :=
  match components path with
  | p :: _ => if skipped p || bool_decide (p = "..") then None else Some p
  | [] => None
  end.

Definition path_extension (path : string) : option string :=
  name ← file_name path;
  '(before, after) ← rsplit_once 46 name;
  if bool_decide (before = "") then None else Some after.

Fixpoint join_parts (l : list string) : string :=
  match l with
  | [] => ""
  | [p] => p
  | p :: l' => p +:+ "/" +:+ join_parts l'
  end.
(** `path.parent().join(name)`: a lone first part that is empty is the root. *)
Definition sibling (path name : string) : option string :=
  match components path with
  | [] => None
  | [p] => if bool_decide (p = "") then None else Some name
  | _ :: rest =>
      let parent := drop_skipped rest in
      Some (join_parts (reverse (name :: parent)))
  end.

(** `Path::join`, for a name that is relative. *)
Definition path_join (dir name : string) : string :=
  match rsplit_once 47 dir with
  | Some (_, EmptyString) => dir +:+ name
  | _ => if bool_decide (dir = "") then name else dir +:+ "/" +:+ name
  end.

(** ** util/src/io.rs *)
Section host.
Context `{Host}.

Definition file_to_ips (filename : string) : option (list string) :=
  t ← read_text filename; Some (trim <$> lines t).

(** ** What the mains share *)
Definition config_format (ext : string) : option FileType :=
  if bool_decide (ext = "json") then Some JSON
  else if bool_decide (ext = "dat") then Some BIN
  else if bool_decide (ext = "toml") then Some TOML
  else if bool_decide (ext = "yaml") then Some YAML
  else None.

(** `App::from_yaml(yaml).get_matches()`: every cli.yml of a node or client
    declares these two `required: true`, and clap exits without them. *)
Definition cli_required : list string := ["config"; "ip"].
Definition get_matches (m : Args) : result string unit :=
  if forallb (λ name, bool_decide (is_Some (m !! name))) cli_required then Ok tt
  else Err "The following required arguments were not provided:".

Definition load {A} (read : FileType → string → option A) (m : Args) : result string (string * A) :=
  _ ← get_matches m;
  conf_str ← expect "unable to convert config file into a string" (m !! "config");
  ext ← expect "Unable to get file extension" (path_extension conf_str);
  ft ← expect "Invalid config file extension" (config_format ext);
  c ← expect "called `Result::unwrap()` on an `Err` value" (read ft conf_str);
  Ok (conf_str, c).

(** `if let Some(v) = m.value_of(name) { v.parse().expect(..) }`. *)
Definition override (m : Args) (name : string) (dflt : N) : result string N :=
  match m !! name with
  | Some v => expect name (parse_u64 v)
  | None => Ok dflt
  end.

Definition validated {E} (r : result E unit) : result string unit :=
  match r with Ok _ => Ok tt | Err _ => Err "The decoded config is not valid" end.

(** ** The node binaries *)
Record Setup := mkSetup { s_config : Node; s_sleep_time : N; s_rocksdb_path : string }.

Definition apply_ips (m : Args) (c : Node) : result string Node :=
  match m !! "ip" with
  | Some f =>
      ips ← expect "Failed to open the file" (file_to_ips f);
      match node_update_config 0 ips c with
      | Done _ c' => Ok c'
      | _ => Err "failed to parse the port after :"
      end
  | None => Ok c
  end.

(** From the command line to the final configuration. *)
Definition node_setup (m : Args) : result string Setup :=
  '(conf_str, c) ← load read_node m;
  d ← override m "delta" (delta c);
  let c := c <| delta := d |> in
  sleep ← override m "sleep" (add64 5 (num_nodes c));
  _ ← validated (node_validate c);
  c ← apply_ips m c;
  path ← match m !! "store" with
         | Some p => Ok p
         | None => expect "config file has no parent dir"
                     (sibling conf_str ("node-" +:+ pretty (id c) +:+ ".rocksdb"))
         end;
  Ok (mkSetup c sleep path).

(** Every entry of `net_map` but the node's own. *)
Definition peer_entries (c : Node) : list (N * string) :=
  filter (λ kv, kv.1 ≠ id c) (map_to_list (net_map c)).

(** What both kinds of nodes open. *)
Record Boot := mkBoot {
  b_setup : Setup;
  b_store : store;
  b_listen : SocketAddr;
  b_peers : gmap N SocketAddr;
  b_intake : SocketAddr;
}.

Definition boot (m : Args) : result string Boot :=
  s ← node_setup m;
  st ← expect "rocksdb store init" (open_store (s_rocksdb_path s));
  listen ← expect "failed to parse consensus listen addr" (my_ip (s_config s) ≫= parse_addr);
  peers ← expect "invalid peer addr" (parse_entries (peer_entries (s_config s)) ∅);
  _ ← expect "consensus sender setup"
        (tls_sender (my_cert_path (s_config s)) (my_cert_key_path (s_config s)));
  intake ← expect "failed to parse mempool client-facing addr" (parse_addr (client_ip (s_config s)));
  Ok (mkBoot s st listen peers intake).

(** Apollo and Artemis: the keyed mempool, with replica 0 as first leader. *)
Definition keyed_boot `{MempoolTx Tx} (m : Args) : result string (Boot * KeyedMempool Tx) :=
  b ← boot m;
  Ok (b, keyed_spawn (id (s_config (b_setup b))) 0 (block_size (s_config (b_setup b))) (b_store b)).
Definition batch_timeout_ms : N := 50.

(** Sync HotStuff and Opt Sync: the clients' addresses, the sender to them and
    the mempool that seals by count (it is spawned in [synchs_node] and [optsync_node]). *)
Definition window_boot (m : Args) : result string (Boot * gmap N SocketAddr * CountSealer) :=
  b ← boot m;
  let c := s_config (b_setup b) in
  clients ← expect "invalid client addr" (parse_entries (map_to_list (client_net_map c)) ∅);
  _ ← expect "client sender setup" (tls_sender (my_cert_path c) (my_cert_key_path c));
  sealer ← expect "assertion failed" (CountSealer_new (N.to_nat (block_size c)));
  Ok (b, clients, sealer).
End host.

(** ** The four nodes: the reactor starts on what was opened. *)
Section nodes.
Context `{Bincode} `{Host} `{NetOracle} `{Clock}.

Definition apollo_node (m : Args) : result string (Boot * KeyedMempool Transaction * Apollo.Context) :=
  '(b, keyed) ← keyed_boot m;
  cx ← expect "context" (Apollo.reactor_start (s_config (b_setup b)) (mkBatches (b_store b) (k_cache keyed)));
  Ok (b, keyed, cx).
Definition artemis_node (m : Args) : result string (Boot * KeyedMempool Transaction * Artemis.Context) :=
  '(b, keyed) ← keyed_boot m;
  cx ← expect "context" (Artemis.reactor_start (s_config (b_setup b)) (mkBatches (b_store b) (k_cache keyed)));
  Ok (b, keyed, cx).

Context `{!DelayQueue SyncHS.Propose}.
Definition synchs_node (m : Args) (start : N)
    : result string (Boot * CountSealer * Mempool Transaction * SyncHS.Context) :=
  '(b, _, sealer) ← window_boot m;
  let mempool := mempool_spawn (b_store b) in
  cx ← expect "context" (SyncHS.context_new (s_config (b_setup b))
                           (mkBatches (b_store b) (m_cache mempool)) start);
  Ok (b, sealer, mempool, cx).
Definition optsync_node (m : Args) (start : N)
    : result string (Boot * CountSealer * Mempool Transaction * OptSync.Context) :=
  '(b, _, sealer) ← window_boot m;
  let mempool := mempool_spawn (b_store b) in
  cx ← expect "context" (OptSync.context_new (s_config (b_setup b))
                           (mkBatches (b_store b) (m_cache mempool)) start);
  Ok (b, sealer, mempool, cx).
End nodes.

(** ** The client binaries *)
Section clients.
Context `{Bincode} `{Host}.

Definition client_setup (m : Args) : result string Client :=
  '(_, c) ← load read_client m;
  _ ← validated (client_validate c);
  match m !! "ip" with
  | Some f =>
      ips ← expect "Failed to open the file" (file_to_ips f);
      Ok (client_update_config 0 ips c)
  | None => Ok c
  end.

(** `m.value_of(name).unwrap_or(dflt).parse().unwrap()`. *)
Definition arg_or (m : Args) (name dflt : string) : result string N :=
  expect name (parse_u64 (default dflt (m !! name))).

(** `--rate` wins over `--txs_per_burst`, which wins over `--window`. *)
Definition txs_per_burst (m : Args) (burst_interval_ms : N) : result string N :=
  rate ← arg_or m "rate" "0";
  if (0 <? rate)%N then Ok (N.max (wrap64 (rate * burst_interval_ms) / 1000) 1)
  else expect "txs_per_burst" (parse_u64 (default "1000"
         (match m !! "txs_per_burst" with Some v => Some v | None => m !! "window" end))).

Definition keyed_client (m : Args) : result string (KeyedClient.State * N) :=
  c ← client_setup m;
  metrics ← arg_or m "metrics" "500000";
  burst_interval_ms ← arg_or m "burst_interval_ms" "100";
  txs ← txs_per_burst m burst_interval_ms;
  st ← expect "client start" (KeyedClient.init c metrics txs);
  if (burst_interval_ms =? 0)%N then Err "`period` must be non-zero."
  else Ok (st, burst_interval_ms).

(** The Apollo and the Artemis main are the same text. *)
Definition apollo_client : Args → result string (KeyedClient.State * N) := keyed_client.
Definition artemis_client : Args → result string (KeyedClient.State * N) := keyed_client.

Definition normal_client (m : Args) : result string (KeyedClient.State * N) :=
  c ← client_setup m;
  metrics ← arg_or m "metrics" "500000";
  window ← arg_or m "window" "1000";
  st ← expect "client start" (KeyedClient.normal_init c metrics window);
  Ok (st, 100%N).

Definition window_client (m : Args) (start : N) : result string WindowClient.State :=
  c ← client_setup m;
  metrics ← arg_or m "metrics" "500000";
  window ← arg_or m "window" "1000";
  expect "client start" (WindowClient.init c metrics window start).

(** And so are those of Sync HotStuff and Opt Sync. *)
Definition synchs_client : Args → N → result string WindowClient.State := window_client.
Definition optsync_client : Args → N → result string WindowClient.State := window_client.
End clients.

(** ** Paths that genconfig writes *)
(** The file [stem.ext] of a directory. *)
Lemma named_file stem ext :
  stem ≠ "" → ext ≠ "" →
  skipped (stem +:+ "." +:+ ext) = false ∧ (stem ≠ "." → stem +:+ "." +:+ ext ≠ "..").
Proof.
  intros Hs He. split.
  - apply bool_decide_eq_false. destruct stem as [|a [|b stem]]; simpl; [done|..]; intros [E|E]; done.
  - destruct stem as [|a [|b stem]]; simpl; [done|..]; intros Hd E; inversion E; subst; [done|].
    by destruct stem.
Qed.

Lemma conf_components `{KeyTools} g stem ext :
  free 47 stem = true → free 47 ext = true → stem ≠ "" → ext ≠ "" →
  components (conf_path g stem ext) = (stem +:+ "." +:+ ext) :: reverse (split 47 (g_target g)).
Proof.
  intros Hs He Hs0 He0. unfold components, conf_path.
  rw (split_app 47 "/"%char) // (split_free 47 (stem +:+ _)); [|by rw !all_chars_app Hs He].
  rw reverse_app reverse_singleton. simpl.
  pose proof (split_nonempty 47 (g_target g)) as Hne.
  rw (proj1 (named_file stem ext Hs0 He0)).
  destruct (reverse (split 47 (g_target g))) eqn:E; [|done].
  apply (f_equal reverse) in E. by rw reverse_involutive in E.
Qed.

Lemma conf_extension `{KeyTools} g stem ext :
  free 47 stem = true → free 47 ext = true → free 46 ext = true → stem ≠ "" → ext ≠ "" →
  stem ≠ "." → path_extension (conf_path g stem ext) = Some ext.
Proof.
  intros Hs He He' Hs0 He0 Hd. unfold path_extension, file_name. rw conf_components //.
  destruct (named_file stem ext Hs0 He0) as [-> Hdd]. rw bool_decide_false; [|by apply Hdd].
  simpl. rw (rsplit_app 46 "."%char) //. simpl. by rw bool_decide_false.
Qed.

(** ** The addresses of the `ip` files *)
Lemma split_last_local port : split_last (local_addr port) = pretty port.
Proof.
  assert (∀ s cur, free 58 s = true → after_last_colon s cur = cur) as Hf.
  { intros s. induction s as [|a s IH]; intros cur; simpl; [done|].
    intros [Ha%negb_true_iff Hs]%andb_true_iff. unfold is_char, ascii_code in Ha. rw Ha. by apply IH. }
  unfold split_last, local_addr. apply (Hf (pretty port)), free_pretty. lia.
Qed.

(** Filling a range of keys one by one. *)
Lemma range_empty {A} (start r : N) (x y : A) :
  (if (start <=? r)%N && (r <? start + N.of_nat 0)%N then x else y) = y.
Proof.
  destruct (start <=? r)%N eqn:E1, (r <? start + N.of_nat 0)%N eqn:E2; try done.
  apply N.leb_le in E1. apply N.ltb_lt in E2. lia.
Qed.
Lemma range_step {A} (f : N → A) (start : N) (k : nat) (m : gmap N A) (r : N) :
  (if (start + 1 <=? r)%N && (r <? start + 1 + N.of_nat k)%N then Some (f r)
   else <[start := f start]> m !! r) =
  if (start <=? r)%N && (r <? start + N.of_nat (S k))%N then Some (f r) else m !! r.
Proof.
  destruct (decide (r = start)) as [->|Hr].
  - rw lookup_insert_eq N.leb_refl.
    assert ((start + 1 <=? start)%N = false) as -> by (apply N.leb_gt; lia).
    by assert ((start <? start + N.of_nat (S k))%N = true) as -> by (apply N.ltb_lt; lia).
  - rw lookup_insert_ne //.
    assert ((start + 1 <=? r)%N = (start <=? r)%N) as ->.
    { destruct (start <=? r)%N eqn:E1; [apply N.leb_le in E1; apply N.leb_le; lia|].
      apply N.leb_gt in E1. apply N.leb_gt. lia. }
    by replace (start + 1 + N.of_nat k)%N with (start + N.of_nat (S k))%N by lia.
Qed.

Lemma node_update_addrs (addr : N → N) k start (c : Node) :
  (∀ i, addr i < u16_size)%N → (start + N.of_nat k < u16_size)%N →
  ∃ c', node_update_config start ((λ i, local_addr (addr (N.of_nat i))) <$> seq (N.to_nat start) k) c
          = Done tt c' ∧
    c' = c <| net_map := net_map c' |> ∧
    ∀ r, net_map c' !! r =
      if (start <=? r)%N && (r <? start + N.of_nat k)%N
      then Some (if (r =? id c)%N then "0.0.0.0:" +:+ pretty (addr r) else local_addr (addr r))
      else net_map c !! r.
Proof.
  intros Ha. revert start c. induction k as [|k IH]; intros start c Hk.
  { exists c. split; [done|]. split; [by destruct c|]. intros r. by rw range_empty. }
  cbn [seq fmap list_fmap node_update_config]. rw N2Nat.id.
  set (entry := λ r, if (r =? id c)%N then "0.0.0.0:" +:+ pretty (addr r) else local_addr (addr r)).
  assert (node_update_one c start (local_addr (addr start)) =
    Done tt (c <| net_map ::= insert start (entry start) |>)) as ->.
  { unfold node_update_one, entry. destruct (start =? id c)%N; [|done].
    by rw split_last_local /parse_u16 parse_uint_pretty. }
  assert (as_u16 (start + 1) = start + 1)%N as -> by (apply N.mod_small; lia).
  destruct (IH (start + 1)%N (c <| net_map ::= insert start (entry start) |>)) as (c' & E & Ec & Hl); [lia|].
  exists c'. replace (S (N.to_nat start)) with (N.to_nat (start + 1)) by lia. split; [exact E|].
  split; [by rw {1}Ec; destruct c|]. intros r. rw Hl. apply (range_step entry).
Qed.

Lemma client_update_addrs (addr : N → N) k start (c : Client) :
  (start + N.of_nat k < u16_size)%N →
  let c' := client_update_config start ((λ i, local_addr (addr (N.of_nat i))) <$> seq (N.to_nat start) k) c in
  c' = c <| c_net_map := c_net_map c' |> ∧
  ∀ r, c_net_map c' !! r =
    if (start <=? r)%N && (r <? start + N.of_nat k)%N then Some (local_addr (addr r))
    else c_net_map c !! r.
Proof.
  revert start c. induction k as [|k IH]; intros start c Hk c'; subst c'.
  { split; [by destruct c|]. intros r. by rw range_empty. }
  cbn [seq fmap list_fmap client_update_config]. rw N2Nat.id.
  assert (as_u16 (start + 1) = start + 1)%N as -> by (apply N.mod_small; lia).
  replace (S (N.to_nat start)) with (N.to_nat (start + 1)) by lia.
  destruct (IH (start + 1)%N (c <| c_net_map ::= insert start (local_addr (addr start)) |>))
    as (Ec & Hl); [lia|].
  split; [rw {1}Ec; by destruct c|]. intros r. rw Hl.
  apply (range_step (λ r, local_addr (addr r))).
Qed.

(** ** Booting a generated cluster *)
(** The command line of a binary: its file and the `ip` file. *)
Abbreviation cmd_line conf ips := (<["ip" := ips]> {["config" := conf]} : Args).
Abbreviation node_file g i := (conf_path g ("nodes-" +:+ pretty i) "json").
Abbreviation client_file g j := (conf_path g ("client-" +:+ pretty j) "json").

Section generated.
Context `{Bincode} `{Host} `{KeyTools}.
Implicit Types c : Node.

(** The addresses a binary ends up with. *)
Definition endpoints (base n : N) (m : gmap N SocketAddr) : Prop :=
  ∀ r, m !! r = if (r <? n)%N then Some (loopback (add16 base r)) else None.

Lemma parse_local base r : parse_addr (local_addr (add16 base r)) = Some (loopback (add16 base r)).
Proof. apply parse_loopback. by apply N.mod_lt. Qed.

Lemma addresses_parse base n (m : gmap N string) :
  addresses base n m →
  ∃ m', parse_entries (map_to_list m) ∅ = Some m' ∧ endpoints base n m'.
Proof.
  intros Hm. destruct (parse_entries_map m) as (m' & E & Hl).
  { intros r s. rw Hm. destruct (r <? n)%N; [|done]. intros [= <-]. by rw parse_local. }
  exists m'. split; [done|]. intros r. rw Hl Hm. destruct (r <? n)%N; [|done]. apply parse_local.
Qed.

(** The other nodes, wherever the node itself listens. *)
Definition peer_addresses (base n : N) c : Prop :=
  ∀ r, r ≠ id c → net_map c !! r = if (r <? n)%N then Some (local_addr (add16 base r)) else None.

Lemma peers_parse base n c :
  peer_addresses base n c →
  ∃ m', parse_entries (peer_entries c) ∅ = Some m' ∧
    ∀ r, m' !! r = if (r <? n)%N && negb (r =? id c)%N
                   then Some (loopback (add16 base r)) else None.
Proof.
  intros Hm. unfold peer_entries.
  assert (∀ k s, (k, s) ∈ filter (λ kv, kv.1 ≠ id c) (map_to_list (net_map c)) ↔
    k ≠ id c ∧ net_map c !! k = Some s) as Hel.
  { intros k s. by rw list_elem_of_filter elem_of_map_to_list. }
  destruct (parse_entries_spec (filter (λ kv, kv.1 ≠ id c) (map_to_list (net_map c))) ∅)
    as (m' & E & Hin & Hout).
  { eapply sublist_NoDup; [exact (NoDup_fst_map_to_list (net_map c))|apply fmap_sublist, sublist_filter]. }
  { apply Forall_forall. intros [k s] [Hne Hk]%Hel. rw (Hm k Hne) in Hk. destruct (k <? n)%N; [|done].
    injection Hk as <-. simpl. by rw parse_local. }
  exists m'. split; [done|]. intros r.
  destruct ((r <? n)%N && negb (r =? id c)%N) eqn:Er.
  - apply andb_true_iff in Er as [Er Hne%negb_true_iff%N.eqb_neq].
    eapply Hin; [|apply parse_local]. apply Hel. split; [done|]. by rw (Hm r Hne) Er.
  - rw Hout ?lookup_empty //. intros ([k s] & -> & [Hne Hk]%Hel)%list_elem_of_fmap. simpl in Er.
    rw (Hm k Hne) in Hk. destruct (k <? n)%N; [|done]. simpl in Er.
    by apply negb_false_iff, N.eqb_eq in Er.
Qed.

Lemma get_matches_ok m : is_Some (m !! "config") → is_Some (m !! "ip") → get_matches m = Ok tt.
Proof. intros Hc Hi. unfold get_matches. simpl. by rw !bool_decide_eq_true_2. Qed.

Lemma load_ok {A} (read : FileType → string → option A) m g stem (conf : A) :
  m !! "config" = Some (conf_path g stem "json") → is_Some (m !! "ip") →
  free 47 stem = true → stem ≠ "" → stem ≠ "." →
  read JSON (conf_path g stem "json") = Some conf →
  load read m = Ok (conf_path g stem "json", conf).
Proof.
  intros Hm Hip Hs Hs0 Hd Hr. unfold load. rw get_matches_ok //.
  rw Hm /= conf_extension //. simpl. by rw Hr.
Qed.

(** What is read is what was written. *)
Definition reads (files : list File) : Prop :=
  ∀ path ft, (∀ c, mkFile path ft (NodeFile c) ∈ files → read_node ft path = Some c) ∧
             (∀ c : Client, mkFile path ft (ClientFile c) ∈ files → read_client ft path = Some c).

(** Databases open, and the TLS senders can be set up. *)
Definition host_ok : Prop :=
  (∀ path, is_Some (open_store path)) ∧ ∀ chain key, is_Some (tls_sender chain key).

(** What a booted node is told about itself and its peers, given the port of
    the first node and of the first intake. *)
Record booted (base cli n i : N) (listen : SocketAddr) (b : Boot) : Prop := {
  bo_id : id (s_config (b_setup b)) = i;
  bo_listen : b_listen b = listen;
  bo_peers r : b_peers b !! r = if (r <? n)%N && negb (r =? i)%N
                                then Some (loopback (add16 base r)) else None;
  bo_intake : b_intake b = any_addr (add16 cli i);
}.

(** From the final configuration on. *)
Lemma boot_setup m s base cli n a :
  host_ok → node_setup m = Ok s →
  peer_addresses base n (s_config s) → my_ip (s_config s) ≫= parse_addr = Some a →
  client_port (s_config s) = add16 cli (id (s_config s)) →
  ∃ b, boot m = Ok b ∧ booted base cli n (id (s_config s)) a b ∧ b_setup b = s.
Proof.
  intros [Hst Htls] E Hnet Ha Hp. unfold boot. rw E. cbn [mbind result_bind].
  destruct (Hst (s_rocksdb_path s)) as [st ->]. simpl. rw Ha /=.
  destruct (peers_parse _ _ _ Hnet) as (m' & -> & Hpeers). simpl.
  destruct (Htls (my_cert_path (s_config s)) (my_cert_key_path (s_config s))) as [[] ->]. simpl.
  unfold client_ip. rw Hp parse_any_addr; [|by apply N.mod_lt]. simpl.
  eexists. split; [done|]. split; [|done]. by split.
Qed.

(** Up to the final configuration: the overrides and the `ip` file. *)
Lemma node_setup_ok m g stem c d sleep c' :
  free 47 stem = true → stem ≠ "" → stem ≠ "." →
  m !! "config" = Some (conf_path g stem "json") → is_Some (m !! "ip") → m !! "store" = None →
  read_node JSON (conf_path g stem "json") = Some c →
  override m "delta" (delta c) = Ok d → override m "sleep" (add64 5 (num_nodes c)) = Ok sleep →
  node_validate (c <| delta := d |>) = Ok tt → apply_ips m (c <| delta := d |>) = Ok c' →
  ∃ path, node_setup m = Ok (mkSetup c' sleep path).
Proof.
  intros Hf Hs0 Hs1 Hc Hi Hsto Hr Hd Hsl Hv Hip. unfold node_setup.
  rw (load_ok read_node m g stem c) //. cbn [mbind result_bind]. rw Hd. cbn [mbind result_bind].
  rw Hsl. cbn [mbind result_bind]. rw Hv. cbn [mbind result_bind validated]. rw Hip Hsto.
  cbn [mbind result_bind]. unfold sibling. rw conf_components //.
  destruct (reverse (split 47 (g_target g))) as [|p ps] eqn:Et.
  { apply (f_equal reverse) in Et. rw reverse_involutive in Et. by apply split_nonempty in Et. }
  by eexists.
Qed.

(** The lines of an `ip` file: node [r], or its intake, at port [base + r] of
    the loopback interface. *)
Definition listing (base n : N) : list string :=
  (λ i, local_addr (add16 base (N.of_nat i))) <$> seq 0 (N.to_nat n).

(** Node [i] on its file and the nodes' `ip` file: it binds every interface,
    and keeps its port. *)
Lemma boot_ok m g i c f d sleep :
  host_ok → (g_num_nodes g < u16_size)%N → (i < g_num_nodes g)%N → cluster_node g i c →
  m !! "config" = Some (conf_path g ("nodes-" +:+ pretty i) "json") → m !! "store" = None →
  m !! "ip" = Some f → file_to_ips f = Some (listing (g_base_port g) (g_num_nodes g)) →
  read_node JSON (conf_path g ("nodes-" +:+ pretty i) "json") = Some c →
  override m "delta" (delta c) = Ok d → override m "sleep" (add64 5 (num_nodes c)) = Ok sleep →
  ∃ b nets, boot m = Ok b ∧
    booted (g_base_port g) (g_client_base_port g) (g_num_nodes g) i
      (any_addr (add16 (g_base_port g) i)) b ∧
    s_sleep_time (b_setup b) = sleep ∧
    s_config (b_setup b) = c <| delta := d |> <| net_map := nets |>.
Proof.
  intros Hok Hsz Hi (Hid & Hv & Hn & Hp & Hnet & _) Hc Hsto Hip Hf Hr Hd Hsl.
  destruct (node_update_addrs (λ r, add16 (g_base_port g) r) (N.to_nat (g_num_nodes g)) 0
    (c <| delta := d |>)) as (c2 & E2 & Ec2 & Hnet2); [intros; by apply N.mod_lt|lia|].
  destruct (node_setup_ok m g ("nodes-" +:+ pretty i) c d sleep c2) as [path Es]; try done.
  - rw all_chars_app free_pretty //; lia.
  - unfold apply_ips. rw Hip Hf. simpl. by rw E2.
  - assert (id c2 = i) as Hid2 by (rw Ec2; exact Hid).
    assert (client_port c2 = add16 (g_client_base_port g) i) as Hp2 by (rw Ec2; exact Hp).
    assert (∀ r, net_map c2 !! r = if (r <? g_num_nodes g)%N then
      Some (if (r =? i)%N then "0.0.0.0:" +:+ pretty (add16 (g_base_port g) r)
            else local_addr (add16 (g_base_port g) r))
      else None) as Hnet3.
    { intros r. rw Hnet2 N2Nat.id N.add_0_l (proj2 (N.leb_le 0 r) (N.le_0_l r)) /= Hid.
      destruct (r <? g_num_nodes g)%N eqn:Er; [done|]. etrans; [apply Hnet|]. by rw Er. }
    destruct (boot_setup _ _ (g_base_port g) (g_client_base_port g) (g_num_nodes g)
      (any_addr (add16 (g_base_port g) i)) Hok Es) as (b & Eb & Hbo & Eset); simpl.
    + intros r Hr'. rw Hnet3. rw Hid2 in Hr'. apply N.eqb_neq in Hr' as ->. done.
    + unfold my_ip. rw Hid2 Hnet3 N.eqb_refl. apply N.ltb_lt in Hi as ->.
      apply parse_any_addr. by apply N.mod_lt.
    + by rw Hp2 Hid2.
    + exists b, (net_map c2). simpl in Hbo. rw Hid2 in Hbo. split; [done|]. split; [done|].
      rw Eset. split; [done|exact Ec2].
Qed.

(** The Sync HotStuff and Opt Sync nodes also reach every client. *)
Lemma window_boot_ok g i c b m d nets :
  host_ok → cluster_node g i c → (0 < g_blocksize g)%N → boot m = Ok b →
  s_config (b_setup b) = c <| delta := d |> <| net_map := nets |> →
  ∃ clients sealer, window_boot m = Ok (b, clients, sealer) ∧
    endpoints (g_client_listen_port g) (g_num_clients g) clients ∧
    threshold sealer = N.to_nat (g_blocksize g).
Proof.
  intros [_ Htls] (_ & _ & _ & _ & _ & Hcl & Hbs & _) Hpos E Ec. unfold window_boot. rw E /= Ec.
  destruct (addresses_parse _ _ _ Hcl) as (clients & Ecl & Hends). simpl. rw Ecl. simpl.
  destruct (Htls (my_cert_path c) (my_cert_key_path c)) as [[] ->]. simpl. rw Hbs.
  unfold CountSealer_new. assert ((0 <? N.to_nat (g_blocksize g))%nat = true) as ->
    by (apply Nat.ltb_lt; lia). eexists _, _. by split.
Qed.

(** Client [j] on its file and the intakes' `ip` file. *)
Lemma client_setup_ok m g j (c : Client) f :
  (g_num_nodes g < u16_size)%N → cluster_client g j c →
  m !! "config" = Some (conf_path g ("client-" +:+ pretty j) "json") →
  m !! "ip" = Some f → file_to_ips f = Some (listing (g_client_base_port g) (g_num_nodes g)) →
  read_client JSON (conf_path g ("client-" +:+ pretty j) "json") = Some c →
  ∃ c' : Client, client_setup m = Ok c' ∧ c_my_id c' = j ∧
    c_my_listen_addr c' = local_addr (add16 (g_client_listen_port g) j) ∧
    addresses (g_client_base_port g) (g_num_nodes g) (c_net_map c').
Proof.
  intros Hsz (Hid & Hv & Hnet & Hla) Hc Hip Hf Hr.
  destruct (client_update_addrs (λ r, add16 (g_client_base_port g) r) (N.to_nat (g_num_nodes g)) 0 c)
    as [Ec2 Hnet2]; [lia|]. set (c2 := client_update_config _ _ _) in *. exists c2.
  assert (free 47 ("client-" +:+ pretty j) = true) as Hfree by (rw all_chars_app free_pretty //; lia).
  split; [|split; [by rw Ec2|split; [by rw Ec2|]]].
  - unfold client_setup. rw (load_ok read_client m g ("client-" +:+ pretty j) c) //.
    simpl. by rw Hv Hip Hf.
  - intros r. rw Hnet2 N2Nat.id N.add_0_l (proj2 (N.leb_le 0 r) (N.le_0_l r)) /=.
    destruct (r <? g_num_nodes g)%N eqn:Er; [done|]. etrans; [apply Hnet|]. by rw Er.
Qed.

Lemma cmd_line_look conf ips :
  let m := cmd_line conf ips in
  m !! "config" = Some conf ∧ m !! "ip" = Some ips ∧
  ∀ k, k ≠ "config" → k ≠ "ip" → m !! k = None.
Proof.
  cbv zeta. split; [by rw lookup_insert_ne // lookup_singleton_eq|]. split; [by rw lookup_insert_eq|].
  intros k H1' H2'. rw lookup_insert_ne // lookup_singleton_ne //.
Qed.

Lemma client_boot_ok g j (c : Client) f :
  (g_num_nodes g < u16_size)%N → cluster_client g j c →
  file_to_ips f = Some (listing (g_client_base_port g) (g_num_nodes g)) →
  read_client JSON (client_file g j) = Some c →
  let args := cmd_line (client_file g j) f in
  (∃ st, keyed_client args = Ok (st, 100%N) ∧ KeyedClient.my_client_id st = j ∧
    KeyedClient.reply_to st = loopback (add16 (g_client_listen_port g) j) ∧
    endpoints (g_client_base_port g) (g_num_nodes g) (KeyedClient.peer_map st)) ∧
  (∀ start, ∃ st, window_client args start = Ok st ∧
    endpoints (g_client_base_port g) (g_num_nodes g) (WindowClient.peer_map st)).
Proof.
  intros Hsz Hcl Hf Hr args. destruct (cmd_line_look (client_file g j) f) as (L1 & L2 & L3).
  fold args in L1, L2, L3.
  destruct (client_setup_ok args g j c f Hsz Hcl L1 L2 Hf Hr) as (c' & Hs & Hid & Hla & Hnet).
  destruct (addresses_parse _ _ _ Hnet) as (peers & Ep & Hends).
  unfold keyed_client, window_client. rw Hs /=. unfold txs_per_burst, arg_or. rw !L3 //.
  split; [|intros start].
  - cbn -[parse_uint parse_u64]. unfold KeyedClient.init. rw Ep /= Hla parse_local /=.
    eexists. split; [reflexivity|]. by rw /= Hid.
  - cbn -[parse_uint parse_u64]. unfold WindowClient.init. rw Ep /= Hla parse_local /=.
    eexists. by split.
Qed.

(** Every binary boots from its generated file and the `ip` file: node [i] is
    node [i], binds `base_port+i` on all interfaces, knows exactly the other
    nodes, each at the loopback address of the port that node binds, and opens
    its intake on the port every client sends node [i]'s transactions to; the
    Sync HotStuff and Opt Sync nodes send to client [j] at the address that
    client [j] asks its replies at. *)
Definition cluster_boots g (ips cli_ips : string) : Prop :=
  (∀ i, (i < g_num_nodes g)%N → ∃ b clients sealer,
     let args := cmd_line (node_file g i) ips in
     boot args = Ok b ∧
     booted (g_base_port g) (g_client_base_port g) (g_num_nodes g) i
       (any_addr (add16 (g_base_port g) i)) b ∧
     window_boot args = Ok (b, clients, sealer) ∧
     endpoints (g_client_listen_port g) (g_num_clients g) clients) ∧
  (∀ j, (j < g_num_clients g)%N →
     let args := cmd_line (client_file g j) cli_ips in
     (∃ st, keyed_client args = Ok (st, 100%N) ∧ KeyedClient.my_client_id st = j ∧
        KeyedClient.reply_to st = loopback (add16 (g_client_listen_port g) j) ∧
        endpoints (g_client_base_port g) (g_num_nodes g) (KeyedClient.peer_map st)) ∧
     (∀ start, ∃ st, window_client args start = Ok st ∧
        endpoints (g_client_base_port g) (g_num_nodes g) (WindowClient.peer_map st))).

Lemma boot_cmd g i c ips :
  host_ok → (g_num_nodes g < u16_size)%N → (i < g_num_nodes g)%N → cluster_node g i c →
  file_to_ips ips = Some (listing (g_base_port g) (g_num_nodes g)) →
  read_node JSON (node_file g i) = Some c →
  ∃ b nets, boot (cmd_line (node_file g i) ips) = Ok b ∧
    booted (g_base_port g) (g_client_base_port g) (g_num_nodes g) i
      (any_addr (add16 (g_base_port g) i)) b ∧
    s_config (b_setup b) = c <| delta := delta c |> <| net_map := nets |>.
Proof.
  intros Hok Hsz Hi Hnode Hf Hr. destruct (cmd_line_look (node_file g i) ips) as (L1 & L2 & L3).
  destruct (boot_ok (cmd_line (node_file g i) ips) g i c ips (delta c) (add64 5 (num_nodes c))
    Hok Hsz Hi Hnode L1) as (b & nets & Eb & Hbo & _ & Ec); try done.
  by exists b, nets.
Qed.

(** On a host where the files read back as they were written, a sound command
    line (fewer than 2^16 nodes, fewer than half of them faulty, an algorithm
    with keys) in the json format gives a cluster that boots, with `ip` files
    that list the nodes and their intakes. *)
Theorem genconfig_files_boot (m : Args) g root :
  parse_args m = Ok g → sound g → (g_num_nodes g < u16_size)%N → root_cert = Some root →
  (∀ name sans, is_Some (signed_cert name sans)) → host_ok →
  g_out g = "json" → (0 < g_blocksize g)%N →
  ∃ files, genconfig m [] = Done (Some tt) files ∧ (reads files → ∀ ips cli_ips,
    file_to_ips ips = Some (listing (g_base_port g) (g_num_nodes g)) →
    file_to_ips cli_ips = Some (listing (g_client_base_port g) (g_num_nodes g)) →
    cluster_boots g ips cli_ips).
Proof.
  intros Ha Hs Hsz Hr Hc Hst Ho Hb.
  destruct (genconfig_cluster m g root [] Ha Hs Hr Hc) as (files & E & Hf).
  exists files. split; [done|]. intros Hread ips cli_ips Hips Hcli.
  destruct (Hf JSON "json") as [Hn Hcl]; [by rw Ho|]. split.
  - intros i Hi. destruct (Hn i Hi) as (c & Hnode & Hin).
    destruct (boot_cmd g i c ips Hst Hsz Hi Hnode Hips) as (b & nets & Eb & Hbo & Ec);
      [by apply (Hread _ _)|].
    destruct (window_boot_ok g i c b _ _ nets Hst Hnode Hb Eb Ec) as (clients & sealer & Ew & Hends & _).
    by exists b, clients, sealer.
  - intros j Hj. destruct (Hcl j Hj) as (c & Hclient & Hin).
    apply (client_boot_ok g j c cli_ips Hsz Hclient Hcli). by apply (Hread _ _).
Qed.
End generated.

(** ** A cluster, from its command line to its sockets *)
Module LaunchExamples.
Import Toy ToyFormat GenExamples.

(** A disk that holds [files]. *)
Definition find_file (files : list File) (ft : FileType) (path : string) : option ConfFile :=
  file_conf ∘ snd <$> list_find (λ f, file_path f = path ∧ file_type f = ft) files.

Lemma find_file_in files f :
  NoDup (file_path <$> files) → f ∈ files →
  find_file files (file_type f) (file_path f) = Some (file_conf f).
Proof.
  intros Hnd [i Hi]%list_elem_of_lookup. unfold find_file.
  assert (list_find (λ f', file_path f' = file_path f ∧ file_type f' = file_type f) files
    = Some (i, f)) as ->; [|done].
  apply list_find_Some. split; [done|]. split; [done|]. intros j f' Hj Hlt [Ep _].
  assert (i = j); [|lia]. eapply NoDup_lookup; [exact Hnd|..]; rw list_lookup_fmap.
  - by rw Hi.
  - by rw Hj /= Ep.
Qed.

Definition disk : list File := match genconfig cmd [] with Done _ files => files | _ => [] end.
#[export] Instance disk_host : Host := {
  read_node ft path := find_file disk ft path ≫= λ f,
    match f with NodeFile c => Some c | ClientFile _ => None end;
  read_client ft path := find_file disk ft path ≫= λ f,
    match f with ClientFile c => Some c | NodeFile _ => None end;
  read_text path := if bool_decide (path = "ips") then Some "10.0.0.1:4000
 10.0.0.2:4001
10.0.0.3:4002
" else if bool_decide (path = "local") then Some "127.0.0.1:4000
127.0.0.1:4001
127.0.0.1:4002
" else if bool_decide (path = "intakes") then Some "127.0.0.1:10000
127.0.0.1:10001
127.0.0.1:10002
" else None;
  open_store path := Some ∅;
  tls_sender chain key := Some tt;
}.

Lemma disk_reads : reads disk.
Proof.
  assert (NoDup (file_path <$> disk)) as Hnd by (apply (bool_decide_unpack _); vm_compute; exact I).
  intros path ft. split; intros c Hin; pose proof (find_file_in disk _ Hnd Hin) as E;
    cbn [file_type file_path file_conf] in E; cbn [read_node read_client disk_host]; by rw E.
Qed.

Lemma disk_ok : host_ok.
Proof. by split; intros; eexists. Qed.

Lemma generated_node_boots :
  ∃ b clients sealer, window_boot (cmd_line "tc/nodes-2.json" "local") = Ok (b, clients, sealer) ∧
    b_listen b = any_addr 4002 ∧ b_peers b !! 1%N = Some (loopback 4001) ∧ b_peers b !! 2%N = None.
Proof.
  destruct (genconfig_files_boot cmd cmd_args "/tc/root-cert.pem" cmd_parses cmd_sound eq_refl eq_refl)
    as (files & E & H); [by intros; eexists|exact disk_ok|reflexivity|reflexivity|].
  assert (files = disk) as -> by (unfold disk; by rw E).
  destruct (H disk_reads "local" "intakes") as [Hn _]; [vm_compute; reflexivity..|].
  destruct (Hn 2%N) as (b & clients & sealer & _ & [_ Hl Hp _] & Hw & _); [reflexivity|].
  exists b, clients, sealer. split; [exact Hw|]. split; [exact Hl|].
  split; [exact (Hp 1%N)|exact (Hp 2%N)].
Qed.

(** Without the `ip` file no binary starts. *)
Example ip_is_required :
  boot {["config" := "tc/nodes-0.json"]} =
    Err "The following required arguments were not provided:" ∧
  keyed_client {["config" := "tc/client-0.json"]} =
    Err "The following required arguments were not provided:".
Proof. vm_compute. split; reflexivity. Qed.

(** With an `ip` file the node's own entry keeps only its port; the others
    are taken as they are. *)
Example ips_are_applied :
  match node_setup (<["ip" := "ips"]> {["config" := "tc/nodes-1.json"]}) with
  | Ok s => (map_to_list (net_map (s_config s)), s_sleep_time s, s_rocksdb_path s)
  | Err _ => ([], 0%N, "")
  end = ([(2%N, "10.0.0.3:4002"); (1%N, "0.0.0.0:4001"); (0%N, "10.0.0.1:4000")], 8%N,
         "tc/node-1.rocksdb").
Proof. vm_compute. reflexivity. Qed.

(** genconfig's yaml files end in `.yml`; no binary takes that extension. *)
Example yml_is_refused :
  boot (cmd_line "tc/nodes-0.yml" "local") = Err "Invalid config file extension" ∧
  keyed_client (cmd_line "tc/client.yml" "intakes") = Err "Invalid config file extension".
Proof. vm_compute. split; reflexivity. Qed.

(** A rate is spread over the bursts; a rate below one transaction per burst
    still sends one. *)
Example rates :
  ((λ r, txs_per_burst {["rate" := r]} 100) <$> ["5000"; "1"; "0"]) = [Ok 500%N; Ok 1%N; Ok 1000%N].
Proof. vm_compute. reflexivity. Qed.
End LaunchExamples.
