(* ===== verification/Widths.v ===== *)
(** * Machine widths of the configurations

    The model keeps a `u16` or a `usize` as an [N].  Here every integer of a
    configuration is shown to stay within the width the source gives it, from
    the arguments genconfig parses (tools/genconfig/src/main.rs) to the
    configuration a node or a client starts with (examples/*/main.rs). *)

From stdpp Require Import pretty.
From S2P Require Import Prelude Crypto Types Text Config GenConfig Launch.

(** ** The declared types: config/src/node.rs, config/src/client.rs *)
Definition u16 (x : N) : Prop := (x < u16_size)%N.
Definition u64 (x : N) : Prop := (x < u64_size)%N.
(** `HashMap<u16, A>`. *)
Definition u16_keys {A} (m : gmap N A) : Prop := map_Forall (λ k _, u16 k) m.

Record node_typed (c : Node) : Prop := {
  nt_net_map : u16_keys (net_map c);
  nt_mempool_net_map : u16_keys (mempool_net_map c);
  nt_client_net_map : u16_keys (client_net_map c);
  nt_delta : u64 (delta c);
  nt_id : u16 (id c);
  nt_num_nodes : u64 (num_nodes c);
  nt_num_faults : u64 (num_faults c);
  nt_block_size : u64 (block_size c);
  nt_client_port : u16 (client_port c);
  nt_mempool_port : u16 (mempool_port c);
  nt_payload : u64 (payload_size c);
  nt_window : u64 (bench_emit_window_secs c);
  nt_metrics_node : u16 (bench_metrics_node c);
  nt_pk_map : u16_keys (pk_map c);
}.
Record client_typed (c : Client) : Prop := {
  ct_net_map : u16_keys (c_net_map c);
  ct_server_pk : u16_keys (c_server_pk c);
  ct_num_nodes : u64 (c_num_nodes c);
  ct_num_faults : u64 (c_num_faults c);
  ct_block_size : u64 (c_block_size c);
  ct_payload : u64 (c_payload c);
  ct_my_id : u16 (c_my_id c);
}.
Definition file_typed (f : File) : Prop :=
  match file_conf f with NodeFile c => node_typed c | ClientFile c => client_typed c end.

(** ** Arithmetic stays in range *)
Create HintDb widths.
Lemma as_u16_typed x : u16 (as_u16 x).
Proof. apply N.mod_lt. done. Qed.
Lemma wrap64_typed x : u64 (wrap64 x).
Proof. apply N.mod_lt. done. Qed.
Lemma parse_uint_typed size s n : (0 < size)%N → parse_uint size s = Some n → (n < size)%N.
Proof.
  intros Hs. assert (∀ s acc, (acc < size)%N → parse_digits size s acc = Some n → (n < size)%N) as Hd.
  { clear s. induction s as [|a s IH]; intros acc Ha; simpl; [by intros [= <-]|].
    destruct (to_digit 10 a) as [d|]; [|done].
    destruct (_ <? size)%N eqn:E; [|done]. apply IH. by apply N.ltb_lt. }
  unfold parse_uint. destruct s as [|a s]; [done|].
  destruct (is_char 43 a); [destruct s; [done|]|]; by apply Hd.
Qed.
Lemma parse_u16_typed s n : parse_u16 s = Some n → u16 n.
Proof. by apply parse_uint_typed. Qed.
Lemma parse_u64_typed s n : parse_u64 s = Some n → u64 n.
Proof. by apply parse_uint_typed. Qed.
Lemma u16_keys_insert {A} k (v : A) m : u16 k → u16_keys m → u16_keys (<[k := v]> m).
Proof. intros Hk Hm. by apply map_Forall_insert_2. Qed.
Lemma u16_keys_empty {A} : u16_keys (∅ : gmap N A).
Proof. apply map_Forall_empty. Qed.
Lemma u16_keys_fill {A} (f : N → option A) (l : list N) (m : gmap N A) :
  u16_keys m →
  u16_keys (foldl (λ m i, match f i with Some a => <[as_u16 i := a]> m | None => m end) m l).
Proof.
  revert m. induction l as [|i l IH]; intros m Hm; [done|]. simpl. apply IH.
  destruct (f i); [|done]. apply u16_keys_insert; [apply as_u16_typed|done].
Qed.
Lemma index_map_typed {A} n (f : N → A) : u16_keys (index_map n f).
Proof. apply (u16_keys_fill (λ i, Some (f i))), u16_keys_empty. Qed.
#[export] Hint Resolve as_u16_typed wrap64_typed parse_u16_typed parse_u64_typed index_map_typed
  u16_keys_empty : widths.

(** ** Results *)
Lemma bind_ok {E A B} (r : result E A) (f : A → result E B) b :
  r ≫= f = Ok b → ∃ a, r = Ok a ∧ f a = Ok b.
Proof. destruct r as [a|]; [|done]. by exists a. Qed.
Lemma expect_ok {A} why (o : option A) a : expect why o = Ok a → o = Some a.
Proof. by destruct o as [?|]; [intros [= ->]|]. Qed.
Lemma required_ok parse m name n : required parse m name = Ok n → ∃ v, parse v = Some n.
Proof. intros (v & _ & ?%expect_ok)%bind_ok. eauto. Qed.

(** One `let` of a parser. *)
Ltac step_ok H x Hx := apply bind_ok in H as (x & Hx & H).
Ltac typed := eauto with widths.

(** ** genconfig *)
Record args_typed (g : GenArgs) : Prop := {
  at_nodes : u64 (g_num_nodes g);
  at_faults : u64 (g_num_faults g);
  at_delay : u64 (g_delay g);
  at_blocksize : u64 (g_blocksize g);
  at_payload : u64 (g_payload g);
  at_clients : u16 (g_num_clients g);
}.

Section widths.
Context `{KeyTools}.

Lemma parse_args_typed m g : parse_args m = Ok g → args_typed g.
Proof.
  unfold parse_args. intros E.
  step_ok E n Hn. step_ok E fl Hf. step_ok E d Hd. step_ok E bp Hbp. step_ok E bs Hbs. step_ok E cb Hcb.
  cbv zeta in E. step_ok E t Ht. step_ok E p Hp. step_ok E cl Hcl. step_ok E mb Hmb. step_ok E nc Hnc.
  destruct (nc =? 0)%N; [done|]. injection E as <-.
  apply required_ok in Hn as [? Hn], Hd as [? Hd], Hbs as [? Hbs]. apply expect_ok in Hp, Hnc.
  split; simpl; [typed| |typed..].
  destruct (m !! "num_faults"); [apply expect_ok in Hf; typed|]. injection Hf as <-.
  pose proof (wrap64_typed (n + (u64_size - wrap64 1))). unfold u64, sub64 in *.
  eapply N.le_lt_trans; [|done]. apply N.Div0.div_le_upper_bound. lia.
Qed.

Lemma pk_map_typed g : u16_keys (pk_map_of g).
Proof.
  unfold pk_map_of. generalize (indices (g_num_nodes g)). intros l.
  assert (∀ m : gmap N bytes, u16_keys m → u16_keys (foldl (λ m i,
    match keys_of (g_algorithm g) i with Some (pk, _) => <[as_u16 i := pk]> m | None => m end) m l)) as Hl;
    [|apply Hl, u16_keys_empty].
  induction l as [|i l IH]; intros m Hm; [done|]. simpl. apply IH.
  destruct (keys_of _ _) as [[]|]; [|done]. apply u16_keys_insert; typed.
Qed.

Lemma gen_node_typed g root i cert : args_typed g → node_typed (gen_node g root i cert).
Proof.
  intros []. pose proof (pk_map_typed g). unfold gen_node, ip_map, mempool_ip_map, client_net, add16.
  destruct (keys_of _ _) as [[]|]; split; simpl; typed; done.
Qed.
Lemma gen_client_typed g root j cert : args_typed g → (j < g_num_clients g)%N →
  client_typed (gen_client g root j cert).
Proof.
  intros [] Hj. pose proof (pk_map_typed g). unfold gen_client, client_target_map.
  split; simpl; typed; try done. by eapply N.lt_trans.
Qed.

Lemma keeps_for_each_in {S A} (I : S → Prop) (xs : list A) body :
  (∀ x, x ∈ xs → keeps I (body x)) → keeps I (for_each xs body).
Proof.
  induction xs as [|x xs IH]; intros Hb; simpl; [apply keeps_ret|].
  apply keeps_bind; [apply Hb; constructor|]. intros _. apply IH. intros y Hy. apply Hb. by constructor.
Qed.
Lemma write_conf_typed g stem c :
  file_typed (mkFile "" JSON c) → keeps (Forall file_typed) (write_conf g stem c).
Proof.
  intros Hc. apply keeps_modify. intros fs Hfs. destruct (out_format _) as [[ft ext]|]; [|done].
  apply Forall_app. split; [done|]. by apply Forall_singleton.
Qed.
Lemma check_conf_keeps {E} I why (r : result E unit) : keeps I (check_conf why r).
Proof. destruct r; simpl; auto with keeps. Qed.

Lemma write_files_typed g nodes clients :
  Forall (λ ic, node_typed ic.2) nodes → Forall (λ jc, client_typed jc.2) clients →
  keeps (Forall file_typed) (write_files g nodes clients).
Proof.
  rw !Forall_forall. intros Hn Hc. unfold write_files, write_node, write_client.
  apply keeps_bind; [|intros _; apply keeps_bind; [|intros _]].
  - apply keeps_for_each_in. intros ic Hic. apply keeps_bind; [by apply write_conf_typed, Hn|].
    intros _. apply check_conf_keeps.
  - apply keeps_for_each_in. intros jc Hjc. apply keeps_bind; [by apply write_conf_typed, Hc|].
    intros _. apply check_conf_keeps.
  - destruct clients as [|c0 clients]; [by intros fs a fs' _|].
    intros fs a fs' Hfs E. refine (write_conf_typed _ _ _ _ fs a fs' Hfs E). apply Hc. constructor.
Qed.

Lemma certs_for_indices kind sans idxs ids : certs_for kind sans idxs = Some ids → ids.*1 = idxs.
Proof.
  unfold certs_for. revert ids. induction idxs as [|i idxs IH]; intros ids; simpl; [by intros [= <-]|].
  destruct (signed_cert _ _) as [c|]; [|done]. simpl. destruct (mapM _ _) as [cs|] eqn:E; [|done].
  simpl. intros [= <-]. simpl. f_equal. by apply IH.
Qed.

Lemma genconfig_typed m : keeps (Forall file_typed) (genconfig m).
Proof.
  intros fs a fs' Hfs. unfold genconfig. destruct (parse_args m) as [g|] eqn:Eg; [|done].
  apply parse_args_typed in Eg. destruct (root_cert) as [root|]; [simpl|by intros [= <- <-]].
  destruct (certs_for "node" _ _) as [ns|]; [simpl|by intros [= <- <-]].
  destruct (certs_for "client" _ _) as [cs|] eqn:Ec; [simpl|by intros [= <- <-]].
  apply certs_for_indices in Ec. revert Hfs. apply keeps_bind; [|intros; apply keeps_ret].
  apply write_files_typed; apply Forall_fmap, Forall_forall; intros [i c] Hi; simpl.
  - by apply gen_node_typed.
  - apply gen_client_typed; [done|]. apply elem_of_indices. rw -Ec. apply list_elem_of_fmap. by exists (i, c).
Qed.
End widths.

(** ** The binaries *)
Section binaries.
Context `{Host}.

Lemma node_update_typed idx ips c c' a :
  u16 idx → node_typed c → node_update_config idx ips c = Done a c' → node_typed c'.
Proof.
  revert idx c. induction ips as [|ip ips IH]; intros idx c Hi Hc; simpl; [by intros [= <- <-]|].
  unfold node_update_one. destruct (idx =? id c)%N; [destruct (parse_u16 _) as [port|]; [|done]|].
  - intros E. eapply IH; [| |exact E]; [typed|].
    destruct Hc; split; try done. by apply u16_keys_insert.
  - intros E. eapply IH; [| |exact E]; [typed|].
    destruct Hc; split; try done. by apply u16_keys_insert.
Qed.
Lemma client_update_typed idx ips c :
  u16 idx → client_typed c → client_typed (client_update_config idx ips c).
Proof.
  revert idx c. induction ips as [|ip ips IH]; intros idx c Hi Hc; simpl; [done|].
  apply IH; [typed|]. destruct Hc; split; try done. by apply u16_keys_insert.
Qed.

Lemma override_typed m name d n : u64 d → override m name d = Ok n → u64 n.
Proof.
  intros Hd. unfold override. destruct (m !! name); [intros ?%expect_ok; typed|]. by intros [= <-].
Qed.
Lemma load_reads {A} (read : FileType → string → option A) m p :
  load read m = Ok p → ∃ ft, read ft p.1 = Some p.2.
Proof.
  unfold load. intros E. step_ok E u Eu. step_ok E s Es. step_ok E ext Ee. step_ok E ft Ef. step_ok E c Ec.
  injection E as <-. apply expect_ok in Ec. eauto.
Qed.

Lemma node_setup_typed m s :
  (∀ ft path c, read_node ft path = Some c → node_typed c) → node_setup m = Ok s →
  node_typed (s_config s) ∧ u64 (s_sleep_time s).
Proof.
  intros Hr. unfold node_setup. intros E. step_ok E p Hp. destruct p as [conf_str c].
  apply load_reads in Hp as [ft Hp]. apply Hr in Hp. step_ok E d Hd. cbv zeta in E. step_ok E sl Hsl.
  step_ok E v Hv. step_ok E c' Hc'. step_ok E path Hpath. injection E as <-. simpl.
  apply override_typed in Hd; [|apply Hp]. apply override_typed in Hsl; [|apply wrap64_typed]. split; [|done].
  assert (node_typed (c <| delta := d |>)) as Hc by (destruct Hp; by split). revert Hc'. unfold apply_ips.
  destruct (m !! "ip"); [|by intros [= <-]]. intros E. step_ok E ips Hips.
  destruct (node_update_config _ _ _) as [a c1| |] eqn:Eu; [|done..]. injection E as <-.
  eapply node_update_typed; [|exact Hc|exact Eu]. done.
Qed.
Lemma client_setup_typed m c :
  (∀ ft path c, read_client ft path = Some c → client_typed c) → client_setup m = Ok c → client_typed c.
Proof.
  intros Hr. unfold client_setup. intros E. step_ok E p Hp. destruct p as [conf_str c0].
  apply load_reads in Hp as [ft Hp]. apply Hr in Hp. step_ok E v Hv.
  destruct (m !! "ip"); [|by injection E as <-]. step_ok E ips Hips. injection E as <-.
  by apply client_update_typed.
Qed.
End binaries.

(** Every integer of a configuration fits the type the source declares
    for it (`u16` ports, replicas and client ids, `u64` and `usize` the rest):
    in every file genconfig writes, whatever the command line, and, provided
    the files on the host do, in the configuration that a node's or a client's
    main arrives at after the overrides of its command line and of the `ip`
    file. *)
Theorem configurations_typed `{KeyTools} `{Host} (m : Args) :
  (∀ files files' r, Forall file_typed files → genconfig m files = Done r files' →
     Forall file_typed files') ∧
  ((∀ ft path c, read_node ft path = Some c → node_typed c) →
     ∀ s, node_setup m = Ok s → node_typed (s_config s) ∧ u64 (s_sleep_time s)) ∧
  ((∀ ft path c, read_client ft path = Some c → client_typed c) →
     ∀ c, client_setup m = Ok c → client_typed c).
Proof.
  split; [|split].
  - intros files files' r Hf E. by eapply genconfig_typed.
  - intros Hr s. by apply node_setup_typed.
  - intros Hr c. by apply client_setup_typed.
Qed.

Module WidthsExamples.
Import Toy ToyFormat GenExamples LaunchExamples.

Lemma typed_disk : Forall file_typed disk.
Proof.
  unfold disk. destruct (genconfig cmd []) as [r files| |] eqn:E; [|constructor..].
  by eapply (genconfig_typed cmd).
Qed.
Lemma find_file_elem files ft path c : find_file files ft path = Some c → ∃ f, f ∈ files ∧ file_conf f = c.
Proof.
  unfold find_file. destruct (list_find _ _) as [[i f]|] eqn:E; [|done]. intros [= <-].
  apply list_find_Some in E as (Hi & _). exists f. split; [by eapply list_elem_of_lookup_2|done].
Qed.

(** A node of the example cluster with an `ip` file, and a client. *)
Lemma configurations_typed_witness :
  Forall file_typed disk ∧
  ∃ s, node_setup (<["ip" := "ips"]> {["config" := "tc/nodes-1.json"]}) = Ok s ∧ node_typed (s_config s).
Proof.
  split.
  - destruct (configurations_typed cmd) as [Hg _]. apply (Hg [] disk (Some tt)); [constructor|].
    vm_compute. reflexivity.
  - destruct (configurations_typed (<["ip" := "ips"]> {["config" := "tc/nodes-1.json"]})) as (_ & Hn & _).
    eexists. split; [vm_compute; reflexivity|]. apply Hn; [|vm_compute; reflexivity].
    intros ft path c. cbn [read_node disk_host]. destruct (find_file disk ft path) as [f|] eqn:E; [|done].
    simpl. destruct f as [c'|c']; [intros [= <-]|done]. apply find_file_elem in E as (f & Hf & Ef).
    pose proof typed_disk as Ht. rw Forall_forall in Ht. specialize (Ht f Hf). unfold file_typed in Ht.
    rw Ef in Ht. exact Ht.
Defined.
End WidthsExamples.
