(* ===== verification/Disk.v ===== *)
(** * Configuration files and certificates on the disk

    genconfig (GenConfig.v) and the mains (Launch.v) meet on the file system.
    Here the files are bytes: the writers of util/src/io.rs, the readers of
    config/src/node.rs and config/src/client.rs, the certificates genconfig
    builds with openssl, and `main` of genconfig with every file it writes.
    serde's formats and openssl are class parameters. *)

From Stdlib Require Import Ascii.
From stdpp Require Import pretty.
From S2P Require Import Prelude Crypto Types Text Config GenConfig Launch.

(** ** Files *)
Abbreviation FS := (gmap string bytes).

(** Where a file can be created, the directory too, and what a path is called
    once symbolic links are resolved. *)
Class HostDisk := {
  creatable : string → bool;
  create_dir_all : string → bool;
  canonicalize : string → option string;
}.

(** serde_json, bincode, toml and serde_yaml on one type.  A `String` is its
    UTF-8 bytes. *)
Class Serde (A : Type) := {
  to_vec_pretty : A → option bytes;
  json_from_reader : bytes → option A;
  bincode_serialize : A → option bytes;
  bincode_deserialize : bytes → option A;
  to_string_pretty : A → option bytes;
  toml_from_str : bytes → option A;
  yaml_to_writer : A → option bytes;
  yaml_from_reader : bytes → option A;
  is_utf8 : bytes → bool;
}.

(** What a format writes it reads back; text is UTF-8. *)
Class SerdeLaws A `{Serde A} := {
  json_back c bs : to_vec_pretty c = Some bs → json_from_reader bs = Some c;
  bincode_back c bs : bincode_serialize c = Some bs → bincode_deserialize bs = Some c;
  toml_back c bs : to_string_pretty c = Some bs → is_utf8 bs = true ∧ toml_from_str bs = Some c;
  yaml_back c bs : yaml_to_writer c = Some bs → yaml_from_reader bs = Some c;
}.

(** json, bincode and yaml write every value; toml does not (a map with
    numeric keys is an error there, `KeyNotString`). *)
Class SerdeTotal A `{Serde A} := {
  json_writes c : is_Some (to_vec_pretty c);
  bincode_writes c : is_Some (bincode_serialize c);
  yaml_writes c : is_Some (yaml_to_writer c);
}.

Section io.
Context `{HostDisk} {A : Type} `{Serde A}.

(** *** util/src/io.rs

    `File::create` empties the file, then the encoding is written; whatever
    goes wrong is unwrapped. *)
Definition file_create (filename : string) : M FS unit :=
  if creatable filename then modify (insert filename []) else panic "File::create".
Definition write_all (filename : string) (bytes : bytes) : M FS unit :=
  modify (insert filename bytes).

Definition write_json (filename : string) (obj : A) : M FS unit :=
  file_create filename;;;
  let! bytes := unwrap "to_vec_pretty" (to_vec_pretty obj) in
  write_all filename bytes.
Definition write_bin (filename : string) (obj : A) : M FS unit :=
  file_create filename;;;
  let! bytes := unwrap "Failed to serialize object" (bincode_serialize obj) in
  write_all filename bytes.
Definition write_toml (filename : string) (obj : A) : M FS unit :=
  file_create filename;;;
  let! bytes := unwrap "to_string_pretty" (to_string_pretty obj) in
  write_all filename bytes.
Definition write_yaml (filename : string) (obj : A) : M FS unit :=
  file_create filename;;;
  let! bytes := unwrap "to_writer" (yaml_to_writer obj) in
  write_all filename bytes.

(** *** config/src/node.rs, config/src/client.rs; [None] is a panic. *)
Definition file_open (fs : FS) (filename : string) : option bytes := fs !! filename.

Definition from_json (fs : FS) (filename : string) : option A :=
  f ← file_open fs filename; json_from_reader f.
Definition from_toml (fs : FS) (filename : string) : option A :=
  f ← file_open fs filename;
  if is_utf8 f then toml_from_str f else None.
Definition from_yaml (fs : FS) (filename : string) : option A :=
  f ← file_open fs filename; yaml_from_reader f.
Definition from_bin (fs : FS) (filename : string) : option A :=
  f ← file_open fs filename; bincode_deserialize f.

(** `to_bytes` of util/src/io.rs; [None] is a panic. *)
Definition to_bytes (obj : A) : option bytes := bincode_serialize obj.

(** The writer and the reader of a format. *)
Definition write_as (ft : FileType) : string → A → M FS unit :=
  match ft with JSON => write_json | BIN => write_bin | TOML => write_toml | YAML => write_yaml end.
Definition read_as (ft : FileType) (fs : FS) : string → option A :=
  match ft with JSON => from_json fs | BIN => from_bin fs | TOML => from_toml fs | YAML => from_yaml fs end.
Definition encode_as (ft : FileType) : A → option bytes :=
  match ft with
  | JSON => to_vec_pretty | BIN => bincode_serialize | TOML => to_string_pretty | YAML => yaml_to_writer
  end.

Lemma encode_total `{!SerdeTotal A} ft c : ft ≠ TOML → is_Some (encode_as ft c).
Proof.
  intros Hft. destruct ft; simpl; [apply json_writes|apply bincode_writes|done|apply yaml_writes].
Qed.
Lemma write_toml_panics path c fs :
  creatable path = true → to_string_pretty c = None → write_as TOML path c fs = Panicked "to_string_pretty".
Proof.
  intros Hc He. unfold write_as, write_toml, file_create. rw Hc. unfold bind, modify, unwrap. by rw He.
Qed.

Lemma write_as_run ft path c fs bs :
  creatable path = true → encode_as ft c = Some bs → write_as ft path c fs = Done tt (<[path := bs]> fs).
Proof.
  intros Hc He.
  destruct ft; unfold write_as, write_json, write_bin, write_toml, write_yaml, file_create, write_all,
    encode_as in *; rw Hc; unfold bind, modify, unwrap; rw He /= insert_insert_eq //.
Qed.

Lemma read_as_back `{!SerdeLaws A} ft path c (fs : FS) bs :
  encode_as ft c = Some bs → fs !! path = Some bs → read_as ft fs path = Some c.
Proof.
  intros He Hp. destruct ft; unfold encode_as, read_as, from_json, from_bin, from_toml, from_yaml,
    file_open in *; rw Hp /=.
  - by apply json_back.
  - by apply bincode_back.
  - by destruct (toml_back _ _ He) as [-> ->].
  - by apply yaml_back.
Qed.
End io.

(** A configuration that is written reads back: whenever a writer of
    util/src/io.rs returns, in any of the four formats, the reader of the same
    format finds the same configuration in that file, and every other file is
    as it was. *)
Theorem config_file_roundtrip `{HostDisk} {A} `{SerdeLaws A} ft path (c : A) fs fs' :
  write_as ft path c fs = Done tt fs' →
  read_as ft fs' path = Some c ∧ ∀ q, q ≠ path → fs' !! q = fs !! q.
Proof.
  intros E. destruct (creatable path) eqn:Hc.
  - destruct (encode_as ft c) as [bs|] eqn:He.
    + rw (write_as_run ft path c fs bs Hc He) in E. injection E as <-. split.
      * eapply read_as_back; [exact He|by rw lookup_insert_eq].
      * intros q Hq. by rw lookup_insert_ne.
    + destruct ft; unfold write_as, write_json, write_bin, write_toml, write_yaml, file_create, encode_as,
        bind, modify, unwrap in *; rw Hc He in E; done.
  - destruct ft; unfold write_as, write_json, write_bin, write_toml, write_yaml, file_create, bind in E;
      by rw Hc in E.
Qed.

(** ** openssl, as genconfig uses it

    A name is its entries in order; a certificate is described by what the
    builder was told before `build`.  The calls that can fail fail in
    [rsa_generate], [serial_rand], [build_x509], [build_req] and the encoders;
    each key and serial number is drawn anew, under the name of what it is
    drawn for. *)
Abbreviation X509Name := (list (string * string)).
Inductive Digest := sha256.
Inductive Usage := key_cert_sign | crl_sign | non_repudiation | digital_signature | key_encipherment.
Inductive AltName := dns (name : string) | ip (addr : string).

Inductive Extension {X509 : Type} :=
  | BasicConstraints (critical ca : bool)
  | KeyUsage (critical : bool) (uses : list Usage)
  | SubjectKeyIdentifier (context : option X509)
  | AuthorityKeyIdentifier (keyid issuer : bool) (context : option X509)
  | SubjectAlternativeName (names : list AltName) (context : option X509).
Arguments Extension X509 : clear implicits.

Record X509Builder {PKey X509 : Type} := mkX509Builder {
  x_version : N;
  x_serial : N;
  x_subject : X509Name;
  x_issuer : X509Name;
  x_pubkey : PKey;
  x_not_before_days : N;
  x_not_after_days : N;
  x_extensions : list (Extension X509);
  x_signed_by : PKey * Digest;
}.
Arguments X509Builder PKey X509 : clear implicits.

Record X509ReqBuilder {PKey : Type} := mkReqBuilder {
  q_pubkey : PKey;
  q_subject : X509Name;
  q_signed_by : PKey * Digest;
}.
Arguments X509ReqBuilder PKey : clear implicits.

Class OpenSSL := {
  PKey : Type;
  X509 : Type;
  X509Req : Type;
  rsa_generate : string → N → option PKey;
  serial_rand : string → N → option N;
  build_x509 : X509Builder PKey X509 → option X509;
  build_req : X509ReqBuilder PKey → option X509Req;
  subject_name : X509 → X509Name;
  req_subject_name : X509Req → X509Name;
  to_pem : X509 → option bytes;
  private_key_to_pem_pkcs8 : PKey → option bytes;
}.

Section certificates.
Context `{OpenSSL}.

Definition new_root_cert : option (X509 * PKey) :=
  privkey ← rsa_generate "root" 2048;
  let x509_name := [("C", "US"); ("ST", "IN"); ("O", "Libchatter Test"); ("CN", "Root")] in
  serial ← serial_rand "root" 159;
  cert ← build_x509 {|
    x_version := 2; x_serial := serial; x_subject := x509_name; x_issuer := x509_name;
    x_pubkey := privkey; x_not_before_days := 0; x_not_after_days := 365;
    x_extensions := [BasicConstraints true true; KeyUsage true [key_cert_sign; crl_sign];
                     SubjectKeyIdentifier None];
    x_signed_by := (privkey, sha256) |};
  Some (cert, privkey).

Definition mk_request (privkey : PKey) : option X509Req :=
  build_req {|
    q_pubkey := privkey;
    q_subject := [("C", "US"); ("ST", "IN"); ("O", "Nodes"); ("CN", "nodes.com")];
    q_signed_by := (privkey, sha256) |}.

Definition alt_names (extra_ip_sans : list string) : list AltName :=
  [dns "localhost"; dns "nodes.com"; ip "127.0.0.1"] ++ (ip <$> extra_ip_sans).

(** [name] is whom the certificate is for: `node-3`, `client-0`. *)
Definition get_signed_cert (name : string) (ca_cert : X509) (ca_privkey : PKey)
    (extra_ip_sans : list string) : option (X509 * PKey) :=
  privkey ← rsa_generate name 2048;
  req ← mk_request privkey;
  serial ← serial_rand name 159;
  cert ← build_x509 {|
    x_version := 2; x_serial := serial; x_subject := req_subject_name req;
    x_issuer := subject_name ca_cert; x_pubkey := privkey;
    x_not_before_days := 0; x_not_after_days := 365;
    x_extensions := [BasicConstraints false false;
                     KeyUsage true [non_repudiation; digital_signature; key_encipherment];
                     SubjectKeyIdentifier (Some ca_cert);
                     AuthorityKeyIdentifier false false (Some ca_cert);
                     SubjectAlternativeName (alt_names extra_ip_sans) (Some ca_cert)];
    x_signed_by := (ca_privkey, sha256) |};
  Some (cert, privkey).
End certificates.

(** ** genconfig, with its files *)
(** `?`: an error ends `main` with the files written so far. *)
Definition try_ {S A B} (m : M S (option A)) (f : A → M S (option B)) : M S (option B) :=
  let! o := m in match o with Some a => f a | None => ret None end.
Notation "'let?' x := m 'in' k" := (try_ m (λ x, k))
  (at level 10, x name, m at level 200, k at level 200) : rs_scope.

Section disk.
Context `{HostDisk} `{OpenSSL} `{!Serde Node} `{!Serde Client} `{KeyTools}.

Definition write_cert_file (target_dir name : string) (bytes : bytes) : M FS (option string) := λ fs,
  let path := path_join target_dir name in
  if creatable path then Done (canonicalize path) (<[path := bytes]> fs) else Done None fs.

(** The chain `[leaf, root]` and the key of one certificate, in their files. *)
Definition write_identity (target : string) (cert : X509) (privkey : PKey) (root_cert_pem : bytes)
    (name : string) (sans : list string) : M FS (option (string * string)) :=
  let? ck := ret (get_signed_cert name cert privkey sans) in
  let? leaf_pem := ret (to_pem ck.1) in
  let? key_pem := ret (private_key_to_pem_pkcs8 ck.2) in
  let? chain_path := write_cert_file target (name +:+ ".chain.pem") (leaf_pem ++ root_cert_pem) in
  let? key_path := write_cert_file target (name +:+ ".key.pem") key_pem in
  ret (Some (chain_path, key_path)).

Fixpoint write_identities (target : string) (cert : X509) (privkey : PKey) (root_cert_pem : bytes)
    (kind : string) (sans : list string) (idxs : list N) : M FS (option (list (N * (string * string)))) :=
  match idxs with
  | [] => ret (Some [])
  | i :: idxs' =>
      let? c := write_identity target cert privkey root_cert_pem (kind +:+ "-" +:+ pretty i) sans in
      let? cs := write_identities target cert privkey root_cert_pem kind sans idxs' in
      ret (Some ((i, c) :: cs))
  end.

Definition write_conf_as (ft : FileType) (path : string) (c : ConfFile) : M FS unit :=
  match c with NodeFile c => write_as ft path c | ClientFile c => write_as ft path c end.

(** The `match out` blocks. *)
Definition write_out (g : GenArgs) (stem : string) (c : ConfFile) : M FS unit :=
  match out_format (g_out g) with
  | Some (ft, ext) => write_conf_as ft (conf_path g stem ext) c
  | None => ret tt
  end.
Definition check_out {E} (why : string) (r : result E unit) : M FS unit :=
  match r with Ok _ => ret tt | Err _ => panic why end.

Definition main_files (g : GenArgs) (nodes : list (N * Node)) (clients : list (N * Client)) : M FS unit :=
  for_each nodes (λ ic, write_out g ("nodes-" +:+ pretty ic.1) (NodeFile ic.2);;;
                        check_out "failed to validate node config" (node_validate ic.2));;;
  for_each clients (λ jc, write_out g ("client-" +:+ pretty jc.1) (ClientFile jc.2);;;
                          check_out "failed to validate the client config" (client_validate jc.2));;;
  let! client0 := unwrap "index out of bounds" (head clients) in
  write_out g "client" (ClientFile client0.2).

Definition genconfig_main (m : Args) : M FS (option unit) := λ fs,
  match parse_args m with
  | Err why => Panicked why
  | Ok g =>
      (let? root := ret new_root_cert in
       if negb (create_dir_all (g_target g)) then ret None
       else
         let? root_pem := ret (to_pem root.1) in
         let? root_path := write_cert_file (g_target g) "root-cert.pem" root_pem in
         let? ns := write_identities (g_target g) root.1 root.2 root_pem "node"
                      (g_node_sans g) (indices (g_num_nodes g)) in
         let? cs := write_identities (g_target g) root.1 root.2 root_pem "client"
                      (g_client_sans g) (indices (g_num_clients g)) in
         main_files g ((λ ic, (ic.1, gen_node g root_path ic.1 ic.2)) <$> ns)
                      ((λ jc, (jc.1, gen_client g root_path jc.1 jc.2)) <$> cs);;;
         ret (Some tt)) fs
  end.
End disk.

(** ** The paths differ *)
Definition join_prefix (dir : string) : string :=
  match rsplit_once 47 dir with
  | Some (_, EmptyString) => dir
  | _ => if bool_decide (dir = "") then "" else dir +:+ "/"
  end.
Lemma path_join_prefix dir name : path_join dir name = join_prefix dir +:+ name.
Proof.
  unfold path_join, join_prefix. destruct (rsplit_once 47 dir) as [[x [|a y]]|]; [done|..];
    case_bool_decide; by rw -?(assoc_L String.append).
Qed.

Lemma free_name (kind : string) (i : N) :
  free 46 kind = true → free 46 (kind +:+ "-" +:+ pretty i) = true.
Proof. intros Hk. rw !all_chars_app Hk free_pretty //. lia. Qed.

Lemma name_inj (k k' : string) (i j : N) :
  free 45 k = true → free 45 k' = true → k +:+ "-" +:+ pretty i = k' +:+ "-" +:+ pretty j →
  k = k' ∧ i = j.
Proof.
  intros Hk Hk' E. destruct (free_sep_inj 45 "-"%char k k' (pretty i) (pretty j)) as [-> Ep]; try done.
  split; [done|]. by apply (inj pretty).
Qed.

(** The two files of an identity. *)
Definition chain_file (target name : string) : string := path_join target (name +:+ ".chain.pem").
Definition key_file (target name : string) : string := path_join target (name +:+ ".key.pem").

Lemma identity_files_differ target (n1 n2 : string) :
  free 46 n1 = true → free 46 n2 = true →
  chain_file target n1 ≠ key_file target n2 ∧
  (n1 ≠ n2 → chain_file target n1 ≠ chain_file target n2 ∧ key_file target n1 ≠ key_file target n2).
Proof.
  intros H1 H2. unfold chain_file, key_file. rw !path_join_prefix.
  assert (∀ x y, join_prefix target +:+ n1 +:+ String "."%char x = join_prefix target +:+ n2 +:+ String "."%char y →
    n1 = n2 ∧ x = y) as Hs.
  { intros x y E. apply (inj (String.append _)) in E. by apply (free_sep_inj 46 "."%char) in E. }
  split; [intros E; by apply Hs in E as [_ ?]|].
  intros Hne. split; intros E; by apply Hs in E as [? _].
Qed.

Lemma pem_not_conf target name g stem ext ft :
  out_format (g_out g) = Some (ft, ext) →
  chain_file target name ≠ conf_path g stem ext ∧ key_file target name ≠ conf_path g stem ext ∧
  path_join target "root-cert.pem" ≠ conf_path g stem ext.
Proof.
  intros Ho. assert (∃ a, last_char ext = Some a ∧ a ≠ "m"%char) as (a & Ha & Hne).
  { unfold out_format in Ho. repeat (case_bool_decide; [injection Ho as _ <-; by eexists|]). done. }
  assert (last_char (conf_path g stem ext) = Some a) as Hc.
  { unfold conf_path. by repeat apply last_char_app. }
  assert (∀ s, last_char (s +:+ "pem") = Some "m"%char) as Hp by (intros s; by apply last_char_app).
  unfold chain_file, key_file. rw !path_join_prefix.
  split; [|split]; intros E; rw -E in Hc.
  - assert (".chain.pem" = ".chain." +:+ "pem") as Ep by done.
    rw Ep !(assoc_L String.append) Hp in Hc. congruence.
  - assert (".key.pem" = ".key." +:+ "pem") as Ep by done.
    rw Ep !(assoc_L String.append) Hp in Hc. congruence.
  - assert ("root-cert.pem" = "root-cert." +:+ "pem") as Ep by done.
    rw Ep (assoc_L String.append) Hp in Hc. congruence.
Qed.

Lemma root_not_identity target name :
  free 46 name = true → name ≠ "root-cert" →
  path_join target "root-cert.pem" ≠ chain_file target name ∧
  path_join target "root-cert.pem" ≠ key_file target name.
Proof.
  intros Hf Hne. unfold chain_file, key_file. rw !path_join_prefix.
  split; intros E; apply (inj (String.append _)) in E;
    apply (free_sep_inj 46 "."%char "root-cert" name "pem") in E as [? _]; try done; congruence.
Qed.

(** ** What genconfig leaves on the disk *)
Section disk_facts.
Context `{HostDisk} `{OpenSSL} `{!Serde Node} `{!SerdeLaws Node} `{!Serde Client} `{!SerdeLaws Client}.
Context `{KeyTools}.

(** The files of [name]: the chain of its certificate (the leaf, then the
    root), and the key the leaf is for. *)
Definition identity_on (fs : FS) (target : string) (root : X509 * PKey) (root_pem : bytes)
    (name : string) (sans : list string) (paths : string * string) : Prop :=
  ∃ leaf key leaf_pem key_pem,
    get_signed_cert name root.1 root.2 sans = Some (leaf, key) ∧
    to_pem leaf = Some leaf_pem ∧ private_key_to_pem_pkcs8 key = Some key_pem ∧
    fs !! chain_file target name = Some (leaf_pem ++ root_pem) ∧
    fs !! key_file target name = Some key_pem ∧
    canonicalize (chain_file target name) = Some paths.1 ∧
    canonicalize (key_file target name) = Some paths.2.

(** The tools of GenConfig.v, made of these. *)
Definition disk_tools (target : string) : KeyTools := {|
  parse_algorithm := parse_algorithm;
  ed25519_keys := ed25519_keys;
  secp256k1_keys := secp256k1_keys;
  root_cert :=
    root ← new_root_cert;
    if create_dir_all target then
      _ ← to_pem root.1;
      let path := path_join target "root-cert.pem" in
      if creatable path then canonicalize path else None
    else None;
  signed_cert name sans :=
    root ← new_root_cert;
    ck ← get_signed_cert name root.1 root.2 sans;
    _ ← to_pem ck.1; _ ← private_key_to_pem_pkcs8 ck.2;
    if creatable (chain_file target name) && creatable (key_file target name) then
      p1 ← canonicalize (chain_file target name);
      p2 ← canonicalize (key_file target name);
      Some (p1, p2)
    else None;
|}.

(** Nothing the tool asks of openssl and the disk fails. *)
Record works (g : GenArgs) (root : X509 * PKey) (root_pem : bytes) : Prop := {
  wk_root : new_root_cert = Some root;
  wk_root_pem : to_pem root.1 = Some root_pem;
  wk_dir : create_dir_all (g_target g) = true;
  wk_create : ∀ p, creatable p = true;
  wk_canon : ∀ p, is_Some (canonicalize p);
  wk_certs : ∀ name sans, ∃ leaf key, get_signed_cert name root.1 root.2 sans = Some (leaf, key) ∧
    is_Some (to_pem leaf) ∧ is_Some (private_key_to_pem_pkcs8 key);
}.

Context (g : GenArgs) (root : X509 * PKey) (root_pem : bytes).
Hypothesis Hw : works g root root_pem.
Abbreviation target := (g_target g).

Lemma write_identity_spec name sans fs :
  free 46 name = true →
  wp (write_identity target root.1 root.2 root_pem name sans) (λ o fs', ∃ paths, o = Some paths ∧
    identity_on fs' target root root_pem name sans paths ∧
    signed_cert (KeyTools := disk_tools target) name sans = Some paths ∧
    ∀ p, p ≠ chain_file target name → p ≠ key_file target name → fs' !! p = fs !! p) fs.
Proof.
  intros Hf. destruct (wk_certs _ _ _ Hw name sans) as (leaf & key & Ec & [lp El] & [kp Ek]).
  destruct (wk_canon _ _ _ Hw (chain_file target name)) as [p1 E1].
  destruct (wk_canon _ _ _ Hw (key_file target name)) as [p2 E2].
  unfold write_identity, try_, write_cert_file, wpp, bind, ret. fold (chain_file target name).
  fold (key_file target name). rw Ec /= El Ek !(wk_create _ _ _ Hw) E1 E2. exists (p1, p2).
  split; [done|]. split; [|split].
  - exists leaf, key, lp, kp. do 3 (split; [done|]). split; [|by rw lookup_insert_eq].
    rw lookup_insert_ne ?lookup_insert_eq //. intros E. symmetry in E. revert E.
    by apply identity_files_differ.
  - unfold signed_cert, disk_tools. by rw (wk_root _ _ _ Hw) /= Ec /= El /= Ek.
  - intros p Hp1 Hp2. by rw !lookup_insert_ne.
Qed.

(** Files of other names do not matter. *)
Lemma identity_frame fs fs' name sans paths :
  (∀ p, p = chain_file target name ∨ p = key_file target name → fs' !! p = fs !! p) →
  identity_on fs target root root_pem name sans paths →
  identity_on fs' target root root_pem name sans paths.
Proof.
  intros Hfr (leaf & key & lp & kp & E1 & E2 & E3 & E4 & E5 & E6). exists leaf, key, lp, kp.
  rw !Hfr; eauto 10.
Qed.

Lemma write_identities_spec kind sans idxs fs :
  free 45 kind = true → free 46 kind = true → NoDup idxs →
  wp (write_identities target root.1 root.2 root_pem kind sans idxs) (λ o fs', ∃ ids, o = Some ids ∧
    certs_for (H := disk_tools target) kind sans idxs = Some ids ∧ ids.*1 = idxs ∧
    (∀ i c, (i, c) ∈ ids →
       identity_on fs' target root root_pem (kind +:+ "-" +:+ pretty i) sans c) ∧
    (∀ p, (∀ i, i ∈ idxs → p ≠ chain_file target (kind +:+ "-" +:+ pretty i) ∧
                           p ≠ key_file target (kind +:+ "-" +:+ pretty i)) → fs' !! p = fs !! p)) fs.
Proof.
  intros H45 H46. revert fs. induction idxs as [|i idxs IH]; intros fs Hnd; cbn [write_identities].
  { apply wpp_ret. exists []. do 3 (split; [done|]). split; [|done]. by intros i c ?%not_elem_of_nil. }
  apply NoDup_cons in Hnd as [Hi Hnd]. unfold try_. apply wpp_bind.
  eapply wpp_mono; [by apply write_identity_spec, free_name|].
  intros o fs1 (c & -> & Hc & Es & Hfr). apply wpp_bind. eapply wpp_mono; [by apply IH|].
  intros o fs2 (cs & -> & Ecs & E1 & Hcs & Hfr2). apply wpp_ret. exists ((i, c) :: cs).
  split; [done|]. split; [|split; [by simpl; f_equal|split]].
  - unfold certs_for in *. cbn [mapM]. by rw Es /= Ecs.
  - intros j d [[= -> ->]|Hin]%elem_of_cons; [|by apply Hcs].
    eapply identity_frame; [|exact Hc]. intros p Hp. apply Hfr2. intros j Hj.
    assert (kind +:+ "-" +:+ pretty i ≠ kind +:+ "-" +:+ pretty j) as Hne.
    { intros E. apply name_inj in E as [_ ->]; done. }
    destruct (identity_files_differ target (kind +:+ "-" +:+ pretty i) (kind +:+ "-" +:+ pretty j))
      as [D1 D2]; [by apply free_name..|]. specialize (D2 Hne) as [D2 D3].
    destruct (identity_files_differ target (kind +:+ "-" +:+ pretty j) (kind +:+ "-" +:+ pretty i))
      as [D4 _]; [by apply free_name..|]. destruct Hp as [->| ->]; split; congruence.
  - intros p Hp. rw Hfr2; [|intros j Hj; apply Hp; by constructor]. apply Hfr; apply Hp; constructor.
Qed.

(** *** The configurations *)
Definition encode (f : File) : option bytes :=
  match file_conf f with
  | NodeFile c => encode_as (file_type f) c
  | ClientFile c => encode_as (file_type f) c
  end.
Definition put_file (fs : FS) (f : File) : FS := <[file_path f := default [] (encode f)]> fs.
Definition put_files (l : list File) (fs : FS) : FS := foldl put_file fs l.

Lemma put_files_other l fs p : p ∉ file_path <$> l → put_files l fs !! p = fs !! p.
Proof.
  unfold put_files. revert fs. induction l as [|f l IH]; intros fs Hp; [done|].
  apply not_elem_of_cons in Hp as [Hne Hp]. simpl. rw IH //. unfold put_file. by rw lookup_insert_ne.
Qed.
Lemma put_files_lookup l fs f bs :
  NoDup (file_path <$> l) → f ∈ l → encode f = Some bs → put_files l fs !! file_path f = Some bs.
Proof.
  revert fs. induction l as [|f' l IH]; intros fs Hnd Hin He; [by apply not_elem_of_nil in Hin|].
  apply NoDup_cons in Hnd as [Hn Hnd]. apply elem_of_cons in Hin as [->|Hin].
  - change (put_files (f' :: l) fs) with (put_files l (put_file fs f')).
    rw put_files_other //. unfold put_file. by rw He lookup_insert_eq.
  - by apply IH.
Qed.

(** The files of `main`, in order. *)
Definition node_conf (ft : FileType) (ext : string) (ic : N * Node) : File :=
  mkFile (conf_path g ("nodes-" +:+ pretty ic.1) ext) ft (NodeFile ic.2).
Definition client_conf (ft : FileType) (ext : string) (jc : N * Client) : File :=
  mkFile (conf_path g ("client-" +:+ pretty jc.1) ext) ft (ClientFile jc.2).
Definition conf_files ft ext (nodes : list (N * Node)) (clients : list (N * Client)) : list File :=
  (node_conf ft ext <$> nodes) ++ (client_conf ft ext <$> clients) ++
  match clients with
  | c0 :: _ => [mkFile (conf_path g "client" ext) ft (ClientFile c0.2)]
  | [] => []
  end.

Lemma conf_path_inj ext (s t : string) :
  free 46 s = true → free 46 t = true → conf_path g s ext = conf_path g t ext → s = t.
Proof.
  intros Hs Ht E. unfold conf_path in E. do 2 apply (inj (String.append _)) in E.
  by apply (free_sep_inj 46 "."%char) in E as [? _].
Qed.

Lemma conf_paths_nodup ft ext nodes clients :
  NoDup nodes.*1 → NoDup clients.*1 → NoDup (file_path <$> conf_files ft ext nodes clients).
Proof.
  intros Hn Hc.
  set (stems := ((λ i, "nodes-" +:+ pretty i) <$> nodes.*1) ++ ((λ j, "client-" +:+ pretty j) <$> clients.*1) ++
    match clients with _ :: _ => ["client"] | [] => [] end).
  assert (file_path <$> conf_files ft ext nodes clients = (λ s, conf_path g s ext) <$> stems) as ->.
  { unfold conf_files, stems. rw !fmap_app -!list_fmap_compose. f_equal. f_equal.
    by destruct clients. }
  assert (Forall (λ s, free 46 s = true) stems) as Hf.
  { unfold stems. rw !Forall_app. split; [|split].
    - apply Forall_fmap, Forall_true. intros i. exact (free_name "nodes" i eq_refl).
    - apply Forall_fmap, Forall_true. intros j. exact (free_name "client" j eq_refl).
    - destruct clients; repeat constructor. }
  assert (NoDup stems) as Hnd.
  { assert (∀ k (i j : N), k +:+ pretty i = k +:+ pretty j → i = j) as Hinj.
    { intros k i j E. apply (inj (String.append k)) in E. by apply (inj pretty). }
    unfold stems. apply NoDup_app. split; [apply NoDup_fmap; [intros i j; apply Hinj|done]|]. split.
    - intros x (i & -> & _)%list_elem_of_fmap [(j & E & _)%list_elem_of_fmap|E]%elem_of_app; [done|].
      destruct clients; [by apply not_elem_of_nil in E|]. by apply list_elem_of_singleton in E.
    - apply NoDup_app. split; [apply NoDup_fmap; [intros i j; apply Hinj|done]|]. split.
      + intros x (j & -> & _)%list_elem_of_fmap E.
        destruct clients; [by apply not_elem_of_nil in E|]. by apply list_elem_of_singleton in E.
      + destruct clients; [constructor|apply NoDup_singleton]. }
  clear Hn Hc. induction Hnd as [|s l Hs Hnd IH]; [constructor|].
  apply Forall_cons in Hf as [Hf1 Hf]. simpl. constructor; [|by apply IH].
  intros (t & E & Ht)%list_elem_of_fmap. rw Forall_forall in Hf.
  apply conf_path_inj in E as ->; [done|done|by apply Hf].
Qed.

Context `{!SerdeTotal Node} `{!SerdeTotal Client}.

Lemma write_out_run ft ext stem c fs :
  out_format (g_out g) = Some (ft, ext) → ft ≠ TOML →
  write_out g stem c fs = Done tt (put_file fs (mkFile (conf_path g stem ext) ft c)).
Proof.
  intros Ho Hft. unfold write_out, write_conf_as, put_file, encode. rw Ho.
  destruct c as [c|c]; simpl; destruct (encode_total ft c Hft) as [bs E]; rw E /=;
    by apply write_as_run; [apply Hw|].
Qed.

Lemma foldl_put {A} (f : A → File) (l : list A) fs :
  foldl (λ fs x, put_file fs (f x)) fs l = put_files (f <$> l) fs.
Proof. unfold put_files. revert fs. induction l as [|x l IH]; intros fs; [done|]. simpl. apply IH. Qed.
Lemma foldl_snoc {A B} (f : A → B) (l : list A) (acc : list B) :
  foldl (λ acc x, acc ++ [f x]) acc l = acc ++ (f <$> l).
Proof.
  revert acc. induction l as [|x l IH]; intros acc; simpl; [by rw app_nil_r|]. by rw IH -app_assoc.
Qed.

Lemma main_files_run ft ext nodes clients fs :
  out_format (g_out g) = Some (ft, ext) → ft ≠ TOML →
  (∀ ic, ic ∈ nodes → node_validate ic.2 = Ok tt) →
  (∀ jc, jc ∈ clients → client_validate jc.2 = Ok tt) → clients ≠ [] →
  main_files g nodes clients fs = Done tt (put_files (conf_files ft ext nodes clients) fs) ∧
  write_files g nodes clients [] = Done tt (conf_files ft ext nodes clients).
Proof.
  intros Ho Hft Hns Hcs Hne. destruct clients as [|c0 clients]; [done|]. split.
  - unfold main_files, bind at 1.
    rw (for_each_run nodes _ (λ ic fs, put_file fs (node_conf ft ext ic))); [|intros ic fs0 Hic].
    2:{ unfold bind. rw (write_out_run ft ext) // Hns //. }
    rw foldl_put. unfold bind at 1.
    rw (for_each_run (c0 :: clients) _ (λ jc fs, put_file fs (client_conf ft ext jc))); [|intros jc fs0 Hjc].
    2:{ unfold bind. rw (write_out_run ft ext) // Hcs //. }
    rw foldl_put. unfold bind, unwrap. cbn [head ret]. rw (write_out_run ft ext) //.
    unfold conf_files, put_files. by rw !foldl_app.
  - unfold write_files, bind at 1.
    rw (for_each_run nodes _ (λ ic fs, fs ++ [node_conf ft ext ic])); [|intros ic fs0 Hic].
    2:{ unfold write_node, write_conf, bind, modify. rw Ho Hns //. }
    rw foldl_snoc. unfold bind at 1.
    rw (for_each_run (c0 :: clients) _ (λ jc fs, fs ++ [client_conf ft ext jc])); [|intros jc fs0 Hjc].
    2:{ unfold write_client, write_conf, bind, modify. rw Ho Hcs //. }
    rw foldl_snoc. unfold bind, unwrap, write_conf, modify. cbn [head ret]. rw Ho /=.
    unfold conf_files. by rw -app_assoc.
Qed.

(** *** The whole run *)
Record on_disk (fs' : FS) (root_path : string) (ns cs : list (N * (string * string))) : Prop := {
  od_nodes : ns.*1 = indices (g_num_nodes g);
  od_clients : cs.*1 = indices (g_num_clients g);
  od_root : fs' !! path_join target "root-cert.pem" = Some root_pem;
  od_root_path : canonicalize (path_join target "root-cert.pem") = Some root_path;
  od_node_ids : ∀ i c, (i, c) ∈ ns →
    identity_on fs' target root root_pem ("node-" +:+ pretty i) (g_node_sans g) c;
  od_client_ids : ∀ j c, (j, c) ∈ cs →
    identity_on fs' target root root_pem ("client-" +:+ pretty j) (g_client_sans g) c;
}.
Abbreviation nodes_of r ns := ((λ ic, (ic.1, gen_node g r ic.1 ic.2)) <$> ns).
Abbreviation clients_of r cs := ((λ jc, (jc.1, gen_client g r jc.1 jc.2)) <$> cs).

Lemma root_file_frame (kind : string) (i : N) :
  free 46 kind = true → free 45 kind = true → kind ≠ "root" →
  path_join target "root-cert.pem" ≠ chain_file target (kind +:+ "-" +:+ pretty i) ∧
  path_join target "root-cert.pem" ≠ key_file target (kind +:+ "-" +:+ pretty i).
Proof.
  intros H46 H45 Hk. apply root_not_identity; [by apply free_name|]. intros E.
  by destruct (free_sep_inj 45 "-"%char kind "root" (pretty i) "cert") as [? _].
Qed.

Lemma indices_nodup n : NoDup (indices n).
Proof. apply NoDup_fmap; [apply _|apply NoDup_seq]. Qed.

(** Identities of another kind are not overwritten. *)
Lemma kinds_differ (i j : N) p :
  p = chain_file target ("node-" +:+ pretty i) ∨ p = key_file target ("node-" +:+ pretty i) →
  p ≠ chain_file target ("client-" +:+ pretty j) ∧ p ≠ key_file target ("client-" +:+ pretty j).
Proof.
  intros Hp. pose proof (free_name "node" i eq_refl) as F1. pose proof (free_name "client" j eq_refl) as F2.
  destruct (identity_files_differ target ("node-" +:+ pretty i) ("client-" +:+ pretty j) F1 F2) as [D1 D2].
  destruct (identity_files_differ target ("client-" +:+ pretty j) ("node-" +:+ pretty i) F2 F1) as [D3 _].
  destruct D2 as [D2 D4]; [done|]. destruct Hp as [->| ->]; split; congruence.
Qed.

Lemma write_certs_run fs :
  ∃ fs1 root_path ns cs, on_disk fs1 root_path ns cs ∧
    certs_for (H := disk_tools target) "node" (g_node_sans g) (indices (g_num_nodes g)) = Some ns ∧
    certs_for (H := disk_tools target) "client" (g_client_sans g) (indices (g_num_clients g)) = Some cs ∧
    root_cert (KeyTools := disk_tools target) = Some root_path ∧
    ∀ m, parse_args m = Ok g → genconfig_main m fs =
      (main_files g (nodes_of root_path ns) (clients_of root_path cs);;; ret (Some tt)) fs1.
Proof.
  destruct (wk_canon _ _ _ Hw (path_join target "root-cert.pem")) as [root_path Er].
  set (fs0 := <[path_join target "root-cert.pem" := root_pem]> fs).
  destruct (wpp_done _ _ _ (write_identities_spec "node" (g_node_sans g) _ fs0 eq_refl eq_refl
    (indices_nodup (g_num_nodes g)))) as (o & fs1 & E1 & ns & -> & Ens & In & Hn & Fn).
  destruct (wpp_done _ _ _ (write_identities_spec "client" (g_client_sans g) _ fs1 eq_refl eq_refl
    (indices_nodup (g_num_clients g)))) as (o & fs2 & E2 & cs & -> & Ecs & Ic & Hc & Fc).
  exists fs2, root_path, ns, cs. split; [split; try done|split; [done|split; [done|split]]].
  - rw Fc; [|intros j _; by apply root_file_frame]. rw Fn; [|intros j _; by apply root_file_frame].
    unfold fs0. by rw lookup_insert_eq.
  - intros i c Hi. eapply identity_frame; [|by apply Hn]. intros p Hp. apply Fc. intros j _.
    by apply (kinds_differ i).
  - unfold root_cert, disk_tools. rw (wk_root _ _ _ Hw) /= (wk_dir _ _ _ Hw) (wk_root_pem _ _ _ Hw) /=.
    by rw (wk_create _ _ _ Hw).
  - intros m Hm. unfold genconfig_main. rw Hm.
    unfold try_ at 1. unfold bind at 1, ret at 1. rw (wk_root _ _ _ Hw) (wk_dir _ _ _ Hw). cbn [negb].
    unfold try_ at 1. unfold bind at 1, ret at 1. rw (wk_root_pem _ _ _ Hw).
    unfold try_ at 1. unfold bind at 1, write_cert_file. rw (wk_create _ _ _ Hw) Er. fold fs0.
    unfold try_ at 1. unfold bind at 1. rw E1. unfold try_ at 1. unfold bind at 1. by rw E2.
Qed.

Lemma genconfig_main_run m fs ft ext :
  parse_args m = Ok g → sound g → out_format (g_out g) = Some (ft, ext) → ft ≠ TOML →
  ∃ fs' root_path ns cs, on_disk fs' root_path ns cs ∧
    genconfig_main m fs = Done (Some tt) fs' ∧
    genconfig (H := disk_tools target) m [] =
      Done (Some tt) (conf_files ft ext (nodes_of root_path ns) (clients_of root_path cs)) ∧
    (∀ f, f ∈ conf_files ft ext (nodes_of root_path ns) (clients_of root_path cs) →
       ∃ bs, encode f = Some bs ∧ fs' !! file_path f = Some bs).
Proof.
  intros Hm Hs Ho Hft. destruct (write_certs_run fs) as (fs1 & rp & ns & cs & [] & Ens & Ecs & Er & Emain).
  assert (∀ ic, ic ∈ nodes_of rp ns → node_validate ic.2 = Ok tt) as Hns.
  { intros ? ([i c] & -> & Hin)%list_elem_of_fmap. apply (gen_node_cluster g rp i c Hs).
    apply (certs_index _ _ _ od_nodes0). eauto. }
  assert (∀ jc, jc ∈ clients_of rp cs → client_validate jc.2 = Ok tt) as Hcs.
  { intros ? ([j c] & -> & Hin)%list_elem_of_fmap. apply (gen_client_cluster g rp j c Hs).
    apply (certs_index _ _ _ od_clients0). eauto. }
  assert (clients_of rp cs ≠ []) as Hne.
  { intros E%fmap_nil_inv. subst cs. pose proof (so_clients g Hs) as [Hpos _].
    apply elem_of_indices in Hpos. rw -od_clients0 in Hpos. by apply not_elem_of_nil in Hpos. }
  destruct (main_files_run ft ext _ _ fs1 Ho Hft Hns Hcs Hne) as [E1 E2].
  set (files := conf_files ft ext (nodes_of rp ns) (clients_of rp cs)) in *.
  assert (∀ p, (∀ s, p ≠ conf_path g s ext) → put_files files fs1 !! p = fs1 !! p) as Hfr.
  { intros p Hp. apply put_files_other. intros (f & -> & Hf)%list_elem_of_fmap. revert Hf.
    unfold files, conf_files. rw !elem_of_app !list_elem_of_fmap.
    intros [(x & -> & _)|[(x & -> & _)|Hx]]; [by eapply Hp..|].
    destruct (clients_of rp cs); [by apply not_elem_of_nil in Hx|].
    apply list_elem_of_singleton in Hx as ->. by eapply Hp. }
  pose proof (λ name stem, pem_not_conf target name g stem ext ft Ho) as Hpem.
  exists (put_files files fs1), rp, ns, cs. split; [split; try done|split; [|split]].
  - rw Hfr //. intros st. apply (Hpem ""%string st).
  - intros i c Hi. eapply identity_frame; [|by apply od_node_ids0].
    intros p [->| ->]; apply Hfr; intros st; apply Hpem.
  - intros j c Hj. eapply identity_frame; [|by apply od_client_ids0].
    intros p [->| ->]; apply Hfr; intros st; apply Hpem.
  - rw (Emain m Hm). unfold bind. by rw E1.
  - unfold genconfig. change (parse_args (H := disk_tools target) m) with (parse_args m). rw Hm Er /= Ens /= Ecs /=.
    change (gen_node (H := disk_tools target)) with gen_node. unfold bind. by rw E2.
  - intros f Hf. assert (is_Some (encode f)) as [bs Eb].
    { revert Hf. unfold files, conf_files, encode. rw !elem_of_app !list_elem_of_fmap.
      intros [(x & -> & _)|[(x & -> & _)|Hx]]; simpl.
      - by apply encode_total.
      - by apply encode_total.
      - destruct (clients_of rp cs); [by apply not_elem_of_nil in Hx|].
        apply list_elem_of_singleton in Hx as ->. simpl. by apply encode_total. }
    exists bs. split; [done|]. apply put_files_lookup; [|done|done].
    apply conf_paths_nodup; rw -list_fmap_compose.
    + change (NoDup ns.*1). rw od_nodes0. apply indices_nodup.
    + change (NoDup cs.*1). rw od_clients0. apply indices_nodup.
Qed.
End disk_facts.

(** ** From the tool to the binaries *)
(** config/src/client.rs has the same readers, at `Client`. *)
Definition client_from_json `{!Serde Client} : FS → string → option Client := from_json.
Definition client_from_toml `{!Serde Client} : FS → string → option Client := from_toml.
Definition client_from_yaml `{!Serde Client} : FS → string → option Client := from_yaml.
Definition client_from_bin `{!Serde Client} : FS → string → option Client := from_bin.
Definition client_from `{!Serde Client} (ft : FileType) : FS → string → option Client :=
  match ft with
  | JSON => client_from_json | BIN => client_from_bin | TOML => client_from_toml | YAML => client_from_yaml
  end.

(** A host whose configuration files are those of [fs]. *)
Definition fs_host `{Host} `{!Serde Node} `{!Serde Client} (fs : FS) : Host := {|
  read_node ft path := read_as ft fs path;
  read_client ft path := client_from ft fs path;
  read_text := read_text;
  open_store := open_store;
  tls_sender := tls_sender;
|}.

(** A certificate that the root's key signed in the root's name, for [key] and
    for every address it will be asked for. *)
Definition issued `{OpenSSL} (root : X509 * PKey) (sans : list string) (leaf : X509) (key : PKey) : Prop :=
  ∃ x context, build_x509 x = Some leaf ∧ x_pubkey x = key ∧ x_issuer x = subject_name root.1 ∧
    x_signed_by x = (root.2, sha256) ∧
    SubjectAlternativeName (alt_names sans) context ∈ x_extensions x.

(** What a configuration says about its certificate is on the disk: the root
    certificate, a chain of a leaf issued by the root and of the root, and the
    leaf's key. *)
Definition certified `{HostDisk} `{OpenSSL} (fs : FS) (root : X509 * PKey) (root_pem : bytes)
    (sans : list string) (root_path cert_path key_path : string) : Prop :=
  ∃ leaf key leaf_pem key_pem, issued root sans leaf key ∧
    to_pem root.1 = Some root_pem ∧ to_pem leaf = Some leaf_pem ∧
    private_key_to_pem_pkcs8 key = Some key_pem ∧
    (∃ p, canonicalize p = Some root_path ∧ fs !! p = Some root_pem) ∧
    (∃ p, canonicalize p = Some cert_path ∧ fs !! p = Some (leaf_pem ++ root_pem)) ∧
    (∃ p, canonicalize p = Some key_path ∧ fs !! p = Some key_pem).

Section generated.
Context `{HostDisk} `{OpenSSL} `{!Serde Node} `{!SerdeLaws Node} `{!Serde Client} `{!SerdeLaws Client}.
Context `{Bincode} `{Host} `{KeyTools}.

Lemma signed_cert_issued name root sans leaf key :
  get_signed_cert name root.1 root.2 sans = Some (leaf, key) → issued root sans leaf key.
Proof.
  unfold get_signed_cert. destruct (rsa_generate name 2048) as [k|]; [|done]. simpl.
  destruct (mk_request k) as [req|]; [|done]. simpl.
  destruct (serial_rand name 159) as [sn|]; [|done]. simpl.
  destruct (build_x509 _) as [cert|] eqn:E; [|done]. simpl. intros [= <- <-].
  eexists _, _. split; [exact E|]. do 3 (split; [done|]). simpl. do 4 right. left.
Qed.

Lemma identity_certified g root root_pem fs name sans root_path c :
  works g root root_pem → identity_on fs (g_target g) root root_pem name sans c →
  canonicalize (path_join (g_target g) "root-cert.pem") = Some root_path →
  fs !! path_join (g_target g) "root-cert.pem" = Some root_pem →
  certified fs root root_pem sans root_path c.1 c.2.
Proof.
  intros Hw (leaf & key & lp & kp & Ec & El & Ek & F1 & F2 & C1 & C2) Hr Hf.
  exists leaf, key, lp, kp. split; [by eapply signed_cert_issued|]. split; [by eapply wk_root_pem|].
  do 2 (split; [done|]). split; [by eexists|]. split; by eexists.
Qed.

(** Reading what was written. *)
Lemma encoded_reads (fs : FS) files :
  (∀ f, f ∈ files → ∃ bs, encode f = Some bs ∧ fs !! file_path f = Some bs) →
  reads (H2 := fs_host fs) files.
Proof.
  intros Hf path ft. split; intros c Hin; destruct (Hf _ Hin) as (bs & Eb & E);
    pose proof (read_as_back ft path c fs bs Eb E); [done|by destruct ft].
Qed.

(** The tools made of the disk do what [works] says. *)
Lemma disk_root_cert g root root_pem :
  works g root root_pem → is_Some (root_cert (KeyTools := disk_tools (g_target g))).
Proof.
  intros Hw. unfold root_cert, disk_tools. rw (wk_root _ _ _ Hw) /= (wk_dir _ _ _ Hw).
  rw (wk_root_pem _ _ _ Hw) /= (wk_create _ _ _ Hw). apply (wk_canon _ _ _ Hw).
Qed.
Lemma disk_signed_cert g root root_pem name sans :
  works g root root_pem → is_Some (signed_cert (KeyTools := disk_tools (g_target g)) name sans).
Proof.
  intros Hw. unfold signed_cert, disk_tools. rw (wk_root _ _ _ Hw) /=.
  destruct (wk_certs _ _ _ Hw name sans) as (leaf & key & -> & [lp Hl] & [kp Hk]). simpl.
  rw Hl Hk /= !(wk_create _ _ _ Hw) /=.
  destruct (wk_canon _ _ _ Hw (chain_file (g_target g) name)) as [p1 ->].
  by destruct (wk_canon _ _ _ Hw (key_file (g_target g) name)) as [p2 ->].
Qed.

(** C37.  `--out_type toml` never works.  toml's serializer refuses a map whose
    keys are no strings, and every configuration of a node holds such maps: so
    for every sound command line that asks for toml, and with openssl and the
    disk not failing, `main` of genconfig panics (at the first configuration,
    after it has written all the certificates) instead of writing a cluster. *)
Theorem genconfig_toml_panics (m : Args) g root root_pem fs ext :
  parse_args m = Ok g → sound g → works g root root_pem → out_format (g_out g) = Some (TOML, ext) →
  (∀ c : Node, net_map c ≠ ∅ → to_string_pretty c = None) →
  genconfig_main m fs = Panicked "to_string_pretty".
Proof.
  intros Ha Hs Hw Ho Htoml.
  destruct (write_certs_run g root root_pem Hw fs) as (fs1 & rp & ns & cs & [Hns _ _ _ _ _] & _ & _ & _ & E).
  rw (E m Ha). destruct ns as [|[i c] ns].
  { pose proof (so_faults g Hs) as Hf. exfalso.
    assert (0%N ∈ indices (g_num_nodes g)) as Hin by (apply elem_of_indices; lia).
    rw -Hns in Hin. by apply not_elem_of_nil in Hin. }
  assert (i < g_num_nodes g)%N as Hi.
  { apply elem_of_indices. rw -Hns. constructor. }
  unfold main_files, bind at 1, bind at 1. cbn [fmap list_fmap for_each fst snd].
  unfold bind at 1, bind at 1, write_out. rw Ho. unfold write_conf_as.
  rw write_toml_panics //; [apply Hw|]. apply Htoml.
  destruct (gen_node_cluster g rp i c Hs Hi) as (_ & _ & _ & _ & Hnet & _). intros En.
  specialize (Hnet i). rw En lookup_empty in Hnet. apply N.ltb_lt in Hi. by rw Hi in Hnet.
Qed.

Context `{!SerdeTotal Node} `{!SerdeTotal Client}.

(** C35.  What the configuration tool writes starts a cluster, from bytes to
    sockets.  Take a sound command line (fewer than 2^16 nodes, fewer than half
    of them faulty, an algorithm with keys) in the json format with a block
    size above 0, and let openssl, the disk, the databases and the TLS senders
    not fail, and serde write what it can read back.  `main` of genconfig returns; and with the
    configuration files it has written and two `ip` files that list the
    loopback addresses of the nodes and of their intakes (every binary requires
    one), every node's binary boots from `nodes-i.json`, binds the port its
    peers dial on all interfaces, and takes transactions on the port every
    client sends them to, while the clients of both kinds start from
    `client-j.json` with the intakes' addresses and ask for replies where the
    nodes send them. *)
Theorem genconfig_boots (m : Args) g root root_pem fs ips cli_ips :
  parse_args m = Ok g → sound g → (g_num_nodes g < u16_size)%N → works g root root_pem →
  host_ok → g_out g = "json" → (0 < g_blocksize g)%N →
  file_to_ips ips = Some (listing (g_base_port g) (g_num_nodes g)) →
  file_to_ips cli_ips = Some (listing (g_client_base_port g) (g_num_nodes g)) →
  ∃ fs', genconfig_main m fs = Done (Some tt) fs' ∧
    cluster_boots (H2 := fs_host fs') g ips cli_ips.
Proof.
  intros Ha Hs Hsz Hw Hst Ho Hb Hips Hcli.
  destruct (genconfig_main_run g root root_pem Hw m fs JSON "json" Ha Hs)
    as (fs' & rp & ns & cs & _ & E & Eg & Hf); [by rw Ho|done|].
  exists fs'. split; [done|]. destruct (disk_root_cert g root root_pem Hw) as [r Er].
  destruct (genconfig_files_boot (H2 := fs_host fs') (H3 := disk_tools (g_target g)) m g r Ha)
    as (files & Eg' & Hboot); [by destruct Hs; split|done..| |done|done|done|].
  { intros name sans. by eapply disk_signed_cert. }
  apply Hboot; [|done|done]. rw Eg in Eg'. injection Eg' as <-. by apply encoded_reads.
Qed.

(** The file of node [i] reads back, and names its certificate. *)
Lemma node_certified (m : Args) g root root_pem fs fs' ft ext i :
  parse_args m = Ok g → sound g → works g root root_pem → out_format (g_out g) = Some (ft, ext) →
  ft ≠ TOML → genconfig_main m fs = Done (Some tt) fs' → (i < g_num_nodes g)%N → ∃ c : Node,
    read_as ft fs' (conf_path g ("nodes-" +:+ pretty i) ext) = Some c ∧
    certified fs' root root_pem (g_node_sans g) (root_cert_path c) (my_cert_path c) (my_cert_key_path c).
Proof.
  intros Ha Hs Hw Ho Hft E' Hi.
  destruct (genconfig_main_run g root root_pem Hw m fs ft ext Ha Hs Ho Hft)
    as (fs1 & rp & ns & cs & [] & E & _ & Hf).
  rw E in E'. injection E' as <-. pose proof (encoded_reads fs1 _ Hf) as Hread.
  apply elem_of_indices in Hi. rw -od_nodes0 in Hi.
  apply list_elem_of_fmap in Hi as ([i' c] & -> & Hi). exists (gen_node g rp i' c). split.
  - apply (Hread (conf_path g ("nodes-" +:+ pretty i') ext) ft). apply elem_of_app. left.
    apply list_elem_of_fmap. exists (i', gen_node g rp i' c). split; [done|].
    apply list_elem_of_fmap. by exists (i', c).
  - unfold gen_node. destruct (keys_of _ _) as [[]|]; simpl; eapply identity_certified; eauto.
Qed.

(** C36.  Every configuration comes with its certificate.  Take a sound command
    line (at most 2^16 nodes, fewer than half of them faulty, an algorithm with
    keys) with `--out_type` json, binary or yaml, let openssl and the disk not
    fail, and let serde write every configuration in that format and read back
    what it wrote.  (toml refuses maps with numeric keys.)  Then `main` of
    genconfig returns, the file of node [i] reads back, and the paths in it name
    the root certificate, a chain of a leaf and of the root, and a key, where
    the root's key signed the leaf in the root's name for that key and for
    every address given with `--node_ips`; so does the file of client [j] with
    `--client_ips`. *)
Theorem genconfig_certificates (m : Args) g root root_pem fs ft ext :
  parse_args m = Ok g → sound g → works g root root_pem →
  out_format (g_out g) = Some (ft, ext) → ft ≠ TOML →
  ∃ fs', genconfig_main m fs = Done (Some tt) fs' ∧
    (∀ i, (i < g_num_nodes g)%N → ∃ c : Node,
       read_as ft fs' (conf_path g ("nodes-" +:+ pretty i) ext) = Some c ∧
       certified fs' root root_pem (g_node_sans g) (root_cert_path c) (my_cert_path c) (my_cert_key_path c)) ∧
    (∀ j, (j < g_num_clients g)%N → ∃ c : Client,
       client_from ft fs' (conf_path g ("client-" +:+ pretty j) ext) = Some c ∧
       certified fs' root root_pem (g_client_sans g) (c_root_cert_path c) (c_my_cert_path c)
         (c_my_cert_key_path c)).
Proof.
  intros Ha Hs Hw Ho Hft.
  destruct (genconfig_main_run g root root_pem Hw m fs ft ext Ha Hs Ho Hft)
    as (fs' & rp & ns & cs & Hd & E & _ & Hf).
  pose proof (encoded_reads fs' _ Hf) as Hread.
  exists fs'. split; [done|]. split; [|destruct Hd].
  - intros i Hi. by eapply node_certified.
  - intros j Hj. apply elem_of_indices in Hj. rw -od_clients0 in Hj.
    apply list_elem_of_fmap in Hj as ([j' c] & -> & Hj). exists (gen_client g rp j' c). split.
    + apply (Hread (conf_path g ("client-" +:+ pretty j') ext) ft). apply elem_of_app. right.
      apply elem_of_app. left.
      apply list_elem_of_fmap. exists (j', gen_client g rp j' c). split; [done|].
      apply list_elem_of_fmap. by exists (j', c).
    + simpl. eapply identity_certified; eauto.
Qed.
End generated.

(** ** A disk, a format and an openssl with which all of it happens *)
Module DiskExamples.
Import Toy ToyFormat GenExamples LaunchExamples.

#[export] Instance Algorithm_countable : Countable Algorithm.
Proof.
  refine (inj_countable' (λ a, match a with ED25519 => 0 | SECP256K1 => 1 | RSA => 2 end)%nat
    (λ n, match n with 0 => ED25519 | 1 => SECP256K1 | _ => RSA end)%nat _). by intros [].
Defined.

Definition node_fields (c : Node) :=
  ((net_map c, mempool_net_map c, client_net_map c, delta c, id c, num_nodes c, num_faults c),
   (block_size c, client_port c, mempool_port c, payload_size c, bench_emit_window_secs c,
    bench_metrics_node c), (crypto_alg c, pk_map c, secret_key_bytes c, my_cert_path c,
    my_cert_key_path c, root_cert_path c)).
Definition client_fields (c : Client) :=
  ((c_net_map c, c_crypto_alg c, c_server_pk c, c_num_nodes c, c_num_faults c, c_block_size c),
   (c_payload c, c_my_id c, c_my_listen_addr c, c_my_cert_path c, c_my_cert_key_path c,
    c_root_cert_path c)).

(** A format that writes a value as one number. *)
Definition number_serde A `{Countable A} : Serde A := {|
  to_vec_pretty c := Some [Npos (countable.encode c)];
  json_from_reader bs := match bs with [Npos p] => decode p | _ => None end;
  bincode_serialize c := Some [Npos (countable.encode c)];
  bincode_deserialize bs := match bs with [Npos p] => decode p | _ => None end;
  to_string_pretty c := Some [Npos (countable.encode c)];
  toml_from_str bs := match bs with [Npos p] => decode p | _ => None end;
  yaml_to_writer c := Some [Npos (countable.encode c)];
  yaml_from_reader bs := match bs with [Npos p] => decode p | _ => None end;
  is_utf8 bs := true;
|}.
Lemma number_serde_total A `{Countable A} : SerdeTotal A (H := number_serde A).
Proof. split; by eexists. Qed.
Lemma number_serde_laws A `{Countable A} : SerdeLaws A (H := number_serde A).
Proof. split; intros c bs [= <-]; simpl; by rw decode_encode. Qed.

#[export] Instance Node_eq_dec : EqDecision Node.
Proof. solve_decision. Defined.
#[export] Instance Node_countable : Countable Node.
Proof.
  refine (inj_countable' node_fields (λ '((a1, a2, a3, a4, a5, a6, a7), (b1, b2, b3, b4, b5, b6),
    (d1, d2, d3, d4, d5, d6)), mkNode a1 a2 a3 a4 a5 a6 a7 b1 b2 b3 b4 b5 b6 d1 d2 d3 d4 d5 d6) _).
  by intros [].
Defined.
#[export] Instance Client_eq_dec : EqDecision Client.
Proof. solve_decision. Defined.
#[export] Instance Client_countable : Countable Client.
Proof.
  refine (inj_countable' client_fields (λ '((a1, a2, a3, a4, a5, a6), (b1, b2, b3, b4, b5, b6)),
    mkClient a1 a2 a3 a4 a5 a6 b1 b2 b3 b4 b5 b6) _).
  by intros [].
Defined.
#[export] Instance node_serde : Serde Node := number_serde Node.
#[export] Instance client_serde : Serde Client := number_serde Client.
#[export] Instance node_serde_laws : SerdeLaws Node := number_serde_laws Node.
#[export] Instance node_serde_total : SerdeTotal Node := number_serde_total Node.
#[export] Instance client_serde_total : SerdeTotal Client := number_serde_total Client.
#[export] Instance client_serde_laws : SerdeLaws Client := number_serde_laws Client.

(** Every path can be written and is its own canonical name. *)
#[export] Instance open_disk : HostDisk := {
  creatable _ := true; create_dir_all _ := true; canonicalize p := Some ("/" +:+ p) }.

(** A key is the name it is drawn for; a certificate, its key and its
    signer's. *)
#[export] Instance toy_openssl : OpenSSL := {
  PKey := string; X509 := string * string; X509Req := string;
  rsa_generate name _ := Some name;
  serial_rand _ _ := Some 7%N;
  build_x509 x := Some (x_pubkey x, (x_signed_by x).1);
  build_req q := Some (q_pubkey q);
  subject_name c := [("CN", c.1)];
  req_subject_name q := [("CN", q)];
  to_pem c := Some [Npos (countable.encode c)];
  private_key_to_pem_pkcs8 k := Some [Npos (countable.encode k)];
}.
Definition toy_root : X509 * PKey := (("root", "root"), "root").
Definition toy_root_pem : bytes := [Npos (countable.encode ("root", "root"))].

Lemma toy_works : works cmd_args toy_root toy_root_pem.
Proof.
  split; [reflexivity|reflexivity|reflexivity|reflexivity|by intros p; eexists|].
  intros name sans. exists (name, "root"), name. split; [done|]. split; by eexists.
Qed.

Lemma config_file_roundtrip_witness :
  ∃ fs', write_as TOML "tc/client.toml" client_new (∅ : FS) = Done tt fs' ∧
    read_as TOML fs' "tc/client.toml" = Some client_new.
Proof.
  eexists. split; [reflexivity|].
  apply (config_file_roundtrip TOML "tc/client.toml" client_new ∅). reflexivity.
Defined.

Lemma genconfig_boots_witness :
  ∃ fs', genconfig_main cmd ∅ = Done (Some tt) fs' ∧
    cluster_boots (H2 := fs_host fs') cmd_args "local" "intakes".
Proof.
  apply (genconfig_boots cmd cmd_args toy_root toy_root_pem ∅ "local" "intakes" cmd_parses cmd_sound).
  - reflexivity.
  - exact toy_works.
  - exact disk_ok.
  - reflexivity.
  - reflexivity.
  - vm_compute. reflexivity.
  - vm_compute. reflexivity.
Defined.

Lemma genconfig_certificates_witness :
  ∃ fs' (c : Node), genconfig_main cmd ∅ = Done (Some tt) fs' ∧
    from_json fs' "tc/nodes-1.json" = Some c ∧
    certified fs' toy_root toy_root_pem [] (root_cert_path c) (my_cert_path c) (my_cert_key_path c).
Proof.
  destruct (genconfig_certificates cmd cmd_args toy_root toy_root_pem ∅ JSON "json" cmd_parses cmd_sound
    toy_works) as (fs' & E & Hn & _); [reflexivity|done|].
  destruct (Hn 1%N) as (c & Hc & Hcert); [reflexivity|]. exists fs', c. split; [exact E|]. by split.
Defined.

(** A toml that wants string keys, as toml 0.5 does. *)
Definition string_keys : Serde Node := {|
  to_vec_pretty := to_vec_pretty; json_from_reader := json_from_reader;
  bincode_serialize := bincode_serialize; bincode_deserialize := bincode_deserialize;
  to_string_pretty c := if bool_decide (net_map c = ∅) then to_string_pretty c else None;
  toml_from_str := toml_from_str;
  yaml_to_writer := yaml_to_writer; yaml_from_reader := yaml_from_reader;
  is_utf8 := is_utf8 (A := Node);
|}.
Definition toml_cmd : Args := <["out_type" := "toml"]> cmd.
Definition toml_args : GenArgs := Eval vm_compute in
  match parse_args toml_cmd with Ok g => g | Err _ => cmd_args end.
Lemma genconfig_toml_panics_witness :
  genconfig_main (Serde0 := string_keys) toml_cmd ∅ = Panicked "to_string_pretty".
Proof.
  apply (genconfig_toml_panics (Serde0 := string_keys) toml_cmd toml_args toy_root toy_root_pem ∅ "toml").
  - vm_compute. reflexivity.
  - destruct cmd_sound as [H1 H2 H3 H4]. split; [exact H1|exact H2|exact H3|exact H4].
  - destruct toy_works as [W1 W2 W3 W4 W5 W6]. split; [exact W1|exact W2|exact W3|exact W4|exact W5|exact W6].
  - reflexivity.
  - intros c Hc. simpl. by rw bool_decide_eq_false_2.
Defined.

(** An unknown `--out_type` is no error: the keys and certificates are there,
    and no configuration. *)
Example unknown_format_leaves_certificates :
  match genconfig_main (<["out_type" := "xml"]> cmd) ∅ with
  | Done (Some _) fs => bool_decide (is_Some (fs !! "tc/node-0.key.pem")) && bool_decide (fs !! "tc/nodes-0.json" = None)
  | _ => false
  end = true.
Proof. vm_compute. reflexivity. Qed.
End DiskExamples.
