(* ===== verification/Cluster.v ===== *)
(** * The nodes of a generated cluster know each other's keys

    genconfig (GenConfig.v) hands out the keys, the mains (Launch.v) start
    the reactors, and the reactors (Apollo.v and its kin) decode the keys:
    this file puts the three together. *)

From stdpp Require Import pretty.
From S2P Require Import Prelude Crypto Types Text Config GenConfig Batch Legacy.
From S2P Require Import Keyed NodeIO Apollo Artemis SyncHS OptSync Launch.

(** A generated pair of keys decodes, and what the one signs the other
    verifies. *)
Class KeyLaws `{Crypto} `{KeyTools} :=
  keys_agree t i pk kp : keys_of t i = Some (pk, kp) →
    ∃ sk p, de_keypair kp = Some sk ∧ de_public_key pk = Some p ∧
      ∀ m s, sk_sign sk m = Some s → pk_verify p m s = true.

Section cluster.
Context `{Bincode} `{Host} `{NetOracle} `{Clock} `{KeyTools} `{!KeyLaws}.
Context `{!DelayQueue SyncHS.Propose}.

(** The holder of [pks] accepts, as [r]'s, what [sk] signs. *)
Definition trusts (pks : gmap N PublicKey) (r : N) (sk : Keypair) : Prop :=
  ∃ pk, pks !! r = Some pk ∧ ∀ m s, sk_sign sk m = Some s → pk_verify pk m s = true.

Lemma secret_decodes g i c :
  sound g → (i < g_num_nodes g)%N → cluster_node g i c →
  ∃ pk kp sk p, keys_of (g_algorithm g) i = Some (pk, kp) ∧ decode_secret c = Some sk ∧
    decode_public c pk = Some p ∧ ∀ m s, sk_sign sk m = Some s → pk_verify p m s = true.
Proof.
  intros Hs Hi (_ & _ & _ & _ & _ & _ & _ & _ & Ha & Hkp).
  destruct (so_keys g Hs i Hi) as (pk & kp & Ek & _).
  destruct (keys_agree _ _ _ _ Ek) as (sk & p & E1 & E2 & Hv).
  exists pk, kp, sk, p. split; [done|]. unfold decode_secret, decode_public. rw Ha (Hkp _ _ Ek).
  destruct (g_algorithm g); [done..|by simpl in Ek].
Qed.

(** The public keys a node decodes are those of the others' secret keys. *)
Lemma public_keys_decode g i c keep :
  sound g → cluster_node g i c →
  ∃ pks, decode_public_keys c keep = Some pks ∧
    ∀ r c_r sk_r, (r < g_num_nodes g)%N → keep r = true → cluster_node g r c_r →
      decode_secret c_r = Some sk_r → trusts pks r sk_r.
Proof.
  intros Hs (_ & _ & _ & _ & _ & _ & _ & Hpks & Ha & _). pose proof (so_nodes g Hs) as Hn.
  assert (∀ r pk, pk_map c !! r = Some pk ↔ (r < g_num_nodes g)%N ∧
    ∃ kp, keys_of (g_algorithm g) r = Some (pk, kp)) as Hpk.
  { intros r pk. rw Hpks pk_map_lookup //. rw -N.ltb_lt. destruct (r <? _)%N; [|naive_solver].
    destruct (keys_of _ r) as [[pk' kp]|]; simpl; naive_solver. }
  assert (∀ pk, decode_public c pk =
    match g_algorithm g with RSA => None | _ => de_public_key pk end) as Hd.
  { intros pk. unfold decode_public. rw Ha. by destruct (g_algorithm g). }
  destruct (decode_public_keys_total c keep) as (pks & E & Hl).
  { intros r pk [_ [kp Ek]]%Hpk. destruct (keys_agree _ _ _ _ Ek) as (sk & p & _ & E2 & _).
    rw Hd E2. by destruct (g_algorithm g). }
  exists pks. split; [done|]. intros r c_r sk_r Hr Hk Hnode Hsk.
  destruct (secret_decodes g r c_r Hs Hr Hnode) as (pk & kp & sk & p & Ek & Esk & Ep & Hv).
  assert (sk = sk_r) as <- by congruence. exists p. split; [|done]. rw Hl Hk.
  assert (pk_map c !! r = Some pk) as -> by (apply Hpk; eauto). simpl.
  destruct Hnode as (_ & _ & _ & _ & _ & _ & _ & _ & Ha' & _).
  unfold decode_public in *. rw Ha. by rw Ha' in Ep.
Qed.

(** What the four reactors start with. *)
Definition holds_keys (g : GenArgs) (i : N) (sk : Keypair) (pks : gmap N PublicKey)
    (keep : N → bool) (c : Node) : Prop :=
  decode_secret c = Some sk ∧ ∀ r c_r sk_r, (r < g_num_nodes g)%N → keep r = true →
    cluster_node g r c_r → decode_secret c_r = Some sk_r → trusts pks r sk_r.

(** Node [i] with its file and the `ip` file [ips]. *)
Abbreviation start_node g i ips := (cmd_line (node_file g i) ips).

Lemma reactors_start g i c ips :
  sound g → (g_num_nodes g < u16_size)%N → (i < g_num_nodes g)%N → (0 < g_blocksize g)%N → host_ok →
  cluster_node g i c → file_to_ips ips = Some (listing (g_base_port g) (g_num_nodes g)) →
  read_node JSON (node_file g i) = Some c →
  let others := λ r, negb (r =? i)%N in
  (∃ b k cx, apollo_node (start_node g i ips) = Ok (b, k, cx) ∧ Apollo.myid cx = i ∧
     holds_keys g i (Apollo.my_secret_key cx) (Apollo.pub_key_map cx) others c) ∧
  (∃ b k cx, artemis_node (start_node g i ips) = Ok (b, k, cx) ∧ Artemis.myid cx = i ∧
     holds_keys g i (Artemis.my_secret_key cx) (Artemis.pub_key_map cx) others c) ∧
  (∀ start, ∃ b s k cx, synchs_node (start_node g i ips) start = Ok (b, s, k, cx) ∧ SyncHS.myid cx = i ∧
     holds_keys g i (SyncHS.my_secret_key cx) (SyncHS.pub_key_map cx) (λ _, true) c) ∧
  (∀ start, ∃ b s k cx, optsync_node (start_node g i ips) start = Ok (b, s, k, cx) ∧
     SyncHS.myid (OptSync.base cx) = i ∧
     holds_keys g i (SyncHS.my_secret_key (OptSync.base cx)) (SyncHS.pub_key_map (OptSync.base cx))
       (λ _, true) c).
Proof.
  intros Hs Hsz Hi Hbs Hst Hnode Hips Hr others.
  destruct (boot_cmd g i c ips Hst Hsz Hi Hnode Hips Hr) as (b & nets & Eb & _ & Ec).
  destruct (window_boot_ok g i c b _ _ nets Hst Hnode Hbs Eb Ec) as (clients & sealer & Ew & _ & _).
  destruct (secret_decodes g i c Hs Hi Hnode) as (pk & kp & sk & p & _ & Esk & _ & _).
  destruct (public_keys_decode g i c others Hs Hnode) as (pks1 & Ep1 & Ht1).
  destruct (public_keys_decode g i c (λ _, true) Hs Hnode) as (pks2 & Ep2 & Ht2).
  pose proof (proj1 Hnode) as Hid. subst others. rw -Hid in Ep1.
  unfold apollo_node, artemis_node, synchs_node, optsync_node, keyed_boot. rw Eb Ew.
  cbn [mbind result_bind]. rw Ec.
  set (c2 := c <| delta := delta c |> <| net_map := nets |>).
  change (decode_secret c) with (decode_secret c2) in Esk.
  change (decode_public_keys c) with (decode_public_keys c2) in Ep1, Ep2.
  change (id c) with (id c2) in Ep1, Hid.
  unfold Apollo.reactor_start, Artemis.reactor_start, OptSync.context_new, Apollo.context_new,
    Artemis.context_new, SyncHS.context_new. rw Esk Ep1 Ep2.
  split; [|split; [|split]].
  - eexists _, _, _. split; [reflexivity|]. split; [exact Hid|]. split; [exact Esk|exact Ht1].
  - eexists _, _, _. split; [reflexivity|]. split; [exact Hid|]. split; [exact Esk|exact Ht1].
  - intros start. eexists _, _, _, _. split; [reflexivity|]. split; [exact Hid|].
    split; [exact Esk|exact Ht2].
  - intros start. eexists _, _, _, _. split; [reflexivity|]. split; [exact Hid|].
    split; [exact Esk|exact Ht2].
Qed.
(** C34.  Keys match across the cluster.  Take the files of a sound genconfig
    run in the json format with fewer than 2^16 nodes and a block size above 0,
    where the files read back as written, certificates are made, databases open
    and TLS senders are set up without error, and an `ip` file that lists the
    loopback addresses of the nodes.  Every node of every protocol starts with
    its file and the `ip` file, and whatever a started node [r] signs with its
    own key, any other started node [i] verifies with the key it holds for [r].
    (A generated pair of keys is assumed to decode, and to verify what it
    signs.) *)
Theorem cluster_keys (m : Args) g root :
  parse_args m = Ok g → sound g → (g_num_nodes g < u16_size)%N → root_cert = Some root →
  (∀ name sans, is_Some (signed_cert name sans)) → host_ok →
  g_out g = "json" → (0 < g_blocksize g)%N →
  ∃ files, genconfig m [] = Done (Some tt) files ∧ (reads files →
    ∀ ips i r, file_to_ips ips = Some (listing (g_base_port g) (g_num_nodes g)) →
    (i < g_num_nodes g)%N → (r < g_num_nodes g)%N → i ≠ r →
    (∃ bi ki ci br kr cr, apollo_node (start_node g i ips) = Ok (bi, ki, ci) ∧
       apollo_node (start_node g r ips) = Ok (br, kr, cr) ∧
       trusts (Apollo.pub_key_map ci) r (Apollo.my_secret_key cr)) ∧
    (∃ bi ki ci br kr cr, artemis_node (start_node g i ips) = Ok (bi, ki, ci) ∧
       artemis_node (start_node g r ips) = Ok (br, kr, cr) ∧
       trusts (Artemis.pub_key_map ci) r (Artemis.my_secret_key cr)) ∧
    (∀ t t', ∃ bi si ki ci br sr kr cr, synchs_node (start_node g i ips) t = Ok (bi, si, ki, ci) ∧
       synchs_node (start_node g r ips) t' = Ok (br, sr, kr, cr) ∧
       trusts (SyncHS.pub_key_map ci) r (SyncHS.my_secret_key cr)) ∧
    (∀ t t', ∃ bi si ki ci br sr kr cr, optsync_node (start_node g i ips) t = Ok (bi, si, ki, ci) ∧
       optsync_node (start_node g r ips) t' = Ok (br, sr, kr, cr) ∧
       trusts (SyncHS.pub_key_map (OptSync.base ci)) r (SyncHS.my_secret_key (OptSync.base cr)))).
Proof.
  intros Ha Hs Hsz Hroot Hc Hst Ho Hb.
  destruct (genconfig_cluster m g root [] Ha Hs Hroot Hc) as (files & E & Hf).
  exists files. split; [done|]. intros Hread ips i r Hips Hi Hr Hir.
  destruct (Hf JSON "json") as [Hn _]; [by rw Ho|].
  destruct (Hn i Hi) as (c_i & Ni & Fi). destruct (Hn r Hr) as (c_r & Nr & Fr).
  destruct (reactors_start g i c_i ips Hs Hsz Hi Hb Hst Ni Hips) as (Pi & Ai & Si & Oi); [by apply (Hread _ _)|].
  destruct (reactors_start g r c_r ips Hs Hsz Hr Hb Hst Nr Hips) as (Pr & Ar & Sr & Or); [by apply (Hread _ _)|].
  assert (negb (r =? i)%N = true) as Hne by by apply negb_true_iff, N.eqb_neq.
  split; [|split; [|split; [intros t t'|intros t t']]].
  - destruct Pi as (bi & ki & ci & Ei & _ & _ & Ti), Pr as (br & kr & cr & Er & _ & Sk & _).
    exists bi, ki, ci, br, kr, cr. split; [done|]. split; [done|]. by apply (Ti r c_r).
  - destruct Ai as (bi & ki & ci & Ei & _ & _ & Ti), Ar as (br & kr & cr & Er & _ & Sk & _).
    exists bi, ki, ci, br, kr, cr. split; [done|]. split; [done|]. by apply (Ti r c_r).
  - destruct (Si t) as (bi & si & ki & ci & Ei & _ & _ & Ti), (Sr t') as (br & sr & kr & cr & Er & _ & Sk & _).
    exists bi, si, ki, ci, br, sr, kr, cr. split; [done|]. split; [done|]. by apply (Ti r c_r).
  - destruct (Oi t) as (bi & si & ki & ci & Ei & _ & _ & Ti), (Or t') as (br & sr & kr & cr & Er & _ & Sk & _).
    exists bi, si, ki, ci, br, sr, kr, cr. split; [done|]. split; [done|]. by apply (Ti r c_r).
Qed.
End cluster.

(** ** A cluster of three *)
Module ClusterExamples.
Import Toy ToyFormat GenExamples LaunchExamples ToyQueue.
#[local] Instance toy_clock : Clock := λ _, 0%N.

#[local] Instance toy_keys : KeyLaws.
Proof.
  intros [] i pk kp [= <- <-]; exists i, i; (split; [done|]); (split; [done|]);
    intros m s [= <-]; by apply bool_decide_eq_true.
Qed.

Lemma cluster_keys_witness :
  ∃ b0 k0 c0 b2 k2 c2, apollo_node (cmd_line "tc/nodes-0.json" "local") = Ok (b0, k0, c0) ∧
    apollo_node (cmd_line "tc/nodes-2.json" "local") = Ok (b2, k2, c2) ∧
    trusts (Apollo.pub_key_map c0) 2 (Apollo.my_secret_key c2).
Proof.
  destruct (cluster_keys cmd cmd_args "/tc/root-cert.pem" cmd_parses cmd_sound eq_refl eq_refl)
    as (files & E & H); [by intros; eexists|exact disk_ok|reflexivity|reflexivity|].
  assert (files = disk) as -> by (unfold disk; by rw E).
  exact (proj1 (H disk_reads "local" 0%N 2%N eq_refl eq_refl eq_refl ltac:(done))).
Defined.
End ClusterExamples.
