(* ===== verification/StressTest.v ===== *)
(** * The stress-test harness (stress-test/src/main.rs)

    The harness starts clusters: it chooses ports, calls genconfig, writes the
    `ip` files, starts every node and every client and reads their numbers
    back.  Command lines are the maps clap makes of them (the flags resolved by
    the `cli.yml` of the binary).  What a child process does, `f64` and the
    file system are parameters; the harness keeps what it printed. *)

From stdpp Require Import pretty sorting.
From S2P Require Import Prelude Crypto Types Text Format Config GenConfig.
From S2P Require Import Batch Keyed KeyedClient WindowClient Launch.

(** ** The protocols and the parameters of a run *)
Inductive Protocol := Apollo | Artemis | Synchs | Optsync.
Definition short (p : Protocol) : string :=
  match p with Apollo => "apollo" | Artemis => "artemis" | Synchs => "synchs" | Optsync => "optsync" end.
Definition label (p : Protocol) : string :=
  match p with
  | Apollo => "Apollo" | Artemis => "Artemis" | Synchs => "Sync HotStuff" | Optsync => "Opt Sync"
  end.
Definition bootstrap_secs (num_nodes : N) : N := add64 5 (N.max num_nodes 3).
Definition wants_special_client (p : Protocol) : bool :=
  match p with Apollo | Artemis => true | _ => false end.

Record BenchConfig := mkBench {
  bc_protocol : Protocol;
  bc_num_nodes : N;
  bc_num_faults : N;
  bc_num_clients : N;
  bc_block_size : N;
  bc_payload : N;
  bc_total_txs : N;
  bc_window : N;
}.

(** [only] and [clients] are the environment variables PROTO and NUM_CLIENTS. *)
Definition build_matrix (only clients : option string) : list BenchConfig :=
  let selected :=
    if bool_decide (only = Some "apollo") then [Apollo]
    else if bool_decide (only = Some "artemis") then [Artemis]
    else if bool_decide (only = Some "synchs") then [Synchs]
    else if bool_decide (only = Some "optsync") then [Optsync]
    else [Apollo; Artemis; Synchs; Optsync] in
  let num_clients := N.max (default 1%N (clients ≫= parse_u16)) 1 in
  protocol ← selected;
  (λ '(n, f), mkBench protocol n f num_clients 400 0 50000 10000) <$> [(3%N, 1%N); (7%N, 3%N)].

(** ** The harness *)
(** With the text files it wrote and the lines it printed. *)
Record Harness := mkHarness {
  repo_root : string;
  runs_dir : string;
  run_idx : N;
  written : gmap string string;
  stdout : list string;
}.
#[export] Instance eta_Harness : Eta Harness := λ x,
  mkHarness (repo_root x) (runs_dir x) (run_idx x) (written x) (stdout x).
Definition harness_new (root : string) : Harness :=
  mkHarness root (path_join root "stress-test/runs") 0 ∅ [].

Record Ports := mkPorts { base : N; cli_base : N; mempool_base : N; client_listen : N }.
Definition alloc_ports : M Harness Ports :=
  let! h := get in
  let b := add16 21000 (as_u16 (run_idx h * 300)) in
  modify (λ h, h <| run_idx ::= λ i, add16 i 1 |>);;;
  ret (mkPorts b (add16 b 100) (add16 b 200) (add16 b 275)).

Definition run_dir (h : Harness) (cfg : BenchConfig) (p : Ports) : string :=
  path_join (runs_dir h) (short (bc_protocol cfg) +:+ "-n" +:+ pretty (bc_num_nodes cfg) +:+ "-c" +:+
    pretty (bc_num_clients cfg) +:+ "-b" +:+ pretty (bc_block_size cfg) +:+ "-p" +:+
    pretty (bc_payload cfg) +:+ "-" +:+ pretty (base p)).

(** The command line of genconfig. *)
Definition genconfig_args (cfg : BenchConfig) (dir : string) (p : Ports) : Args := list_to_map
  [("num_nodes", pretty (bc_num_nodes cfg)); ("num_faults", pretty (bc_num_faults cfg));
   ("delay", "50"); ("block_size", pretty (bc_block_size cfg)); ("base_port", pretty (base p));
   ("client_base_port", pretty (cli_base p)); ("mempool_base_port", pretty (mempool_base p));
   ("client_listen_port", pretty (client_listen p)); ("num_clients", pretty (bc_num_clients cfg));
   ("payload", pretty (bc_payload cfg)); ("target", dir)].

(** The text of `ip_file` and `cli_ip_file`. *)
Definition ip_text (n port : N) : string :=
  foldl (λ t i, t +:+ "127.0.0.1:" +:+ pretty (add64 port i) +:+ "
") "" (indices n).

(** The command lines of node [i] and client [j]; `-s` is a flag without a
    value. *)
Definition node_args (cfg : BenchConfig) (dir : string) (i : N) : Args :=
  let m := list_to_map [("config", path_join dir ("nodes-" +:+ pretty i +:+ ".json"));
    ("ip", path_join dir "ip_file"); ("sleep", pretty (bootstrap_secs (bc_num_nodes cfg)));
    ("delta", "50")] in
  if wants_special_client (bc_protocol cfg) then <["special_client" := ""]> m else m.
Definition client_args (cfg : BenchConfig) (dir : string) (j : N) : Args := list_to_map
  [("config", path_join dir ("client-" +:+ pretty j +:+ ".json"));
   ("ip", path_join dir "cli_ip_file"); ("metrics", pretty (bc_total_txs cfg));
   ("window", pretty (bc_window cfg))].

(** ** Reading the numbers back *)
Section results.
Context `{F64}.

Definition extract_after (line pre : string) : option f64 :=
  rest ← find_after pre line; f64_parse (trim rest).

(** The end of `parse_server_throughput_median`. *)
Definition f64_median (vals : list f64) : option f64 :=
  if bool_decide (length vals = 0) then None
  else
    let sorted := merge_sort f64_le vals in
    let mid := length vals / 2 in
    if (length vals mod 2 =? 0)%nat then
      lo ← sorted !! (mid - 1); hi ← sorted !! mid; Some (f64_div (f64_add lo hi) (f64_of 2))
    else sorted !! mid.
Definition parse_server_throughput_median (node0_log : option string) : option f64 :=
  text ← node0_log;
  f64_median (omap (λ l, extract_after l "DP[Throughput]: ") (lines text)).

(** The lines of a client's two streams in the order they were read: the last
    value of each kind stays. *)
Definition note_line (acc : option f64 * option f64) (l : string) : option f64 * option f64 :=
  (match extract_after l "DP[Throughput]: " with Some v => Some v | None => acc.1 end,
   match extract_after l "DP[Latency]: " with Some v => Some v | None => acc.2 end).
(** [None] is a client that did not finish within the 600 seconds. *)
Definition parse_client (j : N) (log_path : string) (out : option (list string))
    : result string (option f64 * f64) :=
  match out with
  | None => Err "client timed out before reporting DP stats"
  | Some ls =>
      match foldl note_line (None, None) ls with
      | (t, Some l) => Ok (t, l)
      | (_, None) => Err ("client " +:+ pretty j +:+ " produced no DP[Latency] line (check " +:+
                           log_path +:+ ")")
      end
  end.

(** Every client's task is awaited; the first error is reported.  The outer
    [Err] is a task that panicked. *)
Fixpoint collect (j : N) (l : list (result string (result string (option f64 * f64))))
    (out : list (option f64 * f64)) (first_err : option string)
    : result string (list (option f64 * f64)) :=
  let first e := match first_err with Some e0 => Some e0 | None => Some e end in
  match l with
  | [] => match first_err with Some e => Err e | None => Ok out end
  | Ok (Ok tl) :: l' => collect (j + 1) l' (out ++ [tl]) first_err
  | Ok (Err e) :: l' => collect (j + 1) l' out (first ("client " +:+ pretty j +:+ ": " +:+ e))
  | Err e :: l' => collect (j + 1) l' out (first ("client " +:+ pretty j +:+ " task: " +:+ e))
  end.

Record BenchResult := mkResult {
  throughput : f64;
  throughput_src : string;
  latency_ms : f64;
  per_client : list (option f64 * f64);
  (** In nanoseconds. *)
  wall_elapsed : N;
}.

Definition f64_sum (l : list f64) : f64 := foldl f64_add f64_zero l.
Definition bench_result (node0_log : option string) (pairs : list (option f64 * f64)) (elapsed : N)
    : BenchResult :=
  let (t, src) := match parse_server_throughput_median node0_log with
                  | Some m => (m, "server-median")
                  | None => (f64_sum (omap fst pairs), "client-sum")
                  end in
  {| throughput := t; throughput_src := src;
     latency_ms := if bool_decide (pairs = []) then f64_zero
                   else f64_div (f64_sum (snd <$> pairs)) (f64_of (N.of_nat (length pairs)));
     per_client := pairs; wall_elapsed := elapsed |}.

(** ** Reporting *)
Definition BOX_WIDTH : nat := 63.
Definition box_line : string := repeat_str "─" BOX_WIDTH.

Definition print_header (cfg : BenchConfig) : list string :=
  [""; "┌" +:+ box_line;
   "│ " +:+ label (bc_protocol cfg) +:+ " (n=" +:+ pretty (bc_num_nodes cfg) +:+ ", f=" +:+
     pretty (bc_num_faults cfg) +:+ ", clients=" +:+ pretty (bc_num_clients cfg) +:+ ", blk=" +:+
     pretty (bc_block_size cfg) +:+ ", payload=" +:+ pretty (bc_payload cfg) +:+ "B, window=" +:+
     pretty (bc_window cfg) +:+ ", txs/cli=" +:+ pretty (bc_total_txs cfg) +:+ ")";
   "├" +:+ box_line].

Definition client_row (j : N) (tl : option f64 * f64) : string :=
  match tl.1 with
  | Some t => "│   client " +:+ right_in 2 (pretty j) +:+ "    : " +:+ right_in 12 (f64_fixed 2 t) +:+
                " tx/s   " +:+ right_in 8 (f64_fixed 2 tl.2) +:+ " ms/tx"
  | None => "│   client " +:+ right_in 2 (pretty j) +:+ "    : " +:+ right_in 12 "—" +:+
                "      " +:+ right_in 8 (f64_fixed 2 tl.2) +:+ " ms/tx"
  end.
Definition print_result (r : BenchResult) : list string :=
  let n := length (per_client r) in
  ["│ Throughput     : " +:+ right_in 12 (f64_fixed 2 (throughput r)) +:+ " tx/s  (" +:+
     throughput_src r +:+ ")";
   "│ Avg Latency    : " +:+ right_in 12 (f64_fixed 2 (latency_ms r)) +:+ " ms/tx (mean across " +:+
     pretty (N.of_nat n) +:+ " client" +:+ (if (n =? 1)%nat then "" else "s") +:+ ")"] ++
  (if (1 <? n)%nat then imap (λ j, client_row (N.of_nat j)) (per_client r) else []) ++
  ["│ Wall elapsed   : " +:+ right_in 12 (f64_fixed 2 (as_secs_f64 (wall_elapsed r))) +:+ " s";
   "└" +:+ box_line].
Definition print_failure (err : string) : list string := ["│ FAILED: " +:+ err; "└" +:+ box_line].

(** A row of the summary: the six columns of a configuration, then two more. *)
Definition summary_row (protocol n f c blk txs rest : string) : string :=
  "│ " +:+ left_in 16 protocol +:+ " " +:+ right_in 4 n +:+ " " +:+ right_in 4 f +:+ " " +:+
  right_in 4 c +:+ " " +:+ right_in 5 blk +:+ " " +:+ right_in 7 txs +:+ " " +:+ rest.
Definition result_cells (r : option BenchResult) : string :=
  match r with
  | Some r => right_in 10 (f64_fixed 2 (throughput r)) +:+ " tx/s " +:+
                right_in 11 (f64_fixed 2 (latency_ms r)) +:+ " ms"
  | None => right_in 16 "FAILED" +:+ " " +:+ right_in 16 "FAILED"
  end.
Definition config_row (cr : BenchConfig * option BenchResult) : string :=
  let c := cr.1 in
  summary_row (label (bc_protocol c)) (pretty (bc_num_nodes c)) (pretty (bc_num_faults c))
    (pretty (bc_num_clients c)) (pretty (bc_block_size c)) (pretty (bc_total_txs c)) (result_cells cr.2).
Definition summary_header : string :=
  summary_row "Protocol" "N" "f" "C" "blk" "txs/c" (right_in 16 "Throughput" +:+ " " +:+ right_in 16 "Latency").
Definition print_summary (results : list (BenchConfig * option BenchResult)) : list string :=
  let line := repeat_str "─" 96 in
  [""; "┌" +:+ line; summary_header; "├" +:+ line] ++ (config_row <$> results) ++ ["└" +:+ line].

Definition println (ls : list string) : M Harness unit := modify (λ h, h <| stdout ::= λ o, o ++ ls |>).

(** ** The system and the child processes *)
Class Children := {
  (** `fs::create_dir_all` and `fs::write`, which can fail. *)
  make_run_dir : string → result string unit;
  fs_write : string → result string unit;
  (** genconfig, if it could be started at all: whether it succeeded (its
      standard error otherwise). *)
  run_genconfig : Args → result string (result string unit);
  (** A node's log file is created and its process started. *)
  start_node : Protocol → Args → result string unit;
  (** The task of client [j], given its command line.  The outer [Err] is a
      panic of the task, the inner one a failure to start the client or to
      create its log; otherwise what the client printed, if it finished. *)
  run_client : Protocol → Args → result string (result string (option (list string)));
  (** The log of node 0 after the run. *)
  node0_log : Protocol → list Args → option string;
  (** How long the clients ran. *)
  clients_elapsed : Protocol → list Args → N;
}.
Context `{Children}.

(** `r?` in a function on the harness. *)
Definition try_ok {A B} (r : result string A) (k : A → M Harness (result string B))
    : M Harness (result string B) :=
  match r with Ok a => k a | Err e => ret (Err e) end.

Definition write_file (path text : string) : M Harness (result string unit) :=
  try_ok (fs_write path) (λ _, modify (λ h, h <| written ::= insert path text |>);;; ret (Ok tt)).
Definition write_ip_files (dir : string) (n : N) (p : Ports) : M Harness (result string unit) :=
  let! r := write_file (path_join dir "ip_file") (ip_text n (base p)) in
  try_ok r (λ _, write_file (path_join dir "cli_ip_file") (ip_text n (cli_base p))).

(** `for i in 0..num_nodes { nodes.push(spawn_node(..).await?) }`. *)
Fixpoint start_nodes (proto : Protocol) (nodes : list Args) : result string unit :=
  match nodes with
  | [] => Ok tt
  | m :: nodes' => _ ← start_node proto m; start_nodes proto nodes'
  end.
Definition client_task (cfg : BenchConfig) (dir : string) (j : N)
    : result string (result string (option f64 * f64)) :=
  r ← run_client (bc_protocol cfg) (client_args cfg dir j);
  Ok (out ← r; parse_client j (path_join dir ("client-" +:+ pretty j +:+ ".log")) out).

Definition run (cfg : BenchConfig) : M Harness (result string BenchResult) :=
  let! p := alloc_ports in
  let! h := get in
  let dir := run_dir h cfg p in
  try_ok (make_run_dir dir) (λ _,
  try_ok (run_genconfig (genconfig_args cfg dir p)) (λ r,
  match r with
  | Err e => ret (Err ("genconfig exited non-zero: " +:+ e))
  | Ok _ =>
      let! w := write_ip_files dir (bc_num_nodes cfg) p in
      try_ok w (λ _,
      let nodes := node_args cfg dir <$> indices (bc_num_nodes cfg) in
      try_ok (start_nodes (bc_protocol cfg) nodes) (λ _,
      let outs := client_task cfg dir <$> indices (bc_num_clients cfg) in
      let elapsed := clients_elapsed (bc_protocol cfg) (client_args cfg dir <$> indices (bc_num_clients cfg)) in
      ret (pairs ← collect 0 outs [] None;
           Ok (bench_result (node0_log (bc_protocol cfg) nodes) pairs elapsed))))
  end)).

(** `main`'s loop: a run that fails is reported and the next one starts. *)
Fixpoint run_all (matrix : list BenchConfig) : M Harness (list (BenchConfig * option BenchResult)) :=
  match matrix with
  | [] => ret []
  | cfg :: rest =>
      println (print_header cfg);;;
      let! r := run cfg in
      println (match r with Ok r => print_result r | Err e => print_failure e end);;;
      let! results := run_all rest in
      ret ((cfg, match r with Ok r => Some r | Err _ => None end) :: results)
  end.
End results.

Definition binaries : list string :=
  ["genconfig"; "node-apollo"; "client-apollo"; "node-artemis"; "client-artemis"; "node-synchs";
   "client-synchs"; "node-optsync"; "client-optsync"].
(** The first binary that was not built. *)
Definition missing_binary (exists_ : string → bool) (root : string) : option string :=
  snd <$> list_find (λ bin, exists_ (path_join root ("target/release/" +:+ bin)) = false) binaries.

(** The lines before the first run. *)
Definition banner (matrix : list BenchConfig) : list string :=
  [centre_in "=" 63 " libchatter-rs baseline stress test ";
   "Protocols: Apollo, Artemis, Sync HotStuff, Opt Sync.     Loopback (127.0.0.1), release build."] ++
  match matrix with
  | c :: _ => if (1 <? bc_num_clients c)%N
              then ["Multi-client: " +:+ pretty (bc_num_clients c) +:+ " parallel clients per run"] else []
  | [] => []
  end.

(** The final harness holds what was printed. *)
Definition main `{F64} `{!Children} (exists_ : string → bool) (root : string)
    (only clients : option string) : result string Harness :=
  match missing_binary exists_ root with
  | Some bin => Err ("missing target/release/" +:+ bin +:+ ". Run `cargo build --release` first.")
  | None =>
      let matrix := build_matrix only clients in
      match (println (banner matrix);;;
             let! results := run_all matrix in
             println (print_summary results)) (harness_new root) with
      | Done _ h => Ok h
      | Panicked why => Err why
      | OutOfFuel => Err ""
      end
  end.

(** ** The ports of a run *)
(** The sockets of a run: the nodes', their intakes, their mempools and the
    clients' listeners, at the ports genconfig derives from the four bases. *)
Definition sockets (n clients : N) (p : Ports) : list N :=
  (add16 (base p) <$> indices n) ++ (add16 (cli_base p) <$> indices n) ++
  (add16 (mempool_base p) <$> indices n) ++ (add16 (client_listen p) <$> indices clients).

Lemma block_ports b n :
  (b + n ≤ u16_size)%N → NoDup (add16 b <$> indices n) ∧
  ∀ s, s ∈ add16 b <$> indices n ↔ (b ≤ s < b + n)%N.
Proof.
  intros Hb. assert (∀ i, (i < n)%N → add16 b i = (b + i)%N) as Hi.
  { intros i ?. apply N.mod_small. lia. }
  split.
  - apply NoDup_fmap_2_strong.
    + intros i j Hi1%elem_of_indices Hj1%elem_of_indices. rw !Hi //. lia.
    + unfold indices. apply NoDup_fmap; [apply _|apply NoDup_seq].
  - intros s. rw list_elem_of_fmap. split.
    + intros (i & -> & Hi1%elem_of_indices). rw Hi //. lia.
    + intros Hs. exists (s - b)%N. rw elem_of_indices. rw Hi; lia.
Qed.

Lemma alloc_ports_spec h :
  (run_idx h ≤ 147)%N →
  let b := (21000 + 300 * run_idx h)%N in
  alloc_ports h = Done (mkPorts b (b + 100) (b + 200) (b + 275)) (h <| run_idx := (run_idx h + 1)%N |>).
Proof.
  intros Hh b. assert (∀ x y, (x + y < u16_size)%N → add16 x y = (x + y)%N) as Hadd
    by (intros; by apply N.mod_small).
  unfold alloc_ports, bind, get, modify, ret. cbv beta zeta iota.
  assert (add16 21000 (as_u16 (run_idx h * 300)) = b) as ->.
  { unfold as_u16. rw N.mod_small; [|unfold u16_size; lia]. rw Hadd; unfold b, u16_size; lia. }
  rw (Hadd b 100%N) ?(Hadd b 200%N) ?(Hadd b 275%N); [|unfold b, u16_size; lia..].
  unfold set; simpl. rw (Hadd (run_idx h) 1%N) //. unfold u16_size. lia.
Qed.

(** C40.  Ports do not wrap and do not meet.  In each of the first 148 runs of
    a harness, with at most 75 nodes and 25 clients, the four port bases stay
    within 16 bits, no two sockets of the run share a port, and all of them
    lie in the run's own block of 300: those of different runs are disjoint. *)
Theorem harness_ports h n clients :
  (run_idx h ≤ 147)%N → (n ≤ 75)%N → (clients ≤ 25)%N →
  ∃ p, alloc_ports h = Done p (h <| run_idx := (run_idx h + 1)%N |>) ∧
    NoDup (sockets n clients p) ∧
    ∀ s, s ∈ sockets n clients p →
      (21000 + 300 * run_idx h ≤ s < 21000 + 300 * (run_idx h + 1))%N ∧ (s < u16_size)%N.
Proof.
  intros Hh Hn Hc. eexists. split; [by apply alloc_ports_spec|]. set (b := (21000 + 300 * run_idx h)%N).
  assert (b + 300 ≤ u16_size)%N as Hb by (unfold b, u16_size; lia).
  destruct (block_ports b n ltac:(lia)) as [N1 E1].
  destruct (block_ports (b + 100) n ltac:(lia)) as [N2 E2].
  destruct (block_ports (b + 200) n ltac:(lia)) as [N3 E3].
  destruct (block_ports (b + 275) clients ltac:(lia)) as [N4 E4].
  unfold sockets; simpl. split.
  - rw !NoDup_app. setoid_rewrite elem_of_app. setoid_rewrite elem_of_app.
    setoid_rewrite E1. setoid_rewrite E2. setoid_rewrite E3. setoid_rewrite E4.
    repeat split; try done; intros s; lia.
  - intros s. rw !elem_of_app E1 E2 E3 E4. unfold b in *. lia.
Qed.

(** ** The files of a run *)
Lemma rsplit_snoc c p q :
  free c q = true →
  rsplit_once c (p +:+ q) = (λ lr, (lr.1, lr.2 +:+ q)) <$> rsplit_once c p.
Proof.
  intros Hq. induction p as [|a p IH]; [exact (rsplit_free c q Hq)|].
  change (String a p +:+ q) with (String a (p +:+ q)). cbn [rsplit_once]. rw IH.
  destruct (rsplit_once c p) as [[l r]|]; [done|]. by destruct (is_char c a).
Qed.

(** A directory whose name ends in a number. *)
Lemma path_join_plain x (k : N) name : path_join (x +:+ pretty k) name = (x +:+ pretty k) +:+ "/" +:+ name.
Proof.
  unfold path_join. rw rsplit_snoc; [|apply free_pretty; lia].
  assert (pretty k ≠ "") as Hk.
  { intros E. pose proof (parse_uint_pretty (k + 1) k ltac:(lia)) as Hp. by rw E in Hp. }
  assert (∀ y : string, y +:+ pretty k ≠ "") as Hy by (intros [|a y]; [exact Hk|done]).
  rw bool_decide_false //. destruct (rsplit_once 47 x) as [[l r]|]; [|done]. simpl.
  specialize (Hy r). by destruct (r +:+ pretty k).
Qed.

Lemma run_dir_plain h cfg p : ∃ x, run_dir h cfg p = x +:+ pretty (base p).
Proof.
  unfold run_dir, path_join. rw !(assoc_L String.append).
  destruct (rsplit_once 47 (runs_dir h)) as [[l [|a r]]|]; [by eexists|..];
    case_bool_decide; by eexists.
Qed.

Definition addrs (port n : N) : list string := (λ i, local_addr (add64 port i)) <$> indices n.

Lemma no_space_local port : no_space (local_addr port) = true.
Proof.
  unfold local_addr. rw all_chars_app all_chars_pretty //. apply digit_cases.
  repeat (constructor; [reflexivity|]). constructor.
Qed.
Lemma free_local c port :
  (c < 46 ∨ 58 < c)%N → free c (local_addr port) = true.
Proof.
  intros Hc. unfold local_addr. rw all_chars_app free_pretty; [|lia]. rw andb_true_r. simpl.
  rw !andb_true_iff !negb_true_iff. unfold is_char. rw !N.eqb_neq. vm_compute ascii_code. lia.
Qed.

Lemma foldl_addrs port l t :
  foldl (λ t i, t +:+ "127.0.0.1:" +:+ pretty (add64 port i) +:+ "
") t l =
  foldl (λ t x, t +:+ x +:+ "
") t ((λ i, local_addr (add64 port i)) <$> l).
Proof.
  revert t. induction l as [|i l IH]; intros t; [done|]. etrans; [apply IH|].
  cbn [fmap list_fmap foldl]. unfold local_addr. by rw -(assoc_L String.append "127.0.0.1:").
Qed.
Lemma ip_text_lines n port : ip_text n port = unlines (addrs port n).
Proof. apply foldl_addrs. Qed.

Lemma ip_text_reads `{Host} f n port :
  read_text f = Some (ip_text n port) → file_to_ips f = Some (addrs port n).
Proof.
  intros E. unfold file_to_ips. rw E. simpl. f_equal.
  rw ip_text_lines lines_unlines.
  - unfold addrs. induction (indices n) as [|i l IH]; [done|]. cbn [fmap list_fmap].
    rw IH trim_id //. apply no_space_local.
  - apply Forall_fmap, Forall_forall. intros i _. split; apply free_local; lia.
Qed.

Lemma addrs_16 port n :
  (port + n ≤ u16_size)%N →
  addrs port n = (λ i, local_addr (add16 port (N.of_nat i))) <$> seq 0 (N.to_nat n).
Proof.
  intros Hp. unfold addrs, indices. rw -list_fmap_compose. apply list_fmap_ext.
  intros k i [-> Hk]%lookup_seq. unfold compose. f_equal.
  assert (port + N.of_nat (0 + k) < u16_size)%N as Hlt by lia.
  unfold add64, add16, as_u16, wrap64. rw (N.mod_small _ u16_size) //. apply N.mod_small.
  unfold u16_size, u64_size in *. lia.
Qed.

(** ** A run of the harness *)
Record bench_ok (cfg : BenchConfig) : Prop := {
  ok_faults : (2 * bc_num_faults cfg < bc_num_nodes cfg)%N;
  ok_nodes : (bc_num_nodes cfg ≤ 75)%N;
  ok_clients : (0 < bc_num_clients cfg ≤ 25)%N;
  ok_block : (0 < bc_block_size cfg < u64_size)%N;
  ok_payload : (bc_payload cfg < u64_size)%N;
  ok_txs : (bc_total_txs cfg < u64_size)%N;
  ok_window : (bc_window cfg < u64_size)%N;
}.

Lemma build_matrix_ok only clients :
  (default 1%N (clients ≫= parse_u16) ≤ 25)%N → Forall bench_ok (build_matrix only clients).
Proof.
  intros Hc. unfold build_matrix. apply Forall_forall. intros cfg.
  generalize dependent (default 1%N (clients ≫= parse_u16)). intros c Hc.
  intros (proto & Hin & _)%list_elem_of_bind. revert Hin.
  intros ([n f] & -> & Hnf)%list_elem_of_fmap. rw !elem_of_cons in Hnf.
  destruct Hnf as [[= -> ->]|[[= -> ->]|Hnf%not_elem_of_nil]]; [..|done];
    split; cbn [bc_num_nodes bc_num_faults bc_num_clients bc_block_size bc_payload bc_total_txs bc_window];
    unfold u64_size; lia.
Qed.

(** What genconfig makes of the harness' command line. *)
Definition bench_args (cfg : BenchConfig) (dir : string) (p : Ports) : GenArgs := {|
  g_num_nodes := bc_num_nodes cfg; g_num_faults := bc_num_faults cfg; g_delay := 50;
  g_base_port := base p; g_blocksize := bc_block_size cfg; g_client_base_port := cli_base p;
  g_algorithm := ED25519; g_out := "json"; g_target := dir; g_payload := bc_payload cfg;
  g_client_listen_port := client_listen p; g_mempool_base_port := mempool_base p;
  g_num_clients := bc_num_clients cfg; g_node_sans := []; g_client_sans := [] |}.

(** Reading a command line. *)
Ltac look := repeat first [rw lookup_insert_eq | rw lookup_insert_ne; [|done]]; rw ?lookup_empty.

Lemma node_args_look cfg dir i :
  let m := node_args cfg dir i in
  m !! "config" = Some (path_join dir ("nodes-" +:+ pretty i +:+ ".json")) ∧
  m !! "ip" = Some (path_join dir "ip_file") ∧ m !! "delta" = Some "50" ∧
  m !! "sleep" = Some (pretty (bootstrap_secs (bc_num_nodes cfg))) ∧ m !! "store" = None.
Proof.
  unfold node_args. cbn [list_to_map foldr].
  destruct (wants_special_client _); repeat split; by look.
Qed.

Lemma client_args_look cfg dir j :
  let m := client_args cfg dir j in
  m !! "config" = Some (path_join dir ("client-" +:+ pretty j +:+ ".json")) ∧
  m !! "ip" = Some (path_join dir "cli_ip_file") ∧
  m !! "metrics" = Some (pretty (bc_total_txs cfg)) ∧
  m !! "window" = Some (pretty (bc_window cfg)) ∧
  m !! "rate" = None ∧ m !! "burst_interval_ms" = None ∧ m !! "txs_per_burst" = None.
Proof. unfold client_args. cbn [list_to_map foldr]. repeat split; by look. Qed.

(** genconfig and the harness spell the paths alike. *)
Lemma conf_path_join cfg x (k : N) p (kind : string) (i : N) :
  path_join (x +:+ pretty k) (kind +:+ pretty i +:+ ".json") =
  conf_path (bench_args cfg (x +:+ pretty k) p) (kind +:+ pretty i) "json".
Proof. rw path_join_plain. unfold conf_path. simpl. do 2 f_equal. by rw -(assoc_L String.append). Qed.

Section harness.
Context `{KeyTools}.

Lemma genconfig_args_parse cfg dir p :
  bench_ok cfg → parse_algorithm "ED25519" = Some ED25519 →
  Forall (λ x, x < u16_size)%N [base p; cli_base p; mempool_base p; client_listen p] →
  parse_args (genconfig_args cfg dir p) = Ok (bench_args cfg dir p).
Proof.
  intros [] Ha Hp. rw !Forall_cons in Hp. destruct Hp as (? & ? & ? & ? & _).
  unfold parse_args, required, genconfig_args. cbn [list_to_map foldr].
  look. unfold parse_u64, parse_u16. cbn -[parse_uint pretty].
  rw !parse_uint_pretty; [|unfold u64_size, u16_size in *; lia..].
  cbn [expect mbind result_bind default from_option].
  change (parse_uint u64_size "50") with (Some 50%N). cbn [expect mbind result_bind]. rw Ha.
  assert ((bc_num_clients cfg =? 0)%N = false) as -> by (apply N.eqb_neq; lia). done.
Qed.

Lemma bench_args_sound cfg dir p :
  bench_ok cfg → (∀ i, (ed25519_keys i).1 ≠ [] ∧ (ed25519_keys i).2 ≠ []) →
  sound (bench_args cfg dir p).
Proof.
  intros [] Hk. split; simpl; [unfold u16_size; lia|lia|unfold u16_size; lia|].
  intros i _. destruct (Hk i) as [H1 H2]. destruct (ed25519_keys i) as [pk kp]. by exists pk, kp.
Qed.
End harness.

Section cluster.
Context `{Bincode} `{Host} `{KeyTools}.

(** The files a harness run leaves in [dir], as the binaries read them. *)
Record run_files (cfg : BenchConfig) (dir : string) (p : Ports) (files : list File) : Prop := {
  rf_reads : reads files;
  rf_ip : read_text (path_join dir "ip_file") = Some (ip_text (bc_num_nodes cfg) (base p));
  rf_cli : read_text (path_join dir "cli_ip_file") = Some (ip_text (bc_num_nodes cfg) (cli_base p));
}.

(** Node [i] on its command line. *)
Lemma harness_node cfg dir p files i c :
  bench_ok cfg → (base p + 75 ≤ u16_size)%N → (cli_base p + 75 ≤ u16_size)%N →
  (∃ x k, dir = x +:+ pretty (k : N)) → host_ok →
  run_files cfg dir p files → (i < bc_num_nodes cfg)%N →
  cluster_node (bench_args cfg dir p) i c →
  mkFile (conf_path (bench_args cfg dir p) ("nodes-" +:+ pretty i) "json") JSON (NodeFile c) ∈ files →
  ∃ b, boot (node_args cfg dir i) = Ok b ∧
    booted (base p) (cli_base p) (bc_num_nodes cfg) i (any_addr (add16 (base p) i)) b ∧
    s_sleep_time (b_setup b) = bootstrap_secs (bc_num_nodes cfg).
Proof.
  intros Hok Hb Hcb (x & k & ->) Hst [Hr Hip _] Hi Hnode Hin.
  pose proof (ok_nodes _ Hok) as Hnn. set (dir := x +:+ pretty k) in *.
  destruct (node_args_look cfg dir i) as (L1 & L2 & L3 & L4 & L5). unfold dir in L1.
  rw (conf_path_join cfg x k p) in L1.
  destruct (boot_ok (node_args cfg dir i) (bench_args cfg dir p) i c (path_join dir "ip_file") 50
    (bootstrap_secs (bc_num_nodes cfg)) Hst) as (b & nets & Eb & Hbo & Hsl & _); try done.
  - simpl. unfold u16_size. lia.
  - rw (ip_text_reads _ _ _ Hip) addrs_16; [done|lia].
  - by apply Hr.
  - unfold override. by rw L3.
  - unfold override. rw L4. unfold parse_u64. rw parse_uint_pretty //.
    unfold bootstrap_secs. by apply N.mod_lt.
  - by exists b.
Qed.

(** Client [j] on its command line. *)
Lemma harness_client cfg dir p files j (c : Client) :
  bench_ok cfg → (cli_base p + 75 ≤ u16_size)%N → (∃ x k, dir = x +:+ pretty (k : N)) →
  run_files cfg dir p files → cluster_client (bench_args cfg dir p) j c →
  mkFile (conf_path (bench_args cfg dir p) ("client-" +:+ pretty j) "json") JSON (ClientFile c) ∈ files →
  (∃ st, keyed_client (client_args cfg dir j) = Ok (st, 100%N) ∧
    KeyedClient.my_client_id st = j ∧ KeyedClient.metric st = bc_total_txs cfg ∧
    KeyedClient.reply_to st = loopback (add16 (client_listen p) j) ∧
    endpoints (cli_base p) (bc_num_nodes cfg) (KeyedClient.peer_map st)) ∧
  (∀ start, ∃ st, window_client (client_args cfg dir j) start = Ok st ∧
    WindowClient.metric st = bc_total_txs cfg ∧ WindowClient.pending st = bc_window cfg ∧
    endpoints (cli_base p) (bc_num_nodes cfg) (WindowClient.peer_map st)).
Proof.
  intros Hok Hcb (x & k & ->) [Hr _ Hcli] Hclient Hin.
  pose proof Hok as [_ Hnn _ _ _ Htx Hwin]. set (dir := x +:+ pretty k) in *.
  destruct (client_args_look cfg dir j) as (L1 & L2 & L3 & L4 & L5 & L6 & L7). unfold dir in L1.
  rw (conf_path_join cfg x k p) in L1.
  destruct (client_setup_ok (client_args cfg dir j) (bench_args cfg dir p) j c (path_join dir "cli_ip_file"))
    as (c2 & Hs & Hid2 & Hla2 & Hnet3); try done.
  { simpl. unfold u16_size. lia. }
  { rw (ip_text_reads _ _ _ Hcli) addrs_16; [done|lia]. }
  { by apply Hr. }
  destruct (addresses_parse _ _ _ Hnet3) as (peers & Ep & Hends).
  unfold keyed_client, window_client, txs_per_burst, arg_or.
  rw Hs L3 L4 L5 L6 L7. unfold parse_u64.
  cbn [mbind result_bind default from_option]. rw !parse_uint_pretty //.
  split; [|intros start].
  - change (parse_uint u64_size "100") with (Some 100%N). change (parse_uint u64_size "0") with (Some 0%N).
    cbn -[parse_addr]. unfold KeyedClient.init. rw Ep. cbn -[parse_addr]. rw Hla2 (parse_local (client_listen p) j).
    eexists. split; [reflexivity|]. by rw /= Hid2.
  - cbn -[parse_addr]. unfold WindowClient.init. rw Ep. cbn -[parse_addr]. rw Hla2 (parse_local (client_listen p) j).
    eexists. by split.
Qed.

(** C31.  A run of the stress test starts the cluster it means to.  Within the
    first 148 runs, with at most 75 nodes, fewer than half of them faulty, and
    at most 25 clients, genconfig succeeds on the command line the harness
    gives it (with keys and certificates that can be made); and every binary,
    where databases open and TLS senders are set up without error, started with the harness' arguments on the
    files of the run, boots: node [i] binds port `base+i` on all interfaces,
    its peers are the other nodes at their loopback addresses, its intake is
    open on `cli_base+i` and it waits the harness' bootstrap time; every
    client sends to exactly those intakes, asks its replies at its own port
    and stops at `total_txs`. *)
Theorem harness_run cfg h root :
  bench_ok cfg → (run_idx h ≤ 147)%N →
  root_cert = Some root → (∀ name sans, is_Some (signed_cert name sans)) →
  parse_algorithm "ED25519" = Some ED25519 →
  (∀ i, (ed25519_keys i).1 ≠ [] ∧ (ed25519_keys i).2 ≠ []) →
  host_ok →
  ∃ p h' files, alloc_ports h = Done p h' ∧
    let dir := run_dir h' cfg p in
    genconfig (genconfig_args cfg dir p) [] = Done (Some tt) files ∧
    (run_files cfg dir p files →
      (∀ i, (i < bc_num_nodes cfg)%N → ∃ b, boot (node_args cfg dir i) = Ok b ∧
        booted (base p) (cli_base p) (bc_num_nodes cfg) i (any_addr (add16 (base p) i)) b ∧
        s_sleep_time (b_setup b) = bootstrap_secs (bc_num_nodes cfg)) ∧
      (∀ j, (j < bc_num_clients cfg)%N →
        (∃ st, keyed_client (client_args cfg dir j) = Ok (st, 100%N) ∧
          KeyedClient.my_client_id st = j ∧ KeyedClient.metric st = bc_total_txs cfg ∧
          KeyedClient.reply_to st = loopback (add16 (client_listen p) j) ∧
          endpoints (cli_base p) (bc_num_nodes cfg) (KeyedClient.peer_map st)) ∧
        (∀ start, ∃ st, window_client (client_args cfg dir j) start = Ok st ∧
          WindowClient.metric st = bc_total_txs cfg ∧ WindowClient.pending st = bc_window cfg ∧
          endpoints (cli_base p) (bc_num_nodes cfg) (WindowClient.peer_map st)))).
Proof.
  intros Hok Hh Hroot Hcert Halg Hkeys Hst. set (b := (21000 + 300 * run_idx h)%N).
  assert (b + 300 ≤ u16_size)%N as Hb by (unfold b, u16_size; lia).
  set (p := mkPorts b (b + 100) (b + 200) (b + 275)). set (h' := h <| run_idx := (run_idx h + 1)%N |>).
  set (dir := run_dir h' cfg p).
  assert (∃ x k, dir = x +:+ pretty (k : N)) as Hdir.
  { destruct (run_dir_plain h' cfg p) as [x E]. by exists x, (base p). }
  destruct (genconfig_cluster (genconfig_args cfg dir p) (bench_args cfg dir p) root [])
    as (files & E & Hf); [|by apply bench_args_sound|done..|].
  { apply genconfig_args_parse; [done..|]. repeat constructor; simpl; lia. }
  exists p, h', files. split; [by apply alloc_ports_spec|]. split; [exact E|]. intros Hfiles.
  destruct (Hf JSON "json" eq_refl) as [Hn Hc]. split.
  - intros i Hi. destruct (Hn i Hi) as (c & Hnode & Hin).
    by eapply harness_node; [..|exact Hin]; simpl; try done; lia.
  - intros j Hj. destruct (Hc j Hj) as (c & Hclient & Hin).
    by eapply harness_client; [..|exact Hin]; simpl; try done; lia.
Qed.
End cluster.

(** ** Runs *)
Module StressExamples.
Import Toy ToyFormat GenExamples LaunchExamples.

Definition h0 : Harness := harness_new "/repo".
Definition cfg0 : BenchConfig := mkBench Artemis 3 1 2 400 0 50000 10000.
Definition p0 : Ports := mkPorts 21000 21100 21200 21275.
Definition dir0 : string := run_dir h0 cfg0 p0.
Definition disk0 : list File :=
  match genconfig (genconfig_args cfg0 dir0 p0) [] with Done _ files => files | _ => [] end.

#[local] Instance disk0_host : Host := {
  read_node ft path := find_file disk0 ft path ≫= λ f,
    match f with NodeFile c => Some c | ClientFile _ => None end;
  read_client ft path := find_file disk0 ft path ≫= λ f,
    match f with ClientFile c => Some c | NodeFile _ => None end;
  read_text path :=
    if bool_decide (path = "/repo/stress-test/runs/artemis-n3-c2-b400-p0-21000/ip_file")
    then Some (ip_text 3 21000)
    else if bool_decide (path = "/repo/stress-test/runs/artemis-n3-c2-b400-p0-21000/cli_ip_file")
    then Some (ip_text 3 21100) else None;
  open_store path := Some ∅;
  tls_sender chain key := Some tt;
}.

Lemma disk0_reads : run_files cfg0 dir0 p0 disk0.
Proof.
  split; [|by vm_compute|by vm_compute].
  assert (NoDup (file_path <$> disk0)) as Hnd by (apply (bool_decide_unpack _); vm_compute; exact I).
  intros path ft. split; intros c Hin; pose proof (find_file_in disk0 _ Hnd Hin) as E;
    cbn [file_type file_path file_conf] in E; cbn [read_node read_client disk0_host]; by rw E.
Qed.

Lemma harness_ports_witness :
  ∃ p, alloc_ports (h0 <| run_idx := 147%N |>) = Done p (h0 <| run_idx := 148%N |>) ∧
    NoDup (sockets 75 25 p).
Proof.
  destruct (harness_ports (h0 <| run_idx := 147%N |>) 75 25) as (p & E & Hn & _); [by vm_compute..|].
  exists p. split; [exact E|exact Hn].
Defined.

Lemma harness_run_witness :
  ∃ b, boot (node_args cfg0 dir0 2) = Ok b ∧ b_listen b = any_addr 21002 ∧
    b_peers b !! 0%N = Some (loopback 21000) ∧ b_intake b = any_addr 21102 ∧
    s_sleep_time (b_setup b) = 8%N.
Proof.
  destruct (harness_run cfg0 h0 "/tc/root-cert.pem") as (p & h' & files & Ea & Eg & H).
  - split; by vm_compute.
  - by vm_compute.
  - reflexivity.
  - by intros; eexists.
  - by vm_compute.
  - by intros i.
  - by intros; eexists.
  - injection Ea as <- <-.
    assert (files = disk0) as ->.
    { unfold disk0. change (run_dir _ _ _) with dir0 in Eg.
      change (mkPorts _ _ _ _) with p0 in Eg. by rw Eg. }
    destruct (H disk0_reads) as [Hn _].
    destruct (Hn 2%N) as (b & Eb & [_ Hl Hp Hi] & Hs); [reflexivity|].
    exists b. split; [exact Eb|]. split; [exact Hl|]. split; [exact (Hp 0%N)|]. split; [exact Hi|exact Hs].
Defined.

(** The 149th run is out of ports: its clients' listeners wrap around. *)
Example run_148_wraps :
  match alloc_ports (h0 <| run_idx := 148%N |>) with
  | Done p _ => (base p, cli_base p, client_listen p) | _ => (0%N, 0%N, 0%N)
  end = (65400%N, 65500%N, 139%N).
Proof. vm_compute. reflexivity. Qed.

(** With whole numbers for `f64`. *)
#[local] Instance whole : F64 := {
  f64 := N; f64_zero := 0%N; f64_of n := n; f64_add := N.add; f64_mul := N.mul; f64_div := N.div;
  f64_parse := parse_u64; f64_le := N.le; f64_show := pretty; f64_fixed k n := pretty n +:+ ".00";
  f64_as_usize n := n;
}.

(** Node 0's median is what is reported, whatever the clients measured; the
    clients' sum is used only when it printed nothing. *)
Example server_median_wins :
  let pairs := [(Some 700%N, 10%N); (Some 900%N, 30%N)] in
  (λ log, let r := bench_result log pairs 0 in (throughput r, throughput_src r, latency_ms r)) <$>
    [Some "DP[Throughput]: 40
noise
INFO DP[Throughput]: 10
DP[Throughput]:  90
"; Some "nothing here"; None]
  = [(40%N, "server-median", 20%N); (1600%N, "client-sum", 20%N); (1600%N, "client-sum", 20%N)].
Proof. vm_compute. reflexivity. Qed.

(** The last latency stays; a client without one fails the run, and of several
    failures the first is reported. *)
Example clients_are_read :
  parse_client 0 "c.log" (Some ["DP[Latency]: 5"; "x DP[Throughput]: 12 "; "DP[Latency]: 7"]) = Ok (Some 12%N, 7%N) ∧
  collect 0 [Ok (Ok (None, 3%N)); Ok (parse_client 1 "c.log" (Some [])); Ok (parse_client 2 "d.log" None)]
    [] None = Err "client 1: client 1 produced no DP[Latency] line (check c.log)" ∧
  collect 0 [Ok (Ok (None, 3%N)); Err "panicked"] [] None = Err "client 1 task: panicked".
Proof. vm_compute. split_and!; reflexivity. Qed.
End StressExamples.
