(* ===== verification/Report.v ===== *)
(** * What the programs print and the harness reads

    Clients and nodes report through lines of text: the clients' latencies
    (consensus/src/lib.rs), the nodes' throughput (node/reactor.rs), both read
    back by the stress test (stress-test/src/main.rs); and the Artemis node
    prints its metrics when it is stopped (artemis/src/node/metrics.rs).  A log
    may hold other lines in between. *)

From Stdlib Require Import Ascii.
From stdpp Require Import pretty sorting.
From S2P Require Import Prelude Crypto Types Text Format Config Storage GenConfig Batch NodeIO.
From S2P Require Import Stats Apollo ApolloProofs Artemis KeyedClient WindowClient Meter StressTest.

(** ** The lines *)
Section lines.
Context `{F64}.

(** `emit_window_latency`. *)
Definition latency_line (median : N) : string := "DP[Latency]: " +:+ pretty median.
(** The sampler of the reactors. *)
Definition throughput_line (window_secs tx : N) : string :=
  "DP[Throughput]: " +:+ f64_show (f64_div (f64_of tx) (f64_of window_secs)).
(** The two numbers of `statistics`, which go through the logger: [pre] is the
    time, the level and the module. *)
Definition statistics_lines (pre : string) (s : Summary) (elapsed : N) : list string :=
  [pre +:+ "DP[Throughput]: " +:+ f64_show (f64_div (f64_of (sm_idx s)) (as_secs_f64 elapsed));
   pre +:+ "DP[Latency]: " +:+ f64_show (f64_div (f64_of (sm_total_time s)) (f64_of (sm_idx s)))].

(** Lines that say nothing to the harness. *)
Definition noise (l : string) : Prop :=
  find_after "DP[Throughput]: " l = None ∧ find_after "DP[Latency]: " l = None.
(** [mixed ls log]: the lines [ls], in order, among others. *)
Inductive mixed : list string → list string → Prop :=
  | mixed_nil : mixed [] []
  | mixed_line l ls log : mixed ls log → mixed (l :: ls) (l :: log)
  | mixed_noise l ls log : noise l → mixed ls log → mixed ls (l :: log).
End lines.

Section reading.
Context `{F64Laws}.

Lemma extract_marked c a p pre rest v :
  is_char c a = true → free c pre = true → no_space rest = true → f64_parse rest = Some v →
  extract_after (pre +:+ String a p +:+ rest) (String a p) = Some v.
Proof.
  intros Ha Hpre Hrest Hv. unfold extract_after. rw (find_after_app c) //=. by rw trim_id.
Qed.
(** The other marker shares the first letter only. *)
Lemma other_marker pre rest (m m' : string) :
  m = "DP[Throughput]: " ∧ m' = "DP[Latency]: " ∨ m = "DP[Latency]: " ∧ m' = "DP[Throughput]: " →
  free 68 pre = true → free 68 rest = true → find_after m (pre +:+ m' +:+ rest) = None.
Proof.
  assert (∀ p a s, strip_prefix p (String a s) = None → find_after p (String a s) = find_after p s) as Hskip.
  { intros p a s E. cbn [find_after]. by rw E. }
  intros Hm Hpre Hrest. induction pre as [|a pre IH].
  - assert (∃ t, m' = String "D" t ∧ free 68 t = true) as (t & Et & Ht) by (destruct Hm as [[_ ->]|[_ ->]]; by eexists).
    assert (find_after m (String "D" (t +:+ rest)) = find_after m (t +:+ rest)) as E.
    { apply Hskip. destruct Hm as [[-> ->]|[-> ->]]; by injection Et as <-. }
    rw Et. refine (eq_trans E _).
    assert (free 68 (t +:+ rest) = true) by (by rw all_chars_app Ht).
    destruct Hm as [[-> _]|[-> _]]; by apply (find_after_free 68).
  - apply andb_true_iff in Hpre as [Ha Hpre]. refine (eq_trans (Hskip m a _ _) (IH Hpre)).
    destruct Hm as [[-> _]|[-> _]]; cbn [strip_prefix];
      (destruct (Ascii.eqb_spec "D" a) as [<-|_]; done).
Qed.

Lemma pretty_no_space (n : N) : no_space (pretty n) = true.
Proof. apply all_chars_pretty, digit_cases. repeat constructor. Qed.

Lemma note_latency acc pre rest v :
  free 68 pre = true → free 68 rest = true → no_space rest = true → f64_parse rest = Some v →
  note_line acc (pre +:+ "DP[Latency]: " +:+ rest) = (acc.1, Some v).
Proof.
  intros Hp Hr Hs Hv. unfold note_line. rw (extract_marked 68 _ _ pre rest v) //.
  unfold extract_after. rw other_marker //. by left.
Qed.
Lemma note_throughput acc pre rest v :
  free 68 pre = true → free 68 rest = true → no_space rest = true → f64_parse rest = Some v →
  note_line acc (pre +:+ "DP[Throughput]: " +:+ rest) = (Some v, acc.2).
Proof.
  intros Hp Hr Hs Hv. unfold note_line. rw (extract_marked 68 _ _ pre rest v) //.
  unfold extract_after. rw other_marker //. by right.
Qed.
Lemma note_noise acc l : noise l → note_line acc l = acc.
Proof. intros [E1 E2]. unfold note_line, extract_after. rw E1 E2. by destruct acc. Qed.

Lemma note_mixed ls log acc : mixed ls log → foldl note_line acc log = foldl note_line acc ls.
Proof.
  intros Hm. revert acc. induction Hm as [|l ls log _ IH|l ls log Hl _ IH]; intros acc; simpl; [done|apply IH|].
  by rw note_noise.
Qed.

(** The last latency stays. *)
Lemma note_latencies medians acc :
  foldl note_line acc (latency_line <$> medians) =
    (acc.1, match last medians with Some m => Some (f64_of m) | None => acc.2 end).
Proof.
  revert acc. induction medians as [|m medians IH]; intros acc; [by destruct acc|]. cbn [fmap list_fmap foldl].
  assert (note_line acc (latency_line m) = (acc.1, Some (f64_of m))) as ->.
  { apply (note_latency acc "" (pretty m)); [done|apply free_pretty; lia|apply pretty_no_space|apply f64_int_back]. }
  rw IH last_cons. by destruct (last medians).
Qed.

(** What the harness makes of node 0's log. *)
Lemma extract_throughputs secs counts log :
  mixed (throughput_line secs <$> counts) log →
  omap (λ l, extract_after l "DP[Throughput]: ") log =
    (λ n, f64_div (f64_of n) (f64_of secs)) <$> counts.
Proof.
  intros Hm. remember (throughput_line secs <$> counts) as ls eqn:E. revert counts E.
  induction Hm as [|l ls log _ IH|l ls log [Hl _] _ IH]; intros counts E.
  - by destruct counts.
  - destruct counts as [|n counts]; [done|]. injection E as -> ->. cbn [omap list_omap fmap list_fmap].
    set (v := f64_div (f64_of n) (f64_of secs)).
    assert (extract_after (throughput_line secs n) "DP[Throughput]: " = Some v) as ->.
    { apply (extract_marked 68 _ _ "" (f64_show v)); [done|done|apply f64_show_no_space|apply f64_show_back]. }
    f_equal. by apply IH.
  - cbn [omap list_omap]. unfold extract_after at 1. rw Hl. by apply IH.
Qed.
End reading.

(** ** A client that returns has reported *)
Section clients.
Context `{Bincode}.
Import KeyedClient.
Implicit Types st : State.

(** Nothing was confirmed, or a sample waits, or a median was printed. *)
Definition sampled st : Prop := num_cmds st = 0%N ∨ window_samples st ≠ [] ∨ printed st ≠ [].

Lemma confirm_sampled now h : keeps sampled (confirm now h).
Proof.
  apply keeps_modify. intros st Hs. destruct (time_map st !! h); [|done]. right. left. simpl.
  by intros []%app_nil.
Qed.
Lemma drain_sampled now ready : keeps sampled (drain now ready).
Proof.
  induction ready as [|[| |[]] ready IH]; simpl; auto using keeps_ret.
  apply keeps_bind; [apply confirm_sampled|done].
Qed.
Lemma emit_sampled st a st' : emit_latency st = Done a st' →
  num_cmds st' = num_cmds st ∧ (window_samples st ≠ [] ∨ printed st ≠ [] → printed st' ≠ []).
Proof.
  unfold emit_latency. destruct (emit_window_latency_spec (window_samples st)) as (out & -> & Ho).
  intros [= _ <-]. split; [done|]. simpl. destruct out as [m|]; [by intros _ []%app_nil|].
  rw app_nil_r. naive_solver.
Qed.
Lemma emit_keeps_sampled : keeps sampled emit_latency.
Proof.
  intros st a st' Hs E. apply emit_sampled in E as [En Hp]. destruct Hs as [Hz|Hs]; [left; congruence|].
  right. right. by apply Hp.
Qed.
Lemma burst_sampled now : keeps sampled (on_burst now).
Proof.
  assert (∀ count, keeps sampled (mint_batch now count)) as Hm.
  { induction count as [|count IH]; simpl; keeps_go ltac:(apply keeps_modify; intros; assumption). }
  unfold on_burst. keeps_go ltac:(apply keeps_modify; intros; assumption).
Qed.
(** At the end the last window was flushed. *)
Lemma finish_sampled st fin st' : sampled st → finish st = Done fin st' →
  if fin then printed st' ≠ [] else sampled st'.
Proof.
  intros Hs. unfold finish, bind, get. destruct (metric st <? num_cmds st)%N eqn:E; [|by intros [= <- <-]].
  apply N.ltb_lt in E. destruct (emit_latency st) as [a st1| |] eqn:Ee; [|done..]. intros [= <- <-].
  apply emit_sampled in Ee as [_ Hp]. apply Hp. destruct Hs as [Hz|Hs]; [lia|done].
Qed.
Lemma react_sampled ev st fin st' : sampled st → react ev st = Done fin st' →
  if fin then printed st' ≠ [] else sampled st'.
Proof.
  intros Hs.
  assert (∀ m : M State unit, keeps sampled m → (m;;; finish) st = Done fin st' →
    if fin then printed st' ≠ [] else sampled st') as Hfin.
  { intros m Hm. unfold bind. destruct (m st) as [[] st1| |] eqn:E; [|done..]. apply finish_sampled. by eapply Hm. }
  destruct ev as [|now|now [| |[]] ready]; cbn [react]; try (by intros [= <- <-]); try (by apply finish_sampled);
    try (by apply Hfin; auto using emit_keeps_sampled, burst_sampled).
  intros E. apply (Hfin (confirm now h;;; drain now ready)).
  - apply keeps_bind; [apply confirm_sampled|intros; apply drain_sampled].
  - revert E. unfold bind. by destruct (confirm now h st).
Qed.
Lemma run_sampled evs st st' : sampled st → run evs st = Done true st' → printed st' ≠ [].
Proof.
  revert st. induction evs as [|ev evs IH]; intros st Hs; [done|]. cbn [run]. unfold bind.
  destruct (react ev st) as [fin st1| |] eqn:E; [|done..]. apply react_sampled in E; [|done].
  destruct fin; [by intros [= <-]|by apply IH].
Qed.
End clients.

(** The window-limited client stores its report before it returns. *)
Lemma window_reports `{Bincode} evs st st' :
  WindowClient.run evs st = Done true st' → is_Some (WindowClient.report st').
Proof.
  assert (∀ now st st', WindowClient.finish now st = Done true st' → is_Some (WindowClient.report st')) as Hf.
  { intros now s s'. unfold WindowClient.finish, bind, get. destruct (_ <? _)%N; [|done].
    destruct (statistics _ _ _ _) as [e sm| |]; [|done..]. intros [= <-]. by eexists. }
  revert st. induction evs as [|[ev t_end] evs IH]; intros st; [done|]. cbn [WindowClient.run]. unfold bind.
  destruct (WindowClient.react ev t_end st) as [fin st1| |] eqn:E; [|done..].
  destruct fin; [|apply IH]. intros [= <-]. revert E. unfold WindowClient.react, bind, get.
  destruct ev as [now|now [| |[b hs p|h|h b]]]; try done; [|by apply Hf|].
  - destruct (0 <? _)%N; [|done]. destruct (WindowClient.send_tx now st) as [[] st2| |]; [|done..]. by apply Hf.
  - destruct (WindowClient.on_new_block now b hs st) as [[] st2| |]; [done| |done..]. by apply Hf.
Qed.

(** ** From the counters to the harness *)
Section harness.
Context `{Bincode} `{Store} `{NetOracle} `{F64Laws}.

(** C33.  What a client measured is what the harness gets.  An Apollo or Artemis
    client that returns has printed a latency; if every other line of its log
    is one without the two markers `DP[Throughput]: ` and `DP[Latency]: `, the
    harness reads the median of the client's last window from it, and no
    throughput (the client prints none, whatever the doc comment of `start`
    says).  A Sync HotStuff or Opt Sync client that returns has a report of
    `statistics`; if its two lines are in the log, behind logger prefixes
    without a letter D and among lines without the markers, the harness reads
    the transactions per second and the mean latency that `statistics`
    computed. *)
Theorem harness_reads_clients j path log :
  (∀ c metric txs_per_burst evs st0 st,
     KeyedClient.init c metric txs_per_burst = Some st0 → KeyedClient.run evs st0 = Done true st →
     mixed (latency_line <$> KeyedClient.printed st) log →
     ∃ m, last (KeyedClient.printed st) = Some m ∧ parse_client j path (Some log) = Ok (None, f64_of m)) ∧
  (∀ evs pre st0 st,
     WindowClient.run evs st0 = Done true st → free 68 pre = true →
     ∃ s elapsed, WindowClient.report st = Some (s, elapsed) ∧
       (mixed (statistics_lines pre s elapsed) log → parse_client j path (Some log) =
          Ok (Some (f64_div (f64_of (sm_idx s)) (as_secs_f64 elapsed)),
              f64_div (f64_of (sm_total_time s)) (f64_of (sm_idx s))))).
Proof.
  split.
  - intros c metric burst evs st0 st Hi Hr Hm.
    assert (sampled st0) as Hs.
    { unfold KeyedClient.init in Hi. destruct (parse_entries _ _); [|done]. simpl in Hi.
      destruct (parse_addr _); [|done]. injection Hi as <-. by left. }
    pose proof (run_sampled evs st0 st Hs Hr) as Hp. apply last_is_Some in Hp as [m Hlast].
    exists m. split; [done|]. unfold parse_client. by rw (note_mixed _ _ _ Hm) note_latencies Hlast.
  - intros evs pre st0 st Hr Hpre. destruct (window_reports _ _ _ Hr) as [[s elapsed] Hrep].
    exists s, elapsed. split; [done|]. intros Hm. unfold parse_client. rw (note_mixed _ _ _ Hm).
    unfold statistics_lines. cbn [foldl].
    erewrite note_throughput, note_latency; [done|done|apply f64_show_free_D|apply f64_show_no_space
      |apply f64_show_back|done|apply f64_show_free_D|apply f64_show_no_space|apply f64_show_back].
Qed.

(** A log with the samples of a node. *)
Lemma read_log secs counts log :
  Forall (λ l, free 10 l = true ∧ free 13 l = true) log → mixed (throughput_line secs <$> counts) log →
  parse_server_throughput_median (Some (unlines log)) =
    f64_median ((λ n, f64_div (f64_of n) (f64_of secs)) <$> counts).
Proof.
  intros Hl Hm. unfold parse_server_throughput_median. simpl. by rw lines_unlines // (extract_throughputs secs counts).
Qed.


(** Artemis' sampler is the same. *)
Theorem artemis_throughput_reported `{Clock} config bs ins cx0 cx log :
  let secs := Artemis.bench_emit_window_secs cx0 in
  let counts := ArtemisMeter.artemis_printed ins cx0 in
  Artemis.reactor_start config bs = Some cx0 → Artemis.run ins cx0 = Done tt cx →
  Forall (λ l, free 10 l = true ∧ free 13 l = true) log → mixed (throughput_line secs <$> counts) log →
  (tx_total (Artemis.to_router cx) < u64_size)%N →
  parse_server_throughput_median (Some (unlines log)) =
    f64_median ((λ n, f64_div (f64_of n) (f64_of secs)) <$> counts) ∧
  (total counts + Artemis.bench_committed_tx_count cx = tx_total (Artemis.to_router cx))%N.
Proof.
  intros secs counts Hst Hr Hl Hm Hlt. split; [by apply read_log|].
  by apply (ArtemisMeter.artemis_printed_total config bs ins cx0 cx).
Qed.
End harness.

(** ** The metrics of an Artemis node *)
Section metrics.
Context `{F64}.

Definition EDGES : list string :=
  ["    0 -  100us"; "  100 -  500us"; "  500us-   1ms"; "    1 -    5ms"; "    5 -   10ms";
   "   10 -   50ms"; "   50 -  100ms"; "  100 -  500ms"; "  500ms+      "].

Definition bucket_row (count : N) (edge : string) (n : N) : string :=
  let pct := f64_div (f64_mul (f64_of n) (f64_of 100)) (f64_of count) in
  let bar := repeat_str "#" (N.to_nat (f64_as_usize (f64_div pct (f64_of 2)))) in
  "    " +:+ edge +:+ "  " +:+ right_in 6 (pretty n) +:+ "  " +:+ right_in 5 (f64_fixed 1 pct) +:+ "%  " +:+ bar.

(** `Histogram::print`: a row per bucket that is not empty. *)
Definition histogram_print (name : string) (h : Histogram) : list string :=
  if (count h =? 0)%N then ["  [" +:+ left_in 18 name +:+ "] (no samples)"]
  else
    ("  [" +:+ left_in 18 name +:+ "] n=" +:+ left_in 6 (pretty (count h)) +:+ " mean=" +:+
       right_in 7 (pretty (sum_us h / count h)%N) +:+ "us max=" +:+ right_in 7 (pretty (max_us h)) +:+ "us") ::
    (uncurry (bucket_row (count h)) <$> filter (λ en, en.2 ≠ 0%N) (zip EDGES (buckets h))).

(** `Metrics::print_summary`, [elapsed] nanoseconds after the start. *)
Definition counter_row (name : string) (n elapsed : N) : string :=
  "  " +:+ name +:+ " = " +:+ right_in 6 (pretty n) +:+ "  (" +:+
  f64_fixed 0 (f64_div (f64_of n) (as_secs_f64 elapsed)) +:+ "/s)".
Definition metrics_summary (myid elapsed : N) (m : Metrics) : list string :=
  let line := "=========================================================" in
  [""; line; "  artemis metrics  node " +:+ pretty myid +:+ "  t=" +:+ f64_fixed 2 (as_secs_f64 elapsed) +:+ "s"; line;
   counter_row "reactor_iters " (reactor_iters m) elapsed; counter_row "proposes      " (proposes m) elapsed;
   counter_row "votes         " (votes_cast m) elapsed; counter_row "round_advances" (round_advances m) elapsed;
   counter_row "batch_recvs   " (batch_recvs m) elapsed; ""; "  inter-event histograms:"] ++
  histogram_print "inter_propose" (inter_propose m) ++ histogram_print "inter_vote" (inter_vote m) ++
  histogram_print "inter_round_adv" (inter_round_advance m) ++
  histogram_print "inter_batch_recv" (inter_batch_recv m) ++ [line].

(** One heading, and one row per bucket that was hit. *)
Lemma histogram_rows name h :
  count h ≠ 0%N → length (buckets h) = 9 →
  length (histogram_print name h) = S (length (filter (λ n, n ≠ 0%N) (buckets h))).
Proof.
  intros Hc Hl. unfold histogram_print. destruct (count h =? 0)%N eqn:E; [by apply N.eqb_eq in E|].
  cbn [length]. rw length_fmap. f_equal. assert (length EDGES = length (buckets h)) as Hlen by (by rw Hl).
  revert Hlen. generalize EDGES (buckets h). clear. intros l k. revert k.
  induction l as [|e l IH]; intros [|n k]; simpl; [done..|]. intros [= Hlen].
  destruct (decide (n = 0%N)) as [->|Hn].
  - rw filter_cons_False; [|naive_solver]. rw filter_cons_False; [|naive_solver]. by apply IH.
  - rw filter_cons_True //. rw filter_cons_True //. simpl. f_equal. by apply IH.
Qed.
End metrics.

(** ** The summary table *)
Section table.
Context `{F64}.

(** The columns of a configuration fit. *)
Definition row_fits (c : BenchConfig) : Prop :=
  char_count (pretty (bc_num_nodes c)) ≤ 4 ∧ char_count (pretty (bc_num_faults c)) ≤ 4 ∧
  char_count (pretty (bc_num_clients c)) ≤ 4 ∧ char_count (pretty (bc_block_size c)) ≤ 5 ∧
  char_count (pretty (bc_total_txs c)) ≤ 7.

Lemma summary_row_width (p n f c blk txs rest : string) :
  char_count p ≤ 16 → char_count n ≤ 4 → char_count f ≤ 4 → char_count c ≤ 4 → char_count blk ≤ 5 →
  char_count txs ≤ 7 → char_count (summary_row p n f c blk txs rest) = 48 + char_count rest.
Proof.
  intros. assert (∀ a b d e g h : string, char_count ("│ " +:+ a +:+ " " +:+ b +:+ " " +:+ d +:+ " " +:+ e +:+
    " " +:+ g +:+ " " +:+ h +:+ " " +:+ rest) = 8 + char_count a + char_count b + char_count d +
    char_count e + char_count g + char_count h + char_count rest) as Hcells.
  { intros. rw !char_count_app. simpl. lia. }
  unfold summary_row. rw Hcells left_in_width !right_in_width. lia.
Qed.
Lemma config_row_width c r : row_fits c → char_count (config_row (c, r)) = 48 + char_count (result_cells r).
Proof.
  intros (H1 & H2 & H3 & H4 & H5). apply summary_row_width; [|done..].
  simpl. destruct (bc_protocol c); simpl; lia.
Qed.

(** A failed run's row is as wide as the header; the numbers of a run that
    succeeded end three columns before it. *)
Theorem summary_table_width c r :
  row_fits c →
  char_count (config_row (c, None)) = char_count summary_header ∧
  (char_count (f64_fixed 2 (throughput r)) ≤ 10 → char_count (f64_fixed 2 (latency_ms r)) ≤ 11 →
   char_count (config_row (c, Some r)) + 3 = char_count summary_header).
Proof.
  intros Hc. rw !config_row_width //. split; [reflexivity|]. intros Ht Hl. unfold result_cells.
  assert (∀ a b : string, char_count (a +:+ " tx/s " +:+ b +:+ " ms") = 9 + char_count a + char_count b) as Hcells.
  { intros. rw !char_count_app. simpl. lia. }
  rw Hcells !right_in_width Nat.max_l // Nat.max_l //.
Qed.
End table.

(** ** Examples *)
Module ReportExamples.
Import Toy ToyFormat.

(** Whole numbers for `f64`, parsed without a bound. *)
Fixpoint digits (s : string) (acc : N) : option N :=
  match s with
  | EmptyString => Some acc
  | String a s' => d ← to_digit 10 a; digits s' (acc * 10 + d)%N
  end.
Definition parse_whole (s : string) : option N :=
  match s with
  | EmptyString => None
  | String a s' =>
      if is_char 43 a then match s' with EmptyString => None | _ => digits s' 0 end else digits s 0
  end.
#[local] Instance whole : F64 := {
  f64 := N; f64_zero := 0%N; f64_of n := n; f64_add := N.add; f64_mul := N.mul; f64_div := N.div;
  f64_parse := parse_whole; f64_le := N.le; f64_show := pretty; f64_fixed k n := pretty n +:+ ".00";
  f64_as_usize n := n;
}.

Lemma parse_whole_uint size s n : parse_uint size s = Some n → parse_whole s = Some n.
Proof.
  assert (∀ s acc, parse_digits size s acc = Some n → digits s acc = Some n) as Hd.
  { clear s. induction s as [|a s IH]; intros acc; [done|]. simpl. destruct (to_digit 10 a); [|done].
    simpl. destruct (_ <? size)%N; [apply IH|done]. }
  unfold parse_uint, parse_whole. destruct s as [|a s]; [done|].
  destruct (is_char 43 a); [destruct s; [done|]|]; apply Hd.
Qed.
Lemma parse_whole_pretty (n : N) : parse_whole (pretty n) = Some n.
Proof. apply (parse_whole_uint (N.succ n)), parse_uint_pretty. lia. Qed.
#[local] Instance whole_laws : F64Laws.
Proof.
  split; [exact parse_whole_pretty|exact parse_whole_pretty|exact pretty_no_space|].
  intros x. apply free_pretty. lia.
Qed.

(** A client confirmed three transactions in two windows. *)
Definition client_evs : list KeyedClient.event :=
  [KeyedClient.EvBurst 10; KeyedClient.EvConfirm 3000010 (Item (Confirmation (KeyedClientExamples.h 1))) [];
   KeyedClient.EvLatWindow; KeyedClient.EvBurst 4000010;
   KeyedClient.EvConfirm 9000010 (Item (Confirmation (KeyedClientExamples.h 3)))
     [Item (Confirmation (KeyedClientExamples.h 4))]].
Definition window_evs : list (WindowClient.event * N) :=
  [(WindowClient.EvServer 6 (WindowClientExamples.announce []), 6%N);
   (WindowClient.EvServer 7 (WindowClientExamples.announce
      [WindowClientExamples.th 7; WindowClientExamples.th 8; WindowClientExamples.th 9]), 7%N)].

Lemma harness_reads_clients_witness :
  parse_client 0 "c.log" (Some ["connected"; "DP[Latency]: 3"; "bye"; "DP[Latency]: 5"]) = Ok (None, 5%N) ∧
  ∃ st, WindowClient.run window_evs WindowClientExamples.st0 = Done true st ∧
    is_Some (WindowClient.report st).
Proof.
  set (log := ["connected"; "DP[Latency]: 3"; "bye"; "DP[Latency]: 5"]).
  destruct (harness_reads_clients 0 "c.log" log) as [Hk Hw]. split.
  - destruct (KeyedClient.run client_evs KeyedClientExamples.st0) as [fin st| |] eqn:E;
      [|vm_compute in E; discriminate..].
    assert (fin = true ∧ KeyedClient.printed st = [3%N; 5%N]) as [-> Hp].
    { assert (Done fin st = KeyedClient.run client_evs KeyedClientExamples.st0) as E' by (symmetry; exact E).
      vm_compute in E'. injection E' as -> ->. split; reflexivity. }
    destruct (Hk _ _ _ _ _ st KeyedClientExamples.init_cli E) as (m & Hm & Hlog).
    { rw Hp. repeat first [apply mixed_nil | apply (mixed_noise "connected"); [split; reflexivity|]
        | apply (mixed_noise "bye"); [split; reflexivity|] | apply mixed_line]. }
    rw Hp in Hm. injection Hm as <-. exact Hlog.
  - destruct (WindowClient.run window_evs WindowClientExamples.st0) as [fin st| |] eqn:E;
      [|vm_compute in E; discriminate..].
    assert (fin = true) as ->.
    { assert (Done fin st = WindowClient.run window_evs WindowClientExamples.st0) as E' by (symmetry; exact E).
      vm_compute in E'. by injection E' as -> _. }
    exists st. split; [reflexivity|]. destruct (Hw _ "INFO [consensus] " _ _ E) as (s & e & Hr & _); [reflexivity|].
    by rw Hr.
Defined.

(** The example node of ApolloProofs.v as the one that reports, through two
    rounds, a batch of its own and the end of a window. *)
Import ApolloProofs.ApolloProofs.Examples.
Definition meter_cfg : Node := cfg <| Config.bench_metrics_node := 2%N |>.
Definition meter_ins : list Apollo.input := ins1 ++ ins2.

Definition meter_start : Apollo.Context := Eval vm_compute in
  match Apollo.reactor_start meter_cfg bs0 with Some cx => cx | None => dummy end.
Lemma meter_starts : Apollo.reactor_start meter_cfg bs0 = Some meter_start.
Proof. vm_compute. reflexivity. Qed.
Definition meter_end : Apollo.Context := final meter_start (Apollo.run meter_ins meter_start).
Lemma meter_runs : Apollo.run meter_ins meter_start = Done tt meter_end.
Proof. apply is_done_final. vm_compute. reflexivity. Qed.
Lemma meter_prints : ApolloMeter.apollo_printed meter_ins meter_start = [2%N].
Proof. vm_compute. reflexivity. Qed.

End ReportExamples.
