(* ===== verification/Process.v ===== *)
(** * The processes around the nodes and clients

    What a main of examples/*/ does besides starting its protocol: raise the
    descriptor limit and say so, set the log level from the number of `-v`,
    and choose the certificate and key that every TLS socket of a node is
    opened with. *)

From stdpp Require Import pretty.
From S2P Require Import Prelude Crypto Types Text Format Config GenConfig Batch Legacy Launch Disk StressTest Report.

(** ** The descriptor limit

    `fdlimit::raise_fd_limit()` is a library call; its outcome is given. *)
Inductive FdOutcome :=
  | LimitRaised (from to : N)
  | Unsupported
  | FdError (e : string).
Inductive Stream := Stdout | Stderr.

Definition fd_limit_line (o : FdOutcome) : Stream * string :=
  match o with
  | LimitRaised from to =>
      (Stdout, "Raised FD limit: " +:+ pretty from +:+ " -> " +:+ pretty to)
  | Unsupported => (Stdout, "FD limit raise: unsupported on this platform")
  | FdError e => (Stderr, "FD limit raise failed: " +:+ e +:+ "; continuing with current limit")
  end.

Lemma strip_prefix_split p l r : strip_prefix p l = Some r → l = p +:+ r.
Proof.
  revert l. induction p as [|a p IH]; intros l; simpl.
  { intros E. injection E as <-. reflexivity. }
  destruct l as [|b l]; [done|]. destruct (Ascii.eqb_spec a b) as [->|]; [|done]. intros ->%IH. reflexivity.
Qed.
Lemma find_after_contains p l r : find_after p l = Some r → ∃ pre, l = pre +:+ p +:+ r.
Proof.
  induction l as [|a l IH]; cbn [find_after];
    destruct (strip_prefix p _) as [r'|] eqn:E; try done.
  - intros [= <-]. exists "". exact (strip_prefix_split _ _ _ E).
  - intros [= <-]. exists "". exact (strip_prefix_split _ _ _ E).
  - intros [pre ->]%IH. by exists (String a pre).
Qed.

(** A line without a bracket says nothing to the harness. *)
Lemma no_bracket_noise l : free 91 l = true → noise l.
Proof.
  intros Hl. split; destruct (find_after _ l) as [r|] eqn:E; [|done| |done]; exfalso;
    apply find_after_contains in E as [pre ->]; rw !all_chars_app andb_true_iff in Hl;
    by destruct Hl as [_ [Hl _]%andb_true_iff].
Qed.

(** What a client prints on its standard output about its limit is not
    mistaken for a measurement, whatever the limits are. *)
Lemma fd_limit_noise o l : fd_limit_line o = (Stdout, l) → noise l.
Proof.
  intros E. apply no_bracket_noise. destruct o as [from to| |e]; [| |done]; injection E as <-; [|done].
  rw !all_chars_app !free_pretty; [done|lia..].
Qed.

(** ** The log level *)
Inductive LevelFilter := Info | Debug | Trace.
Definition log_level (occurrences : N) : LevelFilter :=
  match occurrences with
  | 0%N => Info
  | 1%N => Debug
  | _ => Trace
  end.

(** ** TLS *)
Record CertSource := mkPemFiles { cert_chain : string; private_key : string }.
Definition tls_options (c : Node) : CertSource := mkPemFiles (my_cert_path c) (my_cert_key_path c).

Lemma update_one_tls c idx ip a c' :
  node_update_one c idx ip = Done a c' → tls_options c' = tls_options c.
Proof. unfold node_update_one. repeat case_match; intros; simplify_eq/=; done. Qed.
Lemma update_config_tls ips : ∀ idx c a c',
  node_update_config idx ips c = Done a c' → tls_options c' = tls_options c.
Proof.
  induction ips as [|ip ips IH]; intros idx c a c'; simpl; [by intros [= _ <-]|].
  destruct (node_update_one c idx ip) as [a1 c1| |] eqn:E; [|done..].
  intros E'. rw (IH _ _ _ _ E'). by eapply update_one_tls.
Qed.

(** No option of the command line changes the identity in the configuration
    file. *)
Lemma node_setup_tls `{Host} m s :
  node_setup m = Ok s → ∃ path c, load read_node m = Ok (path, c) ∧
    tls_options (s_config s) = tls_options c.
Proof.
  unfold node_setup. destruct (load read_node m) as [[path c]|] eqn:El; [|done].
  cbn [mbind result_bind]. destruct (override m "delta" _) as [d|]; [|done]. cbn [mbind result_bind].
  destruct (override m "sleep" _) as [sl|]; [|done]. cbn [mbind result_bind].
  destruct (validated _); [|done]. cbn [mbind result_bind].
  destruct (apply_ips m _) as [c'|] eqn:Ei; [|done]. cbn [mbind result_bind].
  match goal with |- ?o ≫= _ = _ → _ => destruct o as [p|] end; [|done].
  intros [= <-]. exists path, c. split; [done|]. simpl. unfold apply_ips in Ei.
  destruct (m !! "ip") as [f|]; [|by injection Ei as <-].
  destruct (file_to_ips f); [|done]. cbn [mbind result_bind expect] in Ei.
  destruct (node_update_config _ _ _) as [[] c1| |] eqn:Eu; [|done..]. injection Ei as <-.
  by rw (update_config_tls _ _ _ _ _ Eu).
Qed.

(** ** The identity of a generated node *)
Section generated.
Context `{HostDisk} `{OpenSSL} `{!Serde Node} `{!SerdeLaws Node} `{!Serde Client} `{!SerdeLaws Client}.
Context `{!SerdeTotal Node} `{!SerdeTotal Client}.
Context `{Bincode} `{Host} `{KeyTools}.

(** A node of a generated cluster, whatever options it is started with, opens
    its sockets with a chain from a leaf that the cluster's root signed up to
    that root, and with the key of that leaf. *)
Theorem generated_tls (m : Args) g root root_pem fs :
  parse_args m = Ok g → sound g → works g root root_pem → out_format (g_out g) = Some (JSON, "json") →
  ∃ fs', genconfig_main m fs = Done (Some tt) fs' ∧
    ∀ i args s, (i < g_num_nodes g)%N →
      args !! "config" = Some (conf_path g ("nodes-" +:+ pretty i) "json") →
      node_setup (H0 := fs_host fs') args = Ok s →
      ∃ root_path, certified fs' root root_pem (g_node_sans g) root_path
        (cert_chain (tls_options (s_config s))) (private_key (tls_options (s_config s))).
Proof.
  intros Ha Hs Hw Ho.
  destruct (genconfig_main_run g root root_pem Hw m fs JSON "json" Ha Hs Ho ltac:(done))
    as (fs' & rp & ns & cs & _ & E & _).
  exists fs'. split; [done|]. intros i args s Hi Hc Hset.
  destruct (node_certified m g root root_pem fs fs' JSON "json" i Ha Hs Hw Ho ltac:(done) E Hi) as (c & Hr & Hcert).
  destruct (node_setup_tls (H0 := fs_host fs') args s Hset) as (path & c' & El & ->).
  exists (root_cert_path c). unfold load in El. destruct (get_matches args); [|done].
  rw Hc /= conf_extension in El; try done;
    [|by rw all_chars_app free_pretty; [|lia]].
  simpl in El. unfold fs_host in El. simpl in El. simpl in Hr. rw Hr in El. simpl in El.
  injection El as _ <-. exact Hcert.
Qed.
End generated.
